(* ===== verification/_CoqProject ===== *)
-Q . S2P
Prelude.v
Utf8.v
H3.v
ParserMemory.v
FrameParser.v
Headers.v
Net.v
IpText.v
Tls.v
TestCert.v
Quic.v
Float64.v
SessionState.v
SessionRecv.v
SessionConnect.v
SessionStreams.v
SessionSend.v
SessionInv.v
SessionRecvInv.v
SessionSendInv.v
SessionFrame.v
SessionFlow.v
SessionWire.v
SessionTable.v
SessionCapsule.v
SessionHandshake.v
SessionReassembly.v
Session.v
SessionTypes.v
SessionPressure.v
SessionCarry.v
SessionTransfer.v
SessionBooks.v
SessionClose.v
SessionStall.v
SessionDatagrams.v
RetryToken.v
EventLoop.v
EchoServer.v
EchoSpec.v
EchoInv.v
Driver.v
NativeApi.v
Server.v
NativeCalls.v
NativeEvents.v
NativeBridge.v
NativeConnect.v
ServerInv.v
ServerLoop.v
System.v
