(* ===== verification/Prelude.v ===== *)
(** * A verification library for rwebtransport

    rwebtransport is a WebTransport (HTTP/3 over QUIC) client and server for
    Node.js, written in Rust.  This library models its Rust code, translated
    from the sources definition by definition, and proves what the code is
    meant to guarantee.  This comment says which file models what, how the parts
    fit together, what the theorems show, and what is left out.

    ** The program and its model

    - The wire format, [src/crates/wtcore/src/h3.rs]: [H3] (varints, frames,
      SETTINGS, error codes, close reasons) and [Headers] (CONNECT headers,
      structured-field subprotocols, HEADERS frames).  [Utf8] has the parts of
      Rust's strings these rely on.
    - The allocation budget of the parsers,
      [src/crates/native/src/parser_memory.rs]: [ParserMemory].  The shared
      atomic counters are a store indexed by the identity of the [Arc].
    - The session, [src/crates/native/src/session.rs]: [FrameParser] (the
      incremental frame parser), [SessionState] (events, streams, [WtSession]),
      [SessionRecv] (closing, accounting, capsules), [SessionConnect] (CONNECT
      and control stream), [SessionStreams] (streams and datagrams from the
      peer), [SessionSend] (opening, writing, flushing, credit).  A method of
      [WtSession] is a computation [M (World C) A]: a function of the session,
      the QUIC connection, the counters and the events so far, whose result is
      missing exactly when the Rust code would panic or a loop would run out of
      its bound.
    - The event loops: [EventLoop] (what both share), [Driver]
      ([src/crates/native/src/driver.rs], the client's thread), [Server]
      ([src/crates/native/src/server.rs], the server's thread) and [RetryToken]
      (its stateless address validation).  One iteration is a function of a
      record of what the environment does in it: packets, commands, answers of
      the socket, and the orders in which hash maps are walked.
    - TLS and configuration, [src/crates/native/src/tls.rs] and
      [src/crates/native/src/config.rs]: [Tls].
    - The native module, [src/crates/native/src/lib.rs]: [NativeCalls] (exported
      functions as functions of JavaScript values, yielding the command they
      queue), [NativeEvents] (events as JavaScript objects), [NativeBridge] (the
      sinks that carry batches to the JavaScript thread), [NativeConnect]
      (URLs, [connect], [serverListen]) and [NativeApi] (number conversions, the
      back-pressure counter).  [Float64] has binary64 numbers, [Net] and
      [IpText] addresses and their text.
    - The test fixtures, [src/crates/echo-server/src/main.rs] and
      [src/crates/echo-server/src/bin/gen-test-cert.rs]: [EchoServer] and
      [TestCert].

    A JavaScript call becomes a command ([NativeCalls]), the event loop applies
    it to the session ([Driver], [Server]), the session's methods run against
    QUIC and push events, the loop emits the events of a round as one batch, and
    the batch becomes JavaScript objects ([NativeEvents]) for the application's
    callback ([NativeBridge]).  [System] composes these: an interface for the
    exported functions, one for a thread, and steps of the application, the
    thread and the bridge that interleave freely; the client and the server are
    its instances.

    ** Third-party code

    It is reached through type classes, whose operations are parameters and
    whose laws state documented behaviour: [Quic], [QuicLoop], [QuicServer]
    (quiche; laws [QuicLaws], [QuicWire], [QuicDatagrams], [QuicFin],
    [QuicResets], [QuicLoopLaws], [EchoLaws]), [Qpack] and [Sfv] ([Headers]),
    [Allocator] ([ParserMemory]), the SHA-256 of [RetryToken], [Asn1] ([Tls]) and
    [UrlParser] ([NativeConnect]).  Each class
    has a small concrete instance, on which the witnesses run the definitions.
    The answers of BoringSSL, the file system and the clock in [TestCert] are a
    record of inputs.

    ** The theorems

    - Whole runs.  [Session]: any sequence of calls and network events returns,
      conserves parser memory, and produces events that follow the lifecycle
      automaton of [SessionInv].  [Driver] and [ServerLoop]: every wake returns,
      batches follow the lifecycle across wakes, each session reports exactly
      one close, shutdown ends the loop, resources stay bounded, and an
      unvalidated packet leaves no state.  These rest on one preservation lemma
      per method ([SessionRecvInv], [SessionSendInv], [ServerInv]) for the
      invariant of [SessionInv].
    - Session behaviour.  [SessionReassembly]: a peer's stream is delivered
      whole however it is cut.  [SessionHandshake]: both ends agree on the
      outcome of CONNECT.  [SessionCapsule]: the capsule scanner refines the
      capsule protocol, and a close reaches a peer that has room for its
      capsule.  [SessionFlow]: limits, grants and blocked signals.
      [SessionBooks]: the books of a run, which bound what QUIC has accepted on all
      streams by the session's count and so by the peer's limit.  [SessionWire]: a flush sends a queue in
      order and settles each write once.  [SessionTransfer] composes the two
      directions: what one application writes on a stream the other is given,
      whatever else both do meanwhile (its sender's side rests on the frame
      rules of [SessionCarry]); [SessionDatagrams] does so for datagrams.
      [SessionClose]: in every run after a close the QUIC connection is closed
      once, and only behind the close capsule; [SessionStall]: the flow-control
      signal that can keep that close from coming.  [SessionTypes]: the roles of
      streams fit the bits of their ids, and streams are announced before
      anything is reported of them.  [SessionPressure]: back-pressure leaves application
      data in QUIC and stops nothing else.  [SessionFrame] has the frame rules,
      [SessionTable] what the receiving side leaves of the table of streams.
    - The whole module.  [System]: from the application's calls to its
      callback, for a client ([client_story]) and for a server ([server_story]).
    - The JavaScript boundary.  [NativeCalls]: commands reach the threads in
      order; [NativeBridge]: events reach the application in order, and
      back-pressure is released, under every interleaving of the threads.
    - Codecs and data.  Round trips and bounds of varints, SETTINGS, frames,
      subprotocols, commands and events; what a Retry token is made of and where
      it is accepted; conservation
      by the buffer operations.
    - Policy.  [Tls] and [NativeConnect]: pinned certificates are judged by the
      contract of [serverCertificateHashes], and a connection checks the
      identity its URL names.  [TestCert]: the generated certificate passes that
      contract, and with which arguments it does not.
    - The echo server.  [EchoSpec]: what is echoed; [EchoInv]: every wake
      returns, routes lead to live clients, and queues are sent in order.

    ** Bounds and fuel

    Integers are [N] with their wrap-around or saturation written out ([add64],
    [sub64], [saturating_add64]); indices into slices are [nat].  Loops that
    are not structural take fuel, and running out of it is the same missing
    result as a panic, so the theorems that a computation returns ([wp]) show
    the fuel suffices: reading loops take the bytes QUIC holds ([recv_bound],
    which each read decreases), parsing loops the bytes buffered (each frame or
    capsule takes some), sending loops the bytes or packets queued.
    The server's theorems assume fewer than 2^64 accepted connections.

    ** Not modelled

    The vendored quiche and BoringSSL, neon's binding machinery, mio's poller
    and the sockets (interfaces or inputs); [catch_unwind] around the threads
    (what the threads report of a caught panic is modelled, [run_panicked]; the
    theorems show that the modelled code does not panic), the hook by which the
    tests provoke a panic, and joining a thread when its handle is collected;
    log and debug output;
    the unit tests' support code, which only calls libraries; the [wtcore] crate
    root, which only declares a module; and the TypeScript layer.  Code the
    repository has twice has one definition: [closure_info] and [random_scid]
    are in [driver.rs] and in [server.rs], and the two kinds of handle send their
    commands alike.  Random bytes, connection ids among them, are inputs. *)

From Stdlib Require Export NArith Lia Strings.Byte.
From stdpp Require Export base list gmap option numbers fin_maps.
From stdpp Require Export strings.
From stdpp Require Import pretty.

#[global] Set Default Goal Selector "!".
#[export] Set Warnings "-clear-no-such-hyp".
#[global] Open Scope N_scope.

Declare Scope rwt_scope.
Delimit Scope rwt_scope with rwt.
#[global] Open Scope rwt_scope.

(** The hint databases of the development: [rwt] for [eauto] and [rwt_simp]
    for [autorewrite]. *)
Create HintDb rwt.
Create Rewrite HintDb rwt_simp.

(** ** Arithmetic automation *)

(** [nlia] is [lia] after the division and remainder of [N], [nat] and [Z]
    have been replaced by their defining equations. *)
Ltac nlia := zify; Z.to_euclidean_division_equations; lia.

(** Case analysis on the boolean comparisons of [N] and [nat]. *)
Ltac cases_N :=
  repeat match goal with
  | |- context [N.ltb ?a ?b] => destruct (N.ltb_spec a b)
  | |- context [N.leb ?a ?b] => destruct (N.leb_spec a b)
  | |- context [N.eqb ?a ?b] => destruct (N.eqb_spec a b)
  | |- context [Nat.ltb ?a ?b] => destruct (Nat.ltb_spec a b)
  | |- context [Nat.leb ?a ?b] => destruct (Nat.leb_spec a b)
  | |- context [Nat.eqb ?a ?b] => destruct (Nat.eqb_spec a b)
  end.

(** The same for the comparisons a hypothesis carries. *)
Ltac cases_N_in H :=
  repeat match type of H with
  | context [N.ltb ?a ?b] => destruct (N.ltb_spec a b)
  | context [N.leb ?a ?b] => destruct (N.leb_spec a b)
  | context [N.eqb ?a ?b] => destruct (N.eqb_spec a b)
  | context [Nat.ltb ?a ?b] => destruct (Nat.ltb_spec a b)
  | context [Nat.leb ?a ?b] => destruct (Nat.leb_spec a b)
  | context [Nat.eqb ?a ?b] => destruct (Nat.eqb_spec a b)
  end.

(** ** Machine integers

    A [u64] or [usize] is an [N] below [2^64].  Rust's release arithmetic
    wraps; the saturating and checked operations are written out. *)

Definition U64 : N := 2 ^ 64.
Definition wrap64 (n : N) : N := n mod U64.
Definition add64 (a b : N) : N := wrap64 (a + b).
Definition sub64 (a b : N) : N := wrap64 (a + U64 - b mod U64).
Definition shl64 (a k : N) : N := wrap64 (N.shiftl a k).
Definition u64_max : N := U64 - 1.
Definition saturating_add64 (a b : N) : N := N.min (a + b) u64_max.
Definition checked_add64 (a b : N) : option N :=
  if a + b <? U64 then Some (a + b) else None.
Definition trunc32 (n : N) : N := n mod 2 ^ 32.

Lemma add64_small a b : a + b < U64 → add64 a b = a + b.
Proof. intros. unfold add64, wrap64. by apply N.mod_small. Qed.

Lemma sub64_small a b : b <= a → a < U64 → sub64 a b = a - b.
Proof.
  unfold sub64, wrap64, U64. intros.
  rewrite (N.mod_small b) by lia.
  replace (a + 2 ^ 64 - b) with ((a - b) + 1 * 2 ^ 64) by lia.
  rewrite N.Div0.mod_add. apply N.mod_small. lia.
Qed.

Lemma saturating_add64_le a b : saturating_add64 a b <= u64_max.
Proof. unfold saturating_add64. lia. Qed.

#[export] Hint Rewrite add64_small sub64_small using (unfold U64 in *; lia) : rwt_simp.

(** ** Bytes *)

Abbreviation bytes := (list byte).

Definition b2n (b : byte) : N := Byte.to_N b.
Definition n2b (n : N) : byte := default x00 (Byte.of_N (n mod 256)).

#[export] Instance byte_eq_dec : EqDecision byte := Byte.byte_eq_dec.
#[export] Program Instance byte_countable : Countable byte :=
  inj_countable Byte.to_N Byte.of_N _.
Next Obligation. apply Byte.of_to_N. Qed.

Lemma b2n_lt b : b2n b < 256.
Proof. unfold b2n. pose proof (Byte.to_N_bounded b). lia. Qed.

Lemma b2n_inj a b : b2n a = b2n b → a = b.
Proof.
  unfold b2n. intros H. apply (f_equal Byte.of_N) in H.
  rewrite !Byte.of_to_N in H. congruence.
Qed.

Lemma b2n_n2b n : b2n (n2b n) = n mod 256.
Proof.
  unfold b2n, n2b. destruct (Byte.of_N (n mod 256)) eqn:E; simpl.
  - by apply Byte.to_of_N.
  - apply Byte.of_N_None_iff in E. pose proof (N.mod_lt n 256). lia.
Qed.

Lemma b2n_n2b_small n : n < 256 → b2n (n2b n) = n.
Proof. intros. rewrite b2n_n2b. by apply N.mod_small. Qed.

Lemma n2b_b2n b : n2b (b2n b) = b.
Proof. apply b2n_inj. rewrite b2n_n2b. apply N.mod_small, b2n_lt. Qed.

Definition byte_or (a b : byte) : byte := n2b (N.lor (b2n a) (b2n b)).
Definition byte_and (a b : byte) : byte := n2b (N.land (b2n a) (b2n b)).
Definition byte_xor (a b : byte) : byte := n2b (N.lxor (b2n a) (b2n b)).

#[export] Hint Rewrite b2n_n2b n2b_b2n : rwt_simp.

(** The length of a [Vec], as the [u64]/[usize] the code computes with. *)
Definition lenN {A} (l : list A) : N := N.of_nat (length l).

(** A string literal as the UTF-8 bytes of the Rust [&str] it denotes. *)
Definition s2b (s : string) : bytes := String.list_byte_of_string s.
Abbreviation rstring := (list byte) (only parsing).

(** Decimal and hexadecimal rendering ([format!("{n}")], [{n:#x}]). *)
Definition dec (n : N) : rstring := s2b (pretty n).

Definition hex_digit (d : N) : byte := n2b (if d <? 10 then 48 + d else 87 + d).
Fixpoint hex_digits (fuel : nat) (n : N) (acc : bytes) : bytes :=
  match fuel with
  | O => acc
  | S fuel =>
      let acc := hex_digit (n mod 16) :: acc in
      if n / 16 =? 0 then acc else hex_digits fuel (n / 16) acc
  end.
Definition hex (n : N) : rstring := s2b "0x" ++ hex_digits 16 n [].

(** ** Functional record update

    A record type states its eta expansion as an instance of [Eta]; the setter
    of a projection is found by abstracting that projection in the expansion.
    [r <| f := v |>] is the record [r] with field [f] replaced. *)

Class Eta (R : Type) := eta : R → R.
Class Setter {R T : Type} (proj : R → T) := upd : (T → T) → R → R.
Arguments upd {R T} proj {_} _ _.

Ltac derive_setter :=
  match goal with
  | |- @Setter ?R ?T ?proj =>
      let f := fresh "f" in let r := fresh "r" in intros f r;
      let e := constr:(@eta R _ r) in
      let e := eval hnf in e in
      let e := eval pattern (proj r) in e in
      match e with
      | ?g _ => let e := eval cbv beta in (g (f (proj r))) in exact e
      end
  end.

#[export] Hint Extern 9 (Setter _) => derive_setter : typeclass_instances.

Notation "r <| f := v |>" := (upd f (fun _ => v) r)
  (at level 1, f at next level, left associativity, format "r  <| f  :=  v |>") : rwt_scope.
Notation "r <| f ::= g |>" := (upd f g r)
  (at level 1, f at next level, left associativity, format "r  <| f  ::=  g |>") : rwt_scope.

(** ** Fallible values: Rust's [Result] *)

Inductive result (E A : Type) := Ok (a : A) | Err (e : E).
Arguments Ok {E A} a.
Arguments Err {E A} e.

#[export] Instance result_ret E : MRet (result E) := fun _ a => Ok a.
#[export] Instance result_bind E : MBind (result E) := fun _ _ k m =>
  match m with Ok a => k a | Err e => Err e end.

Definition ok_or {E A} (e : E) (o : option A) : result E A :=
  match o with Some a => Ok a | None => Err e end.
Definition ok {E A} (r : result E A) : option A :=
  match r with Ok a => Some a | Err _ => None end.

Lemma bind_ok {E A B} (r : result E A) (k : A → result E B) b : (r ≫= k) = Ok b → ∃ a, r = Ok a ∧ k a = Ok b.
Proof. destruct r as [a|]; cbn; [eauto|done]. Qed.

(** ** Stateful computations

    [M S A] threads a state of type [S].  [None] is the absence of a result:
    a Rust panic ([unwrap] on [None], an index out of range) or an exhausted
    loop bound.  The theorems that an operation is total exclude both. *)

Definition M (S A : Type) : Type := S → option (A * S).

#[export] Instance M_ret S : MRet (M S) := fun _ a s => Some (a, s).
#[export] Instance M_bind S : MBind (M S) := fun _ _ k m s =>
  match m s with Some (a, s') => k a s' | None => None end.

Lemma M_assoc {S A B D} (m : M S A) (k : A → M S B) (h : B → M S D) s :
  (x ← (a ← m; k a); h x) s = (a ← m; x ← k a; h x) s.
Proof. unfold mbind, M_bind. by destruct (m s) as [[a s']|]. Qed.

Definition get {S} : M S S := fun s => Some (s, s).
Definition gets {S A} (f : S → A) : M S A := fun s => Some (f s, s).
Definition modify {S} (f : S → S) : M S () := fun s => Some ((), f s).
Definition panic {S A} : M S A := fun _ => None.
Definition unwrap {S A} (o : option A) : M S A := fun s =>
  match o with Some a => Some (a, s) | None => None end.
Definition when {S} (b : bool) (m : M S ()) : M S () := if b then m else mret ().

(** Total-correctness weakest preconditions: the computation returns, and its
    result and final state satisfy the postcondition. *)
Definition wp {S A} (m : M S A) (Q : A → S → Prop) (s : S) : Prop :=
  match m s with Some (a, s') => Q a s' | None => False end.

Section wp_rules.
Context {S : Type}.

Lemma wp_ret {A} (a : A) Q (s : S) : Q a s → wp (mret a) Q s.
Proof. done. Qed.

Lemma wp_bind {A B} (m : M S A) (k : A → M S B) Q (s : S) :
  wp m (fun a s' => wp (k a) Q s') s → wp (m ≫= k) Q s.
Proof. unfold wp, mbind, M_bind. by destruct (m s) as [[a s']|]. Qed.

Lemma wp_mono {A} (m : M S A) (P Q : A → S → Prop) (s : S) :
  wp m P s → (∀ a s', P a s' → Q a s') → wp m Q s.
Proof. unfold wp. destruct (m s) as [[a s']|]; auto. Qed.

Lemma wp_conj {A} (m : M S A) (P Q : A → S → Prop) (s : S) :
  wp m P s → wp m Q s → wp m (fun a s' => P a s' ∧ Q a s') s.
Proof. unfold wp. by destruct (m s) as [[a s']|]. Qed.

Lemma wp_get Q (s : S) : Q s s → wp get Q s.
Proof. done. Qed.
Lemma wp_gets {A} (f : S → A) Q s : Q (f s) s → wp (gets f) Q s.
Proof. done. Qed.
Lemma wp_modify (f : S → S) Q (s : S) : Q () (f s) → wp (modify f) Q s.
Proof. done. Qed.
Lemma wp_unwrap {A} (o : option A) Q (s : S) a : o = Some a → Q a s → wp (unwrap o) Q s.
Proof. by intros ->. Qed.
Lemma wp_when (b : bool) m Q (s : S) :
  (b = true → wp m Q s) → (b = false → Q () s) → wp (when b m) Q s.
Proof. destruct b; intros H1 H2; [by apply H1 | by apply H2]. Qed.
Lemma wp_eq {A} (m m' : M S A) Q (s : S) : m s = m' s → wp m' Q s → wp m Q s.
Proof. unfold wp. by intros ->. Qed.

Lemma wp_intro {A} (m : M S A) Q (s : S) a s' : m s = Some (a, s') → Q a s' → wp m Q s.
Proof. unfold wp. by intros ->. Qed.
Lemma wp_elim {A} (m : M S A) Q (s : S) :
  wp m Q s → ∃ a s', m s = Some (a, s') ∧ Q a s'.
Proof. unfold wp. destruct (m s) as [[a s']|]; [eauto|done]. Qed.
End wp_rules.

(** Partial correctness: whatever the computation returns satisfies the
    postcondition.  [wp_of_wlp] adds it to a proof that it does return. *)
Definition wlp {S A} (m : M S A) (Q : A → S → Prop) (s : S) : Prop :=
  ∀ a s', m s = Some (a, s') → Q a s'.

(** [m] leaves the observation [f] of the state alone. *)
Definition keeps {S A T} (f : S → T) (m : M S A) : Prop :=
  ∀ s, wlp m (fun _ s' => f s' = f s) s.

Section wlp_rules.
Context {S : Type}.

Lemma wlp_ret {A} (a : A) Q (s : S) : Q a s → wlp (mret a) Q s.
Proof. by intros H ? ? [= <- <-]. Qed.
Lemma wlp_bind {A B} (m : M S A) (k : A → M S B) Q (s : S) :
  wlp m (fun a s' => wlp (k a) Q s') s → wlp (m ≫= k) Q s.
Proof.
  unfold wlp, mbind, M_bind. intros H b s2. destruct (m s) as [[a s1]|] eqn:E; [|done]. by apply H.
Qed.
Lemma wlp_mono {A} (m : M S A) (P Q : A → S → Prop) (s : S) :
  wlp m P s → (∀ a s', P a s' → Q a s') → wlp m Q s.
Proof. unfold wlp. auto. Qed.
Lemma wlp_and {A} (m : M S A) (P Q : A → S → Prop) (s : S) :
  wlp m P s → wlp m Q s → wlp m (fun a s' => P a s' ∧ Q a s') s.
Proof. unfold wlp. auto. Qed.
Lemma wlp_gets {A} (f : S → A) Q s : Q (f s) s → wlp (gets f) Q s.
Proof. by intros H ? ? [= <- <-]. Qed.
Lemma wlp_modify (f : S → S) Q (s : S) : Q () (f s) → wlp (modify f) Q s.
Proof. by intros H ? ? [= <- <-]. Qed.
Lemma wlp_unwrap {A} (o : option A) Q (s : S) : (∀ a, o = Some a → Q a s) → wlp (unwrap o) Q s.
Proof. unfold wlp, unwrap. intros H a s'. destruct o; [|done]. intros [= <- <-]. auto. Qed.
Lemma wlp_panic {A} (Q : A → S → Prop) (s : S) : wlp panic Q s.
Proof. done. Qed.
Lemma wlp_when (b : bool) m Q (s : S) :
  (b = true → wlp m Q s) → (b = false → Q () s) → wlp (when b m) Q s.
Proof. destruct b; intros H1 H2; [by apply H1|by apply wlp_ret, H2]. Qed.
Lemma wlp_keeps {A T} (f : S → T) (m : M S A) s : keeps f m → wlp m (fun _ s' => f s' = f s) s.
Proof. intros H. apply H. Qed.

Lemma wp_of_wlp {A} (m : M S A) (P Q : A → S → Prop) s :
  wp m P s → wlp m Q s → wp m (fun a s' => P a s' ∧ Q a s') s.
Proof. unfold wp, wlp. destruct (m s) as [[a s']|]; auto. Qed.
Lemma wlp_of_wp {A} (m : M S A) Q s : wp m Q s → wlp m Q s.
Proof. unfold wp, wlp. intros H a s' E. by rewrite E in H. Qed.

Context {T : Type} (f : S → T).

Lemma keeps_ret {A} (a : A) : keeps f (mret a).
Proof. intros s. by apply wlp_ret. Qed.
Lemma keeps_bind {A B} (m : M S A) (k : A → M S B) :
  keeps f m → (∀ a, keeps f (k a)) → keeps f (m ≫= k).
Proof.
  intros Hm Hk s. apply wlp_bind. eapply wlp_mono; [apply Hm|]. intros a s1 E.
  eapply wlp_mono; [apply Hk|]. cbv beta. congruence.
Qed.
Lemma keeps_gets {A} (g : S → A) : keeps f (gets g).
Proof. intros s. by apply wlp_gets. Qed.
Lemma keeps_modify g : (∀ s, f (g s) = f s) → keeps f (modify g).
Proof. intros H s. by apply wlp_modify. Qed.
Lemma keeps_unwrap {A} (o : option A) : keeps f (unwrap o).
Proof. intros s. by apply wlp_unwrap. Qed.
Lemma keeps_panic {A} : keeps f (@panic S A).
Proof. intros s. apply wlp_panic. Qed.
Lemma keeps_when (b : bool) m : keeps f m → keeps f (when b m).
Proof. destruct b; [done|]. intros _. apply keeps_ret. Qed.
End wlp_rules.

(** One structural step of a weakest-precondition goal. *)
Ltac wp_step :=
  lazymatch goal with
  | |- wp (mret _) _ _ => apply wp_ret
  | |- wp (mbind _ _) _ _ => apply wp_bind
  | |- wp get _ _ => apply wp_get
  | |- wp (gets _) _ _ => apply wp_gets
  | |- wp (modify _) _ _ => apply wp_modify
  | |- wp (when _ _) _ _ => apply wp_when; intros
  | |- wp (if ?b then _ else _) _ _ => destruct b eqn:?
  | |- wp (match ?o with _ => _ end) _ _ => destruct o eqn:?
  end; cbv beta.
Ltac wp_steps := repeat wp_step.

(** ** Lists *)

Lemma lenN_app {A} (l k : list A) : lenN (l ++ k) = lenN l + lenN k.
Proof. unfold lenN. rewrite length_app. lia. Qed.
Lemma to_nat_lenN {A} (l : list A) : N.to_nat (lenN l) = length l.
Proof. apply Nat2N.id. Qed.
Lemma lenN_nil {A} : lenN (@nil A) = 0.
Proof. done. Qed.
Lemma lenN_cons {A} (x : A) l : lenN (x :: l) = 1 + lenN l.
Proof. unfold lenN. simpl. lia. Qed.
#[export] Hint Rewrite @lenN_app @lenN_nil @lenN_cons @to_nat_lenN : rwt_simp.

Lemma insert_Permutation {A} (l : list A) i x y :
  l !! i = Some x → <[i := y]> l ≡ₚ y :: delete i l.
Proof.
  intros Hi. rewrite (delete_Permutation (<[i := y]> l) i y).
  - f_equiv. revert i Hi. induction l as [|z l IH]; intros [|i] Hi; simplify_eq/=;
      [done|by rewrite IH].
  - rewrite list_lookup_insert, decide_True; [done|]. eauto using lookup_lt_Some.
Qed.

(** Sums of a measure over a list or the values of a map. *)
Definition sum_list_N (l : list N) : N := foldr N.add 0 l.

Lemma sum_list_N_app l k : sum_list_N (l ++ k) = sum_list_N l + sum_list_N k.
Proof. induction l; simpl; [done|]. rewrite IHl. lia. Qed.

Lemma sum_list_N_perm l k : l ≡ₚ k → sum_list_N l = sum_list_N k.
Proof. induction 1; simpl; lia. Qed.

(** The number of elements of a list that satisfy a decidable predicate. *)
Definition countb {A} (p : A → bool) (l : list A) : nat := length (List.filter p l).

Lemma countb_app {A} (p : A → bool) l k : countb p (l ++ k) = (countb p l + countb p k)%nat.
Proof. unfold countb. by rewrite List.filter_app, length_app. Qed.

(** ** The lists held in a map's values

    [map_concat f m] appends [f] of every value; its order is the map's, so it
    is used up to permutation. *)

Lemma concat_map_perm {A B} (f : A → list B) l k : l ≡ₚ k → concat (map f l) ≡ₚ concat (map f k).
Proof.
  induction 1; cbn; [done|by f_equiv| |by etrans].
  rewrite !app_assoc. f_equiv. apply Permutation_app_comm.
Qed.

Lemma alter_insert_delete `{Countable K} {A} (m : gmap K A) i f x :
  m !! i = Some x → alter f i m = <[i := f x]> m.
Proof.
  intros Hi. apply map_eq. intros j. rewrite lookup_alter, lookup_insert.
  case_decide; subst; [by rewrite Hi|done].
Qed.

Lemma alter_missing `{Countable K} {A} (m : gmap K A) i f : m !! i = None → alter f i m = m.
Proof.
  intros Hi. apply map_eq. intros j. rewrite lookup_alter. case_decide; subst; by rewrite ?Hi.
Qed.

Section map_concat.
Context {K A B : Type} `{Countable K} (f : A → list B).

Definition map_concat (m : gmap K A) : list B := concat (map (fun kv => f kv.2) (map_to_list m)).

Lemma map_concat_insert_new m i x :
  m !! i = None → map_concat (<[i := x]> m) ≡ₚ f x ++ map_concat m.
Proof. intros Hi. unfold map_concat. by rewrite (concat_map_perm _ _ _ (map_to_list_insert m i x Hi)). Qed.

Lemma map_concat_insert m i x : map_concat (<[i := x]> m) ≡ₚ f x ++ map_concat (delete i m).
Proof. rewrite <- insert_delete_eq. apply map_concat_insert_new, lookup_delete_eq. Qed.

Lemma map_concat_lookup m i x : m !! i = Some x → map_concat m ≡ₚ f x ++ map_concat (delete i m).
Proof. intros Hi. rewrite <- (insert_id m i x Hi) at 1. apply map_concat_insert. Qed.

Lemma map_concat_filter (P : K * A → Prop) `{!∀ kv, Decision (P kv)} m :
  map_concat m ≡ₚ map_concat (filter P m) ++ map_concat (filter (fun kv => ¬ P kv) m).
Proof.
  induction m as [|i x m Hi IH] using map_ind; [by rewrite !map_filter_empty|].
  rewrite (map_concat_insert_new m i x Hi).
  destruct (decide (P (i, x))) as [Hp|Hp].
  - rewrite map_filter_insert_True by done.
    rewrite (map_filter_insert_False (fun kv => ¬ P kv) m), (delete_id m) by (done || tauto).
    rewrite map_concat_insert_new by (apply map_lookup_filter_None; auto).
    by rewrite IH, app_assoc.
  - rewrite (map_filter_insert_False P m), (delete_id m) by done.
    rewrite (map_filter_insert_True (fun kv => ¬ P kv) m) by done.
    rewrite map_concat_insert_new by (apply map_lookup_filter_None; auto).
    rewrite IH, !app_assoc. f_equiv. apply Permutation_app_comm.
Qed.
End map_concat.
