(* ===== verification/Utf8.v ===== *)
(** * UTF-8 as Rust's standard library validates and repairs it

    Rust's [str] is a byte sequence that [str::from_utf8] accepts.  This file
    models what the sources use of it: validation ([str::from_utf8]), repair
    ([String::from_utf8_lossy]), the characters of a string ([str::chars]),
    [str::trim] and the decimal parser behind [str::parse::<u16>]. *)

From S2P Require Import Prelude.

Definition in_range (lo hi : N) (b : byte) : bool := (lo <=? b2n b) && (b2n b <=? hi).
Definition is_cont (b : byte) : bool := in_range 0x80 0xBF b.

(** The width a leading byte announces, 0 for a byte that starts no character. *)
Definition char_width (b : byte) : nat :=
  if in_range 0x00 0x7F b then 1
  else if in_range 0xC2 0xDF b then 2
  else if in_range 0xE0 0xEF b then 3
  else if in_range 0xF0 0xF4 b then 4
  else 0.

(** The second byte of a three- or four-byte character: no overlong forms, no
    surrogates, nothing above U+10FFFF. *)
Definition second_ok (b0 b1 : byte) : bool :=
  (in_range 0xE0 0xE0 b0 && in_range 0xA0 0xBF b1) ||
  (in_range 0xE1 0xEC b0 && in_range 0x80 0xBF b1) ||
  (in_range 0xED 0xED b0 && in_range 0x80 0x9F b1) ||
  (in_range 0xEE 0xEF b0 && in_range 0x80 0xBF b1) ||
  (in_range 0xF0 0xF0 b0 && in_range 0x90 0xBF b1) ||
  (in_range 0xF1 0xF3 b0 && in_range 0x80 0xBF b1) ||
  (in_range 0xF4 0xF4 b0 && in_range 0x80 0x8F b1).

(** The first character of a non-empty input: [(true, w)] for a valid one of
    width [w], [(false, k)] for an ill-formed sequence of length [k]. *)
Definition char_step (s : bytes) : bool * nat :=
  match s with
  | [] => (true, O)
  | b0 :: t =>
      let g i := default x00 (t !! i) in
      match char_width b0 with
      | 1%nat => (true, 1%nat)
      | 2%nat => if is_cont (g 0%nat) then (true, 2%nat) else (false, 1%nat)
      | 3%nat =>
          if second_ok b0 (g 0%nat) then
            if is_cont (g 1%nat) then (true, 3%nat) else (false, 2%nat)
          else (false, 1%nat)
      | 4%nat =>
          if second_ok b0 (g 0%nat) then
            if is_cont (g 1%nat) then
              if is_cont (g 2%nat) then (true, 4%nat) else (false, 3%nat)
            else (false, 2%nat)
          else (false, 1%nat)
      | _ => (false, 1%nat)
      end
  end.

Fixpoint chunks_fuel (fuel : nat) (s : bytes) : list (bool * bytes) :=
  match fuel, s with
  | O, _ | _, [] => []
  | S fuel, _ =>
      let '(v, n) := char_step s in (v, take n s) :: chunks_fuel fuel (drop n s)
  end.
Definition chunks (s : bytes) : list (bool * bytes) := chunks_fuel (length s) s.

Definition is_utf8 (s : bytes) : bool := forallb fst (chunks s).

(** [str::from_utf8(b).ok()]. *)
Definition from_utf8 (b : bytes) : option rstring := if is_utf8 b then Some b else None.

Definition REPLACEMENT : bytes := map n2b [0xEF; 0xBF; 0xBD].

(** [String::from_utf8_lossy(b).into_owned()]. *)
Definition from_utf8_lossy (b : bytes) : rstring :=
  concat (map (fun '(v, c) => if v : bool then c else REPLACEMENT) (chunks b)).

(** [s.chars()], each character as its bytes. *)
Definition chars (s : rstring) : list bytes := map snd (chunks s).

(** The code point of one encoded character. *)
Definition code_point (c : bytes) : N :=
  match c with
  | [b0] => b2n b0
  | [b0; b1] => (b2n b0 - 0xC0) * 64 + (b2n b1 - 0x80)
  | [b0; b1; b2] => ((b2n b0 - 0xE0) * 64 + (b2n b1 - 0x80)) * 64 + (b2n b2 - 0x80)
  | [b0; b1; b2; b3] =>
      (((b2n b0 - 0xF0) * 64 + (b2n b1 - 0x80)) * 64 + (b2n b2 - 0x80)) * 64 + (b2n b3 - 0x80)
  | _ => 0
  end.

(** [char::is_whitespace]: the Unicode [White_Space] property. *)
Definition is_whitespace (c : bytes) : bool :=
  let n := code_point c in
  ((0x09 <=? n) && (n <=? 0x0D)) || (n =? 0x20) || (n =? 0x85) || (n =? 0xA0) ||
  (n =? 0x1680) || ((0x2000 <=? n) && (n <=? 0x200A)) || (n =? 0x2028) || (n =? 0x2029) ||
  (n =? 0x202F) || (n =? 0x205F) || (n =? 0x3000).

Fixpoint drop_while {A} (p : A → bool) (l : list A) : list A :=
  match l with
  | [] => []
  | x :: l' => if p x then drop_while p l' else l
  end.

(** [s.trim()]. *)
Definition trim (s : rstring) : rstring :=
  concat (rev (drop_while is_whitespace (rev (drop_while is_whitespace (chars s))))).

Definition digit_value (b : byte) : option N :=
  if in_range 48 57 b then Some (b2n b - 48) else None.

Fixpoint parse_digits (max acc : N) (s : bytes) : option N :=
  match s with
  | [] => Some acc
  | b :: s =>
      match digit_value b with
      | Some d => if max <? acc * 10 + d then None else parse_digits max (acc * 10 + d) s
      | None => None
      end
  end.

(** [s.parse::<u16>().ok()]: an optional [+], at least one digit, no overflow. *)
Definition parse_u16 (s : rstring) : option N :=
  let digits := match s with b :: t => if b2n b =? 43 then t else s | [] => [] end in
  match digits with [] => None | _ => parse_digits 65535 0 digits end.

(** [s.starts_with(p)] on byte strings. *)
Definition starts_with (p s : bytes) : bool := bool_decide (take (length p) s = p).

(** ** Facts *)

Lemma second_ok_cont b0 b1 : second_ok b0 b1 = true → is_cont b1 = true.
Proof.
  unfold second_ok, is_cont, in_range. intros H.
  repeat (apply orb_true_iff in H as [H|H]);
    apply andb_true_iff in H as [_ H]; apply andb_true_iff in H as [H1 H2];
    apply N.leb_le in H1, H2; apply andb_true_iff; split; apply N.leb_le; lia.
Qed.

Lemma width_not_cont b : char_width b ≠ O → is_cont b = false.
Proof. destruct b; vm_compute; congruence. Qed.

Lemma is_cont_x00 : is_cont x00 = false.
Proof. done. Qed.

Lemma second_ok_x00 b : second_ok b x00 = false.
Proof. unfold second_ok. by rewrite !andb_false_r. Qed.

(** A valid first character: its width, and which of its bytes continue it. *)
Lemma char_step_valid s n :
  s ≠ [] → char_step s = (true, n) →
  (1 <= n)%nat ∧ (n <= length s)%nat ∧
  (∃ b, s !! O = Some b ∧ is_cont b = false) ∧
  (∀ i, (0 < i < n)%nat → ∃ b, s !! i = Some b ∧ is_cont b = true) ∧
  (∀ rest, char_step (take n s ++ rest) = (true, n)).
Proof.
  destruct s as [|b0 t]; [done|]. intros _. unfold char_step.
  assert (Hg : ∀ i (p : byte → bool), p x00 = false → p (default x00 (t !! i)) = true →
    ∃ b, t !! i = Some b ∧ p b = true).
  { intros i p Hp. destruct (t !! i) as [b|]; simpl; [eauto|]. by rewrite Hp. }
  destruct (char_width b0) as [|[|[|[|[|w]]]]] eqn:Ew; try (intros; congruence);
    intros H; assert (Hc : is_cont b0 = false) by (apply width_not_cont; lia).
  - injection H as <-. repeat split; [lia|cbn; lia|by exists b0|intros; lia|].
    intros rest. cbn. by rewrite Ew.
  - destruct (is_cont (default x00 (t !! O))) eqn:E0; [|done]. injection H as <-.
    destruct (Hg O is_cont eq_refl E0) as (b1 & H1 & C1).
    destruct t as [|b1' t]; [done|]. cbn in H1. injection H1 as ->.
    repeat split; [lia|cbn; lia|by exists b0|..].
    + intros i Hi. assert (i = 1%nat) as -> by lia. by exists b1.
    + intros rest. cbn. by rewrite Ew, C1.
  - destruct (second_ok b0 (default x00 (t !! O))) eqn:E0; [|done].
    destruct (is_cont (default x00 (t !! 1%nat))) eqn:E1; [|done]. injection H as <-.
    destruct (Hg O (second_ok b0) (second_ok_x00 b0) E0) as (b1 & H1 & C1).
    destruct (Hg 1%nat is_cont eq_refl E1) as (b2 & H2 & C2).
    destruct t as [|b1' [|b2' t]]; try done. cbn in H1, H2. simplify_eq.
    repeat split; [lia|cbn; lia|by exists b0|..].
    + intros i Hi. assert (i = 1 ∨ i = 2)%nat as [->| ->] by lia; eexists; split; try done.
      by eapply second_ok_cont.
    + intros rest. cbn. by rewrite Ew, C1, C2.
  - destruct (second_ok b0 (default x00 (t !! O))) eqn:E0; [|done].
    destruct (is_cont (default x00 (t !! 1%nat))) eqn:E1; [|done].
    destruct (is_cont (default x00 (t !! 2%nat))) eqn:E2; [|done]. injection H as <-.
    destruct (Hg O (second_ok b0) (second_ok_x00 b0) E0) as (b1 & H1 & C1).
    destruct (Hg 1%nat is_cont eq_refl E1) as (b2 & H2 & C2).
    destruct (Hg 2%nat is_cont eq_refl E2) as (b3 & H3 & C3).
    destruct t as [|b1' [|b2' [|b3' t]]]; try done. cbn in H1, H2, H3. simplify_eq.
    repeat split; [lia|cbn; lia|by exists b0|..].
    + intros i Hi. assert (i = 1 ∨ i = 2 ∨ i = 3)%nat as [->|[->| ->]] by lia;
        eexists; split; try done. by eapply second_ok_cont.
    + intros rest. cbn. by rewrite Ew, C1, C2, C3.
Qed.

Lemma char_step_pos s : s ≠ [] → (1 <= (char_step s).2)%nat.
Proof.
  destruct s as [|b t]; [done|]. intros _. unfold char_step.
  repeat case_match; cbn; lia.
Qed.

Lemma chunks_fuel_indep f1 f2 s :
  (length s <= f1)%nat → (length s <= f2)%nat → chunks_fuel f1 s = chunks_fuel f2 s.
Proof.
  revert f2 s. induction f1 as [|f1 IH]; intros [|f2] [|b s] H1 H2; cbn in H1, H2; try lia; try done.
  cbn [chunks_fuel]. set (t := b :: s) in *.
  pose proof (char_step_pos t ltac:(done)) as Hp. destruct (char_step t) as [v n]; cbn in Hp.
  f_equal. apply IH; rewrite length_drop; unfold t; cbn; lia.
Qed.

(** The unfolding equation of [chunks]. *)
Lemma chunks_step s v n :
  s ≠ [] → char_step s = (v, n) → chunks s = (v, take n s) :: chunks (drop n s).
Proof.
  intros Hs E. destruct s as [|b t]; [done|]. unfold chunks at 1. cbn [length chunks_fuel].
  rewrite E. f_equal. apply chunks_fuel_indep; [|done].
  pose proof (char_step_pos (b :: t) Hs) as Hp. rewrite E in Hp. rewrite length_drop. cbn in *. lia.
Qed.

(** Induction along the characters and ill-formed sequences of a string. *)
Lemma chunks_ind (P : bytes → Prop) :
  P [] →
  (∀ s v n, s ≠ [] → char_step s = (v, n) → (1 <= n)%nat → P (drop n s) → P s) →
  ∀ s, P s.
Proof.
  intros Hnil Hstep s. remember (length s) as k eqn:Ek. revert s Ek.
  induction k as [k IH] using lt_wf_ind; intros s ->.
  destruct (decide (s = [])) as [->|Hs]; [done|].
  pose proof (char_step_pos s Hs) as Hp. destruct (char_step s) as [v n] eqn:E; cbn in Hp.
  apply (Hstep s v n Hs E Hp). eapply IH; [|done].
  rewrite length_drop. destruct s; [done|cbn; lia].
Qed.

Lemma chunks_concat s : concat (map snd (chunks s)) = s.
Proof.
  induction s as [|s v n Hs E _ IH] using chunks_ind; [done|].
  rewrite (chunks_step s v n Hs E). cbn. rewrite IH. apply take_drop.
Qed.

Lemma is_utf8_step s v n :
  s ≠ [] → char_step s = (v, n) → is_utf8 s = v && is_utf8 (drop n s).
Proof. intros Hs E. unfold is_utf8. by rewrite (chunks_step s v n Hs E). Qed.

(** Prepending one valid character. *)
Lemma is_utf8_cons_char s n rest :
  s ≠ [] → char_step s = (true, n) → is_utf8 (take n s ++ rest) = is_utf8 rest.
Proof.
  intros Hs E. destruct (char_step_valid s n Hs E) as (H1 & H2 & _ & _ & Happ).
  rewrite (is_utf8_step _ true n).
  - rewrite drop_app_length' by (rewrite length_take; lia). done.
  - destruct s, n; try done; lia.
  - apply Happ.
Qed.

Lemma is_utf8_app s t : is_utf8 s = true → is_utf8 t = true → is_utf8 (s ++ t) = true.
Proof.
  intros Hs Ht. induction s as [|s v n Hne E Hn IH] using chunks_ind; [done|].
  rewrite (is_utf8_step s v n Hne E) in Hs. apply andb_true_iff in Hs as [-> Hs].
  rewrite <- (take_drop n s), <- app_assoc, (is_utf8_cons_char s n _ Hne E). auto.
Qed.

Lemma replacement_utf8 : is_utf8 REPLACEMENT = true.
Proof. done. Qed.

Lemma valid_char_utf8 s n : s ≠ [] → char_step s = (true, n) → is_utf8 (take n s) = true.
Proof. intros Hs E. by rewrite <- (app_nil_r (take n s)), (is_utf8_cons_char s n _ Hs E). Qed.

Lemma from_utf8_lossy_id s : is_utf8 s = true → from_utf8_lossy s = s.
Proof.
  unfold from_utf8_lossy. induction s as [|s v n Hs E Hn IH] using chunks_ind; [done|].
  rewrite (chunks_step s v n Hs E), (is_utf8_step s v n Hs E). cbn [map concat].
  intros [-> H]%andb_true_iff. rewrite IH by done. apply take_drop.
Qed.

(** Repairing a byte string always yields valid UTF-8, and leaves valid
    UTF-8 untouched; so the [String]s the session reports to the application
    are exactly the header values whenever those are valid. *)
Lemma from_utf8_lossy_spec (s : bytes) :
  is_utf8 (from_utf8_lossy s) = true ∧ (is_utf8 s = true → from_utf8_lossy s = s).
Proof.
  split; [|apply from_utf8_lossy_id]. unfold from_utf8_lossy.
  induction s as [|s v n Hs E Hn IH] using chunks_ind; [done|].
  rewrite (chunks_step s v n Hs E). cbn [map concat].
  apply is_utf8_app; [|done]. destruct v; [by apply valid_char_utf8|done].
Qed.

(** Cutting a valid string at a byte that continues no character leaves a
    valid string. *)
Lemma is_utf8_take_boundary s e :
  is_utf8 s = true → (∀ b, s !! e = Some b → is_cont b = false) → is_utf8 (take e s) = true.
Proof.
  revert e. induction s as [|s v n Hs E Hn IH] using chunks_ind; intros e Hu Hb.
  { by rewrite take_nil. }
  rewrite (is_utf8_step s v n Hs E) in Hu. apply andb_true_iff in Hu as [-> Hu].
  destruct (char_step_valid s n Hs E) as (H1 & H2 & _ & Hc & _).
  destruct (decide (e = O)) as [->|He]; [done|].
  destruct (decide (e < n)%nat) as [Hlt|Hge].
  { destruct (Hc e) as (b & Hb1 & Hb2); [lia|]. rewrite (Hb b Hb1) in Hb2. done. }
  rewrite <- (take_drop n s), take_app_ge, (is_utf8_cons_char s n _ Hs E); rewrite length_take_le by lia;
    [|lia].
  apply IH; [done|]. intros b. rewrite lookup_drop.
  replace (n + (e - n))%nat with e by lia. apply Hb.
Qed.

Lemma mask_is_cont b : (b2n (byte_and b (n2b 0xc0)) =? 0x80) = is_cont b.
Proof. destruct b; vm_compute; reflexivity. Qed.

Lemma is_utf8_app_inv p t : is_utf8 p = true → is_utf8 (p ++ t) = is_utf8 t.
Proof.
  induction p as [|p v n Hs E Hn IH] using chunks_ind; [done|]. intros Hp.
  rewrite (is_utf8_step p v n Hs E) in Hp. apply andb_true_iff in Hp as [-> Hp].
  rewrite <- (take_drop n p), <- app_assoc, (is_utf8_cons_char p n _ Hs E). auto.
Qed.

Lemma is_utf8_head b s : is_utf8 (b :: s) = true → is_cont b = false.
Proof.
  destruct (char_step (b :: s)) as [v n] eqn:E. rewrite (is_utf8_step _ v n) by done.
  intros [-> _]%andb_true_iff.
  destruct (char_step_valid (b :: s) n) as (_ & _ & (b' & Hb & Hc) & _); [done|done|].
  cbn in Hb. by simplify_eq.
Qed.
