(* ===== verification/H3.v ===== *)
(** * HTTP/3 and WebTransport framing primitives ([crates/wtcore/src/h3.rs])

    Constants, variable-length integers, frames, SETTINGS, the error-code
    mapping and the close-reason truncation.  Values of type [u64] are [N],
    lengths and offsets into a slice are [nat]. *)

From S2P Require Import Prelude Utf8.

(** ** Constants *)

Definition H3_CONTROL_STREAM_TYPE : N := 0x00.
Definition QPACK_ENCODER_STREAM_TYPE : N := 0x02.
Definition QPACK_DECODER_STREAM_TYPE : N := 0x03.

Definition FRAME_DATA : N := 0x00.
Definition FRAME_HEADERS : N := 0x01.
Definition FRAME_SETTINGS : N := 0x04.
Definition FRAME_GOAWAY : N := 0x07.

Definition H3_NO_ERROR : N := 0x100.

Definition SETTINGS_QPACK_MAX_TABLE_CAPACITY : N := 0x01.
Definition SETTINGS_MAX_FIELD_SECTION_SIZE : N := 0x06.
Definition SETTINGS_QPACK_BLOCKED_STREAMS : N := 0x07.
Definition SETTINGS_ENABLE_CONNECT_PROTOCOL : N := 0x08.
Definition SETTINGS_H3_DATAGRAM : N := 0x33.
Definition SETTINGS_WT_MAX_SESSIONS : N := 0x14e9cd29.
Definition SETTINGS_ENABLE_WEBTRANSPORT : N := 0x2b603742.
Definition SETTINGS_WT_INITIAL_MAX_DATA : N := 0x2b61.
Definition SETTINGS_WT_INITIAL_MAX_STREAMS_UNI : N := 0x2b64.
Definition SETTINGS_WT_INITIAL_MAX_STREAMS_BIDI : N := 0x2b65.

Definition WT_MAX_DATA_CAPSULE : N := 0x190b4d3d.
Definition WT_MAX_STREAMS_BIDI_CAPSULE : N := 0x190b4d3f.
Definition WT_MAX_STREAMS_UNI_CAPSULE : N := 0x190b4d40.
Definition WT_DATA_BLOCKED_CAPSULE : N := 0x190b4d41.
Definition WT_STREAMS_BLOCKED_BIDI_CAPSULE : N := 0x190b4d43.
Definition WT_STREAMS_BLOCKED_UNI_CAPSULE : N := 0x190b4d44.

Definition WT_INITIAL_MAX_DATA : N := 10 * 1024 * 1024.
Definition WT_INITIAL_MAX_STREAMS : N := 256.

Definition WT_UNI_STREAM_TYPE : N := 0x54.
Definition WT_BIDI_FRAME_TYPE : N := 0x41.
Definition WT_CLOSE_SESSION_CAPSULE : N := 0x2843.
Definition WT_DRAIN_SESSION_CAPSULE : N := 0x78ae.

Definition WT_MAX_CLOSE_REASON : nat := 1024.

Definition WT_APP_ERROR_FIRST : N := 0x52e4a40fa8db.
Definition WT_APP_ERROR_LAST : N := 0x52e5ac983162.

Definition MAX_HEADER_BLOCK : N := 64 * 1024.

(** ** Error-code mapping *)

Definition webtransport_code_to_http_code (n : N) : N :=
  add64 (add64 WT_APP_ERROR_FIRST n) (n / 0x1e).

Definition http_code_to_webtransport_code (h : N) : option N :=
  if negb ((WT_APP_ERROR_FIRST <=? h) && (h <=? WT_APP_ERROR_LAST)) then None
  else if sub64 h 0x21 mod 0x1f =? 0 then None
  else
    let shifted := h - WT_APP_ERROR_FIRST in
    Some (shifted - shifted / 0x1f).

(** ** Close-reason truncation *)

(** [(reason[end] & 0xc0) == 0x80]: the byte continues a UTF-8 sequence.  The
    index is in range where the code evaluates it
    ([truncate_index_in_range]). *)
Definition continuation_at (reason : bytes) (e : nat) : bool :=
  match reason !! e with
  | Some b => b2n (byte_and b (n2b 0xc0)) =? 0x80
  | None => false
  end.

(** The [while end > 0 && ...] loop. *)
Fixpoint truncate_end (reason : bytes) (e : nat) : nat :=
  match e with
  | O => O
  | S e' => if continuation_at reason e then truncate_end reason e' else e
  end.

Definition truncate_close_reason (reason : bytes) : bytes :=
  if (length reason <=? WT_MAX_CLOSE_REASON)%nat then reason
  else take (truncate_end reason WT_MAX_CLOSE_REASON) reason.

(** ** Variable-length integers *)

Definition varint_step (v : N) (b : byte) : N := N.lor (shl64 v 8) (b2n b).

Definition read_varint (buf : bytes) : option (N * nat) :=
  match buf with
  | [] => None
  | first :: rest =>
      let len := N.to_nat (N.shiftl 1 (N.shiftr (b2n first) 6)) in
      if (length buf <? len)%nat then None
      else Some (foldl varint_step (N.land (b2n first) 0x3f) (take (len - 1) rest), len)
  end.

(** The bytes [put_varint v out] appends to [out]. *)
Definition put_varint (v : N) : bytes :=
  if v <? N.shiftl 1 6 then [n2b v]
  else if v <? N.shiftl 1 14 then
    [byte_or (n2b 0x40) (n2b (N.shiftr v 8)); n2b v]
  else if v <? N.shiftl 1 30 then
    [byte_or (n2b 0x80) (n2b (N.shiftr v 24)); n2b (N.shiftr v 16); n2b (N.shiftr v 8); n2b v]
  else
    byte_or (n2b 0xc0) (n2b (N.shiftr v 56)) ::
    map (fun shift => n2b (N.shiftr v shift)) [48; 40; 32; 24; 16; 8; 0].

Definition varint_len (v : N) : nat :=
  if v <? N.shiftl 1 6 then 1
  else if v <? N.shiftl 1 14 then 2
  else if v <? N.shiftl 1 30 then 4
  else 8.

(** ** Frames *)

Definition frame (ty : N) (payload : bytes) : bytes :=
  put_varint ty ++ put_varint (lenN payload) ++ payload.

(** ** SETTINGS *)

Definition settings_pairs : list (N * N) :=
  [ (SETTINGS_QPACK_MAX_TABLE_CAPACITY, 0);
    (SETTINGS_QPACK_BLOCKED_STREAMS, 0);
    (SETTINGS_ENABLE_CONNECT_PROTOCOL, 1);
    (SETTINGS_H3_DATAGRAM, 1);
    (SETTINGS_ENABLE_WEBTRANSPORT, 1);
    (SETTINGS_WT_MAX_SESSIONS, 256);
    (SETTINGS_WT_INITIAL_MAX_DATA, WT_INITIAL_MAX_DATA);
    (SETTINGS_WT_INITIAL_MAX_STREAMS_BIDI, WT_INITIAL_MAX_STREAMS);
    (SETTINGS_WT_INITIAL_MAX_STREAMS_UNI, WT_INITIAL_MAX_STREAMS) ].

(** The [for (id, val) in pairs] loop of [settings_payload]. *)
Definition put_settings (pairs : list (N * N)) : bytes :=
  foldl (fun p '(id, val) => (p ++ put_varint id) ++ put_varint val) [] pairs.

Definition settings_payload : bytes := put_settings settings_pairs.

Definition control_stream_prefix : bytes :=
  put_varint H3_CONTROL_STREAM_TYPE ++ frame FRAME_SETTINGS settings_payload.

Record PeerSettings := mkPeerSettings {
  enable_connect_protocol : bool;
  h3_datagram : bool;
  enable_webtransport : bool;
  wt_max_sessions : N;
  wt_initial_max_data : N;
  wt_initial_max_streams_bidi : N;
  wt_initial_max_streams_uni : N;
}.

#[export] Instance PeerSettings_eta : Eta PeerSettings := fun s =>
  mkPeerSettings (enable_connect_protocol s) (h3_datagram s) (enable_webtransport s)
    (wt_max_sessions s) (wt_initial_max_data s) (wt_initial_max_streams_bidi s)
    (wt_initial_max_streams_uni s).

#[export] Instance PeerSettings_eq_dec : EqDecision PeerSettings.
Proof. solve_decision. Defined.

(** [PeerSettings::default()]. *)
Definition default_settings : PeerSettings := mkPeerSettings false false false 0 0 0 0.

Definition webtransport_ok (s : PeerSettings) : bool :=
  enable_connect_protocol s && h3_datagram s &&
  (enable_webtransport s || (0 <? wt_max_sessions s)).

Definition is_reserved_setting (id : N) : bool := (0x2 <=? id) && (id <=? 0x5).
Definition is_boolean_setting (id : N) : bool :=
  (id =? SETTINGS_ENABLE_CONNECT_PROTOCOL) || (id =? SETTINGS_H3_DATAGRAM) ||
  (id =? SETTINGS_ENABLE_WEBTRANSPORT).
Definition is_stream_limit_setting (id : N) : bool :=
  (id =? SETTINGS_WT_INITIAL_MAX_STREAMS_BIDI) || (id =? SETTINGS_WT_INITIAL_MAX_STREAMS_UNI).

(** The [match id] that records one setting. *)
Definition apply_setting (id val : N) (s : PeerSettings) : PeerSettings :=
  if id =? SETTINGS_ENABLE_CONNECT_PROTOCOL then s <| enable_connect_protocol := negb (val =? 0) |>
  else if id =? SETTINGS_H3_DATAGRAM then s <| h3_datagram := negb (val =? 0) |>
  else if id =? SETTINGS_ENABLE_WEBTRANSPORT then s <| enable_webtransport := negb (val =? 0) |>
  else if id =? SETTINGS_WT_MAX_SESSIONS then s <| wt_max_sessions := val |>
  else if id =? SETTINGS_WT_INITIAL_MAX_DATA then s <| wt_initial_max_data := val |>
  else if id =? SETTINGS_WT_INITIAL_MAX_STREAMS_BIDI then s <| wt_initial_max_streams_bidi := val |>
  else if id =? SETTINGS_WT_INITIAL_MAX_STREAMS_UNI then s <| wt_initial_max_streams_uni := val |>
  else s.

(** The [while !payload.is_empty()] loop; [None] when the bound runs out, which
    [parse_settings_loop_total] excludes. *)
Fixpoint parse_settings_loop (fuel : nat) (payload : bytes) (seen : gset N) (s : PeerSettings)
    : option (result rstring PeerSettings) :=
  match payload with
  | [] => Some (Ok s)
  | _ =>
      match fuel with
      | O => None
      | S fuel =>
          match read_varint payload with
          | None => Some (Err (s2b "truncated SETTINGS identifier"))
          | Some (id, n1) =>
              match read_varint (drop n1 payload) with
              | None => Some (Err (s2b "truncated SETTINGS value"))
              | Some (val, n2) =>
                  if bool_decide (id ∈ seen) || is_reserved_setting id then
                    Some (Err (s2b "duplicate or reserved SETTINGS identifier"))
                  else if is_boolean_setting id && (1 <? val) then
                    Some (Err (s2b "invalid boolean SETTINGS value"))
                  else if is_stream_limit_setting id && (N.shiftl 1 60 <? val) then
                    Some (Err (s2b "invalid WebTransport stream limit"))
                  else
                    parse_settings_loop fuel (drop (n1 + n2) payload) ({[id]} ∪ seen)
                      (apply_setting id val s)
              end
          end
      end
  end.

Definition parse_settings (payload : bytes) : result rstring PeerSettings :=
  default (Err []) (parse_settings_loop (length payload) payload ∅ default_settings).

(** ** Error-code mapping *)

Definition is_grease (h : N) : Prop := ∃ n : N, h = 0x1f * n + 0x21.

Lemma code_to_http_exact n :
  n < 2 ^ 62 → webtransport_code_to_http_code n = WT_APP_ERROR_FIRST + n + n / 30.
Proof.
  intros Hn. unfold webtransport_code_to_http_code, add64, wrap64, U64, WT_APP_ERROR_FIRST.
  rewrite (N.mod_small (_ + n)) by nlia. apply N.mod_small. nlia.
Qed.

Lemma http_to_code_spec h n :
  http_code_to_webtransport_code h = Some n ↔
  WT_APP_ERROR_FIRST <= h <= WT_APP_ERROR_LAST ∧
  (h - 0x21) mod 0x1f ≠ 0 ∧
  n = (h - WT_APP_ERROR_FIRST) - (h - WT_APP_ERROR_FIRST) / 0x1f.
Proof.
  unfold http_code_to_webtransport_code.
  destruct (N.leb_spec WT_APP_ERROR_FIRST h) as [H1|H1]; simpl;
    [|split; [done | lia]].
  destruct (N.leb_spec h WT_APP_ERROR_LAST) as [H2|H2]; simpl;
    [|split; [done | lia]].
  unfold WT_APP_ERROR_FIRST, WT_APP_ERROR_LAST in *.
  rewrite sub64_small by (unfold U64; lia).
  destruct (N.eqb_spec ((h - 33) mod 31) 0) as [E|E]; split; try done.
  - intros (? & ? & ?). done.
  - intros [= <-]. repeat split; auto.
  - intros (? & ? & ->). done.
Qed.

(** The mapping of a 32-bit WebTransport application error code into the
    HTTP/3 error space is a bijection onto the reserved range without its
    GREASE codepoints: a mapped code lies in the range, is not GREASE and maps
    back; and every HTTP/3 code that maps back is the image of that code. *)
Lemma error_code_mapping_bijective (n h : N) :
  (n < 2 ^ 32 ∧ webtransport_code_to_http_code n = h ↔
   http_code_to_webtransport_code h = Some n) ∧
  (http_code_to_webtransport_code h = None ↔
   ¬ (WT_APP_ERROR_FIRST <= h <= WT_APP_ERROR_LAST) ∨ is_grease h).
Proof.
  split.
  - rewrite http_to_code_spec. unfold WT_APP_ERROR_LAST. split.
    + intros [Hn <-]. rewrite code_to_http_exact by lia. unfold WT_APP_ERROR_FIRST in *.
      repeat split; nlia.
    + intros ([H1 H2] & H3 & ->). unfold WT_APP_ERROR_FIRST in *. split; [nlia|].
      rewrite code_to_http_exact by nlia. unfold WT_APP_ERROR_FIRST in *. nlia.
  - unfold http_code_to_webtransport_code, is_grease, WT_APP_ERROR_FIRST, WT_APP_ERROR_LAST.
    destruct (N.leb_spec 0x52e4a40fa8db h), (N.leb_spec h 0x52e5ac983162); simpl;
      try (split; [intros _; left; lia | done]).
    rewrite sub64_small by (unfold U64; lia).
    destruct (N.eqb_spec ((h - 33) mod 31) 0) as [E|E]; split; try done.
    + intros _. right. exists ((h - 33) / 31). nlia.
    + intros [?|[m ->]]; [lia|nlia].
Qed.

(** ** Close-reason truncation *)

Lemma truncate_end_le reason e : (truncate_end reason e <= e)%nat.
Proof. induction e as [|e IH]; simpl; [done|]. destruct (continuation_at _ _); lia. Qed.

(** Every index the loop reads is inside a reason that is long enough to be
    truncated, so the slice access of the code cannot panic. *)
Lemma truncate_index_in_range (reason : bytes) e :
  (WT_MAX_CLOSE_REASON < length reason)%nat → (e <= WT_MAX_CLOSE_REASON)%nat →
  is_Some (reason !! e).
Proof. intros. apply lookup_lt_is_Some. lia. Qed.

Lemma truncate_end_boundary reason e :
  truncate_end reason e ≠ O → continuation_at reason (truncate_end reason e) = false.
Proof.
  induction e as [|e IH]; [done|].
  cbn [truncate_end]. destruct (continuation_at reason (S e)) eqn:E; auto.
Qed.

Lemma truncate_end_greatest reason e k :
  (k <= e)%nat → continuation_at reason k = false → (k <= truncate_end reason e)%nat.
Proof.
  induction e as [|e IH]; cbn [truncate_end]; [lia|].
  intros Hk Hc. destruct (decide (k = S e)) as [->|].
  - by rewrite Hc.
  - destruct (continuation_at reason (S e)); [apply IH; auto; lia | lia].
Qed.

Lemma truncate_close_reason_length reason :
  (length (truncate_close_reason reason) <= WT_MAX_CLOSE_REASON)%nat.
Proof.
  unfold truncate_close_reason. destruct (Nat.leb_spec (length reason) WT_MAX_CLOSE_REASON); [done|].
  pose proof (truncate_end_le reason WT_MAX_CLOSE_REASON). rewrite length_take. lia.
Qed.

(** [out] is the longest prefix of [reason] of at most 1024 bytes that splits no
    character: it is a prefix, it fits, it is valid UTF-8 when the reason is, and
    no longer valid prefix fits; a reason that fits is kept. *)
Definition longest_cut (reason out : bytes) : Prop :=
  out `prefix_of` reason ∧ (length out <= WT_MAX_CLOSE_REASON)%nat ∧
  ((length reason <= WT_MAX_CLOSE_REASON)%nat → out = reason) ∧
  (is_utf8 reason = true →
    is_utf8 out = true ∧
    ∀ p, p `prefix_of` reason → (length p <= WT_MAX_CLOSE_REASON)%nat → is_utf8 p = true →
      (length p <= length out)%nat).
Lemma truncate_close_reason_longest (reason : bytes) : longest_cut reason (truncate_close_reason reason).
Proof.
  unfold longest_cut, truncate_close_reason.
  destruct (Nat.leb_spec (length reason) WT_MAX_CLOSE_REASON) as [Hle|Hgt].
  { repeat split; auto. intros p [k ->] _ _. rewrite length_app. lia. }
  set (e := truncate_end reason WT_MAX_CLOSE_REASON).
  pose proof (truncate_end_le reason WT_MAX_CLOSE_REASON) as He. fold e in He.
  rewrite length_take_le by lia.
  split; [by exists (drop e reason); rewrite take_drop|]. split; [done|]. split; [lia|].
  intros Hu. split.
  - destruct (decide (e = O)) as [->|Hne]; [done|].
    apply is_utf8_take_boundary; [done|]. intros b Hb.
    pose proof (truncate_end_boundary reason WT_MAX_CLOSE_REASON Hne) as Hc. fold e in Hc.
    unfold continuation_at in Hc. by rewrite Hb, mask_is_cont in Hc.
  - intros p [k ->] Hlp Hp. apply truncate_end_greatest; [done|].
    unfold continuation_at. rewrite (is_utf8_app_inv p k Hp) in Hu.
    rewrite lookup_app_r, Nat.sub_diag by done. destruct k as [|b k]; [done|].
    cbn. rewrite mask_is_cont. by eapply is_utf8_head.
Qed.

(** ** Variable-length integers *)

Lemma lor_disjoint k a b : b < 2 ^ k → N.lor (a * 2 ^ k) b = a * 2 ^ k + b.
Proof.
  intros Hb. rewrite <- N.lxor_lor, <- N.add_nocarry_lxor; [done|..];
  (rewrite <- N.shiftl_mul_pow2; apply N.bits_inj; intros i;
   rewrite N.land_spec, N.bits_0;
   destruct (N.lt_ge_cases i k);
   [by rewrite N.shiftl_spec_low|
    rewrite (proj2 (N.testbit_false b i)); [apply andb_false_r|];
    rewrite N.div_small; [done|];
    apply (N.lt_le_trans _ (2 ^ k)); [done|apply N.pow_le_mono_r; lia]]).
Qed.

Lemma varint_step_spec v b : v < 2 ^ 56 → varint_step v b = v * 256 + b2n b.
Proof.
  intros Hv. unfold varint_step, shl64, wrap64, U64.
  rewrite N.shiftl_mul_pow2, N.mod_small by lia.
  apply (lor_disjoint 8). apply b2n_lt.
Qed.

(** One more byte of [w] appended to the value read so far. *)
Lemma varint_step_shift w k :
  w < 2 ^ 62 → varint_step (N.shiftr w (k + 8)) (n2b (N.shiftr w k)) = N.shiftr w k.
Proof.
  intros Hw. rewrite !N.shiftr_div_pow2.
  rewrite N.pow_add_r, <- N.Div0.div_div. set (x := w / 2 ^ k).
  assert (x <= w).
  { unfold x. rewrite <- (N.div_1_r w) at 2. apply N.div_le_compat_l.
    pose proof (N.pow_nonzero 2 k). lia. }
  change (2 ^ 8) with 256. clearbody x.
  rewrite varint_step_spec by nlia. rewrite b2n_n2b. nlia.
Qed.

Lemma first_byte tag x :
  tag < 4 → x < 64 →
  N.shiftr (b2n (byte_or (n2b (tag * 2 ^ 6)) (n2b x))) 6 = tag ∧
  N.land (b2n (byte_or (n2b (tag * 2 ^ 6)) (n2b x))) 0x3f = x.
Proof.
  intros Ht Hx. unfold byte_or.
  rewrite (b2n_n2b_small x), (b2n_n2b_small (tag * _)) by lia.
  rewrite lor_disjoint by done. rewrite b2n_n2b_small by lia.
  change 0x3f with (N.ones 6). rewrite N.land_ones, N.shiftr_div_pow2. nlia.
Qed.

Lemma first_byte_0 v :
  v < 64 → N.shiftr (b2n (n2b v)) 6 = 0 ∧ N.land (b2n (n2b v)) 0x3f = v.
Proof.
  intros Hv. rewrite b2n_n2b_small by lia.
  change 0x3f with (N.ones 6). rewrite N.land_ones, N.shiftr_div_pow2. nlia.
Qed.

Lemma shiftr_lt v k m : v < 2 ^ (k + m) → N.shiftr v k < 2 ^ m.
Proof.
  intros. rewrite N.shiftr_div_pow2. apply N.Div0.div_lt_upper_bound.
  by rewrite <- N.pow_add_r.
Qed.

Lemma put_varint_length v : length (put_varint v) = varint_len v.
Proof.
  unfold put_varint, varint_len.
  destruct (v <? N.shiftl 1 6); [done|]. destruct (v <? N.shiftl 1 14); [done|].
  destruct (v <? N.shiftl 1 30); done.
Qed.

Lemma varint_len_bounds v : (1 <= varint_len v <= 8)%nat.
Proof. unfold varint_len. repeat case_match; lia. Qed.

Lemma put_varint_nonempty v : put_varint v ≠ [].
Proof.
  intros H. pose proof (varint_len_bounds v). rewrite <- put_varint_length, H in *.
  simpl in *. lia.
Qed.

Lemma read_varint_multibyte tag k x tail :
  tag < 4 → x < 64 → k = N.to_nat (N.shiftl 1 tag) → (k <= 1 + length tail)%nat →
  read_varint (byte_or (n2b (tag * 2 ^ 6)) (n2b x) :: tail) =
  Some (foldl varint_step x (take (k - 1) tail), k).
Proof.
  intros Ht Hx -> Hlen. destruct (first_byte tag x Ht Hx) as [E1 E2].
  unfold read_varint. rewrite E1, E2. cbn [length].
  rewrite (proj2 (Nat.ltb_ge _ _)) by lia. done.
Qed.

(** Decoding the encoding of any 62-bit value, followed by arbitrary bytes,
    yields the value and the length of its encoding. *)
Lemma read_put_varint (v : N) (rest : bytes) :
  v < 2 ^ 62 → read_varint (put_varint v ++ rest) = Some (v, varint_len v).
Proof.
  intros Hv. unfold put_varint, varint_len.
  assert (E : ∀ k k', k' = k + 8 →
    varint_step (N.shiftr v k') (n2b (N.shiftr v k)) = N.shiftr v k)
    by (intros k ? ->; by apply varint_step_shift).
  pose proof (E 0 8 eq_refl) as E0. rewrite N.shiftr_0_r in E0.
  pose proof (E 8 16 eq_refl) as E8. pose proof (E 16 24 eq_refl) as E16.
  pose proof (E 24 32 eq_refl) as E24. pose proof (E 32 40 eq_refl) as E32.
  pose proof (E 40 48 eq_refl) as E40. pose proof (E 48 56 eq_refl) as E48.
  destruct (N.ltb_spec v (N.shiftl 1 6)) as [H1|_].
  { destruct (first_byte_0 v H1) as [E1 E2]. unfold read_varint; cbn [app].
    by rewrite E1, E2. }
  destruct (N.ltb_spec v (N.shiftl 1 14)) as [H2|_].
  { rewrite <- app_comm_cons, (read_varint_multibyte 1 2);
      [|done|by apply (shiftr_lt v 8 6)|done|cbn; lia].
    cbn [Nat.sub app take foldl]. by rewrite E0. }
  destruct (N.ltb_spec v (N.shiftl 1 30)) as [H3|_].
  { rewrite <- app_comm_cons, (read_varint_multibyte 2 4);
      [|done|by apply (shiftr_lt v 24 6)|done|cbn; lia].
    cbn [Nat.sub app take foldl]. by rewrite E16, E8, E0. }
  rewrite <- app_comm_cons, (read_varint_multibyte 3 8);
    [|done|by apply (shiftr_lt v 56 6)|done|cbn; lia].
  cbn [Nat.sub app map take foldl].
  by rewrite E48, E40, E32, E24, E16, E8, N.shiftr_0_r, E0.
Qed.

(** What a successful read says about the buffer: the value has 62 bits, the
    length is one of the four encodings and lies inside the buffer. *)
Lemma foldl_varint_bound l v k :
  v < 2 ^ k → k + 8 * lenN l <= 62 → foldl varint_step v l < 2 ^ (k + 8 * lenN l).
Proof.
  revert v k. induction l as [|b l IH]; intros v k Hv Hk.
  - cbn. by rewrite N.add_0_r.
  - rewrite lenN_cons in *. cbn [foldl].
    replace (k + 8 * (1 + lenN l)) with ((k + 8) + 8 * lenN l) by lia.
    apply IH; [|lia].
    assert (v < 2 ^ 56) by (apply (N.lt_le_trans _ (2 ^ k)); [done|apply N.pow_le_mono_r; lia]).
    rewrite varint_step_spec by done. rewrite N.pow_add_r. pose proof (b2n_lt b).
    change (2 ^ 8) with 256. nia.
Qed.

Lemma first_byte_tag b : N.shiftr (b2n b) 6 < 4.
Proof. pose proof (b2n_lt b). rewrite N.shiftr_div_pow2. nlia. Qed.

Lemma read_varint_cases buf v n :
  read_varint buf = Some (v, n) →
  ∃ b rest t, buf = b :: rest ∧ t = N.shiftr (b2n b) 6 ∧ t < 4 ∧
    n = N.to_nat (N.shiftl 1 t) ∧ (n <= length buf)%nat ∧
    v = foldl varint_step (N.land (b2n b) 0x3f) (take (n - 1) rest).
Proof.
  destruct buf as [|b rest]; [done|]. unfold read_varint.
  destruct (Nat.ltb_spec (length (b :: rest)) (N.to_nat (N.shiftl 1 (N.shiftr (b2n b) 6))));
    intros [= <- <-].
  exists b, rest, (N.shiftr (b2n b) 6). pose proof (first_byte_tag b). eauto 10.
Qed.

Lemma tag_cases t : t < 4 → t = 0 ∨ t = 1 ∨ t = 2 ∨ t = 3.
Proof. lia. Qed.

Lemma read_varint_bounds buf v n :
  read_varint buf = Some (v, n) → v < 2 ^ (8 * N.of_nat n - 2) ∧ (1 <= n <= 8)%nat ∧ (n <= length buf)%nat.
Proof.
  intros (b & rest & t & -> & -> & Ht & Hn & Hlen & ->)%read_varint_cases.
  assert (N.land (b2n b) 0x3f < 2 ^ 6).
  { change 0x3f with (N.ones 6). rewrite N.land_ones. by apply N.mod_lt. }
  cbn [length] in Hlen.
  assert (1 <= n <= 8)%nat by (destruct (tag_cases _ Ht) as [E|[E|[E|E]]]; rewrite E in Hn; vm_compute in Hn; lia).
  split; [|split; auto].
  assert (E : lenN (take (n - 1) rest) = N.of_nat n - 1) by (unfold lenN; rewrite length_take; lia).
  replace (8 * N.of_nat n - 2) with (6 + 8 * lenN (take (n - 1) rest)) by lia.
  apply foldl_varint_bound; [done|]. lia.
Qed.

Lemma read_varint_lt62 buf v n : read_varint buf = Some (v, n) → v < 2 ^ 62.
Proof.
  intros [H [Hn _]]%read_varint_bounds. eapply N.lt_le_trans; [done|]. apply N.pow_le_mono_r; lia.
Qed.

(** More input does not change a varint that was already complete. *)
Lemma read_varint_app buf rest v n :
  read_varint buf = Some (v, n) → read_varint (buf ++ rest) = Some (v, n).
Proof.
  intros (b & tl & t & -> & -> & Ht & Hn & Hlen & ->)%read_varint_cases.
  cbn [app]. unfold read_varint. rewrite <- Hn.
  cbn [length] in *. rewrite length_app, (proj2 (Nat.ltb_ge _ _)) by lia.
  rewrite take_app_le by lia. done.
Qed.

(** A buffer without a complete varint is shorter than eight bytes. *)
Lemma read_varint_None buf : read_varint buf = None → (length buf < 8)%nat.
Proof.
  destruct buf as [|b rest]; [cbn; lia|]. unfold read_varint.
  destruct (Nat.ltb_spec (length (b :: rest)) (N.to_nat (N.shiftl 1 (N.shiftr (b2n b) 6))));
    [intros _|done].
  pose proof (first_byte_tag b) as Ht.
  destruct (tag_cases _ Ht) as [E|[E|[E|E]]]; rewrite E in *; vm_compute (N.to_nat _) in *; lia.
Qed.

(** Whatever bytes decode to a value, the encoder's output for that value is not
    longer, and the decoder never reads past the buffer nor returns more than 62
    bits. *)
Lemma put_varint_shortest (buf : bytes) (v : N) (n : nat) :
  read_varint buf = Some (v, n) →
  (length (put_varint v) <= n <= length buf)%nat ∧ v < 2 ^ 62.
Proof.
  intros H. pose proof (read_varint_lt62 _ _ _ H). split; [|done].
  pose proof (read_varint_cases _ _ _ H) as (b & rest & t & _ & _ & Ht & Hn & _ & _).
  apply read_varint_bounds in H as (Hv & _ & ?). split; [|done].
  rewrite put_varint_length. unfold varint_len.
  change (N.shiftl 1 6) with (2 ^ 6). change (N.shiftl 1 14) with (2 ^ 14).
  change (N.shiftl 1 30) with (2 ^ 30).
  destruct (tag_cases _ Ht) as [E|[E|[E|E]]]; rewrite E in Hn; vm_compute in Hn; subst n;
    match type of Hv with _ < 2 ^ ?k => let k' := eval vm_compute in k in change k with k' in Hv end;
    cases_N; lia.
Qed.

(** C28: the variable-length integer codec: decoding the encoding of any 62-bit
    value, followed by arbitrary bytes, yields the value and consumes exactly
    the [varint_len] bytes written; and a buffer that stops short of the whole
    encoding is reported as incomplete, never as another value.  The encoding is
    the shortest: no bytes that decode to the value are shorter. *)
Theorem varint_roundtrip (v : N) :
  v < 2 ^ 62 →
  length (put_varint v) = varint_len v ∧
  (∀ rest, read_varint (put_varint v ++ rest) = Some (v, varint_len v)) ∧
  (∀ k, (k < varint_len v)%nat → read_varint (take k (put_varint v)) = None) ∧
  (∀ buf n, read_varint buf = Some (v, n) → (varint_len v <= n <= length buf)%nat).
Proof.
  intros Hv. split; [apply put_varint_length|]. split; [intros; by apply read_put_varint|].
  split; [|intros buf n E; rewrite <- put_varint_length; by apply put_varint_shortest].
  intros k Hk. destruct (read_varint (take k (put_varint v))) as [[v' n]|] eqn:E; [|done].
  pose proof (read_varint_bounds _ _ _ E) as (_ & _ & Hn). rewrite length_take in Hn.
  apply (read_varint_app _ (drop k (put_varint v))) in E. rewrite take_drop in E.
  pose proof (read_put_varint v [] Hv) as E'. rewrite app_nil_r in E'. simplify_eq. lia.
Qed.

Lemma varint_roundtrip_witness :
  read_varint (put_varint 15293 ++ [x00]) = Some (15293, 2%nat) ∧
  read_varint (take 1 (put_varint 15293)) = None.
Proof.
  destruct (varint_roundtrip 15293) as (_ & H1 & H2 & _); [vm_compute; reflexivity|].
  split; [apply (H1 [x00])|apply H2; vm_compute; lia].
Defined.

(** ** Frames *)

Lemma frame_length ty payload :
  length (frame ty payload) =
  (varint_len ty + varint_len (lenN payload) + length payload)%nat.
Proof. unfold frame. rewrite !length_app, !put_varint_length. lia. Qed.

(** Reading the two varints of a frame header, whatever follows. *)
Lemma frame_header_read ty payload rest :
  ty < 2 ^ 62 → lenN payload < 2 ^ 62 →
  read_varint (frame ty payload ++ rest) = Some (ty, varint_len ty) ∧
  read_varint (drop (varint_len ty) (frame ty payload ++ rest)) =
    Some (lenN payload, varint_len (lenN payload)) ∧
  take (length payload)
    (drop (varint_len ty + varint_len (lenN payload)) (frame ty payload ++ rest)) = payload ∧
  drop (varint_len ty + varint_len (lenN payload) + length payload)
    (frame ty payload ++ rest) = rest.
Proof.
  intros Hty Hlen. unfold frame. rewrite <- !app_assoc.
  pose proof (put_varint_length ty) as E1.
  pose proof (put_varint_length (lenN payload)) as E2.
  split; [by apply read_put_varint|]. rewrite <- E1, <- E2.
  rewrite drop_app_length. split; [by rewrite read_put_varint, E2|].
  rewrite <- !drop_drop, !drop_app_length, take_app_length. done.
Qed.

(** ** SETTINGS *)

Definition encode_setting (p : N * N) : bytes := put_varint p.1 ++ put_varint p.2.

Lemma encode_setting_nonempty p : (1 <= length (encode_setting p))%nat.
Proof.
  unfold encode_setting. rewrite length_app, !put_varint_length.
  pose proof (varint_len_bounds p.1). lia.
Qed.

Lemma put_settings_concat pairs : put_settings pairs = concat (map encode_setting pairs).
Proof.
  unfold put_settings. rewrite <- (app_nil_l (concat _)).
  generalize (@nil byte). induction pairs as [|[id val] pairs IH]; intros acc; simpl.
  - by rewrite app_nil_r.
  - rewrite IH. unfold encode_setting. simpl. by rewrite <- !app_assoc.
Qed.

(** What RFC 9114 and the WebTransport draft allow in a SETTINGS payload. *)
Definition setting_valid (p : N * N) : Prop :=
  is_reserved_setting p.1 = false ∧
  (is_boolean_setting p.1 = true → p.2 <= 1) ∧
  (is_stream_limit_setting p.1 = true → p.2 <= 2 ^ 60).
Definition settings_admissible (pairs : list (N * N)) : Prop :=
  NoDup pairs.*1 ∧ Forall setting_valid pairs.
Definition varint_pair (p : N * N) : Prop := p.1 < 2 ^ 62 ∧ p.2 < 2 ^ 62.
Definition apply_settings (pairs : list (N * N)) (s : PeerSettings) : PeerSettings :=
  foldl (fun s p => apply_setting p.1 p.2 s) s pairs.

Lemma parse_settings_loop_total fuel payload seen s :
  (length payload <= fuel)%nat → is_Some (parse_settings_loop fuel payload seen s).
Proof.
  revert payload seen s. induction fuel as [|fuel IH]; intros payload seen s Hf;
    destruct payload as [|b payload]; cbn [parse_settings_loop]; eauto.
  { cbn in Hf. lia. }
  set (buf := b :: payload) in *.
  destruct (read_varint buf) as [[id n1]|] eqn:E1; [|eauto].
  destruct (read_varint (drop n1 buf)) as [[val n2]|] eqn:E2; [|eauto].
  repeat case_match; eauto. apply IH. apply read_varint_bounds in E1. rewrite length_drop. lia.
Qed.

(** One step of the loop on a payload that starts with a complete pair. *)
Lemma parse_settings_loop_pair fuel p rest seen s :
  varint_pair p →
  parse_settings_loop (S fuel) (encode_setting p ++ rest) seen s =
  (if bool_decide (p.1 ∈ seen) || is_reserved_setting p.1 then
     Some (Err (s2b "duplicate or reserved SETTINGS identifier"))
   else if is_boolean_setting p.1 && (1 <? p.2) then
     Some (Err (s2b "invalid boolean SETTINGS value"))
   else if is_stream_limit_setting p.1 && (N.shiftl 1 60 <? p.2) then
     Some (Err (s2b "invalid WebTransport stream limit"))
   else parse_settings_loop fuel rest ({[p.1]} ∪ seen) (apply_setting p.1 p.2 s)).
Proof.
  destruct p as [id val]; intros [Hid Hval]; simpl in *. unfold encode_setting; simpl.
  cbn [parse_settings_loop].
  destruct ((put_varint id ++ put_varint val) ++ rest) as [|b bs] eqn:E.
  { exfalso. apply (put_varint_nonempty id). by apply app_eq_nil in E as [[E _]%app_eq_nil _]. }
  rewrite <- E. rewrite <- app_assoc, read_put_varint by done.
  rewrite <- (put_varint_length id), drop_app_length, read_put_varint by done.
  rewrite <- drop_drop, drop_app_length, <- (put_varint_length val), drop_app_length. done.
Qed.

Lemma setting_checks (p : N * N) (seen : gset N) :
  ((p.1 ∉ seen) ∧ setting_valid p) ↔
  (bool_decide (p.1 ∈ seen) || is_reserved_setting p.1) = false ∧
  (is_boolean_setting p.1 && (1 <? p.2)) = false ∧
  (is_stream_limit_setting p.1 && (N.shiftl 1 60 <? p.2)) = false.
Proof.
  unfold setting_valid. change (N.shiftl 1 60) with (2 ^ 60).
  rewrite orb_false_iff, !andb_false_iff, bool_decide_eq_false, !N.ltb_ge.
  destruct (is_boolean_setting p.1), (is_stream_limit_setting p.1);
    intuition (try discriminate).
Qed.

Lemma parse_settings_loop_spec fuel pairs (seen : gset N) s :
  Forall varint_pair pairs → (length pairs <= fuel)%nat →
  let go := parse_settings_loop fuel (concat (map encode_setting pairs)) seen s in
  (settings_admissible pairs ∧ (∀ p, p ∈ pairs → p.1 ∉ seen) →
   go = Some (Ok (apply_settings pairs s))) ∧
  (¬ (settings_admissible pairs ∧ ∀ p, p ∈ pairs → p.1 ∉ seen) → ∃ e, go = Some (Err e)).
Proof.
  revert pairs seen s. induction fuel as [|fuel IH]; intros [|p pairs] seen s Hp Hf go;
    subst go; cbn in Hf; try lia.
  1,2: split; [done|]; intros []; split; [split; constructor|set_solver].
  inversion Hp as [|? ? Hp1 Hp2]; subst. cbn [map concat].
  rewrite parse_settings_loop_pair by done.
  destruct (decide ((p.1 ∉ seen) ∧ setting_valid p)) as [Hok|Hbad].
  - pose proof (proj1 (setting_checks p seen) Hok) as (-> & -> & ->).
    destruct (IH pairs ({[p.1]} ∪ seen) (apply_setting p.1 p.2 s) Hp2) as [IH1 IH2]; [lia|].
    assert (Hiff : (settings_admissible (p :: pairs) ∧ (∀ q, q ∈ p :: pairs → q.1 ∉ seen)) ↔
                   (settings_admissible pairs ∧ ∀ q, q ∈ pairs → q.1 ∉ {[p.1]} ∪ seen)).
    { clear IH. unfold settings_admissible. rewrite fmap_cons, NoDup_cons, Forall_cons.
      setoid_rewrite elem_of_cons. rewrite list_elem_of_fmap. split.
      - intros ([[? ?] [? ?]] & Hs). split; [by split|].
        intros q Hq. apply not_elem_of_union. split; [|by apply Hs; right].
        rewrite elem_of_singleton. intros Heq. eauto.
      - intros ([? ?] & Hs). destruct Hok. split.
        + split; [split|split]; auto. intros (q & Hq1 & Hq2). apply (Hs q Hq2). set_solver.
        + intros q [->|Hq]; [done|]. specialize (Hs q Hq). set_solver. }
    rewrite Hiff. split; auto.
  - split.
    + clear IH. intros ([_ Hv] & Hs). destruct Hbad. inversion Hv; subst.
      split; [apply Hs; set_solver|done].
    + intros _. destruct (bool_decide (p.1 ∈ seen) || is_reserved_setting p.1) eqn:E1; [eauto|].
      destruct (is_boolean_setting p.1 && (1 <? p.2)) eqn:E2; [eauto|].
      destruct (is_stream_limit_setting p.1 && (N.shiftl 1 60 <? p.2)) eqn:E3; [eauto|].
      destruct Hbad. by apply setting_checks.
Qed.

(** C27: parsing the encoding of any list of settings succeeds exactly when the
    list is admissible (no identifier twice, none reserved, boolean settings at
    most 1, stream limits at most 2^60), and then records every known setting
    and ignores the unknown ones. *)
Theorem parse_settings_encoded (pairs : list (N * N)) :
  Forall varint_pair pairs →
  (settings_admissible pairs →
   parse_settings (put_settings pairs) = Ok (apply_settings pairs default_settings)) ∧
  (¬ settings_admissible pairs → ∃ e, parse_settings (put_settings pairs) = Err e).
Proof.
  intros Hp. rewrite put_settings_concat. unfold parse_settings.
  set (payload := concat _).
  assert (Hlen : (length pairs <= length payload)%nat).
  { unfold payload. clear Hp. induction pairs as [|p pairs IH]; cbn; [lia|].
    rewrite length_app. pose proof (encode_setting_nonempty p). cbv zeta in IH. lia. }
  destruct (parse_settings_loop_spec (length payload) pairs ∅ default_settings Hp Hlen) as [H1 H2].
  fold payload in H1, H2. split.
  - intros Ha. rewrite H1; [done|]. split; [done|set_solver].
  - intros Ha. destruct H2 as [e ->]; [by intros [? _]|]. eauto.
Qed.

Lemma parse_settings_encoded_witness :
  parse_settings (put_settings settings_pairs) =
  Ok (mkPeerSettings true true true 256 WT_INITIAL_MAX_DATA 256 256) ∧
  (∃ e, parse_settings (put_settings [(SETTINGS_H3_DATAGRAM, 1); (SETTINGS_H3_DATAGRAM, 1)]) = Err e).
Proof.
  split.
  - apply (parse_settings_encoded settings_pairs).
    + repeat constructor.
    + split; [|repeat constructor; done].
      exact (bool_decide_unpack (NoDup settings_pairs.*1) I).
  - apply parse_settings_encoded; [repeat constructor|].
    intros [Hnd _]. apply NoDup_cons in Hnd as [Hnd _]. apply Hnd. simpl. left.
Defined.

(** The SETTINGS we advertise are accepted by the peer's check. *)
Lemma own_settings_ok :
  webtransport_ok <$> ok (parse_settings settings_payload) = Some true.
Proof. vm_compute. done. Qed.
