(* ===== verification/ParserMemory.v ===== *)
(** * Allocation accounting ([crates/native/src/parser_memory.rs])

    A [ParserMemory] is an immutable node (limit, parent) with an atomic
    counter.  The counters live in a store shared by every handle to the same
    node, so that a session's buffers and the server's total alias as in the
    code: an [Arc<ParserMemory>] is the node's identity [pm_id] with its limit
    and its parent, and [Usage] maps identities to counters.  All accesses come
    from one driver thread, hence the sequential store. *)

From S2P Require Import Prelude.

Inductive ParserMemory :=
  | PMRoot (id limit : N)
  | PMChild (id limit : N) (parent : ParserMemory).

Definition pm_id (m : ParserMemory) : N :=
  match m with PMRoot i _ | PMChild i _ _ => i end.
Definition pm_limit (m : ParserMemory) : N :=
  match m with PMRoot _ l | PMChild _ l _ => l end.

Abbreviation Usage := (gmap N N).
Definition usage (u : Usage) (i : N) : N := default 0 (u !! i).

(** A node and its ancestors. *)
Fixpoint ids (m : ParserMemory) : gset N :=
  match m with PMRoot i _ => {[i]} | PMChild i _ p => {[i]} ∪ ids p end.

(** [ParserMemory::new] and [ParserMemory::child]: a node with a fresh counter
    at zero. *)
Definition new_memory (limit : N) (u : Usage) : ParserMemory * Usage :=
  let i := fresh (dom u) in (PMRoot i limit, <[i := 0]> u).
Definition child_memory (parent : ParserMemory) (limit : N) (u : Usage) : ParserMemory * Usage :=
  let i := fresh (dom u ∪ ids parent) in (PMChild i limit parent, <[i := 0]> u).

(** The [fetch_update] on one node's counter. *)
Definition try_charge (i limit n : N) (u : Usage) : option Usage :=
  match checked_add64 (usage u i) n with
  | Some next => if next <=? limit then Some (<[i := next]> u) else None
  | None => None
  end.

Definition fetch_sub (i n : N) (u : Usage) : Usage := <[i := sub64 (usage u i) n]> u.

Fixpoint reserve (m : ParserMemory) (n : N) (u : Usage) : bool * Usage :=
  match m with
  | PMRoot i limit =>
      match try_charge i limit n u with Some u1 => (true, u1) | None => (false, u) end
  | PMChild i limit parent =>
      match try_charge i limit n u with
      | None => (false, u)
      | Some u1 =>
          match reserve parent n u1 with
          | (true, u2) => (true, u2)
          | (false, u2) => (false, fetch_sub i n u2)
          end
      end
  end.

Fixpoint release (m : ParserMemory) (n : N) (u : Usage) : Usage :=
  match m with
  | PMRoot i _ => fetch_sub i n u
  | PMChild i _ parent => release parent n (fetch_sub i n u)
  end.

(** ** Buffers *)

(** A [Vec<u8>] with its capacity, and the node it is charged to. *)
Record ParserBuffer := mkParserBuffer {
  pb_data : bytes;
  pb_capacity : N;
  pb_memory : ParserMemory;
}.

#[export] Instance ParserBuffer_eta : Eta ParserBuffer := fun b =>
  mkParserBuffer (pb_data b) (pb_capacity b) (pb_memory b).

(** The allocator behind [Vec::try_reserve_exact]: the capacity it gives an
    empty vector asked for [n] bytes, or an allocation failure.  The capacity
    covers the request and, like every allocation size, fits a [usize]. *)
Class Allocator := try_reserve_exact : N → option N.
Class AllocatorLaws `{Allocator} := {
  alloc_at_least n c : try_reserve_exact n = Some c → n <= c < U64;
}.

Definition new_buffer (m : ParserMemory) : ParserBuffer := mkParserBuffer [] 0 m.

Definition checked_next_power_of_two (n : N) : option N :=
  let p := 2 ^ N.log2_up n in if p <? U64 then Some p else None.

Section buffers.
Context {alloc : Allocator}.

(** Replace the storage by one of at least [capacity] bytes: reserve, allocate,
    charge any excess, release the old storage. *)
Definition grow (b : ParserBuffer) (capacity : N) (u : Usage)
    : result () ParserBuffer * Usage :=
  match reserve (pb_memory b) capacity u with
  | (false, u1) => (Err (), u1)
  | (true, u1) =>
      match try_reserve_exact capacity with
      | None => (Err (), release (pb_memory b) capacity u1)
      | Some c =>
          let extra := c - capacity in
          let '(ok, u2) :=
            if extra =? 0 then (true, u1) else reserve (pb_memory b) extra u1 in
          if ok then
            (Ok (b <| pb_capacity := c |>), release (pb_memory b) (pb_capacity b) u2)
          else (Err (), release (pb_memory b) capacity u2)
      end
  end.

(** The result, the buffer afterwards and the counters afterwards; a refusal
    leaves the buffer unchanged. *)
Definition extend_from_slice (b : ParserBuffer) (new : bytes) (u : Usage)
    : result () () * ParserBuffer * Usage :=
  match checked_add64 (lenN (pb_data b)) (lenN new) with
  | None => (Err (), b, u)
  | Some needed =>
      if pb_capacity b <? needed then
        match checked_next_power_of_two needed with
        | None => (Err (), b, u)
        | Some capacity =>
            match grow b capacity u with
            | (Err (), u1) => (Err (), b, u1)
            | (Ok b1, u1) => (Ok (), b1 <| pb_data ::= fun d => d ++ new |>, u1)
            end
        end
      else (Ok (), b <| pb_data ::= fun d => d ++ new |>, u)
  end.

(** Take the storage away and release it; also what [Drop] does. *)
Definition clear (b : ParserBuffer) (u : Usage) : ParserBuffer * Usage :=
  (b <| pb_data := [] |> <| pb_capacity := 0 |>, release (pb_memory b) (pb_capacity b) u).
Definition drop_buffer (b : ParserBuffer) (u : Usage) : Usage := (clear b u).2.

(** [None]: the range of [Vec::drain] ends beyond the data. *)
Definition consume (b : ParserBuffer) (n : nat) (u : Usage) : option (ParserBuffer * Usage) :=
  if (n =? length (pb_data b))%nat then Some (clear b u)
  else if (n <=? length (pb_data b))%nat then Some (b <| pb_data ::= drop n |>, u)
  else None.

(** [None]: the slice index panics. *)
Definition copy_range (b : ParserBuffer) (lo hi : nat) (u : Usage)
    : option (result () ParserBuffer * Usage) :=
  if ((lo <=? hi) && (hi <=? length (pb_data b)))%nat then
    let '(r, copy, u1) :=
      extend_from_slice (new_buffer (pb_memory b)) (take (hi - lo) (drop lo (pb_data b))) u in
    match r with
    | Ok () => Some (Ok copy, u1)
    | Err () => Some (Err (), drop_buffer copy u1)
    end
  else None.
End buffers.

(** ** Specification

    [ids m] are the nodes a reservation on [m] charges.  Counters that agree on
    every node are equivalent, whether or not the store holds an explicit
    zero. *)

(** The nodes are distinct, and [limits] gives each its limit, a [usize]. *)
Fixpoint wf_memory (limits : N → N) (m : ParserMemory) : Prop :=
  limits (pm_id m) = pm_limit m ∧
  match m with
  | PMRoot _ _ => True
  | PMChild i _ p => (i ∉ ids p) ∧ wf_memory limits p
  end.

Definition usage_equiv (u v : Usage) : Prop := ∀ i, usage u i = usage v i.
#[export] Instance usage_equiv_equivalence : Equivalence usage_equiv.
Proof.
  split; [done|by intros u v E i|]. intros u v w E1 E2 i. by rewrite E1, E2.
Qed.
#[export] Instance usage_proper : Proper (usage_equiv ==> eq ==> eq) usage.
Proof. intros u v E i _ <-. apply E. Qed.

Lemma usage_insert u i j n : usage (<[i := n]> u) j = if decide (i = j) then n else usage u j.
Proof. unfold usage. rewrite lookup_insert. by case_decide. Qed.

(** The room left at every node of a chain. *)
Fixpoint fits (m : ParserMemory) (n : N) (u : Usage) : Prop :=
  usage u (pm_id m) + n <= pm_limit m ∧
  match m with PMRoot _ _ => True | PMChild _ _ p => fits p n u end.

Definition charge (m : ParserMemory) (n : N) (u v : Usage) : Prop :=
  ∀ i, usage v i = usage u i + (if decide (i ∈ ids m) then n else 0).

Section laws.
Context (limits : N → N) (limits_usize : ∀ i, limits i < U64).

(** No node is over its limit. *)
Definition within (u : Usage) : Prop := ∀ i, usage u i <= limits i.

#[export] Instance within_proper : Proper (usage_equiv ==> iff) within.
Proof. intros u v E. unfold within. by setoid_rewrite E. Qed.

Lemma try_charge_spec i limit n u :
  limits i = limit →
  (try_charge i limit n u = Some (<[i := usage u i + n]> u) ∧ usage u i + n <= limit) ∨
  (try_charge i limit n u = None ∧ limit < usage u i + n).
Proof.
  intros <-. unfold try_charge, checked_add64. specialize (limits_usize i).
  destruct (N.ltb_spec (usage u i + n) U64); [|right; split; [done|lia]].
  destruct (N.leb_spec (usage u i + n) (limits i)); [left|right]; done.
Qed.

Lemma fetch_sub_insert i n u v :
  usage_equiv v (<[i := usage u i + n]> u) → usage u i + n < U64 →
  usage_equiv (fetch_sub i n v) u.
Proof.
  intros E Hlt j. pose proof (E i) as Ei. pose proof (E j) as Ej. unfold fetch_sub.
  rewrite !usage_insert in *. rewrite decide_True in Ei by done.
  case_decide; [subst|done]. rewrite Ei, sub64_small; lia.
Qed.

Lemma fits_insert m i n x u : i ∉ ids m → fits m n (<[i := x]> u) ↔ fits m n u.
Proof.
  induction m as [j l|j l p IH]; cbn; intros Hi.
  - rewrite usage_insert, decide_False by set_solver. done.
  - rewrite usage_insert, decide_False, IH by set_solver. done.
Qed.

(** A reservation succeeds exactly when every node has room, and then charges
    each of them; a refusal leaves every counter as it was. *)
Lemma reserve_spec m n u :
  wf_memory limits m →
  let '(ok, v) := reserve m n u in
  (ok = true ↔ fits m n u) ∧
  (ok = true → charge m n u v) ∧
  (ok = false → usage_equiv v u).
Proof.
  revert u. induction m as [i l|i l p IH]; intros u; cbn [wf_memory pm_id pm_limit].
  - intros [Hl _]. cbn [reserve fits pm_id pm_limit].
    destruct (try_charge_spec i l n u Hl) as [[-> Hr]|[-> Hr]].
    + split; [tauto|]. split; [|done]. intros _ j. cbn [ids]. rewrite usage_insert.
      repeat case_decide; set_solver by lia.
    + split; [split; [done|lia]|]. done.
  - intros (Hl & Hi & Hp). cbn [reserve].
    destruct (try_charge_spec i l n u Hl) as [[-> Hr]|[-> Hr]];
      [|cbn [fits pm_id pm_limit]; split; [split; [done|lia]|done]].
    specialize (IH (<[i := usage u i + n]> u) Hp).
    destruct (reserve p n _) as [[] v]; destruct IH as (IH1 & IH2 & IH3);
      cbn [fits pm_id pm_limit]; rewrite fits_insert in IH1 by done.
    + split; [tauto|]. split; [|done]. intros _ j. specialize (IH2 eq_refl j).
      rewrite IH2, usage_insert. cbn [ids].
      repeat case_decide; set_solver by lia.
    + split; [split; [done|tauto]|]. split; [done|]. intros _.
      apply fetch_sub_insert; [auto|]. specialize (limits_usize i). lia.
Qed.

(** Releasing what every node of the chain holds cannot wrap. *)
Lemma release_spec m n u :
  wf_memory limits m → within u → (∀ i, i ∈ ids m → n <= usage u i) →
  ∀ i, usage (release m n u) i = usage u i - (if decide (i ∈ ids m) then n else 0).
Proof.
  revert u. induction m as [j l|j l p IH]; intros u Hwf Hw Hn i; cbn [release ids] in *.
  - unfold fetch_sub. rewrite usage_insert. pose proof (Hw j). specialize (limits_usize j).
    assert (n <= usage u j) by (apply Hn; set_solver).
    destruct (decide (j = i)) as [->|].
    + rewrite decide_True by set_solver. rewrite sub64_small; lia.
    + rewrite decide_False by set_solver. lia.
  - destruct Hwf as (_ & Hj & Hp). pose proof (Hw j). specialize (limits_usize j).
    assert (n <= usage u j) by (apply Hn; set_solver).
    assert (Hsub : sub64 (usage u j) n = usage u j - n) by (apply sub64_small; lia).
    rewrite IH; unfold fetch_sub; rewrite ?Hsub; [|done|..].
    + rewrite usage_insert. destruct (decide (j = i)) as [->|].
      * rewrite decide_False, decide_True by set_solver. lia.
      * f_equal. by apply decide_ext; set_solver.
    + intros k. rewrite usage_insert. specialize (Hw k). case_decide; subst; lia.
    + intros k Hk. rewrite usage_insert, decide_False by set_solver. apply Hn. set_solver.
Qed.
End laws.

(** ** Conservation

    The counters account for a collection of live buffers when every node's
    counter is the total capacity of the buffers charged to it. *)

Definition contribution (i : N) (b : ParserBuffer) : N :=
  if decide (i ∈ ids (pb_memory b)) then pb_capacity b else 0.
Definition load (bufs : list ParserBuffer) (i : N) : N :=
  sum_list_N (map (contribution i) bufs).
Lemma load_cons b bufs i : load (b :: bufs) i = contribution i b + load bufs i.
Proof. done. Qed.

Definition accounted (u : Usage) (bufs : list ParserBuffer) : Prop :=
  ∀ i, usage u i = load bufs i.
Definition wf_buffer (limits : N → N) (b : ParserBuffer) : Prop :=
  wf_memory limits (pb_memory b) ∧ lenN (pb_data b) <= pb_capacity b.

#[export] Instance accounted_proper : Proper (usage_equiv ==> (≡ₚ) ==> iff) accounted.
Proof.
  intros u v E l k P. unfold accounted, load. setoid_rewrite E.
  split; intros H i; rewrite H; [|symmetry]; apply sum_list_N_perm, Permutation_map; done.
Qed.

(** A program over the buffers: the operations of the live buffers, by index. *)
Inductive buf_op :=
  | BufNew (m : ParserMemory)
  | BufExtend (i : nat) (d : bytes)
  | BufClear (i : nat)
  | BufConsume (i n : nat)
  | BufCopyRange (i lo hi : nat)
  | BufDrop (i : nat).

(** New buffers are charged to nodes of the hierarchy. *)
Definition buf_op_ok (limits : N → N) (o : buf_op) : Prop :=
  match o with BufNew m => wf_memory limits m | _ => True end.

Definition run_buf_op `{Allocator} (o : buf_op) (s : list ParserBuffer * Usage)
    : option (list ParserBuffer * Usage) :=
  let '(bufs, u) := s in
  match o with
  | BufNew m => Some (new_buffer m :: bufs, u)
  | BufExtend i d =>
      b ← bufs !! i;
      let '(_, b, u) := extend_from_slice b d u in Some (<[i := b]> bufs, u)
  | BufClear i => b ← bufs !! i; let '(b, u) := clear b u in Some (<[i := b]> bufs, u)
  | BufConsume i n => b ← bufs !! i; '(b, u) ← consume b n u; Some (<[i := b]> bufs, u)
  | BufCopyRange i lo hi =>
      b ← bufs !! i;
      '(r, u) ← copy_range b lo hi u;
      Some (match r with Ok c => c :: bufs | Err _ => bufs end, u)
  | BufDrop i => b ← bufs !! i; Some (delete i bufs, drop_buffer b u)
  end.

Fixpoint run_buf_ops `{Allocator} (ops : list buf_op) (s : list ParserBuffer * Usage)
    : option (list ParserBuffer * Usage) :=
  match ops with
  | [] => Some s
  | o :: ops => s ← run_buf_op o s; run_buf_ops ops s
  end.

Section conservation.
Context {alloc : Allocator} {alloc_laws : AllocatorLaws}.
Context (limits : N → N) (limits_usize : ∀ i, limits i < U64).

Lemma accounted_charge m n u v l :
  charge m n u v → accounted u l → accounted v (mkParserBuffer [] n m :: l).
Proof. intros Hc Ha i. rewrite Hc, Ha, load_cons. unfold contribution. cbn. lia. Qed.

Lemma accounted_release b l u :
  wf_memory limits (pb_memory b) → within limits u → accounted u (b :: l) →
  accounted (release (pb_memory b) (pb_capacity b) u) l ∧
  within limits (release (pb_memory b) (pb_capacity b) u).
Proof.
  intros Hm Hw Ha.
  assert (Hle : ∀ i, i ∈ ids (pb_memory b) → pb_capacity b <= usage u i).
  { intros i Hi. rewrite Ha, load_cons. unfold contribution. rewrite decide_True by done. lia. }
  split; intros i; rewrite (release_spec limits limits_usize) by done.
  - rewrite Ha, load_cons. unfold contribution. lia.
  - specialize (Hw i). lia.
Qed.

Lemma within_charge m n u v :
  wf_memory limits m → within limits u → fits m n u → charge m n u v → within limits v.
Proof.
  intros Hm Hw Hf Hc i. rewrite Hc. specialize (Hw i).
  assert (Hi : i ∈ ids m → usage u i + n <= limits i); [|case_decide; [auto|lia]].
  clear -Hm Hf. induction m as [j l|j l p IH]; cbn in *; intros Hi.
  - apply elem_of_singleton in Hi as ->. destruct Hm as [-> _], Hf. done.
  - destruct Hm as (Hl & _ & Hp), Hf as (Hf1 & Hf2).
    apply elem_of_union in Hi as [->%elem_of_singleton|Hi]; [by rewrite Hl|auto].
Qed.

(** A reservation in terms of conservation: it adds one anonymous buffer. *)
Lemma reserve_accounted m n u l :
  wf_memory limits m → within limits u → accounted u l →
  let '(ok, v) := reserve m n u in
  within limits v ∧
  if ok then accounted v (mkParserBuffer [] n m :: l) else usage_equiv v u ∧ accounted v l.
Proof.
  intros Hm Hw Ha. pose proof (reserve_spec limits limits_usize m n u Hm) as Hr.
  destruct (reserve m n u) as [[] v]; destruct Hr as (Hf & Hc & He).
  - split; [|by eapply accounted_charge; eauto].
    eapply within_charge; eauto. by apply Hf.
  - specialize (He eq_refl). split; [by rewrite He|]. by rewrite He.
Qed.

(** *** Room for sure

    An allocator that serves small requests, on nodes with room to spare. *)

Lemma fits_usage m n u :
  wf_memory limits m → fits m n u ↔ ∀ i, i ∈ ids m → usage u i + n <= limits i.
Proof.
  induction m as [j l|j l p IH]; cbn [wf_memory fits ids pm_id pm_limit].
  - intros [<- _]. split; [by intros [H _] i ->%elem_of_singleton|]. intros H. split; [|done]. apply H. set_solver.
  - intros (<- & _ & Hp). rewrite (IH Hp). split.
    + intros [H1 H2] i [->%elem_of_singleton|Hi]%elem_of_union; [done|by apply H2].
    + intros H. split; [apply H; set_solver|]. intros i Hi. apply H. set_solver.
Qed.

Lemma fits_load m n u l :
  wf_memory limits m → accounted u l → fits m n u ↔ ∀ i, i ∈ ids m → load l i + n <= limits i.
Proof. intros Hm Ha. rewrite fits_usage by done. by setoid_rewrite Ha. Qed.

(** Requests of at most [n] bytes are served with at most [B]. *)
Definition grants (n B : N) : Prop := ∀ m, m <= n → ∃ c, try_reserve_exact m = Some c ∧ c <= B.

Lemma grow_roomy b capacity c B u l :
  wf_memory limits (pb_memory b) → within limits u → accounted u (b :: l) →
  try_reserve_exact capacity = Some c → c <= B →
  (∀ i, i ∈ ids (pb_memory b) → load (b :: l) i + B <= limits i) →
  ∃ v, grow b capacity u = (Ok (b <| pb_capacity := c |>), v).
Proof.
  intros Hm Hw Ha Hal HB Hroom. pose proof (alloc_at_least _ _ Hal) as [Hle _]. unfold grow.
  pose proof (reserve_spec limits limits_usize (pb_memory b) capacity u Hm) as Hr.
  destruct (reserve (pb_memory b) capacity u) as [ok u1]. destruct Hr as (Hok & Hc & _).
  assert (Hf : fits (pb_memory b) capacity u).
  { apply (fits_load _ _ _ (b :: l)); [done..|]. intros i Hi. specialize (Hroom i Hi). lia. }
  rewrite (proj2 Hok Hf) in *. rewrite Hal. cbv zeta.
  destruct (N.eqb_spec (c - capacity) 0); [by eexists|].
  pose proof (reserve_spec limits limits_usize (pb_memory b) (c - capacity) u1 Hm) as Hr.
  destruct (reserve (pb_memory b) (c - capacity) u1) as [ok2 u2]. destruct Hr as (Hok2 & _ & _).
  rewrite (proj2 Hok2); [by eexists|].
  apply (fits_load _ _ _ (mkParserBuffer [] capacity (pb_memory b) :: b :: l)); [done| |].
  - apply accounted_charge with (u := u); [by apply Hc|done].
  - intros i Hi. specialize (Hroom i Hi). rewrite load_cons. unfold contribution at 1.
    cbn [pb_memory pb_capacity]. rewrite decide_True by done. lia.
Qed.

(** Appending up to 2048 bytes in all. *)
Lemma extend_roomy b new B u l :
  wf_memory limits (pb_memory b) → within limits u → accounted u (b :: l) →
  lenN (pb_data b) + lenN new <= 2048 → grants 2048 B →
  (∀ i, i ∈ ids (pb_memory b) → load (b :: l) i + B <= limits i) →
  ∃ b' v, extend_from_slice b new u = (Ok (), b', v) ∧
    (pb_capacity b' = pb_capacity b ∨ pb_capacity b' <= B).
Proof.
  intros Hm Hw Ha Hn Hgr Hroom. unfold extend_from_slice, checked_add64.
  assert (Hsmall : 2048 < U64) by done.
  rewrite (proj2 (N.ltb_lt _ U64)) by (by eapply N.le_lt_trans). destruct (N.ltb_spec (pb_capacity b) (lenN (pb_data b) + lenN new));
    [|by eexists _, _; split; [done|left]].
  assert (Hpow : 2 ^ N.log2_up (lenN (pb_data b) + lenN new) <= 2048).
  { change 2048 with (2 ^ N.log2_up 2048). apply N.pow_le_mono_r; [done|]. by apply N.log2_up_le_mono. }
  unfold checked_next_power_of_two. cbv zeta. rewrite (proj2 (N.ltb_lt _ U64)) by (by eapply N.le_lt_trans).
  destruct (Hgr _ Hpow) as (c & Hal & HB).
  destruct (grow_roomy b _ c B u l Hm Hw Ha Hal HB Hroom) as [v ->].
  eexists _, _. split; [done|]. by right.
Qed.

Lemma merge_anonymous m a c u l :
  a <= c → accounted u (mkParserBuffer [] (c - a) m :: mkParserBuffer [] a m :: l) ↔
           accounted u (mkParserBuffer [] c m :: l).
Proof.
  intros Hle. unfold accounted.
  split; intros H i; specialize (H i); rewrite !load_cons in *; unfold contribution in *;
    cbn [pb_memory pb_capacity] in *; case_decide; lia.
Qed.

(** Growing a buffer: on success its capacity covers the request and the old
    storage has been given back; on failure nothing has changed. *)
Lemma grow_accounted b capacity u l :
  wf_memory limits (pb_memory b) → within limits u → accounted u (b :: l) →
  let '(r, v) := grow b capacity u in
  within limits v ∧
  match r with
  | Ok b' => accounted v (b' :: l) ∧ capacity <= pb_capacity b' ∧
             pb_memory b' = pb_memory b ∧ pb_data b' = pb_data b
  | Err _ => usage_equiv v u
  end.
Proof.
  intros Hm Hw Ha. unfold grow.
  pose proof (reserve_accounted (pb_memory b) capacity u (b :: l) Hm Hw Ha) as Hr.
  destruct (reserve _ capacity u) as [[] u1]; destruct Hr as [Hw1 Hr]; [|by destruct Hr].
  assert (Hback : ∀ w, within limits w →
    accounted w (mkParserBuffer [] capacity (pb_memory b) :: b :: l) →
    within limits (release (pb_memory b) capacity w) ∧
    usage_equiv (release (pb_memory b) capacity w) u).
  { intros w Hww Haw.
    destruct (accounted_release (mkParserBuffer [] capacity (pb_memory b)) (b :: l) w)
      as [Ha2 Hw2]; try done. split; [done|]. intros i. by rewrite Ha2, Ha. }
  destruct (try_reserve_exact capacity) as [c|] eqn:Hal; [|by apply Hback].
  pose proof (alloc_at_least _ _ Hal) as [Hcap _].
  assert (Hdone : ∀ w, within limits w →
    accounted w (mkParserBuffer [] c (pb_memory b) :: b :: l) →
    within limits (release (pb_memory b) (pb_capacity b) w) ∧
    accounted (release (pb_memory b) (pb_capacity b) w) (b <| pb_capacity := c |> :: l)).
  { intros w Hww Haw. assert (Ha1 : accounted w (b :: mkParserBuffer [] c (pb_memory b) :: l))
      by (by rewrite Permutation_swap). by destruct (accounted_release b _ w Hm Hww Ha1). }
  destruct (N.eqb_spec (c - capacity) 0) as [E0|E0].
  - assert (c = capacity) as -> by lia. destruct (Hdone u1) as [? ?]; auto.
  - pose proof (reserve_accounted (pb_memory b) (c - capacity) u1 _ Hm Hw1 Hr) as Hr2.
    destruct (reserve _ (c - capacity) u1) as [[] u2]; destruct Hr2 as [Hw2 Hr2].
    + apply merge_anonymous in Hr2; [|done]. destruct (Hdone u2) as [? ?]; auto.
    + destruct Hr2. by apply Hback.
Qed.

Lemma log2_up_pow n : n <= 2 ^ N.log2_up n.
Proof.
  destruct (N.le_gt_cases n 1) as [H|H].
  - assert (n = 0 ∨ n = 1) as [->| ->] by lia; done.
  - apply N.log2_up_spec. lia.
Qed.

(** Appending to a parser buffer either succeeds, with the bytes appended,
    or refuses and leaves buffer and counters as they were.  Both ways the
    counters still account for exactly the capacity of the live buffers (this
    one and any others [l]) and no node of the hierarchy exceeds its limit. *)
Lemma extend_from_slice_accounted b new u l :
  wf_buffer limits b → within limits u → accounted u (b :: l) →
  let '(r, b', v) := extend_from_slice b new u in
  within limits v ∧ accounted v (b' :: l) ∧
  wf_buffer limits b' ∧ pb_memory b' = pb_memory b ∧
  match r with
  | Ok _ => pb_data b' = pb_data b ++ new
  | Err _ => b' = b ∧ usage_equiv v u
  end.
Proof.
  intros [Hm Hc] Hw Ha. unfold extend_from_slice.
  assert (Hsame : within limits u ∧ accounted u (b :: l) ∧ wf_buffer limits b ∧
    pb_memory b = pb_memory b ∧ b = b ∧ usage_equiv u u) by (by repeat split).
  unfold checked_add64. destruct (N.ltb_spec (lenN (pb_data b) + lenN new) U64); [|done].
  destruct (N.ltb_spec (pb_capacity b) (lenN (pb_data b) + lenN new)) as [Hlt|Hge].
  - unfold checked_next_power_of_two.
    pose proof (log2_up_pow (lenN (pb_data b) + lenN new)) as Hpow.
    destruct (N.ltb_spec (2 ^ N.log2_up (lenN (pb_data b) + lenN new)) U64); [|done].
    pose proof (grow_accounted b (2 ^ N.log2_up (lenN (pb_data b) + lenN new)) u l Hm Hw Ha) as Hg.
    destruct (grow b _ u) as [[b1|[]] v]; destruct Hg as [Hw1 Hg].
    + destruct Hg as (Ha1 & Hcap & Hmem & Hdat).
      repeat split; cbn; rewrite ?Hmem, ?Hdat, ?lenN_app; try done. lia.
    + repeat split; try done. by rewrite Hg.
  - repeat split; cbn; try done. rewrite lenN_app. lia.
Qed.

(** Success is guaranteed whenever the storage suffices. *)
Lemma extend_within_capacity b new u :
  lenN (pb_data b) + lenN new <= pb_capacity b → pb_capacity b < U64 →
  extend_from_slice b new u = (Ok (), b <| pb_data ::= fun d => d ++ new |>, u).
Proof.
  intros H1 H2. unfold extend_from_slice, checked_add64.
  rewrite (proj2 (N.ltb_lt _ _)), (proj2 (N.ltb_ge _ _)) by lia. done.
Qed.

Lemma clear_accounted b u l :
  wf_buffer limits b → within limits u → accounted u (b :: l) →
  let '(b', v) := clear b u in
  within limits v ∧ accounted v l ∧ accounted v (b' :: l) ∧ wf_buffer limits b'.
Proof.
  intros [Hm Hc] Hw Ha. unfold clear.
  destruct (accounted_release b l u Hm Hw Ha) as [Ha' Hw'].
  split; [done|]. split; [done|]. split; [|by split].
  intros i. rewrite load_cons, Ha'. unfold contribution; cbn. case_decide; lia.
Qed.

Lemma drop_buffer_accounted b u l :
  wf_buffer limits b → within limits u → accounted u (b :: l) →
  within limits (drop_buffer b u) ∧ accounted (drop_buffer b u) l.
Proof.
  intros Hb Hw Ha. pose proof (clear_accounted b u l Hb Hw Ha) as H.
  unfold drop_buffer. destruct (clear b u). tauto.
Qed.

Lemma consume_accounted b n u l :
  (n <= length (pb_data b))%nat →
  wf_buffer limits b → within limits u → accounted u (b :: l) →
  ∃ b' v, consume b n u = Some (b', v) ∧
    within limits v ∧ accounted v (b' :: l) ∧ wf_buffer limits b' ∧
    pb_memory b' = pb_memory b ∧ pb_data b' = drop n (pb_data b).
Proof.
  intros Hn Hb Hw Ha. unfold consume.
  destruct (Nat.eqb_spec n (length (pb_data b))) as [->|Hne].
  - pose proof (clear_accounted b u l Hb Hw Ha) as H.
    destruct (clear b u) as [b' v] eqn:E. exists b', v. unfold clear in E. simplify_eq.
    rewrite drop_all. cbn. tauto.
  - rewrite (proj2 (Nat.leb_le _ _)) by lia. eexists _, _. split; [done|].
    destruct Hb. repeat split; try done. cbn. unfold lenN in *. rewrite length_drop. lia.
Qed.

Lemma new_buffer_accounted m u l : accounted u l → accounted u (new_buffer m :: l).
Proof. intros Ha i. rewrite load_cons, Ha. unfold contribution; cbn. case_decide; lia. Qed.

(** A copy is a new live buffer with the bytes of the range; a refusal gives
    everything back. *)
Lemma copy_range_accounted b lo hi u l :
  (lo <= hi <= length (pb_data b))%nat →
  wf_buffer limits b → within limits u → accounted u (b :: l) →
  ∃ r v, copy_range b lo hi u = Some (r, v) ∧ within limits v ∧
    match r with
    | Ok c => accounted v (c :: b :: l) ∧ wf_buffer limits c ∧
              pb_memory c = pb_memory b ∧ pb_data c = take (hi - lo) (drop lo (pb_data b))
    | Err _ => accounted v (b :: l)
    end.
Proof.
  intros Hr Hb Hw Ha. unfold copy_range.
  rewrite (proj2 (Nat.leb_le lo hi)), (proj2 (Nat.leb_le hi _)) by lia. cbn [andb].
  assert (Hn : wf_buffer limits (new_buffer (pb_memory b))) by (by destruct Hb; split).
  pose proof (extend_from_slice_accounted (new_buffer (pb_memory b))
    (take (hi - lo) (drop lo (pb_data b))) u (b :: l) Hn Hw
    (new_buffer_accounted _ _ _ Ha)) as H.
  destruct (extend_from_slice _ _ u) as [[[[]|[]] c] v]; destruct H as (Hw1 & Ha1 & Hc & Hm & H);
    eexists _, _; (split; [done|]).
  - done.
  - by apply (drop_buffer_accounted c v (b :: l)).
Qed.

(** Appending to a parser buffer either succeeds, with the bytes appended,
    or refuses and leaves buffer and counters as they were.  Both ways the
    counters still account for exactly the capacity of the live buffers (this
    one and any others [l]) and no node of the hierarchy exceeds its limit. *)
Lemma extend_from_slice_conserves b new u l :
  wf_buffer limits b → within limits u → accounted u (b :: l) →
  let '(r, b', v) := extend_from_slice b new u in
  within limits v ∧ accounted v (b' :: l) ∧
  wf_buffer limits b' ∧ pb_memory b' = pb_memory b ∧
  match r with
  | Ok _ => pb_data b' = pb_data b ++ new
  | Err _ => b' = b ∧ usage_equiv v u
  end.
Proof. apply extend_from_slice_accounted. Qed.

(** One operation on the live buffers of a program. *)
Lemma run_buf_op_accounted o bufs u bufs' u' :
  buf_op_ok limits o → Forall (wf_buffer limits) bufs → within limits u → accounted u bufs →
  run_buf_op o (bufs, u) = Some (bufs', u') →
  Forall (wf_buffer limits) bufs' ∧ within limits u' ∧ accounted u' bufs'.
Proof.
  intros Hok Hbs Hw Ha. destruct o as [m|i d|i|i n|i lo hi|i]; cbn [run_buf_op buf_op_ok] in *.
  { intros [= <- <-]. split; [|split; [done|by apply new_buffer_accounted]].
    constructor; [by split|done]. }
  all: destruct (bufs !! i) as [b|] eqn:Hi; [|done].
  all: cbn [mbind option_bind].
  all: pose proof (delete_Permutation bufs i b Hi) as Hp.
  all: pose proof Hbs as Hbs1; rewrite Hp in Hbs1;
    apply Forall_cons in Hbs1 as [Hb Hrest]; rewrite Hp in Ha.
  - pose proof (extend_from_slice_accounted b d u _ Hb Hw Ha) as H.
    destruct (extend_from_slice b d u) as [[r b'] v]. intros [= <- <-].
    destruct H as (H1 & H2 & H3 & _). split; [by apply Forall_insert|]. split; [done|].
    by rewrite (insert_Permutation bufs i b b' Hi).
  - pose proof (clear_accounted b u _ Hb Hw Ha) as H.
    destruct (clear b u) as [b' v]. intros [= <- <-].
    destruct H as (H1 & _ & H2 & H3). split; [by apply Forall_insert|]. split; [done|].
    by rewrite (insert_Permutation bufs i b b' Hi).
  - destruct (decide (n <= length (pb_data b))%nat) as [Hn|Hn].
    + destruct (consume_accounted b n u _ Hn Hb Hw Ha) as (b' & v & -> & H1 & H2 & H3 & _).
      cbn [mbind option_bind]. intros [= <- <-]. split; [by apply Forall_insert|].
      split; [done|]. by rewrite (insert_Permutation bufs i b b' Hi).
    + unfold consume. rewrite (proj2 (Nat.eqb_neq _ _)), (proj2 (Nat.leb_gt _ _)) by lia. done.
  - destruct (decide (lo <= hi <= length (pb_data b))%nat) as [Hr|Hr].
    + destruct (copy_range_accounted b lo hi u _ Hr Hb Hw Ha) as (r & v & -> & H1 & H2).
      cbn [mbind option_bind]. destruct r as [c|]; intros [= <- <-].
      * destruct H2 as (H2 & H3 & _). split; [by constructor|]. split; [done|].
        by rewrite Hp.
      * split; [done|]. split; [done|]. by rewrite Hp.
    + unfold copy_range. destruct (Nat.leb_spec lo hi), (Nat.leb_spec hi (length (pb_data b)));
        try done. lia.
  - intros [= <- <-]. destruct (drop_buffer_accounted b u _ Hb Hw Ha). done.
Qed.

(** C25: conservation of parser memory by every program: whatever sequence of
    buffer operations runs (successful or refused), each node's counter is
    the total capacity of the live buffers charged to it, and stays within
    its limit; once every buffer is gone every counter is back at zero. *)
Theorem buffer_program_conserves ops bufs u :
  Forall (buf_op_ok limits) ops → run_buf_ops ops ([], ∅) = Some (bufs, u) →
  within limits u ∧ accounted u bufs ∧ (bufs = [] → usage_equiv u ∅).
Proof.
  assert (Hgen : ∀ s, Forall (wf_buffer limits) s.1 → within limits s.2 → accounted s.2 s.1 →
    Forall (buf_op_ok limits) ops → run_buf_ops ops s = Some (bufs, u) →
    within limits u ∧ accounted u bufs).
  { induction ops as [|o ops IH]; intros [bs v] Hb Hw Ha Hok; cbn [run_buf_ops].
    - by intros [= <- <-].
    - apply Forall_cons in Hok as [Ho Hok].
      destruct (run_buf_op o (bs, v)) as [[bs' v']|] eqn:E; [|done].
      destruct (run_buf_op_accounted o bs v bs' v') as (? & ? & ?); [done..|].
      by apply (IH (bs', v')). }
  intros Hok Hrun. destruct (Hgen ([], ∅)) as [Hw Ha]; [constructor| | |done|done|].
  - intros i. cbn [fst snd]. unfold usage. rewrite lookup_empty. cbn. lia.
  - intros i. cbn [fst snd]. unfold usage. by rewrite lookup_empty.
  - split; [done|]. split; [done|]. intros -> i. rewrite Ha. done.
Qed.
End conservation.

(** The allocator that grants exactly what is asked. *)
Definition exact_allocator : Allocator := fun n => if n <? U64 then Some n else None.
#[export] Instance exact_allocator_laws : @AllocatorLaws exact_allocator.
Proof.
  constructor. intros n c. unfold try_reserve_exact, exact_allocator.
  destruct (N.ltb_spec n U64); intros [= <-]. lia.
Qed.

(** Two sessions under one server total of 128 bytes. *)
Definition example_limits (i : N) : N := if i =? 0 then 128 else 64.
Definition example_child (i : N) : ParserMemory := PMChild i 64 (PMRoot 0 128).

Lemma example_limits_usize i : example_limits i < U64.
Proof. unfold example_limits. by destruct (i =? 0). Qed.

Lemma buffer_program_conserves_witness :
  let ops := [BufNew (example_child 1); BufExtend 0 (replicate 20 x00); BufConsume 0 3;
              BufCopyRange 0 0 2; BufDrop 0; BufDrop 0] in
  ∃ u, @run_buf_ops exact_allocator ops ([], ∅) = Some ([], u) ∧ usage_equiv u ∅.
Proof.
  cbv zeta. eexists. split; [vm_compute; reflexivity|].
  eapply (@buffer_program_conserves exact_allocator _ example_limits example_limits_usize
    [BufNew (example_child 1); BufExtend 0 (replicate 20 x00); BufConsume 0 3;
     BufCopyRange 0 0 2; BufDrop 0; BufDrop 0] []); [|vm_compute; reflexivity|reflexivity].
  repeat constructor; vm_compute; try done; intros H; by apply elem_of_singleton in H.
Defined.

Example extend_from_slice_example :
  let b := new_buffer (example_child 1) in
  let '(r, b', v) := @extend_from_slice exact_allocator b (replicate 33 x00) ∅ in
  r = Ok () ∧ pb_capacity b' = 64 ∧ usage v 0 = 64 ∧
  within example_limits v ∧ accounted v [b'].
Proof.
  cbv zeta.
  assert (Hu : ∀ i, example_limits i < U64)
    by (intros i; unfold example_limits; destruct (i =? 0); done).
  pose proof (@extend_from_slice_conserves exact_allocator _ example_limits Hu
    (new_buffer (example_child 1)) (replicate 33 x00) ∅ []) as H.
  destruct (@extend_from_slice exact_allocator (new_buffer (example_child 1)) (replicate 33 x00) ∅)
    as [[r b'] v] eqn:E.
  destruct H as (H1 & H2 & _).
  - repeat split; try done.
  - intros i. unfold usage. rewrite lookup_empty. cbn. lia.
  - intros i. unfold usage. rewrite lookup_empty. rewrite load_cons. unfold contribution.
    cbn. case_decide; done.
  - vm_compute in E. injection E as <- <- <-. auto.
Defined.
