(* ===== verification/FrameParser.v ===== *)
(** * Incremental HTTP/3 frame reassembly ([FrameParser] of
    [crates/native/src/session.rs])

    The parser accumulates stream bytes in a [ParserBuffer] and pops whole
    [(type, payload)] frames.  Operations run in the state of the allocation
    counters; a payload is itself a charged buffer. *)

From S2P Require Import Prelude H3 ParserMemory.

Definition MAX_CONTROL_FRAME : N := N.shiftl 1 20.

Record FrameParser := mkFrameParser { fp_buf : ParserBuffer; fp_error : bool }.

#[export] Instance FrameParser_eta : Eta FrameParser := fun f =>
  mkFrameParser (fp_buf f) (fp_error f).

Definition new_parser (m : ParserMemory) : FrameParser := mkFrameParser (new_buffer m) false.

Section parser.
Context {alloc : Allocator}.

(** Buffer operations as stateful computations. *)
Definition buf_extend (b : ParserBuffer) (d : bytes) : M Usage (result () () * ParserBuffer) :=
  fun u => let '(r, b', v) := extend_from_slice b d u in Some ((r, b'), v).
Definition buf_clear (b : ParserBuffer) : M Usage ParserBuffer := fun u => Some (clear b u).
Definition buf_drop (b : ParserBuffer) : M Usage () := fun u => Some ((), drop_buffer b u).
Definition buf_consume (b : ParserBuffer) (n : nat) : M Usage ParserBuffer := consume b n.
Definition buf_copy (b : ParserBuffer) (lo hi : nat) : M Usage (result () ParserBuffer) :=
  copy_range b lo hi.

Definition push (f : FrameParser) (data : bytes) : M Usage FrameParser :=
  if fp_error f then mret f
  else
    '(r, b) ← buf_extend (fp_buf f) data;
    mret (mkFrameParser b (match r with Ok _ => false | Err _ => true end)).

Definition next_frame (f : FrameParser)
    : M Usage (option (N * ParserBuffer) * FrameParser) :=
  if fp_error f then mret (None, f)
  else
    match read_varint (pb_data (fp_buf f)) with
    | None => mret (None, f)
    | Some (ty, n1) =>
        match read_varint (drop n1 (pb_data (fp_buf f))) with
        | None => mret (None, f)
        | Some (len, n2) =>
            if MAX_CONTROL_FRAME <? len then mret (None, f <| fp_error := true |>)
            else
              let header := (n1 + n2)%nat in
              let total := (header + N.to_nat len)%nat in
              if (length (pb_data (fp_buf f)) <? total)%nat then mret (None, f)
              else
                r ← buf_copy (fp_buf f) header total;
                match r with
                | Err () => mret (None, f <| fp_error := true |>)
                | Ok payload =>
                    b ← buf_consume (fp_buf f) total;
                    mret (Some (ty, payload), f <| fp_buf := b |>)
                end
        end
    end.

(** The session's parse loops pop frames until none is complete; this is that
    loop with the payloads collected (and released) instead of handled. *)
Fixpoint drain_frames (fuel : nat) (f : FrameParser) : M Usage (list (N * bytes) * FrameParser) :=
  match fuel with
  | O => panic
  | S fuel =>
      '(o, f) ← next_frame f;
      match o with
      | None => mret ([], f)
      | Some (ty, payload) =>
          _ ← buf_drop payload;
          '(fs, f) ← drain_frames fuel f;
          mret ((ty, pb_data payload) :: fs, f)
      end
  end.

Definition feed (f : FrameParser) (data : bytes) : M Usage (list (N * bytes) * FrameParser) :=
  f ← push f data;
  drain_frames (S (length (pb_data (fp_buf f)))) f.

Fixpoint feed_all (f : FrameParser) (chunks : list bytes)
    : M Usage (list (N * bytes) * FrameParser) :=
  match chunks with
  | [] => mret ([], f)
  | d :: ds =>
      '(fs, f) ← feed f d;
      '(gs, f) ← feed_all f ds;
      mret (fs ++ gs, f)
  end.
End parser.

(** ** Specification *)

(** What the bytes received so far say about the next frame. *)
Inductive frame_view :=
  | Incomplete
  | Oversized
  | Complete (ty : N) (payload rest : bytes).

Definition parse_frame (d : bytes) : frame_view :=
  match read_varint d with
  | None => Incomplete
  | Some (ty, n1) =>
      match read_varint (drop n1 d) with
      | None => Incomplete
      | Some (len, n2) =>
          if MAX_CONTROL_FRAME <? len then Oversized
          else
            let header := (n1 + n2)%nat in
            let total := (header + N.to_nat len)%nat in
            if (length d <? total)%nat then Incomplete
            else Complete ty (take (N.to_nat len) (drop header d)) (drop total d)
      end
  end.

Lemma parse_frame_shrinks d ty p rest :
  parse_frame d = Complete ty p rest → (length rest + length p + 2 <= length d)%nat.
Proof.
  unfold parse_frame. destruct (read_varint d) as [[ty' n1]|] eqn:E1; [|done].
  destruct (read_varint (drop n1 d)) as [[len n2]|] eqn:E2; [|done].
  destruct (MAX_CONTROL_FRAME <? len); [done|].
  destruct (Nat.ltb_spec (length d) (n1 + n2 + N.to_nat len)); [done|].
  intros [= <- <- <-]. apply read_varint_bounds in E1 as (_ & ? & _), E2 as (_ & ? & _).
  rewrite length_drop, length_take, length_drop. lia.
Qed.

(** A frame the parser accepts. *)
Definition frame_ok (f : N * bytes) : Prop := f.1 < 2 ^ 62 ∧ lenN f.2 <= MAX_CONTROL_FRAME.
Definition encode_frames (fs : list (N * bytes)) : bytes :=
  concat (map (fun f => frame f.1 f.2) fs).

Lemma parse_frame_encoded ty p rest :
  frame_ok (ty, p) → parse_frame (frame ty p ++ rest) = Complete ty p rest.
Proof.
  intros [Hty Hp]; cbn in *.
  assert (lenN p < 2 ^ 62) by (eapply N.le_lt_trans; [done|done]).
  destruct (frame_header_read ty p rest) as (E1 & E2 & E3 & E4); [done..|].
  unfold parse_frame. rewrite E1, E2. rewrite (proj2 (N.ltb_ge _ _)) by done.
  rewrite to_nat_lenN, (proj2 (Nat.ltb_ge _ _)).
  - by rewrite E3, E4.
  - rewrite length_app, frame_length. lia.
Qed.

(** A strict prefix of an encoded frame is incomplete. *)
Lemma parse_frame_partial ty p d k rest :
  frame_ok (ty, p) → d ++ k = frame ty p ++ rest → (length d < length (frame ty p))%nat →
  parse_frame d = Incomplete.
Proof.
  intros [Hty Hp] E Hlt; cbn in *.
  assert (lenN p < 2 ^ 62) by (eapply N.le_lt_trans; [done|done]).
  destruct (frame_header_read ty p rest) as (E1 & E2 & _); [done..|]. rewrite <- E in E1, E2.
  unfold parse_frame. destruct (read_varint d) as [[ty' n1]|] eqn:R1; [|done].
  rewrite (read_varint_app _ k _ _ R1) in E1. injection E1 as -> ->.
  apply read_varint_bounds in R1 as (_ & _ & Hn1).
  rewrite drop_app_le in E2 by done.
  destruct (read_varint (drop (varint_len ty) d)) as [[len n2]|] eqn:R2; [|done].
  rewrite (read_varint_app _ k _ _ R2) in E2. injection E2 as -> ->.
  rewrite (proj2 (N.ltb_ge _ _)) by done.
  rewrite (proj2 (Nat.ltb_lt _ _)); [done|]. rewrite frame_length in Hlt.
  rewrite to_nat_lenN. lia.
Qed.

Lemma parse_frame_prefix ty p fs d k :
  frame_ok (ty, p) → d ++ k = encode_frames ((ty, p) :: fs) →
  parse_frame d = Incomplete ∨
  ∃ d', parse_frame d = Complete ty p d' ∧ d' ++ k = encode_frames fs.
Proof.
  intros Hok E. unfold encode_frames in E; cbn in E.
  destruct (decide (length d < length (frame ty p))%nat) as [Hlt|Hge].
  { left. by eapply parse_frame_partial. }
  right. exists (drop (length (frame ty p)) d).
  assert (Hd : d = frame ty p ++ drop (length (frame ty p)) d).
  { rewrite <- (take_drop (length (frame ty p)) d) at 1. f_equal.
    apply (f_equal (take (length (frame ty p)))) in E.
    rewrite take_app_length, take_app_le in E by lia. done. }
  split; [rewrite Hd at 1; by apply parse_frame_encoded|].
  rewrite Hd, <- app_assoc in E. by apply app_inv_head in E.
Qed.

Lemma parse_frame_nil : parse_frame [] = Incomplete.
Proof. done. Qed.

Section refinement.
Context {alloc : Allocator} {alloc_laws : AllocatorLaws}.
Context (limits : N → N) (limits_usize : ∀ i, limits i < U64).

(** The counters account for the parser's buffer and the buffers [l]. *)
Definition parser_inv (f : FrameParser) (l : list ParserBuffer) (u : Usage) : Prop :=
  wf_buffer limits (fp_buf f) ∧ within limits u ∧ accounted u (fp_buf f :: l).

Lemma push_spec f data l u :
  parser_inv f l u →
  wp (push f data) (fun f' v => parser_inv f' l v ∧ pb_memory (fp_buf f') = pb_memory (fp_buf f) ∧
    ((fp_error f' = false ∧ fp_error f = false ∧ pb_data (fp_buf f') = pb_data (fp_buf f) ++ data) ∨
     (fp_error f' = true ∧ fp_buf f' = fp_buf f))) u.
Proof.
  intros (Hb & Hw & Ha). unfold push. destruct (fp_error f) eqn:Ef.
  - apply wp_ret. repeat split; try done; try apply Hb. by right.
  - apply wp_bind. unfold wp, buf_extend.
    pose proof (extend_from_slice_accounted limits limits_usize (fp_buf f) data u l Hb Hw Ha) as H.
    destruct (extend_from_slice (fp_buf f) data u) as [[r b'] v].
    destruct H as (Hw' & Ha' & Hb' & Hm & Hr). cbn. split; [done|]. split; [done|].
    destruct r as [[]|[]]; [left|right]; cbn; [done|]. by destruct Hr as [-> _].
Qed.

(** [next_frame] refines [parse_frame]; the memory budget may refuse the copy
    of a complete payload, which latches the error. *)
Lemma next_frame_spec f l u :
  parser_inv f l u → fp_error f = false →
  wp (next_frame f) (fun '(o, f') v =>
    pb_memory (fp_buf f') = pb_memory (fp_buf f) ∧
    match parse_frame (pb_data (fp_buf f)) with
    | Incomplete => o = None ∧ f' = f ∧ parser_inv f' l v
    | Oversized => o = None ∧ fp_error f' = true ∧ fp_buf f' = fp_buf f ∧ parser_inv f' l v
    | Complete ty p rest =>
        (o = None ∧ fp_error f' = true ∧ fp_buf f' = fp_buf f ∧ parser_inv f' l v) ∨
        (∃ payload, o = Some (ty, payload) ∧ pb_data payload = p ∧
           pb_memory payload = pb_memory (fp_buf f) ∧
           pb_data (fp_buf f') = rest ∧ fp_error f' = false ∧
           wf_buffer limits payload ∧ parser_inv f' (payload :: l) v)
    end) u.
Proof.
  intros (Hb & Hw & Ha) Ef. unfold next_frame, parse_frame. rewrite Ef.
  destruct (read_varint (pb_data (fp_buf f))) as [[ty n1]|] eqn:E1; [|by apply wp_ret].
  destruct (read_varint (drop n1 _)) as [[len n2]|] eqn:E2; [|by apply wp_ret].
  destruct (MAX_CONTROL_FRAME <? len); [by apply wp_ret|].
  destruct (Nat.ltb_spec (length (pb_data (fp_buf f))) (n1 + n2 + N.to_nat len)) as [Hlt|Hge];
    [by apply wp_ret|].
  apply wp_bind. unfold buf_copy, wp at 1.
  destruct (copy_range_accounted limits limits_usize (fp_buf f) (n1 + n2)
    (n1 + n2 + N.to_nat len) u l) as (r & v & -> & Hw1 & Hr); [lia|done..|].
  destruct r as [payload|[]].
  - destruct Hr as (Ha1 & Hp & Hm & Hd). apply wp_bind. unfold buf_consume, wp at 1.
    rewrite Permutation_swap in Ha1.
    destruct (consume_accounted limits limits_usize (fp_buf f) (n1 + n2 + N.to_nat len) v (payload :: l))
      as (b' & v' & -> & Hw2 & Ha2 & Hb2 & Hm2 & Hd2); [done..|].
    apply wp_ret. split; [done|]. right. exists payload.
    split; [done|]. split; [rewrite Hd; f_equal; lia|]. done.
  - apply wp_ret. split; [done|]. left. done.
Qed.

Lemma drain_frames_spec fuel f l u fs k :
  (length (pb_data (fp_buf f)) < fuel)%nat →
  parser_inv f l u → fp_error f = false →
  Forall frame_ok fs → pb_data (fp_buf f) ++ k = encode_frames fs →
  wp (drain_frames fuel f) (fun '(gs, f') v => parser_inv f' l v ∧
    ∃ hs, fs = gs ++ hs ∧
      (fp_error f' = false → pb_data (fp_buf f') ++ k = encode_frames hs ∧
        parse_frame (pb_data (fp_buf f')) = Incomplete)) u.
Proof.
  revert f u fs. induction fuel as [|fuel IH]; intros f u fs Hfuel Hinv Ef Hfs E; [lia|].
  cbn [drain_frames]. apply wp_bind.
  eapply wp_mono; [by apply (next_frame_spec f l)|]. intros [o f'] v [_ H].
  destruct fs as [|[ty p] fs].
  { cbn in E. apply app_eq_nil in E as [E ->]. rewrite E, parse_frame_nil in H.
    destruct H as (-> & -> & Hi). apply wp_ret. split; [done|]. exists [].
    split; [done|]. intros _. by rewrite E. }
  inversion Hfs as [|? ? Hok Hfs']; subst.
  destruct (parse_frame_prefix ty p fs _ k Hok E) as [Hp|(d' & Hp & E')]; rewrite Hp in H.
  - destruct H as (-> & -> & Hi). apply wp_ret. split; [done|]. exists ((ty, p) :: fs). done.
  - destruct H as [(-> & He & _ & Hi)|(payload & -> & <- & _ & Hd & He & Hwp & Hi)].
    + apply wp_ret. split; [done|]. exists ((ty, p) :: fs). by rewrite He.
    + apply wp_bind. unfold buf_drop, wp at 1. destruct Hi as (Hb & Hw & Ha).
      rewrite Permutation_swap in Ha.
      destruct (drop_buffer_accounted limits limits_usize payload v _ Hwp Hw Ha) as [Hw' Ha'].
      apply wp_bind. eapply wp_mono; [apply (IH f' _ fs)|]; try done.
      * apply parse_frame_shrinks in Hp. rewrite Hd. lia.
      * by rewrite Hd.
      * intros [gs f''] v' (Hi & hs & -> & Hrest). apply wp_ret. split; [done|]. by exists hs.
Qed.

(** Once latched, the error stays and no frame is popped. *)
Lemma feed_latched f l u d :
  parser_inv f l u → fp_error f = true →
  wp (feed f d) (fun '(gs, f') v => gs = [] ∧ fp_error f' = true ∧ parser_inv f' l v) u.
Proof.
  intros Hi Ef. unfold feed, push. rewrite Ef. apply wp_bind, wp_ret.
  cbn [drain_frames]. unfold next_frame. rewrite Ef. done.
Qed.

Lemma feed_spec f l u d fs k :
  parser_inv f l u → fp_error f = false →
  Forall frame_ok fs → pb_data (fp_buf f) ++ d ++ k = encode_frames fs →
  wp (feed f d) (fun '(gs, f') v => parser_inv f' l v ∧
    ∃ hs, fs = gs ++ hs ∧
      (fp_error f' = false → pb_data (fp_buf f') ++ k = encode_frames hs ∧
        parse_frame (pb_data (fp_buf f')) = Incomplete)) u.
Proof.
  intros Hi Ef Hfs E. unfold feed. apply wp_bind.
  eapply wp_mono; [by apply (push_spec f d l)|].
  intros f' v (Hi' & _ & [(He & _ & Hd)|(He & Hb)]).
  - apply (drain_frames_spec _ f' l v fs k); try done; [lia|]. by rewrite Hd, <- app_assoc.
  - cbn [drain_frames]. unfold next_frame. rewrite He.
    apply wp_bind, wp_ret, wp_ret. split; [done|]. exists fs. by rewrite He.
Qed.

(** The same for any number of chunks. *)
Lemma feed_all_spec chunks f l u fs :
  parser_inv f l u → Forall frame_ok fs →
  (fp_error f = false → pb_data (fp_buf f) ++ concat chunks = encode_frames fs ∧
     parse_frame (pb_data (fp_buf f)) = Incomplete) →
  wp (feed_all f chunks) (fun '(gs, f') v => parser_inv f' l v ∧
    gs `prefix_of` fs ∧ (fp_error f' = false → gs = fs ∧ pb_data (fp_buf f') = [])) u.
Proof.
  revert f u fs. induction chunks as [|d ds IH]; intros f u fs Hi Hfs E; cbn [feed_all].
  - apply wp_ret. split; [done|]. split; [apply prefix_nil|]. intros Ef.
    destruct (E Ef) as [E1 E2]. cbn in E1. rewrite app_nil_r in E1.
    destruct fs as [|[ty p] fs]; [done|]. inversion Hfs; subst. exfalso.
    destruct (parse_frame_prefix ty p [] (frame ty p) []) as [H|(? & H & _)]; [done|..].
    + unfold encode_frames; cbn. by rewrite !app_nil_r.
    + rewrite <- (app_nil_r (frame ty p)), parse_frame_encoded in H; done.
    + rewrite E1 in E2. unfold encode_frames in E2; cbn in E2.
      rewrite parse_frame_encoded in E2; done.
  - apply wp_bind. destruct (fp_error f) eqn:Ef.
    + eapply wp_mono; [by apply (feed_latched f l)|]. intros [gs f'] v (-> & He & Hi').
      apply wp_bind. eapply wp_mono; [apply (IH f' v fs); try done; by rewrite He|].
      intros [hs f''] w (? & ? & ?). by apply wp_ret.
    + destruct (E eq_refl) as [E1 _].
      eapply wp_mono; [by apply (feed_spec f l u d fs (concat ds))|].
      intros [gs f'] v (Hi' & hs & -> & Hrest). apply Forall_app in Hfs as [_ Hhs].
      apply wp_bind. eapply wp_mono; [by apply (IH f' v hs)|].
      intros [gs' f''] w (Hi'' & Hpre & Hdone). apply wp_ret. split; [done|].
      split; [by apply prefix_app|]. intros He. by destruct (Hdone He) as [-> ->].
Qed.

(** C23: reassembly does not depend on how the network splits the stream.
    Feeding the encoding of any frames in any chunks, popping what is complete
    after each, terminates and yields only those frames in order; if the
    memory budget never refused (no error is latched) it yields all of them
    and leaves the buffer empty; and the budget stays accounted for. *)
Theorem feed_all_reassembles (chunks : list bytes) (fs : list (N * bytes)) m l u :
  wf_memory limits m → within limits u → accounted u l →
  Forall frame_ok fs → concat chunks = encode_frames fs →
  wp (feed_all (new_parser m) chunks) (fun '(gs, f) v =>
    gs `prefix_of` fs ∧ (fp_error f = false → gs = fs ∧ pb_data (fp_buf f) = []) ∧
    within limits v ∧ accounted v (fp_buf f :: l)) u.
Proof.
  intros Hm Hw Ha Hfs E.
  eapply wp_mono; [apply (feed_all_spec chunks (new_parser m) l u fs)|]; try done.
  - split; [by split|]. split; [done|]. by apply new_buffer_accounted.
  - intros [gs f] v ((_ & Hw' & Ha') & Hpre & Hdone). done.
Qed.
End refinement.

Lemma feed_all_reassembles_witness :
  let fs := [(FRAME_GOAWAY, [x00]); (0x21, []); (FRAME_DATA, map n2b [1; 2; 3])] in
  ∃ gs f v, @feed_all exact_allocator (new_parser (example_child 1))
      (map (fun b => [b]) (encode_frames fs)) ∅ = Some ((gs, f), v) ∧
    fp_error f = false ∧ gs = fs ∧ pb_data (fp_buf f) = [].
Proof.
  cbv zeta.
  assert (Hu : ∀ i, example_limits i < U64)
    by (intros i; unfold example_limits; destruct (i =? 0); done).
  pose proof (@feed_all_reassembles exact_allocator _ example_limits Hu
    (map (fun b => [b]) (encode_frames
      [(FRAME_GOAWAY, [x00]); (0x21, []); (FRAME_DATA, map n2b [1; 2; 3])]))
    [(FRAME_GOAWAY, [x00]); (0x21, []); (FRAME_DATA, map n2b [1; 2; 3])]
    (example_child 1) [] ∅) as H.
  apply wp_elim in H as ([gs f] & v & E & _ & Hdone & _).
  - exists gs, f, v. split; [exact E|]. vm_compute in E. injection E as <- <- <-.
    split; [reflexivity|]. exact (Hdone eq_refl).
  - repeat split; done.
  - intros i. unfold usage. rewrite lookup_empty. cbn. lia.
  - intros i. unfold usage. by rewrite lookup_empty.
  - repeat constructor; done.
  - vm_compute. reflexivity.
Defined.
