(* ===== verification/Headers.v ===== *)
(** * CONNECT headers and subprotocol negotiation ([crates/wtcore/src/h3.rs])

    The request and response header lists of an Extended CONNECT, the
    structured-field strings that carry the subprotocols, and the HEADERS frame.
    QPACK is [quiche]'s and structured-field parsing is the [sfv] crate's: both
    are parameters ([Qpack], [Sfv]) with what the code relies on as laws. *)

From S2P Require Import Prelude Utf8 H3.

Record Header := mkHeader { h_name : bytes; h_value : bytes }.

(** [format!] joins and [slice::join] on strings. *)
Fixpoint join (sep : rstring) (l : list rstring) : rstring :=
  match l with
  | [] => []
  | [s] => s
  | s :: l => s ++ sep ++ join sep l
  end.

(** ** Code outside the repository *)

(** [quiche::h3::qpack]: encode into a block of the given capacity; decode under
    a size limit.  An error carries its [Debug] rendering. *)
Class Qpack := {
  qpack_encode : list Header → N → result rstring bytes;
  qpack_decode : bytes → N → result rstring (list Header);
}.

(** The size of a header list as the decoder limits it, and names as HTTP/3
    writes them: without capital letters (the encoder lowers them). *)
Definition headers_size (headers : list Header) : N :=
  sum_list_N (map (fun h => lenN (h_name h) + lenN (h_value h)) headers).
Definition lower_name (h : Header) : bool := forallb (fun b => negb (in_range 0x41 0x5a b)) (h_name h).

(** What the code relies on: a block the encoder produced decodes to the list it
    encodes, when that is within the limit. *)
Class QpackLaws `{Qpack} := {
  qpack_roundtrip headers cap block limit :
    qpack_encode headers cap = Ok block →
    Forall (fun h => lower_name h = true) headers → headers_size headers <= limit →
    qpack_decode block limit = Ok headers;
}.

(** [sfv]: the cases the code distinguishes in a parsed item or list. *)
Inductive BareItem := BareString (s : rstring) | BareOther.
Inductive ListEntry := EntryItem (b : BareItem) | EntryInnerList.
Class Sfv := {
  sfv_parse_item : rstring → option BareItem;
  sfv_parse_list : rstring → option (list ListEntry);
}.

(** ** Structured-field strings *)

Definition WT_AVAILABLE_PROTOCOLS : bytes := s2b "wt-available-protocols".
Definition WT_PROTOCOL : bytes := s2b "wt-protocol".

Definition DQUOTE : byte := x22.
Definition BACKSLASH : byte := x5c.

Definition serialize_sf_string (s : rstring) : rstring :=
  DQUOTE ::
  concat (map (fun c =>
    (if bool_decide (c = [DQUOTE]) || bool_decide (c = [BACKSLASH]) then [BACKSLASH] else []) ++ c)
    (chars s)) ++
  [DQUOTE].

Definition serialize_sf_string_list (items : list rstring) : rstring :=
  join (s2b ", ") (map serialize_sf_string items).

Definition bare_string (b : BareItem) : option rstring :=
  match b with BareString s => Some s | BareOther => None end.
Definition entry_string (e : ListEntry) : option rstring :=
  match e with EntryItem b => bare_string b | EntryInnerList => None end.

Definition parse_sf_string_item `{Sfv} (value : rstring) : option rstring :=
  item ← sfv_parse_item value;
  bare_string item.

Definition parse_sf_string_list `{Sfv} (value : rstring) : list rstring :=
  match sfv_parse_list value with
  | None => []
  | Some l => default [] (mapM entry_string l)
  end.

(** ** Header lists *)

Definition header_value (headers : list Header) (name : bytes) : option bytes :=
  h_value <$> List.find (fun h => bool_decide (h_name h = name)) headers.

Definition connect_headers (authority path : rstring) (origin : option rstring)
    (extra : list (rstring * rstring)) (protocols : list rstring) : list Header :=
  [mkHeader (s2b ":method") (s2b "CONNECT");
   mkHeader (s2b ":protocol") (s2b "webtransport");
   mkHeader (s2b ":scheme") (s2b "https");
   mkHeader (s2b ":authority") authority;
   mkHeader (s2b ":path") path] ++
  match origin with Some o => [mkHeader (s2b "origin") o] | None => [] end ++
  match protocols with
  | [] => []
  | _ => [mkHeader WT_AVAILABLE_PROTOCOLS (serialize_sf_string_list protocols)]
  end ++
  map (fun kv => mkHeader kv.1 kv.2) extra.

Definition wt_protocol_of `{Sfv} (headers : list Header) : option rstring :=
  match List.filter (fun h => bool_decide (h_name h = WT_PROTOCOL)) headers with
  | [] => None
  | h :: rest =>
      match rest with
      | _ :: _ => None
      | [] => v ← from_utf8 (h_value h); parse_sf_string_item (trim v)
      end
  end.

Definition response_headers (headers : list Header) : list (rstring * rstring) :=
  omap (fun h =>
    n ← from_utf8 (h_name h);
    v ← from_utf8 (h_value h);
    Some (n, v))
    (List.filter (fun h => negb (starts_with (s2b ":") (h_name h))) headers).

Fixpoint status_of (headers : list Header) : option N :=
  match headers with
  | [] => None
  | h :: headers =>
      if bool_decide (h_name h = s2b ":status") then
        v ← from_utf8 (h_value h); parse_u16 (trim v)
      else status_of headers
  end.

(** ** HEADERS frames *)

Definition encode_headers_frame `{Qpack} (headers : list Header) : result rstring bytes :=
  let cap := sum_list_N (map (fun h => lenN (h_name h) + lenN (h_value h) + 8) headers) + 16 in
  match qpack_encode headers cap with
  | Ok block => Ok (frame FRAME_HEADERS block)
  | Err e => Err (s2b "qpack encode: " ++ e)
  end.

Definition decode_header_block `{Qpack} (block : bytes) : result rstring (list Header) :=
  match qpack_decode block MAX_HEADER_BLOCK with
  | Ok headers => Ok headers
  | Err e => Err (s2b "qpack decode: " ++ e)
  end.

(** ** Specification: RFC 9651 strings

    [sf_string t v]: the text [t] is a structured-field string of value [v]. *)

Definition printable (b : byte) : bool := in_range 0x20 0x7e b.

Inductive sf_chars : bytes → bytes → Prop :=
  | sf_nil : sf_chars [] []
  | sf_unescaped b t v :
      printable b = true → b ≠ DQUOTE → b ≠ BACKSLASH → sf_chars t v → sf_chars (b :: t) (b :: v)
  | sf_escaped b t v :
      b = DQUOTE ∨ b = BACKSLASH → sf_chars t v → sf_chars (BACKSLASH :: b :: t) (b :: v).
Definition sf_string (t v : bytes) : Prop := ∃ m, t = DQUOTE :: m ++ [DQUOTE] ∧ sf_chars m v.

(** What the code relies on: the [sfv] parser accepts the grammar's strings, and
    lists of them separated by a comma and a space. *)
Class SfvLaws `{Sfv} := {
  sfv_item_string t v : sf_string t v → sfv_parse_item t = Some (BareString v);
  sfv_list_strings ts vs :
    Forall2 sf_string ts vs →
    sfv_parse_list (join (s2b ", ") ts) = Some (map (EntryItem ∘ BareString) vs);
}.

(** A token the structured-field syntax can carry. *)
Definition sf_token (s : rstring) : Prop := Forall (fun b => printable b = true) s.

Lemma chunks_ascii s : Forall (fun b => b2n b < 128) s → chunks s = map (fun b => (true, [b])) s.
Proof.
  induction 1 as [|b s Hb Hs IH]; [done|].
  assert (E : char_step (b :: s) = (true, 1%nat)).
  { unfold char_step, char_width. assert (Hr : in_range 0x00 0x7F b = true).
    { unfold in_range. rewrite (proj2 (N.leb_le _ _)), (proj2 (N.leb_le _ _)) by lia. done. }
    by rewrite Hr. }
  rewrite (chunks_step (b :: s) true 1) by done.
  change (drop 1 (b :: s)) with s. by rewrite IH.
Qed.

Lemma printable_ascii b : printable b = true → b2n b < 128.
Proof. unfold printable, in_range. intros [H1 H2]%andb_true_iff. cases_N_in H2; lia. Qed.

Lemma sf_token_ascii s : sf_token s → Forall (fun b => b2n b < 128) s.
Proof. intros H. eapply Forall_impl; [done|]. apply printable_ascii. Qed.

(** The serializer produces the grammar's strings. *)
Lemma serialize_sf_string_spec s : sf_token s → sf_string (serialize_sf_string s) s.
Proof.
  intros Hs. unfold serialize_sf_string, chars. rewrite (chunks_ascii s) by (by apply sf_token_ascii).
  eexists. split; [done|]. rewrite !map_map. cbn [snd].
  induction Hs as [|b s Hb Hs IH]; cbn [map concat]; [constructor|].
  destruct (decide (b = DQUOTE)) as [->|H1]; [by apply (sf_escaped DQUOTE); [left|]|].
  destruct (decide (b = BACKSLASH)) as [->|H2]; [by apply (sf_escaped BACKSLASH); [right|]|].
  rewrite !bool_decide_false by congruence. by constructor.
Qed.

Lemma ascii_utf8 s : Forall (fun b => b2n b < 128) s → is_utf8 s = true.
Proof.
  intros Hs. unfold is_utf8. rewrite chunks_ascii by done. clear Hs. by induction s.
Qed.

(** Trimming leaves a text alone that starts and ends with an ASCII byte that
    is not white space. *)
Lemma trim_bounded (a b : byte) m :
  Forall (fun c => b2n c < 128) (a :: m ++ [b]) →
  is_whitespace [a] = false → is_whitespace [b] = false → trim (a :: m ++ [b]) = a :: m ++ [b].
Proof.
  intros Hs Ha Hb. unfold trim, chars. rewrite chunks_ascii, map_map by done. cbn [snd].
  cbn [map]. rewrite map_app. cbn [map drop_while]. rewrite Ha.
  cbn [rev]. rewrite rev_app_distr. cbn [rev app drop_while]. rewrite Hb.
  cbn [rev]. rewrite rev_app_distr, rev_involutive. cbn [rev app concat].
  rewrite concat_app. cbn [concat app]. do 2 f_equal.
  clear. induction m; cbn; congruence.
Qed.

Lemma sf_chars_ascii t v : sf_chars t v → Forall (fun c => b2n c < 128) t.
Proof.
  induction 1 as [|b t v Hb|b t v [-> | ->]]; repeat constructor; auto using printable_ascii.
Qed.

Lemma sf_string_ascii t v : sf_string t v → Forall (fun c => b2n c < 128) t.
Proof.
  intros (m & -> & H%sf_chars_ascii). apply Forall_cons. split; [done|].
  apply Forall_app. split; [done|]. by repeat constructor.
Qed.

Section negotiation.
Context `{!Sfv, !SfvLaws}.

Lemma parse_serialized_item s : sf_token s →
  parse_sf_string_item (trim (serialize_sf_string s)) = Some s.
Proof.
  intros Hs. pose proof (serialize_sf_string_spec s Hs) as Ht.
  pose proof (sf_string_ascii _ _ Ht) as Ha. destruct Ht as (m & E & Hm).
  rewrite E in *. rewrite trim_bounded by done.
  unfold parse_sf_string_item. rewrite (sfv_item_string _ s); [done|]. by exists m.
Qed.

Lemma mapM_entry_strings vs : mapM entry_string (map (EntryItem ∘ BareString) vs) = Some vs.
Proof. induction vs as [|v vs IH]; [done|]. cbn. by rewrite IH. Qed.

Lemma parse_serialized_list ps : Forall sf_token ps →
  parse_sf_string_list (serialize_sf_string_list ps) = ps.
Proof.
  intros Hs. unfold parse_sf_string_list, serialize_sf_string_list.
  rewrite (sfv_list_strings _ ps); [by rewrite mapM_entry_strings|].
  induction Hs; cbn; constructor; auto using serialize_sf_string_spec.
Qed.

(** C26: subprotocol tokens survive the two header fields that carry them: the
    offer the client serializes is read back by the server as the same list
    in the same order, and the selection the server answers is read back by
    the client as the same token, provided the tokens are printable ASCII.
    A response with two selections counts as none. *)
Theorem subprotocol_headers_roundtrip (ps : list rstring) (p : rstring) (before after : list Header) :
  Forall sf_token ps → sf_token p →
  Forall (fun h => h_name h ≠ WT_PROTOCOL) (before ++ after) →
  let answer := mkHeader WT_PROTOCOL (serialize_sf_string p) in
  parse_sf_string_list (serialize_sf_string_list ps) = ps ∧
  wt_protocol_of (before ++ answer :: after) = Some p ∧
  wt_protocol_of (before ++ answer :: answer :: after) = None.
Proof.
  intros Hps Hp Hother answer. split; [by apply parse_serialized_list|].
  apply Forall_app in Hother as [Hb Ha].
  assert (Hf : ∀ l, Forall (fun h => h_name h ≠ WT_PROTOCOL) l →
    List.filter (fun h => bool_decide (h_name h = WT_PROTOCOL)) l = []).
  { induction 1 as [|h l Hh Hl IH]; [done|]. cbn. by rewrite bool_decide_false. }
  unfold wt_protocol_of. rewrite !List.filter_app. cbn [List.filter].
  rewrite bool_decide_true by done. rewrite (Hf before), (Hf after) by done.
  split; [|done]. cbn [app h_value answer]. unfold from_utf8.
  rewrite ascii_utf8 by (eapply sf_string_ascii, serialize_sf_string_spec; done).
  by apply parse_serialized_item.
Qed.
End negotiation.

(** ** An RFC 9651 reader for lists of strings

    A concrete instance of [Sfv] that satisfies the laws. *)

Fixpoint scan_string (s : bytes) : option (bytes * bytes) :=
  match s with
  | [] => None
  | b :: s =>
      if bool_decide (b = DQUOTE) then Some ([], s)
      else if bool_decide (b = BACKSLASH) then
        match s with
        | c :: s => '(v, r) ← scan_string s; Some (c :: v, r)
        | [] => None
        end
      else '(v, r) ← scan_string s; Some (b :: v, r)
  end.

Fixpoint scan_list (fuel : nat) (s : bytes) : option (list bytes) :=
  match fuel, s with
  | S fuel, b :: s =>
      if bool_decide (b = DQUOTE) then
        '(v, r) ← scan_string s;
        match r with
        | [] => Some [v]
        | _ => vs ← scan_list fuel (drop 2 r); Some (v :: vs)
        end
      else None
  | _, _ => None
  end.

#[local] Instance rfc9651 : Sfv := {
  sfv_parse_item s :=
    match s with
    | b :: s =>
        if bool_decide (b = DQUOTE) then '(v, _) ← scan_string s; Some (BareString v) else None
    | [] => None
    end;
  sfv_parse_list s :=
    match s with
    | [] => Some []
    | _ => map (EntryItem ∘ BareString) <$> scan_list (length s) s
    end;
}.

Lemma scan_string_spec m v rest : sf_chars m v → scan_string (m ++ DQUOTE :: rest) = Some (v, rest).
Proof.
  induction 1 as [|b t v Hb H1 H2 Hs IH|b t v Hb Hs IH]; cbn.
  - done.
  - by rewrite !bool_decide_false, IH.
  - by rewrite IH.
Qed.

Lemma scan_list_spec ts vs fuel :
  Forall2 sf_string ts vs → ts ≠ [] → (length ts <= fuel)%nat →
  scan_list fuel (join (s2b ", ") ts) = Some vs.
Proof.
  intros H. revert fuel. induction H as [|t v ts vs (m & -> & Hm) Hts IH]; [done|].
  intros [|fuel] _ Hf; cbn [length] in Hf; [lia|].
  destruct ts as [|t' ts]; inversion Hts; subst.
  - cbn. rewrite (scan_string_spec m v []) by done. done.
  - cbn [join]. rewrite <- app_comm_cons. cbn [scan_list]. rewrite bool_decide_true by done.
    rewrite <- app_assoc. cbn [app]. rewrite (scan_string_spec m v) by done.
    cbn [mbind option_bind]. change (s2b ", " ++ ?x) with (x2c :: x20 :: x).
    cbn [drop]. rewrite IH; [done|done|cbn in *; lia].
Qed.

Lemma join_length sep ts : Forall (fun t => t ≠ []) ts → (length ts <= length (join sep ts))%nat.
Proof.
  induction 1 as [|t ts Ht Hts IH]; [done|].
  destruct t as [|b t]; [done|]. destruct ts as [|t' ts]; cbn in *; [lia|].
  rewrite !length_app. lia.
Qed.

Lemma sf_strings_nonempty ts vs : Forall2 sf_string ts vs → Forall (fun t => t ≠ []) ts.
Proof. induction 1 as [|t v ts vs (m & -> & _)]; by constructor. Qed.

#[export] Instance rfc9651_laws : SfvLaws.
Proof.
  constructor.
  - intros t v (m & -> & Hm). cbn.
    by rewrite (scan_string_spec m v []).
  - intros ts vs H. cbn [sfv_parse_list rfc9651].
    destruct H as [|t v ts vs Ht Hts]; [done|].
    rewrite (scan_list_spec (t :: ts) (v :: vs)); [|by constructor|done|
      by apply join_length, (sf_strings_nonempty _ (v :: vs)); constructor].
    destruct Ht as (m & -> & _). by destruct ts.
Qed.

(** ** A concrete header codec

    Length-prefixed names and values: an instance of [Qpack] that satisfies the
    law. *)

Definition literal_field (h : Header) : bytes :=
  put_varint (lenN (h_name h)) ++ h_name h ++ put_varint (lenN (h_value h)) ++ h_value h.

Definition take_literal (s : bytes) : option (bytes * bytes) :=
  '(n, k) ← read_varint s;
  Some (take (N.to_nat n) (drop k s), drop (N.to_nat n) (drop k s)).

Fixpoint literal_fields (fuel : nat) (s : bytes) : option (list Header) :=
  match fuel, s with
  | _, [] => Some []
  | O, _ => None
  | S fuel, _ =>
      '(name, s) ← take_literal s;
      '(value, s) ← take_literal s;
      hs ← literal_fields fuel s;
      Some (mkHeader name value :: hs)
  end.

Definition short_field (h : Header) : bool :=
  (lenN (h_name h) <? 2 ^ 62) && (lenN (h_value h) <? 2 ^ 62).

#[local] Instance literal_qpack : Qpack := {
  qpack_encode hs cap :=
    let block := concat (map literal_field hs) in
    if forallb short_field hs && (lenN block <=? cap) then Ok block else Err (s2b "BufferTooShort");
  qpack_decode block limit :=
    match literal_fields (length block) block with
    | Some hs => if limit <? headers_size hs then Err (s2b "HeaderListTooLarge") else Ok hs
    | None => Err (s2b "BufferTooShort")
    end;
}.

Lemma take_literal_spec d rest :
  lenN d < 2 ^ 62 → take_literal (put_varint (lenN d) ++ d ++ rest) = Some (d, rest).
Proof.
  intros Hd. unfold take_literal. rewrite read_put_varint by done. cbn.
  by rewrite <- put_varint_length, drop_app_length, to_nat_lenN, take_app_length, drop_app_length.
Qed.

Lemma literal_field_nonempty h : (1 <= length (literal_field h))%nat.
Proof.
  unfold literal_field. rewrite length_app, put_varint_length.
  pose proof (varint_len_bounds (lenN (h_name h))). lia.
Qed.

Lemma literal_fields_spec hs fuel :
  Forall (fun h => short_field h = true) hs → (length (concat (map literal_field hs)) <= fuel)%nat →
  literal_fields fuel (concat (map literal_field hs)) = Some hs.
Proof.
  intros Hs. revert fuel. induction Hs as [|h hs Hh Hs IH]; intros fuel Hf; [by destruct fuel|].
  cbn [map concat] in *. rewrite length_app in Hf. pose proof (literal_field_nonempty h).
  destruct fuel as [|fuel]; [lia|]. apply andb_true_iff in Hh as [Hn%N.ltb_lt Hv%N.ltb_lt].
  assert (E : literal_field h ++ concat (map literal_field hs) =
    put_varint (lenN (h_name h)) ++ h_name h ++ put_varint (lenN (h_value h)) ++ h_value h ++
    concat (map literal_field hs)) by (unfold literal_field; by rewrite <- !app_assoc).
  destruct (literal_field h ++ concat (map literal_field hs)) as [|b s] eqn:E1.
  { apply (f_equal length) in E1. rewrite length_app in E1. cbn in E1. lia. }
  cbn [literal_fields]. rewrite E. rewrite take_literal_spec by done. cbn [mbind option_bind].
  rewrite take_literal_spec by done. cbn [mbind option_bind].
  rewrite IH by lia. by destruct h.
Qed.

#[export] Instance literal_qpack_laws : QpackLaws.
Proof.
  constructor. intros hs cap block limit. cbn.
  destruct (forallb short_field hs) eqn:E; cbn [andb]; [|done].
  destruct (N.leb_spec (lenN (concat (map literal_field hs))) cap); intros [= <-] _ Hb.
  rewrite literal_fields_spec; [by rewrite (proj2 (N.ltb_ge _ _))| |done].
  apply List.Forall_forall. intros h. by apply (proj1 (List.forallb_forall _ _) E).
Qed.

(** ** The status line *)

(** The three-digit statuses: what the server writes the client reads. *)
Lemma status_of_dec n rest :
  100 <= n < 1000 → status_of (mkHeader (s2b ":status") (dec n) :: rest) = Some n.
Proof.
  intros Hn. cbn [status_of h_name h_value]. rewrite bool_decide_true by done.
  assert (H : forallb (fun k =>
    let k := N.of_nat k in
    bool_decide ((v ← from_utf8 (dec k); parse_u16 (trim v)) = Some k)) (seq 100 900) = true)
    by (vm_compute; done).
  rewrite List.forallb_forall in H. specialize (H (N.to_nat n)). cbv zeta in H.
  rewrite N2Nat.id in H. apply bool_decide_eq_true in H; [done|]. apply in_seq. lia.
Qed.

Lemma subprotocol_headers_roundtrip_witness :
  let offer := [s2b "moq-00"; s2b "a\b"] in
  parse_sf_string_list (serialize_sf_string_list offer) = offer ∧
  wt_protocol_of [mkHeader (s2b ":status") (s2b "200");
                  mkHeader WT_PROTOCOL (serialize_sf_string (s2b "a\b"))] = Some (s2b "a\b").
Proof.
  cbv zeta.
  destruct (subprotocol_headers_roundtrip [s2b "moq-00"; s2b "a\b"] (s2b "a\b")
    [mkHeader (s2b ":status") (s2b "200")] []) as (H1 & H2 & _).
  - repeat constructor.
  - repeat constructor.
  - repeat constructor; vm_compute; discriminate.
  - by split.
Defined.
