(* ===== verification/Net.v ===== *)
(** * Socket addresses

    [std::net::SocketAddr] as the session and the retry tokens use it: the
    address bytes, the port, and the textual form of the address ([to_string],
    RFC 5952 for IPv6). *)

From S2P Require Import Prelude.

(** A 4- or 16-byte address; the octets are those of [octets()]. *)
Inductive IpAddr :=
  | V4 (a b c d : byte)
  | V6 (segments : list N).

Record SocketAddr := mkSocketAddr { sa_ip : IpAddr; sa_port : N }.

#[export] Instance IpAddr_eq_dec : EqDecision IpAddr.
Proof. solve_decision. Defined.
#[export] Instance SocketAddr_eq_dec : EqDecision SocketAddr.
Proof. solve_decision. Defined.

(** Big-endian bytes of a 16- or 32-bit integer. *)
Definition be16 (n : N) : bytes := [n2b (N.shiftr n 8); n2b n].
Definition be32 (n : N) : bytes :=
  [n2b (N.shiftr n 24); n2b (N.shiftr n 16); n2b (N.shiftr n 8); n2b n].
Definition from_be32 (a b c d : byte) : N :=
  ((b2n a * 256 + b2n b) * 256 + b2n c) * 256 + b2n d.

Definition octets (ip : IpAddr) : bytes :=
  match ip with
  | V4 a b c d => [a; b; c; d]
  | V6 segments => concat (map be16 segments)
  end.

(** Eight 16-bit segments. *)
Definition wf_ip (ip : IpAddr) : Prop :=
  match ip with
  | V4 _ _ _ _ => True
  | V6 segments => length segments = 8%nat ∧ Forall (fun s => s < 2 ^ 16) segments
  end.
Definition wf_addr (a : SocketAddr) : Prop := wf_ip (sa_ip a) ∧ sa_port a < 2 ^ 16.

(** ** Textual form *)

Definition v4_string (a b c d : byte) : rstring :=
  dec (b2n a) ++ s2b "." ++ dec (b2n b) ++ s2b "." ++ dec (b2n c) ++ s2b "." ++ dec (b2n d).

(** A segment in hexadecimal without prefix. *)
Definition hex_segment (n : N) : rstring := hex_digits 4 n [].

Fixpoint colon_join (l : list N) : rstring :=
  match l with
  | [] => []
  | [n] => hex_segment n
  | n :: l => hex_segment n ++ s2b ":" ++ colon_join l
  end.

(** The longest run of zero segments, the first among equals: [(start, len)]. *)
Fixpoint longest_zero_run (l : list N) (i : nat) (current longest : nat * nat) : nat * nat :=
  match l with
  | [] => longest
  | n :: l =>
      if n =? 0 then
        let current := if (current.2 =? 0)%nat then (i, 1%nat) else (current.1, S current.2) in
        longest_zero_run l (S i) current
          (if (longest.2 <? current.2)%nat then current else longest)
      else longest_zero_run l (S i) (O, O) longest
  end.

Definition ip_to_string (ip : IpAddr) : rstring :=
  match ip with
  | V4 a b c d => v4_string a b c d
  | V6 segments =>
      match segments with
      | [0; 0; 0; 0; 0; 0xffff; ab; cd] =>
          s2b "::ffff:" ++ v4_string (n2b (N.shiftr ab 8)) (n2b ab) (n2b (N.shiftr cd 8)) (n2b cd)
      | _ =>
          let '(start, len) := longest_zero_run segments 0 (O, O) (O, O) in
          if (1 <? len)%nat then
            colon_join (take start segments) ++ s2b "::" ++ colon_join (drop (start + len) segments)
          else colon_join segments
      end
  end.

Example ipv6_text :
  map ip_to_string [V6 [0x2001; 0xdb8; 0; 0; 1; 0; 0; 1]; V6 [0; 0; 0; 0; 0; 0; 0; 1];
                    V6 [0; 0; 0; 0; 0; 0xffff; 0x7f00; 1]; V4 x7f x00 x00 x01] =
  map s2b ["2001:db8::1:0:0:1"; "::1"; "::ffff:127.0.0.1"; "127.0.0.1"]%string.
Proof. vm_compute. reflexivity. Qed.

Lemma from_be32_be32 n : n < 2 ^ 32 →
  match be32 n with [a; b; c; d] => from_be32 a b c d = n | _ => False end.
Proof.
  intros Hn. unfold be32, from_be32. rewrite !b2n_n2b, !N.shiftr_div_pow2.
  change (2 ^ 24) with 16777216. change (2 ^ 16) with 65536. change (2 ^ 8) with 256.
  change (2 ^ 32) with 4294967296 in Hn. nlia.
Qed.
