(* ===== verification/IpText.v ===== *)
(** * Reading IP addresses

    [str::parse::<IpAddr>] of the Rust standard library, which the code uses to
    tell an address from a name, and that it reads back what [to_string]
    writes. *)

From S2P Require Import Prelude Net.

(** [char::to_digit]. *)
Definition to_digit (radix : N) (b : byte) : option N :=
  let n := b2n b in
  let d := if (0x30 <=? n) && (n <=? 0x39) then Some (n - 0x30)
           else if (0x41 <=? n) && (n <=? 0x5a) then Some (n - 0x41 + 10)
           else if (0x61 <=? n) && (n <=? 0x7a) then Some (n - 0x61 + 10) else None in
  match d with Some d => if d <? radix then Some d else None | None => None end.

(** Digits, at most [max] of them: their number, their value and what follows. *)
Fixpoint read_digits (radix : N) (max : nat) (s : bytes) (count : nat) (acc : N) : option (nat * N * bytes) :=
  match s with
  | b :: s' =>
      match to_digit radix b with
      | Some d =>
          if (max <? S count)%nat then None else read_digits radix max s' (S count) (acc * radix + d)
      | None => Some (count, acc, s)
      end
  | [] => Some (count, acc, [])
  end.
Definition read_number (radix : N) (max : nat) (allow_zero_prefix : bool) (limit : N) (s : bytes) : option (N * bytes) :=
  '(count, n, rest) ← read_digits radix max s 0 0;
  let leading_zero := match s with x30 :: _ => true | _ => false end in
  if (count =? 0)%nat then None
  else if negb allow_zero_prefix && leading_zero && (1 <? count)%nat then None
  else if limit <? n then None else Some (n, rest).

Definition read_given (c : byte) (s : bytes) : option bytes :=
  match s with b :: s => if decide (b = c) then Some s else None | [] => None end.
(** [read_separator]: none before the first. *)
Definition read_separator {A} (sep : byte) (first : bool) (inner : bytes → option (A * bytes)) (s : bytes) : option (A * bytes) :=
  if first then inner s else s ← read_given sep s; inner s.

Definition read_octet (first : bool) : bytes → option (N * bytes) :=
  read_separator x2e first (read_number 10 3 false 255).
Definition read_ipv4 (s : bytes) : option ((N * N * N * N) * bytes) :=
  '(a, s) ← read_octet true s;
  '(b, s) ← read_octet false s;
  '(c, s) ← read_octet false s;
  '(d, s) ← read_octet false s;
  Some ((a, b, c, d), s).

(** Up to [slots] groups of an IPv6 address, the last two possibly in IPv4
    form, and whether they are. *)
Fixpoint read_groups (slots : nat) (first : bool) (s : bytes) : list N * bool * bytes :=
  match slots with
  | O => ([], false, s)
  | S slots =>
      match (if (1 <=? slots)%nat then read_separator x3a first read_ipv4 s else None) with
      | Some ((a, b, c, d), s) => ([a * 256 + b; c * 256 + d], true, s)
      | None =>
          match read_separator x3a first (read_number 16 4 true 65535) s with
          | Some (g, s) => let '(gs, v4, s) := read_groups slots false s in (g :: gs, v4, s)
          | None => ([], false, s)
          end
      end
  end.
Definition read_ipv6 (s : bytes) : option (list N * bytes) :=
  let '(head, v4, s) := read_groups 8 true s in
  if (length head =? 8)%nat then Some (head, s)
  else if (v4 : bool) then None
  else
    s ← read_given x3a s;
    s ← read_given x3a s;
    let '(tail, _, s) := read_groups (8 - (length head + 1)) true s in
    Some (head ++ replicate (8 - length head - length tail) 0 ++ tail, s).

Definition parse_ip (s : rstring) : option IpAddr :=
  match read_ipv4 s with
  | Some ((a, b, c, d), rest) => if bool_decide (rest = []) then Some (V4 (n2b a) (n2b b) (n2b c) (n2b d)) else None
  | None =>
      match read_ipv6 s with
      | Some (segments, rest) => if bool_decide (rest = []) then Some (V6 segments) else None
      | None => None
      end
  end.

Example parsed :
  map parse_ip [s2b "127.0.0.1"; s2b "2001:DB8::1"; s2b "::ffff:10.0.0.1"; s2b "example.org"; s2b "1.2.3.04"; s2b "::1x"] =
  [Some (V4 x7f x00 x00 x01); Some (V6 [0x2001; 0xdb8; 0; 0; 0; 0; 0; 1]);
   Some (V6 [0; 0; 0; 0; 0; 0xffff; 0x0a00; 1]); None; None; None].
Proof. vm_compute. reflexivity. Qed.

(** ** What is written is read back *)

Definition no_digit (radix : N) (s : bytes) : Prop := match s with b :: _ => to_digit radix b = None | [] => True end.

Lemma read_digits_app radix max l rest count acc count' acc' :
  no_digit radix rest → read_digits radix max l count acc = Some (count', acc', []) →
  read_digits radix max (l ++ rest) count acc = Some (count', acc', rest).
Proof.
  intros Hr. revert count acc. induction l as [|b l IH]; intros count acc; cbn [read_digits app].
  - intros [= <- <-]. destruct rest as [|b rest]; [done|]. cbn [read_digits no_digit] in Hr |- *. by rewrite Hr.
  - destruct (to_digit radix b); [|done]. destruct (max <? S count)%nat; [done|]. apply IH.
Qed.

(** A number as it is written, followed by something else. *)
Lemma read_number_app radix max zeros limit l rest n :
  no_digit radix rest → l ≠ [] → read_number radix max zeros limit l = Some (n, []) →
  read_number radix max zeros limit (l ++ rest) = Some (n, rest).
Proof.
  intros Hr Hl. unfold read_number. destruct (read_digits radix max l 0 0) as [[[count v] r]|] eqn:E; [|done]. cbn.
  destruct (count =? 0)%nat eqn:Ec; [done|]. destruct (negb zeros && _ && _) eqn:Ez; [done|].
  destruct (limit <? v) eqn:Elim; [done|]. intros [= <- ->].
  rewrite (read_digits_app _ _ _ rest _ _ _ _ Hr E). cbn. rewrite Ec, Elim.
  destruct l as [|b l]; [done|]. cbn [app]. by rewrite Ez.
Qed.

Lemma dec_reads (b : byte) : read_number 10 3 false 255 (dec (b2n b)) = Some (b2n b, []).
Proof. destruct b; vm_compute; reflexivity. Qed.

(** A segment is one to four hexadecimal digits, and reads as its value. *)
Fixpoint all_below (f : N → bool) (count : nat) : bool :=
  match count with O => true | S count => f (N.of_nat count) && all_below f count end.
Lemma all_below_spec f count n : all_below f count = true → n < N.of_nat count → f n = true.
Proof.
  induction count as [|count IH]; cbn [all_below]; [lia|]. intros [H1 H2]%andb_true_iff Hn.
  destruct (decide (n = N.of_nat count)) as [->|]; [done|]. apply IH; [done|lia].
Qed.
Definition digit_reads (d : N) : bool :=
  bool_decide (to_digit 16 (hex_digit d) = Some d) && negb (bool_decide (hex_digit d = x2e)).
Lemma hex_digit_reads d : d < 16 → to_digit 16 (hex_digit d) = Some d ∧ hex_digit d ≠ x2e.
Proof.
  intros Hd. pose proof (all_below_spec digit_reads 16 d eq_refl Hd) as H.
  apply andb_true_iff in H as [H1%bool_decide_eq_true H2%negb_true_iff%bool_decide_eq_false]. done.
Qed.

Lemma hex_digits_read fuel n acc :
  n < 16 ^ (N.of_nat (S fuel)) →
  ∃ l, hex_digits (S fuel) n acc = l ++ acc ∧ (1 <= length l <= S fuel)%nat ∧ (x2e ∉ l) ∧
    ∀ max rest count a, (count + length l <= max)%nat →
      read_digits 16 max (l ++ rest) count a =
      read_digits 16 max rest (count + length l) (a * (16 ^ N.of_nat (length l)) + n).
Proof.
  revert n acc. induction fuel as [|fuel IH]; intros n acc Hn; cbn [hex_digits].
  all: destruct (hex_digit_reads (n mod 16) ltac:(by apply N.mod_lt)) as [Hr Hdot].
  all: assert (Hlast : n / 16 = 0 → ∃ l, hex_digit (n mod 16) :: acc = l ++ acc ∧ length l = 1%nat ∧ (x2e ∉ l) ∧
    ∀ max rest count a, (count + length l <= max)%nat → read_digits 16 max (l ++ rest) count a =
      read_digits 16 max rest (count + length l) (a * (16 ^ N.of_nat (length l)) + n)).
  1, 3: intros H0; exists [hex_digit (n mod 16)]; split; [done|]; split; [done|]; split;
    [rewrite elem_of_cons, elem_of_nil; naive_solver|]; intros max rest count a Hc; cbn [app length] in *;
    cbn [read_digits]; rewrite Hr, (proj2 (Nat.ltb_ge _ _)) by lia; f_equal; [lia|];
    change (16 ^ N.of_nat 1) with 16; rewrite (N.div_mod n 16) at 2 by done; lia.
  - destruct (n / 16 =? 0) eqn:E.
    + apply N.eqb_eq in E. destruct (Hlast E) as (l & Hl & Hlen & ?). exists l. rewrite Hlen in *. split; [done|].
      split; [lia|done].
    + apply N.eqb_neq in E. exfalso. apply E, N.div_small. exact Hn.
  - destruct (n / 16 =? 0) eqn:E.
    + apply N.eqb_eq in E. destruct (Hlast E) as (l & Hl & Hlen & ?). exists l. rewrite Hlen in *. split; [done|].
      split; [lia|done].
    + destruct (IH (n / 16) (hex_digit (n mod 16) :: acc)) as (l & Hl & Hlen & Hd & Hread).
      { apply N.Div0.div_lt_upper_bound. rewrite (Nat2N.inj_succ (S fuel)), N.pow_succ_r' in Hn. lia. }
      exists (l ++ [hex_digit (n mod 16)]). change (hex_digits (S fuel) (n / 16) (hex_digit (n mod 16) :: acc)) with
        (hex_digits (S fuel) (n / 16) (hex_digit (n mod 16) :: acc)) in Hl. rewrite <- app_assoc. split; [exact Hl|].
      rewrite length_app. cbn [length]. split; [lia|]. split; [rewrite elem_of_app, elem_of_cons, elem_of_nil; naive_solver|].
      intros max rest count a Hc. rewrite <- app_assoc, Hread by lia. cbn [app read_digits].
      rewrite Hr, (proj2 (Nat.ltb_ge _ _)) by lia. f_equal; [lia|].
      rewrite Nat2N.inj_add, N.pow_add_r. change (16 ^ N.of_nat 1) with 16. rewrite (N.div_mod n 16) at 3 by done. lia.
Qed.

Lemma segment_reads n rest :
  n < 2 ^ 16 → no_digit 16 rest → read_number 16 4 true 65535 (hex_segment n ++ rest) = Some (n, rest).
Proof.
  intros Hn Hr. destruct (hex_digits_read 3 n [] Hn) as (l & Hl & Hlen & _ & Hread).
  unfold hex_segment. rewrite Hl, app_nil_r. unfold read_number. rewrite Hread by lia.
  assert (Hstop : ∀ count a, read_digits 16 4 rest count a = Some (count, a, rest)).
  { intros count a. destruct rest as [|b rest]; [done|]. cbn [read_digits no_digit] in *. by rewrite Hr. }
  rewrite Hstop, N.mul_0_l, N.add_0_l. cbn [mbind option_bind negb andb].
  destruct (Nat.eqb_spec (0 + length l) 0); [lia|]. destruct (N.ltb_spec 65535 n) as [Hlt|]; [|done].
  change (2 ^ 16) with 65536 in Hn. lia.
Qed.
Lemma segment_no_dot n : n < 2 ^ 16 → x2e ∉ hex_segment n.
Proof.
  intros Hn. destruct (hex_digits_read 3 n [] Hn) as (l & Hl & _ & Hd & _). unfold hex_segment. by rewrite Hl, app_nil_r.
Qed.

Lemma read_v4_string (a b c d : byte) rest :
  no_digit 10 rest →
  read_ipv4 (v4_string a b c d ++ rest) = Some ((b2n a, b2n b, b2n c, b2n d), rest).
Proof.
  intros Hr. unfold read_ipv4, read_octet, read_separator, v4_string. rewrite <- !app_assoc.
  assert (H : ∀ (x : byte) rest, no_digit 10 rest → read_number 10 3 false 255 (dec (b2n x) ++ rest) = Some (b2n x, rest)).
  { intros x r Hn. apply read_number_app; [done| |apply dec_reads]. intros E. pose proof (dec_reads x) as Hx. by rewrite E in Hx. }
  assert (Hdot : ∀ r, read_given x2e (s2b "." ++ r) = Some r) by done.
  rewrite H by done. cbn [mbind option_bind]. rewrite Hdot. cbn [mbind option_bind].
  rewrite H by done. cbn [mbind option_bind]. rewrite Hdot. cbn [mbind option_bind].
  rewrite H by done. cbn [mbind option_bind]. rewrite Hdot. cbn [mbind option_bind].
  rewrite H by done. done.
Qed.

(** Without a dot there is no IPv4 address. *)
Lemma read_digits_suffix radix max s count acc count' acc' rest :
  read_digits radix max s count acc = Some (count', acc', rest) → rest `suffix_of` s.
Proof.
  revert count acc. induction s as [|b s IH]; intros count acc; cbn [read_digits].
  - by intros [= _ _ <-].
  - destruct (to_digit radix b); [|by intros [= _ _ <-]]. destruct (max <? S count)%nat; [done|].
    intros H. apply suffix_cons_r. by eapply IH.
Qed.
Lemma read_number_suffix radix max zeros limit s n rest :
  read_number radix max zeros limit s = Some (n, rest) → rest `suffix_of` s.
Proof.
  unfold read_number. destruct (read_digits radix max s 0 0) as [[[count v] r]|] eqn:E; [|done]. cbn [mbind option_bind].
  destruct (_ =? _)%nat; [done|]. destruct (_ && _); [done|]. destruct (_ <? _); [done|]. intros [= <- <-].
  by eapply read_digits_suffix.
Qed.
Lemma read_v4_no_dot s : (x2e ∉ s) → read_ipv4 s = None.
Proof.
  intros Hs. unfold read_ipv4, read_octet, read_separator.
  destruct (read_number 10 3 false 255 s) as [[n rest]|] eqn:E; [|done]. apply read_number_suffix in E as [pre ->].
  cbn [mbind option_bind]. destruct rest as [|b rest]; [done|]. cbn [read_given]. rewrite decide_False; [done|].
  intros ->. apply Hs. rewrite elem_of_app. right. by left.
Qed.

(** Groups, each after a colon. *)
Definition colon_groups (l : list N) : bytes := concat (map (fun n => x3a :: hex_segment n) l).
Lemma colon_join_cons n l : colon_join (n :: l) = hex_segment n ++ colon_groups l.
Proof.
  revert n. induction l as [|m l IH]; intros n; [by cbn; rewrite app_nil_r|].
  change (colon_join (n :: m :: l)) with (hex_segment n ++ s2b ":" ++ colon_join (m :: l)). by rewrite IH.
Qed.
(** What ends the groups: the end, or the double colon. *)
Definition ends_groups (rest : bytes) : Prop := rest = [] ∨ ∃ t, rest = x3a :: x3a :: t.

Lemma no_group_at_end n first rest :
  ends_groups rest → (x2e ∉ rest) → read_groups n first rest = ([], false, rest).
Proof.
  intros He Hd. destruct n as [|n]; [done|]. cbn [read_groups].
  assert (H : (if (1 <=? n)%nat then read_separator x3a first read_ipv4 rest else None) = None).
  { destruct (1 <=? n)%nat; [|done]. unfold read_separator. destruct first; [by apply read_v4_no_dot|].
    destruct He as [->|[t ->]]; [done|]. cbn. apply read_v4_no_dot. intros Hin. apply Hd. by right. }
  rewrite H. unfold read_separator. destruct He as [->|[t ->]]; by destruct first.
Qed.

Lemma read_colon_groups l : ∀ n rest,
  Forall (fun s => s < 2 ^ 16) l → (length l <= n)%nat → ends_groups rest → (x2e ∉ rest) →
  read_groups n false (colon_groups l ++ rest) = (l, false, rest).
Proof.
  induction l as [|x l IH]; intros n rest Hl Hn He Hd; [by apply no_group_at_end|].
  apply Forall_cons in Hl as [Hx Hl]. cbn [length] in Hn. destruct n as [|n]; [lia|]. cbn [read_groups].
  assert (Hdots : x2e ∉ colon_groups l ++ rest).
  { rewrite elem_of_app. intros [Hin|?]; [|done]. unfold colon_groups in Hin.
    apply list_elem_of_In, in_concat in Hin as (g & Hg & Hin). apply in_map_iff in Hg as (m & <- & Hm).
    apply list_elem_of_In in Hin. apply list_elem_of_In in Hm. rewrite Forall_forall in Hl. apply elem_of_cons in Hin as [?|Hin]; [done|].
    by apply (segment_no_dot m (Hl m Hm)). }
  change (colon_groups (x :: l) ++ rest) with (x3a :: (hex_segment x ++ colon_groups l) ++ rest). rewrite <- app_assoc.
  assert (H4 : read_separator x3a false read_ipv4 (x3a :: hex_segment x ++ colon_groups l ++ rest) = None).
  { cbn. apply read_v4_no_dot. rewrite elem_of_app. intros [?|?]; [|done]. by apply (segment_no_dot x Hx). }
  rewrite H4. assert (Hnone : (if (1 <=? n)%nat then @None ((N * N * N * N) * bytes) else None) = None) by (by destruct (1 <=? n)%nat).
  rewrite Hnone. unfold read_separator at 1. cbn [read_given]. rewrite decide_True by done. cbn [mbind option_bind].
  rewrite segment_reads; [|done|].
  - rewrite IH; [done|done|lia|done|done].
  - destruct l; [|done]. cbn. by destruct He as [->|[t ->]].
Qed.

Lemma read_colon_join l n rest :
  Forall (fun s => s < 2 ^ 16) l → (length l <= n)%nat → ends_groups rest → (x2e ∉ rest) →
  read_groups n true (colon_join l ++ rest) = (l, false, rest).
Proof.
  destruct l as [|x l]; intros Hl Hn He Hd; [by apply no_group_at_end|]. rewrite colon_join_cons, <- app_assoc.
  pose proof (read_colon_groups (x :: l) n rest Hl Hn He Hd) as H. destruct n as [|n]; [cbn in Hn; lia|].
  cbn [read_groups] in *. change (colon_groups (x :: l) ++ rest) with (x3a :: (hex_segment x ++ colon_groups l) ++ rest) in H.
  rewrite <- app_assoc in H. unfold read_separator in *. cbn [read_given] in H. rewrite decide_True in H by done.
  cbn [mbind option_bind] in H.
  destruct (1 <=? n)%nat; [destruct (read_ipv4 _) as [[[[[? ?] ?] ?] ?]|]; [exact H|]|];
    destruct (read_number _ _ _ _ _) as [[g s]|]; first [exact H|discriminate H].
Qed.

(** ** The longest run of zeros *)

(** [len] zeros from position [start] on, before position [i]. *)
Definition zeros (l : list N) (run : nat * nat) : Prop :=
  ∀ k, (k < run.2)%nat → l !! (run.1 + k)%nat = Some 0.

Lemma longest_zero_run_spec pre l current longest :
  zeros (pre ++ l) longest → zeros (pre ++ l) current → (current.2 = 0 ∨ current.1 + current.2 = length pre)%nat →
  (longest.2 = 0 ∨ longest.1 + longest.2 <= length pre)%nat →
  let run := longest_zero_run l (length pre) current longest in
  zeros (pre ++ l) run ∧ (run.2 = 0 ∨ run.1 + run.2 <= length (pre ++ l))%nat.
Proof.
  revert pre current longest. induction l as [|n l IH]; intros pre current longest Hl Hc Hce Hle.
  { cbn. rewrite app_nil_r in *. done. }
  assert (Hassoc : pre ++ n :: l = (pre ++ [n]) ++ l) by (by rewrite <- app_assoc).
  assert (Hlen : length (pre ++ [n]) = S (length pre)) by (rewrite length_app; cbn; lia).
  cbn [longest_zero_run]. rewrite Hassoc in *. rewrite <- Hlen. destruct (N.eqb_spec n 0) as [->|Hn].
  - set (c := if (current.2 =? 0)%nat then (length pre, 1%nat) else (current.1, S current.2)).
    assert (Hpos : ((pre ++ [0]) ++ l) !! length pre = Some 0).
    { rewrite lookup_app_l by (rewrite Hlen; lia). by rewrite lookup_app_r, Nat.sub_diag. }
    assert (Hzc : zeros ((pre ++ [0]) ++ l) c ∧ (c.1 + c.2 = S (length pre))%nat).
    { unfold c. destruct (Nat.eqb_spec current.2 0) as [E|E]; cbn.
      - split; [|lia]. intros k Hk. cbn in *. assert (k = 0)%nat as -> by lia. by rewrite Nat.add_0_r.
      - split; [|lia]. intros k Hk. cbn in *. destruct (decide (k < current.2)%nat); [by apply Hc|].
        assert (k = current.2) as -> by lia. replace (current.1 + current.2)%nat with (length pre) by lia. done. }
    apply IH.
    + destruct (longest.2 <? c.2)%nat; [apply Hzc|done].
    + apply Hzc.
    + right. rewrite Hlen. apply Hzc.
    + destruct Hzc as [_ Hzc]. destruct (longest.2 <? c.2)%nat; [right; lia|]. destruct Hle; [by left|right; lia].
  - apply IH; [done| |by left|destruct Hle; [by left|right; lia]]. intros k Hk. cbn in Hk. lia.
Qed.

Lemma zeros_split l start len :
  zeros l (start, len) → (len = 0 ∨ start + len <= length l)%nat →
  (1 < len)%nat → l = take start l ++ replicate len 0 ++ drop (start + len) l.
Proof.
  intros Hz Hb Hlen. rewrite <- (take_drop start l) at 1. f_equal. rewrite <- (take_drop len (drop start l)) at 1.
  rewrite drop_drop. f_equal. apply list_eq. intros i. destruct (decide (i < len)%nat) as [Hi|Hi].
  - rewrite lookup_take_lt, lookup_drop by done. rewrite lookup_replicate_2 by done. by apply (Hz i).
  - rewrite lookup_take_ge by lia. symmetry. apply lookup_replicate_None. lia.
Qed.

(** ** Addresses *)

Lemma colon_join_no_dot l : Forall (fun s => s < 2 ^ 16) l → x2e ∉ colon_join l.
Proof.
  intros Hl. induction l as [|x l IH]; [apply not_elem_of_nil|]. apply Forall_cons in Hl as [Hx Hl].
  destruct l as [|y l]; [by apply segment_no_dot|].
  change (colon_join (x :: y :: l)) with (hex_segment x ++ s2b ":" ++ colon_join (y :: l)).
  rewrite !elem_of_app. intros [H|[H|H]]; [by apply (segment_no_dot x Hx)| |by apply IH].
  cbn in H. apply elem_of_cons in H as [?|?%elem_of_nil]; done.
Qed.

Lemma parse_plain_ip l :
  length l = 8%nat → Forall (fun s => s < 2 ^ 16) l → parse_ip (colon_join l) = Some (V6 l).
Proof.
  intros Hlen Hl. unfold parse_ip. rewrite read_v4_no_dot by (by apply colon_join_no_dot).
  pose proof (read_colon_join l 8 [] Hl ltac:(lia) ltac:(by left) (not_elem_of_nil _)) as H.
  rewrite app_nil_r in H. unfold read_ipv6. rewrite H, Hlen. done.
Qed.

Lemma parse_compressed_ip l start len :
  length l = 8%nat → Forall (fun s => s < 2 ^ 16) l → zeros l (start, len) → (start + len <= 8)%nat → (1 < len)%nat →
  parse_ip (colon_join (take start l) ++ s2b "::" ++ colon_join (drop (start + len) l)) = Some (V6 l).
Proof.
  intros Hlen Hl Hz Hb Hl1. set (tail := drop (start + len) l).
  assert (Htail : Forall (fun s => s < 2 ^ 16) tail) by (by apply Forall_drop).
  assert (Hhead : Forall (fun s => s < 2 ^ 16) (take start l)) by (by apply Forall_take).
  assert (Hdt : x2e ∉ s2b "::" ++ colon_join tail).
  { rewrite elem_of_app. intros [H|H]; [|by apply (colon_join_no_dot tail)]. cbn in H. set_solver. }
  unfold parse_ip. rewrite read_v4_no_dot.
  2: { rewrite elem_of_app. intros [H|H]; [by apply (colon_join_no_dot (take start l))|done]. }
  assert (Ht : length tail = (8 - (start + len))%nat) by (unfold tail; rewrite length_drop; lia).
  assert (Hh : length (take start l) = start) by (rewrite length_take; lia).
  unfold read_ipv6. rewrite (read_colon_join (take start l) 8) by (first [done|lia|right; by eexists]).
  destruct (Nat.eqb_spec (length (take start l)) 8) as [E|_]; [lia|].
  change (s2b "::" ++ colon_join tail) with (x3a :: x3a :: colon_join tail). cbn [read_given].
  rewrite !decide_True by done. cbn [mbind option_bind read_given]. rewrite !decide_True by done. cbn [mbind option_bind].
  pose proof (read_colon_join tail (8 - (length (take start l) + 1)) [] Htail ltac:(lia) ltac:(by left) (not_elem_of_nil _)) as H.
  rewrite app_nil_r in H. rewrite H. rewrite bool_decide_true by done. do 2 f_equal. rewrite Ht, Hh.
  replace (8 - start - (8 - (start + len)))%nat with len by lia.
  symmetry. apply zeros_split; [done|right; lia|done].
Qed.

Lemma halves n : n < 2 ^ 16 → b2n (n2b (N.shiftr n 8)) * 256 + b2n (n2b n) = n.
Proof.
  intros Hn. rewrite !b2n_n2b, N.shiftr_div_pow2. change (2 ^ 8) with 256. change (2 ^ 16) with 65536 in Hn. nlia.
Qed.

Lemma parse_mapped_ip ab cd :
  ab < 2 ^ 16 → cd < 2 ^ 16 →
  parse_ip (s2b "::ffff:" ++ v4_string (n2b (N.shiftr ab 8)) (n2b ab) (n2b (N.shiftr cd 8)) (n2b cd)) =
  Some (V6 [0; 0; 0; 0; 0; 0xffff; ab; cd]).
Proof.
  intros Hab Hcd. set (text := v4_string _ _ _ _).
  assert (Htext : read_ipv4 text = Some ((b2n (n2b (N.shiftr ab 8)), b2n (n2b ab), b2n (n2b (N.shiftr cd 8)), b2n (n2b cd)), [])).
  { pose proof (read_v4_string (n2b (N.shiftr ab 8)) (n2b ab) (n2b (N.shiftr cd 8)) (n2b cd) [] I) as H.
    by rewrite app_nil_r in H. }
  assert (Hlast : read_groups 6 false (x3a :: text) = ([ab; cd], true, [])).
  { cbn [read_groups Nat.leb]. unfold read_separator. cbn [read_given]. rewrite decide_True by done. cbn [mbind option_bind].
    rewrite Htext. by rewrite !halves. }
  assert (Htail : read_groups 7 true (s2b "ffff" ++ x3a :: text) = ([0xffff; ab; cd], true, [])).
  { change (read_groups 7 true (s2b "ffff" ++ x3a :: text)) with
      (match read_number 16 4 true 65535 (hex_segment 0xffff ++ x3a :: text) with
       | Some (g, s) => let '(gs, v4, s) := read_groups 6 false s in (g :: gs, v4, s)
       | None => ([], false, s2b "ffff" ++ x3a :: text) end).
    rewrite segment_reads by done. by rewrite Hlast. }
  change (s2b "::ffff:" ++ text) with (x3a :: x3a :: s2b "ffff" ++ x3a :: text).
  generalize dependent (s2b "ffff" ++ x3a :: text). intros rest Htail. unfold parse_ip, read_ipv6.
  change (read_ipv4 (x3a :: x3a :: rest)) with (@None ((N * N * N * N) * bytes)).
  change (read_groups 8 true (x3a :: x3a :: rest)) with (@nil N, false, x3a :: x3a :: rest).
  cbn [length Nat.eqb read_given]. rewrite decide_True by done. cbn [mbind option_bind read_given].
  rewrite decide_True by done. cbn [mbind option_bind]. change (8 - (0 + 1))%nat with 7%nat. by rewrite Htail.
Qed.

(** An address is read back from its text. *)
Lemma parse_ip_to_string ip : wf_ip ip → parse_ip (ip_to_string ip) = Some ip.
Proof.
  destruct ip as [a b c d|l]; intros Hwf.
  { unfold parse_ip. pose proof (read_v4_string a b c d [] I) as H. rewrite app_nil_r in H. cbn [ip_to_string]. rewrite H.
    rewrite bool_decide_true by done. by rewrite !n2b_b2n. }
  destruct Hwf as [Hlen Hl]. cbn [ip_to_string].
  assert (Hrun : parse_ip (let '(start, len) := longest_zero_run l 0 (O, O) (O, O) in
    if (1 <? len)%nat then colon_join (take start l) ++ s2b "::" ++ colon_join (drop (start + len) l)
    else colon_join l) = Some (V6 l)).
  { pose proof (longest_zero_run_spec [] l (O, O) (O, O)) as H. cbv zeta in H. cbn [app length] in H.
    destruct (longest_zero_run l 0 (O, O) (O, O)) as [start len]. cbn [fst snd] in H.
    destruct H as [Hz Hb]; [by intros k Hk; cbn in Hk; lia|by intros k Hk; cbn in Hk; lia|by left|by left|].
    destruct (Nat.ltb_spec 1 len); [|by apply parse_plain_ip]. apply parse_compressed_ip; [done|done|done|lia|done]. }
  assert (Hmapped : ∀ ab cd, l = [0; 0; 0; 0; 0; 0xffff; ab; cd] → parse_ip (s2b "::ffff:" ++
    v4_string (n2b (N.shiftr ab 8)) (n2b ab) (n2b (N.shiftr cd 8)) (n2b cd)) = Some (V6 l)).
  { intros ab cd ->. rewrite !Forall_cons in Hl. destruct Hl as (_ & _ & _ & _ & _ & _ & Hab & Hcd & _).
    exact (parse_mapped_ip ab cd Hab Hcd). }
  repeat match goal with |- context [match ?x with _ => _ end] => is_var x; destruct x; try exact Hrun end; by apply Hmapped.
Qed.
