(* ===== verification/Tls.v ===== *)
(** * TLS profile, certificate policy and QUIC configuration
    ([crates/native/src/tls.rs], [crates/native/src/config.rs])

    BoringSSL and [quiche::Config] are third-party: what is modelled is the
    sequence of settings the code applies to them, the answers of their fallible
    calls being inputs, and the decision the code itself takes on a pinned
    certificate. *)

From S2P Require Import Prelude Net.

Definition H3_ALPN : bytes := s2b "h3".

(** ** Certificates *)

(** [Asn1Time]: its comparison, and its difference in days and seconds. *)
Class Asn1 (T : Type) := {
  time_compare : T → T → option comparison;
  time_diff : T → T → option (Z * Z);
}.
Class Asn1Laws T `{Asn1 T} := {
  seconds : T → Z;
  compare_seconds a b c : time_compare a b = Some c → c = (seconds a ?= seconds b)%Z;
  diff_seconds a b days secs : time_diff a b = Some (days, secs) →
    (days * 86400 + secs)%Z = (seconds b - seconds a)%Z;
}.

Inductive KeyId := EC | OtherKey.
Inductive Nid := X9_62_PRIME256V1 | OtherCurve.
(** What the code asks of a public key: its kind, and the curve's name where
    there is an EC key. *)
Record PKey := mkPKey { pk_id : KeyId; pk_ec_key : option (option Nid) }.
(** What the code asks of a certificate; [None]: the call fails. *)
Record X509 (T : Type) := mkX509 {
  x5_digest : option bytes;
  x5_not_before : T;
  x5_not_after : T;
  x5_public_key : option PKey;
}.
Arguments mkX509 {T}.
Arguments x5_digest {T}.
Arguments x5_not_before {T}.
Arguments x5_not_after {T}.
Arguments x5_public_key {T}.

Inductive CertVerification := PkiDefault | Hashes (hashes : list bytes) | Insecure.
Inductive SslAlert := CERTIFICATE_UNKNOWN | BAD_CERTIFICATE | CERTIFICATE_EXPIRED.

Definition MAX_PINNED_VALIDITY_SECS : Z := 14 * 24 * 60 * 60.

Definition is_ecdsa_p256 {T} (cert : X509 T) : bool :=
  match x5_public_key cert with
  | None => false
  | Some pkey =>
      match pk_id pkey with
      | EC => match pk_ec_key pkey with Some (Some X9_62_PRIME256V1) => true | _ => false end
      | OtherKey => false
      end
  end.

Section pinning.
Context {T : Type} {asn1 : Asn1 T}.

(** [now] is what [days_from_now(0)] answers. *)
Definition verify_pinned_cert_validity (now : option T) (cert : X509 T) : result () () :=
  now ← ok_or () now;
  before ← ok_or () (time_compare (x5_not_before cert) now);
  if (match before with Gt => true | _ => false end) then Err ()
  else
    after ← ok_or () (time_compare (x5_not_after cert) now);
    if (match after with Lt => true | _ => false end) then Err ()
    else
      span ← ok_or () (time_diff (x5_not_before cert) (x5_not_after cert));
      let span_secs := (span.1 * 86400 + span.2)%Z in
      if negb ((0 <=? span_secs) && (span_secs <=? MAX_PINNED_VALIDITY_SECS))%Z then Err () else Ok ().

(** The verification callback installed for pinned certificates. *)
Definition verify_pinned (hashes : list bytes) (now : option T) (cert : option (X509 T)) : result SslAlert () :=
  cert ← ok_or CERTIFICATE_UNKNOWN cert;
  digest ← ok_or CERTIFICATE_UNKNOWN (x5_digest cert);
  if negb (existsb (fun h => bool_decide (digest = h)) hashes) then Err BAD_CERTIFICATE
  else
    match verify_pinned_cert_validity now cert with
    | Err _ => Err CERTIFICATE_EXPIRED
    | Ok _ => if negb (is_ecdsa_p256 cert) then Err BAD_CERTIFICATE else Ok ()
    end.
End pinning.

(** ** The TLS context *)

Inductive TlsSetting :=
  | MinProtoTls13
  | MaxProtoTls13
  | CurvesList (curves : rstring)
  | SigalgsList (sigalgs : rstring)
  | Grease (on : bool)
  | PermuteExtensions (on : bool)
  | VerifyNone
  | VerifyPinned (hashes : list bytes).

Definition CHROME_SIGALGS : rstring := s2b
  "ecdsa_secp256r1_sha256:rsa_pss_rsae_sha256:rsa_pkcs1_sha256:ecdsa_secp384r1_sha384:rsa_pss_rsae_sha384:rsa_pkcs1_sha384:rsa_pss_rsae_sha512:rsa_pkcs1_sha512:rsa_pkcs1_sha1".

(** What BoringSSL and quiche answer. *)
Record TlsAnswers := mkTlsAnswers {
  ta_builder : result rstring ();
  ta_min_proto : result rstring ();
  ta_max_proto : result rstring ();
  ta_curves : result rstring ();
  ta_sigalgs : result rstring ();
}.

(** [map_err(|e| format!("what: {e}"))?]. *)
Definition or_fail (what : string) (r : result rstring ()) : result rstring () :=
  match r with Ok _ => Ok () | Err e => Err (s2b what ++ s2b ": " ++ e) end.

Definition build_client_tls (a : TlsAnswers) (verify : CertVerification) : result rstring (list TlsSetting) :=
  _ ← or_fail "SslContextBuilder" (ta_builder a);
  _ ← or_fail "set_min_proto_version" (ta_min_proto a);
  _ ← or_fail "set_max_proto_version" (ta_max_proto a);
  _ ← or_fail "set_curves_list" (ta_curves a);
  _ ← or_fail "set_sigalgs_list" (ta_sigalgs a);
  Ok ([MinProtoTls13; MaxProtoTls13; CurvesList (s2b "X25519:P-256:P-384"); SigalgsList CHROME_SIGALGS;
       Grease true; PermuteExtensions true] ++
      match verify with
      | PkiDefault => []
      | Insecure => [VerifyNone]
      | Hashes hashes => [VerifyPinned hashes]
      end).

(** ** The QUIC configuration *)

Record ClientConfigParams := mkClientConfigParams {
  cp_verify : CertVerification;
  cp_expected_ip : option IpAddr;
  cp_max_idle_timeout_ms : N;
  cp_max_udp_payload_size : N;
  cp_initial_max_data : N;
  cp_initial_max_stream_data : N;
  cp_initial_max_streams_bidi : N;
  cp_initial_max_streams_uni : N;
  cp_dgram_recv_queue : N;
  cp_dgram_send_queue : N;
}.

Definition default_params : ClientConfigParams := mkClientConfigParams PkiDefault None 30000 1350
  (10 * 1024 * 1024) (1024 * 1024) 256 256 1024 1024.

Inductive ConfigSetting :=
  | VerifyIp (address : bytes)
  | LoadCertChain (path : rstring)
  | LoadPrivKey (path : rstring)
  | ApplicationProtos (protos : list bytes)
  | VerifyPeer (on : bool)
  | MaxIdleTimeout (ms : N)
  | MaxRecvUdpPayload (n : N)
  | MaxSendUdpPayload (n : N)
  | InitialMaxData (n : N)
  | InitialMaxStreamDataBidiLocal (n : N)
  | InitialMaxStreamDataBidiRemote (n : N)
  | InitialMaxStreamDataUni (n : N)
  | InitialMaxStreamsBidi (n : N)
  | InitialMaxStreamsUni (n : N)
  | DisableActiveMigration (on : bool)
  | EnableDgram (on : bool) (recv_queue send_queue : N).

(** [ca_roots]: for each certificate of the system store, whether it parses and
    the store takes it. *)
Record ConfigAnswers := mkConfigAnswers {
  ca_tls : TlsAnswers;
  ca_roots : list (option bool);
  ca_set_ip : bool;
  ca_config : result rstring ();
  ca_cert : result rstring ();
  ca_key : result rstring ();
  ca_protos : result rstring ();
}.

Definition loaded_roots (roots : list (option bool)) : nat :=
  countb (fun r => match r with Some true => true | _ => false end) roots.

Definition transport_settings (p : ClientConfigParams) : list ConfigSetting :=
  [MaxIdleTimeout (cp_max_idle_timeout_ms p); MaxRecvUdpPayload (cp_max_udp_payload_size p);
   MaxSendUdpPayload (cp_max_udp_payload_size p); InitialMaxData (cp_initial_max_data p);
   InitialMaxStreamDataBidiLocal (cp_initial_max_stream_data p);
   InitialMaxStreamDataBidiRemote (cp_initial_max_stream_data p);
   InitialMaxStreamDataUni (cp_initial_max_stream_data p);
   InitialMaxStreamsBidi (cp_initial_max_streams_bidi p); InitialMaxStreamsUni (cp_initial_max_streams_uni p);
   DisableActiveMigration true; EnableDgram true (cp_dgram_recv_queue p) (cp_dgram_send_queue p)].

(** The trust anchors and the expected address, for the default policy. *)
Definition trust_settings (p : ClientConfigParams) (a : ConfigAnswers) : result rstring (list ConfigSetting) :=
  match cp_verify p with
  | PkiDefault =>
      if (loaded_roots (ca_roots a) =? 0)%nat then
        Err (s2b "system certificate store contains no usable roots")
      else
        match cp_expected_ip p with
        | None => Ok []
        | Some ip =>
            if ca_set_ip a then Ok [VerifyIp (octets ip)]
            else Err (s2b "failed to configure certificate IP verification")
        end
  | _ => Ok []
  end.

Definition build_config (p : ClientConfigParams) (a : ConfigAnswers)
    : result rstring (list TlsSetting * list ConfigSetting) :=
  tls ← build_client_tls (ca_tls a) (cp_verify p);
  trust ← trust_settings p a;
  _ ← or_fail "quiche config" (ca_config a);
  _ ← or_fail "set_application_protos" (ca_protos a);
  Ok (tls, trust ++ [ApplicationProtos [H3_ALPN]] ++
    match cp_verify p with PkiDefault => [VerifyPeer true] | _ => [] end ++
    transport_settings p).

Definition build_server_config (cert_path key_path : rstring) (a : ConfigAnswers)
    : result rstring (list TlsSetting * list ConfigSetting) :=
  _ ← or_fail "SslContextBuilder" (ta_builder (ca_tls a));
  _ ← or_fail "set_min_proto_version" (ta_min_proto (ca_tls a));
  _ ← or_fail "set_max_proto_version" (ta_max_proto (ca_tls a));
  _ ← or_fail "quiche config" (ca_config a);
  _ ← match ca_cert a with
      | Ok _ => Ok ()
      | Err e => Err (s2b "failed to load certificate " ++ cert_path ++ s2b ": " ++ e)
      end;
  _ ← match ca_key a with
      | Ok _ => Ok ()
      | Err e => Err (s2b "failed to load private key " ++ key_path ++ s2b ": " ++ e)
      end;
  _ ← or_fail "set_application_protos" (ca_protos a);
  Ok ([MinProtoTls13; MaxProtoTls13],
      [LoadCertChain cert_path; LoadPrivKey key_path; ApplicationProtos [H3_ALPN]] ++
      transport_settings default_params).

(** ** The pinned-certificate contract *)

Section contract.
Context {T : Type} {asn1 : Asn1 T} {laws : Asn1Laws T}.

(** The certificate's times can be read, it is valid now, and it spans at most
    two weeks. *)
Definition currently_valid (now : T) (cert : X509 T) : Prop :=
  is_Some (time_compare (x5_not_before cert) now) ∧ is_Some (time_compare (x5_not_after cert) now) ∧
  is_Some (time_diff (x5_not_before cert) (x5_not_after cert)) ∧
  (seconds (x5_not_before cert) <= seconds now <= seconds (x5_not_after cert))%Z ∧
  (seconds (x5_not_after cert) - seconds (x5_not_before cert) <= MAX_PINNED_VALIDITY_SECS)%Z.

Lemma is_ecdsa_p256_spec (cert : X509 T) :
  is_ecdsa_p256 cert = true ↔ x5_public_key cert = Some (mkPKey EC (Some (Some X9_62_PRIME256V1))).
Proof.
  unfold is_ecdsa_p256. destruct (x5_public_key cert) as [[[] [[[]|]|]]|]; cbn; split; congruence.
Qed.

Lemma verify_pinned_cert_validity_spec now (cert : X509 T) :
  verify_pinned_cert_validity now cert = Ok () ↔ ∃ t, now = Some t ∧ currently_valid t cert.
Proof.
  unfold verify_pinned_cert_validity, currently_valid. destruct now as [t|]; cbn; [|split; [done|by intros (? & ? & _)]].
  destruct (time_compare (x5_not_before cert) t) as [b|] eqn:Eb; cbn.
  2: { split; [done|]. intros (? & [= <-] & [? E] & _). congruence. }
  apply compare_seconds in Eb as Hb.
  destruct (time_compare (x5_not_after cert) t) as [f|] eqn:Ef; cbn.
  2: { split; [by destruct b|]. intros (? & [= <-] & _ & [? E] & _). congruence. }
  apply compare_seconds in Ef as Hf.
  destruct (time_diff (x5_not_before cert) (x5_not_after cert)) as [[days secs]|] eqn:Ed; cbn.
  2: { split; [by destruct b, f|]. intros (? & [= <-] & _ & _ & [? E] & _). congruence. }
  apply diff_seconds in Ed as Hd. rewrite Hd.
  assert (Hr : ∀ P : Prop, (∃ t', Some t = Some t' ∧ P) ↔ P) by (intros P; split; [by intros (? & _ & ?)|eauto]).
  assert (Hgt : b = Gt ↔ (seconds t < seconds (x5_not_before cert))%Z) by (rewrite Hb; apply Z.compare_gt_iff).
  assert (Hlt : f = Lt ↔ (seconds (x5_not_after cert) < seconds t)%Z) by (rewrite Hf; apply Z.compare_lt_iff).
  clear Hb Hf. split.
  - intros H. exists t. split; [done|]. rewrite Eb, Ef. do 3 (split; [by eauto|]).
    assert (b ≠ Gt) by (by intros ->). assert (f ≠ Lt) by (by intros ->; destruct b).
    destruct (Z.leb_spec (seconds (x5_not_after cert) - seconds (x5_not_before cert)) MAX_PINNED_VALIDITY_SECS);
      [|rewrite andb_false_r in H; by destruct b, f]. split; [|done].
    split; apply Z.nlt_ge; tauto.
  - intros (? & [= <-] & _ & _ & _ & Hv & Hs).
    assert (b ≠ Gt) by (intros E; apply Hgt in E; lia). assert (f ≠ Lt) by (intros E; apply Hlt in E; lia).
    rewrite (proj2 (Z.leb_le 0 _)), (proj2 (Z.leb_le _ MAX_PINNED_VALIDITY_SECS)) by lia. by destruct b, f.
Qed.

(** C36: a pinned certificate is accepted exactly by the contract of
    [serverCertificateHashes]: there is a certificate, its SHA-256 digest is one
    of the hashes, it is valid now, it spans at most two weeks, and its key is
    ECDSA on P-256.  A refusal tells the cases apart: no certificate or digest,
    an unlisted digest, a validity failure, another key. *)
Theorem pinned_certificate_policy (hashes : list bytes) (now : option T) (cert : option (X509 T)) :
  (verify_pinned hashes now cert = Ok () ↔
   ∃ c t d, cert = Some c ∧ now = Some t ∧ x5_digest c = Some d ∧ d ∈ hashes ∧
     currently_valid t c ∧ x5_public_key c = Some (mkPKey EC (Some (Some X9_62_PRIME256V1)))) ∧
  (verify_pinned hashes now cert = Err CERTIFICATE_UNKNOWN ↔ (cert ≫= x5_digest) = None) ∧
  (verify_pinned hashes now cert = Err CERTIFICATE_EXPIRED ↔
   ∃ c d, cert = Some c ∧ x5_digest c = Some d ∧ d ∈ hashes ∧ ¬ ∃ t, now = Some t ∧ currently_valid t c).
Proof.
  unfold verify_pinned. destruct cert as [c|]; cbn.
  2: { split; [|split]; split; try done; [by intros (? & ? & ? & ? & _)|by intros (? & ? & ? & _)]. }
  destruct (x5_digest c) as [d|] eqn:Ed; cbn.
  2: { split; [|split]; split; try done.
    - intros (? & ? & ? & [= <-] & _ & E & _). congruence.
    - intros (? & ? & [= <-] & E & _). congruence. }
  assert (Hin : existsb (fun h => bool_decide (d = h)) hashes = true ↔ d ∈ hashes).
  { rewrite existsb_exists. setoid_rewrite bool_decide_eq_true. setoid_rewrite <- list_elem_of_In. naive_solver. }
  pose proof (verify_pinned_cert_validity_spec now c) as Hv. pose proof (is_ecdsa_p256_spec c) as Hk.
  destruct (existsb _ _) eqn:Ee; cbn [negb].
  2: { assert (d ∉ hashes) by (rewrite <- Hin; congruence).
    split; [|split]; split; try done.
    - intros (? & ? & ? & [= <-] & _ & E & ? & _). congruence.
    - intros (? & ? & [= <-] & E & ? & _). congruence. }
  assert (d ∈ hashes) by (by apply Hin).
  destruct (verify_pinned_cert_validity now c) as [[]|[]] eqn:Ev.
  - destruct (proj1 Hv eq_refl) as (t & -> & Ht).
    destruct (is_ecdsa_p256 c); cbn [negb]; (split; [|split]); split; try done.
    + intros _. exists c, t, d. repeat (split; [done|]). by apply Hk.
    + intros (? & ? & [= <-] & _ & _ & Hn). exfalso. apply Hn. eauto.
    + intros (? & ? & ? & [= <-] & _ & _ & _ & _ & E). apply Hk in E. done.
    + intros (? & ? & [= <-] & _ & _ & Hn). exfalso. apply Hn. eauto.
  - split; [|split]; split; try done.
    + intros (? & t & ? & [= <-] & -> & _ & _ & Ht & _). exfalso.
      assert (Err () = Ok ()) by (apply Hv; eauto). done.
    + intros _. exists c, d. repeat (split; [done|]). intros Ht. apply Hv in Ht. done.
Qed.
End contract.

(** ** The verification policy in force *)

Inductive Policy := Unverified | Pinned (hashes : list bytes) | SystemRoots.

(** The last setting that installs a verification mode decides; a context
    without one verifies nothing. *)
Definition policy_tls (p : Policy) (s : TlsSetting) : Policy :=
  match s with VerifyNone => Unverified | VerifyPinned hashes => Pinned hashes | _ => p end.
Definition policy_config (p : Policy) (s : ConfigSetting) : Policy :=
  match s with VerifyPeer on => if on then SystemRoots else Unverified | _ => p end.
Definition policy (tls : list TlsSetting) (config : list ConfigSetting) : Policy :=
  foldl policy_config (foldl policy_tls Unverified tls) config.

Definition intended (v : CertVerification) : Policy :=
  match v with PkiDefault => SystemRoots | Hashes hashes => Pinned hashes | Insecure => Unverified end.

Lemma build_config_settings (p : ClientConfigParams) (a : ConfigAnswers) tls config :
  build_config p a = Ok (tls, config) →
  ∃ trust extra, trust_settings p a = Ok trust ∧
    tls = [MinProtoTls13; MaxProtoTls13; CurvesList (s2b "X25519:P-256:P-384"); SigalgsList CHROME_SIGALGS;
           Grease true; PermuteExtensions true] ++ extra ∧
    extra = (match cp_verify p with PkiDefault => [] | Insecure => [VerifyNone] | Hashes hashes => [VerifyPinned hashes] end) ∧
    config = trust ++ [ApplicationProtos [H3_ALPN]] ++
      match cp_verify p with PkiDefault => [VerifyPeer true] | _ => [] end ++ transport_settings p.
Proof.
  unfold build_config. intros (tls' & Ht & (trust & Hr & (_ & _ & (_ & _ & [= <- <-])%bind_ok)%bind_ok)%bind_ok)%bind_ok.
  unfold build_client_tls in Ht.
  apply bind_ok in Ht as (_ & _ & (_ & _ & (_ & _ & (_ & _ & (_ & _ & [= <-])%bind_ok)%bind_ok)%bind_ok)%bind_ok).
  eauto 10.
Qed.

Lemma trust_settings_ok (p : ClientConfigParams) (a : ConfigAnswers) trust :
  trust_settings p a = Ok trust →
  (∀ s, s ∈ trust → ∃ address, s = VerifyIp address) ∧
  (cp_verify p = PkiDefault →
    (0 < loaded_roots (ca_roots a))%nat ∧ ∀ ip, cp_expected_ip p = Some ip → VerifyIp (octets ip) ∈ trust).
Proof.
  unfold trust_settings. intros H. destruct (cp_verify p).
  - destruct (Nat.eqb_spec (loaded_roots (ca_roots a)) 0); [done|]. destruct (cp_expected_ip p) as [ip|].
    + destruct (ca_set_ip a); [|done]. injection H as <-. split.
      * intros s [->|?%elem_of_nil]%elem_of_cons; [eauto|done].
      * intros _. split; [lia|]. intros ip' [= <-]. by left.
    + injection H as <-. split; [by intros s ?%elem_of_nil|]. intros _. split; [lia|done].
  - injection H as <-. split; [by intros s ?%elem_of_nil|done].
  - injection H as <-. split; [by intros s ?%elem_of_nil|done].
Qed.

(** Only [VerifyPeer] changes the policy of a configuration. *)
Lemma policy_config_same l p :
  (∀ s, s ∈ l → ∀ on, s ≠ VerifyPeer on) → foldl policy_config p l = p.
Proof.
  revert p. induction l as [|s l IH]; intros p Hl; [done|]. cbn. rewrite IH by (intros s' Hs'; apply Hl; by right).
  specialize (Hl s ltac:(by left)). destruct s; try done. by destruct (Hl on).
Qed.

Lemma build_config_policy (p : ClientConfigParams) (a : ConfigAnswers) tls config :
  build_config p a = Ok (tls, config) →
  policy tls config = intended (cp_verify p) ∧
  (cp_verify p = PkiDefault →
    (0 < loaded_roots (ca_roots a))%nat ∧
    ∀ ip, cp_expected_ip p = Some ip → VerifyIp (octets ip) ∈ config).
Proof.
  intros (trust & extra & (Hips & Htrust)%trust_settings_ok & -> & -> & ->)%build_config_settings. split.
  - unfold policy. rewrite !foldl_app, (policy_config_same trust).
    2: { intros s Hs on ->. by destruct (Hips _ Hs). }
    by destruct (cp_verify p).
  - intros Hp. destruct (Htrust Hp) as [Hl Hip]. split; [done|]. intros ip Heq. apply elem_of_app. left. by apply Hip.
Qed.

(** C35: a client configuration enforces the requested policy: when it is built
    at all, certificates go unverified only if the application asked for that;
    pinned hashes are exactly the requested ones and are not overridden; the
    default verifies against the system's roots, of which at least one was
    loaded, and against the expected address if there is one; and only TLS 1.3
    with the HTTP/3 protocol is spoken. *)
Theorem client_verification_policy (p : ClientConfigParams) (a : ConfigAnswers) tls config :
  build_config p a = Ok (tls, config) →
  policy tls config = intended (cp_verify p) ∧
  (cp_verify p = PkiDefault →
    (0 < loaded_roots (ca_roots a))%nat ∧
    ∀ ip, cp_expected_ip p = Some ip → VerifyIp (octets ip) ∈ config) ∧
  MinProtoTls13 ∈ tls ∧ MaxProtoTls13 ∈ tls ∧
  (∀ protos, ApplicationProtos protos ∈ config → protos = [H3_ALPN]).
Proof.
  intros H. destruct (build_config_policy p a tls config H) as [Hpolicy Hroots]. split; [done|]. split; [done|].
  apply build_config_settings in H as (trust & extra & [Hips _]%trust_settings_ok & -> & _ & ->).
  split; [by left|]. split; [by right; left|]. intros protos Hin.
  rewrite !elem_of_app in Hin. destruct Hin as [Hin|[Hin|[Hin|Hin]]].
  - by destruct (Hips _ Hin).
  - apply elem_of_cons in Hin as [[= ->]|?%elem_of_nil]; done.
  - destruct (cp_verify p); [|by apply elem_of_nil in Hin..]. by apply elem_of_cons in Hin as [?|?%elem_of_nil].
  - unfold transport_settings in Hin. repeat (apply elem_of_cons in Hin as [?|Hin]; [done|]). by apply elem_of_nil in Hin.
Qed.

(** ** Concrete certificates and configurations *)

Module Example.
(** Times as seconds. *)
#[local] Instance unix_time : Asn1 Z := {
  time_compare a b := Some (a ?= b)%Z;
  time_diff a b := Some ((b - a) / 86400, (b - a) mod 86400)%Z;
}.
#[local] Instance unix_time_laws : Asn1Laws Z.
Proof.
  refine {| seconds := id |}; unfold id.
  - by intros a b c [= <-].
  - intros a b days secs [= <- <-]. pose proof (Z.div_mod (b - a) 86400). lia.
Defined.

Definition key : PKey := mkPKey EC (Some (Some X9_62_PRIME256V1)).
(** Ten days from second 1000. *)
Definition cert : X509 Z := mkX509 (Some (s2b "digest")) 1000%Z 865000%Z (Some key).

Lemma pinned_certificate_policy_witness :
  verify_pinned [s2b "other"; s2b "digest"] (Some 5000%Z) (Some cert) = Ok () ∧
  verify_pinned [s2b "digest"] (Some 999%Z) (Some cert) = Err CERTIFICATE_EXPIRED.
Proof.
  split.
  - apply (pinned_certificate_policy [s2b "other"; s2b "digest"] (Some 5000%Z) (Some cert)).
    exists cert, 5000%Z, (s2b "digest"). split; [reflexivity|]. split; [reflexivity|]. split; [reflexivity|].
    split; [apply list_elem_of_further, list_elem_of_here|]. split; [|reflexivity].
    unfold currently_valid. cbn. unfold id, MAX_PINNED_VALIDITY_SECS. repeat split; eauto; lia.
  - apply (pinned_certificate_policy [s2b "digest"] (Some 999%Z) (Some cert)).
    exists cert, (s2b "digest"). split; [reflexivity|]. split; [reflexivity|]. split; [apply list_elem_of_here|].
    intros (t & [= <-] & _ & _ & _ & [Ht _] & _). cbn in Ht. unfold id in Ht. lia.
Defined.

Definition params : ClientConfigParams := mkClientConfigParams (Hashes [s2b "digest"]) None 30000 1350
  (10 * 1024 * 1024) (1024 * 1024) 256 256 1024 1024.
Definition answers : ConfigAnswers := mkConfigAnswers (mkTlsAnswers (Ok ()) (Ok ()) (Ok ()) (Ok ()) (Ok ()))
  [] true (Ok ()) (Ok ()) (Ok ()) (Ok ()).

Lemma client_verification_policy_witness :
  ∃ tls config, build_config params answers = Ok (tls, config) ∧ policy tls config = Pinned [s2b "digest"].
Proof.
  eexists _, _. split; [reflexivity|]. by apply (client_verification_policy params answers).
Defined.
End Example.
