(* ===== verification/TestCert.v ===== *)
(** * The test certificate generator
    ([crates/echo-server/src/bin/gen-test-cert.rs])

    The tool mints the short-lived certificate the tests pin.  BoringSSL and the
    file system are third-party: the answers of their calls are inputs, and an
    [expect] on a failing call is a panic, after which nothing more is written.
    The theorem composes the tool with the pinned-certificate check of [Tls]. *)

From S2P Require Import Prelude Utf8 Tls.

(** ** What the tool makes *)

(** A generated key pair; its random part is opaque. *)
Inductive GenKey :=
  | RsaKey (bits : N) (material : bytes)
  | EcKey (curve : Nid) (material : bytes).

(** What [public_key] of a certificate for the key answers. *)
Definition public (k : GenKey) : PKey :=
  match k with
  | RsaKey _ _ => mkPKey OtherKey None
  | EcKey curve _ => mkPKey EC (Some (Some curve))
  end.

Inductive SanEntry := Dns (name : rstring) | Ip (address : rstring).
Inductive Digest := Sha256 | OtherDigest.

(** [X509Builder] once every field is set, and signed. *)
Record Certificate (T : Type) := mkCertificate {
  ce_version : Z;
  ce_serial : N;
  ce_subject : list (rstring * rstring);
  ce_issuer : list (rstring * rstring);
  ce_pubkey : GenKey;
  ce_not_before : T;
  ce_not_after : T;
  ce_san : list SanEntry;
  ce_signed : GenKey * Digest;
}.
Arguments mkCertificate {T}.
Arguments ce_version {T}.
Arguments ce_serial {T}.
Arguments ce_subject {T}.
Arguments ce_issuer {T}.
Arguments ce_pubkey {T}.
Arguments ce_not_before {T}.
Arguments ce_not_after {T}.
Arguments ce_san {T}.
Arguments ce_signed {T}.

(** The fallible calls, in the order of the source. *)
Inductive Call :=
  | RsaGenerate (bits : N)
  | PKeyFromRsa
  | GroupFromCurveName (curve : Nid)
  | EcKeyGenerate
  | PKeyFromEcKey
  | NameBuilder
  | AppendEntryByText (field text : rstring)
  | CertBuilder
  | SetVersion (version : Z)
  | SerialFromU32 (n : N)
  | SetSerialNumber
  | SetSubjectName
  | SetIssuerName
  | SetPubkey
  | SetNotBefore
  | SetNotAfter
  | BuildSan (entries : list SanEntry)
  | AppendExtension
  | Sign (digest : Digest)
  | CertToPem
  | KeyToPem
  | WriteFile (path : rstring).

(** What the libraries and the clock answer. *)
Record Answers (T : Type) := mkAnswers {
  an_ok : Call → bool;
  an_material : bytes;
  (** [Asn1Time::days_from_now], at its first and at its second call *)
  an_days_from_now : bool → N → option T;
}.
Arguments mkAnswers {T}.
Arguments an_ok {T}.
Arguments an_material {T}.
Arguments an_days_from_now {T}.

(** How the process ends: normally, with the usage message and code 2, or by the
    panic of an [expect]. *)
Inductive Exit := Done | Usage | Panicked (msg : string).

Inductive FileContent (T : Type) := CertPem (cert : Certificate T) | KeyPem (key : GenKey).
Arguments CertPem {T}.
Arguments KeyPem {T}.

(** ** The arguments *)

(** [s.parse::<u32>().ok()]. *)
Definition parse_u32 (s : rstring) : option N :=
  let digits := match s with b :: t => if b2n b =? 43 then t else s | [] => [] end in
  match digits with [] => None | _ => parse_digits 4294967295 0 digits end.

(** [args.next().and_then(|d| d.parse().ok()).unwrap_or(13)], after the paths. *)
Definition days_arg (args : list rstring) : N := default 13 ((args !! 2%nat) ≫= parse_u32).
Definition key_type_arg (args : list rstring) : rstring := default (s2b "ec") (args !! 3%nat).

(** ** The tool *)

Section tool.
Context {T : Type}.
Variable a : Answers T.

(** [call.expect(msg)]. *)
Definition expect (call : Call) (msg : string) : result Exit () :=
  if an_ok a call then Ok () else Err (Panicked msg).

Definition generate_key (key_type : rstring) : result Exit GenKey :=
  if bool_decide (key_type = s2b "rsa") then
    _ ← expect (RsaGenerate 2048) "generate RSA key";
    _ ← expect PKeyFromRsa "wrap RSA key";
    Ok (RsaKey 2048 (an_material a))
  else
    _ ← expect (GroupFromCurveName X9_62_PRIME256V1) "P-256 group";
    _ ← expect EcKeyGenerate "generate EC key";
    _ ← expect PKeyFromEcKey "wrap EC key";
    Ok (EcKey X9_62_PRIME256V1 (an_material a)).

Definition SAN : list SanEntry := [Dns (s2b "localhost"); Ip (s2b "127.0.0.1"); Ip (s2b "::1")].

(** From the name builder to [b.build()]. *)
Definition build_cert (days : N) (pkey : GenKey) : result Exit (Certificate T) :=
  _ ← expect NameBuilder "name builder";
  _ ← expect (AppendEntryByText (s2b "CN") (s2b "localhost")) "CN";
  let name := [(s2b "CN", s2b "localhost")] in
  _ ← expect CertBuilder "x509 builder";
  _ ← expect (SetVersion 2) "v3";
  _ ← expect (SerialFromU32 1) "serial";
  _ ← expect SetSerialNumber "serial";
  _ ← expect SetSubjectName "subject";
  _ ← expect SetIssuerName "issuer";
  _ ← expect SetPubkey "pubkey";
  not_before ← ok_or (Panicked "not_before") (an_days_from_now a false 0);
  not_after ← ok_or (Panicked "not_after") (an_days_from_now a true days);
  _ ← expect SetNotBefore "set not_before";
  _ ← expect SetNotAfter "set not_after";
  _ ← expect (BuildSan SAN) "SAN";
  _ ← expect AppendExtension "append SAN";
  _ ← expect (Sign Sha256) "sign";
  Ok (mkCertificate 2 1 name name pkey not_before not_after SAN (pkey, Sha256)).

(** One [fs::write(path, pem.expect(..)).expect(..)]: the files written so far
    grow, or the process panics. *)
Definition write_pem (pem : Call) (pem_msg write_msg : string) (path : rstring) (content : FileContent T)
    : result Exit (rstring * FileContent T) :=
  _ ← expect pem pem_msg;
  _ ← expect (WriteFile path) write_msg;
  Ok (path, content).

Definition write_files (cert_path key_path : rstring) (cert : Certificate T) (pkey : GenKey)
    : list (rstring * FileContent T) * Exit :=
  match write_pem CertToPem "cert pem" "write cert" cert_path (CertPem cert) with
  | Err e => ([], e)
  | Ok f1 =>
      match write_pem KeyToPem "key pem" "write key" key_path (KeyPem pkey) with
      | Err e => ([f1], e)
      | Ok f2 => ([f1; f2], Done)
      end
  end.

(** The files written, in order, and how the process ends; [argv] holds the
    program's name first. *)
Definition main (argv : list rstring) : list (rstring * FileContent T) * Exit :=
  let args := drop 1 argv in
  match args with
  | cert_path :: key_path :: _ =>
      match generate_key (key_type_arg args) with
      | Err e => ([], e)
      | Ok pkey =>
          match build_cert (days_arg args) pkey with
          | Err e => ([], e)
          | Ok cert => write_files cert_path key_path cert pkey
          end
      end
  | _ => ([], Usage)
  end.
End tool.

(** ** Facts *)

Lemma expect_ok {T} (a : Answers T) call msg : an_ok a call = true → expect a call msg = Ok ().
Proof. unfold expect. by intros ->. Qed.

Lemma generate_key_ok {T} (a : Answers T) (key_type : rstring) :
  (∀ call, an_ok a call = true) →
  generate_key a key_type = Ok (if bool_decide (key_type = s2b "rsa") then RsaKey 2048 (an_material a)
                                else EcKey X9_62_PRIME256V1 (an_material a)).
Proof. intros H. unfold generate_key. by case_bool_decide; rewrite !expect_ok. Qed.

(** The certificate for a key and two times. *)
Definition minted {T} (pkey : GenKey) (nb na : T) : Certificate T :=
  mkCertificate 2 1 [(s2b "CN", s2b "localhost")] [(s2b "CN", s2b "localhost")] pkey nb na SAN (pkey, Sha256).

Lemma build_cert_ok {T} (a : Answers T) days pkey nb na :
  (∀ call, an_ok a call = true) → an_days_from_now a false 0 = Some nb → an_days_from_now a true days = Some na →
  build_cert a days pkey = Ok (minted pkey nb na).
Proof. intros H Hb Ha. unfold build_cert. rewrite !expect_ok by done. cbn. by rewrite Hb; cbn; rewrite Ha. Qed.

Lemma write_files_ok {T} (a : Answers T) cert_path key_path cert pkey :
  (∀ call, an_ok a call = true) →
  write_files a cert_path key_path cert pkey = ([(cert_path, CertPem cert); (key_path, KeyPem pkey)], Done).
Proof. intros H. unfold write_files, write_pem. by rewrite !expect_ok. Qed.

(** ** The tool against the pinning check *)

Section pinned.
Context {T : Type} {asn1 : Asn1 T} {laws : Asn1Laws T}.
(** SHA-256 of the certificate's DER form. *)
Variable digest : Certificate T → bytes.

(** The certificate as the check reads it. *)
Definition as_x509 (c : Certificate T) : X509 T :=
  mkX509 (Some (digest c)) (ce_not_before c) (ce_not_after c) (Some (public (ce_pubkey c))).

(** The two readings of the clock: [days_from_now(d)] answers the time [d] days
    after the reading. *)
Definition clock_reads (a : Answers T) (days : N) (t0 t1 : Z) : Prop :=
  ∃ nb na, an_days_from_now a false 0 = Some nb ∧ an_days_from_now a true days = Some na ∧
    seconds nb = t0 ∧ seconds na = (t1 + Z.of_N days * 86400)%Z.

(** [ASN1_TIME] values compare and subtract. *)
Definition times_readable : Prop :=
  ∀ x y : T, is_Some (time_compare x y) ∧ is_Some (time_diff x y).

Lemma currently_valid_as_x509 now c :
  times_readable →
  currently_valid now (as_x509 c) ↔
  (seconds (ce_not_before c) <= seconds now <= seconds (ce_not_after c) ∧
   seconds (ce_not_after c) - seconds (ce_not_before c) <= MAX_PINNED_VALIDITY_SECS)%Z.
Proof.
  intros Hr. unfold currently_valid. cbn. split; [by intros (_ & _ & _ & ?)|].
  intros H. split; [apply Hr|]. split; [apply Hr|]. by split; [apply Hr|].
Qed.

Lemma verify_pinned_listed now c :
  verify_pinned [digest c] (Some now) (Some (as_x509 c)) =
  match verify_pinned_cert_validity (Some now) (as_x509 c) with
  | Err _ => Err CERTIFICATE_EXPIRED
  | Ok _ => if negb (is_ecdsa_p256 (as_x509 c)) then Err BAD_CERTIFICATE else Ok ()
  end.
Proof. unfold verify_pinned. cbn. by rewrite bool_decide_true by done. Qed.

(** The check on a minted certificate, its digest being pinned. *)
Lemma verify_minted (pkey : GenKey) (nb na now : T) :
  times_readable →
  let valid := (seconds nb <= seconds now <= seconds na ∧
                seconds na - seconds nb <= MAX_PINNED_VALIDITY_SECS)%Z in
  verify_pinned [digest (minted pkey nb na)] (Some now) (Some (as_x509 (minted pkey nb na))) =
  if bool_decide valid then
    match pkey with EcKey X9_62_PRIME256V1 _ => Ok () | _ => Err BAD_CERTIFICATE end
  else Err CERTIFICATE_EXPIRED.
Proof.
  intros Hr valid. rewrite verify_pinned_listed.
  pose proof (currently_valid_as_x509 now (minted pkey nb na) Hr) as Hv.
  change (currently_valid now (as_x509 (minted pkey nb na)) ↔ valid) in Hv.
  pose proof (verify_pinned_cert_validity_spec (Some now) (as_x509 (minted pkey nb na))) as Hs.
  case_bool_decide as Hd.
  - rewrite (proj2 Hs) by (exists now; split; [done|by apply Hv]). by destruct pkey as [|[]].
  - destruct (verify_pinned_cert_validity _ _) as [[]|]; [exfalso|done].
    destruct (proj1 Hs eq_refl) as (? & [= <-] & Hc). apply Hd. exact (proj1 Hv Hc).
Qed.

(** When nothing fails, the tool writes the certificate it minted and its key. *)
Lemma main_ok (a : Answers T) prog cert_path key_path rest nb na :
  let args := cert_path :: key_path :: rest in
  (∀ call, an_ok a call = true) → an_days_from_now a false 0 = Some nb →
  an_days_from_now a true (days_arg args) = Some na →
  let pkey := if bool_decide (key_type_arg args = s2b "rsa") then RsaKey 2048 (an_material a)
              else EcKey X9_62_PRIME256V1 (an_material a) in
  main a (prog :: args) = ([(cert_path, CertPem (minted pkey nb na)); (key_path, KeyPem pkey)], Done).
Proof.
  intros args Hok Hnb Hna pkey. subst args. unfold main. cbn [drop].
  by rewrite generate_key_ok, (build_cert_ok _ _ _ nb na), write_files_ok.
Qed.

Lemma days_arg_paths (p q : rstring) rest : days_arg (p :: q :: rest) = default 13 (head rest ≫= parse_u32).
Proof. by destruct rest. Qed.

Lemma key_type_arg_rsa (p q : rstring) rest :
  bool_decide (key_type_arg (p :: q :: rest) = s2b "rsa") = bool_decide (rest !! 1%nat = Some (s2b "rsa")).
Proof.
  apply bool_decide_ext. unfold key_type_arg. cbn. destruct (rest !! 1%nat); cbn; [|done].
  split; [by intros ->|by intros [= ->]].
Qed.

(** C37: the generated certificate is the one the pinning check is for.  When no
    library call fails, the tool writes a self-signed certificate for
    [localhost] and then the private key of the very key it certifies; pinned by
    its digest, the certificate is accepted at every instant from the first
    clock reading to the requested number of days after the second (13 when
    none, or no number, is given), unless an RSA key was asked for, which is
    refused as a bad certificate, or the span exceeds two weeks, which is
    refused as expired at every instant, as is any instant outside the span. *)
Theorem generated_cert_pinned (a : Answers T) prog cert_path key_path rest t0 t1 :
  let days := default 13 (head rest ≫= parse_u32) in
  (∀ call, an_ok a call = true) → clock_reads a days t0 t1 → times_readable →
  ∃ cert pkey,
    main a (prog :: cert_path :: key_path :: rest) =
      ([(cert_path, CertPem cert); (key_path, KeyPem pkey)], Done) ∧
    ce_pubkey cert = pkey ∧ ce_signed cert = (pkey, Sha256) ∧ ce_subject cert = ce_issuer cert ∧
    Dns (s2b "localhost") ∈ ce_san cert ∧
    ∀ now : T,
      let valid := (t0 <= seconds now <= t1 + Z.of_N days * 86400 ∧
                    t1 - t0 + Z.of_N days * 86400 <= MAX_PINNED_VALIDITY_SECS)%Z in
      verify_pinned [digest cert] (Some now) (Some (as_x509 cert)) =
      if bool_decide valid then
        if bool_decide (rest !! 1%nat = Some (s2b "rsa")) then Err BAD_CERTIFICATE else Ok ()
      else Err CERTIFICATE_EXPIRED.
Proof.
  intros days Hok (nb & na & Hnb & Hna & <- & Ena) Hr.
  eexists _, _. split; [by apply main_ok; rewrite ?days_arg_paths|].
  do 3 (split; [done|]). split; [by left|].
  intros now valid. rewrite (verify_minted _ _ _ _ Hr), Ena, <- (key_type_arg_rsa cert_path key_path).
  rewrite (bool_decide_ext _ valid) by (unfold valid; lia).
  by destruct (bool_decide valid), (bool_decide (key_type_arg (cert_path :: key_path :: rest) = s2b "rsa")).
Qed.

(** Without both paths nothing is written; and whatever fails, the key is
    never written without its certificate. *)
Lemma main_files (a : Answers T) argv :
  (main a argv).1 = [] ∨
  ∃ cert_path cert, head (main a argv).1 = Some (cert_path, CertPem cert).
Proof.
  unfold main. destruct (drop 1 argv) as [|p [|q rest]]; [by left..|].
  destruct (generate_key _ _); [|by left]. destruct (build_cert _ _ _); [|by left].
  unfold write_files. destruct (write_pem _ CertToPem _ _ _ _) as [f|] eqn:E; [|by left]. right.
  unfold write_pem in E. apply bind_ok in E as (_ & _ & (_ & _ & [= <-])%bind_ok).
  by destruct (write_pem _ KeyToPem _ _ _ _); eauto.
Qed.
End pinned.

(** ** A concrete run *)

Module Example.
#[local] Existing Instance Tls.Example.unix_time.
#[local] Existing Instance Tls.Example.unix_time_laws.

(** The clock ticks once between its two readings. *)
Definition answers : Answers Z := mkAnswers (fun _ => true) (s2b "seed")
  (fun second days => Some ((if second then 1001 else 1000) + Z.of_N days * 86400)%Z).
Definition digest (c : Certificate Z) : bytes := s2b "digest".
Definition argv : list rstring := [s2b "gen-test-cert"; s2b "cert.pem"; s2b "key.pem"].

Lemma generated_cert_pinned_witness :
  ∃ cert pkey,
    main answers argv = ([(s2b "cert.pem", CertPem cert); (s2b "key.pem", KeyPem pkey)], Done) ∧
    verify_pinned [digest cert] (Some 500000%Z) (Some (as_x509 digest cert)) = Ok () ∧
    verify_pinned [digest cert] (Some 999%Z) (Some (as_x509 digest cert)) = Err CERTIFICATE_EXPIRED.
Proof.
  destruct (generated_cert_pinned digest answers (s2b "gen-test-cert") (s2b "cert.pem") (s2b "key.pem") []
    1000%Z 1001%Z) as (cert & pkey & Hmain & _ & _ & _ & _ & Hcheck).
  - done.
  - eexists _, _. split; [reflexivity|]. split; [reflexivity|]. by split.
  - intros x y. split; eexists; reflexivity.
  - exists cert, pkey. split; [exact Hmain|]. by split; rewrite Hcheck.
Defined.

Example two_weeks_expired :
  let argv := argv ++ [s2b "14"; s2b "ec"] in
  match main answers argv with
  | ([(_, CertPem cert); _], Done) =>
      verify_pinned [digest cert] (Some 500000%Z) (Some (as_x509 digest cert)) = Err CERTIFICATE_EXPIRED
  | _ => False
  end.
Proof. vm_compute. reflexivity. Qed.

Example usage_without_key_path : main answers (take 2 argv) = ([], Usage).
Proof. reflexivity. Qed.
End Example.
