(* ===== verification/Quic.v ===== *)
(** * The QUIC connection

    [quiche::Connection] is vendored third-party code: the session and the event
    loops are proved against this interface.  An operation returns its result
    and the connection afterwards. *)

From S2P Require Import Prelude.
From Stdlib Require Import SpecFloat.

(** The cases of [quiche::Error] the code distinguishes. *)
Inductive QuicError :=
  | Done
  | StreamLimit
  | StreamReset (code : N)
  | StreamStopped (code : N)
  | OtherError.

Inductive Shutdown := Read | Write.

(** [std::time::Duration]. *)
Record Duration := mkDuration { secs : N; nanos : N }.

(** The fields of [quiche::Stats] and [quiche::PathStats] the code reads. *)
Record ConnStats := mkConnStats {
  cs_sent_bytes : N; cs_recv_bytes : N; cs_sent : N; cs_recv : N; cs_lost : N;
}.
Record PathStats := mkPathStats { ps_rtt : Duration; ps_min_rtt : option Duration; ps_rttvar : Duration }.

Class Quic (C : Type) := {
  (** The bytes read into a buffer of the given length, and whether they end
      the stream. *)
  stream_recv : C → N → N → result QuicError (bytes * bool) * C;
  stream_recv_final_size : C → N → option N;
  (** The number of bytes accepted. *)
  stream_send : C → N → bytes → bool → result QuicError nat * C;
  stream_send_final_size : C → N → option N;
  (** The code ignores the results of the next two. *)
  stream_shutdown : C → N → Shutdown → N → C;
  conn_close : C → bool → N → bytes → C;
  dgram_recv : C → N → result QuicError bytes * C;
  dgram_send : C → bytes → result QuicError () * C;
  dgram_max_writable_len : C → option N;
  (** Fill a buffer of the given length with keying material for a label and a
      context. *)
  export_keying_material : C → N → bytes → option bytes → result QuicError bytes * C;
  stats : C → ConnStats;
  path_stats : C → option PathStats;
  (** Bounds on what the connection still holds for the application; they serve
      as fuel of the read loops. *)
  recv_bound : C → N → nat;
  dgram_bound : C → nat;
}.

(** What the code relies on. *)
Class QuicLaws C `{Quic C} := {
  (** A read fits the buffer, and takes bytes away that no other operation of
      the session brings back. *)
  recv_fits c id len d fin c' :
    stream_recv c id len = (Ok (d, fin), c') → lenN d <= len;
  recv_progress c id len d fin c' :
    stream_recv c id len = (Ok (d, fin), c') → d ≠ [] → (recv_bound c' id < recv_bound c id)%nat;
  recv_bound_le c id len id' : (recv_bound (stream_recv c id len).2 id' <= recv_bound c id')%nat;
  send_bound c id d fin id' : (recv_bound (stream_send c id d fin).2 id' <= recv_bound c id')%nat;
  dgram_recv_bound c len id' : (recv_bound (dgram_recv c len).2 id' <= recv_bound c id')%nat;
  dgram_send_bound c d id' : (recv_bound (dgram_send c d).2 id' <= recv_bound c id')%nat;
  shutdown_bound c id dir code id' : (recv_bound (stream_shutdown c id dir code) id' <= recv_bound c id')%nat;
  close_bound c app code reason id' : (recv_bound (conn_close c app code reason) id' <= recv_bound c id')%nat;
  (** No more bytes are accepted than offered. *)
  send_fits c id d fin n c' : stream_send c id d fin = (Ok n, c') → (n <= length d)%nat;
  (** Reading a datagram takes it from the queue. *)
  dgram_progress c len d c' : dgram_recv c len = (Ok d, c') → (dgram_bound c' < dgram_bound c)%nat;
}.

(** The wire as the peer will see it: the bytes accepted for each stream, in
    order, and the connection closes requested. *)
Class QuicWire C `{Quic C} := {
  accepted : C → N → bytes;
  closes : C → list (bool * N * bytes);
  send_accepts c id d fin n c' :
    stream_send c id d fin = (Ok n, c') → ∀ id',
    accepted c' id' = accepted c id' ++ (if decide (id = id') then take n d else []);
  send_refuses c id d fin e c' :
    stream_send c id d fin = (Err e, c') → ∀ id', accepted c' id' = accepted c id';
  recv_accepted c id len id' : accepted (stream_recv c id len).2 id' = accepted c id';
  dgram_recv_accepted c len id' : accepted (dgram_recv c len).2 id' = accepted c id';
  dgram_send_accepted c d id' : accepted (dgram_send c d).2 id' = accepted c id';
  export_accepted c len label context id' :
    accepted (export_keying_material c len label context).2 id' = accepted c id';
  shutdown_accepted c id dir code id' : accepted (stream_shutdown c id dir code) id' = accepted c id';
  close_accepted c app code reason id' : accepted (conn_close c app code reason) id' = accepted c id';
  recv_closes c id len : closes (stream_recv c id len).2 = closes c;
  dgram_recv_closes c len : closes (dgram_recv c len).2 = closes c;
  dgram_send_closes c d : closes (dgram_send c d).2 = closes c;
  export_closes c len label context : closes (export_keying_material c len label context).2 = closes c;
  send_closes c id d fin : closes (stream_send c id d fin).2 = closes c;
  shutdown_closes c id dir code : closes (stream_shutdown c id dir code) = closes c;
  close_closes c app code reason : closes (conn_close c app code reason) = closes c ++ [(app, code, reason)];
}.

(** Resets: of the bytes accepted for a stream, those a reset dropped before they
    were sent.  They never come back, and the final size counts the others. *)
Class QuicResets C `{QuicWire C} := {
  discarded : C → N → N;
  final_size_counts c id f : stream_send_final_size c id = Some f → lenN (accepted c id) = f + discarded c id;
  send_discards c id d fin id' : discarded c id' <= discarded (stream_send c id d fin).2 id';
  recv_discards c id len id' : discarded c id' <= discarded (stream_recv c id len).2 id';
  shutdown_discards c id dir code id' : discarded c id' <= discarded (stream_shutdown c id dir code) id';
  close_discards c app code reason id' : discarded c id' <= discarded (conn_close c app code reason) id';
  dgram_recv_discards c len id' : discarded c id' <= discarded (dgram_recv c len).2 id';
  dgram_send_discards c d id' : discarded c id' <= discarded (dgram_send c d).2 id';
  export_discards c len label context id' :
    discarded c id' <= discarded (export_keying_material c len label context).2 id';
}.

(** Datagrams: those that have arrived, in order, and those accepted for
    sending. *)
Class QuicDatagrams C `{Quic C} := {
  dgrams_in : C → list bytes;
  dgrams_out : C → list bytes;
  (** The oldest one is read if the buffer holds it. *)
  dgram_recv_next c len d rest :
    dgrams_in c = d :: rest → lenN d <= len →
    (dgram_recv c len).1 = Ok d ∧ dgrams_in (dgram_recv c len).2 = rest;
  dgram_recv_none c len : dgrams_in c = [] →
    (∃ e, (dgram_recv c len).1 = Err e) ∧ dgrams_in (dgram_recv c len).2 = [];
  dgram_send_out c d :
    dgrams_out (dgram_send c d).2 = dgrams_out c ++ match (dgram_send c d).1 with Ok _ => [d] | Err _ => [] end;
}.

(** The end of a stream: once a FIN has been accepted QUIC refuses further data
    on the stream, whatever else is sent. *)
Class QuicFin C `{Quic C} := {
  finished : C → N → Prop;
  fin_accepted c id n c' : stream_send c id [] true = (Ok n, c') → finished c' id;
  fin_refuses c id d fin : finished c id → d ≠ [] → ∃ e, (stream_send c id d fin).1 = Err e;
  fin_send c id d fin id' : finished c id' → finished (stream_send c id d fin).2 id';
}.

(** ** A small concrete connection

    Streams with a receive buffer and a send credit; enough to run the
    session. *)

Record ToyConn := mkToyConn {
  toy_inbox : gmap N (bytes * bool);
  toy_dgrams : list bytes;
  toy_dgrams_sent : list bytes;
  toy_credit : N → nat;
  toy_sent : gmap N bytes;
  toy_fins : list N;
  toy_stopped : gmap N N;
  toy_closes : list (bool * N * bytes);
}.
#[export] Instance ToyConn_eta : Eta ToyConn := fun c =>
  mkToyConn (toy_inbox c) (toy_dgrams c) (toy_dgrams_sent c) (toy_credit c) (toy_sent c) (toy_fins c) (toy_stopped c) (toy_closes c).

Definition toy_new : ToyConn := mkToyConn ∅ [] [] (fun _ => N.to_nat 65536) ∅ [] ∅ [].

Definition toy_stream_recv (c : ToyConn) (id len : N) : result QuicError (bytes * bool) * ToyConn :=
  match toy_inbox c !! id with
  | None => (Err Done, c)
  | Some (d, fin) =>
      let d1 := take (N.to_nat len) d in
      let d2 := drop (N.to_nat len) d in
      (Ok (d1, fin && bool_decide (d2 = [])), c <| toy_inbox ::= <[id := (d2, fin)]> |>)
  end.

Definition toy_stream_send (c : ToyConn) (id : N) (d : bytes) (fin : bool)
    : result QuicError nat * ToyConn :=
  match toy_stopped c !! id with
  | Some code => (Err (StreamStopped code), c)
  | None =>
      if bool_decide (id ∈ toy_fins c) then
        if bool_decide (d = []) && fin then (Ok O, c) else (Err OtherError, c)
      else
      let n := Nat.min (length d) (toy_credit c id) in
      (Ok n, c <| toy_fins ::= fun l => if fin && (n =? length d)%nat then id :: l else l |>
               <| toy_credit ::= fun k i => if decide (i = id) then (k i - n)%nat else k i |>
               <| toy_sent ::= fun m => <[id := default [] (m !! id) ++ take n d]> m |>)
  end.

Definition toy_dgram_recv (c : ToyConn) : result QuicError bytes * ToyConn :=
  match toy_dgrams c with
  | [] => (Err Done, c)
  | d :: ds => (Ok d, c <| toy_dgrams := ds |>)
  end.

#[export] Instance toy_quic : Quic ToyConn := {
  stream_recv := toy_stream_recv;
  stream_recv_final_size _ _ := None;
  stream_send := toy_stream_send;
  stream_send_final_size _ _ := None;
  stream_shutdown c _ _ _ := c;
  conn_close c app code reason := c <| toy_closes ::= fun l => l ++ [(app, code, reason)] |>;
  dgram_recv c _ := toy_dgram_recv c;
  dgram_send c d := (Ok (), c <| toy_dgrams_sent ::= fun l => l ++ [d] |>);
  dgram_max_writable_len _ := Some 1200;
  export_keying_material c len _ _ := (Ok (replicate (N.to_nat len) x00), c);
  stats _ := mkConnStats 0 0 0 0 0;
  path_stats _ := None;
  recv_bound c id := match toy_inbox c !! id with Some (d, _) => length d | None => O end;
  dgram_bound c := length (toy_dgrams c);
}.

#[export] Instance toy_laws : QuicLaws ToyConn.
Proof.
  constructor; cbn; try done.
  - intros c id len d fin c'. unfold toy_stream_recv.
    destruct (toy_inbox c !! id) as [[d0 f0]|]; intros [= <- <- <-].
    unfold lenN. rewrite length_take. lia.
  - intros c id len d fin c'. unfold toy_stream_recv.
    destruct (toy_inbox c !! id) as [[d0 f0]|] eqn:E; intros [= <- <- <-] Hne. cbn.
    rewrite lookup_insert, decide_True, length_drop by done.
    assert (length (take (N.to_nat len) d0) ≠ O) by (by intros ?%nil_length_inv).
    rewrite length_take in *. lia.
  - intros c id len id'. unfold toy_stream_recv.
    destruct (toy_inbox c !! id) as [[d0 f0]|] eqn:E; cbn; [|done].
    rewrite lookup_insert. case_decide; [subst; rewrite E|done]. rewrite length_drop. lia.
  - intros c id d fin id'. unfold toy_stream_send. destruct (toy_stopped c !! id); [done|].
    case_bool_decide; [by destruct (_ && _)|done].
  - intros c _ id'. unfold toy_dgram_recv. by destruct (toy_dgrams c).
  - intros c id d fin n c'. unfold toy_stream_send.
    destruct (toy_stopped c !! id); [done|].
    case_bool_decide; [destruct (_ && _)|]; intros [= <- <-]; lia.
  - intros c _ d c'. unfold toy_dgram_recv. destruct (toy_dgrams c); intros [= <- <-]. cbn. lia.
Qed.

#[export] Instance toy_wire : QuicWire ToyConn.
Proof.
  refine {| accepted c id := default [] (toy_sent c !! id); closes c := toy_closes c |}; cbn; try done.
  - intros c id d fin n c'. unfold toy_stream_send.
    destruct (toy_stopped c !! id); [done|]. case_bool_decide; [destruct (_ && _)|]; intros [= <- <-] id'.
    + by destruct (decide (id = id')); rewrite ?take_0, app_nil_r.
    + cbn. rewrite lookup_insert. case_decide; subst; [done|]. by rewrite app_nil_r.
  - intros c id d fin e c'. unfold toy_stream_send. destruct (toy_stopped c !! id); [by intros [= <- <-]|].
    case_bool_decide; [destruct (_ && _)|]; by intros [= <- <-].
  - intros c id len id'. unfold toy_stream_recv. by destruct (toy_inbox c !! id) as [[]|].
  - intros c _ id'. unfold toy_dgram_recv. by destruct (toy_dgrams c).
  - intros c id len. unfold toy_stream_recv. by destruct (toy_inbox c !! id) as [[]|].
  - intros c _. unfold toy_dgram_recv. by destruct (toy_dgrams c).
  - intros. unfold toy_stream_send. destruct (toy_stopped c !! id); [done|].
    case_bool_decide; [by destruct (_ && _)|done].
Defined.

#[export] Instance toy_resets : QuicResets ToyConn.
Proof. by refine {| discarded _ _ := 0 |}. Defined.

#[export] Instance toy_fin : QuicFin ToyConn.
Proof.
  refine {| finished c id := id ∈ toy_fins c ∨ is_Some (toy_stopped c !! id) |}; cbn; unfold toy_stream_send.
  - intros c id n c'. destruct (toy_stopped c !! id); [done|]. case_bool_decide as Hf; cbn.
    + intros [= _ <-]. by left.
    + intros [= _ <-]. left. cbn. by left.
  - intros c id d fin Hf Hd. destruct (toy_stopped c !! id) as [code|]; [by eexists|].
    destruct Hf as [Hf|[? ?]]; [|done]. rewrite bool_decide_true, bool_decide_false by done. by eexists.
  - intros c id d fin id' Hf. destruct (toy_stopped c !! id); [done|].
    case_bool_decide; [by destruct (_ && _)|]. cbn. destruct Hf as [Hf|Hf]; [left|by right].
    destruct (_ && _); [by right|done].
Defined.

#[export] Instance toy_datagrams : QuicDatagrams ToyConn.
Proof.
  refine {| dgrams_in := toy_dgrams; dgrams_out := toy_dgrams_sent |}; cbn; unfold toy_dgram_recv.
  - intros c _ d rest -> _. done.
  - intros c _ E. rewrite E. split; [by eexists|exact E].
  - done.
Defined.
