(* ===== verification/Float64.v ===== *)
(** * Double-precision numbers

    [f64] as IEEE 754 binary64, with the Standard Library's executable
    specification of its operations; JavaScript numbers reach the native layer
    as [f64]. *)

From S2P Require Import Prelude Quic.
From Stdlib Require Export SpecFloat.
From Stdlib Require Import ZArith.

Abbreviation f64 := spec_float.

Definition f64_add : f64 → f64 → f64 := SFadd 53 1024.
Definition f64_mul : f64 → f64 → f64 := SFmul 53 1024.
Definition f64_div : f64 → f64 → f64 := SFdiv 53 1024.

(** [n as f64]. *)
Definition f64_of_N (n : N) : f64 := binary_normalize 53 1024 (Z.of_N n) 0 false.

(** [Duration::as_secs_f64]. *)
Definition as_secs_f64 (d : Duration) : f64 :=
  f64_add (f64_of_N (secs d)) (f64_div (f64_of_N (nanos d)) (f64_of_N 1000000000)).

(** The integer part of a finite value, towards zero. *)
Definition f64_trunc (s : bool) (m : positive) (e : Z) : Z :=
  let a := if (0 <=? e)%Z then (Zpos m * 2 ^ e)%Z else (Zpos m / 2 ^ (- e))%Z in
  if s then (- a)%Z else a.

(** [v as u64] and [v as u32]: truncation towards zero, saturating; NaN is 0. *)
Definition f64_saturate (max : N) (v : f64) : N :=
  match v with
  | S754_nan => 0
  | S754_zero _ => 0
  | S754_infinity s => if s then 0 else max
  | S754_finite s m e => N.min (Z.to_N (f64_trunc s m e)) max
  end.
Definition f64_as_u64 : f64 → N := f64_saturate u64_max.
Definition f64_as_u32 : f64 → N := f64_saturate (2 ^ 32 - 1).

Definition is_finite (v : f64) : bool :=
  match v with S754_zero _ | S754_finite _ _ _ => true | _ => false end.
(** [v >= 0.0]. *)
Definition ge_zero (v : f64) : bool :=
  match v with
  | S754_zero _ => true
  | S754_infinity s | S754_finite s _ _ => negb s
  | S754_nan => false
  end.

Lemma f64_saturate_le max v : f64_saturate max v <= max.
Proof. destruct v as [|[]| |]; cbn; lia. Qed.

Example f64_conversions :
  map f64_as_u64 [f64_of_N 12345; f64_div (f64_of_N 7) (f64_of_N 2); S754_infinity false;
                  S754_nan; SFopp (f64_of_N 3); f64_of_N (2 ^ 64)] =
  [12345; 3; u64_max; 0; 0; u64_max].
Proof. vm_compute. reflexivity. Qed.

(** [v.fract()], up to the sign of a zero, of a finite value. *)
Definition f64_fract (v : f64) : f64 :=
  match v with
  | S754_finite s m e => SFsub 53 1024 v (binary_normalize 53 1024 (f64_trunc s m e) 0 s)
  | _ => S754_zero false
  end.

(** ** Integers below [2^53] are exact *)

Lemma digits2_pos_size p : digits2_pos p = Pos.size p.
Proof. induction p; cbn; congruence. Qed.

Lemma digits2_pos_iter p k : digits2_pos (Pos.iter xO p k) = (digits2_pos p + k)%positive.
Proof.
  revert p. induction k as [|k IH] using Pos.peano_ind; intros p; [cbn; lia|].
  rewrite Pos.iter_succ. cbn. rewrite IH. lia.
Qed.
Lemma iter_xO p k : Zpos (Pos.iter xO p k) = (Zpos p * 2 ^ Zpos k)%Z.
Proof.
  induction k as [|k IH] using Pos.peano_ind; [cbn; lia|].
  rewrite Pos.iter_succ, Pos2Z.inj_succ, Z.pow_succ_r, Pos2Z.inj_xO, IH by lia. lia.
Qed.

(** A 53-bit mantissa is not rounded. *)
Lemma round_exact m e :
  digits2_pos m = 53%positive → (-52 <= e <= 0)%Z →
  binary_round_aux 53 1024 false (Zpos m) e loc_Exact = S754_finite false m e.
Proof.
  intros Hm He. unfold binary_round_aux, shr_fexp. cbn [Zdigits2 shr_record_of_loc]. rewrite Hm.
  assert (Hz : (fexp 53 1024 (53 + e) - e = 0)%Z) by (unfold fexp, emin; lia). rewrite Hz. cbn [shr shr_m loc_of_shr_record round_nearest_even].
  unfold Zdigits2. rewrite Hm, Hz. cbn [shr shr_m]. destruct (Z.leb_spec e (1024 - 53)); [done|lia].
Qed.

Lemma f64_of_N_exact p :
  (Zpos p < 2 ^ 53)%Z →
  ∃ m, f64_of_N (Npos p) = S754_finite false m (Zpos (digits2_pos p) - 53) ∧
    Zpos m = (Zpos p * 2 ^ (53 - Zpos (digits2_pos p)))%Z ∧ (Zpos (digits2_pos p) <= 53)%Z.
Proof.
  intros Hp. assert (Hd : (Zpos (digits2_pos p) <= 53)%Z).
  { rewrite digits2_pos_size. pose proof (Pos.size_le p) as Hs.
    assert (H : (2 ^ Zpos (Pos.size p) <= 2 * Zpos p)%Z) by (apply Pos2Z.pos_le_pos in Hs; by rewrite Pos2Z.inj_pow in Hs).
    destruct (Z.le_gt_cases (Zpos (Pos.size p)) 53) as [|Hgt]; [done|].
    assert (2 ^ 54 <= 2 ^ Zpos (Pos.size p))%Z by (apply Z.pow_le_mono_r; lia). lia. }
  unfold f64_of_N, binary_normalize. cbn [Z.of_N]. unfold binary_round, shl_align.
  assert (He : (fexp 53 1024 (Zpos (digits2_pos p) + 0) = Zpos (digits2_pos p) - 53)%Z) by (unfold fexp, emin; lia).
  rewrite He. destruct (Zpos (digits2_pos p) - 53 - 0)%Z as [|q|k] eqn:Ek; [|lia|].
  - assert (Hd53 : digits2_pos p = 53%positive) by lia. exists p. rewrite round_exact by (done || lia).
    split; [by rewrite Hd53|]. rewrite Hd53. split; lia.
  - exists (Pos.iter xO p k). rewrite round_exact by (rewrite ?digits2_pos_iter; lia).
    split; [done|]. rewrite iter_xO. replace (53 - Zpos (digits2_pos p))%Z with (Zpos k) by lia. done.
Qed.

Lemma f64_trunc_exact p m :
  Zpos m = (Zpos p * 2 ^ (53 - Zpos (digits2_pos p)))%Z → (Zpos (digits2_pos p) <= 53)%Z →
  f64_trunc false m (Zpos (digits2_pos p) - 53) = Zpos p.
Proof.
  intros Hm Hd. unfold f64_trunc. rewrite Hm. destruct (Z.leb_spec 0 (Zpos (digits2_pos p) - 53)).
  - replace (Zpos (digits2_pos p)) with 53%Z by lia. cbn. lia.
  - replace (- (Zpos (digits2_pos p) - 53))%Z with (53 - Zpos (digits2_pos p))%Z by lia. apply Z.div_mul. apply Z.pow_nonzero; lia.
Qed.

Lemma f64_as_of_N max n : n < 2 ^ 53 → n <= max → f64_saturate max (f64_of_N n) = n.
Proof.
  intros Hn Hmax. destruct n as [|p]; [done|]. destruct (f64_of_N_exact p) as (m & -> & Hm & Hd); [lia|].
  cbn [f64_saturate]. rewrite (f64_trunc_exact p m Hm Hd). lia.
Qed.

Lemma f64_of_N_finite n : n < 2 ^ 53 → is_finite (f64_of_N n) && ge_zero (f64_of_N n) = true.
Proof. intros Hn. destruct n as [|p]; [done|]. by destruct (f64_of_N_exact p) as (m & -> & _); [lia|]. Qed.

(** *** Comparison with small integers *)

Lemma digits2_pos_bounds p : (2 ^ (Zpos (digits2_pos p) - 1) <= Zpos p < 2 ^ Zpos (digits2_pos p))%Z.
Proof.
  rewrite digits2_pos_size. split.
  - pose proof (Pos.size_le p) as Hs. apply Pos2Z.pos_le_pos in Hs. rewrite Pos2Z.inj_pow in Hs.
    rewrite (Pos2Z.inj_xO p) in Hs. rewrite Z.pow_sub_r by lia. change (2 ^ 1)%Z with 2%Z. apply Z.div_le_upper_bound; lia.
  - pose proof (Pos.size_gt p) as Hs. apply Pos2Z.pos_lt_pos in Hs. by rewrite Pos2Z.inj_pow in Hs.
Qed.

(** A number between 1 and 4096 is truncated to an integer between them. *)
Lemma f64_between v :
  valid_binary 53 1024 v = true → SFleb (f64_of_N 1) v && SFleb v (f64_of_N 4096) = true →
  1 <= f64_as_u32 v <= 4096.
Proof.
  change (f64_of_N 1) with (S754_finite false 4503599627370496 (-52)).
  change (f64_of_N 4096) with (S754_finite false 4503599627370496 (-40)).
  assert (HK : ∃ K, K = 4503599627370496%positive) by eauto. destruct HK as [K HK]. rewrite <- HK.
  intros Hv [H1 H2]%andb_true_iff. destruct v as [s|s| |s m e]; try done; try (by destruct s).
  unfold SFleb, SFcompare in H1, H2. destruct s; [done|].
  cbn [valid_binary] in Hv. unfold bounded, canonical_mantissa in Hv. apply andb_true_iff in Hv as [Hc _].
  apply Z.eqb_eq in Hc. unfold fexp, emin in Hc. pose proof (digits2_pos_bounds m) as [Hm1 Hm2].
  assert (He : (-52 <= e <= -40)%Z).
  { split.
    - destruct (Z.compare_spec (-52) e); [lia|lia|done].
    - destruct (Z.compare_spec e (-40)); [lia|lia|done]. }
  assert (Hd : Zpos (digits2_pos m) = 53%Z) by lia. rewrite Hd in Hm1, Hm2.
  assert (Hm40 : e = (-40)%Z → (Zpos m <= 4503599627370496)%Z).
  { intros ->. rewrite Z.compare_refl in H2. change (Pos.compare_cont Eq m K) with (m ?= K)%positive in H2.
    destruct (Pos.compare_spec m K); [lia|lia|done]. }
  change (53 - 1)%Z with 52%Z in Hm1. change (2 ^ 52)%Z with 4503599627370496%Z in Hm1.
  change (2 ^ 53)%Z with 9007199254740992%Z in Hm2.
  assert (Ht : (1 <= f64_trunc false m e <= 4096)%Z).
  { unfold f64_trunc. destruct (Z.leb_spec 0 e); [lia|].
    assert (Hp : (0 < 2 ^ (- e))%Z) by (apply Z.pow_pos_nonneg; lia). split.
    - apply Z.div_le_lower_bound; [done|]. assert (2 ^ (- e) <= 2 ^ 52)%Z by (apply Z.pow_le_mono_r; lia).
      change (2 ^ 52)%Z with 4503599627370496%Z in *. lia.
    - destruct (decide (e = (-40)%Z)) as [->|Hne].
      + apply Z.div_le_upper_bound; [done|]. specialize (Hm40 eq_refl). change (2 ^ (- -40))%Z with 1099511627776%Z. lia.
      + apply Z.div_le_upper_bound; [done|]. assert (2 ^ 41 <= 2 ^ (- e))%Z by (apply Z.pow_le_mono_r; lia).
        change (2 ^ 41)%Z with 2199023255552%Z in *. lia. }
  cbn [f64_as_u32 f64_saturate]. unfold f64_as_u32. cbn [f64_saturate]. change (2 ^ 32 - 1) with 4294967295. lia.
Qed.

(** An integer has no fraction, and compares with the bounds as it should. *)
Lemma SFsub_self s m e : SFsub 53 1024 (S754_finite s m e) (S754_finite s m e) = S754_zero false.
Proof. unfold SFsub. by rewrite Z.sub_diag. Qed.
Lemma f64_fract_exact s m e :
  binary_normalize 53 1024 (f64_trunc s m e) 0 s = S754_finite s m e → f64_fract (S754_finite s m e) = S754_zero false.
Proof. intros H. unfold f64_fract. rewrite H. apply SFsub_self. Qed.
Lemma f64_fract_int n : n < 2 ^ 53 → f64_fract (f64_of_N n) = S754_zero false.
Proof.
  intros Hn. destruct n as [|p]; [done|]. destruct (f64_of_N_exact p) as (m & E & Hm & Hd); [lia|].
  pose proof (f64_trunc_exact p m Hm Hd) as Ht. rewrite E. apply f64_fract_exact. rewrite Ht. exact E.
Qed.

Lemma f64_exponents_between m p d K :
  K = 4503599627370496%positive → (Zpos m = Zpos p * 2 ^ (53 - d))%Z → (2 ^ (d - 1) <= Zpos p < 2 ^ d)%Z →
  (1 <= d)%Z → (Zpos p <= 4096)%Z →
  SFleb (S754_finite false K (-52)) (S754_finite false m (d - 53)) &&
  SFleb (S754_finite false m (d - 53)) (S754_finite false K (-40)) = true.
Proof.
  intros HK Hm [Hlo Hhi] Hd1 Hp.
  assert (Hd : (d <= 13)%Z).
  { destruct (Z.le_gt_cases d 13) as [|Hgt]; [done|].
    assert (2 ^ 13 <= 2 ^ (d - 1))%Z by (apply Z.pow_le_mono_r; lia). change (2 ^ 13)%Z with 8192%Z in *. lia. }
  assert (Heq : (d = 1 ∨ d = 13)%Z → m = K).
  { intros [-> | ->].
    - change (2 ^ 1)%Z with 2%Z in Hhi. change (2 ^ (53 - 1))%Z with 4503599627370496%Z in Hm. lia.
    - change (2 ^ (13 - 1))%Z with 4096%Z in Hlo. change (2 ^ (53 - 13))%Z with 1099511627776%Z in Hm. lia. }
  clear HK Hm. unfold SFleb, SFcompare. apply andb_true_iff. split.
  - destruct (Z.compare_spec (-52) (d - 53)); [|done|lia]. rewrite Heq by lia.
    change (Pos.compare_cont Eq K K) with (K ?= K)%positive. by rewrite Pos.compare_refl.
  - destruct (Z.compare_spec (d - 53) (-40)); [|done|lia]. rewrite Heq by lia.
    change (Pos.compare_cont Eq K K) with (K ?= K)%positive. by rewrite Pos.compare_refl.
Qed.

Lemma f64_int_between n :
  1 <= n → n <= 4096 → SFleb (f64_of_N 1) (f64_of_N n) && SFleb (f64_of_N n) (f64_of_N 4096) = true.
Proof.
  assert (E1 : f64_of_N 1 = S754_finite false 4503599627370496 (-52)) by (vm_compute; reflexivity).
  assert (E2 : f64_of_N 4096 = S754_finite false 4503599627370496 (-40)) by (vm_compute; reflexivity).
  rewrite E1, E2. intros H1 H2. destruct n as [|p]; [lia|].
  destruct (f64_of_N_exact p) as (m & -> & Hm & _); [lia|].
  apply (f64_exponents_between m p _ _ eq_refl Hm (digits2_pos_bounds p)); lia.
Qed.
