(* ===== verification/SessionState.v ===== *)
(** * The session state ([crates/native/src/session.rs])

    Events, stream roles, streams and the [WtSession] record, the world the
    session's methods run in, and the primitive updates of it. *)

From S2P Require Import Prelude H3 ParserMemory FrameParser Headers Net Quic Float64.

(** ** Constants *)

Definition CONNECT_ID : N := 0.

Definition CLIENT_CONTROL_ID : N := 2.
Definition CLIENT_QPACK_ENC_ID : N := 6.
Definition CLIENT_QPACK_DEC_ID : N := 10.
Definition CLIENT_FIRST_WT_BIDI_ID : N := 4.
Definition CLIENT_FIRST_WT_UNI_ID : N := 14.

Definition SERVER_CONTROL_ID : N := 3.
Definition SERVER_QPACK_ENC_ID : N := 7.
Definition SERVER_QPACK_DEC_ID : N := 11.
Definition SERVER_FIRST_WT_BIDI_ID : N := 1.
Definition SERVER_FIRST_WT_UNI_ID : N := 15.

Definition MAX_SESSION_PARSER_MEMORY : N := 8 * 1024 * 1024.

Definition WT_GRANT_MAX_DATA : N := N.shiftl 1 34.
Definition WT_GRANT_MAX_STREAMS : N := N.shiftl 1 20.

(** ** Events *)

Inductive Ev :=
  | EvReady (protocol : option rstring) (headers : list (rstring * rstring))
  | EvDraining
  | EvServerReady (authority path : rstring) (origin : option rstring)
      (headers : list (rstring * rstring)) (requested_protocols : list rstring)
      (protocol : option rstring) (remote_addr : rstring) (remote_port : N)
  | EvClosed (code : N) (reason : bytes) (remote : bool)
  | EvError (message : rstring)
  | EvDatagram (data : bytes)
  | EvIncomingStream (id : N) (bidi : bool)
  | EvStreamData (id : N) (data : bytes)
  | EvStreamFinished (id : N)
  | EvStreamReset (id code : N)
  | EvStreamStopSending (id code : N)
  | EvStreamOpened (request_id id : N)
  | EvWriteAck (request_id : N)
  | EvDatagramAck (request_id : N) (sent : bool)
  | EvStats (request_id bytes_sent bytes_received packets_sent packets_received packets_lost : N)
      (smoothed_rtt_ms rtt_variation_ms min_rtt_ms : f64)
  | EvKeyingMaterial (request_id : N) (data : option bytes).

(** ** Streams *)

Record OutChunk := mkOutChunk { oc_data : bytes; oc_off : nat; oc_request_id : option N }.
#[export] Instance OutChunk_eta : Eta OutChunk := fun c =>
  mkOutChunk (oc_data c) (oc_off c) (oc_request_id c).

Inductive Role :=
  | LocalControlPlane
  | Connect
  | PeerControl
  | Ignored
  | PeerQpack (encoder : bool)
  | WtData (bidi : bool)
  | PendingUni
  | PendingBidi.
#[export] Instance Role_eq_dec : EqDecision Role.
Proof. solve_decision. Defined.

Definition is_wt_data (r : Role) : bool := match r with WtData _ => true | _ => false end.

Record Stream := mkStream {
  st_role : Role;
  st_class_buf : ParserBuffer;
  st_frames : FrameParser;
  st_headers_done : bool;
  st_paused : bool;
  st_out : list OutChunk;
  st_fin_queued : bool;
  st_fin_sent : bool;
  st_recv_dead : bool;
  st_recv_payload : N;
  st_recv_prefix : N;
  st_send_payload : N;
  st_send_prefix : N;
}.
#[export] Instance Stream_eta : Eta Stream := fun s =>
  mkStream (st_role s) (st_class_buf s) (st_frames s) (st_headers_done s) (st_paused s)
    (st_out s) (st_fin_queued s) (st_fin_sent s) (st_recv_dead s) (st_recv_payload s)
    (st_recv_prefix s) (st_send_payload s) (st_send_prefix s).

Definition new_stream (role : Role) (memory : ParserMemory) : Stream :=
  mkStream role (new_buffer memory) (new_parser memory) false false [] false false false 0 0 0 0.

Definition with_prefix (role : Role) (prefix : bytes) (memory : ParserMemory) : Stream :=
  let s := new_stream role memory in
  let s := if is_wt_data role then s <| st_send_prefix := lenN prefix |> else s in
  match prefix with
  | [] => s
  | _ => s <| st_out ::= fun out => out ++ [mkOutChunk prefix 0 None] |>
  end.

(** ** The session *)

Record CloseReq := mkCloseReq { cr_code : N; cr_reason : bytes; cr_capsule_queued : bool }.

Record WtSession := mkWtSession {
  ws_is_server : bool;
  ws_authority : rstring;
  ws_path : rstring;
  ws_origin : option rstring;
  ws_extra_headers : list (rstring * rstring);
  ws_protocols : list rstring;
  ws_supported_protocols : list rstring;
  ws_allowed_origins : option (list rstring);
  ws_response_headers : list (rstring * rstring);
  ws_next_bidi : N;
  ws_next_uni : N;
  ws_pending_opens : list (bool * N);
  ws_setup_sent : bool;
  ws_ready : bool;
  ws_closed : bool;
  ws_connect_pending : bool;
  ws_drain_emitted : bool;
  ws_drain_sent : bool;
  ws_fc_credit_granted : bool;
  ws_fc_max_data_remote : N;
  ws_fc_max_streams_bidi_remote : N;
  ws_fc_max_streams_uni_remote : N;
  ws_fc_data_sent : N;
  ws_fc_data_received : N;
  ws_fc_max_data_local : N;
  (** The arrays of two, indexed by direction: unidirectional, bidirectional. *)
  ws_fc_max_streams_local : N * N;
  ws_fc_streams_received : N * N;
  ws_terminal_error : option (N * bytes);
  ws_data_blocked_at : option N;
  ws_streams_bidi_blocked_at : option N;
  ws_streams_uni_blocked_at : option N;
  ws_capsule_buf : ParserBuffer;
  ws_parser_memory : ParserMemory;
  ws_peer_settings : option PeerSettings;
  ws_streams : gmap N Stream;
  ws_close_req : option CloseReq;
  ws_want_quic_close : option (N * bytes);
  ws_close_deferred_once : bool;
  ws_quic_close_issued : bool;
  ws_remote_addr : option SocketAddr;
}.
#[export] Instance WtSession_eta : Eta WtSession := fun s =>
  mkWtSession (ws_is_server s) (ws_authority s) (ws_path s) (ws_origin s) (ws_extra_headers s)
    (ws_protocols s) (ws_supported_protocols s) (ws_allowed_origins s) (ws_response_headers s)
    (ws_next_bidi s) (ws_next_uni s) (ws_pending_opens s) (ws_setup_sent s) (ws_ready s)
    (ws_closed s) (ws_connect_pending s) (ws_drain_emitted s) (ws_drain_sent s)
    (ws_fc_credit_granted s) (ws_fc_max_data_remote s) (ws_fc_max_streams_bidi_remote s)
    (ws_fc_max_streams_uni_remote s) (ws_fc_data_sent s) (ws_fc_data_received s)
    (ws_fc_max_data_local s) (ws_fc_max_streams_local s) (ws_fc_streams_received s)
    (ws_terminal_error s) (ws_data_blocked_at s) (ws_streams_bidi_blocked_at s)
    (ws_streams_uni_blocked_at s) (ws_capsule_buf s) (ws_parser_memory s) (ws_peer_settings s)
    (ws_streams s) (ws_close_req s) (ws_want_quic_close s) (ws_close_deferred_once s)
    (ws_quic_close_issued s) (ws_remote_addr s).

(** What both constructors share. *)
Definition blank_session (memory : ParserMemory) : WtSession := {|
  ws_is_server := false; ws_authority := []; ws_path := []; ws_origin := None;
  ws_extra_headers := []; ws_protocols := []; ws_supported_protocols := [];
  ws_allowed_origins := None; ws_response_headers := [];
  ws_next_bidi := CLIENT_FIRST_WT_BIDI_ID; ws_next_uni := CLIENT_FIRST_WT_UNI_ID;
  ws_pending_opens := []; ws_setup_sent := false; ws_ready := false; ws_closed := false;
  ws_connect_pending := false; ws_drain_emitted := false; ws_drain_sent := false;
  ws_fc_credit_granted := false; ws_fc_max_data_remote := 0;
  ws_fc_max_streams_bidi_remote := 0; ws_fc_max_streams_uni_remote := 0;
  ws_fc_data_sent := 0; ws_fc_data_received := 0;
  ws_fc_max_data_local := WT_INITIAL_MAX_DATA;
  ws_fc_max_streams_local := (WT_INITIAL_MAX_STREAMS, WT_INITIAL_MAX_STREAMS);
  ws_fc_streams_received := (0, 0); ws_terminal_error := None;
  ws_data_blocked_at := None; ws_streams_bidi_blocked_at := None;
  ws_streams_uni_blocked_at := None;
  ws_capsule_buf := new_buffer memory; ws_parser_memory := memory;
  ws_peer_settings := None; ws_streams := ∅; ws_close_req := None;
  ws_want_quic_close := None; ws_close_deferred_once := false;
  ws_quic_close_issued := false; ws_remote_addr := None;
|}.

(** A session is created with its memory node and the counters afterwards. *)
Definition new_client (authority path : rstring) (origin : option rstring)
    (extra_headers : list (rstring * rstring)) (protocols : list rstring) (u : Usage)
    : WtSession * Usage :=
  let '(memory, u) := new_memory MAX_SESSION_PARSER_MEMORY u in
  ((blank_session memory)
     <| ws_authority := authority |> <| ws_path := path |> <| ws_origin := origin |>
     <| ws_extra_headers := extra_headers |> <| ws_protocols := protocols |>, u).

Definition new_server (remote : SocketAddr) (supported_protocols : list rstring)
    (allowed_origins : option (list rstring)) (response_headers : list (rstring * rstring))
    (parser_memory : ParserMemory) (u : Usage) : WtSession * Usage :=
  let '(memory, u) := child_memory parser_memory MAX_SESSION_PARSER_MEMORY u in
  ((blank_session memory)
     <| ws_is_server := true |> <| ws_supported_protocols := supported_protocols |>
     <| ws_allowed_origins := allowed_origins |> <| ws_response_headers := response_headers |>
     <| ws_next_bidi := SERVER_FIRST_WT_BIDI_ID |> <| ws_next_uni := SERVER_FIRST_WT_UNI_ID |>
     <| ws_remote_addr := Some remote |>, u).

(** Classify a not-yet-seen stream by its QUIC stream-type bits. *)
Definition classify_new (id : N) (is_server : bool) : Role :=
  if is_server then
    match N.land id 0x3 with
    | 0 => if id =? CONNECT_ID then Connect else PendingBidi
    | 2 => PendingUni
    | _ => Ignored
    end
  else
    match N.land id 0x3 with
    | 3 => PendingUni
    | 1 => PendingBidi
    | _ => Ignored
    end.

(** ** The world of a method call

    [&mut self], [&mut quiche::Connection], the allocation counters, and the
    events pushed so far. *)

Record World {C : Type} := mkWorld {
  w_ses : WtSession;
  w_conn : C;
  w_mem : Usage;
  w_ev : list Ev;
}.
Arguments World : clear implicits.
Arguments mkWorld {C}.
#[export] Instance World_eta C : Eta (World C) := fun w =>
  mkWorld (w_ses w) (w_conn w) (w_mem w) (w_ev w).

Section primitives.
Context {C : Type}.

Definition ses {A} (f : WtSession → A) : M (World C) A := gets (fun w => f (w_ses w)).
Definition set_ses (f : WtSession → WtSession) : M (World C) () :=
  modify (fun w => w <| w_ses ::= f |>).
Definition push_ev (e : Ev) : M (World C) () := modify (fun w => w <| w_ev ::= fun l => l ++ [e] |>).

(** An operation on the counters, and one on the connection. *)
Definition mem {A} (m : M Usage A) : M (World C) A := fun w =>
  match m (w_mem w) with
  | Some (a, u) => Some (a, w <| w_mem := u |>)
  | None => None
  end.
Definition conn {A} (f : C → A * C) : M (World C) A := fun w =>
  let '(a, c) := f (w_conn w) in Some (a, w <| w_conn := c |>).
Definition conn_ (f : C → C) : M (World C) () := modify (fun w => w <| w_conn ::= f |>).

(** [self.streams.get(&id)]. *)
Definition get_stream (id : N) : M (World C) (option Stream) := ses (fun s => ws_streams s !! id).
(** [if let Some(st) = self.streams.get_mut(&id) { ... }]. *)
Definition with_stream (id : N) (f : Stream → Stream) : M (World C) () :=
  set_ses (fun s => s <| ws_streams ::= alter f id |>).
(** Dropping a stream frees its buffers. *)
Definition drop_stream (st : Stream) : M Usage () :=
  _ ← buf_drop (st_class_buf st);
  buf_drop (fp_buf (st_frames st)).
(** [self.streams.insert(id, st)]; a stream it replaces is dropped. *)
Definition insert_stream (id : N) (st : Stream) : M (World C) () :=
  old ← get_stream id;
  _ ← set_ses (fun s => s <| ws_streams ::= <[id := st]> |>);
  match old with Some old => mem (drop_stream old) | None => mret () end.
(** [self.streams.remove(&id)]. *)
Definition remove_stream (id : N) : M (World C) () :=
  old ← get_stream id;
  _ ← set_ses (fun s => s <| ws_streams ::= delete id |>);
  match old with Some old => mem (drop_stream old) | None => mret () end.
(** [st.out.push_back(chunk)]. *)
Definition push_out (id : N) (chunk : OutChunk) : M (World C) () :=
  with_stream id (fun st => st <| st_out ::= fun out => out ++ [chunk] |>).

(** [st.frames.push(&chunk)] and [st.frames.next_frame()] on a stream. *)
Definition frames_push `{Allocator} (id : N) (chunk : bytes) : M (World C) () :=
  st ← get_stream id;
  match st with
  | None => mret ()
  | Some st =>
      f ← mem (push (st_frames st) chunk);
      with_stream id (fun st => st <| st_frames := f |>)
  end.
Definition frames_next `{Allocator} (id : N) : M (World C) (option (N * ParserBuffer)) :=
  st ← get_stream id;
  match st with
  | None => mret None
  | Some st =>
      '(o, f) ← mem (next_frame (st_frames st));
      _ ← with_stream id (fun st => st <| st_frames := f |>);
      mret o
  end.
(** [st.class_buf.clear()]. *)
Definition class_buf_clear (id : N) : M (World C) () :=
  st ← get_stream id;
  match st with
  | None => mret ()
  | Some st =>
      b ← mem (buf_clear (st_class_buf st));
      with_stream id (fun st => st <| st_class_buf := b |>)
  end.
(** [st.frames.buf.clear()]. *)
Definition frames_clear (id : N) : M (World C) () :=
  st ← get_stream id;
  match st with
  | None => mret ()
  | Some st =>
      b ← mem (buf_clear (fp_buf (st_frames st)));
      with_stream id (fun st => st <| st_frames ::= fun f => f <| fp_buf := b |> |>)
  end.
End primitives.
