(* ===== verification/SessionRecv.v ===== *)
(** * The receiving side of the session ([crates/native/src/session.rs])

    Closing and errors, flow-control accounting of what the peer sends, the
    capsule scanner, the CONNECT exchange, the HTTP/3 control stream, the
    classification of peer streams, and [on_readable]. *)

From S2P Require Import Prelude Utf8 H3 ParserMemory FrameParser Headers Net Quic SessionState.

Section receive.
Context {C : Type} `{!Quic C} `{!Allocator} `{!Qpack} `{!Sfv}.

Abbreviation Method := (M (World C)).

(** ** Closing *)

Definition clear_stream (st : Stream) : M Usage Stream :=
  b1 ← buf_clear (fp_buf (st_frames st));
  b2 ← buf_clear (st_class_buf st);
  mret (st <| st_frames ::= fun f => f <| fp_buf := b1 |> |>
           <| st_class_buf := b2 |> <| st_recv_dead := true |>).
Fixpoint clear_streams (l : list (N * Stream)) : M Usage (list (N * Stream)) :=
  match l with
  | [] => mret []
  | (id, st) :: l =>
      st ← clear_stream st;
      l ← clear_streams l;
      mret ((id, st) :: l)
  end.

Definition mark_closed (code : N) (reason : bytes) (remote : bool) : Method () :=
  closed ← ses ws_closed;
  if (closed : bool) then mret ()
  else
    _ ← set_ses (fun s => s <| ws_closed := true |>);
    buf ← ses ws_capsule_buf;
    buf ← mem (buf_clear buf);
    _ ← set_ses (fun s => s <| ws_capsule_buf := buf |>);
    streams ← ses ws_streams;
    l ← mem (clear_streams (map_to_list streams));
    _ ← set_ses (fun s => s <| ws_streams := list_to_map l |>);
    push_ev (EvClosed code reason remote).

Definition parser_limit_exceeded : Method () :=
  closed ← ses ws_closed;
  when (negb closed) (
    _ ← push_ev (EvError (s2b "parser memory limit exceeded"));
    mark_closed 0 [] true).

Definition flow_error (message : rstring) : Method () :=
  closed ← ses ws_closed;
  if (closed : bool) then mret ()
  else
    _ ← set_ses (fun s => s <| ws_terminal_error := Some (0x045d4487, message) |>);
    _ ← push_ev (EvError message);
    mark_closed 0 [] true.

Definition protocol_error (code : N) (message : rstring) : Method () :=
  closed ← ses ws_closed;
  if (closed : bool) then mret ()
  else
    _ ← push_ev (EvError message);
    _ ← mark_closed 0 [] true;
    conn_ (fun c => conn_close c true code message).

(** Whether a stream's frame parser has latched a fatal error. *)
Definition frame_error (id : N) : Method bool :=
  st ← get_stream id;
  mret (match st with Some st => fp_error (st_frames st) | None => false end).

Definition kill_recv (id : N) : Method () :=
  _ ← with_stream id (fun st => st <| st_recv_dead := true |>);
  _ ← frames_clear id;
  _ ← class_buf_clear id;
  conn_ (fun c => stream_shutdown c id Read 0).

(** ** Flow-control accounting *)

Definition uses_session_flow_control (s : WtSession) : bool :=
  match ws_peer_settings s with Some settings => 0 <? wt_max_sessions settings | None => false end.

(** The entry of an array of two for a direction, and its update. *)
Definition at_dir (bidi : bool) (p : N * N) : N := if bidi then p.2 else p.1.
Definition update_dir (bidi : bool) (f : N → N) (p : N * N) : N * N :=
  if bidi then (p.1, f p.2) else (f p.1, p.2).

Definition account_incoming (bidi : bool) : Method bool :=
  _ ← set_ses (fun s => s <| ws_fc_streams_received ::= update_dir bidi (fun n => add64 n 1) |>);
  limit ← ses (fun s => at_dir bidi (ws_fc_max_streams_local s));
  exceeded ← ses (fun s =>
    uses_session_flow_control s && (limit <? at_dir bidi (ws_fc_streams_received s)));
  if (exceeded : bool) then
    _ ← flow_error (s2b "peer exceeded the session stream limit"); mret false
  else mret true.

Definition account_receive (id amount : N) : Method bool :=
  _ ← set_ses (fun s => s <| ws_fc_data_received ::= fun n => saturating_add64 n amount |>);
  _ ← with_stream id (fun st => st <| st_recv_payload ::= fun n => saturating_add64 n amount |>);
  limit ← ses ws_fc_max_data_local;
  exceeded ← ses (fun s => uses_session_flow_control s && (limit <? ws_fc_data_received s));
  if (exceeded : bool) then
    _ ← flow_error (s2b "peer exceeded the session data limit"); mret false
  else mret true.

(** ** Capsules on the session stream *)

Definition is_flow_capsule (ty : N) : bool :=
  (ty =? WT_MAX_DATA_CAPSULE) || (ty =? WT_MAX_STREAMS_BIDI_CAPSULE) ||
  (ty =? WT_MAX_STREAMS_UNI_CAPSULE) || (ty =? WT_DATA_BLOCKED_CAPSULE) ||
  (ty =? WT_STREAMS_BLOCKED_BIDI_CAPSULE) || (ty =? WT_STREAMS_BLOCKED_UNI_CAPSULE).

(** Raise one of the peer's limits; it must increase. *)
Definition raise_limit (field : WtSession → N) (set : N → WtSession → WtSession) (v : N)
    : Method () :=
  limit ← ses field;
  if v <=? limit then flow_error (s2b "flow-control credit must increase")
  else set_ses (set v).

Definition handle_flow_capsule (ty : N) (value : bytes) : Method () :=
  match read_varint value with
  | None => flow_error (s2b "truncated flow-control capsule")
  | Some (v, n) =>
      let stream_limit :=
        negb (ty =? WT_MAX_DATA_CAPSULE) && negb (ty =? WT_DATA_BLOCKED_CAPSULE) in
      if negb (n =? length value)%nat || (stream_limit && (N.shiftl 1 60 <? v)) then
        flow_error (s2b "invalid flow-control capsule")
      else if ty =? WT_MAX_DATA_CAPSULE then
        raise_limit ws_fc_max_data_remote (fun v s => s <| ws_fc_max_data_remote := v |>) v
      else if ty =? WT_MAX_STREAMS_BIDI_CAPSULE then
        raise_limit ws_fc_max_streams_bidi_remote
          (fun v s => s <| ws_fc_max_streams_bidi_remote := v |>) v
      else if ty =? WT_MAX_STREAMS_UNI_CAPSULE then
        raise_limit ws_fc_max_streams_uni_remote
          (fun v s => s <| ws_fc_max_streams_uni_remote := v |>) v
      else mret ()
  end.

(** The code and reason of a CLOSE_WEBTRANSPORT_SESSION value. *)
Definition close_info (value : bytes) : N * bytes :=
  match value with
  | a :: b :: c :: d :: reason => (from_be32 a b c d, truncate_close_reason reason)
  | _ => (0, [])
  end.

(** The body of the scan loop for one whole capsule.  The code's early returns
    all follow a flow error, which closes the session and so ends the loop. *)
Definition handle_capsule (ty : N) (value : bytes) : Method () :=
  closed ← ses ws_closed;
  drain_emitted ← ses ws_drain_emitted;
  if (ty =? WT_CLOSE_SESSION_CAPSULE) && negb closed then
    let '(code, reason) := close_info value in
    mark_closed code reason true
  else if (ty =? WT_DRAIN_SESSION_CAPSULE) && negb drain_emitted && negb closed then
    _ ← set_ses (fun s => s <| ws_drain_emitted := true |>);
    push_ev EvDraining
  else when (is_flow_capsule ty) (handle_flow_capsule ty value).

Fixpoint scan_loop (fuel : nat) : Method () :=
  match fuel with
  | O => panic
  | S fuel =>
      closed ← ses ws_closed;
      if (closed : bool) then mret ()
      else
        buf ← ses ws_capsule_buf;
        match read_varint (pb_data buf) with
        | None => mret ()
        | Some (ty, n1) =>
            match read_varint (drop n1 (pb_data buf)) with
            | None => mret ()
            | Some (len, n2) =>
                let start := (n1 + n2)%nat in
                if MAX_CONTROL_FRAME <? len then
                  _ ← push_ev (EvError (s2b "oversized WebTransport capsule"));
                  mark_closed 0 [] true
                else
                  let stop := (start + N.to_nat len)%nat in
                  if (length (pb_data buf) <? stop)%nat then mret ()
                  else
                    r ← mem (buf_copy buf start stop);
                    match r with
                    | Err () => parser_limit_exceeded
                    | Ok value =>
                        buf ← mem (buf_consume buf stop);
                        _ ← set_ses (fun s => s <| ws_capsule_buf := buf |>);
                        _ ← handle_capsule ty (pb_data value);
                        _ ← mem (buf_drop value);
                        scan_loop fuel
                    end
            end
        end
  end.

Definition scan_capsules (payload : bytes) : Method () :=
  closed ← ses ws_closed;
  if (closed : bool) then mret ()
  else
    buf ← ses ws_capsule_buf;
    '(r, buf) ← mem (buf_extend buf payload);
    _ ← set_ses (fun s => s <| ws_capsule_buf := buf |>);
    match r with
    | Err () => parser_limit_exceeded
    | Ok () => scan_loop (S (length (pb_data buf)))
    end.
End receive.
