(* ===== verification/SessionConnect.v ===== *)
(** * The CONNECT exchange and the control stream
    ([crates/native/src/session.rs])

    The server's half (validate, accept or reject), the client's half (queue the
    request, read the response), and the peer's HTTP/3 control stream, whose
    SETTINGS gate both. *)

From S2P Require Import Prelude Utf8 H3 ParserMemory FrameParser Headers Net Quic SessionState.
From S2P Require Import SessionRecv.

Section connect.
Context {C : Type} `{!Quic C} `{!Allocator} `{!Qpack} `{!Sfv}.

Abbreviation Method := (M (World C)).

(** ** Server role *)

Definition reject_connect (id status : N) : Method () :=
  let resp := [mkHeader (s2b ":status") (dec status)] in
  _ ← match encode_headers_frame resp with
      | Ok frame =>
          with_stream id (fun st =>
            st <| st_out ::= fun out => out ++ [mkOutChunk frame 0 None] |>
               <| st_fin_queued := true |>)
      | Err _ => mret ()
      end;
  quiet ← ses (fun s => ws_ready s || ws_closed s);
  _ ← when (negb quiet) (push_ev (EvError (s2b "rejected CONNECT with status " ++ dec status)));
  mark_closed 0 [] false.

(** What the request's header fields say; pseudo-headers that are not listed
    are ignored. *)
Record Request := mkRequest {
  rq_method : option bytes;
  rq_protocol : option bytes;
  rq_authority : rstring;
  rq_path : rstring;
  rq_origin : option rstring;
  rq_protocol_fields : list rstring;
  rq_extra : list (rstring * rstring);
}.
#[export] Instance Request_eta : Eta Request := fun r =>
  mkRequest (rq_method r) (rq_protocol r) (rq_authority r) (rq_path r) (rq_origin r)
    (rq_protocol_fields r) (rq_extra r).

Definition read_field (r : Request) (h : Header) : Request :=
  let name := h_name h in
  let value := h_value h in
  if bool_decide (name = s2b ":method") then r <| rq_method := Some value |>
  else if bool_decide (name = s2b ":protocol") then r <| rq_protocol := Some value |>
  else if bool_decide (name = s2b ":authority") then r <| rq_authority := from_utf8_lossy value |>
  else if bool_decide (name = s2b ":path") then r <| rq_path := from_utf8_lossy value |>
  else if bool_decide (name = s2b "origin") then r <| rq_origin := Some (from_utf8_lossy value) |>
  else if bool_decide (name = WT_AVAILABLE_PROTOCOLS) then
    r <| rq_protocol_fields ::= fun l => l ++ [from_utf8_lossy value] |>
  else if starts_with (s2b ":") name then r
  else r <| rq_extra ::= fun l => l ++ [(from_utf8_lossy name, from_utf8_lossy value)] |>.

Definition read_request (headers : list Header) : Request :=
  foldl read_field (mkRequest None None [] (s2b "/") None [] []) headers.

Definition origin_permitted (allowed : option (list rstring)) (origin : option rstring) : bool :=
  match allowed with
  | None => true
  | Some allowed =>
      match origin with
      | Some o => existsb (fun a => bool_decide (a = o)) allowed
      | None => false
      end
  end.

(** The first supported subprotocol the client also offered. *)
Definition select_protocol (supported requested : list rstring) : option rstring :=
  List.find (fun p => existsb (fun r => bool_decide (r = p)) requested) supported.

Definition accept_response (selected : option rstring) (extra : list (rstring * rstring))
    : list Header :=
  [mkHeader (s2b ":status") (s2b "200")] ++
  match selected with
  | Some p => [mkHeader WT_PROTOCOL (serialize_sf_string p)]
  | None => []
  end ++
  map (fun kv => mkHeader kv.1 kv.2) extra.

Definition accept_connect (id : N) (headers : list Header) : Method () :=
  let r := read_request headers in
  let requested_protocols := parse_sf_string_list (join (s2b ", ") (rq_protocol_fields r)) in
  let ok := bool_decide (rq_method r = Some (s2b "CONNECT")) &&
            bool_decide (rq_protocol r = Some (s2b "webtransport")) in
  if negb ok then reject_connect id 400
  else
    allowed ← ses ws_allowed_origins;
    if negb (origin_permitted allowed (rq_origin r)) then reject_connect id 403
    else
      supported ← ses ws_supported_protocols;
      let selected := select_protocol supported requested_protocols in
      response_headers ← ses ws_response_headers;
      match encode_headers_frame (accept_response selected response_headers) with
      | Ok frame =>
          _ ← push_out id (mkOutChunk frame 0 None);
          _ ← set_ses (fun s => s <| ws_ready := true |>);
          remote ← ses ws_remote_addr;
          let '(remote_addr, remote_port) :=
            match remote with
            | Some a => (ip_to_string (sa_ip a), sa_port a)
            | None => ([], 0)
            end in
          push_ev (EvServerReady (rq_authority r) (rq_path r) (rq_origin r) (rq_extra r)
            requested_protocols selected remote_addr remote_port)
      | Err e => push_ev (EvError (s2b "failed to encode CONNECT response: " ++ e))
      end.

Fixpoint server_connect_loop (fuel : nat) (id : N) : Method () :=
  match fuel with
  | O => panic
  | S fuel =>
      closed ← ses ws_closed;
      if (closed : bool) then mret ()
      else
        frame ← frames_next id;
        st ← get_stream id;
        match frame, st with
        | Some (ty, payload), Some st =>
            _ ← (if (ty =? FRAME_HEADERS) && negb (st_headers_done st) then
                   _ ← with_stream id (fun st => st <| st_headers_done := true |>);
                   match decode_header_block (pb_data payload) with
                   | Ok headers => accept_connect id headers
                   | Err e =>
                       _ ← push_ev (EvError (s2b "failed to decode CONNECT request: " ++ e));
                       reject_connect id 400
                   end
                 else when (ty =? FRAME_DATA) (scan_capsules (pb_data payload)));
            _ ← mem (buf_drop payload);
            server_connect_loop fuel id
        | _, _ => mret ()
        end
  end.

(** The number of frames a stream's parser can still hold. *)
Definition frame_fuel (st : option Stream) : nat :=
  match st with Some st => S (length (pb_data (fp_buf (st_frames st)))) | None => 1%nat end.

Definition parse_server_connect_frames (id : N) : Method () :=
  settings ← ses ws_peer_settings;
  match settings with
  | None => mret ()
  | Some settings =>
      if negb (h3_datagram settings) ||
         negb (enable_webtransport settings || (0 <? wt_max_sessions settings)) then
        reject_connect id 400
      else
        st ← get_stream id;
        server_connect_loop (frame_fuel st) id
  end.

(** ** Client role *)

Definition queue_connect : Method () :=
  headers ← ses (fun s =>
    connect_headers (ws_authority s) (ws_path s) (ws_origin s) (ws_extra_headers s)
      (ws_protocols s));
  match encode_headers_frame headers with
  | Ok frame =>
      memory ← ses ws_parser_memory;
      insert_stream CONNECT_ID (with_prefix Connect frame memory)
  | Err e => push_ev (EvError (s2b "failed to encode CONNECT: " ++ e))
  end.

(** The response to our CONNECT. *)
Definition handle_response (headers : list Header) : Method () :=
  let status := default 0 (status_of headers) in
  if (200 <=? status) && (status <? 300) then
    ready ← ses ws_ready;
    if (ready : bool) then mret ()
    else
      let protocol := wt_protocol_of headers in
      offered ← ses ws_protocols;
      if match protocol with
         | Some p => negb (existsb (fun o => bool_decide (o = p)) offered)
         | None => false
         end then
        protocol_error 0x0817b3dd (s2b "server selected an unoffered or malformed subprotocol")
      else
        _ ← set_ses (fun s => s <| ws_ready := true |>);
        push_ev (EvReady protocol (response_headers headers))
  else
    _ ← push_ev (EvError (s2b "WebTransport CONNECT rejected with status " ++ dec status));
    _ ← mark_closed 0 [] true;
    conn_ (fun c => conn_close c true 0 (s2b "connect rejected")).

Fixpoint connect_loop (fuel : nat) (id : N) : Method () :=
  match fuel with
  | O => panic
  | S fuel =>
      closed ← ses ws_closed;
      if (closed : bool) then mret ()
      else
        frame ← frames_next id;
        st ← get_stream id;
        match frame, st with
        | Some (ty, payload), Some st =>
            _ ← (if (ty =? FRAME_HEADERS) && negb (st_headers_done st) then
                   _ ← with_stream id (fun st => st <| st_headers_done := true |>);
                   match decode_header_block (pb_data payload) with
                   | Ok headers => handle_response headers
                   | Err e => push_ev (EvError (s2b "failed to decode CONNECT response: " ++ e))
                   end
                 else when (ty =? FRAME_DATA) (scan_capsules (pb_data payload)));
            _ ← mem (buf_drop payload);
            connect_loop fuel id
        | _, _ => mret ()
        end
  end.

Definition parse_connect_frames (id : N) : Method () :=
  st ← get_stream id;
  connect_loop (frame_fuel st) id.

(** ** The peer's control stream *)

(** Frames that must not appear on a control stream. *)
Definition forbidden_on_control (ty : N) : bool :=
  (ty =? FRAME_DATA) || (ty =? FRAME_HEADERS) || (ty =? 0x2) || (ty =? 0x6) ||
  (ty =? 0x8) || (ty =? 0x9).

Definition apply_peer_settings (settings : PeerSettings) : Method () :=
  _ ← set_ses (fun s => s <| ws_peer_settings := Some settings |>
    <| ws_fc_max_data_remote := wt_initial_max_data settings |>
    <| ws_fc_max_streams_bidi_remote := wt_initial_max_streams_bidi settings |>
    <| ws_fc_max_streams_uni_remote := wt_initial_max_streams_uni settings |>);
  connect_pending ← ses ws_connect_pending;
  _ ← when connect_pending (
    _ ← set_ses (fun s => s <| ws_connect_pending := false |>);
    if webtransport_ok settings then queue_connect
    else
      _ ← push_ev (EvError (s2b "server does not advertise WebTransport support"));
      mark_closed 0 (s2b "webtransport not supported") false);
  has_connect ← ses (fun s =>
    ws_is_server s && bool_decide (is_Some (ws_streams s !! CONNECT_ID)));
  when has_connect (parse_server_connect_frames CONNECT_ID).

(** One frame of the control stream; [true] continues the loop, [false] is
    the code's early return. *)
Definition handle_control_frame (id ty : N) (payload : bytes) (first : bool) : Method bool :=
  if first && negb (ty =? FRAME_SETTINGS) then
    _ ← protocol_error 0x10a (s2b "SETTINGS must be the first control frame"); mret false
  else if ty =? FRAME_SETTINGS then
    if negb first then
      _ ← protocol_error 0x105 (s2b "repeated SETTINGS frame"); mret false
    else
      _ ← with_stream id (fun st => st <| st_headers_done := true |>);
      match parse_settings payload with
      | Err message => _ ← protocol_error 0x109 message; mret false
      | Ok settings => _ ← apply_peer_settings settings; mret true
      end
  else if forbidden_on_control ty then
    _ ← protocol_error 0x105 (s2b "unexpected frame on control stream"); mret false
  else
    drain_emitted ← ses ws_drain_emitted;
    closed ← ses ws_closed;
    _ ← when ((ty =? FRAME_GOAWAY) && negb drain_emitted && negb closed) (
      _ ← set_ses (fun s => s <| ws_drain_emitted := true |>);
      push_ev EvDraining);
    mret true.

Fixpoint control_loop (fuel : nat) (id : N) : Method () :=
  match fuel with
  | O => panic
  | S fuel =>
      closed ← ses ws_closed;
      if (closed : bool) then mret ()
      else
        frame ← frames_next id;
        match frame with
        | None => mret ()
        | Some (ty, payload) =>
            st ← get_stream id;
            st ← unwrap st;
            continue ← handle_control_frame id ty (pb_data payload) (negb (st_headers_done st));
            _ ← mem (buf_drop payload);
            if (continue : bool) then control_loop fuel id else mret ()
        end
  end.

Definition parse_control_frames (id : N) : Method () :=
  st ← get_stream id;
  control_loop (frame_fuel st) id.

(** [process_recv] on a control stream. *)
Definition process_peer_control (id : N) (chunk : bytes) (fin : bool) : Method () :=
  _ ← frames_push id chunk;
  _ ← parse_control_frames id;
  closed ← ses ws_closed;
  _ ← when (fin && negb closed)
    (protocol_error 0x104 (s2b "peer closed the HTTP/3 control stream"));
  malformed ← frame_error id;
  when malformed (
    _ ← kill_recv id;
    closed ← ses ws_closed;
    when (negb closed) (
      _ ← push_ev (EvError (s2b "malformed HTTP/3 control stream"));
      _ ← mark_closed 0 [] true;
      conn_ (fun c => conn_close c true 0 (s2b "h3 control error")))).

(** [process_recv] on the CONNECT stream. *)
Definition process_connect (id : N) (chunk : bytes) (fin : bool) : Method () :=
  _ ← frames_push id chunk;
  is_server ← ses ws_is_server;
  _ ← (if (is_server : bool) then parse_server_connect_frames id else parse_connect_frames id);
  malformed ← frame_error id;
  closed ← ses ws_closed;
  _ ← when (malformed && negb closed) (
    _ ← kill_recv id;
    _ ← push_ev (EvError (s2b "malformed HTTP/3 CONNECT stream"));
    _ ← mark_closed 0 [] true;
    conn_ (fun c => conn_close c true 0 (s2b "h3 connect error")));
  closed ← ses ws_closed;
  when (fin && negb closed) (
    st ← get_stream id;
    truncated ← ses (fun s =>
      match st with
      | Some st => negb (bool_decide (pb_data (fp_buf (st_frames st)) = []))
      | None => false
      end || negb (bool_decide (pb_data (ws_capsule_buf s) = [])));
    if (truncated : bool) then
      protocol_error 0x106 (s2b "truncated CONNECT frame or capsule")
    else mark_closed 0 [] true).
End connect.
