(* ===== verification/SessionStreams.v ===== *)
(** * Streams from the peer and datagrams ([crates/native/src/session.rs])

    The classification of pending streams, [process_recv], the read loop
    [on_readable], datagrams, and [on_established]. *)

From S2P Require Import Prelude Utf8 H3 ParserMemory FrameParser Headers Net Quic SessionState.
From S2P Require Import SessionRecv SessionConnect.

Section streams.
Context {C : Type} `{!Quic C} `{!Allocator} `{!Qpack} `{!Sfv}.

Abbreviation Method := (M (World C)).

(** [self.streams.iter().any(|(&other, st)| other != id && st.role == role)]. *)
Definition other_has_role (id : N) (role : Role) (streams : gmap N Stream) : bool :=
  existsb (fun '(other, st) => negb (other =? id) && bool_decide (st_role st = role))
    (map_to_list streams).

(** [st.class_buf.extend_from_slice(&chunk)], and the bytes buffered after;
    [None] when the stream is unknown or the session has been closed for
    exceeding its parser memory. *)
Definition class_buf_extend (id : N) (chunk : bytes) : Method (option bytes) :=
  st ← get_stream id;
  match st with
  | None => mret None
  | Some st =>
      '(r, b) ← mem (buf_extend (st_class_buf st) chunk);
      _ ← with_stream id (fun st => st <| st_class_buf := b |>);
      match r with
      | Err () => _ ← parser_limit_exceeded; mret None
      | Ok () => mret (Some (pb_data b))
      end
  end.

(** [st.role = role; st.class_buf.clear()]. *)
Definition set_role (id : N) (role : Role) : Method () :=
  _ ← with_stream id (fun st => st <| st_role := role |>);
  class_buf_clear id.

(** A peer stream turns out not to be this session's. *)
Definition refuse_stream (id : N) : Method () :=
  _ ← conn_ (fun c => stream_shutdown c id Read 0);
  set_role id Ignored.

(** A peer stream is resolved as WebTransport data; [header] bytes of it were
    the signal, [data] follows. *)
Definition resolve_wt_data (id : N) (bidi : bool) (header : nat) (data : bytes) (fin : bool)
    : Method () :=
  _ ← set_role id (WtData bidi);
  _ ← with_stream id (fun st => st <| st_recv_prefix := N.of_nat header |>);
  ok ← account_incoming bidi;
  if negb ok then mret ()
  else
    ok ← account_receive id (lenN data);
    if negb ok then mret ()
    else
      _ ← push_ev (EvIncomingStream id bidi);
      _ ← when (negb (bool_decide (data = []))) (push_ev (EvStreamData id data));
      when fin (
        _ ← with_stream id (fun st => st <| st_recv_dead := true |>);
        push_ev (EvStreamFinished id)).

(** The session id after the stream's type or signal; a stream of another
    session is refused. *)
Definition resolve_session (id : N) (bidi : bool) (buf : bytes) (n : nat) (fin : bool)
    : Method () :=
  match read_varint (drop n buf) with
  | None => when fin (remove_stream id)
  | Some (session, n2) =>
      if negb (session =? CONNECT_ID) then refuse_stream id
      else resolve_wt_data id bidi (n + n2) (drop (n + n2) buf) fin
  end.

(** The control-stream arm re-enters [process_recv], whose arm for the role
    just set is [process_peer_control]. *)
Definition resolve_pending_uni (id : N) (chunk : bytes) (fin : bool) : Method () :=
  buf ← class_buf_extend id chunk;
  match buf with
  | None => mret ()
  | Some buf =>
      match read_varint buf with
      | None => when fin (remove_stream id)
      | Some (ty, n) =>
          streams ← ses ws_streams;
          if ty =? H3_CONTROL_STREAM_TYPE then
            if other_has_role id PeerControl streams then
              protocol_error 0x103 (s2b "duplicate HTTP/3 control stream")
            else
              _ ← set_role id PeerControl;
              process_peer_control id (drop n buf) fin
          else if (ty =? QPACK_ENCODER_STREAM_TYPE) || (ty =? QPACK_DECODER_STREAM_TYPE) then
            let encoder := ty =? QPACK_ENCODER_STREAM_TYPE in
            if other_has_role id (PeerQpack encoder) streams then
              protocol_error 0x103 (s2b "duplicate QPACK stream")
            else
              _ ← set_role id (PeerQpack encoder);
              when fin (protocol_error 0x104 (s2b "peer closed a critical QPACK stream"))
          else if ty =? WT_UNI_STREAM_TYPE then
            resolve_session id false buf n fin
          else set_role id Ignored
      end
  end.

Definition resolve_pending_bidi (id : N) (chunk : bytes) (fin : bool) : Method () :=
  buf ← class_buf_extend id chunk;
  match buf with
  | None => mret ()
  | Some buf =>
      match read_varint buf with
      | None => when fin (remove_stream id)
      | Some (signal, n) =>
          if negb (signal =? WT_BIDI_FRAME_TYPE) then refuse_stream id
          else resolve_session id true buf n fin
      end
  end.

Definition process_recv (id : N) (chunk : bytes) (fin : bool) : Method () :=
  st ← get_stream id;
  match st_role <$> st with
  | None | Some LocalControlPlane => mret ()
  | Some (PeerQpack _) =>
      when fin (protocol_error 0x104 (s2b "peer closed a critical QPACK stream"))
  | Some Ignored => when fin (with_stream id (fun st => st <| st_recv_dead := true |>))
  | Some PeerControl => process_peer_control id chunk fin
  | Some Connect => process_connect id chunk fin
  | Some (WtData _) =>
      ok ← account_receive id (lenN chunk);
      if negb ok then mret ()
      else
        _ ← when (negb (bool_decide (chunk = []))) (push_ev (EvStreamData id chunk));
        when fin (
          _ ← with_stream id (fun st => st <| st_recv_dead := true |>);
          push_ev (EvStreamFinished id))
  | Some PendingUni => resolve_pending_uni id chunk fin
  | Some PendingBidi => resolve_pending_bidi id chunk fin
  end.

(** ** The read loop *)

(** How the loop of [on_readable] ends: by the method's return, or by a break
    with the reset code seen, if any. *)
Inductive ReadEnd := Returned | Broke (reset : option N).

Definition READ_BUF : N := 16 * 1024.

(** Under global backpressure, whether a stream's bytes stay in QUIC. *)
Definition left_unread (st : Stream) : bool :=
  is_wt_data (st_role st) ||
  (bool_decide (st_role st = PendingUni) &&
   match read_varint (pb_data (st_class_buf st)) with
   | Some (ty, _) => ty =? WT_UNI_STREAM_TYPE
   | None => false
   end).

Fixpoint read_loop (fuel : nat) (id : N) (backpressured : bool) : Method ReadEnd :=
  match fuel with
  | O => panic
  | S fuel =>
      st ← get_stream id;
      st ← unwrap st;
      if backpressured && left_unread st then mret Returned
      else
        let read_len :=
          if backpressured && bool_decide (st_role st = PendingUni) then 1 else READ_BUF in
        final_size ← gets (fun w => stream_recv_final_size (w_conn w) id);
        r ← conn (fun c => stream_recv c id read_len);
        match r with
        | Ok (chunk, f) =>
            _ ← process_recv id chunk f;
            closed ← ses ws_closed;
            if (closed : bool) then mret Returned
            else if (f : bool) then mret (Broke None)
            else if bool_decide (chunk = []) then mret (Broke None)
            else read_loop fuel id backpressured
        | Err (StreamReset code) =>
            match final_size with
            | None => mret (Broke (Some code))
            | Some size =>
                st ← get_stream id;
                st ← unwrap st;
                if is_wt_data (st_role st) then
                  let missing := (size - st_recv_prefix st) - st_recv_payload st in
                  ok ← account_receive id missing;
                  if negb ok then mret Returned else mret (Broke (Some code))
                else mret (Broke (Some code))
            end
        | Err _ => mret (Broke None)
        end
  end.

Definition handle_reset (id code : N) : Method () :=
  st ← get_stream id;
  _ ← with_stream id (fun st => st <| st_recv_dead := true |>);
  match st_role <$> st with
  | Some (WtData _) =>
      push_ev (EvStreamReset id (default code (http_code_to_webtransport_code code)))
  | Some PeerControl | Some (PeerQpack _) =>
      protocol_error 0x104 (s2b "peer reset a critical HTTP/3 stream")
  | Some Connect =>
      closed ← ses ws_closed;
      when (negb closed) (
        ready ← ses ws_ready;
        _ ← when (negb ready) (push_ev (EvError
              (s2b "server reset the WebTransport session stream (code " ++ dec code ++ s2b ")")));
        mark_closed (trunc32 code) [] true)
  | _ => mret ()
  end.

Definition on_readable (id : N) (backpressured : bool) : Method () :=
  closed ← ses ws_closed;
  if (closed : bool) then mret ()
  else
    st ← get_stream id;
    _ ← match st with
        | Some _ => mret ()
        | None =>
            st ← ses (fun s => new_stream (classify_new id (ws_is_server s)) (ws_parser_memory s));
            insert_stream id st
        end;
    st ← get_stream id;
    st ← unwrap st;
    if st_recv_dead st then mret ()
    else if (st_paused st || backpressured) && is_wt_data (st_role st) then mret ()
    else if backpressured && bool_decide (st_role st = PendingBidi) then mret ()
    else
      fuel ← gets (fun w => S (recv_bound (w_conn w) id));
      e ← read_loop fuel id backpressured;
      match e with
      | Broke (Some code) => handle_reset id code
      | _ => mret ()
      end.

(** ** Datagrams *)

Definition DGRAM_BUF : N := 65536.

Fixpoint dgram_loop (fuel : nat) : Method () :=
  match fuel with
  | O => panic
  | S fuel =>
      r ← conn (fun c => dgram_recv c DGRAM_BUF);
      match r with
      | Err _ => mret ()
      | Ok data =>
          _ ← match read_varint data with
              | Some (qsi, off) =>
                  when (qsi =? CONNECT_ID / 4) (push_ev (EvDatagram (drop off data)))
              | None => mret ()
              end;
          dgram_loop fuel
      end
  end.

Definition on_datagrams : Method () :=
  fuel ← gets (fun w => S (dgram_bound (w_conn w)));
  dgram_loop fuel.

Definition send_datagram (data : bytes) (request_id : N) : Method () :=
  let framed := put_varint (CONNECT_ID / 4) ++ data in
  r ← conn (fun c => dgram_send c framed);
  push_ev (EvDatagramAck request_id (match r with Ok _ => true | Err _ => false end)).

Definition max_datagram_size (c : C) : N := default 0 (dgram_max_writable_len c) - 1.

(** ** Establishment *)

Definition on_established : Method () :=
  setup_sent ← ses ws_setup_sent;
  if (setup_sent : bool) then mret ()
  else
    _ ← set_ses (fun s => s <| ws_setup_sent := true |>);
    is_server ← ses ws_is_server;
    let '(control_id, qpack_enc_id, qpack_dec_id) :=
      if (is_server : bool) then (SERVER_CONTROL_ID, SERVER_QPACK_ENC_ID, SERVER_QPACK_DEC_ID)
      else (CLIENT_CONTROL_ID, CLIENT_QPACK_ENC_ID, CLIENT_QPACK_DEC_ID) in
    memory ← ses ws_parser_memory;
    _ ← insert_stream control_id (with_prefix LocalControlPlane control_stream_prefix memory);
    _ ← insert_stream qpack_enc_id
          (with_prefix LocalControlPlane (put_varint QPACK_ENCODER_STREAM_TYPE) memory);
    _ ← insert_stream qpack_dec_id
          (with_prefix LocalControlPlane (put_varint QPACK_DECODER_STREAM_TYPE) memory);
    when (negb is_server) (set_ses (fun s => s <| ws_connect_pending := true |>)).

(** ** Queries answered as events *)

Definition to_ms (d : Duration) : Float64.f64 :=
  Float64.f64_mul (Float64.as_secs_f64 d) (Float64.f64_of_N 1000).

Definition build_stats (c : C) (request_id : N) : Ev :=
  let s := stats c in
  let '(rtt, min_rtt, rttvar) :=
    match path_stats c with
    | Some p => (ps_rtt p, default (ps_rtt p) (ps_min_rtt p), ps_rttvar p)
    | None => (mkDuration 0 0, mkDuration 0 0, mkDuration 0 0)
    end in
  EvStats request_id (cs_sent_bytes s) (cs_recv_bytes s) (cs_sent s) (cs_recv s) (cs_lost s)
    (to_ms rtt) (to_ms rttvar) (to_ms min_rtt).

Definition build_keying_material (request_id : N) (label context : bytes) (length : N)
    (c : C) : Ev * C :=
  if negb ((1 <=? length) && (length <=? 4096)) then (EvKeyingMaterial request_id None, c)
  else
    let '(r, c) := export_keying_material c length label (Some context) in
    (EvKeyingMaterial request_id (ok r), c).
End streams.
