(* ===== verification/SessionSend.v ===== *)
(** * The sending side of the session ([crates/native/src/session.rs])

    Opening streams under the peer's limits, the outbound queues, capsules on
    the session stream, [flush] with its credit grants, pruning and deferred
    close, and the application's commands. *)

From S2P Require Import Prelude H3 ParserMemory FrameParser Headers Net Quic SessionState.
From S2P Require Import SessionRecv.

Section send.
Context {C : Type} `{!Quic C} `{!Allocator}.

Abbreviation Method := (M (World C)).

(** ** Opening streams *)

Definition first_id (is_server bidi : bool) : N :=
  if is_server then (if bidi then SERVER_FIRST_WT_BIDI_ID else SERVER_FIRST_WT_UNI_ID)
  else (if bidi then CLIENT_FIRST_WT_BIDI_ID else CLIENT_FIRST_WT_UNI_ID).
Definition next_id (bidi : bool) (s : WtSession) : N :=
  if bidi then ws_next_bidi s else ws_next_uni s.
Definition stream_limit (bidi : bool) (s : WtSession) : N :=
  if bidi then ws_fc_max_streams_bidi_remote s else ws_fc_max_streams_uni_remote s.

(** The signal that starts one of our WebTransport streams. *)
Definition stream_prefix (bidi : bool) : bytes :=
  put_varint (if bidi then WT_BIDI_FRAME_TYPE else WT_UNI_STREAM_TYPE) ++ put_varint CONNECT_ID.

Definition allocate_stream (bidi : bool) (request_id : N) : Method () :=
  id ← ses (next_id bidi);
  _ ← set_ses (fun s =>
    if bidi then s <| ws_next_bidi ::= fun n => add64 n 4 |>
    else s <| ws_next_uni ::= fun n => add64 n 4 |>);
  memory ← ses ws_parser_memory;
  _ ← insert_stream id (with_prefix (WtData bidi) (stream_prefix bidi) memory);
  push_ev (EvStreamOpened request_id id).

(** Whether the peer's stream limit holds an open back. *)
Definition open_blocked (bidi : bool) (s : WtSession) : bool :=
  uses_session_flow_control s &&
  (stream_limit bidi s <=? sub64 (next_id bidi s) (first_id (ws_is_server s) bidi) / 4).

Fixpoint release_loop (pending : list (bool * N)) : Method () :=
  match pending with
  | [] => mret ()
  | (bidi, request_id) :: pending =>
      blocked ← ses (open_blocked bidi);
      _ ← (if (blocked : bool) then
             set_ses (fun s => s <| ws_pending_opens ::= fun l => l ++ [(bidi, request_id)] |>)
           else allocate_stream bidi request_id);
      release_loop pending
  end.

Definition release_pending_opens : Method () :=
  idle ← ses (fun s => negb (ws_ready s) || ws_closed s);
  if (idle : bool) then mret ()
  else
    pending ← ses ws_pending_opens;
    _ ← set_ses (fun s => s <| ws_pending_opens := [] |>);
    release_loop pending.

Definition open_stream (bidi : bool) (request_id : N) : Method () :=
  _ ← set_ses (fun s => s <| ws_pending_opens ::= fun l => l ++ [(bidi, request_id)] |>);
  release_pending_opens.

(** ** Application commands on a stream *)

Definition stream_write (id : N) (data : bytes) (request_id : N) : Method () :=
  st ← get_stream id;
  match st with
  | Some _ => push_out id (mkOutChunk data 0 (Some request_id))
  | None => push_ev (EvWriteAck request_id)
  end.

Definition stream_fin (id : N) : Method () :=
  with_stream id (fun st => st <| st_fin_queued := true |>).

(** Return credit for buffered payload omitted from a reset's final size. *)
Definition reconcile_send_final_size (id : N) : Method () :=
  final_size ← gets (fun w => stream_send_final_size (w_conn w) id);
  st ← get_stream id;
  match final_size, st with
  | Some final_size, Some st =>
      if negb (is_wt_data (st_role st)) then mret ()
      else
        let final_payload := final_size - st_send_prefix st in
        if final_payload <? st_send_payload st then
          _ ← set_ses (fun s => s <| ws_fc_data_sent ::= fun n =>
                n - (st_send_payload st - final_payload) |>);
          with_stream id (fun st => st <| st_send_payload := final_payload |>)
        else mret ()
  | _, _ => mret ()
  end.

Definition stream_reset (id code : N) : Method () :=
  st ← get_stream id;
  match st with
  | None => mret ()
  | Some _ =>
      let h := webtransport_code_to_http_code code in
      _ ← conn_ (fun c => stream_shutdown c id Write h);
      _ ← reconcile_send_final_size id;
      with_stream id (fun st => st <| st_out := [] |> <| st_fin_sent := true |>)
  end.

Definition stream_stop_sending (id code : N) : Method () :=
  st ← get_stream id;
  match st with
  | None => mret ()
  | Some _ =>
      let h := webtransport_code_to_http_code code in
      _ ← conn_ (fun c => stream_shutdown c id Read h);
      with_stream id (fun st => st <| st_recv_dead := true |>)
  end.

Definition set_paused (id : N) (paused : bool) : Method () :=
  with_stream id (fun st => st <| st_paused := paused |>).

(** ** Commands on the session *)

Definition close (code : N) (reason : bytes) : Method () :=
  req ← ses ws_close_req;
  match req with
  | Some _ => mret ()
  | None => set_ses (fun s => s <| ws_close_req :=
              Some (mkCloseReq code (truncate_close_reason reason) false) |>)
  end.

Definition local_close_info (s : WtSession) : option (N * bytes) :=
  (fun r => (cr_code r, cr_reason r)) <$> ws_close_req s.

(** A capsule, and the DATA frame that carries it. *)
Definition capsule_bytes (ty : N) (value : bytes) : bytes :=
  put_varint ty ++ put_varint (lenN value) ++ value.
Definition capsule_frame (ty : N) (value : bytes) : bytes :=
  frame FRAME_DATA (capsule_bytes ty value).

Definition send_drain : Method () :=
  skip ← ses (fun s => ws_closed s || ws_drain_sent s);
  if (skip : bool) then mret ()
  else
    st ← get_stream CONNECT_ID;
    match st with
    | None => mret ()
    | Some _ =>
        _ ← push_out CONNECT_ID (mkOutChunk (capsule_frame WT_DRAIN_SESSION_CAPSULE []) 0 None);
        set_ses (fun s => s <| ws_drain_sent := true |>)
    end.

Definition queue_session_capsule (ty value : N) : Method () :=
  push_out CONNECT_ID (mkOutChunk (capsule_frame ty (put_varint value)) 0 None).

(** ** Flushing one stream *)

(** Settle every queued write of a stopped stream. *)
Fixpoint ack_all (out : list OutChunk) : Method () :=
  match out with
  | [] => mret ()
  | chunk :: out =>
      _ ← match oc_request_id chunk with
          | Some rid => push_ev (EvWriteAck rid)
          | None => mret ()
          end;
      ack_all out
  end.

(** How much of the front chunk may be offered: payload is held to the peer's
    data limit when session flow control is in use. *)
Definition send_amount (enforce is_payload : bool) (remaining_len : nat) (wt_sent : N)
    (s : WtSession) : nat :=
  let allowance := ws_fc_max_data_remote s - saturating_add64 (ws_fc_data_sent s) wt_sent in
  if enforce && is_payload then N.to_nat (N.min (N.of_nat remaining_len) allowance)
  else remaining_len.

(** The front chunk of a stream's queue is offered to QUIC: whether the loop
    goes on, and the payload bytes handed over so far in this flush. *)
Definition send_front (id : N) (enforce is_wt : bool) (front : OutChunk) (rest : list OutChunk)
    (wt_sent : N) : Method (bool * N) :=
  let remaining_len := (length (oc_data front) - oc_off front)%nat in
  let is_payload := is_wt && bool_decide (is_Some (oc_request_id front)) in
  amount ← ses (send_amount enforce is_payload remaining_len wt_sent);
  if (amount =? 0)%nat && negb (remaining_len =? 0)%nat then mret (false, wt_sent)
  else if negb (oc_off front + amount <=? length (oc_data front))%nat then panic
  else
    r ← conn (fun c => stream_send c id (take amount (drop (oc_off front) (oc_data front))) false);
    match r with
    | Ok sent =>
        let wt_sent := if (is_payload : bool) then add64 wt_sent (N.of_nat sent) else wt_sent in
        _ ← when is_payload (with_stream id (fun st =>
              st <| st_send_payload ::= fun n => add64 n (N.of_nat sent) |>));
        let off := (oc_off front + sent)%nat in
        _ ← (if (length (oc_data front) <=? off)%nat then
               _ ← with_stream id (fun st => st <| st_out := rest |>);
               match oc_request_id front with
               | Some rid => push_ev (EvWriteAck rid)
               | None => mret ()
               end
             else with_stream id (fun st => st <| st_out := front <| oc_off := off |> :: rest |>));
        mret (negb (sent <? remaining_len)%nat, wt_sent)
    | Err (StreamStopped code) =>
        _ ← push_ev (EvStreamStopSending id (default code (http_code_to_webtransport_code code)));
        _ ← ack_all (front :: rest);
        _ ← with_stream id (fun st => st <| st_out := [] |> <| st_fin_sent := true |>);
        mret (false, wt_sent)
    | Err _ => mret (false, wt_sent)
    end.

(** The [while let Some(front)] loop: whether the code goes on to the FIN. *)
Fixpoint flush_loop (fuel : nat) (id : N) (enforce is_wt : bool) (wt_sent : N)
    : Method (bool * N) :=
  match fuel with
  | O => panic
  | S fuel =>
      st ← get_stream id;
      st ← unwrap st;
      match st_out st with
      | [] => mret (true, wt_sent)
      | front :: rest =>
          '(go_on, wt_sent) ← send_front id enforce is_wt front rest wt_sent;
          if (go_on : bool) then flush_loop fuel id enforce is_wt wt_sent
          else mret (false, wt_sent)
      end
  end.

Definition flush_stream (id : N) (wt_sent : N) : Method N :=
  _ ← reconcile_send_final_size id;
  st ← get_stream id;
  match st with
  | None => mret wt_sent
  | Some st =>
      enforce ← ses uses_session_flow_control;
      '(go_on, wt_sent) ←
        flush_loop (S (length (st_out st))) id enforce (is_wt_data (st_role st)) wt_sent;
      if negb go_on then mret wt_sent
      else
        st ← get_stream id;
        match st with
        | None => mret wt_sent
        | Some st =>
            if bool_decide (st_out st = []) && st_fin_queued st && negb (st_fin_sent st) then
              r ← conn (fun c => stream_send c id [] true);
              _ ← match r with
                  | Ok _ => with_stream id (fun st => st <| st_fin_sent := true |>)
                  | Err _ => mret ()
                  end;
              mret wt_sent
            else mret wt_sent
        end
  end.

Fixpoint flush_streams (ids : list N) (wt_sent : N) : Method N :=
  match ids with
  | [] => mret wt_sent
  | id :: ids =>
      wt_sent ← flush_stream id wt_sent;
      flush_streams ids wt_sent
  end.

(** ** The flush *)

Definition flush_terminal_error : Method () :=
  e ← ses ws_terminal_error;
  match e with
  | Some (code, message) =>
      _ ← set_ses (fun s => s <| ws_terminal_error := None |>);
      conn_ (fun c => conn_close c true code message)
  | None => mret ()
  end.

Definition grant_credit : Method () :=
  due ← ses (fun s => ws_ready s && negb (ws_fc_credit_granted s) && negb (ws_closed s));
  when due (
    _ ← set_ses (fun s => s <| ws_fc_credit_granted := true |>
          <| ws_fc_max_data_local := WT_GRANT_MAX_DATA |>
          <| ws_fc_max_streams_local := (WT_GRANT_MAX_STREAMS, WT_GRANT_MAX_STREAMS) |>);
    _ ← queue_session_capsule WT_MAX_DATA_CAPSULE WT_GRANT_MAX_DATA;
    _ ← queue_session_capsule WT_MAX_STREAMS_BIDI_CAPSULE WT_GRANT_MAX_STREAMS;
    queue_session_capsule WT_MAX_STREAMS_UNI_CAPSULE WT_GRANT_MAX_STREAMS).

(** The new limit when less than half of a grant is left, if it is larger. *)
Definition replenished (limit received grant ceiling : N) : option N :=
  if limit - received <=? grant / 2 then
    let next := N.min (saturating_add64 received grant) ceiling in
    if limit <? next then Some next else None
  else None.

Definition replenish_data : Method () :=
  next ← ses (fun s =>
    replenished (ws_fc_max_data_local s) (ws_fc_data_received s) WT_GRANT_MAX_DATA
      (N.shiftl 1 62 - 1));
  match next with
  | Some limit =>
      _ ← set_ses (fun s => s <| ws_fc_max_data_local := limit |>);
      queue_session_capsule WT_MAX_DATA_CAPSULE limit
  | None => mret ()
  end.

Definition replenish_streams (bidi : bool) : Method () :=
  next ← ses (fun s =>
    replenished (at_dir bidi (ws_fc_max_streams_local s)) (at_dir bidi (ws_fc_streams_received s))
      WT_GRANT_MAX_STREAMS (N.shiftl 1 60));
  match next with
  | Some limit =>
      _ ← set_ses (fun s => s <| ws_fc_max_streams_local ::= update_dir bidi (fun _ => limit) |>);
      queue_session_capsule
        (if bidi then WT_MAX_STREAMS_BIDI_CAPSULE else WT_MAX_STREAMS_UNI_CAPSULE) limit
  | None => mret ()
  end.

Definition replenish_credit : Method () :=
  due ← ses (fun s =>
    ws_ready s && ws_fc_credit_granted s && uses_session_flow_control s && negb (ws_closed s));
  when due (
    _ ← replenish_data;
    _ ← replenish_streams false;
    replenish_streams true).

Definition queue_close_capsule : Method () :=
  req ← ses ws_close_req;
  match req with
  | Some req =>
      if cr_capsule_queued req then mret ()
      else
        _ ← set_ses (fun s => s <| ws_close_req :=
              Some (mkCloseReq (cr_code req) (cr_reason req) true) |>);
        st ← get_stream CONNECT_ID;
        match st with
        | Some _ =>
            let body := capsule_frame WT_CLOSE_SESSION_CAPSULE (be32 (cr_code req) ++ cr_reason req) in
            _ ← push_out CONNECT_ID (mkOutChunk body 0 None);
            with_stream CONNECT_ID (fun st => st <| st_fin_queued := true |>)
        | None =>
            set_ses (fun s => s <| ws_want_quic_close := Some (cr_code req, cr_reason req) |>)
        end
  | None => mret ()
  end.

(** *** Blocked signals *)

(** A WebTransport stream has unsent application data. *)
Definition has_pending_payload (s : WtSession) : bool :=
  existsb (fun '(_, st) =>
    is_wt_data (st_role st) && existsb (fun c => bool_decide (is_Some (oc_request_id c))) (st_out st))
    (map_to_list (ws_streams s)).

Definition data_blocked_due (s : WtSession) : bool :=
  (ws_fc_max_data_remote s <=? ws_fc_data_sent s) &&
  negb (bool_decide (ws_data_blocked_at s = Some (ws_fc_max_data_remote s))) &&
  has_pending_payload s.

Definition signal_data_blocked : Method () :=
  due ← ses data_blocked_due;
  when due (
    limit ← ses ws_fc_max_data_remote;
    _ ← queue_session_capsule WT_DATA_BLOCKED_CAPSULE limit;
    set_ses (fun s => s <| ws_data_blocked_at := Some limit |>)).

Definition streams_blocked_at (bidi : bool) (s : WtSession) : option N :=
  if bidi then ws_streams_bidi_blocked_at s else ws_streams_uni_blocked_at s.

Definition streams_blocked_due (bidi : bool) (s : WtSession) : bool :=
  let opened := sub64 (next_id bidi s) (first_id (ws_is_server s) bidi) / 4 in
  (stream_limit bidi s <=? opened) &&
  existsb (fun o => Bool.eqb o.1 bidi) (ws_pending_opens s) &&
  negb (bool_decide (streams_blocked_at bidi s = Some (stream_limit bidi s))).

Definition signal_streams_blocked (bidi : bool) : Method () :=
  due ← ses (streams_blocked_due bidi);
  when due (
    limit ← ses (stream_limit bidi);
    _ ← queue_session_capsule
          (if bidi then WT_STREAMS_BLOCKED_BIDI_CAPSULE else WT_STREAMS_BLOCKED_UNI_CAPSULE) limit;
    set_ses (fun s =>
      if bidi then s <| ws_streams_bidi_blocked_at := Some limit |>
      else s <| ws_streams_uni_blocked_at := Some limit |>)).

Definition signal_flow_control_blocked : Method () :=
  skip ← ses (fun s => negb (uses_session_flow_control s) || ws_closed s);
  if (skip : bool) then mret ()
  else
    _ ← signal_data_blocked;
    _ ← signal_streams_blocked true;
    signal_streams_blocked false.

(** *** Pruning *)

(** The closure of [streams.retain]. *)
Definition retained (is_server : bool) (id : N) (st : Stream) : bool :=
  if (id =? CONNECT_ID) || bool_decide (st_role st = LocalControlPlane) then true
  else
    let is_uni := negb (N.land id 0x2 =? 0) in
    let our_init := if is_server then N.land id 0x1 =? 1 else N.land id 0x1 =? 0 in
    let can_recv := negb is_uni || negb our_init in
    let can_send := negb is_uni || our_init in
    let recv_done := negb can_recv || st_recv_dead st in
    let send_done := negb can_send || (st_fin_sent st && bool_decide (st_out st = [])) in
    negb (recv_done && send_done).

Fixpoint drop_streams (l : list (N * Stream)) : M Usage () :=
  match l with
  | [] => mret ()
  | (_, st) :: l => _ ← drop_stream st; drop_streams l
  end.

Definition prune_streams : Method () :=
  streams ← ses ws_streams;
  is_server ← ses ws_is_server;
  let keep := fun kv : N * Stream => retained is_server kv.1 kv.2 = true in
  _ ← set_ses (fun s => s <| ws_streams := filter keep streams |>);
  mem (drop_streams (map_to_list (filter (fun kv => ¬ keep kv) streams))).

(** *** The deferred close of the QUIC connection *)

Definition drive_quic_close : Method () :=
  issued ← ses ws_quic_close_issued;
  if (issued : bool) then mret ()
  else
    want ← ses ws_want_quic_close;
    _ ← match want with
        | Some _ => mret ()
        | None =>
            req ← ses ws_close_req;
            match req with
            | None => mret ()
            | Some req =>
                st ← get_stream CONNECT_ID;
                let connect_drained :=
                  match st with
                  | Some st => bool_decide (st_out st = []) && st_fin_sent st
                  | None => true
                  end in
                when (cr_capsule_queued req && connect_drained)
                  (set_ses (fun s => s <| ws_want_quic_close := Some (cr_code req, cr_reason req) |>))
            end
        end;
    want ← ses ws_want_quic_close;
    match want with
    | None => mret ()
    | Some _ =>
        deferred ← ses ws_close_deferred_once;
        if (deferred : bool) then
          _ ← set_ses (fun s => s <| ws_want_quic_close := None |>
                                  <| ws_quic_close_issued := true |>);
          conn_ (fun c => conn_close c true H3_NO_ERROR [])
        else set_ses (fun s => s <| ws_close_deferred_once := true |>)
    end.

(** [order] is the order in which the [HashMap] yields its keys this time. *)
Definition flush (order : list N → list N) : Method () :=
  _ ← flush_terminal_error;
  _ ← grant_credit;
  _ ← replenish_credit;
  _ ← queue_close_capsule;
  _ ← release_pending_opens;
  streams ← ses ws_streams;
  wt_sent ← flush_streams (order (map_to_list streams).*1) 0;
  _ ← set_ses (fun s => s <| ws_fc_data_sent ::= fun n => add64 n wt_sent |>);
  _ ← signal_flow_control_blocked;
  _ ← prune_streams;
  drive_quic_close.
End send.
