(* ===== verification/SessionInv.v ===== *)
(** * The session invariant

    What holds of every session between and inside its methods: the allocation
    counters account for exactly the buffers of the session (and others), a
    closed session holds no parser memory, the events pushed so far follow the
    session's lifecycle, and the bookkeeping of stream roles.  Each primitive of
    [SessionState] preserves it. *)

From S2P Require Import Prelude H3 ParserMemory FrameParser Headers Net Quic SessionState.
From S2P Require Import SessionRecv.

(** ** The lifecycle the application sees

    The state of a session as its events reveal it, and the events each state
    admits: it becomes ready at most once, drains at most once, closes exactly
    once, opens streams only in between, and delivers nothing from the peer's
    streams after it has closed. *)

Record Life := mkLife { l_closed : bool; l_drained : bool; l_ready : bool }.
#[export] Instance Life_eta : Eta Life := fun l => mkLife (l_closed l) (l_drained l) (l_ready l).

Definition life_step (l : Life) (e : Ev) : option Life :=
  match e with
  | EvClosed _ _ _ => if l_closed l then None else Some (l <| l_closed := true |>)
  | EvDraining =>
      if l_closed l || l_drained l then None else Some (l <| l_drained := true |>)
  | EvReady _ _ | EvServerReady _ _ _ _ _ _ _ _ =>
      if l_closed l || l_ready l then None else Some (l <| l_ready := true |>)
  | EvIncomingStream _ _ | EvStreamData _ _ | EvStreamFinished _ | EvStreamReset _ _ =>
      if l_closed l then None else Some l
  | EvStreamOpened _ _ => if l_closed l || negb (l_ready l) then None else Some l
  | _ => Some l
  end.

Definition lifecycle (evs : list Ev) : option Life :=
  foldl (fun o e => l ← o; life_step l e) (Some (mkLife false false false)) evs.

Definition life_of (s : WtSession) : Life :=
  mkLife (ws_closed s) (ws_drain_emitted s) (ws_ready s).

Lemma lifecycle_snoc before evs e l l' :
  lifecycle (before ++ evs) = Some l → life_step l e = Some l' →
  lifecycle (before ++ evs ++ [e]) = Some l'.
Proof. unfold lifecycle. intros H1 H2. by rewrite app_assoc, foldl_app, H1. Qed.

(** The events reported before those of the world: an event loop collects the
    events of each round in a fresh list. *)
Class History := history : list Ev.

(** Events that every state admits. *)
Definition always_admitted (e : Ev) : bool :=
  match e with
  | EvError _ | EvDatagram _ | EvStreamStopSending _ _ | EvWriteAck _ | EvDatagramAck _ _
  | EvStats _ _ _ _ _ _ _ _ _ | EvKeyingMaterial _ _ => true
  | _ => false
  end.
(** Events that an open session admits. *)
Definition while_open (e : Ev) : bool :=
  match e with
  | EvIncomingStream _ _ | EvStreamData _ _ | EvStreamFinished _ | EvStreamReset _ _ => true
  | _ => always_admitted e
  end.

Lemma always_admitted_step l e : always_admitted e = true → life_step l e = Some l.
Proof. by destruct e. Qed.
Lemma while_open_step l e : while_open e = true → l_closed l = false → life_step l e = Some l.
Proof. destruct e; cbn; try done; intros _ ->; done. Qed.

(** ** The buffers of a session *)

Definition stream_bufs (st : Stream) : list ParserBuffer := [fp_buf (st_frames st); st_class_buf st].
Definition streams_bufs (m : gmap N Stream) : list ParserBuffer :=
  map_concat stream_bufs m.
Definition ses_bufs (s : WtSession) : list ParserBuffer :=
  ws_capsule_buf s :: streams_bufs (ws_streams s).

#[global] Arguments streams_bufs : simpl never.
#[global] Arguments ses_bufs : simpl never.
#[global] Arguments stream_bufs : simpl never.

(** The session's buffers besides those of one stream. *)
Definition other_bufs (id : N) (s : WtSession) : list ParserBuffer :=
  ws_capsule_buf s :: streams_bufs (delete id (ws_streams s)).

Lemma streams_bufs_insert_new m i st :
  m !! i = None → streams_bufs (<[i := st]> m) ≡ₚ stream_bufs st ++ streams_bufs m.
Proof. apply (map_concat_insert_new stream_bufs). Qed.
Lemma streams_bufs_delete m i st :
  m !! i = Some st → streams_bufs m ≡ₚ stream_bufs st ++ streams_bufs (delete i m).
Proof. apply (map_concat_lookup stream_bufs). Qed.
Lemma streams_bufs_insert m i st :
  streams_bufs (<[i := st]> m) ≡ₚ stream_bufs st ++ streams_bufs (delete i m).
Proof. apply (map_concat_insert stream_bufs). Qed.

Lemma streams_bufs_alter m i f :
  (∀ st, stream_bufs (f st) = stream_bufs st) → streams_bufs (alter f i m) ≡ₚ streams_bufs m.
Proof.
  intros Hf. destruct (m !! i) as [st|] eqn:Hi; [|by rewrite alter_missing].
  by rewrite (alter_insert_delete m i f st Hi), streams_bufs_insert, Hf, <- streams_bufs_delete.
Qed.

(** ** The invariant *)

Definition buf_ok (pm : ParserMemory) (closed : bool) (b : ParserBuffer) : Prop :=
  pb_memory b = pm ∧ lenN (pb_data b) <= pb_capacity b ∧ (closed = true → pb_capacity b = 0).
Definition chunk_ok (c : OutChunk) : Prop := (oc_off c <= length (oc_data c))%nat.
Record stream_ok (pm : ParserMemory) (closed : bool) (st : Stream) : Prop := mkStreamOk {
  so_frames : buf_ok pm closed (fp_buf (st_frames st));
  so_class_buf : buf_ok pm closed (st_class_buf st);
  so_out : Forall chunk_ok (st_out st);
}.

(** The session stream of a server: its role never changes, and a ready
    session has seen its request. *)
Record server_ok (s : WtSession) : Prop := mkServerOk {
  sv_next_bidi : ws_next_bidi s mod 4 = 1;
  sv_next_uni : ws_next_uni s mod 4 = 3;
  sv_connect_pending : ws_connect_pending s = false;
  sv_connect st : ws_streams s !! CONNECT_ID = Some st →
    st_role st = Connect ∧ (ws_ready s = true → st_headers_done st = true);
  sv_ready : ws_ready s = true → is_Some (ws_streams s !! CONNECT_ID);
}.

Definition roles_ok (m : gmap N Stream) : Prop :=
  map_Forall (fun id st => st_role st = Connect → id = CONNECT_ID) m.

(** What a step may do to the streams: [md_keep] none is removed, [md_calm] no
    frame buffer grows. *)
Record Mode := mkMode { md_keep : bool; md_calm : bool }.

Definition frames_len (id : N) (s : WtSession) : nat :=
  match ws_streams s !! id with Some st => length (pb_data (fp_buf (st_frames st))) | None => O end.

#[global] Arguments frames_len : simpl never.

(** One step through the session's primitives. *)
Ltac ses_step :=
  lazymatch goal with
  | |- wp (ses _) _ _ => apply wp_gets
  | |- wp (get_stream _) _ _ => apply wp_gets
  | |- wp (set_ses _) _ _ => apply wp_modify
  | |- wp (push_ev _) _ _ => apply wp_modify
  | |- wp (conn_ _) _ _ => apply wp_modify
  | |- wp (mret _) _ _ => apply wp_ret
  | |- wp (mbind _ _) _ _ => apply wp_bind
  | |- wp (gets _) _ _ => apply wp_gets
  end; cbv beta.
Ltac ses_steps := repeat ses_step.

Section invariant.
Context {C : Type} {quic : Quic C} {quic_laws : QuicLaws C}.
Context {alloc : Allocator} {alloc_laws : AllocatorLaws} {hist : History}.
Context (limits : N → N) (limits_usize : ∀ i, limits i < U64).

Abbreviation Method := (M (World C)).

(** [L]: the live buffers that are not the session's own. *)
Record inv (L : list ParserBuffer) (w : World C) : Prop := mkInv {
  inv_memory : wf_memory limits (ws_parser_memory (w_ses w));
  inv_within : within limits (w_mem w);
  inv_accounted : accounted (w_mem w) (ses_bufs (w_ses w) ++ L);
  inv_capsule : buf_ok (ws_parser_memory (w_ses w)) (ws_closed (w_ses w)) (ws_capsule_buf (w_ses w));
  inv_streams : map_Forall (fun _ st =>
    stream_ok (ws_parser_memory (w_ses w)) (ws_closed (w_ses w)) st) (ws_streams (w_ses w));
  inv_life : lifecycle (history ++ w_ev w) = Some (life_of (w_ses w));
  inv_roles : roles_ok (ws_streams (w_ses w));
  inv_server : ws_is_server (w_ses w) = true → server_ok (w_ses w);
}.

Record evolves (md : Mode) (w0 w : World C) : Prop := mkEvolves {
  evo_closed : ws_closed (w_ses w0) = true → ws_closed (w_ses w) = true;
  evo_memory : ws_parser_memory (w_ses w) = ws_parser_memory (w_ses w0);
  evo_server : ws_is_server (w_ses w) = ws_is_server (w_ses w0);
  evo_bound id : (recv_bound (w_conn w) id <= recv_bound (w_conn w0) id)%nat;
  evo_keep id : md_keep md = true →
    is_Some (ws_streams (w_ses w0) !! id) → is_Some (ws_streams (w_ses w) !! id);
  evo_calm id : md_calm md = true → (frames_len id (w_ses w) <= frames_len id (w_ses w0))%nat;
}.

#[export] Instance evolves_preorder md : PreOrder (evolves md).
Proof.
  split; [by constructor|].
  intros w1 w2 w3 [c1 m1 s1 b1 k1 l1] [c2 m2 s2 b2 k2 l2].
  constructor; try congruence; [auto|intros id..].
  - specialize (b1 id). specialize (b2 id). lia.
  - auto.
  - intros Hmd. specialize (l1 id Hmd). specialize (l2 id Hmd). lia.
Qed.

(** The invariant, and how far the world has come since [w0]. *)
Definition good (md : Mode) (w0 : World C) (L : list ParserBuffer) (w : World C) : Prop :=
  inv L w ∧ evolves md w0 w.

Lemma good_start md L w : inv L w → good md w L w.
Proof. intros H. split; [done|reflexivity]. Qed.

Lemma good_trans md md' w0 w1 L L' w2 :
  good md w0 L w1 → good md' w1 L' w2 →
  (md_keep md = true → md_keep md' = true) → (md_calm md = true → md_calm md' = true) →
  good md w0 L' w2.
Proof.
  intros [_ [c1 m1 s1 b1 k1 l1]] [H2 [c2 m2 s2 b2 k2 l2]] Hk Hc. split; [done|].
  constructor; try congruence; [auto|intros id..].
  - specialize (b1 id). specialize (b2 id). lia.
  - auto.
  - intros Hmd. specialize (l1 id Hmd). specialize (l2 id (Hc Hmd)). lia.
Qed.

Lemma inv_perm L L' w : L ≡ₚ L' → inv L w → inv L' w.
Proof. intros HP []. constructor; auto. by rewrite <- HP. Qed.

Lemma good_perm md w0 L L' w : L ≡ₚ L' → good md w0 L w → good md w0 L' w.
Proof. intros HP [H ?]. split; [by eapply inv_perm|done]. Qed.

(** ** Primitive steps *)

Lemma wp_mem {A} (m : M Usage A) Q (w : World C) :
  wp m (fun a u => Q a (w <| w_mem := u |>)) (w_mem w) → wp (mem m) Q w.
Proof. unfold wp, mem. by destruct (m (w_mem w)) as [[a u]|]. Qed.

Lemma wp_conn {A} (f : C → A * C) Q (w : World C) :
  Q (f (w_conn w)).1 (w <| w_conn := (f (w_conn w)).2 |>) → wp (conn f) Q w.
Proof. unfold wp, conn. by destruct (f (w_conn w)). Qed.

(** An event the current state admits. *)
Lemma good_push md w0 L w e :
  life_step (life_of (w_ses w)) e = Some (life_of (w_ses w)) →
  good md w0 L w → good md w0 L (w <| w_ev ::= fun l => l ++ [e] |>).
Proof.
  intros He [[] []]. split; constructor; auto. by eapply lifecycle_snoc.
Qed.

Lemma push_always md w0 L w e :
  always_admitted e = true → good md w0 L w →
  wp (push_ev e) (fun _ w' => good md w0 L w' ∧ w_ses w' = w_ses w) w.
Proof.
  intros He Hg. apply wp_modify. split; [|done].
  apply good_push; [by apply always_admitted_step|done].
Qed.

Lemma push_open md w0 L w e :
  while_open e = true → ws_closed (w_ses w) = false → good md w0 L w →
  wp (push_ev e) (fun _ w' => good md w0 L w' ∧ w_ses w' = w_ses w) w.
Proof.
  intros He Hc Hg. apply wp_modify. split; [|done].
  apply good_push; [by apply while_open_step|done].
Qed.

(** What the invariant reads of a session. *)
Definition core (s : WtSession) :=
  (ws_is_server s, life_of s, ws_capsule_buf s, ws_parser_memory s, ws_streams s,
   (ws_next_bidi s, ws_next_uni s, ws_connect_pending s)).

Lemma good_set md w0 L w f :
  core (f (w_ses w)) = core (w_ses w) →
  good md w0 L w → good md w0 L (w <| w_ses ::= f |>).
Proof.
  unfold core, life_of. intros E. injection E as E1 E2 E3 E4 E5 E6 E7 E8 E9 E10.
  intros [[i1 i2 i3 i4 i5 i6 i7 i8] [e1 e2 e3 e4 e5 e6]]. split; constructor;
    change (w_ses (w <| w_ses ::= f |>)) with (f (w_ses w)); try done;
    unfold life_of, ses_bufs, frames_len, roles_ok in *;
    rewrite ?E1, ?E2, ?E3, ?E4, ?E5, ?E6, ?E7; try done.
  intros Hs. destruct (i8 Hs). constructor; rewrite ?E4, ?E7, ?E8, ?E9, ?E10; done.
Qed.

Lemma set_ses_good md w0 L w f :
  (∀ s, core (f s) = core s) → good md w0 L w →
  wp (set_ses f) (fun _ w' => good md w0 L w' ∧ w' = w <| w_ses ::= f |>) w.
Proof. intros Hf Hg. apply wp_modify. split; [|done]. by apply good_set. Qed.

(** Rewriting the entry of one stream, if present.  [bufs_of] gives the new
    state of the counters: the buffers of the stream may have changed. *)
Definition streams_set (w : World C) (id : N) (st : Stream) (u : Usage) : World C :=
  w <| w_ses ::= fun s => s <| ws_streams ::= <[id := st]> |> |> <| w_mem := u |>.

Lemma ses_bufs_insert id st (s s' : WtSession) :
  ws_streams s' = <[id := st]> (ws_streams s) → ws_capsule_buf s' = ws_capsule_buf s →
  ses_bufs s' ≡ₚ stream_bufs st ++ other_bufs id s.
Proof.
  intros E1 E2. unfold ses_bufs, other_bufs. rewrite E1, E2, streams_bufs_insert.
  apply Permutation_middle.
Qed.

Lemma ses_bufs_lookup id st s :
  ws_streams s !! id = Some st → ses_bufs s ≡ₚ stream_bufs st ++ other_bufs id s.
Proof.
  intros Hi. unfold ses_bufs, other_bufs. rewrite (streams_bufs_delete _ id st Hi).
  apply Permutation_middle.
Qed.

Lemma good_update md w0 L L' w id st st' u :
  ws_streams (w_ses w) !! id = Some st →
  good md w0 L w →
  within limits u →
  accounted u (stream_bufs st' ++ other_bufs id (w_ses w) ++ L') →
  stream_ok (ws_parser_memory (w_ses w)) (ws_closed (w_ses w)) st' →
  (st_role st' = Connect → id = CONNECT_ID) →
  (ws_is_server (w_ses w) = true → id = CONNECT_ID →
     st_role st' = Connect ∧ (ws_ready (w_ses w) = true → st_headers_done st' = true)) →
  (md_calm md = true →
     (length (pb_data (fp_buf (st_frames st'))) <= length (pb_data (fp_buf (st_frames st))))%nat) →
  good md w0 L' (streams_set w id st' u).
Proof.
  intros Hi [[i1 i2 i3 i4 i5 i6 i7 i8] [e1 e2 e3 e4 e5 e6]] Hu Ha Hok Hrole Hsrv Hcalm.
  split; constructor; cbn; try done.
  - rewrite (ses_bufs_insert id st' (w_ses w)) by done. by rewrite <- app_assoc.
  - by apply map_Forall_insert_2.
  - by apply map_Forall_insert_2.
  - intros Hs. destruct (i8 Hs) as [s1 s2 s3 s4 s5]. constructor; cbn; try done.
    + intros st1. rewrite lookup_insert. case_decide as Hid; [|apply s4].
      intros [= <-]. by apply Hsrv.
    + intros Hr. rewrite lookup_insert. case_decide; [done|auto].
  - intros j Hk Hj. rewrite lookup_insert. case_decide; [done|auto].
  - intros j Hc. specialize (e6 j Hc). unfold frames_len in *. cbn. rewrite lookup_insert.
    case_decide; [|done]. subst. rewrite Hi in e6. specialize (Hcalm Hc). lia.
Qed.

Lemma streams_set_alter (w : World C) u id f st :
  ws_streams (w_ses w) !! id = Some st →
  w <| w_mem := u |> <| w_ses ::= fun s => s <| ws_streams ::= alter f id |> |> =
  streams_set w id (f st) u.
Proof.
  intros Hi. destruct w as [s c u0 e]. destruct s. cbn in Hi. unfold streams_set, upd. cbn.
  by rewrite (alter_insert_delete _ id f st).
Qed.

Lemma world_same_mem (w : World C) : w <| w_mem := w_mem w |> = w.
Proof. by destruct w. Qed.

(** The parts of a stream the invariant reads, besides its queue. *)
Definition stream_core (st : Stream) :=
  (st_role st, st_class_buf st, st_frames st, st_headers_done st).

Lemma streams_alter_missing (w : World C) id f :
  ws_streams (w_ses w) !! id = None →
  w <| w_ses ::= fun s => s <| ws_streams ::= alter f id |> |> = w.
Proof.
  intros Hi. destruct w as [s c u0 e]. destruct s. cbn in Hi. unfold upd. cbn.
  by rewrite alter_missing.
Qed.

Lemma with_stream_good md w0 L w id f :
  (∀ st, stream_core (f st) = stream_core st) →
  (∀ st, ws_streams (w_ses w) !! id = Some st → Forall chunk_ok (st_out st) →
     Forall chunk_ok (st_out (f st))) →
  good md w0 L w →
  wp (with_stream id f) (fun _ w' => good md w0 L w' ∧
    w' = w <| w_ses ::= fun s => s <| ws_streams ::= alter f id |> |>) w.
Proof.
  intros Hf Hout Hg. apply wp_modify. split; [|done].
  destruct (ws_streams (w_ses w) !! id) as [st|] eqn:Hi; [|by rewrite streams_alter_missing].
  rewrite <- (world_same_mem w) at 1. rewrite (streams_set_alter w _ id f st Hi).
  specialize (Hf st) as E. unfold stream_core in E. injection E as E1 E2 E3 E4.
  pose proof Hg as [[] _]. destruct (inv_streams0 id st Hi).
  eapply good_update; [done|exact Hg|done|..].
  - eapply accounted_proper; [reflexivity| |exact inv_accounted0].
    rewrite (ses_bufs_lookup id st) by done. unfold stream_bufs. rewrite E2, E3.
    by rewrite <- app_assoc.
  - constructor; rewrite ?E2, ?E3; auto.
  - rewrite E1. by apply (inv_roles0 id st).
  - intros Hs ->. rewrite E1, E4. by apply (sv_connect _ (inv_server0 Hs) st).
  - by rewrite E3.
Qed.

Lemma get_stream_spec id Q (w : World C) :
  Q (ws_streams (w_ses w) !! id) w → wp (get_stream id) Q w.
Proof. done. Qed.

Definition stream_role (id : N) (w : World C) : option Role :=
  st_role <$> ws_streams (w_ses w) !! id.

(** A buffer of stream [id] of a good world, taken out of the account. *)
Lemma good_stream md w0 L w id st :
  good md w0 L w → ws_streams (w_ses w) !! id = Some st →
  stream_ok (ws_parser_memory (w_ses w)) (ws_closed (w_ses w)) st ∧
  accounted (w_mem w) (stream_bufs st ++ other_bufs id (w_ses w) ++ L).
Proof.
  intros [[] _] Hi. split; [by apply (inv_streams0 id)|].
  eapply accounted_proper; [reflexivity| |exact inv_accounted0].
  rewrite (ses_bufs_lookup id st) by done. by rewrite <- app_assoc.
Qed.

Lemma buf_ok_wf md w0 L w b :
  good md w0 L w → buf_ok (ws_parser_memory (w_ses w)) (ws_closed (w_ses w)) b → wf_buffer limits b.
Proof. intros [[] _] (E & Hc & _). split; [by rewrite E|done]. Qed.

(** Facts a step leaves alone: everything but one stream's buffers. *)
Definition same_flags (w w' : World C) : Prop :=
  core ((w_ses w') <| ws_streams := ∅ |>) = core ((w_ses w) <| ws_streams := ∅ |>) ∧
  w_conn w' = w_conn w ∧ w_ev w' = w_ev w.

Lemma same_flags_streams_set w id st u : same_flags w (streams_set w id st u).
Proof. done. Qed.

Lemma same_flags_closed w w' : same_flags w w' → ws_closed (w_ses w') = ws_closed (w_ses w).
Proof. intros (E & _). by injection E. Qed.
Lemma same_flags_server w w' : same_flags w w' → ws_is_server (w_ses w') = ws_is_server (w_ses w).
Proof. intros (E & _). by injection E. Qed.
Lemma same_flags_ready w w' : same_flags w w' → ws_ready (w_ses w') = ws_ready (w_ses w).
Proof. intros (E & _). by injection E. Qed.

(** *** Buffers of a stream *)

Lemma frames_push_good md w0 L w id chunk :
  md_calm md = false → ws_closed (w_ses w) = false → good md w0 L w →
  wp (frames_push id chunk) (fun _ w' => good md w0 L w' ∧ same_flags w w') w.
Proof.
  intros Hmd Hopen Hg. unfold frames_push. apply wp_bind, get_stream_spec.
  destruct (ws_streams (w_ses w) !! id) as [st|] eqn:Hi; [|by apply wp_ret].
  destruct (good_stream _ _ _ _ _ _ Hg Hi) as [[Hf Hc Ho] Ha].
  apply wp_bind, wp_mem.
  eapply wp_mono; [apply (push_spec limits limits_usize (st_frames st) chunk
    ([st_class_buf st] ++ other_bufs id (w_ses w) ++ L))|].
  { split; [by eapply buf_ok_wf|]. split; [apply Hg|done]. }
  intros f u ((Hwf & Hu & Ha') & Hm & _). apply wp_modify.
  rewrite (streams_set_alter w u id _ st Hi). split; [|apply same_flags_streams_set].
  pose proof Hg as [[] _]. eapply good_update; [done|exact Hg|done|exact Ha'|..]; cbn.
  - constructor; cbn; [|done|done]. destruct Hf as (? & _ & _).
    rewrite Hopen. split; [congruence|]. split; [apply Hwf|done].
  - by apply (inv_roles0 id st).
  - intros Hs ->. by apply (sv_connect _ (inv_server0 Hs) st).
  - by rewrite Hmd.
Qed.

(** Putting back the parser of a stream of an open session. *)
Lemma good_parser md w0 L L' (w : World C) id st f u :
  ws_closed (w_ses w) = false → good md w0 L w → ws_streams (w_ses w) !! id = Some st →
  parser_inv limits f ([st_class_buf st] ++ other_bufs id (w_ses w) ++ L') u →
  pb_memory (fp_buf f) = pb_memory (fp_buf (st_frames st)) →
  (length (pb_data (fp_buf f)) <= length (pb_data (fp_buf (st_frames st))))%nat →
  good md w0 L' (streams_set w id (st <| st_frames := f |>) u).
Proof.
  intros Hopen Hg Hi (Hwf & Hu & Ha') Hm Hlen.
  destruct (good_stream _ _ _ _ _ _ Hg Hi) as [[Hf Hc Ho] _]. pose proof Hg as [[] _].
  eapply good_update; [done|exact Hg|done|exact Ha'|..]; cbn.
  - constructor; cbn; [|done|done]. destruct Hf as (? & _ & _).
    rewrite Hopen. split; [congruence|]. split; [apply Hwf|done].
  - by apply (inv_roles0 id st).
  - intros Hs ->. by apply (sv_connect _ (inv_server0 Hs) st).
  - done.
Qed.

(** A popped payload is a live buffer of its own, charged to the session. *)
Lemma frames_next_good md w0 L w id :
  ws_closed (w_ses w) = false → good md w0 L w →
  wp (frames_next id) (fun o w' => same_flags w w' ∧
    match o with
    | None => good md w0 L w'
    | Some (_, payload) =>
        good md w0 (payload :: L) w' ∧ wf_buffer limits payload ∧
        (∃ st st', ws_streams (w_ses w) !! id = Some st ∧ ws_streams (w_ses w') !! id = Some st' ∧
           st_role st' = st_role st ∧ st_headers_done st' = st_headers_done st) ∧
        (frames_len id (w_ses w') < frames_len id (w_ses w))%nat
    end) w.
Proof.
  intros Hopen Hg. unfold frames_next. apply wp_bind, get_stream_spec.
  destruct (ws_streams (w_ses w) !! id) as [st|] eqn:Hi; [|by apply wp_ret].
  destruct (good_stream _ _ _ _ _ _ Hg Hi) as [[Hf Hc Ho] Ha].
  pose proof (buf_ok_wf _ _ _ _ _ Hg Hf) as Hwf0.
  pose proof Hg as [[] _].
  pose proof (fun L' f u => good_parser md w0 L L' w id st f u Hopen Hg Hi) as Hupd.
  assert (Hinv : parser_inv limits (st_frames st)
    ([st_class_buf st] ++ other_bufs id (w_ses w) ++ L) (w_mem w))
    by (split; [done|]; split; [apply Hg|exact Ha]).
  apply wp_bind, wp_mem. destruct (fp_error (st_frames st)) eqn:Ef.
  { unfold next_frame. rewrite Ef. apply wp_ret. cbv beta. apply wp_bind, wp_modify, wp_ret.
    rewrite (streams_set_alter w _ id _ st Hi). split; [apply same_flags_streams_set|].
    apply Hupd; done. }
  eapply wp_mono; [apply (next_frame_spec limits limits_usize (st_frames st) _ _ Hinv Ef)|].
  intros [o f] u [Hm Hcase]. cbv beta. apply wp_bind, wp_modify, wp_ret.
  rewrite (streams_set_alter w u id _ st Hi). split; [apply same_flags_streams_set|].
  destruct (parse_frame (pb_data (fp_buf (st_frames st)))) as [| |ty p rest] eqn:Ep.
  - destruct Hcase as (-> & -> & Hp). by apply Hupd.
  - destruct Hcase as (-> & _ & Hb & Hp). apply Hupd; try done. by rewrite Hb.
  - destruct Hcase as [(-> & _ & Hb & Hp)|(payload & -> & Hpd & Hpm & Hd & _ & Hpw & Hp)].
    { apply Hupd; try done. by rewrite Hb. }
    apply parse_frame_shrinks in Ep.
    split; [|split; [done|split]].
    + apply Hupd; try done; [|rewrite Hd; lia].
      destruct Hp as (? & ? & Hp). split; [done|]. split; [done|].
      eapply accounted_proper; [reflexivity| |exact Hp].
      rewrite !app_assoc. f_equiv. symmetry. apply Permutation_middle.
    + exists st, (st <| st_frames := f |>). split; [done|]. cbn.
      by rewrite lookup_insert, decide_True.
    + unfold frames_len. cbn. rewrite lookup_insert, decide_True, Hi by done. cbn.
      rewrite Hd. lia.
Qed.

(** A payload leaves scope. *)
Lemma buf_drop_good md w0 L w b :
  wf_buffer limits b → good md w0 (b :: L) w →
  wp (mem (buf_drop b)) (fun _ w' => good md w0 L w' ∧ w_ses w' = w_ses w ∧
    w_conn w' = w_conn w ∧ w_ev w' = w_ev w) w.
Proof.
  intros Hb [[] Hevo]. apply wp_mem. unfold buf_drop, wp.
  rewrite <- Permutation_middle in inv_accounted0.
  destruct (drop_buffer_accounted limits limits_usize b _ _ Hb inv_within0 inv_accounted0).
  split; [|done]. destruct Hevo. split; constructor; done.
Qed.

(** Clearing one of a stream's buffers. *)
Lemma cleared_ok pm closed b u b' u' :
  clear b u = (b', u') → buf_ok pm closed b → buf_ok pm closed b' ∧ pb_data b' = [] ∧ pb_capacity b' = 0.
Proof. unfold clear. intros [= <- <-] (? & ? & ?). done. Qed.

Lemma class_buf_clear_good md w0 L w id :
  good md w0 L w →
  wp (class_buf_clear id) (fun _ w' => good md w0 L w' ∧ same_flags w w' ∧
    ∀ j, stream_role j w' = stream_role j w) w.
Proof.
  intros Hg. unfold class_buf_clear. apply wp_bind, get_stream_spec.
  destruct (ws_streams (w_ses w) !! id) as [st|] eqn:Hi; [|by apply wp_ret].
  destruct (good_stream _ _ _ _ _ _ Hg Hi) as [[Hf Hc Ho] Ha].
  pose proof (buf_ok_wf _ _ _ _ _ Hg Hc) as Hwf. pose proof Hg as [[] _].
  apply wp_bind, wp_mem. unfold buf_clear, wp at 1.
  assert (Ha1 : accounted (w_mem w) (st_class_buf st :: [fp_buf (st_frames st)] ++ other_bufs id (w_ses w) ++ L))
    by (eapply accounted_proper; [reflexivity| |exact Ha]; apply Permutation_swap).
  pose proof (clear_accounted limits limits_usize _ _ _ Hwf inv_within0 Ha1) as Hcl.
  destruct (clear (st_class_buf st) (w_mem w)) as [b u] eqn:E.
  destruct Hcl as (Hu & _ & Ha2 & _). destruct (cleared_ok _ _ _ _ _ _ E Hc) as (Hb & _).
  apply wp_modify. rewrite (streams_set_alter w u id _ st Hi).
  split; [|split; [apply same_flags_streams_set|]].
  - eapply good_update; [done|exact Hg|done|..]; cbn.
    + eapply accounted_proper; [reflexivity| |exact Ha2]. apply Permutation_swap.
    + by constructor.
    + by apply (inv_roles0 id st).
    + intros Hs ->. by apply (sv_connect _ (inv_server0 Hs) st).
    + done.
  - intros j. unfold stream_role. cbn. rewrite lookup_insert. case_decide; [subst|done].
    by rewrite Hi.
Qed.

Lemma frames_clear_good md w0 L w id :
  good md w0 L w →
  wp (frames_clear id) (fun _ w' => good md w0 L w' ∧ same_flags w w') w.
Proof.
  intros Hg. unfold frames_clear. apply wp_bind, get_stream_spec.
  destruct (ws_streams (w_ses w) !! id) as [st|] eqn:Hi; [|by apply wp_ret].
  destruct (good_stream _ _ _ _ _ _ Hg Hi) as [[Hf Hc Ho] Ha].
  pose proof (buf_ok_wf _ _ _ _ _ Hg Hf) as Hwf. pose proof Hg as [[] _].
  apply wp_bind, wp_mem. unfold buf_clear, wp at 1.
  pose proof (clear_accounted limits limits_usize _ _ _ Hwf inv_within0 Ha) as Hcl.
  destruct (clear (fp_buf (st_frames st)) (w_mem w)) as [b u] eqn:E.
  destruct Hcl as (Hu & _ & Ha2 & _). destruct (cleared_ok _ _ _ _ _ _ E Hf) as (Hb & Hd & _).
  apply wp_modify. rewrite (streams_set_alter w u id _ st Hi).
  split; [|apply same_flags_streams_set].
  eapply good_update; [done|exact Hg|done|exact Ha2|..]; cbn.
  - by constructor.
  - by apply (inv_roles0 id st).
  - intros Hs ->. by apply (sv_connect _ (inv_server0 Hs) st).
  - rewrite Hd. cbn. lia.
Qed.

(** *** Streams appear, change role and disappear *)

Lemma good_insert_new md w0 L w id st :
  ws_streams (w_ses w) !! id = None →
  good md w0 L w →
  fp_buf (st_frames st) = new_buffer (ws_parser_memory (w_ses w)) →
  st_class_buf st = new_buffer (ws_parser_memory (w_ses w)) →
  Forall chunk_ok (st_out st) →
  (st_role st = Connect → id = CONNECT_ID) →
  (ws_is_server (w_ses w) = true → id = CONNECT_ID →
     st_role st = Connect ∧ (ws_ready (w_ses w) = true → st_headers_done st = true)) →
  good md w0 L (streams_set w id st (w_mem w)).
Proof.
  intros Hi [[i1 i2 i3 i4 i5 i6 i7 i8] [e1 e2 e3 e4 e5 e6]] Hf Hc Ho Hrole Hsrv.
  split; constructor; cbn; try done.
  - assert (E : ses_bufs ((w_ses w) <| ws_streams ::= <[id:=st]> |>) ≡ₚ
      stream_bufs st ++ ses_bufs (w_ses w)).
    { unfold ses_bufs. cbn. rewrite streams_bufs_insert_new by done. apply Permutation_middle. }
    rewrite E. unfold stream_bufs. rewrite Hf, Hc.
    by apply new_buffer_accounted, new_buffer_accounted.
  - apply map_Forall_insert_2; [|done]. by constructor; [rewrite Hf|rewrite Hc|].
  - by apply map_Forall_insert_2.
  - intros Hs. destruct (i8 Hs) as [s1 s2 s3 s4 s5]. constructor; cbn; try done.
    + intros st1. rewrite lookup_insert. case_decide as Hid; [|apply s4].
      intros [= <-]. by apply Hsrv.
    + intros Hr. rewrite lookup_insert. case_decide; [done|auto].
  - intros j Hk Hj. rewrite lookup_insert. case_decide; [done|auto].
  - intros j Hcalm. specialize (e6 j Hcalm). unfold frames_len in *. cbn. rewrite lookup_insert.
    case_decide; [|done]. rewrite Hf. cbn. lia.
Qed.

(** Dropping the buffers of a stream that has left the map. *)
Lemma drop_stream_accounted pm closed st u L :
  wf_memory limits pm → stream_ok pm closed st → within limits u → accounted u (stream_bufs st ++ L) →
  wp (drop_stream st) (fun _ v => within limits v ∧ accounted v L) u.
Proof.
  intros Hpm [(Hf1 & Hf2 & _) (Hc1 & Hc2 & _) _] Hu Ha. unfold drop_stream, buf_drop.
  apply wp_bind. unfold wp at 1. cbn in Ha.
  assert (Ha1 : accounted u (st_class_buf st :: fp_buf (st_frames st) :: L))
    by (eapply accounted_proper; [reflexivity| |exact Ha]; apply Permutation_swap).
  destruct (drop_buffer_accounted limits limits_usize (st_class_buf st) u
    (fp_buf (st_frames st) :: L)) as [H1 H2]; [by split; [rewrite Hc1|]|done|exact Ha1|].
  unfold wp. by apply (drop_buffer_accounted limits limits_usize); [split; [rewrite Hf1|]|..].
Qed.

Lemma insert_stream_good md w0 L w id st :
  good md w0 L w →
  fp_buf (st_frames st) = new_buffer (ws_parser_memory (w_ses w)) →
  st_class_buf st = new_buffer (ws_parser_memory (w_ses w)) →
  Forall chunk_ok (st_out st) →
  (st_role st = Connect → id = CONNECT_ID) →
  (ws_is_server (w_ses w) = true → id = CONNECT_ID →
     st_role st = Connect ∧ (ws_ready (w_ses w) = true → st_headers_done st = true)) →
  wp (insert_stream id st) (fun _ w' => good md w0 L w' ∧ same_flags w w' ∧
    ws_streams (w_ses w') = <[id := st]> (ws_streams (w_ses w))) w.
Proof.
  intros Hg Hf Hc Ho Hrole Hsrv. unfold insert_stream. apply wp_bind, get_stream_spec.
  apply wp_bind, wp_modify. destruct (ws_streams (w_ses w) !! id) as [old|] eqn:Hi.
  - destruct (good_stream _ _ _ _ _ _ Hg Hi) as [Hold Ha]. pose proof Hg as [[] _].
    apply wp_mem. eapply wp_mono; [by eapply drop_stream_accounted|].
    intros _ u [Hu Ha']. cbn. split; [|done].
    eapply (good_update _ _ _ _ w id old st u); [done|exact Hg|done|..].
    + unfold stream_bufs. rewrite Hf, Hc. by apply new_buffer_accounted, new_buffer_accounted.
    + by constructor; [rewrite Hf|rewrite Hc|].
    + done.
    + done.
    + rewrite Hf. cbn. lia.
  - apply wp_ret. split; [|done].
    change (good md w0 L (streams_set w id st (w_mem w))). by apply good_insert_new.
Qed.

Lemma remove_stream_good md w0 L w id :
  md_keep md = false → stream_role id w ≠ Some Connect → good md w0 L w →
  wp (remove_stream id) (fun _ w' => good md w0 L w' ∧ same_flags w w') w.
Proof.
  intros Hmd Hrole Hg. unfold remove_stream. apply wp_bind, get_stream_spec.
  apply wp_bind, wp_modify. destruct (ws_streams (w_ses w) !! id) as [old|] eqn:Hi.
  - destruct (good_stream _ _ _ _ _ _ Hg Hi) as [Hold Ha]. pose proof Hg as [[] []].
    apply wp_mem. eapply wp_mono; [by eapply drop_stream_accounted|].
    intros _ u [Hu Ha']. cbn. split; [|done]. split; constructor; cbn; try done.
    + by apply map_Forall_delete.
    + by apply map_Forall_delete.
    + intros Hs. destruct (inv_server0 Hs) as [s1 s2 s3 s4 s5].
      assert (id ≠ CONNECT_ID).
      { intros ->. apply Hrole. unfold stream_role. rewrite Hi. cbn. f_equal. by apply s4. }
      constructor; cbn; try done; rewrite lookup_delete_ne by done; done.
    + by rewrite Hmd.
    + intros j Hcalm. specialize (evo_calm0 j Hcalm). unfold frames_len in *. cbn.
      rewrite lookup_delete. case_decide; [lia|done].
  - apply wp_ret. split; [|done]. rewrite <- (world_same_mem w) in Hg.
    assert (E : w <| w_ses ::= fun s => s <| ws_streams ::= delete id |> |> = w).
    { destruct w as [s c u e]. destruct s. cbn in Hi. unfold upd. cbn. by rewrite delete_id. }
    by rewrite E, <- (world_same_mem w).
Qed.

(** *** Closing *)

Definition cleared (b : ParserBuffer) : ParserBuffer := b <| pb_data := [] |> <| pb_capacity := 0 |>.
Definition cleared_stream (st : Stream) : Stream :=
  st <| st_frames ::= fun f => f <| fp_buf := cleared (fp_buf (st_frames st)) |> |>
     <| st_class_buf := cleared (st_class_buf st) |> <| st_recv_dead := true |>.

Lemma buf_clear_spec pm closed b u L :
  wf_memory limits pm → buf_ok pm closed b → within limits u → accounted u (b :: L) →
  wp (buf_clear b) (fun b' v => b' = cleared b ∧ within limits v ∧ accounted v (b' :: L)) u.
Proof.
  intros Hpm (Hb1 & Hb2 & _) Hu Ha. unfold buf_clear, wp.
  assert (Hwf : wf_buffer limits b) by (by split; [rewrite Hb1|]).
  pose proof (clear_accounted limits limits_usize b u L Hwf Hu Ha) as Hcl.
  destruct (clear b u) as [b' v] eqn:E. unfold clear in E. injection E as <- <-. tauto.
Qed.

Lemma cleared_buf_ok pm closed closed' b : buf_ok pm closed b → buf_ok pm closed' (cleared b).
Proof. intros (? & _ & _). done. Qed.

Lemma cleared_stream_ok pm closed closed' st :
  stream_ok pm closed st → stream_ok pm closed' (cleared_stream st).
Proof. intros [H1 H2 H3]. constructor; cbn; [by eapply cleared_buf_ok..|done]. Qed.

Lemma clear_streams_spec pm closed l u L :
  wf_memory limits pm → Forall (fun kv => stream_ok pm closed kv.2) l → within limits u →
  accounted u (concat (map (fun kv => stream_bufs kv.2) l) ++ L) →
  wp (clear_streams l) (fun l' v => l' = map (fun kv => (kv.1, cleared_stream kv.2)) l ∧
    within limits v ∧ accounted v (concat (map (fun kv => stream_bufs kv.2) l') ++ L)) u.
Proof.
  intros Hpm Hl. revert u L. induction Hl as [|[id st] l Hst Hl IH]; intros u L Hu Ha;
    cbn [clear_streams]; [by apply wp_ret|].
  cbn [map concat] in Ha. rewrite <- app_assoc in Ha. destruct Hst as [Hf Hc _]; cbn in Hf, Hc.
  apply wp_bind. unfold clear_stream. apply wp_bind.
  eapply wp_mono; [exact (buf_clear_spec pm closed (fp_buf (st_frames st)) u _ Hpm Hf Hu Ha)|].
  intros f' u1 (-> & Hu1 & Ha1). apply wp_bind. cbn [app] in Ha1.
  rewrite Permutation_swap in Ha1.
  eapply wp_mono; [exact (buf_clear_spec pm closed (st_class_buf st) u1 _ Hpm Hc Hu1 Ha1)|].
  intros c' u2 (-> & Hu2 & Ha2). apply wp_ret. apply wp_bind.
  eapply wp_mono; [apply (IH u2 (stream_bufs (cleared_stream st) ++ L) Hu2)|].
  { rewrite Permutation_swap in Ha2. rewrite (app_assoc _ _ L), (Permutation_app_comm _ (stream_bufs _)).
    by rewrite <- app_assoc. }
  intros l' v (-> & Hv & Hav). apply wp_ret. split; [done|]. split; [done|].
  cbn [map concat]. rewrite <- app_assoc. rewrite app_assoc.
  rewrite (Permutation_app_comm (stream_bufs (cleared_stream st))). by rewrite <- app_assoc.
Qed.

Lemma cleared_map m :
  list_to_map (map (fun kv : N * Stream => (kv.1, cleared_stream kv.2)) (map_to_list m)) =
  cleared_stream <$> m.
Proof.
  rewrite <- (list_to_map_to_list m) at 2. rewrite <- list_to_map_fmap.
  f_equal.
Qed.

Lemma mark_closed_good md w0 L w code reason remote :
  good md w0 L w →
  wp (mark_closed code reason remote) (fun _ w' => good md w0 L w' ∧
    ws_closed (w_ses w') = true ∧ w_conn w' = w_conn w) w.
Proof.
  intros Hg. unfold mark_closed. ses_steps.
  destruct (ws_closed (w_ses w)) eqn:Hopen; [by apply wp_ret|].
  pose proof Hg as [[i1 i2 i3 i4 i5 i6 i7 i8] [e1 e2 e3 e4 e5 e6]].
  ses_steps. apply wp_mem.
  eapply wp_mono; [eapply (buf_clear_spec _ _ _ _ (streams_bufs (ws_streams (w_ses w)) ++ L) i1 i4 i2)|].
  { exact i3. }
  intros b u (-> & Hu & Ha). ses_steps. apply wp_mem.
  eapply wp_mono; [eapply (clear_streams_spec _ (ws_closed (w_ses w)) _ u
    (cleared (ws_capsule_buf (w_ses w)) :: L) i1)|].
  { apply Forall_forall. intros [id st] Hin%elem_of_map_to_list. by apply (i5 id). }
  { done. }
  { eapply accounted_proper; [reflexivity| |exact Ha]. symmetry. apply Permutation_middle. }
  intros l v (-> & Hv & Hav). ses_steps. split; [|done].
  cbn. rewrite cleared_map.
  split; constructor; cbn; rewrite ?cleared_map; try done.
  - unfold ses_bufs, streams_bufs, map_concat. cbn. rewrite map_to_list_fmap.
    eapply accounted_proper; [reflexivity| |exact Hav].
    rewrite Permutation_middle. f_equiv. apply concat_map_perm.
    reflexivity.
  - by eapply cleared_buf_ok.
  - intros id st. rewrite lookup_fmap. intros (st0 & Hst & ->)%fmap_Some.
    eapply cleared_stream_ok. by apply (i5 id).
  - eapply lifecycle_snoc; [exact i6|]. unfold life_of. cbn. by rewrite Hopen.
  - intros id st. rewrite lookup_fmap. intros (st0 & Hst & ->)%fmap_Some. cbn.
    by apply (i7 id).
  - intros Hs. destruct (i8 Hs) as [s1 s2 s3 s4 s5]. constructor; cbn; try done.
    + intros st. rewrite lookup_fmap. intros (st0 & Hst & ->)%fmap_Some. cbn. by apply s4.
    + intros Hr. rewrite lookup_fmap. by apply fmap_is_Some, s5.
  - intros id Hk Hi. rewrite lookup_fmap. by apply fmap_is_Some, e5.
  - intros id Hc. unfold frames_len. cbn. rewrite lookup_fmap.
    destruct (ws_streams (w_ses w) !! id); cbn; lia.
Qed.

(** *** The capsule buffer and the connection *)

Lemma good_capsule md w0 L L' w b u :
  good md w0 L w → within limits u → accounted u (b :: streams_bufs (ws_streams (w_ses w)) ++ L') →
  buf_ok (ws_parser_memory (w_ses w)) (ws_closed (w_ses w)) b →
  good md w0 L' (w <| w_mem := u |> <| w_ses ::= fun s => s <| ws_capsule_buf := b |> |>).
Proof.
  intros [[] []] Hu Ha Hb. split; constructor; cbn; try done.
  intros Hs. by destruct (inv_server0 Hs).
Qed.

Lemma conn_good md w0 L w f :
  (∀ c id, (recv_bound (f c) id <= recv_bound c id)%nat) → good md w0 L w →
  wp (conn_ f) (fun _ w' => good md w0 L w' ∧ same_flags w (w' <| w_conn := w_conn w |>) ∧
    w_ses w' = w_ses w) w.
Proof.
  intros Hf [[] []]. apply wp_modify. split; [|done]. split; constructor; cbn; try done.
  intros id. etrans; [apply Hf|done].
Qed.

#[export] Instance same_flags_preorder : PreOrder same_flags.
Proof.
  split; [done|]. intros w1 w2 w3 (E1 & E2 & E3) (F1 & F2 & F3). repeat split; congruence.
Qed.

Lemma same_flags_core w f :
  core (f (w_ses w)) = core (w_ses w) → same_flags w (w <| w_ses ::= f |>).
Proof.
  unfold core, life_of. intros E. injection E as E1 E2 E3 E4 E5 E6 E7 E8 E9 E10.
  split; [|done]. unfold core, life_of. cbn. congruence.
Qed.

Lemma same_flags_capsule w w' :
  same_flags w w' → ws_capsule_buf (w_ses w') = ws_capsule_buf (w_ses w).
Proof. intros (E & _). by injection E. Qed.

Lemma set_ses_flags md w0 L w f :
  (∀ s, core (f s) = core s) → good md w0 L w →
  wp (set_ses f) (fun _ w' => good md w0 L w' ∧ same_flags w w' ∧
    ws_streams (w_ses w') = ws_streams (w_ses w)) w.
Proof.
  intros Hf Hg. apply wp_modify. split; [by apply good_set|].
  split; [by apply same_flags_core|].
  specialize (Hf (w_ses w)). unfold core in Hf. by injection Hf.
Qed.

Lemma with_stream_flags md w0 L w id f :
  (∀ st, stream_core (f st) = stream_core st) →
  (∀ st, Forall chunk_ok (st_out st) → Forall chunk_ok (st_out (f st))) →
  good md w0 L w →
  wp (with_stream id f) (fun _ w' => good md w0 L w' ∧ same_flags w w' ∧
    (∀ j, stream_role j w' = stream_role j w) ∧
    ws_streams (w_ses w') = alter f id (ws_streams (w_ses w))) w.
Proof.
  intros Hf Ho Hg. eapply wp_mono; [apply with_stream_good; [exact Hf| |exact Hg]|].
  - intros st _. apply Ho.
  - intros _ w' [Hg' ->]. split; [done|]. split; [done|]. split; [|done].
    intros j. unfold stream_role. cbn.
    rewrite lookup_alter. case_decide; [subst|done].
    destruct (ws_streams (w_ses w) !! j) as [st|]; [cbn|done].
    specialize (Hf st). unfold stream_core in Hf. congruence.
Qed.

Lemma push_out_good md w0 L w id data rid :
  good md w0 L w →
  wp (push_out id (mkOutChunk data 0 rid)) (fun _ w' => good md w0 L w' ∧ same_flags w w' ∧
    (∀ j, stream_role j w' = stream_role j w) ∧
    ws_streams (w_ses w') = alter (fun st => st <| st_out ::= fun out => out ++ [mkOutChunk data 0 rid] |>)
      id (ws_streams (w_ses w))) w.
Proof.
  intros Hg. apply with_stream_flags; [done| |done]. intros st Hst. cbn.
  apply Forall_app. split; [done|]. constructor; [|done]. unfold chunk_ok. cbn. lia.
Qed.

(** The first HEADERS (or SETTINGS) frame of a stream has been seen. *)
Lemma headers_done_good md w0 L w id :
  good md w0 L w →
  wp (with_stream id (fun st => st <| st_headers_done := true |>)) (fun _ w' =>
    good md w0 L w' ∧ same_flags w w' ∧
    ∀ st, ws_streams (w_ses w) !! id = Some st →
      ws_streams (w_ses w') !! id = Some (st <| st_headers_done := true |>)) w.
Proof.
  intros Hg. apply wp_modify.
  destruct (ws_streams (w_ses w) !! id) as [st|] eqn:Hi; [|by rewrite streams_alter_missing].
  pose proof (streams_set_alter w (w_mem w) id (fun st => st <| st_headers_done := true |>) st Hi) as E.
  rewrite world_same_mem in E. rewrite E. clear E.
  destruct (good_stream _ _ _ _ _ _ Hg Hi) as [Hok Ha]. pose proof Hg as [[] _].
  split; [|split; [done|]].
  - eapply good_update; [done|exact Hg|done|exact Ha|..].
    + by destruct Hok.
    + by apply (inv_roles0 id st).
    + intros Hs ->. split; [|done]. by apply (sv_connect _ (inv_server0 Hs) st).
    + done.
  - intros st' [= <-]. cbn. by rewrite lookup_insert, decide_True.
Qed.

(** The session becomes ready. *)
Lemma become_ready_good md w0 L w e :
  ws_closed (w_ses w) = false →
  life_step (life_of (w_ses w)) e = Some ((life_of (w_ses w)) <| l_ready := true |>) →
  (ws_is_server (w_ses w) = true →
     ∃ st, ws_streams (w_ses w) !! CONNECT_ID = Some st ∧ st_headers_done st = true) →
  good md w0 L w →
  good md w0 L (w <| w_ses ::= fun s => s <| ws_ready := true |> |> <| w_ev ::= fun l => l ++ [e] |>).
Proof.
  intros Hc He Hs [[] []]. split; constructor; try done.
  - by eapply lifecycle_snoc.
  - intros Hsrv. destruct (inv_server0 Hsrv) as [s1 s2 s3 s4 s5].
    destruct (Hs Hsrv) as (st & Hst & Hd). constructor; cbn; try done.
    intros st' Hst'. assert (st' = st) as -> by congruence. split; [|done]. by apply s4.
Qed.

Lemma with_prefix_fresh role prefix memory :
  let st := with_prefix role prefix memory in
  st_role st = role ∧ fp_buf (st_frames st) = new_buffer memory ∧
  st_class_buf st = new_buffer memory ∧ Forall chunk_ok (st_out st).
Proof.
  unfold with_prefix. destruct (is_wt_data role), prefix; cbn; repeat split; repeat constructor;
    unfold chunk_ok; cbn; lia.
Qed.

Lemma good_inv md w0 L w : good md w0 L w → inv L w.
Proof. by intros []. Qed.
End invariant.

(** No stream removed, no frame buffer grown. *)
Definition calm : Mode := mkMode true true.
