(* ===== verification/SessionRecvInv.v ===== *)
(** * The receiving side preserves the session invariant

    One lemma per method of [SessionRecv], [SessionConnect] and
    [SessionStreams]: run in a good world, the method returns (no index is out
    of range, no [unwrap] fails, every loop ends) and the world is good again. *)

From S2P Require Import Prelude H3 ParserMemory FrameParser Headers Net Quic SessionState.
From S2P Require Import SessionRecv SessionConnect SessionStreams SessionInv.

(** Apply a method's lemma to the first computation of the goal. *)
Ltac call lem :=
  lazymatch goal with
  | |- wp (mbind _ _) _ _ => apply wp_bind
  | _ => idtac
  end;
  eapply wp_mono; [eapply lem|cbv beta].

Section receive.
Context {C : Type} {quic : Quic C} {quic_laws : QuicLaws C}.
Context {alloc : Allocator} {alloc_laws : AllocatorLaws}.
Context {qpack : Qpack} {sfv : Sfv} {hist : History}.
Context (limits : N → N) (limits_usize : ∀ i, limits i < U64).

Abbreviation good := (good limits).

Lemma ses_closed_spec Q (w : World C) :
  (ws_closed (w_ses w) = true → Q true w) → (ws_closed (w_ses w) = false → Q false w) →
  wp (ses ws_closed) Q w.
Proof. intros H1 H2. apply wp_gets. destruct (ws_closed (w_ses w)); auto. Qed.

(** ** Errors *)

Lemma push_always_closed md w0 L w e code reason remote :
  always_admitted e = true → good md w0 L w →
  wp (_ ← push_ev e; mark_closed code reason remote)
    (fun _ w' => good md w0 L w' ∧ ws_closed (w_ses w') = true) w.
Proof.
  intros He Hg. call (push_always limits); [done|exact Hg|]. intros _ w1 [Hg1 _].
  call (mark_closed_good limits limits_usize); [exact Hg1|]. tauto.
Qed.

Lemma parser_limit_exceeded_good md w0 L w :
  good md w0 L w →
  wp parser_limit_exceeded (fun _ w' => good md w0 L w' ∧ ws_closed (w_ses w') = true) w.
Proof.
  intros Hg. unfold parser_limit_exceeded. apply wp_bind, ses_closed_spec; intros Hc; cbn.
  - by apply wp_ret.
  - by apply push_always_closed.
Qed.

Lemma flow_error_good md w0 L w message :
  good md w0 L w →
  wp (flow_error message) (fun _ w' => good md w0 L w' ∧ ws_closed (w_ses w') = true) w.
Proof.
  intros Hg. unfold flow_error. apply wp_bind, ses_closed_spec; intros Hc; cbv beta iota; [by apply wp_ret|].
  call (set_ses_good limits); [done|exact Hg|]. intros _ w1 [Hg1 _]. by apply push_always_closed.
Qed.

Lemma close_conn_good md w0 L w app code reason :
  good md w0 L w →
  wp (conn_ (fun c => conn_close c app code reason))
    (fun _ w' => good md w0 L w' ∧ w_ses w' = w_ses w) w.
Proof. intros Hg. call (conn_good limits); [intros; apply close_bound|exact Hg|]. tauto. Qed.

Lemma shutdown_good md w0 L w id dir code :
  good md w0 L w →
  wp (conn_ (fun c => stream_shutdown c id dir code))
    (fun _ w' => good md w0 L w' ∧ w_ses w' = w_ses w) w.
Proof. intros Hg. call (conn_good limits); [intros; apply shutdown_bound|exact Hg|]. tauto. Qed.

(** Close, then close the QUIC connection. *)
Lemma mark_closed_conn_good md w0 L w code reason remote app qcode qreason :
  good md w0 L w →
  wp (_ ← mark_closed code reason remote; conn_ (fun c => conn_close c app qcode qreason))
    (fun _ w' => good md w0 L w' ∧ ws_closed (w_ses w') = true) w.
Proof.
  intros Hg. call (mark_closed_good limits limits_usize); [exact Hg|].
  intros _ w1 (Hg1 & Hc & _). call close_conn_good; [exact Hg1|].
  intros _ w2 [Hg2 E]. by rewrite E.
Qed.

Lemma protocol_error_good md w0 L w code message :
  good md w0 L w →
  wp (protocol_error code message) (fun _ w' => good md w0 L w' ∧ ws_closed (w_ses w') = true) w.
Proof.
  intros Hg. unfold protocol_error.
  apply wp_bind, ses_closed_spec; intros Hc; cbv beta iota; [by apply wp_ret|].
  call (push_always limits); [done|exact Hg|]. intros _ w1 [Hg1 _]. by apply mark_closed_conn_good.
Qed.

Lemma kill_recv_good md w0 L w id :
  good md w0 L w →
  wp (kill_recv id) (fun _ w' => good md w0 L w' ∧
    ws_closed (w_ses w') = ws_closed (w_ses w)) w.
Proof.
  intros Hg. unfold kill_recv.
  call (with_stream_flags limits); [done|done|exact Hg|]. intros _ w1 (Hg1 & F1 & _ & _).
  call (frames_clear_good limits limits_usize); [exact Hg1|]. intros _ w2 (Hg2 & F2).
  call (class_buf_clear_good limits limits_usize); [exact Hg2|]. intros _ w3 (Hg3 & F3 & _).
  call shutdown_good; [exact Hg3|]. intros _ w4 [Hg4 ->]. split; [done|].
  apply same_flags_closed. etrans; [done|]. by etrans.
Qed.

(** ** Accounting *)

Lemma account_incoming_good md w0 L w bidi :
  good md w0 L w →
  wp (account_incoming bidi) (fun (b : bool) w' => good md w0 L w' ∧
    if b then same_flags w w' else ws_closed (w_ses w') = true) w.
Proof.
  intros Hg. unfold account_incoming.
  call (set_ses_flags limits); [done|exact Hg|]. intros _ w1 (Hg1 & F1 & _). ses_steps.
  destruct (_ && _); [|by apply wp_ret].
  call flow_error_good; [exact Hg1|]. intros _ w2 [Hg2 Hc]. by apply wp_ret.
Qed.

Lemma account_receive_good md w0 L w id amount :
  good md w0 L w →
  wp (account_receive id amount) (fun (b : bool) w' => good md w0 L w' ∧
    if b then same_flags w w' ∧ (∀ j, stream_role j w' = stream_role j w)
    else ws_closed (w_ses w') = true) w.
Proof.
  intros Hg. unfold account_receive.
  call (set_ses_flags limits); [done|exact Hg|]. intros _ w1 (Hg1 & F1 & S1).
  call (with_stream_flags limits); [done|done|exact Hg1|]. intros _ w2 (Hg2 & F2 & S2 & _).
  ses_steps. destruct (_ && _).
  - call flow_error_good; [exact Hg2|]. intros _ w3 [Hg3 Hc]. by apply wp_ret.
  - apply wp_ret. split; [done|]. split; [by etrans|]. intros j. rewrite S2.
    unfold stream_role. by rewrite S1.
Qed.

(** ** Capsules *)

Lemma raise_limit_good md w0 L w field set v :
  (∀ v s, core (set v s) = core s) → good md w0 L w →
  wp (raise_limit field set v) (fun _ w' => good md w0 L w' ∧
    (ws_closed (w_ses w') = true ∨ same_flags w w')) w.
Proof.
  intros Hset Hg. unfold raise_limit. ses_steps. destruct (_ <=? _).
  - call flow_error_good; [exact Hg|]. tauto.
  - call (set_ses_flags limits); [apply Hset|exact Hg|]. tauto.
Qed.

Lemma handle_flow_capsule_good md w0 L w ty value :
  good md w0 L w →
  wp (handle_flow_capsule ty value) (fun _ w' => good md w0 L w' ∧
    (ws_closed (w_ses w') = true ∨ same_flags w w')) w.
Proof.
  intros Hg. unfold handle_flow_capsule.
  assert (Herr : ∀ m, wp (flow_error m) (fun _ w' => good md w0 L w' ∧
    (ws_closed (w_ses w') = true ∨ same_flags w w')) w).
  { intros m. call flow_error_good; [exact Hg|]. tauto. }
  destruct (read_varint value) as [[v n]|]; [|apply Herr].
  destruct (_ || _); [apply Herr|].
  repeat case_match; try (by apply raise_limit_good). apply wp_ret. split; [done|by right].
Qed.

(** Surfacing that the peer is about to close, once. *)
Lemma emit_draining_good md w0 L w :
  ws_closed (w_ses w) = false → ws_drain_emitted (w_ses w) = false → good md w0 L w →
  wp (_ ← set_ses (fun s => s <| ws_drain_emitted := true |>); push_ev EvDraining)
    (fun _ w' => good md w0 L w' ∧ ws_closed (w_ses w') = false ∧
      ws_capsule_buf (w_ses w') = ws_capsule_buf (w_ses w)) w.
Proof.
  intros Hc Hd [[] []]. ses_steps. split; [|done]. split; constructor; try done.
  - eapply lifecycle_snoc; [done|]. unfold life_of. cbn. by rewrite Hc, Hd.
  - intros Hs. by destruct (inv_server Hs).
Qed.

Lemma handle_capsule_good md w0 L w ty value :
  good md w0 L w →
  wp (handle_capsule ty value) (fun _ w' => good md w0 L w' ∧
    (ws_closed (w_ses w') = true ∨ ws_capsule_buf (w_ses w') = ws_capsule_buf (w_ses w))) w.
Proof.
  intros Hg. unfold handle_capsule. ses_steps.
  destruct ((ty =? _) && negb (ws_closed (w_ses w))).
  { destruct (close_info value) as [code reason].
    call (mark_closed_good limits limits_usize); [exact Hg|]. tauto. }
  destruct (_ && _) eqn:E.
  { apply andb_true_iff in E as [[_ Hd%negb_true_iff]%andb_true_iff Hc%negb_true_iff].
    eapply wp_mono; [by apply (emit_draining_good md w0 L)|]. intros _ w' (? & ? & ?). auto. }
  apply wp_when; intros _; [|split; [done|by right]].
  call handle_flow_capsule_good; [exact Hg|]. intros _ w' [Hg' [Hc|F]]; split; auto.
  right. by apply same_flags_capsule.
Qed.

(** One whole capsule is taken out of the buffer and handled; [next], the rest of
    the scan, runs with a shorter buffer or on a closed session. *)
Lemma scan_frame_good (next : M (World C) ()) md w0 L w ty start stop :
  ws_closed (w_ses w) = false → good md w0 L w →
  (start <= stop <= length (pb_data (ws_capsule_buf (w_ses w))))%nat →
  (∀ w1, good md w0 L w1 → ws_closed (w_ses w1) = true ∨
     pb_data (ws_capsule_buf (w_ses w1)) = drop stop (pb_data (ws_capsule_buf (w_ses w))) →
   wp next (fun _ w' => good md w0 L w') w1) →
  wp (r ← mem (buf_copy (ws_capsule_buf (w_ses w)) start stop);
      match r with
      | Err () => parser_limit_exceeded
      | Ok value =>
          buf ← mem (buf_consume (ws_capsule_buf (w_ses w)) stop);
          _ ← set_ses (fun s => s <| ws_capsule_buf := buf |>);
          _ ← handle_capsule ty (pb_data value);
          _ ← mem (buf_drop value);
          next
      end) (fun _ w' => good md w0 L w') w.
Proof.
  intros Hc Hg Hrange Hnext.
  pose proof Hg as [[] _]. pose proof inv_capsule as (Hm & Hcap & _).
  assert (Hwf : wf_buffer limits (ws_capsule_buf (w_ses w))) by (by split; [rewrite Hm|]).
  apply wp_bind, wp_mem. unfold buf_copy, wp at 1.
  destruct (copy_range_accounted limits limits_usize (ws_capsule_buf (w_ses w)) start stop (w_mem w)
    (streams_bufs (ws_streams (w_ses w)) ++ L)) as (r & u & -> & Hu & Hr); [done|done|done|exact inv_accounted|].
  destruct r as [value|[]].
  2: { eapply wp_mono; [apply (parser_limit_exceeded_good md w0 L)|by intros _ ? [? ?]].
    destruct Hg as [_ []]. split; constructor; done. }
  destruct Hr as (Ha & Hv & _ & _). ses_steps. apply wp_mem. unfold buf_consume, wp at 1. cbn.
  destruct (consume_accounted limits limits_usize (ws_capsule_buf (w_ses w)) stop u
    (value :: streams_bufs (ws_streams (w_ses w)) ++ L))
    as (b & u' & -> & Hu' & Ha' & [_ Hb] & Hbm & Hbd); [lia|done|done| |].
  { rewrite Permutation_swap. exact Ha. }
  ses_steps.
  match goal with |- wp _ _ ?w1 => set (w2 := w1) end.
  assert (Hg2 : good md w0 (value :: L) w2).
  { change w2 with (w <| w_mem := u' |> <| w_ses ::= fun s => s <| ws_capsule_buf := b |> |>).
    apply (good_capsule limits md w0 L); [done|done| |].
    - eapply accounted_proper; [reflexivity| |exact Ha'].
      f_equiv. symmetry. apply Permutation_middle.
    - rewrite Hc. repeat split; [congruence|done|done]. }
  call handle_capsule_good; [exact Hg2|]. intros _ w3 [Hg3 Hcap3].
  call (buf_drop_good limits limits_usize); [exact Hv|exact Hg3|].
  intros _ w4 (Hg4 & E4 & _). apply Hnext; [done|]. rewrite E4.
  destruct Hcap3 as [Hc3|Hcap3]; [by left|right]. rewrite Hcap3. exact Hbd.
Qed.

Lemma scan_loop_good fuel md w0 L w :
  (length (pb_data (ws_capsule_buf (w_ses w))) < fuel)%nat → good md w0 L w →
  wp (scan_loop fuel) (fun _ w' => good md w0 L w') w.
Proof.
  revert w. induction fuel as [|fuel IH]; intros w Hfuel Hg; [lia|]. cbn [scan_loop].
  apply wp_bind, ses_closed_spec; intros Hc; cbv beta iota; [by apply wp_ret|]. ses_steps.
  destruct (read_varint (pb_data _)) as [[ty n1]|] eqn:E1; [|by apply wp_ret].
  destruct (read_varint (drop n1 _)) as [[len n2]|] eqn:E2; [|by apply wp_ret].
  cbv zeta. destruct (MAX_CONTROL_FRAME <? len).
  { eapply wp_mono; [by apply (push_always_closed md w0 L)|]. by intros _ ? [? ?]. }
  destruct (Nat.ltb_spec (length (pb_data (ws_capsule_buf (w_ses w)))) (n1 + n2 + N.to_nat len))
    as [Hlt|Hge]; [by apply wp_ret|]. apply read_varint_bounds in E1.
  apply scan_frame_good; [done|done|lia|]. intros w1 Hg1 [Hc1|Hd1].
  - destruct fuel; [lia|]. cbn [scan_loop].
    apply wp_bind, ses_closed_spec; intros Hc2; [by apply wp_ret|congruence].
  - apply IH; [|done]. rewrite Hd1, length_drop. lia.
Qed.

Lemma scan_capsules_good md w0 L w payload :
  good md w0 L w → wp (scan_capsules payload) (fun _ w' => good md w0 L w') w.
Proof.
  intros Hg. unfold scan_capsules.
  apply wp_bind, ses_closed_spec; intros Hc; cbv beta iota; [by apply wp_ret|]. ses_steps.
  pose proof Hg as [[] _]. pose proof inv_capsule as (Hm & Hcap & _).
  assert (Hwf : wf_buffer limits (ws_capsule_buf (w_ses w))) by (by split; [rewrite Hm|]).
  apply wp_mem. unfold buf_extend, wp at 1.
  pose proof (extend_from_slice_accounted limits limits_usize (ws_capsule_buf (w_ses w)) payload
    (w_mem w) (streams_bufs (ws_streams (w_ses w)) ++ L) Hwf inv_within inv_accounted) as He.
  destruct (extend_from_slice _ _ _) as [[r b] u]. destruct He as (Hu & Ha & [_ Hb] & Hbm & _).
  ses_steps. cbv beta iota. ses_steps.
  match goal with |- wp _ _ ?w1 => set (w2 := w1) end.
  assert (Hg2 : good md w0 L w2).
  { change w2 with (w <| w_mem := u |> <| w_ses ::= fun s => s <| ws_capsule_buf := b |> |>).
    apply (good_capsule limits md w0 L); [done|done|done|].
    rewrite Hc. repeat split; [congruence|done|done]. }
  destruct r as [[]|[]].
  - apply scan_loop_good; [cbn; lia|done].
  - eapply wp_mono; [by apply (parser_limit_exceeded_good md w0 L)|]. by intros _ ? [? ?].
Qed.

(** ** The server's half of the CONNECT exchange *)

Lemma reject_connect_good md w0 L w id status :
  good md w0 L w →
  wp (reject_connect id status) (fun _ w' => good md w0 L w' ∧ ws_closed (w_ses w') = true) w.
Proof.
  intros Hg. unfold reject_connect. apply wp_bind.
  assert (Hrest : ∀ w1, good md w0 L w1 →
    wp (quiet ← ses (fun s => ws_ready s || ws_closed s);
        _ ← when (negb quiet) (push_ev (EvError (s2b "rejected CONNECT with status " ++ dec status)));
        mark_closed 0 [] false)
      (fun _ w' => good md w0 L w' ∧ ws_closed (w_ses w') = true) w1).
  { intros w1 Hg1. ses_steps. apply wp_when; intros _.
    - call (push_always limits); [done|exact Hg1|]. intros _ w2 [Hg2 _].
      call (mark_closed_good limits limits_usize); [exact Hg2|]. tauto.
    - call (mark_closed_good limits limits_usize); [exact Hg1|]. tauto. }
  destruct (encode_headers_frame _); [|by apply wp_ret, Hrest].
  call (with_stream_flags limits); [done| |exact Hg|].
  - intros st Hst. cbn. apply Forall_app. split; [done|]. constructor; [|done].
    unfold chunk_ok. cbn. lia.
  - intros _ w1 (Hg1 & _). by apply Hrest.
Qed.

Lemma accept_connect_good md w0 L w headers st :
  ws_closed (w_ses w) = false → ws_ready (w_ses w) = false →
  ws_streams (w_ses w) !! CONNECT_ID = Some st → st_headers_done st = true →
  good md w0 L w → wp (accept_connect CONNECT_ID headers) (fun _ w' => good md w0 L w') w.
Proof.
  intros Hc Hr Hst Hd Hg. unfold accept_connect. cbv zeta.
  assert (Hrej : ∀ status, wp (reject_connect CONNECT_ID status) (fun _ w' => good md w0 L w') w).
  { intros status. call reject_connect_good; [exact Hg|]. tauto. }
  destruct (negb _); [apply Hrej|]. ses_steps. destruct (negb _); [apply Hrej|]. ses_steps.
  destruct (encode_headers_frame _) as [frame|e].
  - call (push_out_good limits); [exact Hg|]. intros _ w1 (Hg1 & F1 & _ & S1).
    ses_steps. destruct (ws_remote_addr _); ses_steps.
    all: apply become_ready_good; try done.
    all: try (by rewrite (same_flags_closed w w1)).
    all: try (unfold life_of; cbn;
      by rewrite (same_flags_closed w w1 F1), (same_flags_ready w w1 F1), Hc, Hr).
    all: intros _; rewrite S1, lookup_alter, decide_True, Hst by done; eexists; split; [done|exact Hd].
  - call (push_always limits); [done|exact Hg|]. tauto.
Qed.

(** What the loop does with one frame. *)
Lemma server_frame_good md w0 L w ty payload st :
  ws_is_server (w_ses w) = true → ws_closed (w_ses w) = false →
  ws_streams (w_ses w) !! CONNECT_ID = Some st → good md w0 L w →
  wp (if (ty =? FRAME_HEADERS) && negb (st_headers_done st) then
        _ ← with_stream CONNECT_ID (fun st => st <| st_headers_done := true |>);
        match decode_header_block payload with
        | Ok headers => accept_connect CONNECT_ID headers
        | Err e =>
            _ ← push_ev (EvError (s2b "failed to decode CONNECT request: " ++ e));
            reject_connect CONNECT_ID 400
        end
      else when (ty =? FRAME_DATA) (scan_capsules payload)) (fun _ w' => good md w0 L w') w.
Proof.
  intros Hs Hc Hst Hg. destruct (_ && _) eqn:E.
  - apply andb_true_iff in E as [_ Hd%negb_true_iff].
    assert (Hr : ws_ready (w_ses w) = false).
    { destruct (ws_ready (w_ses w)) eqn:Hr; [|done]. destruct Hg as [[] _].
      destruct (sv_connect _ (inv_server Hs) st Hst) as [_ Hd']. rewrite Hd' in Hd; done. }
    call (headers_done_good limits); [exact Hg|]. intros _ w1 (Hg1 & F1 & S1).
    destruct (decode_header_block payload) as [headers|e].
    + eapply accept_connect_good; [..|exact Hg1].
      * by rewrite (same_flags_closed w w1).
      * by rewrite (same_flags_ready w w1).
      * by apply S1.
      * done.
    + call (push_always limits); [done|exact Hg1|]. intros _ w2 [Hg2 _].
      call reject_connect_good; [exact Hg2|]. tauto.
  - apply wp_when; intros _; [|done]. by apply scan_capsules_good.
Qed.

(** The world after a frame has been popped, from where the loop started. *)
Lemma pop_trans md w0 L w w1 L1 : good md w0 L w → good calm w L1 w1 → good md w0 L1 w1.
Proof. intros H1 H2. by eapply good_trans. Qed.

Lemma server_connect_loop_good fuel md w0 L w :
  ws_is_server (w_ses w) = true → (frames_len CONNECT_ID (w_ses w) < fuel)%nat →
  good md w0 L w → wp (server_connect_loop fuel CONNECT_ID) (fun _ w' => good md w0 L w') w.
Proof.
  revert w. induction fuel as [|fuel IH]; intros w Hs Hfuel Hg; [lia|]. cbn [server_connect_loop].
  apply wp_bind, ses_closed_spec; intros Hc; cbv beta iota; [by apply wp_ret|].
  call (frames_next_good limits limits_usize calm w L); [done|by apply good_start, (good_inv limits md w0)|].
  intros o w1 [F1 Ho]. ses_steps. destruct o as [[ty payload]|].
  - destruct Ho as (Hg1 & Hp & (st & st' & _ & Hst & _) & Hlen). rewrite Hst.
    assert (Hs1 : ws_is_server (w_ses w1) = true) by (by rewrite (same_flags_server w w1)).
    apply wp_bind. eapply wp_mono; [apply (server_frame_good calm w1 (payload :: L) w1); try done|].
    { by rewrite (same_flags_closed w w1). }
    { by apply good_start, Hg1. }
    cbv beta. intros _ w2 Hg2. call (buf_drop_good limits limits_usize); [exact Hp|exact Hg2|].
    intros _ w3 (Hg3 & E3 & _). apply IH.
    + rewrite E3. destruct Hg2 as [_ []]. congruence.
    + rewrite E3. destruct Hg2 as [_ []]. specialize (evo_calm CONNECT_ID eq_refl). lia.
    + eapply pop_trans; [exact Hg|]. eapply pop_trans; [exact Hg1|exact Hg3].
  - apply wp_ret. by eapply pop_trans.
Qed.

Lemma frame_fuel_enough id w :
  (frames_len id (w_ses (C := C) w) < frame_fuel (ws_streams (w_ses w) !! id))%nat.
Proof. unfold frames_len, frame_fuel. destruct (ws_streams (w_ses w) !! id); lia. Qed.

Lemma parse_server_connect_frames_good md w0 L w :
  ws_is_server (w_ses w) = true → good md w0 L w →
  wp (parse_server_connect_frames CONNECT_ID) (fun _ w' => good md w0 L w') w.
Proof.
  intros Hs Hg. unfold parse_server_connect_frames. ses_steps.
  destruct (ws_peer_settings (w_ses w)); [|by apply wp_ret]. destruct (_ || _).
  - call reject_connect_good; [exact Hg|]. tauto.
  - ses_steps. apply server_connect_loop_good; [done| |done]. apply frame_fuel_enough.
Qed.

(** ** The client's half *)

Lemma queue_connect_good md w0 L w :
  ws_is_server (w_ses w) = false → good md w0 L w →
  wp queue_connect (fun _ w' => good md w0 L w') w.
Proof.
  intros Hs Hg. unfold queue_connect. ses_steps. destruct (encode_headers_frame _) as [frame|e].
  - ses_steps. destruct (with_prefix_fresh Connect frame (ws_parser_memory (w_ses w)))
      as (H1 & H2 & H3 & H4).
    call (insert_stream_good limits limits_usize md w0 L w); try done; [by rewrite Hs|]. tauto.
  - call (push_always limits); [done|exact Hg|]. tauto.
Qed.

Lemma handle_response_good md w0 L w headers :
  ws_is_server (w_ses w) = false → ws_closed (w_ses w) = false → good md w0 L w →
  wp (handle_response headers) (fun _ w' => good md w0 L w') w.
Proof.
  intros Hs Hc Hg. unfold handle_response. cbv zeta. destruct (_ && _).
  - ses_steps. destruct (ws_ready (w_ses w)) eqn:Hr; [by apply wp_ret|]. ses_steps.
    match goal with |- wp (if ?b then _ else _) _ _ => destruct b end.
    + call protocol_error_good; [exact Hg|]. tauto.
    + ses_steps. apply become_ready_good; try done; [|by rewrite Hs].
      unfold life_of. cbn. by rewrite Hc, Hr.
  - call (push_always limits); [done|exact Hg|]. intros _ w1 [Hg1 _].
    eapply wp_mono; [by apply (mark_closed_conn_good md w0 L)|]. by intros _ ? [? ?].
Qed.

Lemma connect_loop_good fuel md w0 L w id :
  ws_is_server (w_ses w) = false → (frames_len id (w_ses w) < fuel)%nat →
  good md w0 L w → wp (connect_loop fuel id) (fun _ w' => good md w0 L w') w.
Proof.
  revert w. induction fuel as [|fuel IH]; intros w Hs Hfuel Hg; [lia|]. cbn [connect_loop].
  apply wp_bind, ses_closed_spec; intros Hc; cbv beta iota; [by apply wp_ret|].
  call (frames_next_good limits limits_usize calm w L); [done|by apply good_start, (good_inv limits md w0)|].
  intros o w1 [F1 Ho]. ses_steps. destruct o as [[ty payload]|].
  - destruct Ho as (Hg1 & Hp & (st & st' & _ & Hst & _) & Hlen). rewrite Hst.
    assert (Hs1 : ws_is_server (w_ses w1) = false) by (by rewrite (same_flags_server w w1)).
    assert (Hc1 : ws_closed (w_ses w1) = false) by (by rewrite (same_flags_closed w w1)).
    assert (Hg1' : good calm w1 (payload :: L) w1) by (by apply good_start, Hg1).
    apply wp_bind, (wp_mono _ (fun _ w' => good calm w1 (payload :: L) w')).
    { destruct (_ && _).
      - call (headers_done_good limits); [exact Hg1'|]. intros _ w2 (Hg2 & F2 & _).
        destruct (decode_header_block _).
        + apply handle_response_good; [by rewrite (same_flags_server w1 w2)|
            by rewrite (same_flags_closed w1 w2)|done].
        + call (push_always limits); [done|exact Hg2|]. tauto.
      - apply wp_when; intros _; [|done]. by apply scan_capsules_good. }
    intros _ w2 Hg2. call (buf_drop_good limits limits_usize); [exact Hp|exact Hg2|].
    intros _ w3 (Hg3 & E3 & _). apply IH.
    + rewrite E3. destruct Hg2 as [_ []]. congruence.
    + rewrite E3. destruct Hg2 as [_ []]. specialize (evo_calm id eq_refl). lia.
    + eapply pop_trans; [exact Hg|]. eapply pop_trans; [exact Hg1|exact Hg3].
  - apply wp_ret. by eapply pop_trans.
Qed.

(** ** The control stream *)

Lemma apply_peer_settings_good md w0 L w settings :
  good md w0 L w → wp (apply_peer_settings settings) (fun _ w' => good md w0 L w') w.
Proof.
  intros Hg. unfold apply_peer_settings.
  call (set_ses_good limits); [done|exact Hg|]. intros _ w1 [Hg1 _]. ses_steps.
  apply (wp_mono _ (fun _ w' => good md w0 L w')).
  - apply wp_when; intros Hp; [|done].
    assert (Hs : ws_is_server (w_ses w1) = false).
    { destruct (ws_is_server (w_ses w1)) eqn:Hs; [|done]. destruct Hg1 as [[] _].
      rewrite (sv_connect_pending _ (inv_server Hs)) in Hp. done. }
    ses_steps.
    match goal with |- wp _ _ ?w' => set (w2 := w') end.
    assert (Hg2 : good md w0 L w2).
    { destruct Hg1 as [[] []]. split; constructor; try done. cbn. congruence. }
    destruct (webtransport_ok settings); [by apply queue_connect_good|].
    eapply wp_mono; [by apply (push_always_closed md w0 L)|]. by intros _ ? [? ?].
  - intros _ w2 Hg2. ses_steps. apply wp_when; intros E; [|done].
    apply andb_true_iff in E as [Hs _]. by apply parse_server_connect_frames_good.
Qed.

Lemma handle_control_frame_good md w0 L w id ty payload first :
  ws_closed (w_ses w) = false → good md w0 L w →
  wp (handle_control_frame id ty payload first) (fun _ w' => good md w0 L w') w.
Proof.
  intros Hc Hg. unfold handle_control_frame.
  assert (Herr : ∀ w1 code m, good md w0 L w1 →
    wp (_ ← protocol_error code m; mret false) (fun _ w' => good md w0 L w') w1).
  { intros w1 code m Hg1. call protocol_error_good; [exact Hg1|]. intros _ w2 [? _].
    by apply wp_ret. }
  destruct (_ && _); [by apply Herr|]. destruct (ty =? FRAME_SETTINGS).
  { destruct (negb first); [by apply Herr|].
    call (headers_done_good limits); [exact Hg|]. intros _ w1 (Hg1 & F1 & _).
    destruct (parse_settings payload) as [settings|message]; [|by apply Herr].
    call apply_peer_settings_good; [exact Hg1|]. intros _ w2 Hg2. by apply wp_ret. }
  destruct (forbidden_on_control ty); [by apply Herr|]. ses_steps.
  apply wp_when; intros E; [|by apply wp_ret].
  apply andb_true_iff in E as [[_ Hd%negb_true_iff]%andb_true_iff _].
  eapply wp_mono; [by apply (emit_draining_good md w0 L)|]. intros _ w1 (Hg1 & _). by apply wp_ret.
Qed.

Lemma control_loop_good fuel md w0 L w id :
  (frames_len id (w_ses w) < fuel)%nat → good md w0 L w →
  wp (control_loop fuel id) (fun _ w' => good md w0 L w') w.
Proof.
  revert w. induction fuel as [|fuel IH]; intros w Hfuel Hg; [lia|]. cbn [control_loop].
  apply wp_bind, ses_closed_spec; intros Hc; cbv beta iota; [by apply wp_ret|].
  call (frames_next_good limits limits_usize calm w L); [done|by apply good_start, (good_inv limits md w0)|].
  intros o w1 [F1 Ho]. destruct o as [[ty payload]|]; [|apply wp_ret; by eapply pop_trans].
  destruct Ho as (Hg1 & Hp & (st & st' & _ & Hst & _) & Hlen).
  ses_steps. rewrite Hst. eapply wp_unwrap; [done|]. apply wp_bind.
  eapply wp_mono; [apply (handle_control_frame_good calm w1 (payload :: L) w1)|].
  { by rewrite (same_flags_closed w w1). }
  { by apply good_start, Hg1. }
  cbv beta. intros go_on w2 Hg2. call (buf_drop_good limits limits_usize); [exact Hp|exact Hg2|].
  intros _ w3 (Hg3 & E3 & _).
  assert (Hg4 : good md w0 L w3)
    by (eapply pop_trans; [exact Hg|]; eapply pop_trans; [exact Hg1|exact Hg3]).
  destruct go_on; [|by apply wp_ret]. apply IH; [|done].
  rewrite E3. destruct Hg2 as [_ []]. specialize (evo_calm id eq_refl). lia.
Qed.

(** Close on a malformed stream. *)
Lemma malformed_good md w0 L w message app qcode qreason :
  good md w0 L w →
  wp (_ ← push_ev (EvError message); _ ← mark_closed 0 [] true;
      conn_ (fun c => conn_close c app qcode qreason)) (fun _ w' => good md w0 L w') w.
Proof.
  intros Hg. call (push_always limits); [done|exact Hg|]. intros _ w1 [Hg1 _].
  eapply wp_mono; [by apply (mark_closed_conn_good md w0 L)|]. by intros _ ? [? ?].
Qed.

Lemma process_peer_control_good md w0 L w id chunk fin :
  md_calm md = false → ws_closed (w_ses w) = false → good md w0 L w →
  wp (process_peer_control id chunk fin) (fun _ w' => good md w0 L w') w.
Proof.
  intros Hmd Hc Hg. unfold process_peer_control.
  call (frames_push_good limits limits_usize); [done|done|exact Hg|]. intros _ w1 [Hg1 _].
  unfold parse_control_frames. apply wp_bind. ses_steps.
  eapply wp_mono; [apply (control_loop_good _ md w0 L); [apply frame_fuel_enough|done]|].
  cbv beta. intros _ w2 Hg2. ses_steps.
  apply (wp_mono _ (fun _ w' => good md w0 L w')).
  { apply wp_when; intros _; [|done]. call protocol_error_good; [exact Hg2|]. tauto. }
  intros _ w3 Hg3. unfold frame_error. ses_steps. apply wp_when; intros _; [|done].
  call kill_recv_good; [exact Hg3|]. intros _ w4 [Hg4 _]. ses_steps.
  apply wp_when; intros _; [|done]. by apply malformed_good.
Qed.

Lemma process_connect_good md w0 L w id chunk fin :
  md_calm md = false → ws_closed (w_ses w) = false → stream_role id w = Some Connect →
  good md w0 L w → wp (process_connect id chunk fin) (fun _ w' => good md w0 L w') w.
Proof.
  intros Hmd Hc Hrole Hg.
  assert (Hid : id = CONNECT_ID).
  { destruct Hg as [[] _]. unfold stream_role in Hrole.
    apply fmap_Some in Hrole as (st & Hst & Hr). by apply (inv_roles id st Hst). }
  unfold process_connect.
  call (frames_push_good limits limits_usize); [done|done|exact Hg|]. intros _ w1 [Hg1 _]. ses_steps.
  apply (wp_mono _ (fun _ w' => good md w0 L w')).
  { destruct (ws_is_server (w_ses w1)) eqn:Hs.
    - rewrite Hid. by apply parse_server_connect_frames_good.
    - unfold parse_connect_frames. ses_steps.
      apply connect_loop_good; [done|apply frame_fuel_enough|done]. }
  intros _ w2 Hg2. unfold frame_error. ses_steps.
  apply (wp_mono _ (fun _ w' => good md w0 L w')).
  { apply wp_when; intros _; [|done].
    call kill_recv_good; [exact Hg2|]. intros _ w3 [Hg3 _]. by apply malformed_good. }
  intros _ w3 Hg3. ses_steps. apply wp_when; intros _; [|done]. ses_steps.
  match goal with |- wp (if ?b then _ else _) _ _ => destruct b end.
  - call protocol_error_good; [exact Hg3|]. tauto.
  - call (mark_closed_good limits limits_usize); [exact Hg3|]. tauto.
Qed.

(** ** Classification *)

Lemma class_buf_extend_good md w0 L w id chunk :
  ws_closed (w_ses w) = false → good md w0 L w →
  wp (class_buf_extend id chunk) (fun o w' => good md w0 L w' ∧
    match o with
    | Some _ => same_flags w w' ∧ (∀ j, stream_role j w' = stream_role j w)
    | None => True
    end) w.
Proof.
  intros Hc Hg. unfold class_buf_extend. ses_steps.
  destruct (ws_streams (w_ses w) !! id) as [st|] eqn:Hi; [|by apply wp_ret].
  destruct (good_stream _ _ _ _ _ _ _ Hg Hi) as [[Hf Hcb Ho] Ha].
  pose proof (buf_ok_wf _ _ _ _ _ _ Hg Hcb) as Hwf. pose proof Hg as [[] _].
  apply wp_bind, wp_mem. unfold buf_extend, wp at 1.
  assert (Ha1 : accounted (w_mem w) (st_class_buf st :: [fp_buf (st_frames st)] ++ other_bufs id (w_ses w) ++ L))
    by (eapply accounted_proper; [reflexivity| |exact Ha]; apply Permutation_swap).
  pose proof (extend_from_slice_accounted limits limits_usize _ chunk _ _ Hwf inv_within Ha1) as He.
  destruct (extend_from_slice _ _ _) as [[r b] u]. destruct He as (Hu & Ha2 & [_ Hb] & Hbm & _).
  cbv beta iota. apply wp_bind. apply wp_modify. rewrite (streams_set_alter w u id _ st Hi).
  assert (Hg1 : good md w0 L (streams_set w id (st <| st_class_buf := b |>) u)).
  { eapply good_update; [done|exact Hg|done|..].
    - eapply accounted_proper; [reflexivity| |exact Ha2]. apply Permutation_swap.
    - constructor; [done| |done]. destruct Hcb as (Hm & _ & _). rewrite Hc.
      repeat split; [cbn; congruence|done|done].
    - by apply (inv_roles id st).
    - intros Hs ->. by apply (sv_connect _ (inv_server Hs) st).
    - done. }
  destruct r as [[]|[]].
  - apply wp_ret. split; [done|]. split; [done|]. intros j. unfold stream_role. cbn.
    rewrite lookup_insert. case_decide; [subst|done]. by rewrite Hi.
  - call parser_limit_exceeded_good; [exact Hg1|]. intros _ w2 [Hg2 _]. by apply wp_ret.
Qed.

Lemma set_role_good md w0 L w id role :
  stream_role id w ≠ Some Connect → role ≠ Connect → good md w0 L w →
  wp (set_role id role) (fun _ w' => good md w0 L w' ∧ same_flags w w') w.
Proof.
  intros Hold Hnew Hg. unfold set_role. apply wp_bind.
  apply (wp_mono _ (fun _ w' => good md w0 L w' ∧ same_flags w w')).
  - apply wp_modify.
    destruct (ws_streams (w_ses w) !! id) as [st|] eqn:Hi;
      [|by rewrite streams_alter_missing].
    pose proof (streams_set_alter w (w_mem w) id (fun st => st <| st_role := role |>) st Hi) as E.
    rewrite world_same_mem in E. rewrite E. clear E. split; [|done].
    destruct (good_stream _ _ _ _ _ _ _ Hg Hi) as [Hok Ha]. pose proof Hg as [[] _].
    eapply good_update; [done|exact Hg|done|exact Ha|..].
    + by destruct Hok.
    + done.
    + intros Hs ->. destruct Hold. unfold stream_role. rewrite Hi. cbn. f_equal.
      by apply (sv_connect _ (inv_server Hs) st).
    + done.
  - intros _ w1 [Hg1 F1]. call (class_buf_clear_good limits limits_usize); [exact Hg1|].
    intros _ w2 (Hg2 & F2 & _). split; [done|]. by etrans.
Qed.

Lemma refuse_stream_good md w0 L w id :
  stream_role id w ≠ Some Connect → good md w0 L w →
  wp (refuse_stream id) (fun _ w' => good md w0 L w') w.
Proof.
  intros Hrole Hg. unfold refuse_stream. call shutdown_good; [exact Hg|]. intros _ w1 [Hg1 E1].
  call set_role_good; [|done|exact Hg1|tauto]. unfold stream_role in *. by rewrite E1.
Qed.

(** The FIN of a data stream. *)
Lemma finish_good md w0 L w id :
  ws_closed (w_ses w) = false → good md w0 L w →
  wp (_ ← with_stream id (fun st => st <| st_recv_dead := true |>); push_ev (EvStreamFinished id))
    (fun _ w' => good md w0 L w') w.
Proof.
  intros Hc Hg. call (with_stream_flags limits); [done|done|exact Hg|]. intros _ w1 (Hg1 & F1 & _).
  call (push_open limits); [done|by rewrite (same_flags_closed w w1)|exact Hg1|]. tauto.
Qed.

(** The data of a stream and its FIN. *)
Lemma deliver_good md w0 L w id data (fin : bool) :
  ws_closed (w_ses w) = false → good md w0 L w →
  wp (_ ← when (negb (bool_decide (data = []))) (push_ev (EvStreamData id data));
      when fin (
        _ ← with_stream id (fun st => st <| st_recv_dead := true |>);
        push_ev (EvStreamFinished id))) (fun _ w' => good md w0 L w') w.
Proof.
  intros Hc Hg. apply wp_bind.
  apply (wp_mono _ (fun _ w' => good md w0 L w' ∧ w_ses w' = w_ses w)).
  - apply wp_when; intros _; [|done]. by apply push_open.
  - intros _ w1 [Hg1 E1]. apply wp_when; intros _; [|done]. apply finish_good; [congruence|done].
Qed.

Lemma resolve_wt_data_good md w0 L w id bidi header data fin :
  ws_closed (w_ses w) = false → stream_role id w ≠ Some Connect → good md w0 L w →
  wp (resolve_wt_data id bidi header data fin) (fun _ w' => good md w0 L w') w.
Proof.
  intros Hc Hrole Hg. unfold resolve_wt_data.
  call set_role_good; [done|done|exact Hg|]. intros _ w1 [Hg1 F1].
  call (with_stream_flags limits); [done|done|exact Hg1|]. intros _ w2 (Hg2 & F2 & _).
  call account_incoming_good; [exact Hg2|]. intros [] w3 [Hg3 F3]; cbn [negb]; [|by apply wp_ret].
  call account_receive_good; [exact Hg3|]. intros [] w4 [Hg4 F4]; cbn [negb]; [|by apply wp_ret].
  destruct F4 as [F4 _].
  assert (Hc4 : ws_closed (w_ses w4) = false).
  { rewrite <- Hc. apply same_flags_closed. etrans; [done|]. etrans; [done|]. by etrans. }
  call (push_open limits); [done|done|exact Hg4|]. intros _ w5 [Hg5 E5].
  apply deliver_good; [congruence|done].
Qed.

Lemma resolve_session_good md w0 L w id bidi buf n (fin : bool) :
  (md_keep md = true → fin = false) →
  ws_closed (w_ses w) = false → stream_role id w ≠ Some Connect → good md w0 L w →
  wp (resolve_session id bidi buf n fin) (fun _ w' => good md w0 L w') w.
Proof.
  intros Hmd Hc Hrole Hg. unfold resolve_session.
  destruct (read_varint (drop n buf)) as [[session n2]|].
  - destruct (negb _); [by apply refuse_stream_good|by apply resolve_wt_data_good].
  - apply wp_when; intros Hfin; [|done].
    call (remove_stream_good limits limits_usize); [|done|exact Hg|tauto].
    destruct (md_keep md); [|done]. rewrite Hmd in Hfin; done.
Qed.

Lemma resolve_pending_uni_good md w0 L w id chunk (fin : bool) :
  md_calm md = false → (md_keep md = true → fin = false) →
  ws_closed (w_ses w) = false → stream_role id w ≠ Some Connect → good md w0 L w →
  wp (resolve_pending_uni id chunk fin) (fun _ w' => good md w0 L w') w.
Proof.
  intros Hcalm Hmd Hc Hrole Hg. unfold resolve_pending_uni.
  call class_buf_extend_good; [done|exact Hg|]. intros [buf|] w1 [Hg1 H1]; [|by apply wp_ret].
  destruct H1 as [F1 R1]. rewrite <- R1 in Hrole. rewrite <- (same_flags_closed w w1 F1) in Hc.
  assert (Herr : ∀ w2 code m, good md w0 L w2 →
    wp (protocol_error code m) (fun _ w' => good md w0 L w') w2).
  { intros w2 code m Hg2. call protocol_error_good; [exact Hg2|]. tauto. }
  destruct (read_varint buf) as [[ty n]|].
  - ses_steps. cbv zeta. destruct (ty =? H3_CONTROL_STREAM_TYPE).
    { destruct (other_has_role _ _ _); [by apply Herr|].
      call set_role_good; [done|done|exact Hg1|]. intros _ w2 [Hg2 F2].
      apply process_peer_control_good; [done|by rewrite (same_flags_closed w1 w2)|done]. }
    destruct (_ || _).
    { destruct (other_has_role _ _ _); [by apply Herr|].
      call set_role_good; [done|done|exact Hg1|]. intros _ w2 [Hg2 F2].
      apply wp_when; intros _; [by apply Herr|done]. }
    destruct (ty =? WT_UNI_STREAM_TYPE); [by apply resolve_session_good|].
    call set_role_good; [done|done|exact Hg1|tauto].
  - apply wp_when; intros Hfin; [|done].
    call (remove_stream_good limits limits_usize); [|done|exact Hg1|tauto].
    destruct (md_keep md); [|done]. rewrite Hmd in Hfin; done.
Qed.

Lemma resolve_pending_bidi_good md w0 L w id chunk (fin : bool) :
  (md_keep md = true → fin = false) →
  ws_closed (w_ses w) = false → stream_role id w ≠ Some Connect → good md w0 L w →
  wp (resolve_pending_bidi id chunk fin) (fun _ w' => good md w0 L w') w.
Proof.
  intros Hmd Hc Hrole Hg. unfold resolve_pending_bidi.
  call class_buf_extend_good; [done|exact Hg|]. intros [buf|] w1 [Hg1 H1]; [|by apply wp_ret].
  destruct H1 as [F1 R1]. rewrite <- R1 in Hrole. rewrite <- (same_flags_closed w w1 F1) in Hc.
  destruct (read_varint buf) as [[signal n]|].
  - destruct (negb _); [by apply refuse_stream_good|by apply resolve_session_good].
  - apply wp_when; intros Hfin; [|done].
    call (remove_stream_good limits limits_usize); [|done|exact Hg1|tauto].
    destruct (md_keep md); [|done]. rewrite Hmd in Hfin; done.
Qed.

Lemma mark_dead_good md w0 L w id :
  good md w0 L w →
  wp (with_stream id (fun st => st <| st_recv_dead := true |>)) (fun _ w' => good md w0 L w') w.
Proof. intros Hg. call (with_stream_flags limits); [done|done|exact Hg|tauto]. Qed.

Lemma process_recv_good md w0 L w id chunk (fin : bool) :
  md_calm md = false → (md_keep md = true → fin = false) →
  ws_closed (w_ses w) = false → good md w0 L w →
  wp (process_recv id chunk fin) (fun _ w' => good md w0 L w') w.
Proof.
  intros Hcalm Hmd Hc Hg. unfold process_recv. ses_steps.
  destruct (st_role <$> ws_streams (w_ses w) !! id) as [[]|] eqn:E; try (by apply wp_ret).
  - by apply process_connect_good.
  - by apply process_peer_control_good.
  - apply wp_when; intros _; [by apply mark_dead_good|done].
  - apply wp_when; intros _; [|done]. call protocol_error_good; [exact Hg|tauto].
  - call account_receive_good; [exact Hg|]. intros [] w1 [Hg1 H1]; cbn [negb]; [|by apply wp_ret].
    destruct H1 as [F1 _]. apply deliver_good; [|done]. by rewrite (same_flags_closed w w1).
  - apply resolve_pending_uni_good; try done. unfold stream_role. congruence.
  - apply resolve_pending_bidi_good; try done. unfold stream_role. congruence.
Qed.

(** ** The read loop *)

Definition free : Mode := mkMode false false.
Definition keeping : Mode := mkMode true false.

Lemma stream_recv_good L w id len :
  inv limits L w →
  wp (conn (fun c => stream_recv c id len)) (fun r w' => good keeping w L w' ∧ w_ses w' = w_ses w ∧
    (∀ d f, r = Ok (d, f) → d ≠ [] → (recv_bound (w_conn w') id < recv_bound (w_conn w) id)%nat)) w.
Proof.
  intros []. apply wp_conn. cbn. split; [|split; [done|]].
  - split; constructor; try done. intros j. apply recv_bound_le.
  - intros d f Hr Hd. destruct (stream_recv (w_conn w) id len) as [r c'] eqn:E. cbn in *. subst.
    by eapply recv_progress.
Qed.

Lemma keep_present md w0 L w id :
  good md w0 L w → md_keep md = true → is_Some (ws_streams (w_ses w0) !! id) →
  is_Some (ws_streams (w_ses w) !! id).
Proof. intros [_ []]; auto. Qed.

(** The loop ends, and a session that is not closed still knows the stream
    unless it has been finished. *)
Lemma read_loop_good fuel w0 L w id backpressured :
  (recv_bound (w_conn w) id < fuel)%nat →
  is_Some (ws_streams (w_ses w) !! id) → ws_closed (w_ses w) = false → good free w0 L w →
  wp (read_loop fuel id backpressured) (fun e w' => good free w0 L w' ∧
    match e with Broke _ => ws_closed (w_ses w') = false | Returned => True end) w.
Proof.
  revert w. induction fuel as [|fuel IH]; intros w Hfuel [st Hst] Hc Hg; [lia|].
  cbn [read_loop]. ses_steps. eapply wp_unwrap; [exact Hst|].
  destruct (_ && _); [by apply wp_ret|]. ses_steps. cbv zeta. ses_steps.
  match goal with |- wp (conn (fun c => stream_recv c id ?l)) _ _ => set (len := l) end.
  eapply wp_mono; [by apply (stream_recv_good L); apply Hg|]. cbv beta.
  intros r w1 (Hg1 & E1 & Hprog).
  assert (Hg1' : good free w0 L w1) by (by eapply good_trans).
  destruct r as [[chunk f]|e].
  - rewrite <- E1 in Hc. apply wp_bind. destruct f.
    { eapply wp_mono; [by apply (process_recv_good free w0 L)|]. cbv beta. intros _ w2 Hg2.
      apply wp_bind, ses_closed_spec; intros Hc2; cbv beta iota; by apply wp_ret. }
    assert (Hg1s : good keeping w1 L w1) by (by apply good_start, Hg1).
    eapply wp_mono; [by apply (process_recv_good keeping w1 L)|]. cbv beta. intros _ w2 Hg2.
    assert (Hg2' : good free w0 L w2) by (by eapply good_trans).
    apply wp_bind, ses_closed_spec; intros Hc2; cbv beta iota; [by apply wp_ret|].
    case_bool_decide as Hchunk; [by apply wp_ret|]. apply IH; try done.
    + destruct Hg2 as [_ []]. specialize (evo_bound id). specialize (Hprog chunk false eq_refl Hchunk).
      lia.
    + apply (keep_present keeping w1 L w2 id Hg2 eq_refl). rewrite E1. eauto.
  - destruct e as [| |code| |]; try (apply wp_ret; split; [done|congruence]).
    destruct (stream_recv_final_size (w_conn w) id) as [size|];
      [|apply wp_ret; split; [done|congruence]].
    ses_steps. rewrite E1. eapply wp_unwrap; [exact Hst|].
    destruct (is_wt_data (st_role st)); [|apply wp_ret; split; [done|congruence]].
    cbv zeta. call account_receive_good; [exact Hg1'|].
    intros [] w2 [Hg2 H2]; cbn [negb]; apply wp_ret; (split; [done|]); [|done].
    destruct H2 as [F2 _]. rewrite (same_flags_closed w1 w2 F2). congruence.
Qed.

Lemma handle_reset_good md w0 L w id code :
  ws_closed (w_ses w) = false → good md w0 L w →
  wp (handle_reset id code) (fun _ w' => good md w0 L w') w.
Proof.
  intros Hc Hg. unfold handle_reset. ses_steps.
  call (with_stream_flags limits); [done|done|exact Hg|]. intros _ w1 (Hg1 & F1 & _).
  assert (Hc1 : ws_closed (w_ses w1) = false) by (by rewrite (same_flags_closed w w1)).
  destruct (st_role <$> _) as [[]|]; try (by apply wp_ret).
  - ses_steps. apply wp_when; intros _; [|done]. ses_steps.
    apply (wp_mono _ (fun _ w' => good md w0 L w')).
    { apply wp_when; intros _; [|done]. call (push_always limits); [done|exact Hg1|tauto]. }
    intros _ w2 Hg2. call (mark_closed_good limits limits_usize); [exact Hg2|tauto].
  - call protocol_error_good; [exact Hg1|tauto].
  - call protocol_error_good; [exact Hg1|tauto].
  - call (push_open limits); [done|done|exact Hg1|tauto].
Qed.

Lemma classify_new_connect id is_server :
  classify_new id is_server = Connect → id = CONNECT_ID ∧ is_server = true.
Proof.
  unfold classify_new. destruct is_server.
  - destruct (N.land id 3) as [|[[]|[]|]]; try done. by destruct (N.eqb_spec id CONNECT_ID).
  - by destruct (N.land id 3) as [|[[]|[]|]].
Qed.

Lemma on_readable_good w0 L w id backpressured :
  good free w0 L w → wp (on_readable id backpressured) (fun _ w' => good free w0 L w') w.
Proof.
  intros Hg. unfold on_readable.
  apply wp_bind, ses_closed_spec; intros Hc; cbv beta iota; [by apply wp_ret|]. ses_steps.
  apply (wp_mono _ (fun _ w' => good free w0 L w' ∧ ws_closed (w_ses w') = false ∧
    is_Some (ws_streams (w_ses w') !! id))).
  { destruct (ws_streams (w_ses w) !! id) as [st|] eqn:Hi; [apply wp_ret; by rewrite Hi|]. ses_steps.
    call (insert_stream_good limits limits_usize free w0 L w); [exact Hg|done|done|done|..].
    - by intros [? _]%classify_new_connect.
    - intros Hs ->. rewrite Hs. split; [done|]. intros Hr. destruct Hg as [[] _].
      destruct (sv_ready _ (inv_server Hs) Hr). congruence.
    - intros _ w1 (Hg1 & F1 & S1). split; [done|]. split; [by rewrite (same_flags_closed w w1)|].
      rewrite S1, lookup_insert, decide_True; done. }
  intros _ w1 (Hg1 & Hc1 & [st Hst]). ses_steps. eapply wp_unwrap; [exact Hst|].
  destruct (st_recv_dead st); [by apply wp_ret|]. destruct (_ && _); [by apply wp_ret|].
  destruct (_ && _); [by apply wp_ret|]. ses_steps.
  eapply wp_mono; [apply (read_loop_good _ w0 L w1); eauto|]. cbv beta.
  intros e w2 [Hg2 He]. destruct e as [|[code|]]; try (by apply wp_ret). by apply handle_reset_good.
Qed.

(** ** Datagrams and establishment *)

Lemma on_datagrams_good md w0 L w :
  good md w0 L w → wp on_datagrams (fun _ w' => good md w0 L w') w.
Proof.
  intros Hg. unfold on_datagrams. ses_steps.
  assert (Hfuel : (dgram_bound (w_conn w) < S (dgram_bound (w_conn w)))%nat) by lia.
  revert Hfuel. generalize (S (dgram_bound (w_conn w))). intros fuel.
  revert w Hg. induction fuel as [|fuel IH]; intros w Hg Hfuel; [lia|]. cbn [dgram_loop].
  apply wp_bind, wp_conn. destruct (dgram_recv (w_conn w) DGRAM_BUF) as [r c'] eqn:E. cbn [fst snd].
  assert (Hg1 : good md w0 L (w <| w_conn := c' |>)).
  { destruct Hg as [[] []]. split; constructor; try done. intros j. etrans; [|apply evo_bound].
    pose proof (dgram_recv_bound (w_conn w) DGRAM_BUF j). by rewrite E in H. }
  destruct r as [d|]; [|by apply wp_ret]. apply dgram_progress in E.
  apply wp_bind, (wp_mono _ (fun _ w' => good md w0 L w' ∧ w_conn w' = c')).
  { destruct (read_varint d) as [[qsi off]|]; [|by apply wp_ret].
    apply wp_when; intros _; [|done]. apply wp_modify. split; [|done]. by apply good_push. }
  intros _ w2 [Hg2 E2]. apply IH; [done|]. rewrite E2. lia.
Qed.

Lemma send_datagram_good md w0 L w data rid :
  good md w0 L w → wp (send_datagram data rid) (fun _ w' => good md w0 L w') w.
Proof.
  intros Hg. unfold send_datagram. apply wp_bind, wp_conn. apply wp_modify.
  apply good_push; [done|]. destruct Hg as [[] []]. split; constructor; try done.
  intros j. etrans; [apply dgram_send_bound|done].
Qed.

Lemma insert_control_good md w0 L w id prefix :
  id ≠ CONNECT_ID → good md w0 L w →
  wp (insert_stream id (with_prefix LocalControlPlane prefix (ws_parser_memory (w_ses w))))
    (fun _ w' => good md w0 L w' ∧ same_flags w w') w.
Proof.
  intros Hid Hg.
  destruct (with_prefix_fresh LocalControlPlane prefix (ws_parser_memory (w_ses w)))
    as (H1 & H2 & H3 & H4).
  call (insert_stream_good limits limits_usize md w0 L w); try done; [by rewrite H1|tauto].
Qed.

Lemma same_flags_memory (w w' : World C) :
  same_flags w w' → ws_parser_memory (w_ses w') = ws_parser_memory (w_ses w).
Proof. intros (E & _). by injection E. Qed.

Lemma on_established_good md w0 L w :
  good md w0 L w → wp on_established (fun _ w' => good md w0 L w') w.
Proof.
  intros Hg. unfold on_established. ses_steps. destruct (ws_setup_sent _); [by apply wp_ret|].
  call (set_ses_flags limits); [done|exact Hg|]. intros _ w1 (Hg1 & _ & _). ses_steps.
  match goal with |- context [if ws_is_server _ then ?a else ?b] =>
    set (ids := if ws_is_server (w_ses w1) then a else b) end.
  assert (Hids : ids.1.1 ≠ CONNECT_ID ∧ ids.1.2 ≠ CONNECT_ID ∧ ids.2 ≠ CONNECT_ID)
    by (unfold ids; by destruct (ws_is_server (w_ses w1))).
  destruct ids as [[control_id enc_id] dec_id]. destruct Hids as (Hi1 & Hi2 & Hi3). ses_steps.
  eapply wp_mono; [by apply (insert_control_good md w0 L)|]. intros _ w2 [Hg2 F2].
  rewrite <- (same_flags_memory w1 w2) by done. apply wp_bind.
  eapply wp_mono; [by apply (insert_control_good md w0 L)|]. intros _ w3 [Hg3 F3].
  rewrite <- (same_flags_memory w2 w3) by done. apply wp_bind.
  eapply wp_mono; [by apply (insert_control_good md w0 L)|]. intros _ w4 [Hg4 F4].
  apply wp_when; intros Hs; [|done]. apply negb_true_iff in Hs.
  rewrite <- (same_flags_server w1 w4) in Hs by (etrans; [done|]; by etrans).
  apply wp_modify. destruct Hg4 as [[] []]. split; constructor; try done. cbn. congruence.
Qed.
End receive.
