(* ===== verification/SessionSendInv.v ===== *)
(** * The sending side preserves the session invariant

    One lemma per method of [SessionSend]. *)

From S2P Require Import Prelude H3 ParserMemory FrameParser Headers Net Quic SessionState.
From S2P Require Import SessionRecv SessionSend SessionInv SessionRecvInv.

Section send.
Context {C : Type} {quic : Quic C} {quic_laws : QuicLaws C}.
Context {alloc : Allocator} {alloc_laws : AllocatorLaws} {hist : History}.
Context (limits : N → N) (limits_usize : ∀ i, limits i < U64).

Abbreviation good := (good limits).

(** ** Opening streams *)

Lemma add64_4_mod n : add64 n 4 mod 4 = n mod 4.
Proof. unfold add64, wrap64, U64. change (2 ^ 64) with 18446744073709551616. nlia. Qed.

Lemma allocate_stream_good md w0 L w bidi rid :
  ws_closed (w_ses w) = false → ws_ready (w_ses w) = true → good md w0 L w →
  wp (allocate_stream bidi rid) (fun _ w' => good md w0 L w' ∧
    ws_closed (w_ses w') = false ∧ ws_ready (w_ses w') = true) w.
Proof.
  intros Hc Hr Hg. unfold allocate_stream. ses_steps.
  match goal with |- context [insert_stream ?i _] => set (id := i) end.
  match goal with |- wp _ _ ?w' => set (w1 := w') end.
  assert (Hg1 : good md w0 L w1).
  { destruct Hg as [[] []]. unfold w1. split; constructor; destruct bidi; try done;
      intros Hs; destruct (inv_server Hs); constructor; cbn; try done; by rewrite add64_4_mod. }
  assert (E1 : ws_is_server (w_ses w1) = ws_is_server (w_ses w) ∧
    ws_closed (w_ses w1) = ws_closed (w_ses w) ∧ ws_ready (w_ses w1) = ws_ready (w_ses w) ∧
    ws_parser_memory (w_ses w1) = ws_parser_memory (w_ses w)) by (unfold w1; by destruct bidi).
  destruct E1 as (Es & Ec & Er & Em).
  destruct (with_prefix_fresh (WtData bidi) (stream_prefix bidi) (ws_parser_memory (w_ses w1)))
    as (H1 & H2 & H3 & H4).
  call (insert_stream_good limits limits_usize md w0 L w1); try done; [by rewrite H1| |].
  - rewrite Es. intros Hs Hid. exfalso. destruct Hg as [[] _]. destruct (inv_server Hs) as [s1 s2 _ _ _].
    assert (id mod 4 ≠ 0) as Hne by (unfold id, next_id; destruct bidi; lia).
    by rewrite Hid in Hne.
  - intros _ w2 (Hg2 & F2 & _).
    assert (Hc2 : ws_closed (w_ses w2) = false) by (rewrite (same_flags_closed w1 w2 F2); congruence).
    assert (Hr2 : ws_ready (w_ses w2) = true) by (rewrite (same_flags_ready w1 w2 F2); congruence).
    apply wp_modify. split; [|done]. apply good_push; [|done].
    unfold life_of. cbn. by rewrite Hc2, Hr2.
Qed.

Lemma release_loop_good pending md w0 L w :
  ws_closed (w_ses w) = false → ws_ready (w_ses w) = true → good md w0 L w →
  wp (release_loop pending) (fun _ w' => good md w0 L w') w.
Proof.
  revert w. induction pending as [|[bidi rid] pending IH]; intros w Hc Hr Hg;
    cbn [release_loop]; [by apply wp_ret|]. ses_steps.
  apply (wp_mono _ (fun _ w' => good md w0 L w' ∧
    ws_closed (w_ses w') = false ∧ ws_ready (w_ses w') = true)).
  - destruct (open_blocked _ _); [|by apply allocate_stream_good].
    call (set_ses_flags limits); [done|exact Hg|]. intros _ w1 (Hg1 & F1 & _).
    by rewrite (same_flags_closed w w1), (same_flags_ready w w1).
  - intros _ w1 (? & ? & ?). by apply IH.
Qed.

Lemma release_pending_opens_good md w0 L w :
  good md w0 L w → wp release_pending_opens (fun _ w' => good md w0 L w') w.
Proof.
  intros Hg. unfold release_pending_opens. ses_steps.
  destruct (negb _ || _) eqn:E; [by apply wp_ret|].
  apply orb_false_iff in E as [Hr%negb_false_iff Hc]. ses_steps.
  apply release_loop_good; [done|done|]. by apply good_set.
Qed.

Lemma open_stream_good md w0 L w bidi rid :
  good md w0 L w → wp (open_stream bidi rid) (fun _ w' => good md w0 L w') w.
Proof.
  intros Hg. unfold open_stream. ses_steps. apply release_pending_opens_good. by apply good_set.
Qed.

(** ** Commands *)

Lemma set_good md w0 L w f :
  (∀ s, core (f s) = core s) → good md w0 L w →
  wp (set_ses f) (fun _ w' => good md w0 L w') w.
Proof. intros Hf Hg. call (set_ses_flags limits); [done|exact Hg|tauto]. Qed.

Lemma stream_good md w0 L w id f :
  (∀ st, stream_core (f st) = stream_core st) →
  (∀ st, Forall chunk_ok (st_out st) → Forall chunk_ok (st_out (f st))) →
  good md w0 L w → wp (with_stream id f) (fun _ w' => good md w0 L w') w.
Proof. intros Hf Ho Hg. call (with_stream_flags limits); [done|done|exact Hg|tauto]. Qed.

Lemma push_good md w0 L w id data rid :
  good md w0 L w → wp (push_out id (mkOutChunk data 0 rid)) (fun _ w' => good md w0 L w') w.
Proof. intros Hg. call (push_out_good limits); [exact Hg|tauto]. Qed.

Lemma event_good md w0 L w e :
  always_admitted e = true → good md w0 L w → wp (push_ev e) (fun _ w' => good md w0 L w') w.
Proof. intros He Hg. call (push_always limits); [done|exact Hg|tauto]. Qed.

Lemma connection_good md w0 L w f :
  (∀ c id, (recv_bound (f c) id <= recv_bound c id)%nat) → good md w0 L w →
  wp (conn_ f) (fun _ w' => good md w0 L w') w.
Proof. intros Hf Hg. call (conn_good limits); [done|exact Hg|tauto]. Qed.

Lemma stream_write_good md w0 L w id data rid :
  good md w0 L w → wp (stream_write id data rid) (fun _ w' => good md w0 L w') w.
Proof.
  intros Hg. unfold stream_write. ses_steps.
  destruct (_ !! _); [by apply push_good|by apply event_good].
Qed.

(** Reconciling leaves every queue alone. *)
Lemma reconcile_good md w0 L w id :
  good md w0 L w →
  wp (reconcile_send_final_size id) (fun _ w' => good md w0 L w' ∧
    ∀ st, ws_streams (w_ses w) !! id = Some st → ∃ st', ws_streams (w_ses w') !! id = Some st' ∧
      st_out st' = st_out st) w.
Proof.
  intros Hg. unfold reconcile_send_final_size. ses_steps.
  destruct (stream_send_final_size _ _) as [size|]; [|apply wp_ret; eauto].
  destruct (ws_streams (w_ses w) !! id) as [st|] eqn:Hi; [|by apply wp_ret].
  assert (Hsame : good md w0 L w ∧ ∀ st0, Some st = Some st0 →
    ∃ st', ws_streams (w_ses w) !! id = Some st' ∧ st_out st' = st_out st0).
  { split; [done|]. intros ? [= <-]. eauto. }
  destruct (negb _); [by apply wp_ret|]. cbv zeta.
  destruct (_ <? _); [|by apply wp_ret].
  call (set_ses_flags limits); [done|exact Hg|]. intros _ w1 (Hg1 & _ & S1).
  call (with_stream_flags limits); [done|done|exact Hg1|]. intros _ w2 (Hg2 & _ & _ & S2).
  split; [done|]. intros ? [= <-]. rewrite S2, S1, lookup_alter, decide_True, Hi by done.
  eexists. by split.
Qed.

Lemma stream_reset_good md w0 L w id code :
  good md w0 L w → wp (stream_reset id code) (fun _ w' => good md w0 L w') w.
Proof.
  intros Hg. unfold stream_reset. ses_steps. destruct (_ !! _); [|by apply wp_ret]. cbv zeta.
  call connection_good; [intros; apply shutdown_bound|exact Hg|]. intros _ w1 Hg1.
  call reconcile_good; [exact Hg1|]. intros _ w2 [Hg2 _].
  apply stream_good; [done| |done]. intros st _. by constructor.
Qed.

Lemma stream_stop_sending_good md w0 L w id code :
  good md w0 L w → wp (stream_stop_sending id code) (fun _ w' => good md w0 L w') w.
Proof.
  intros Hg. unfold stream_stop_sending. ses_steps. destruct (_ !! _); [|by apply wp_ret]. cbv zeta.
  call connection_good; [intros; apply shutdown_bound|exact Hg|]. intros _ w1 Hg1.
  by apply stream_good.
Qed.

Lemma close_good md w0 L w code reason :
  good md w0 L w → wp (close code reason) (fun _ w' => good md w0 L w') w.
Proof.
  intros Hg. unfold close. ses_steps. destruct (ws_close_req _); [by apply wp_ret|by apply set_good].
Qed.

Lemma send_drain_good md w0 L w :
  good md w0 L w → wp send_drain (fun _ w' => good md w0 L w') w.
Proof.
  intros Hg. unfold send_drain. ses_steps. destruct (_ || _); [by apply wp_ret|]. ses_steps.
  destruct (_ !! _); [|by apply wp_ret].
  call push_good; [exact Hg|]. intros _ w1 Hg1. by apply set_good.
Qed.

(** ** Flushing a stream *)

Lemma send_good md w0 L w id d fin :
  good md w0 L w →
  wp (conn (fun c => stream_send c id d fin)) (fun r w' => good md w0 L w' ∧ w_ses w' = w_ses w ∧
    ∀ n, r = Ok n → (n <= length d)%nat) w.
Proof.
  intros [[] []]. apply wp_conn. cbn. split; [|split; [done|]].
  - split; constructor; try done. intros j. etrans; [apply send_bound|done].
  - intros n Hn. destruct (stream_send (w_conn w) id d fin) as [r c'] eqn:E. cbn in Hn. subst.
    by eapply send_fits.
Qed.

Lemma ack_all_good out md w0 L w :
  good md w0 L w → wp (ack_all out) (fun _ w' => good md w0 L w' ∧ w_ses w' = w_ses w) w.
Proof.
  revert w. induction out as [|c out IH]; intros w Hg; cbn [ack_all]; [by apply wp_ret|].
  apply wp_bind, (wp_mono _ (fun _ w' => good md w0 L w' ∧ w_ses w' = w_ses w)).
  - destruct (oc_request_id c); [|by apply wp_ret]. by apply push_always.
  - intros _ w1 [Hg1 E1]. eapply wp_mono; [by apply IH|]. cbv beta. intros _ w2 [Hg2 E2].
    split; [done|congruence].
Qed.

Lemma with_stream_lookup md w0 L w id f st :
  (∀ st, stream_core (f st) = stream_core st) →
  (Forall chunk_ok (st_out st) → Forall chunk_ok (st_out (f st))) →
  ws_streams (w_ses w) !! id = Some st →
  good md w0 L w → wp (with_stream id f) (fun _ w' => good md w0 L w' ∧
    ws_streams (w_ses w') !! id = Some (f st)) w.
Proof.
  intros Hf Ho Hi Hg. call (with_stream_good limits); [done| |exact Hg|].
  - intros st' Hst'. assert (st' = st) as -> by congruence. done.
  - intros _ w' [Hg' ->]. split; [done|]. cbn. rewrite lookup_alter, decide_True, Hi; done.
Qed.

Lemma send_front_good md w0 L w id enforce is_wt front rest wt_sent st :
  ws_streams (w_ses w) !! id = Some st → st_out st = front :: rest → good md w0 L w →
  wp (send_front id enforce is_wt front rest wt_sent) (fun '(go_on, _) w' => good md w0 L w' ∧
    ∃ st', ws_streams (w_ses w') !! id = Some st' ∧ (go_on = true → st_out st' = rest)) w.
Proof.
  intros Hi Hout Hg. unfold send_front. cbv zeta. ses_steps.
  set (amount := send_amount _ _ _ _ _).
  assert (Ho : Forall chunk_ok (front :: rest)).
  { destruct Hg as [[] _]. rewrite <- Hout. by destruct (inv_streams id st Hi). }
  pose proof Ho as [Hf Hrest]%Forall_cons. unfold chunk_ok in Hf.
  assert (Hamount : (amount <= length (oc_data front) - oc_off front)%nat).
  { unfold amount, send_amount. destruct (enforce && _); lia. }
  destruct ((amount =? 0)%nat && _).
  { apply wp_ret. split; [done|]. eexists. by split. }
  rewrite (proj2 (Nat.leb_le _ _)) by lia. cbn [negb].
  call send_good; [exact Hg|]. intros r w1 (Hg1 & E1 & Hn).
  destruct r as [sent|e].
  - specialize (Hn sent eq_refl). rewrite length_take, length_drop in Hn.
    apply wp_bind.
    apply (wp_mono _ (fun _ w' => good md w0 L w' ∧
      ∃ st', ws_streams (w_ses w') !! id = Some st' ∧ st_out st' = front :: rest)).
    { apply wp_when; intros _; [|rewrite E1; eauto]. call with_stream_lookup; try done.
      + by rewrite E1.
      + intros _ w2 [Hg2 Hi2]. split; [done|]. eexists. by split. }
    intros _ w2 (Hg2 & st2 & Hi2 & Hout2). apply wp_bind.
    destruct (Nat.leb_spec (length (oc_data front)) (oc_off front + sent)).
    + call with_stream_lookup; [done| |exact Hi2|exact Hg2|]; [done|].
      intros _ w3 [Hg3 Hi3].
      apply (wp_mono _ (fun _ w' => good md w0 L w' ∧ w_ses w' = w_ses w3)).
      { destruct (oc_request_id front); [by apply push_always|by apply wp_ret]. }
      intros _ w4 [Hg4 E4]. apply wp_ret. split; [done|]. rewrite E4. eexists. split; [exact Hi3|done].
    + call with_stream_lookup; [done| |exact Hi2|exact Hg2|].
      { intros _. cbn. constructor; [|done]. unfold chunk_ok. cbn. lia. }
      intros _ w3 [Hg3 Hi3]. apply wp_ret. split; [done|]. eexists. split; [exact Hi3|].
      rewrite (proj2 (Nat.ltb_lt _ _)) by lia. done.
  - assert (Hstop : ∀ w', good md w0 L w' → w_ses w' = w_ses w →
      good md w0 L w' ∧ ∃ st', ws_streams (w_ses w') !! id = Some st' ∧ (false = true → st_out st' = rest)).
    { intros w' Hg' E'. rewrite E'. split; [done|]. by exists st. }
    destruct e; try (apply wp_ret; by apply Hstop).
    call (push_always limits); [done|exact Hg1|]. intros _ w2 [Hg2 E2].
    call ack_all_good; [exact Hg2|]. intros _ w3 [Hg3 E3].
    call with_stream_lookup; [done| | |exact Hg3|]; [by constructor|by rewrite E3, E2, E1|].
    intros _ w4 [Hg4 Hi4]. apply wp_ret. split; [done|]. eexists. by split.
Qed.

Lemma flush_loop_good fuel md w0 L w id enforce is_wt wt_sent st :
  ws_streams (w_ses w) !! id = Some st → (length (st_out st) < fuel)%nat → good md w0 L w →
  wp (flush_loop fuel id enforce is_wt wt_sent) (fun _ w' => good md w0 L w') w.
Proof.
  revert w st wt_sent. induction fuel as [|fuel IH]; intros w st wt_sent Hi Hfuel Hg; [lia|].
  cbn [flush_loop]. ses_steps. eapply wp_unwrap; [exact Hi|].
  destruct (st_out st) as [|front rest] eqn:Hout; [by apply wp_ret|].
  apply wp_bind. eapply wp_mono; [by eapply send_front_good|]. cbv beta.
  intros [go_on wt_sent'] w1 (Hg1 & st1 & Hi1 & Hgo). destruct go_on; [|by apply wp_ret].
  eapply IH; [done| |done]. rewrite Hgo by done. cbn in Hfuel. lia.
Qed.

Lemma flush_stream_good md w0 L w id wt_sent :
  good md w0 L w → wp (flush_stream id wt_sent) (fun _ w' => good md w0 L w') w.
Proof.
  intros Hg. unfold flush_stream. call reconcile_good; [exact Hg|]. intros _ w1 [Hg1 _]. ses_steps.
  destruct (ws_streams (w_ses w1) !! id) as [st|] eqn:Hi; [|by apply wp_ret]. ses_steps.
  eapply wp_mono; [eapply (flush_loop_good _ md w0 L); [done|lia|done]|]. cbv beta.
  intros [go_on wt_sent'] w2 Hg2. destruct (negb go_on); [by apply wp_ret|]. ses_steps.
  destruct (ws_streams (w_ses w2) !! id) as [st2|]; [|by apply wp_ret].
  destruct (_ && _); [|by apply wp_ret].
  call send_good; [exact Hg2|]. intros r w3 (Hg3 & _).
  apply wp_bind, (wp_mono _ (fun _ w' => good md w0 L w')); [|intros; by apply wp_ret].
  destruct r; [by apply stream_good|by apply wp_ret].
Qed.

Lemma flush_streams_good ids md w0 L w wt_sent :
  good md w0 L w → wp (flush_streams ids wt_sent) (fun _ w' => good md w0 L w') w.
Proof.
  revert w wt_sent. induction ids as [|id ids IH]; intros w wt_sent Hg; cbn [flush_streams];
    [by apply wp_ret|].
  call flush_stream_good; [exact Hg|]. intros wt_sent' w1 Hg1. by apply IH.
Qed.

(** ** The flush *)

Lemma flush_terminal_error_good md w0 L w :
  good md w0 L w → wp flush_terminal_error (fun _ w' => good md w0 L w') w.
Proof.
  intros Hg. unfold flush_terminal_error. ses_steps.
  destruct (ws_terminal_error _) as [[code message]|]; [|by apply wp_ret].
  call set_good; [done|exact Hg|]. intros _ w1 Hg1.
  apply connection_good; [intros; apply close_bound|done].
Qed.

Lemma queue_session_capsule_good md w0 L w ty value :
  good md w0 L w → wp (queue_session_capsule ty value) (fun _ w' => good md w0 L w') w.
Proof. apply push_good. Qed.

Lemma grant_credit_good md w0 L w :
  good md w0 L w → wp grant_credit (fun _ w' => good md w0 L w') w.
Proof.
  intros Hg. unfold grant_credit. ses_steps. apply wp_when; intros _; [|done].
  call set_good; [done|exact Hg|]. intros _ w1 Hg1.
  call queue_session_capsule_good; [exact Hg1|]. intros _ w2 Hg2.
  call queue_session_capsule_good; [exact Hg2|]. intros _ w3 Hg3.
  by apply queue_session_capsule_good.
Qed.

Lemma replenish_streams_good md w0 L w bidi :
  good md w0 L w → wp (replenish_streams bidi) (fun _ w' => good md w0 L w') w.
Proof.
  intros Hg. unfold replenish_streams. ses_steps. destruct (replenished _ _ _ _); [|by apply wp_ret].
  call set_good; [done|exact Hg|]. intros _ w1 Hg1. by apply queue_session_capsule_good.
Qed.

Lemma replenish_credit_good md w0 L w :
  good md w0 L w → wp replenish_credit (fun _ w' => good md w0 L w') w.
Proof.
  intros Hg. unfold replenish_credit. ses_steps. apply wp_when; intros _; [|done].
  apply wp_bind, (wp_mono _ (fun _ w' => good md w0 L w')).
  - unfold replenish_data. ses_steps. destruct (replenished _ _ _ _); [|by apply wp_ret].
    call set_good; [done|exact Hg|]. intros _ w1 Hg1. by apply queue_session_capsule_good.
  - intros _ w1 Hg1. call replenish_streams_good; [exact Hg1|]. intros _ w2 Hg2.
    by apply replenish_streams_good.
Qed.

Lemma queue_close_capsule_good md w0 L w :
  good md w0 L w → wp queue_close_capsule (fun _ w' => good md w0 L w') w.
Proof.
  intros Hg. unfold queue_close_capsule. ses_steps.
  destruct (ws_close_req _) as [req|]; [|by apply wp_ret].
  destruct (cr_capsule_queued req); [by apply wp_ret|].
  call set_good; [done|exact Hg|]. intros _ w1 Hg1. ses_steps.
  destruct (_ !! _); [|by apply set_good]. cbv zeta.
  call push_good; [exact Hg1|]. intros _ w2 Hg2. by apply stream_good.
Qed.

Lemma signal_streams_blocked_good md w0 L w bidi :
  good md w0 L w → wp (signal_streams_blocked bidi) (fun _ w' => good md w0 L w') w.
Proof.
  intros Hg. unfold signal_streams_blocked. ses_steps. cbv zeta. apply wp_when; intros _; [|done].
  ses_steps. call queue_session_capsule_good; [exact Hg|]. intros _ w1 Hg1.
  apply set_good; [|done]. by destruct bidi.
Qed.

Lemma signal_flow_control_blocked_good md w0 L w :
  good md w0 L w → wp signal_flow_control_blocked (fun _ w' => good md w0 L w') w.
Proof.
  intros Hg. unfold signal_flow_control_blocked. ses_steps. destruct (_ || _); [by apply wp_ret|].
  apply wp_bind, (wp_mono _ (fun _ w' => good md w0 L w')).
  - unfold signal_data_blocked. ses_steps. apply wp_when; intros _; [|done]. ses_steps.
    call queue_session_capsule_good; [exact Hg|]. intros _ w1 Hg1. by apply set_good.
  - intros _ w1 Hg1. call signal_streams_blocked_good; [exact Hg1|]. intros _ w2 Hg2.
    by apply signal_streams_blocked_good.
Qed.

(** *** Pruning *)

Lemma streams_bufs_filter (P : N * Stream → Prop) `{!∀ kv, Decision (P kv)} m :
  streams_bufs m ≡ₚ streams_bufs (filter P m) ++ streams_bufs (filter (fun kv => ¬ P kv) m).
Proof. apply (map_concat_filter stream_bufs). Qed.

Lemma drop_streams_accounted pm closed l u L :
  wf_memory limits pm → Forall (fun kv => stream_ok pm closed kv.2) l → within limits u →
  accounted u (concat (map (fun kv => stream_bufs kv.2) l) ++ L) →
  wp (drop_streams l) (fun _ v => within limits v ∧ accounted v L) u.
Proof.
  intros Hpm Hl. revert u. induction Hl as [|[id st] l Hst Hl IH]; intros u Hu Ha;
    cbn [drop_streams]; [by apply wp_ret|].
  cbn [map concat] in Ha. rewrite <- app_assoc in Ha. apply wp_bind.
  eapply wp_mono; [by eapply (drop_stream_accounted limits limits_usize pm closed st)|].
  cbv beta. intros _ v [Hv Hav]. by apply IH.
Qed.

Lemma prune_streams_good md w0 L w :
  md_keep md = false → good md w0 L w → wp prune_streams (fun _ w' => good md w0 L w') w.
Proof.
  intros Hmd Hg. unfold prune_streams. cbv zeta. ses_steps.
  pose proof Hg as [[] []]. apply wp_mem.
  set (keep := fun kv : N * Stream => retained (ws_is_server (w_ses w)) kv.1 kv.2 = true).
  match goal with |- wp (drop_streams (map_to_list ?m)) _ _ => set (gone := m) end.
  eapply wp_mono; [apply (drop_streams_accounted (ws_parser_memory (w_ses w)) (ws_closed (w_ses w))
    _ (w_mem w) (ws_capsule_buf (w_ses w) :: streams_bufs (filter keep (ws_streams (w_ses w))) ++ L))|].
  - done.
  - apply Forall_forall. intros [id st] Hin%elem_of_map_to_list. unfold gone in Hin.
    apply map_lookup_filter_Some in Hin as [Hin _]. by apply (inv_streams id).
  - done.
  - eapply accounted_proper; [reflexivity| |exact inv_accounted]. unfold ses_bufs.
    rewrite (streams_bufs_filter keep (ws_streams (w_ses w))).
    change (filter (fun kv => ¬ keep kv) (ws_streams (w_ses w))) with gone.
    change (concat (map (fun kv => stream_bufs kv.2) (map_to_list gone))) with (streams_bufs gone).
    rewrite <- Permutation_middle, <- !app_comm_cons. f_equiv.
    rewrite !app_assoc. f_equiv. apply Permutation_app_comm.
  - cbv beta. intros _ u [Hu Ha]. split; constructor; cbn; try done.
    + intros id st [Hst _]%map_lookup_filter_Some. by apply (inv_streams id).
    + intros id st [Hst _]%map_lookup_filter_Some. by apply (inv_roles id).
    + intros Hs. destruct (inv_server Hs) as [s1 s2 s3 s4 s5]. constructor; cbn; try done.
      * intros st [Hst _]%map_lookup_filter_Some. by apply s4.
      * intros Hr. destruct (s5 Hr) as [st Hst]. exists st. apply map_lookup_filter_Some.
        split; [done|]. unfold keep. cbn. unfold retained. done.
    + by rewrite Hmd.
    + intros id Hcalm. specialize (evo_calm id Hcalm). unfold frames_len in *. cbn.
      destruct (filter keep (ws_streams (w_ses w)) !! id) as [st|] eqn:E; [|lia].
      apply map_lookup_filter_Some in E as [E _]. by rewrite E in evo_calm.
Qed.

Lemma drive_quic_close_good md w0 L w :
  good md w0 L w → wp drive_quic_close (fun _ w' => good md w0 L w') w.
Proof.
  intros Hg. unfold drive_quic_close. ses_steps. destruct (ws_quic_close_issued _); [by apply wp_ret|].
  ses_steps. apply (wp_mono _ (fun _ w' => good md w0 L w')).
  - destruct (ws_want_quic_close _); [by apply wp_ret|]. ses_steps.
    destruct (ws_close_req _); [|by apply wp_ret]. ses_steps. cbv zeta.
    apply wp_when; intros _; [|done]. by apply set_good.
  - intros _ w1 Hg1. ses_steps. destruct (ws_want_quic_close _); [|by apply wp_ret]. ses_steps.
    destruct (ws_close_deferred_once _); [|by apply set_good].
    call set_good; [done|exact Hg1|]. intros _ w2 Hg2.
    apply connection_good; [intros; apply close_bound|done].
Qed.

Lemma flush_good order w0 L w :
  good free w0 L w → wp (flush order) (fun _ w' => good free w0 L w') w.
Proof.
  intros Hg. unfold flush.
  call flush_terminal_error_good; [exact Hg|]. intros _ w1 Hg1.
  call grant_credit_good; [exact Hg1|]. intros _ w2 Hg2.
  call replenish_credit_good; [exact Hg2|]. intros _ w3 Hg3.
  call queue_close_capsule_good; [exact Hg3|]. intros _ w4 Hg4.
  call release_pending_opens_good; [exact Hg4|]. intros _ w5 Hg5. ses_steps.
  eapply wp_mono; [by apply (flush_streams_good _ free w0 L)|]. cbv beta. intros n w6 Hg6.
  call set_good; [done|exact Hg6|]. intros _ w7 Hg7.
  call signal_flow_control_blocked_good; [exact Hg7|]. intros _ w8 Hg8.
  call (prune_streams_good free w0 L); [done|exact Hg8|]. intros _ w9 Hg9. by apply drive_quic_close_good.
Qed.
End send.
