(* ===== verification/SessionFrame.v ===== *)
(** * Frame rules for the session's methods

    Most methods leave most fields of the session alone.  [keeps g] says so for
    an observation [g] of the session; the tactic [keep] proves it from the text
    of a method and the lemmas of the methods it calls. *)

From S2P Require Import Prelude H3 ParserMemory FrameParser Headers Net Quic SessionState.
From S2P Require Import SessionRecv SessionSend.

(** An observation of the session, as one of the world. *)
Definition of_ses {C T} (g : WtSession → T) (w : World C) : T := g (w_ses w).

Create HintDb keeps.

Section primitives.
Context {C : Type} {T : Type} (g : WtSession → T).

Lemma keeps_set_ses f : (∀ s, g (f s) = g s) → keeps (of_ses (C := C) g) (set_ses f).
Proof. intros H. apply keeps_modify. intros w. apply H. Qed.
Lemma keeps_with_stream id f :
  (∀ s, g (s <| ws_streams ::= alter f id |>) = g s) → keeps (of_ses (C := C) g) (with_stream id f).
Proof. intros H. apply keeps_modify. intros w. apply H. Qed.
Lemma keeps_push_ev e : keeps (of_ses (C := C) g) (push_ev e).
Proof. by apply keeps_modify. Qed.
Lemma keeps_mem {A} (m : M Usage A) : keeps (of_ses (C := C) g) (mem m).
Proof. intros w a w'. unfold mem. destruct (m (w_mem w)) as [[b u]|]; [|done]. by intros [= <- <-]. Qed.
Lemma keeps_conn {A} (f : C → A * C) : keeps (of_ses g) (conn f).
Proof. intros w a w'. unfold conn. destruct (f (w_conn w)). by intros [= <- <-]. Qed.
Lemma keeps_conn_ f : keeps (of_ses (C := C) g) (conn_ f).
Proof. by apply keeps_modify. Qed.
Lemma keeps_ses {A} (f : WtSession → A) : keeps (of_ses (C := C) g) (ses f).
Proof. apply keeps_gets. Qed.
Lemma keeps_get_stream id : keeps (of_ses (C := C) g) (get_stream id).
Proof. apply keeps_gets. Qed.
End primitives.

(** Follow the structure of a method; [reflexivity] settles the field updates. *)
Ltac keep_step :=
  lazymatch goal with
  | |- keeps _ (mbind _ _) => apply keeps_bind; [|intros ?]
  | |- keeps _ (mret _) => apply keeps_ret
  | |- keeps _ (ses _) => apply keeps_ses
  | |- keeps _ (get_stream _) => apply keeps_get_stream
  | |- keeps _ (gets _) => apply keeps_gets
  | |- keeps _ (set_ses _) => apply keeps_set_ses; intros ?; try reflexivity
  | |- keeps _ (with_stream _ _) => apply keeps_with_stream; intros ?; try reflexivity
  | |- keeps _ (push_ev _) => apply keeps_push_ev
  | |- keeps _ (mem _) => apply keeps_mem
  | |- keeps _ (conn _) => apply keeps_conn
  | |- keeps _ (conn_ _) => apply keeps_conn_
  | |- keeps _ (unwrap _) => apply keeps_unwrap
  | |- keeps _ panic => apply keeps_panic
  | |- keeps _ (when _ _) => apply keeps_when
  | |- keeps _ (match ?x with _ => _ end) => destruct x
  | |- keeps _ (let _ := _ in _) => cbv zeta
  | |- keeps _ _ => solve [eauto with keeps]
  end.
Ltac keep := repeat keep_step.
