(* ===== verification/SessionFlow.v ===== *)
(** * Session flow control ([crates/native/src/session.rs])

    Opening streams under the peer's limits, the flow-control capsules, the
    credit we grant, the blocked signals, and what the peer's data limit depends
    on ([SessionBooks] shows that it is kept). *)

From S2P Require Import Prelude H3 ParserMemory FrameParser Headers Net Quic SessionState.
From S2P Require Import SessionRecv SessionSend SessionInv SessionRecvInv SessionSendInv.
From S2P Require Import SessionFrame.

(** ** Opening streams *)

(** The streams we have opened in a direction. *)
Definition opened (bidi : bool) (s : WtSession) : N :=
  sub64 (next_id bidi s) (first_id (ws_is_server s) bidi) / 4.

(** The next [n] ids of a direction. *)
Definition ids_from (next : N) (n : nat) : list N := map (fun k => next + 4 * N.of_nat k) (seq 0 n).

Lemma ids_from_S next n : ids_from next (S n) = next :: ids_from (next + 4) n.
Proof.
  unfold ids_from. cbn [seq map]. f_equal; [lia|]. rewrite <- seq_shift, map_map.
  apply map_ext. intros k. lia.
Qed.

(** An open request that has been granted: direction, request, stream id. *)
Record Granted := mkGranted { gr_bidi : bool; gr_request : N; gr_id : N }.

Definition requests (bidi : bool) (l : list (bool * N)) : list N :=
  map snd (List.filter (fun o => Bool.eqb o.1 bidi) l).
Definition granted (bidi : bool) (l : list Granted) : list Granted :=
  List.filter (fun g => Bool.eqb (gr_bidi g) bidi) l.

(** What releasing [pending] did between [w] and [w']. *)
Record released {C} (pending : list (bool * N)) (grants : list Granted) (kept : list (bool * N))
    (w w' : World C) : Prop := mkReleased {
  rl_pending : ws_pending_opens (w_ses w') = ws_pending_opens (w_ses w) ++ kept;
  rl_events : w_ev w' = w_ev w ++ map (fun g => EvStreamOpened (gr_request g) (gr_id g)) grants;
  rl_fifo bidi : requests bidi pending = map gr_request (granted bidi grants) ++ requests bidi kept;
  rl_ids bidi : map gr_id (granted bidi grants) =
    ids_from (next_id bidi (w_ses w)) (length (granted bidi grants));
  rl_next bidi : next_id bidi (w_ses w') = next_id bidi (w_ses w) + 4 * lenN (granted bidi grants);
  rl_same : of_ses (fun s => (ws_is_server s, uses_session_flow_control s,
    ws_fc_max_streams_bidi_remote s, ws_fc_max_streams_uni_remote s)) w' =
    of_ses (fun s => (ws_is_server s, uses_session_flow_control s,
    ws_fc_max_streams_bidi_remote s, ws_fc_max_streams_uni_remote s)) w;
  rl_limit bidi : uses_session_flow_control (w_ses w) = true →
    opened bidi (w_ses w') <= N.max (opened bidi (w_ses w)) (stream_limit bidi (w_ses w));
  rl_kept bidi : requests bidi kept ≠ [] →
    uses_session_flow_control (w_ses w) = true ∧
    stream_limit bidi (w_ses w) <= opened bidi (w_ses w');
}.

(** Ids stay below the wrap-around of [u64] for [n] more streams. *)
Definition ids_fit (n : N) (s : WtSession) : Prop :=
  ∀ bidi, first_id (ws_is_server s) bidi <= next_id bidi s ∧ next_id bidi s + 4 * n < U64.

Section open.
Context {C : Type} {quic : Quic C} {alloc : Allocator}.

Lemma insert_stream_wp id st (w : World C) :
  wp (insert_stream id st) (fun _ w' => ∃ u,
    w' = w <| w_ses ::= fun s => s <| ws_streams ::= <[id := st]> |> |> <| w_mem := u |>) w.
Proof.
  unfold insert_stream. ses_steps. destruct (_ !! id) as [old|].
  - apply wp_mem. unfold drop_stream. apply wp_bind. unfold wp, buf_drop. eauto.
  - apply wp_ret. exists (w_mem w). by destruct w.
Qed.

Lemma opened_exact bidi s :
  first_id (ws_is_server s) bidi <= next_id bidi s → next_id bidi s < U64 →
  opened bidi s = (next_id bidi s - first_id (ws_is_server s) bidi) / 4.
Proof. intros H1 H2. unfold opened. by rewrite sub64_small. Qed.

Lemma allocate_stream_wp bidi rid (w : World C) :
  ids_fit 1 (w_ses w) →
  wp (allocate_stream bidi rid) (fun _ w' =>
    w_ev w' = w_ev w ++ [EvStreamOpened rid (next_id bidi (w_ses w))] ∧
    (∀ d, next_id d (w_ses w') = next_id d (w_ses w) + (if Bool.eqb bidi d then 4 else 0)) ∧
    ws_pending_opens (w_ses w') = ws_pending_opens (w_ses w) ∧
    of_ses (fun s => (ws_is_server s, ws_peer_settings s,
      ws_fc_max_streams_bidi_remote s, ws_fc_max_streams_uni_remote s)) w' =
    of_ses (fun s => (ws_is_server s, ws_peer_settings s,
      ws_fc_max_streams_bidi_remote s, ws_fc_max_streams_uni_remote s)) w) w.
Proof.
  intros Hfit. unfold allocate_stream. ses_steps.
  eapply wp_mono; [apply insert_stream_wp|]. cbv beta. intros _ w' [u ->]. apply wp_modify.
  split; [done|]. split; [|by destruct bidi].
  intros d. destruct (Hfit d) as [_ Hd].
  destruct bidi, d; cbn in *; rewrite ?add64_small by lia; lia.
Qed.

Lemma released_cons_granted bidi rid pending grants kept (w w1 w' : World C) :
  ids_fit 1 (w_ses w) →
  w_ev w1 = w_ev w ++ [EvStreamOpened rid (next_id bidi (w_ses w))] →
  (∀ d, next_id d (w_ses w1) = next_id d (w_ses w) + (if Bool.eqb bidi d then 4 else 0)) →
  ws_pending_opens (w_ses w1) = ws_pending_opens (w_ses w) →
  of_ses (fun s => (ws_is_server s, uses_session_flow_control s,
    ws_fc_max_streams_bidi_remote s, ws_fc_max_streams_uni_remote s)) w1 =
  of_ses (fun s => (ws_is_server s, uses_session_flow_control s,
    ws_fc_max_streams_bidi_remote s, ws_fc_max_streams_uni_remote s)) w →
  open_blocked bidi (w_ses w) = false →
  released pending grants kept w1 w' →
  released ((bidi, rid) :: pending) (mkGranted bidi rid (next_id bidi (w_ses w)) :: grants) kept w w'.
Proof.
  intros Hfit Hev Hnext Hpend Hsame Hblk [r1 r2 r3 r4 r5 r6 r7 r8].
  unfold of_ses in Hsame. injection Hsame as E1 E2 E3 E4.
  assert (Hlim : ∀ d, stream_limit d (w_ses w1) = stream_limit d (w_ses w)) by (by intros []).
  constructor.
  - by rewrite r1, Hpend.
  - rewrite r2, Hev, <- app_assoc. done.
  - intros d. unfold requests, granted in *. cbn [List.filter fst gr_bidi].
    destruct (Bool.eqb bidi d); cbn [map]; by rewrite r3.
  - intros d. unfold granted in *. cbn [List.filter gr_bidi].
    destruct (Bool.eqb bidi d) eqn:Ed; cbn [map length gr_id].
    + apply eqb_prop in Ed as ->. rewrite ids_from_S, r4, Hnext, eqb_reflx. done.
    + rewrite r4, Hnext, Ed. f_equal. lia.
  - intros d. rewrite r5, Hnext. unfold granted. cbn [List.filter gr_bidi].
    destruct (Bool.eqb bidi d); rewrite ?lenN_cons; lia.
  - rewrite r6. unfold of_ses. congruence.
  - intros d Hfc. specialize (r7 d). rewrite E2, Hlim in r7. specialize (r7 Hfc).
    enough (opened d (w_ses w1) <= N.max (opened d (w_ses w)) (stream_limit d (w_ses w))) by lia.
    destruct (Hfit d) as [Hf1 Hf2]. pose proof (Hnext d) as Hn.
    unfold open_blocked in Hblk. rewrite Hfc in Hblk. cbn [andb] in Hblk.
    apply N.leb_gt in Hblk. fold (opened bidi (w_ses w)) in Hblk.
    destruct (Bool.eqb bidi d) eqn:Ed.
    + apply eqb_prop in Ed as ->.
      rewrite opened_exact in Hblk by lia. rewrite !opened_exact by (rewrite ?E1; lia).
      rewrite Hn, E1.
      replace (next_id d (w_ses w) + 4 - first_id (ws_is_server (w_ses w)) d) with
        ((next_id d (w_ses w) - first_id (ws_is_server (w_ses w)) d) + 1 * 4) by lia.
      rewrite N.div_add by lia. lia.
    + rewrite !opened_exact by (rewrite ?E1; lia). rewrite Hn, E1, N.add_0_r. lia.
  - intros d Hk. specialize (r8 d Hk). by rewrite E2, Hlim in r8.
Qed.

Lemma requests_length bidi l : lenN (requests bidi l) <= lenN l.
Proof.
  unfold requests, lenN. rewrite length_map.
  pose proof (List.filter_length_le (fun o => Bool.eqb o.1 bidi) l). lia.
Qed.

Lemma released_grants_bound pending grants kept (w w' : World C) bidi :
  released pending grants kept w w' → lenN (granted bidi grants) <= lenN pending.
Proof.
  intros [_ _ r3 _ _ _ _ _]. specialize (r3 bidi). apply (f_equal lenN) in r3.
  rewrite lenN_app in r3. pose proof (requests_length bidi pending).
  unfold lenN in *. rewrite length_map in r3. lia.
Qed.

Lemma released_cons_kept bidi rid pending grants kept (w w' : World C) :
  open_blocked bidi (w_ses w) = true → ids_fit (lenN pending) (w_ses w) →
  released pending grants kept
    (w <| w_ses ::= fun s => s <| ws_pending_opens ::= fun l => l ++ [(bidi, rid)] |> |>) w' →
  released ((bidi, rid) :: pending) grants ((bidi, rid) :: kept) w w'.
Proof.
  intros Hblk Hfit Hrel. pose proof (released_grants_bound _ _ _ _ _ bidi Hrel) as Hlen.
  destruct Hrel as [r1 r2 r3 r4 r5 r6 r7 r8]. destruct (Hfit bidi) as [Hf1 Hf2].
  apply andb_true_iff in Hblk as [Hfc Hblk%N.leb_le]. fold (opened bidi (w_ses w)) in Hblk.
  assert (E1 : ws_is_server (w_ses w') = ws_is_server (w_ses w))
    by (unfold of_ses in r6; by injection r6).
  assert (Hnext : next_id bidi (w_ses w') = next_id bidi (w_ses w) + 4 * lenN (granted bidi grants))
    by apply r5.
  assert (Hle : opened bidi (w_ses w') <= opened bidi (w_ses w)).
  { etrans; [apply (r7 bidi Hfc)|]. apply N.max_lub; [reflexivity|exact Hblk]. }
  rewrite !opened_exact in Hle by (rewrite ?E1, ?Hnext; lia). rewrite E1, Hnext in Hle.
  assert (Hnone : granted bidi grants = []).
  { destruct (granted bidi grants) as [|x l] eqn:Eg; [done|exfalso]. rewrite lenN_cons in Hle.
    replace (next_id bidi (w_ses w) + 4 * (1 + lenN l) - first_id (ws_is_server (w_ses w)) bidi) with
      ((next_id bidi (w_ses w) - first_id (ws_is_server (w_ses w)) bidi) + (1 + lenN l) * 4)
      in Hle by lia.
    rewrite N.div_add in Hle by lia. lia. }
  constructor; try done.
  - rewrite r1. cbn. by rewrite <- app_assoc.
  - intros d. unfold requests in *. cbn [List.filter fst].
    destruct (Bool.eqb bidi d) eqn:Ed; cbn [map]; rewrite r3; [|done].
    apply eqb_prop in Ed as ->. by rewrite Hnone.
  - intros d. unfold requests in *. cbn [List.filter fst].
    destruct (Bool.eqb bidi d) eqn:Ed; [|apply r8]. intros _. apply eqb_prop in Ed as ->.
    split; [done|]. rewrite Hnone, (@lenN_nil Granted), N.mul_0_r, N.add_0_r in Hnext.
    assert (E : opened d (w_ses w') = opened d (w_ses w)) by (unfold opened; by rewrite E1, Hnext).
    by rewrite E.
Qed.

Lemma ids_fit_mono n m s : ids_fit m s → n <= m → ids_fit n s.
Proof. intros H Hle bidi. destruct (H bidi). lia. Qed.

Lemma release_loop_wp pending (w : World C) :
  ids_fit (lenN pending) (w_ses w) →
  wp (release_loop pending) (fun _ w' => ∃ grants kept, released pending grants kept w w') w.
Proof.
  revert w. induction pending as [|[bidi rid] pending IH]; intros w Hfit; cbn [release_loop].
  - apply wp_ret. exists [], [].
    constructor; try done; intros; unfold granted; cbn [List.filter map];
      rewrite ?app_nil_r, ?(@lenN_nil Granted); try done; lia.
  - rewrite lenN_cons in Hfit. ses_steps. destruct (open_blocked bidi (w_ses w)) eqn:Hblk.
    + ses_steps. eapply wp_mono; [apply IH; apply (ids_fit_mono (lenN pending) _ (w_ses w) Hfit); lia|].
      cbv beta. intros _ w' (grants & kept & Hrel). exists grants, ((bidi, rid) :: kept).
      apply released_cons_kept; [done| |done]. apply (ids_fit_mono _ _ _ Hfit). lia.
    + eapply wp_mono; [apply allocate_stream_wp; apply (ids_fit_mono _ _ _ Hfit); lia|].
      cbv beta. intros _ w1 (Hev & Hnext & Hpend & Hsame).
      assert (Hsrv : ws_is_server (w_ses w1) = ws_is_server (w_ses w))
        by (unfold of_ses in Hsame; by injection Hsame).
      eapply wp_mono; [apply IH|].
      { intros d. destruct (Hfit d). rewrite Hnext, Hsrv. destruct (Bool.eqb bidi d); lia. }
      cbv beta. intros _ w' (grants & kept & Hrel).
      exists (mkGranted bidi rid (next_id bidi (w_ses w)) :: grants), kept.
      eapply released_cons_granted; try done; [apply (ids_fit_mono _ _ _ Hfit); lia|].
      unfold of_ses in *. unfold uses_session_flow_control. injection Hsame as -> -> -> ->. done.
Qed.

(** C15: opening streams under the peer's limits.  Releasing the pending opens
    of a ready session grants a prefix of the requests of each direction, in
    order, with consecutive stream ids of that direction, one [StreamOpened]
    each; with session flow control in use it never opens more streams than
    the peer allows, and holds a request back only when that limit is
    reached. *)
Theorem release_pending_opens_spec (w : World C) :
  ws_ready (w_ses w) = true → ws_closed (w_ses w) = false →
  ids_fit (lenN (ws_pending_opens (w_ses w))) (w_ses w) →
  wp release_pending_opens (fun _ w' => ∃ grants kept,
    ws_pending_opens (w_ses w') = kept ∧
    w_ev w' = w_ev w ++ map (fun g => EvStreamOpened (gr_request g) (gr_id g)) grants ∧
    ∀ bidi,
      requests bidi (ws_pending_opens (w_ses w)) =
        map gr_request (granted bidi grants) ++ requests bidi kept ∧
      map gr_id (granted bidi grants) =
        ids_from (next_id bidi (w_ses w)) (length (granted bidi grants)) ∧
      (uses_session_flow_control (w_ses w) = true →
         opened bidi (w_ses w') <= N.max (opened bidi (w_ses w)) (stream_limit bidi (w_ses w))) ∧
      (requests bidi kept ≠ [] →
         uses_session_flow_control (w_ses w) = true ∧
         stream_limit bidi (w_ses w) <= opened bidi (w_ses w'))) w.
Proof.
  intros Hr Hc Hfit. unfold release_pending_opens. ses_steps. rewrite Hr, Hc. cbn [negb orb].
  ses_steps. eapply wp_mono; [by apply release_loop_wp|]. cbv beta.
  intros _ w' (grants & kept & [r1 r2 r3 r4 r5 r6 r7 r8]). exists grants, kept.
  split; [exact r1|]. split; [exact r2|]. intros bidi.
  split; [apply r3|]. split; [apply r4|]. split; [apply r7|apply r8].
Qed.
End open.

(** ** What the data limit depends on *)

Definition data_obs (s : WtSession) := (ws_fc_data_sent s, ws_fc_max_data_remote s, ws_peer_settings s).

Section frame.
Context {C : Type} {quic : Quic C} {alloc : Allocator}.

Abbreviation keeps_data m := (keeps (of_ses (C := C) data_obs) m).

Lemma queue_capsule_keeps ty value : keeps_data (queue_session_capsule ty value).
Proof. unfold queue_session_capsule, push_out. keep. Qed.
#[local] Hint Resolve queue_capsule_keeps : keeps.

Lemma insert_stream_keeps id st : keeps_data (insert_stream id st).
Proof. unfold insert_stream. keep. Qed.
#[local] Hint Resolve insert_stream_keeps : keeps.

Lemma allocate_keeps bidi rid : keeps_data (allocate_stream bidi rid).
Proof. unfold allocate_stream. keep. by destruct bidi. Qed.
#[local] Hint Resolve allocate_keeps : keeps.

Lemma release_loop_keeps pending : keeps_data (release_loop pending).
Proof. induction pending as [|[bidi rid] pending IH]; cbn [release_loop]; keep. Qed.
#[local] Hint Resolve release_loop_keeps : keeps.

Lemma flush_terminal_error_keeps : keeps_data flush_terminal_error.
Proof. unfold flush_terminal_error. keep. Qed.
Lemma grant_credit_keeps : keeps_data grant_credit.
Proof. unfold grant_credit. keep. Qed.
Lemma replenish_data_keeps : keeps_data replenish_data.
Proof. unfold replenish_data. keep. Qed.
Lemma replenish_streams_keeps bidi : keeps_data (replenish_streams bidi).
Proof. unfold replenish_streams. keep. Qed.
#[local] Hint Resolve replenish_data_keeps replenish_streams_keeps : keeps.
Lemma replenish_credit_keeps : keeps_data replenish_credit.
Proof. unfold replenish_credit. keep. Qed.
Lemma queue_close_capsule_keeps : keeps_data queue_close_capsule.
Proof. unfold queue_close_capsule, push_out. keep. Qed.
Lemma release_pending_opens_keeps : keeps_data release_pending_opens.
Proof. unfold release_pending_opens. keep. Qed.
Lemma signal_data_blocked_keeps : keeps_data signal_data_blocked.
Proof. unfold signal_data_blocked. keep. Qed.
Lemma signal_streams_blocked_keeps bidi : keeps_data (signal_streams_blocked bidi).
Proof. unfold signal_streams_blocked. keep. by destruct bidi. Qed.
#[local] Hint Resolve signal_data_blocked_keeps signal_streams_blocked_keeps : keeps.
Lemma signal_flow_control_blocked_keeps : keeps_data signal_flow_control_blocked.
Proof. unfold signal_flow_control_blocked. keep. Qed.
Lemma prune_streams_keeps : keeps_data prune_streams.
Proof. unfold prune_streams. keep. Qed.
Lemma drive_quic_close_keeps : keeps_data drive_quic_close.
Proof. unfold drive_quic_close. keep. Qed.
Lemma ack_all_keeps out : keeps_data (ack_all out).
Proof. induction out as [|c out IH]; cbn [ack_all]; keep. Qed.
End frame.

(** ** Blocked signals *)

Section blocked.
Context {C : Type} {quic : Quic C} {alloc : Allocator}.

Lemma existsb_map_to_list (f : N * Stream → bool) m :
  existsb f (map_to_list m) = true ↔ ∃ id st, m !! id = Some st ∧ f (id, st) = true.
Proof.
  rewrite existsb_exists. split.
  - intros ([id st] & Hin & Hf). exists id, st. split; [|done].
    by apply elem_of_map_to_list, list_elem_of_In.
  - intros (id & st & Hin & Hf). exists (id, st). split; [|done].
    by apply list_elem_of_In, elem_of_map_to_list.
Qed.

(** A queued capsule is not application payload. *)
Lemma has_pending_payload_capsule s id data :
  has_pending_payload (s <| ws_streams ::=
    alter (fun st => st <| st_out ::= fun out => out ++ [mkOutChunk data 0 None] |>) id |>) =
  has_pending_payload s.
Proof.
  apply eq_bool_prop_intro. rewrite !Is_true_true. unfold has_pending_payload.
  rewrite !existsb_map_to_list. cbn.
  assert (E : ∀ st, existsb (fun c => bool_decide (is_Some (oc_request_id c)))
      (st_out st ++ [mkOutChunk data 0 None]) =
    existsb (fun c => bool_decide (is_Some (oc_request_id c))) (st_out st)).
  { intros st. rewrite existsb_app. cbn. by rewrite orb_false_r. }
  split; intros (j & st & Hj & Hst).
  - rewrite lookup_alter in Hj. case_decide; [subst|eauto].
    apply fmap_Some in Hj as (st0 & Hj & ->). cbn in Hst. rewrite E in Hst. eauto.
  - destruct (decide (id = j)) as [->|Hne].
    + eexists j, _. rewrite lookup_alter, decide_True, Hj by done. split; [done|]. cbn. by rewrite E.
    + exists j, st. rewrite lookup_alter, decide_False by done. done.
Qed.

(** Everything the three conditions read, besides what each announces. *)
Lemma signal_data_wp (w : World C) :
  wp signal_data_blocked (fun _ w' => data_blocked_due (w_ses w') = false ∧
    (∀ bidi, streams_blocked_due bidi (w_ses w') = streams_blocked_due bidi (w_ses w)) ∧
    of_ses (fun s => (uses_session_flow_control s, ws_closed s)) w' =
    of_ses (fun s => (uses_session_flow_control s, ws_closed s)) w) w.
Proof.
  unfold signal_data_blocked. ses_steps. apply wp_when; intros Hdue; [|done].
  ses_steps. unfold queue_session_capsule, push_out, with_stream. ses_steps.
  split; [|split; [by intros []|done]].
  unfold data_blocked_due. cbn. rewrite bool_decide_true by done. cbn. by rewrite andb_false_r.
Qed.

Lemma signal_streams_wp bidi (w : World C) :
  wp (signal_streams_blocked bidi) (fun _ w' => streams_blocked_due bidi (w_ses w') = false ∧
    streams_blocked_due (negb bidi) (w_ses w') = streams_blocked_due (negb bidi) (w_ses w) ∧
    data_blocked_due (w_ses w') = data_blocked_due (w_ses w) ∧
    of_ses (fun s => (uses_session_flow_control s, ws_closed s)) w' =
    of_ses (fun s => (uses_session_flow_control s, ws_closed s)) w) w.
Proof.
  unfold signal_streams_blocked. ses_steps. apply wp_when; intros Hdue; [|done].
  ses_steps. unfold queue_session_capsule, push_out, with_stream. ses_steps.
  split; [|split; [by destruct bidi|split; [|by destruct bidi]]].
  - unfold streams_blocked_due. destruct bidi; cbn; rewrite bool_decide_true by done; cbn;
      by rewrite andb_false_r.
  - destruct bidi; unfold data_blocked_due; cbn; f_equal; apply has_pending_payload_capsule.
Qed.

(** Nothing is left to announce. *)
Definition announced (w : World C) : Prop := wp signal_flow_control_blocked (fun _ w' => w' = w) w.

(** Each limit is announced as blocked at most once: signalling again,
    with nothing changed in between, queues no capsule and changes nothing at
    all. *)
Lemma blocked_signals_idempotent (w : World C) :
  wp signal_flow_control_blocked (fun _ w1 => announced w1) w.
Proof.
  unfold announced. assert (Hquiet : ∀ w1 : World C, data_blocked_due (w_ses w1) = false →
    streams_blocked_due true (w_ses w1) = false → streams_blocked_due false (w_ses w1) = false →
    wp signal_flow_control_blocked (fun _ w2 => w2 = w1) w1).
  { intros w1 H1 H2 H3. unfold signal_flow_control_blocked. ses_steps.
    destruct (_ || _); [done|]. unfold signal_data_blocked, signal_streams_blocked. ses_steps.
    rewrite H1. cbn [when]. ses_steps. rewrite H2. cbn [when]. ses_steps. by rewrite H3. }
  unfold signal_flow_control_blocked at 1. ses_steps. destruct (_ || _) eqn:Hskip.
  { apply wp_ret. unfold signal_flow_control_blocked. ses_steps. by rewrite Hskip. }
  apply wp_bind. eapply wp_mono; [apply signal_data_wp|]. cbv beta. intros _ w1 (D1 & S1 & _).
  apply wp_bind. eapply wp_mono; [apply signal_streams_wp|]. cbv beta. intros _ w2 (B2 & U2 & D2 & _).
  eapply wp_mono; [apply signal_streams_wp|]. cbv beta. intros _ w3 (U3 & B3 & D3 & _).
  cbn [negb] in *. apply Hquiet; congruence.
Qed.
End blocked.

(** ** Credit we grant *)

(** The limit after a replenishment. *)
Definition limit_after (limit received grant ceiling : N) : N :=
  default limit (replenished limit received grant ceiling).

Lemma limit_after_spec limit received grant ceiling :
  2 <= grant → received <= ceiling → ceiling <= u64_max →
  limit <= limit_after limit received grant ceiling ∧
  (grant / 2 < limit_after limit received grant ceiling - received ∨
   ceiling <= limit_after limit received grant ceiling).
Proof.
  intros Hg Hr Hc. unfold limit_after, replenished, saturating_add64.
  assert (grant / 2 < grant) by (apply N.div_lt; lia).
  destruct (N.leb_spec (limit - received) (grant / 2)); cbn [from_option]; unfold id; [|lia].
  destruct (N.ltb_spec limit (N.min (N.min (received + grant) u64_max) ceiling)); cbn [from_option]; unfold id; lia.
Qed.

Section credit.
Context {C : Type} {quic : Quic C} {alloc : Allocator}.

(** What the peer may still send. *)
Definition credit_left (s : WtSession) : N := ws_fc_max_data_local s - ws_fc_data_received s.

(** C21: the peer never runs dry: after replenishing, at least half a grant of
    data credit is left to it beyond what it has sent, or the limit has
    reached the largest encodable value; the limit never decreases, and an
    increase is announced in a WT_MAX_DATA capsule carrying it. *)
Theorem replenish_data_keeps_credit (w : World C) st :
  ws_fc_data_received (w_ses w) < 2 ^ 62 →
  ws_streams (w_ses w) !! CONNECT_ID = Some st →
  wp replenish_data (fun _ w' =>
    let limit := ws_fc_max_data_local (w_ses w') in
    ws_fc_max_data_local (w_ses w) <= limit ∧
    (WT_GRANT_MAX_DATA / 2 < credit_left (w_ses w') ∨ 2 ^ 62 - 1 <= limit) ∧
    (limit = ws_fc_max_data_local (w_ses w) ∨
     ∃ st', ws_streams (w_ses w') !! CONNECT_ID = Some st' ∧
       st_out st' = st_out st ++
         [mkOutChunk (capsule_frame WT_MAX_DATA_CAPSULE (put_varint limit)) 0 None])) w.
Proof.
  intros Hr Hst. unfold credit_left, replenish_data. ses_steps.
  destruct (limit_after_spec (ws_fc_max_data_local (w_ses w)) (ws_fc_data_received (w_ses w))
    WT_GRANT_MAX_DATA (N.shiftl 1 62 - 1)) as [H1 H2]; [done|change (N.shiftl 1 62) with (2 ^ 62); lia|done|].
  unfold limit_after in H1, H2.
  destruct (replenished _ _ _ _) as [limit|]; cbn [from_option] in H1, H2; unfold id in H1, H2.
  - unfold queue_session_capsule, push_out, with_stream. ses_steps. cbn.
    split; [done|]. split; [done|]. right. rewrite lookup_alter, decide_True, Hst by done.
    eexists. split; [done|]. done.
  - apply wp_ret. cbv zeta. auto.
Qed.
End credit.

(** ** A concrete ready client *)

Module Example.
#[local] Existing Instance exact_allocator.

(** The peer allows 100 bytes, two bidirectional streams and none of the
    other kind. *)
Definition settings : PeerSettings := default_settings <| wt_max_sessions := 1 |>.

Definition memory : ParserMemory := PMRoot 0 MAX_SESSION_PARSER_MEMORY.
Definition client : WtSession := (blank_session memory)
  <| ws_ready := true |> <| ws_peer_settings := Some settings |>
  <| ws_fc_max_data_remote := 100 |> <| ws_fc_max_streams_bidi_remote := 2 |>
  <| ws_fc_data_received := WT_INITIAL_MAX_DATA |>
  <| ws_pending_opens := [(true, 7); (false, 8); (true, 9); (true, 10)] |>
  <| ws_streams := {[ CONNECT_ID := new_stream Connect memory ]} |>.
Definition world : World ToyConn := mkWorld client toy_new {[0 := 0]} [].

Lemma release_pending_opens_spec_witness :
  ∃ w' grants, release_pending_opens world = Some ((), w') ∧
    ws_pending_opens (w_ses w') = [(false, 8); (true, 10)] ∧
    map gr_id (granted true grants) = [4; 8] ∧ map gr_request (granted true grants) = [7; 9].
Proof.
  assert (Hfit : ids_fit (lenN (ws_pending_opens (w_ses world))) (w_ses world)).
  { intros []; vm_compute; done. }
  pose proof (release_pending_opens_spec world eq_refl eq_refl Hfit) as H.
  apply wp_elim in H as ([] & w' & E & grants & kept & H1 & H2 & H3).
  exists w', grants. split; [exact E|].
  pose proof (f_equal (fun o => match o with Some (_, w) => ws_pending_opens (w_ses w)
    | None => [] end) E) as Hk.
  cbv beta iota in Hk. replace (ws_pending_opens (w_ses w')) with [(false, 8); (true, 10)]
    by (rewrite <- Hk; vm_compute; reflexivity).
  split; [reflexivity|]. rewrite <- H1, <- Hk in H3. destruct (H3 true) as (R & I & _).
  change (requests true (ws_pending_opens (w_ses world))) with [7; 9; 10] in R.
  match type of R with context [requests true ?l] =>
    replace (requests true l) with [10] in R by (vm_compute; reflexivity) end.
  change [7; 9; 10] with ([7; 9] ++ [10]) in R. apply app_inj_tail in R as [R _].
  rewrite I. rewrite <- (length_map gr_request), <- R. split; reflexivity.
Defined.

Lemma replenish_data_keeps_credit_witness :
  ∃ w', replenish_data world = Some ((), w') ∧
    WT_INITIAL_MAX_DATA <= ws_fc_max_data_local (w_ses w').
Proof.
  pose proof (replenish_data_keeps_credit world (new_stream Connect memory) eq_refl eq_refl) as H.
  apply wp_elim in H as ([] & w' & E & H1 & _). exists w'. split; [exact E|exact H1].
Defined.
End Example.
