(* ===== verification/SessionWire.v ===== *)
(** * What a flush puts on the wire ([crates/native/src/session.rs])

    The queue of one stream against the bytes QUIC has accepted for it: a flush
    sends the queue in order, without loss or duplication, and settles each
    write exactly once. *)

From S2P Require Import Prelude H3 ParserMemory FrameParser Headers Net Quic SessionState.
From S2P Require Import SessionRecv SessionSend SessionInv.

(** The bytes of a queue that QUIC has not accepted, and the writes it will
    acknowledge. *)
Definition unsent (out : list OutChunk) : bytes := concat (map (fun c => drop (oc_off c) (oc_data c)) out).
Definition waiting (out : list OutChunk) : list N := omap oc_request_id out.
Definition acks (l : list N) : list Ev := map EvWriteAck l.

(** How the send loop leaves a queue: some of it sent, or all of it given up
    because the peer stopped the stream. *)
Inductive SendEnd := Sent | Stopped (code : N) (settled : list N).

(** The stream [st] became [st'] while [sent] was accepted and [acked] were
    acknowledged. *)
Definition sends (id : N) (st st' : Stream) (sent : bytes) (acked : list N) (e : SendEnd)
    (evs : list Ev) : Prop :=
  st_fin_queued st' = st_fin_queued st ∧
  match e with
  | Sent =>
      unsent (st_out st) = sent ++ unsent (st_out st') ∧
      waiting (st_out st) = acked ++ waiting (st_out st') ∧
      evs = acks acked
  | Stopped code settled =>
      st_out st' = [] ∧ st_fin_sent st' = true ∧ sent `prefix_of` unsent (st_out st) ∧
      waiting (st_out st) = acked ++ settled ∧
      evs = acks acked ++ EvStreamStopSending id code :: acks settled
  end.

Section wire.
Context {C : Type} {quic : Quic C} {quic_laws : QuicLaws C} {wire : QuicWire C}.

(** Nothing but stream [id] and its bytes on the wire changed. *)
Record only_stream (id : N) (st' : Stream) (sent : bytes) (w w' : World C) : Prop := mkOnlyStream {
  os_streams : ws_streams (w_ses w') = <[id := st']> (ws_streams (w_ses w));
  os_accepted id' : accepted (w_conn w') id' =
    accepted (w_conn w) id' ++ (if decide (id = id') then sent else []);
  os_closes : closes (w_conn w') = closes (w_conn w);
}.

Lemma only_stream_trans id st1 st2 sent1 sent2 (w w1 w2 : World C) :
  only_stream id st1 sent1 w w1 → only_stream id st2 sent2 w1 w2 →
  only_stream id st2 (sent1 ++ sent2) w w2.
Proof.
  intros [s1 a1 c1] [s2 a2 c2]. constructor; [|intros id'|congruence].
  - by rewrite s2, s1, insert_insert_eq.
  - rewrite a2, a1, <- app_assoc. by case_decide.
Qed.

Lemma with_stream_wp id f st (Q : () → World C → Prop) w :
  ws_streams (w_ses w) !! id = Some st →
  Q () (w <| w_ses ::= fun s => s <| ws_streams ::= <[id := f st]> |> |>) →
  wp (with_stream id f) Q w.
Proof.
  intros Hi HQ. apply wp_modify. destruct w as [s c u e]. destruct s. cbn in Hi.
  unfold upd in *. cbn in *. by rewrite (alter_insert_delete _ id f st Hi).
Qed.

Lemma acks_app l k : acks (l ++ k) = acks l ++ acks k.
Proof. apply map_app. Qed.

(** Settling the queue of a stopped stream. *)
Lemma ack_all_wp out (Q : () → World C → Prop) w :
  Q () (w <| w_ev ::= fun l => l ++ acks (waiting out) |>) → wp (ack_all out) Q w.
Proof.
  revert w. induction out as [|c out IH]; intros w HQ; cbn [ack_all].
  - apply wp_ret. unfold upd in HQ. cbn in HQ. rewrite app_nil_r in HQ. by destruct w.
  - apply wp_bind. unfold waiting in HQ. cbn in HQ.
    destruct (oc_request_id c); ses_steps; apply IH; [|done].
    unfold upd in *. cbn in *. by rewrite <- app_assoc.
Qed.

Lemma send_amount_le enforce is_payload n wt_sent s :
  (send_amount enforce is_payload n wt_sent s <= n)%nat.
Proof. unfold send_amount. case_match; lia. Qed.

(** What one round does to the stream [st], with [rest] behind its front. *)
Definition round (id : N) (st : Stream) (rest : list OutChunk) (w : World C) (go_on : bool)
    (w' : World C) : Prop :=
  ∃ st' sent acked e evs,
    only_stream id st' sent w w' ∧ sends id st st' sent acked e evs ∧ w_ev w' = w_ev w ++ evs ∧
    (e = Sent → st_fin_sent st' = st_fin_sent st) ∧ (e ≠ Sent → go_on = false) ∧
    (st_out st' = rest ∨ e ≠ Sent ∨
      go_on = false ∧ ∃ front', chunk_ok front' ∧ st_out st' = front' :: rest).

(** Nothing was accepted, and the loop ends. *)
Lemma round_idle id st front rest (w w' : World C) :
  st_out st = front :: rest → chunk_ok front → only_stream id st [] w w' → w_ev w' = w_ev w →
  round id st rest w false w'.
Proof.
  intros Hout Hok Hon Hev. exists st, [], [], Sent, []. rewrite app_nil_r.
  do 5 (split; [done|]). right; right. eauto.
Qed.

(** The front chunk was accepted whole or in part. *)
Lemma round_accepted id st st1 front rest sent (w w2 w' : World C) :
  st_out st = front :: rest → (oc_off front + sent <= length (oc_data front))%nat →
  st_out st1 = st_out st → st_fin_sent st1 = st_fin_sent st → st_fin_queued st1 = st_fin_queued st →
  only_stream id st1 (take sent (drop (oc_off front) (oc_data front))) w w2 → w_ev w2 = w_ev w →
  ws_streams (w_ses w2) !! id = Some st1 →
  let off := (oc_off front + sent)%nat in
  wp (if (length (oc_data front) <=? off)%nat then
        _ ← with_stream id (fun st => st <| st_out := rest |>);
        match oc_request_id front with
        | Some rid => push_ev (EvWriteAck rid)
        | None => mret ()
        end
      else with_stream id (fun st => st <| st_out := front <| oc_off := off |> :: rest |>))
    (fun _ w' => ∀ go_on,
      (go_on = true → (length (oc_data front) <= off)%nat) → round id st rest w go_on w') w2.
Proof.
  intros Hout Hfits Ho Hf Hq [s a c] Hev Hi2. cbv zeta.
  destruct (Nat.leb_spec (length (oc_data front)) (oc_off front + sent)) as [Hdone|Hmore].
  - apply wp_bind. eapply with_stream_wp; [exact Hi2|].
    assert (Hdrop : take sent (drop (oc_off front) (oc_data front)) = drop (oc_off front) (oc_data front)).
    { apply take_ge. rewrite length_drop. lia. }
    rewrite Hdrop in a.
    assert (Hround : ∀ w3 go_on, ws_streams (w_ses w3) = <[id := st1 <| st_out := rest |>]> (ws_streams (w_ses w2)) →
      w_conn w3 = w_conn w2 → w_ev w3 = w_ev w2 ++ acks (option_list (oc_request_id front)) →
      round id st rest w go_on w3).
    { intros w3 go_on H1 H2 H3.
      exists (st1 <| st_out := rest |>), (drop (oc_off front) (oc_data front)),
        (option_list (oc_request_id front)), Sent, (acks (option_list (oc_request_id front))).
      split; [constructor; [by rewrite H1, s, insert_insert_eq|by rewrite H2|by rewrite H2]|].
      split; [|split; [by rewrite H3, Hev|split; [done|split; [done|by left]]]].
      split; [done|]. cbn. rewrite Hout. unfold unsent, waiting. cbn. by destruct (oc_request_id front). }
    destruct (oc_request_id front) as [rid|]; ses_steps; intros go_on _; apply Hround; try done.
    cbn. by rewrite app_nil_r.
  - eapply with_stream_wp; [exact Hi2|]. intros go_on Hgo.
    exists (st1 <| st_out := front <| oc_off := (oc_off front + sent)%nat |> :: rest |>),
      (take sent (drop (oc_off front) (oc_data front))), [], Sent, [].
    split; [constructor; [cbn; by rewrite s, insert_insert_eq|exact a|exact c]|].
    split; [|split; [cbn; by rewrite Hev, app_nil_r|split; [done|split; [done|]]]].
    + split; [done|]. cbn. rewrite Hout. unfold unsent, waiting. cbn. split; [|done].
      rewrite app_assoc. f_equal. rewrite <- drop_drop. by rewrite take_drop.
    + right; right. split; [destruct go_on; [specialize (Hgo eq_refl); lia|done]|].
      eexists. split; [|done]. unfold chunk_ok. cbn. lia.
Qed.

(** Counting the payload of a stream leaves its queue alone. *)
Lemma count_payload_wp (payload : bool) id st n sent (w0 w : World C) :
  only_stream id st sent w0 w →
  wp (when payload (with_stream id (fun st => st <| st_send_payload ::= fun m => add64 m n |>)))
    (fun _ w' => ∃ st1, only_stream id st1 sent w0 w' ∧ w_ev w' = w_ev w ∧
      st_out st1 = st_out st ∧ st_fin_sent st1 = st_fin_sent st ∧ st_fin_queued st1 = st_fin_queued st ∧
      ws_streams (w_ses w') !! id = Some st1) w.
Proof.
  intros [s a c]. assert (Hi : ws_streams (w_ses w) !! id = Some st) by (by rewrite s, lookup_insert, decide_True).
  apply wp_when; intros _.
  - eapply with_stream_wp; [exact Hi|]. exists (st <| st_send_payload ::= fun m => add64 m n |>).
    split; [constructor; [cbn; by rewrite s, insert_insert_eq|exact a|exact c]|].
    do 4 (split; [done|]). cbn. by rewrite lookup_insert, decide_True.
  - by exists st.
Qed.

(** QUIC accepted [n] bytes, or none. *)
Lemma stream_send_only id st data fin r c (w : World C) :
  ws_streams (w_ses w) !! id = Some st → stream_send (w_conn w) id data fin = (r, c) →
  only_stream id st (match r with Ok n => take n data | Err _ => [] end) w (w <| w_conn := c |>).
Proof.
  intros Hi E. pose proof (send_closes (w_conn w) id data fin) as Hcl. rewrite E in Hcl.
  constructor; [by rewrite insert_id| |exact Hcl]. destruct r as [n|e]; intros id'; cbn.
  - by apply (send_accepts _ _ _ fin).
  - rewrite (send_refuses _ _ _ _ _ _ E). case_decide; by rewrite app_nil_r.
Qed.

Lemma send_front_wp id enforce is_wt front rest wt_sent w st :
  ws_streams (w_ses w) !! id = Some st → st_out st = front :: rest → chunk_ok front →
  wp (send_front id enforce is_wt front rest wt_sent) (fun r w' => round id st rest w r.1 w') w.
Proof.
  intros Hi Hout Hok. unfold send_front. ses_steps.
  set (payload := is_wt && _). set (amount := send_amount _ _ _ _ _).
  assert (Hle : (amount <= length (oc_data front) - oc_off front)%nat) by apply send_amount_le.
  clearbody payload amount. pose proof Hok as Hoff. unfold chunk_ok in Hoff.
  destruct (_ && _).
  { apply wp_ret, (round_idle id st front); [done|done| |done].
    constructor; [by rewrite insert_id|intros id'; case_decide; by rewrite app_nil_r|done]. }
  destruct (Nat.leb_spec (oc_off front + amount) (length (oc_data front))) as [_|]; [|lia].
  cbn [negb]. apply wp_bind, wp_conn.
  destruct (stream_send _ _ _ _) as [r c] eqn:E. cbn [fst snd].
  pose proof (stream_send_only id st _ _ _ _ w Hi E) as Hon.
  destruct r as [sent|[| |code|code|]];
    try (apply wp_ret; by apply (round_idle id st front)).
  - pose proof (send_fits _ _ _ _ _ _ E) as Hfits. rewrite length_take, length_drop in Hfits.
    rewrite take_take, Nat.min_l in Hon by lia.
    apply wp_bind. eapply wp_mono; [by eapply count_payload_wp|]. cbv beta.
    intros _ w1 (st1 & Hon1 & Hev1 & Ho & Hf & Hq & Hi1).
    apply wp_bind. eapply wp_mono; [eapply (round_accepted id st st1 front rest sent w); try done; lia|].
    cbv beta. intros _ w2 Hround. apply wp_ret, Hround. cbn [fst].
    intros ?%negb_true_iff%Nat.ltb_ge. lia.
  - ses_steps. apply ack_all_wp. ses_steps. eapply with_stream_wp; [exact Hi|]. apply wp_ret.
    destruct Hon as [_ a1 c1].
    exists (st <| st_out := [] |> <| st_fin_sent := true |>), [], [],
      (Stopped (default code (http_code_to_webtransport_code code)) (waiting (front :: rest))),
      (EvStreamStopSending id (default code (http_code_to_webtransport_code code)) ::
         acks (waiting (front :: rest))).
    split; [by constructor|]. split; [|split; [cbn; by rewrite <- app_assoc|]].
    + split; [done|]. cbn [sends]. rewrite Hout. do 2 (split; [done|]).
      split; [apply prefix_nil|]. done.
    + split; [done|]. split; [done|]. by right; left.
Qed.

(** Two ends in a row. *)
Lemma sends_trans id st st1 st2 sent1 sent2 acked1 acked2 e evs1 evs2 :
  sends id st st1 sent1 acked1 Sent evs1 → sends id st1 st2 sent2 acked2 e evs2 →
  sends id st st2 (sent1 ++ sent2) (acked1 ++ acked2) e (evs1 ++ evs2).
Proof.
  intros (Hq1 & U1 & W1 & ->) (Hq2 & H). split; [congruence|]. destruct e.
  - destruct H as (U2 & W2 & ->). rewrite U1, U2, W1, W2, acks_app, !app_assoc. done.
  - destruct H as (H1 & H2 & H3 & H4 & ->). split; [done|]. split; [done|].
    split; [rewrite U1; by apply prefix_app|]. by rewrite W1, H4, acks_app, <- !app_assoc.
Qed.

Lemma flush_loop_wp fuel id enforce is_wt wt_sent w st :
  ws_streams (w_ses w) !! id = Some st → Forall chunk_ok (st_out st) →
  (length (st_out st) < fuel)%nat →
  wp (flush_loop fuel id enforce is_wt wt_sent) (fun r w' =>
    ∃ st' sent acked e evs,
      only_stream id st' sent w w' ∧ sends id st st' sent acked e evs ∧ w_ev w' = w_ev w ++ evs ∧
      (e = Sent → st_fin_sent st' = st_fin_sent st) ∧
      (r.1 = true → e = Sent ∧ st_out st' = [])) w.
Proof.
  revert wt_sent w st. induction fuel as [|fuel IH]; intros wt_sent w st Hi Hok Hfuel; [lia|].
  cbn [flush_loop]. ses_steps. eapply wp_unwrap; [exact Hi|].
  destruct (st_out st) as [|front rest] eqn:Hout.
  { apply wp_ret. exists st, [], [], Sent, []. rewrite app_nil_r.
    split; [constructor; [by rewrite insert_id|intros id'; case_decide; by rewrite app_nil_r|done]|].
    done. }
  inversion_clear Hok as [|? ? Hfront Hrest]. apply wp_bind.
  eapply wp_mono; [by eapply send_front_wp|]. cbv beta.
  intros [go_on wt_sent'] w1 (st1 & sent & acked & e & evs & Hon & Hs & Hev & Hf & Hgo & Hq).
  cbn [fst] in *. destruct go_on.
  - destruct e as [|code settled]; [|by specialize (Hgo ltac:(done))].
    destruct Hq as [Hq|[?|[? _]]]; [|done|done].
    assert (Hi1 : ws_streams (w_ses w1) !! id = Some st1)
      by (by rewrite (os_streams _ _ _ _ _ Hon), lookup_insert, decide_True).
    eapply wp_mono; [apply (IH wt_sent' w1 st1 Hi1); rewrite Hq; [done|cbn in Hfuel; lia]|]. cbv beta.
    intros r w2 (st2 & sent2 & acked2 & e2 & evs2 & Hon2 & Hs2 & Hev2 & Hf2 & Hr).
    exists st2, (sent ++ sent2), (acked ++ acked2), e2, (evs ++ evs2).
    split; [by eapply only_stream_trans|]. split; [by eapply sends_trans|].
    split; [by rewrite Hev2, Hev, app_assoc|]. split; [|done].
    intros He. by rewrite Hf2, Hf.
  - apply wp_ret. exists st1, sent, acked, e, evs. do 3 (split; [done|]). split; done.
Qed.

(** Returning the credit of a reset leaves the queue alone. *)
Lemma reconcile_wp id st (w : World C) :
  ws_streams (w_ses w) !! id = Some st →
  wp (reconcile_send_final_size id) (fun _ w' => ∃ st1,
    only_stream id st1 [] w w' ∧ w_ev w' = w_ev w ∧ st_out st1 = st_out st ∧
    st_fin_sent st1 = st_fin_sent st ∧ st_fin_queued st1 = st_fin_queued st) w.
Proof.
  intros Hi. unfold reconcile_send_final_size. ses_steps.
  assert (Hsame : ∃ st1, only_stream id st1 [] w w ∧ w_ev w = w_ev w ∧ st_out st1 = st_out st ∧
    st_fin_sent st1 = st_fin_sent st ∧ st_fin_queued st1 = st_fin_queued st).
  { exists st. split; [|done].
    constructor; [by rewrite insert_id|intros id'; case_decide; by rewrite app_nil_r|done]. }
  destruct (stream_send_final_size _ _) as [size|]; [|by apply wp_ret]. rewrite Hi.
  destruct (negb _); [by apply wp_ret|]. cbv zeta. destruct (_ <? _); [|by apply wp_ret].
  ses_steps. eapply with_stream_wp; [exact Hi|].
  exists (st <| st_send_payload := size - st_send_prefix st |>). split; [|done].
  constructor; [done|intros id'; case_decide; by rewrite app_nil_r|done].
Qed.

Lemma flush_stream_wp id wt_sent (w : World C) st :
  ws_streams (w_ses w) !! id = Some st → Forall chunk_ok (st_out st) →
  wp (flush_stream id wt_sent) (fun _ w' => ∃ st' sent acked e evs,
    only_stream id st' sent w w' ∧ sends id st st' sent acked e evs ∧ w_ev w' = w_ev w ++ evs ∧
    (e = Sent → st_fin_sent st' = true →
       st_fin_sent st = true ∨ st_fin_queued st = true ∧ st_out st' = [])) w.
Proof.
  intros Hi Hok. unfold flush_stream. apply wp_bind. eapply wp_mono; [by apply reconcile_wp|].
  cbv beta. intros _ w1 (st1 & Hon1 & Hev1 & Ho & Hf & Hq). ses_steps.
  assert (Hi1 : ws_streams (w_ses w1) !! id = Some st1)
    by (by rewrite (os_streams _ _ _ _ _ Hon1), lookup_insert, decide_True).
  rewrite Hi1. ses_steps.
  eapply wp_mono; [apply (flush_loop_wp _ id _ _ wt_sent w1 st1 Hi1); [by rewrite Ho|lia]|].
  cbv beta. intros [go_on wt_sent'] w2 (st2 & sent & acked & e & evs & Hon2 & Hs2 & Hev2 & Hf2 & Hgo).
  cbn [fst] in Hgo. pose proof (only_stream_trans _ _ _ _ _ _ _ _ Hon1 Hon2) as Hon. cbn [app] in Hon.
  assert (Hs : sends id st st2 sent acked e evs).
  { destruct Hs2 as [Hq2 H]. split; [congruence|]. by rewrite <- Ho. }
  rewrite Hev1 in Hev2.
  assert (Hdone : ∃ st' sent acked e evs, only_stream id st' sent w w2 ∧
    sends id st st' sent acked e evs ∧ w_ev w2 = w_ev w ++ evs ∧
    (e = Sent → st_fin_sent st' = true →
       st_fin_sent st = true ∨ st_fin_queued st = true ∧ st_out st' = [])).
  { exists st2, sent, acked, e, evs. do 3 (split; [done|]). intros He Hfin. left.
    by rewrite <- Hf, <- (Hf2 He). }
  destruct go_on; [|by apply wp_ret]. cbn [negb]. ses_steps.
  assert (Hi2 : ws_streams (w_ses w2) !! id = Some st2)
    by (by rewrite (os_streams _ _ _ _ _ Hon), lookup_insert, decide_True).
  rewrite Hi2. destruct (Hgo eq_refl) as [-> Hempty].
  destruct (_ && _) eqn:Hfin; [|by apply wp_ret].
  apply andb_true_iff in Hfin as [[_ Hfq]%andb_true_iff _].
  apply wp_bind, wp_conn. destruct (stream_send _ _ _ _) as [r c] eqn:E. cbn [fst snd].
  pose proof (stream_send_only id st2 _ _ _ _ w2 Hi2 E) as Hon3.
  assert (Hon4 : only_stream id st2 [] w2 (w2 <| w_conn := c |>)) by (destruct r as [[]|]; exact Hon3).
  pose proof (only_stream_trans _ _ _ _ _ _ _ _ Hon Hon4) as [s a cl].
  change (w_ses (w2 <| w_conn := c |>)) with (w_ses w2) in s. rewrite app_nil_r in a.
  assert (Hq2 : st_fin_queued st2 = st_fin_queued st) by apply Hs.
  destruct r as [n|err]; ses_steps.
  - eapply with_stream_wp; [exact Hi2|]. apply wp_ret.
    exists (st2 <| st_fin_sent := true |>), sent, acked, Sent, evs.
    split; [constructor; [cbn; by rewrite s, insert_insert_eq|exact a|exact cl]|].
    split; [exact Hs|]. split; [exact Hev2|]. intros _ _. right. by rewrite <- Hq2.
  - exists st2, sent, acked, Sent, evs. split; [by constructor|]. split; [done|]. split; [exact Hev2|].
    intros _ Hfin. left. by rewrite <- Hf, <- (Hf2 eq_refl).
Qed.

(** C14: a flush of one stream sends its queue in order, without loss or
    duplication, and settles each write exactly once: what QUIC accepted and
    what is left make up what was queued; the acknowledged writes and those
    left make up the writes that were waiting, in order; the FIN is marked sent
    only behind an empty queue.  If the peer has stopped the stream, everything
    left is given up: the application hears so once, and every waiting write
    is settled.  No other stream or byte on the wire changes. *)
Theorem flush_stream_transmits id wt_sent (w : World C) st :
  ws_streams (w_ses w) !! id = Some st → Forall chunk_ok (st_out st) →
  wp (flush_stream id wt_sent) (fun _ w' => ∃ st' sent acked e evs,
    only_stream id st' sent w w' ∧ sends id st st' sent acked e evs ∧ w_ev w' = w_ev w ++ evs ∧
    (e = Sent → st_fin_sent st' = true →
       st_fin_sent st = true ∨ st_fin_queued st = true ∧ st_out st' = [])) w.
Proof. by apply flush_stream_wp. Qed.
End wire.

(** ** A concrete stream, of which three bytes fit *)

Module Example.
#[local] Existing Instance exact_allocator.

Definition memory : ParserMemory := PMRoot 0 MAX_SESSION_PARSER_MEMORY.
Definition stream : Stream := (new_stream (WtData true) memory)
  <| st_out := [mkOutChunk (s2b "AB") 0 (Some 7); mkOutChunk (s2b "CDE") 0 (Some 8)] |>
  <| st_fin_queued := true |>.
Definition world : World ToyConn :=
  mkWorld ((blank_session memory) <| ws_streams := {[ 4 := stream ]} |>)
    (toy_new <| toy_credit := fun _ => 3%nat |>) {[0 := 0]} [].

Lemma flush_stream_transmits_witness :
  ∃ w' st', flush_stream 4 0 world = Some (3, w') ∧ accepted (w_conn w') 4 = s2b "ABC" ∧
    ws_streams (w_ses w') !! 4 = Some st' ∧ unsent (st_out st') = s2b "DE" ∧ waiting (st_out st') = [8].
Proof.
  assert (Hok : Forall chunk_ok (st_out stream)) by (repeat constructor; apply Nat.le_0_l).
  pose proof (flush_stream_transmits 4 0 world stream eq_refl Hok) as H.
  apply wp_elim in H as (n & w' & E & st' & sent & acked & e & evs & Hon & Hs & _).
  pose proof (f_equal (fun o => match o with
    | Some (n, w) => (n, accepted (w_conn w) 4, w_ev w) | None => (0, [], []) end) E) as Hc.
  cbv beta iota in Hc.
  match type of Hc with ?a = _ =>
    replace a with (3, s2b "ABC", [EvWriteAck 7]) in Hc by (vm_compute; reflexivity) end.
  injection Hc as <- Ha Hev. exists w', st'. split; [exact E|]. split; [exact (eq_sym Ha)|].
  split; [by rewrite (os_streams _ _ _ _ _ Hon), lookup_insert, decide_True|].
  pose proof (f_equal (fun o => match o with
    | Some (_, w) => (fun st => (unsent (st_out st), waiting (st_out st))) <$> ws_streams (w_ses w) !! 4
    | None => None end) E) as Hc.
  cbv beta iota in Hc. rewrite (os_streams _ _ _ _ _ Hon), lookup_insert, decide_True in Hc by done.
  match type of Hc with ?a = _ =>
    replace a with (Some (s2b "DE", [8])) in Hc by (vm_compute; reflexivity) end.
  by injection Hc as <- <-.
Defined.
End Example.
