(* ===== verification/SessionTable.v ===== *)
(** * What the receiving side leaves of the stream table ([crates/native/src/session.rs])

    The roles of the streams, their queues and what has been counted of them
    belong to the sending side.  Reading touches them in few ways: something is
    queued on the CONNECT stream, a pending stream is given its role, a stream is
    forgotten.  A property of the table that these respect holds through all of
    reading; the file shows that once, for any such property. *)

From S2P Require Import Prelude H3 ParserMemory FrameParser Headers Net Quic SessionState.
From S2P Require Import SessionRecv SessionConnect SessionStreams SessionSend.

(** ** Interfaces *)

(** What is remembered of the connection: a relation that every operation but
    [stream_send] steps along. *)
Class ConnStep C `{Quic C} := {
  quieter : relation C;
  quieter_preorder :: PreOrder quieter;
  quieter_recv c id len : quieter c (stream_recv c id len).2;
  quieter_shutdown c id dir code : quieter c (stream_shutdown c id dir code);
  quieter_close c app code reason : quieter c (conn_close c app code reason);
  quieter_dgram_recv c len : quieter c (dgram_recv c len).2;
  quieter_dgram_send c d : quieter c (dgram_send c d).2;
  quieter_export c len label context : quieter c (export_keying_material c len label context).2;
}.

(** Roles that classification gives, and roles it is given for. *)
Definition unresolved (role : Role) : bool := match role with PendingUni | PendingBidi => true | _ => false end.
Definition resolved (role : Role) : bool :=
  match role with PeerControl | PeerQpack _ | WtData _ | Ignored => true | _ => false end.

Section table.
Context {C : Type} {quic : Quic C} {conn_step : ConnStep C}.

(** The sending side's part of a stream and of the session. *)
Definition ent (st : Stream) : Role * list OutChunk * N * N :=
  (st_role st, st_out st, st_send_payload st, st_send_prefix st).
Definition scalars (s : WtSession) :=
  (ws_is_server s, ws_fc_data_sent s, ws_next_bidi s, ws_next_uni s, ws_pending_opens s).

Record alike (w w' : World C) : Prop := mkAlike {
  al_entries id : ent <$> ws_streams (w_ses w') !! id = ent <$> ws_streams (w_ses w) !! id;
  al_scalars : scalars (w_ses w') = scalars (w_ses w);
  al_conn : quieter (w_conn w) (w_conn w');
}.

Lemma alike_refl w : alike w w.
Proof. by constructor. Qed.
Lemma alike_trans w w1 w2 : alike w w1 → alike w1 w2 → alike w w2.
Proof.
  intros [E1 S1 Q1] [E2 S2 Q2]. constructor; [|congruence|by etrans].
  intros id. by rewrite E2.
Qed.

(** A property of the table: of nothing else. *)
Class Blind (I : World C → Prop) := blind w w' : alike w w' → I w → I w'.

(** One that reading respects. *)
Class Kept (I : World C → Prop) := {
  kept_blind :: Blind I;
  kept_connect_id w id st : I w → ws_streams (w_ses w) !! id = Some st → st_role st = Connect → id = CONNECT_ID;
  kept_connect w f : (∀ st, st_role (f st) = st_role st) → I w →
    I (w <| w_ses ::= fun s => s <| ws_streams ::= alter f CONNECT_ID |> |>);
  kept_insert w st : st_role st = Connect → I w →
    I (w <| w_ses ::= fun s => s <| ws_streams ::= <[CONNECT_ID := st]> |> |>);
  kept_shrink w m : m ⊆ ws_streams (w_ses w) → I w → I (w <| w_ses ::= fun s => s <| ws_streams := m |> |>);
  kept_resolve w id st role : ws_streams (w_ses w) !! id = Some st → unresolved (st_role st) = true →
    resolved role = true → I w →
    I (w <| w_ses ::= fun s => s <| ws_streams ::= alter (fun st => st <| st_role := role |>) id |> |>);
}.

#[export] Instance alike_blind w0 : Blind (alike w0).
Proof. intros w w' H1 H0. by eapply alike_trans. Qed.

Context (I : World C → Prop).
Abbreviation Method := (M (World C)).
Record mt {A} (m : Method A) : Prop := Mt { run_mt w : I w → wlp m (fun _ w' => I w') w }.

Lemma mt_ret {A} (a : A) : mt (mret a).
Proof. split; intros w Hw. by apply wlp_ret. Qed.
Lemma mt_bind {A B} (m : Method A) (k : A → Method B) : mt m → (∀ a, mt (k a)) → mt (m ≫= k).
Proof.
  intros Hm Hk. split; intros w Hw. apply wlp_bind. eapply wlp_mono; [by apply Hm|]. cbv beta. intros a w1 H1.
  by apply Hk.
Qed.
Lemma mt_gets {A} (f : World C → A) : mt (gets f).
Proof. split; intros w Hw. by apply wlp_gets. Qed.
Lemma mt_unwrap {A} (o : option A) : mt (unwrap o).
Proof. split; intros w Hw. by apply wlp_unwrap. Qed.
Lemma mt_panic {A} : mt (@panic (World C) A).
Proof. split; intros w Hw. apply wlp_panic. Qed.
Lemma mt_when b m : mt m → mt (when b m).
Proof. destruct b; [done|]. intros _. apply mt_ret. Qed.

Context {blind_I : Blind I}.

Lemma mt_modify f : (∀ w, alike w (f w)) → mt (modify f).
Proof. intros Hf. split; intros w Hw. apply wlp_modify. by apply (blind w). Qed.
Lemma mt_set_ses f : (∀ s, scalars (f s) = scalars s) → (∀ s, ws_streams (f s) = ws_streams s) → mt (set_ses f).
Proof. intros H1 H2. apply mt_modify. intros w. constructor; [|apply H1|done]. intros id. cbn. by rewrite H2. Qed.
Lemma mt_push_ev e : mt (push_ev e).
Proof. by apply mt_modify. Qed.
Lemma mt_mem {A} (m : M Usage A) : mt (mem m).
Proof.
  split; intros w Hw a w'. unfold mem. destruct (m (w_mem w)) as [[b u]|]; [|done]. intros [= <- <-].
  by apply (blind w).
Qed.
Lemma mt_conn {A} (f : C → A * C) : (∀ c, quieter c (f c).2) → mt (conn f).
Proof.
  intros Hf. split; intros w Hw a w'. unfold conn. specialize (Hf (w_conn w)).
  destruct (f (w_conn w)). intros [= <- <-]. by apply (blind w).
Qed.
Lemma mt_conn_ f : (∀ c, quieter c (f c)) → mt (conn_ f).
Proof. intros Hf. apply mt_modify. intros w. constructor; [done|done|apply Hf]. Qed.
Lemma alike_alter f id w :
  (∀ st, ent (f st) = ent st) → alike w (w <| w_ses ::= fun s => s <| ws_streams ::= alter f id |> |>).
Proof.
  intros Hf. constructor; [|done|done]. intros i. cbn. rewrite lookup_alter. case_decide; [|done].
  subst. destruct (ws_streams (w_ses w) !! i); [|done]. cbn. by rewrite Hf.
Qed.
Lemma mt_with_stream id f : (∀ st, ent (f st) = ent st) → mt (with_stream id f).
Proof. intros Hf. apply mt_modify. intros w. by apply alike_alter. Qed.
End table.

#[global] Hint Resolve quieter_recv quieter_shutdown quieter_close quieter_dgram_recv quieter_dgram_send : core.

Create HintDb table discriminated.
#[export] Hint Constants Opaque : table.
#[export] Hint Extern 0 (Blind _) => apply _ : table.
#[export] Hint Extern 0 (Kept _) => apply _ : table.

(** Follow the structure of a method, as [keep] does. *)
Ltac mt_step :=
  lazymatch goal with
  | |- mt _ (mbind _ _) => apply mt_bind; [|intros ?]
  | |- mt _ (mret _) => apply mt_ret
  | |- mt _ (ses _) => apply mt_gets
  | |- mt _ (get_stream _) => apply mt_gets
  | |- mt _ (gets _) => apply mt_gets
  | |- mt _ (set_ses _) => apply mt_set_ses; [apply _|intros ?; reflexivity|intros ?; reflexivity]
  | |- mt _ (with_stream _ _) => apply mt_with_stream; [apply _|intros ?; reflexivity]
  | |- mt _ (push_ev _) => apply mt_push_ev; apply _
  | |- mt _ (mem _) => apply mt_mem; apply _
  | |- mt _ (conn _) => apply mt_conn; [apply _|intros ?; auto]
  | |- mt _ (conn_ _) => apply mt_conn_; [apply _|intros ?; auto]
  | |- mt _ (unwrap _) => apply mt_unwrap
  | |- mt _ panic => apply mt_panic
  | |- mt _ (when _ _) => apply mt_when
  | |- mt _ (match ?x with _ => _ end) => destruct x
  | |- mt _ (let _ := _ in _) => cbv zeta
  | |- mt _ _ => solve [eauto with table]
  end.
Ltac mt := repeat mt_step.

(** ** Methods that leave the table alone *)

Section blind_methods.
Context {C : Type} {quic : Quic C} {conn_step : ConnStep C} {alloc : Allocator} {qpack : Qpack} {sfv : Sfv}.
Context (I : World C → Prop) {blind_I : Blind I}.

Lemma clear_streams_entries l u l' u' id :
  clear_streams l u = Some (l', u') →
  ent <$> (list_to_map l' : gmap N Stream) !! id = ent <$> (list_to_map l : gmap N Stream) !! id.
Proof.
  revert u l'. induction l as [|[i st] l IH]; intros u l'; cbn [clear_streams]; [by intros [= <- <-]|].
  unfold clear_stream, mbind, M_bind. destruct (buf_clear _ u) as [[b1 u1]|]; [|done].
  destruct (buf_clear _ u1) as [[b2 u2]|]; [|done]. cbn.
  destruct (clear_streams l u2) as [[l1 u3]|] eqn:E; [|done]. intros [= <- <-]. cbn.
  rewrite !lookup_insert. case_decide; [done|]. by apply (IH u2).
Qed.

Lemma mt_mark_closed code reason remote : mt I (mark_closed code reason remote).
Proof.
  unfold mark_closed. mt_step; [mt|]. destruct a; [mt|]. do 4 (mt_step; [mt|]).
  split. intros w Hw. apply wlp_bind, wlp_gets, wlp_bind. intros l w1. unfold mem.
  destruct (clear_streams _ _) as [[l' u]|] eqn:E; [|done]. intros [= <- <-].
  apply wlp_bind, wlp_modify, wlp_modify. apply (blind w); [|done]. constructor; [|done|done].
  intros id. cbn. rewrite (clear_streams_entries _ _ _ _ id E). by rewrite list_to_map_to_list.
Qed.
#[local] Hint Resolve mt_mark_closed : table.

Lemma mt_parser_limit_exceeded : mt I parser_limit_exceeded.
Proof. unfold parser_limit_exceeded. mt. Qed.
Lemma mt_flow_error message : mt I (flow_error message).
Proof. unfold flow_error. mt. Qed.
Lemma mt_protocol_error code message : mt I (protocol_error code message).
Proof. unfold protocol_error. mt. Qed.
Lemma mt_frame_error id : mt I (frame_error id).
Proof. unfold frame_error. mt. Qed.
Lemma mt_class_buf_clear id : mt I (class_buf_clear id).
Proof. unfold class_buf_clear. mt. Qed.
Lemma mt_frames_clear id : mt I (frames_clear id).
Proof. unfold frames_clear. mt. Qed.
Lemma mt_frames_push id chunk : mt I (frames_push id chunk).
Proof. unfold frames_push. mt. Qed.
Lemma mt_frames_next id : mt I (frames_next id).
Proof. unfold frames_next. mt. Qed.
#[local] Hint Resolve mt_parser_limit_exceeded mt_flow_error mt_protocol_error mt_frame_error
  mt_class_buf_clear mt_frames_clear mt_frames_push mt_frames_next : table.
Lemma mt_kill_recv id : mt I (kill_recv id).
Proof. unfold kill_recv. mt. Qed.
Lemma mt_account_incoming bidi : mt I (account_incoming bidi).
Proof. unfold account_incoming. mt. Qed.
Lemma mt_account_receive id amount : mt I (account_receive id amount).
Proof. unfold account_receive. mt. Qed.
Lemma mt_class_buf_extend id chunk : mt I (class_buf_extend id chunk).
Proof. unfold class_buf_extend. mt. Qed.
Lemma mt_handle_flow_capsule ty value : mt I (handle_flow_capsule ty value).
Proof. unfold handle_flow_capsule, raise_limit. mt. Qed.
#[local] Hint Resolve mt_handle_flow_capsule : table.
Lemma mt_handle_capsule ty value : mt I (handle_capsule ty value).
Proof. unfold handle_capsule. mt. Qed.
#[local] Hint Resolve mt_handle_capsule : table.
Lemma mt_scan_loop fuel : mt I (scan_loop fuel).
Proof. induction fuel; cbn [scan_loop]; mt. Qed.
#[local] Hint Resolve mt_scan_loop : table.
Lemma mt_scan_capsules payload : mt I (scan_capsules payload).
Proof. unfold scan_capsules. mt. Qed.
Lemma mt_handle_response headers : mt I (handle_response headers).
Proof. unfold handle_response. mt. Qed.
#[local] Hint Resolve mt_scan_capsules mt_handle_response : table.
Lemma mt_connect_loop fuel id : mt I (connect_loop fuel id).
Proof. induction fuel; cbn [connect_loop]; mt. Qed.
#[local] Hint Resolve mt_connect_loop : table.
Lemma mt_parse_connect_frames id : mt I (parse_connect_frames id).
Proof. unfold parse_connect_frames. mt. Qed.
Lemma mt_handle_reset id code : mt I (handle_reset id code).
Proof. unfold handle_reset. mt. Qed.
Lemma mt_dgram_loop fuel : mt I (dgram_loop fuel).
Proof. induction fuel; cbn [dgram_loop]; mt. Qed.
#[local] Hint Resolve mt_dgram_loop : table.
Lemma mt_on_datagrams : mt I on_datagrams.
Proof. unfold on_datagrams. mt. Qed.
Lemma mt_send_datagram data rid : mt I (send_datagram data rid).
Proof. unfold send_datagram. mt. Qed.
Lemma mt_ack_all out : mt I (ack_all out).
Proof. induction out; cbn [ack_all]; mt. Qed.
End blind_methods.

#[export] Hint Resolve mt_mark_closed mt_parser_limit_exceeded mt_flow_error mt_protocol_error
  mt_frame_error mt_class_buf_clear mt_frames_clear mt_frames_push mt_frames_next mt_kill_recv
  mt_account_incoming mt_account_receive mt_class_buf_extend mt_scan_capsules mt_handle_response
  mt_parse_connect_frames mt_handle_reset mt_on_datagrams mt_send_datagram : table.

(** ** Reading *)

Section reading.
Context {C : Type} {quic : Quic C} {conn_step : ConnStep C} {alloc : Allocator} {qpack : Qpack} {sfv : Sfv}.
Context (I : World C → Prop) {kept_I : Kept I}.

Lemma mt_alter_connect f : (∀ st, st_role (f st) = st_role st) → mt I (with_stream CONNECT_ID f).
Proof. intros Hf. split; intros w Hw. apply wlp_modify. by apply kept_connect. Qed.
Lemma mt_push_connect chunk : mt I (push_out CONNECT_ID chunk).
Proof. by apply mt_alter_connect. Qed.
#[local] Hint Resolve mt_push_connect : table.
Lemma mt_insert_connect st : st_role st = Connect → mt I (insert_stream CONNECT_ID st).
Proof.
  intros Hr. apply mt_bind; [apply mt_gets|]. intros old. apply mt_bind.
  - split; intros w Hw. apply wlp_modify. by apply kept_insert.
  - intros _. mt.
Qed.
Lemma mt_remove_stream id : mt I (remove_stream id).
Proof.
  apply mt_bind; [apply mt_gets|]. intros old. apply mt_bind.
  - split; intros w Hw. apply wlp_modify. apply (kept_shrink w (delete id (ws_streams (w_ses w)))); [apply delete_subseteq|done].
  - intros _. mt.
Qed.
#[local] Hint Resolve mt_remove_stream : table.

Lemma mt_reject_connect status : mt I (reject_connect CONNECT_ID status).
Proof. unfold reject_connect. repeat first [apply mt_alter_connect; intros ?; reflexivity|mt_step]. Qed.
#[local] Hint Resolve mt_reject_connect : table.
Lemma mt_accept_connect headers : mt I (accept_connect CONNECT_ID headers).
Proof. unfold accept_connect. mt. Qed.
#[local] Hint Resolve mt_accept_connect : table.
Lemma mt_server_connect_loop fuel : mt I (server_connect_loop fuel CONNECT_ID).
Proof. induction fuel; cbn [server_connect_loop]; mt. Qed.
#[local] Hint Resolve mt_server_connect_loop : table.
Lemma mt_parse_server_connect_frames : mt I (parse_server_connect_frames CONNECT_ID).
Proof. unfold parse_server_connect_frames. mt. Qed.
Lemma mt_queue_connect : mt I queue_connect.
Proof. unfold queue_connect. mt. apply mt_insert_connect. unfold with_prefix. by case_match. Qed.
#[local] Hint Resolve mt_parse_server_connect_frames mt_queue_connect : table.
Lemma mt_apply_peer_settings settings : mt I (apply_peer_settings settings).
Proof. unfold apply_peer_settings. mt. Qed.
#[local] Hint Resolve mt_apply_peer_settings : table.
Lemma mt_handle_control_frame id ty payload first : mt I (handle_control_frame id ty payload first).
Proof. unfold handle_control_frame. mt. Qed.
#[local] Hint Resolve mt_handle_control_frame : table.
Lemma mt_control_loop fuel id : mt I (control_loop fuel id).
Proof. induction fuel; cbn [control_loop]; mt. Qed.
#[local] Hint Resolve mt_control_loop : table.
Lemma mt_process_peer_control id chunk fin : mt I (process_peer_control id chunk fin).
Proof. unfold process_peer_control, parse_control_frames. mt. Qed.
Lemma mt_process_connect chunk fin : mt I (process_connect CONNECT_ID chunk fin).
Proof. unfold process_connect. mt. Qed.
#[local] Hint Resolve mt_process_peer_control mt_process_connect : table.

(** *** Classification

    From a world in which the stream is pending. *)

Definition pending_at (id : N) (w : World C) : Prop :=
  ∃ st, ws_streams (w_ses w) !! id = Some st ∧ unresolved (st_role st) = true.

Lemma alike_pending id w w' : alike w w' → pending_at id w → pending_at id w'.
Proof.
  intros [E _ _] (st & Hst & Hu). specialize (E id). rewrite Hst in E. unfold pending_at.
  destruct (ws_streams (w_ses w') !! id) as [st'|]; [|done]. injection E as E _ _ _. exists st'. by rewrite E.
Qed.

(** The methods that keep [I] in such a world. *)
Definition from_pending {A} (id : N) (m : M (World C) A) : Prop :=
  ∀ w, I w → pending_at id w → wlp m (fun _ w' => I w') w.

Lemma pending_mt {A} id (m : M (World C) A) : mt I m → from_pending id m.
Proof. intros H w Hw _. by apply H. Qed.
(** Something that leaves the table alone first. *)
Lemma pending_bind {A B} id (m : M (World C) A) (k : A → M (World C) B) :
  (∀ w0 : World C, mt (alike w0) m) → mt I m → (∀ a, from_pending id (k a)) → from_pending id (m ≫= k).
Proof.
  intros Ha Hm Hk w Hw Hp. apply wlp_bind. eapply wlp_mono.
  { apply wlp_and; [apply Hm, Hw|apply (Ha w), alike_refl]. }
  cbv beta. intros a w1 [H1 H2]. apply Hk; [done|]. by eapply alike_pending.
Qed.
Lemma set_role_kept id role : resolved role = true → from_pending id (set_role id role).
Proof.
  intros Hr w Hw (st & Hst & Hu). apply wlp_bind, wlp_modify. apply mt_class_buf_clear; [apply _|].
  by eapply kept_resolve.
Qed.
Lemma pending_set_role {B} id role (k : () → M (World C) B) :
  resolved role = true → (∀ a, mt I (k a)) → from_pending id (set_role id role ≫= k).
Proof.
  intros Hr Hk w Hw Hp. apply wlp_bind. eapply wlp_mono; [by apply set_role_kept|]. cbv beta.
  intros a w1 H1. by apply Hk.
Qed.
Lemma resolve_session_kept id bidi buf n fin : from_pending id (resolve_session id bidi buf n fin).
Proof.
  unfold resolve_session. destruct (read_varint _) as [[session n2]|]; [|apply pending_mt; mt].
  destruct (negb _).
  - apply pending_bind; [intros w0; mt|mt|]. intros _. by apply set_role_kept.
  - apply pending_set_role; [done|]. intros _. mt.
Qed.
Lemma resolve_pending_uni_kept id chunk fin : from_pending id (resolve_pending_uni id chunk fin).
Proof.
  apply pending_bind; [intros w0; mt|mt|]. intros [buf|]; [|apply pending_mt; mt].
  destruct (read_varint buf) as [[ty n]|]; [|apply pending_mt; mt].
  apply pending_bind; [intros w0; mt|mt|]. intros streams.
  destruct (ty =? H3_CONTROL_STREAM_TYPE).
  { destruct (other_has_role _ _ _); [apply pending_mt; mt|]. apply pending_set_role; [done|]. intros _. mt. }
  destruct (_ || _).
  { cbv zeta. destruct (other_has_role _ _ _); [apply pending_mt; mt|]. apply pending_set_role; [done|]. intros _. mt. }
  destruct (ty =? WT_UNI_STREAM_TYPE); [apply resolve_session_kept|by apply set_role_kept].
Qed.
Lemma resolve_pending_bidi_kept id chunk fin : from_pending id (resolve_pending_bidi id chunk fin).
Proof.
  apply pending_bind; [intros w0; mt|mt|]. intros [buf|]; [|apply pending_mt; mt].
  destruct (read_varint buf) as [[ty n]|]; [|apply pending_mt; mt].
  destruct (negb _); [|apply resolve_session_kept].
  apply pending_bind; [intros w0; mt|mt|]. intros _. by apply set_role_kept.
Qed.

Lemma mt_process_recv id chunk fin : mt I (process_recv id chunk fin).
Proof.
  split; intros w Hw. apply wlp_bind, wlp_gets.
  destruct (ws_streams (w_ses w) !! id) as [st|] eqn:Hst; cbn [fmap option_fmap option_map]; [|by apply wlp_ret].
  destruct (st_role st) eqn:Hr; try (eapply run_mt; [|exact Hw]; mt; fail).
  - by rewrite (kept_connect_id w id st Hw Hst Hr); apply mt_process_connect.
  - apply resolve_pending_uni_kept; [done|]. exists st. by rewrite Hr.
  - apply resolve_pending_bidi_kept; [done|]. exists st. by rewrite Hr.
Qed.
#[local] Hint Resolve mt_process_recv : table.

Lemma mt_read_loop fuel id backpressured : mt I (read_loop fuel id backpressured).
Proof. induction fuel; cbn [read_loop]; mt. Qed.
End reading.

#[export] Hint Resolve mt_push_connect mt_remove_stream mt_process_recv mt_read_loop : table.

(** ** What a flush does besides sending, and the simple commands *)

Section commands.
Context {C : Type} {quic : Quic C} {conn_step : ConnStep C} {alloc : Allocator} {qpack : Qpack} {sfv : Sfv}.
Context (I : World C → Prop) {kept_I : Kept I}.

Lemma mt_queue_session_capsule ty value : mt I (queue_session_capsule ty value).
Proof. unfold queue_session_capsule. mt. Qed.
#[local] Hint Resolve mt_queue_session_capsule : table.
Lemma mt_flush_terminal_error : mt I flush_terminal_error.
Proof. unfold flush_terminal_error. mt. Qed.
Lemma mt_grant_credit : mt I grant_credit.
Proof. unfold grant_credit. mt. Qed.
Lemma mt_replenish_credit : mt I replenish_credit.
Proof. unfold replenish_credit, replenish_data, replenish_streams. mt. Qed.
Lemma mt_queue_close_capsule : mt I queue_close_capsule.
Proof. unfold queue_close_capsule. repeat first [apply mt_alter_connect; intros ?; reflexivity|mt_step]. Qed.
Lemma mt_signal_flow_control_blocked : mt I signal_flow_control_blocked.
Proof.
  unfold signal_flow_control_blocked, signal_data_blocked, signal_streams_blocked. mt.
  all: apply mt_set_ses; [apply _|intros ?; by case_match..].
Qed.
Lemma mt_prune_streams : mt I prune_streams.
Proof.
  split; intros w Hw. apply wlp_bind, wlp_gets, wlp_bind, wlp_gets, wlp_bind, wlp_modify. eapply run_mt; [mt|].
  apply (kept_shrink w); [apply map_filter_subseteq|done].
Qed.
Lemma mt_drive_quic_close : mt I drive_quic_close.
Proof. unfold drive_quic_close. mt. Qed.
Lemma mt_send_drain : mt I send_drain.
Proof. unfold send_drain. mt. Qed.
Lemma mt_close code reason : mt I (close code reason).
Proof. unfold close. mt. Qed.
Lemma mt_stream_fin id : mt I (stream_fin id).
Proof. unfold stream_fin. mt. Qed.
Lemma mt_set_paused id paused : mt I (set_paused id paused).
Proof. unfold set_paused. mt. Qed.
Lemma mt_stream_stop_sending id code : mt I (stream_stop_sending id code).
Proof. unfold stream_stop_sending. mt. Qed.
Lemma mt_export rid label context len :
  mt I (e ← conn (build_keying_material rid label context len); push_ev e).
Proof.
  apply mt_bind; [|intros e; mt]. apply mt_conn; [apply _|]. intros c. unfold build_keying_material.
  destruct (negb _); [done|]. pose proof (quieter_export c len label (Some context)) as H.
  by destruct (export_keying_material _ _ _ _) as [r c'].
Qed.
End commands.

#[export] Hint Resolve mt_flush_terminal_error mt_grant_credit mt_replenish_credit mt_queue_close_capsule
  mt_signal_flow_control_blocked mt_prune_streams mt_drive_quic_close mt_send_drain mt_close mt_stream_fin
  mt_set_paused mt_stream_stop_sending mt_ack_all mt_export : table.
