(* ===== verification/SessionCapsule.v ===== *)
(** * The capsule protocol ([crates/native/src/session.rs], [scan_capsules])

    What the peer's capsules do to the session, as a function of the capsules
    alone, and the proof that the scanner implements it however the capsules are
    spread over DATA frames. *)

From S2P Require Import Prelude H3 ParserMemory FrameParser Headers Net Quic SessionState.
From S2P Require Import SessionRecv SessionSend SessionInv SessionRecvInv SessionFrame.

(** ** Specification *)

(** What the peer's capsules decide. *)
Record Peer := mkPeer {
  pv_closed : bool;
  pv_drained : bool;
  pv_error : option (N * bytes);
  pv_max_data : N;
  pv_max_bidi : N;
  pv_max_uni : N;
}.
#[export] Instance Peer_eta : Eta Peer := fun p =>
  mkPeer (pv_closed p) (pv_drained p) (pv_error p) (pv_max_data p) (pv_max_bidi p) (pv_max_uni p).

Definition peer_of (s : WtSession) : Peer :=
  mkPeer (ws_closed s) (ws_drain_emitted s) (ws_terminal_error s) (ws_fc_max_data_remote s)
    (ws_fc_max_streams_bidi_remote s) (ws_fc_max_streams_uni_remote s).

(** A flow-control violation ends the session. *)
Definition violation (message : rstring) (p : Peer) : Peer * list Ev :=
  (p <| pv_error := Some (0x045d4487, message) |> <| pv_closed := true |>,
   [EvError message; EvClosed 0 [] true]).

Definition not_increasing : rstring := s2b "flow-control credit must increase".

(** A limit must strictly increase. *)
Definition new_limit (limit : Peer → N) (set : N → Peer → Peer) (v : N) (p : Peer) : Peer * list Ev :=
  if limit p <? v then (set v p, []) else violation not_increasing p.

Definition flow_effect (ty : N) (value : bytes) (p : Peer) : Peer * list Ev :=
  match read_varint value with
  | None => violation (s2b "truncated flow-control capsule") p
  | Some (v, n) =>
      if (n <? length value)%nat ||
         (negb (existsb (N.eqb ty) [WT_MAX_DATA_CAPSULE; WT_DATA_BLOCKED_CAPSULE]) && (2 ^ 60 <? v))
      then violation (s2b "invalid flow-control capsule") p
      else if ty =? WT_MAX_DATA_CAPSULE then new_limit pv_max_data (fun v p => p <| pv_max_data := v |>) v p
      else if ty =? WT_MAX_STREAMS_BIDI_CAPSULE then
        new_limit pv_max_bidi (fun v p => p <| pv_max_bidi := v |>) v p
      else if ty =? WT_MAX_STREAMS_UNI_CAPSULE then
        new_limit pv_max_uni (fun v p => p <| pv_max_uni := v |>) v p
      else (p, [])
  end.

Definition flow_capsules : list N :=
  [WT_MAX_DATA_CAPSULE; WT_MAX_STREAMS_BIDI_CAPSULE; WT_MAX_STREAMS_UNI_CAPSULE;
   WT_DATA_BLOCKED_CAPSULE; WT_STREAMS_BLOCKED_BIDI_CAPSULE; WT_STREAMS_BLOCKED_UNI_CAPSULE].

(** One capsule; a closed session takes none. *)
Definition capsule_effect (c : N * bytes) (p : Peer) : Peer * list Ev :=
  let '(ty, value) := c in
  if pv_closed p then (p, [])
  else if ty =? WT_CLOSE_SESSION_CAPSULE then
    (p <| pv_closed := true |>, [EvClosed (close_info value).1 (close_info value).2 true])
  else if ty =? WT_DRAIN_SESSION_CAPSULE then
    if pv_drained p then (p, []) else (p <| pv_drained := true |>, [EvDraining])
  else if existsb (N.eqb ty) flow_capsules then flow_effect ty value p
  else (p, []).

Fixpoint capsules_effect (cs : list (N * bytes)) (p : Peer) : Peer * list Ev :=
  match cs with
  | [] => (p, [])
  | c :: cs =>
      let '(p, evs1) := capsule_effect c p in
      let '(p, evs2) := capsules_effect cs p in
      (p, evs1 ++ evs2)
  end.

Lemma capsules_effect_app cs ds p :
  capsules_effect (cs ++ ds) p =
  let '(p, evs1) := capsules_effect cs p in
  let '(p, evs2) := capsules_effect ds p in
  (p, evs1 ++ evs2).
Proof.
  revert p. induction cs as [|c cs IH]; intros p; cbn.
  { by destruct (capsules_effect ds p). }
  destruct (capsule_effect c p) as [p1 evs1]. rewrite IH.
  destruct (capsules_effect cs p1) as [p2 evs2]. destruct (capsules_effect ds p2). by rewrite app_assoc.
Qed.

Lemma capsules_effect_closed cs p : pv_closed p = true → capsules_effect cs p = (p, []).
Proof. intros Hc. induction cs as [|[ty v] cs IH]; cbn; [done|]. by rewrite Hc, IH. Qed.

(** Capsules are laid out as frames are. *)
Lemma capsule_bytes_frame ty v : capsule_bytes ty v = frame ty v.
Proof. done. Qed.

(** ** Refinement *)

(** An operation on the counters. *)
Lemma wlp_mem {C A} (m : M Usage A) (Q : A → World C → Prop) w :
  (∀ a u, m (w_mem w) = Some (a, u) → Q a (w <| w_mem := u |>)) → wlp (mem m) Q w.
Proof.
  intros H a w'. unfold mem. destruct (m (w_mem w)) as [[b u]|] eqn:E; [|done].
  intros [= <- <-]. by apply H.
Qed.

(** One step through the primitives, for partial correctness. *)
Ltac wl_step :=
  lazymatch goal with
  | |- wlp (ses _) _ _ => apply wlp_gets
  | |- wlp (get_stream _) _ _ => apply wlp_gets
  | |- wlp (set_ses _) _ _ => apply wlp_modify
  | |- wlp (push_ev _) _ _ => apply wlp_modify
  | |- wlp (conn_ _) _ _ => apply wlp_modify
  | |- wlp (with_stream _ _) _ _ => apply wlp_modify
  | |- wlp (mret _) _ _ => apply wlp_ret
  | |- wlp (mbind _ _) _ _ => apply wlp_bind
  | |- wlp (gets _) _ _ => apply wlp_gets
  | |- wlp panic _ _ => apply wlp_panic
  | |- wlp (mem _) _ _ => apply wlp_mem; intros ? ? ?
  end; cbv beta.
Ltac wl_steps := repeat wl_step.

Section buffers.
Context {alloc : Allocator}.

Lemma extend_data b new u r b' u' :
  extend_from_slice b new u = (r, b', u') →
  match r with Ok _ => pb_data b' = pb_data b ++ new | Err _ => b' = b end.
Proof.
  unfold extend_from_slice. destruct (checked_add64 _ _); [|by intros [= <- <- <-]].
  destruct (_ <? _); [|by intros [= <- <- <-]].
  destruct (checked_next_power_of_two _) as [c|]; [|by intros [= <- <- <-]].
  unfold grow. destruct (reserve _ _ _) as [[] u1]; [|by intros [= <- <- <-]].
  destruct (try_reserve_exact c) as [c'|]; [|by intros [= <- <- <-]]. cbv zeta.
  destruct (if c' - c =? 0 then _ else _) as [[] u2]; by intros [= <- <- <-].
Qed.

Lemma copy_data b lo hi u r u' :
  buf_copy b lo hi u = Some (Ok r, u') → pb_data r = take (hi - lo) (drop lo (pb_data b)).
Proof.
  unfold buf_copy, copy_range. destruct (_ && _); [|done].
  destruct (extend_from_slice _ _ _) as [[[[]|[]] b'] u1] eqn:E; [|done].
  intros [= <- _]. by apply extend_data in E.
Qed.

Lemma consume_data b n u b' u' :
  buf_consume b n u = Some (b', u') → pb_data b' = drop n (pb_data b).
Proof.
  unfold buf_consume, consume. destruct (Nat.eqb_spec n (length (pb_data b))) as [->|].
  - intros [= <- _]. by rewrite drop_all.
  - destruct (_ <=? _)%nat; [|done]. by intros [= <- _].
Qed.
End buffers.

Section refinement.
Context {C : Type} {quic : Quic C} {alloc : Allocator}.

(** What a step makes of the peer's view and of the events. *)
Definition becomes (w w' : World C) (r : Peer * list Ev) : Prop :=
  peer_of (w_ses w') = r.1 ∧ w_ev w' = w_ev w ++ r.2.

Lemma mark_closed_becomes code reason remote (w : World C) :
  ws_closed (w_ses w) = false →
  wlp (mark_closed code reason remote) (fun _ w' =>
    becomes w w' ((peer_of (w_ses w)) <| pv_closed := true |>, [EvClosed code reason remote]) ∧
    pb_data (ws_capsule_buf (w_ses w')) = []) w.
Proof.
  intros Hc. unfold mark_closed. wl_steps. rewrite Hc. cbv beta iota. wl_steps.
  match goal with H : buf_clear _ _ = Some _ |- _ => injection H as <- <- end. done.
Qed.

Lemma flow_error_becomes message (w : World C) :
  ws_closed (w_ses w) = false →
  wlp (flow_error message) (fun _ w' => becomes w w' (violation message (peer_of (w_ses w)))) w.
Proof.
  intros Hc. unfold flow_error. wl_steps. rewrite Hc. cbv beta iota. wl_steps.
  eapply wlp_mono; [by apply mark_closed_becomes|]. cbv beta. intros _ w' [[Hp He] _].
  split; [done|]. rewrite He. cbn. by rewrite <- app_assoc.
Qed.

Lemma parser_limit_becomes (w : World C) :
  ws_closed (w_ses w) = false →
  wlp parser_limit_exceeded (fun _ w' => becomes w w' ((peer_of (w_ses w)) <| pv_closed := true |>,
    [EvError (s2b "parser memory limit exceeded"); EvClosed 0 [] true])) w.
Proof.
  intros Hc. unfold parser_limit_exceeded. wl_steps. rewrite Hc. cbn [negb when]. wl_steps.
  eapply wlp_mono; [by apply mark_closed_becomes|]. cbv beta. intros _ w' [[Hp He] _].
  split; [done|]. rewrite He. cbn. by rewrite <- app_assoc.
Qed.

(** A step of the specification, and that the bytes behind the capsule stay
    buffered unless the session has closed. *)
Definition handled (w : World C) (r : Peer * list Ev) (w' : World C) : Prop :=
  becomes w w' r ∧
  (ws_closed (w_ses w') = true ∨ ws_capsule_buf (w_ses w') = ws_capsule_buf (w_ses w)).

Lemma flow_error_handled message (w : World C) :
  ws_closed (w_ses w) = false →
  wlp (flow_error message) (fun _ w' => handled w (violation message (peer_of (w_ses w))) w') w.
Proof.
  intros Hc. eapply wlp_mono; [by apply flow_error_becomes|]. cbv beta. intros _ w' H.
  split; [done|]. left. destruct H as [H _]. by apply (f_equal pv_closed) in H.
Qed.

Lemma raise_limit_handled field set limit pset v (w : World C) :
  ws_closed (w_ses w) = false →
  (∀ s, field s = limit (peer_of s)) → (∀ s, peer_of (set v s) = pset v (peer_of s)) →
  (∀ s, ws_capsule_buf (set v s) = ws_capsule_buf s) →
  wlp (raise_limit field set v) (fun _ w' => handled w (new_limit limit pset v (peer_of (w_ses w))) w') w.
Proof.
  intros Hc Hf Hs Hb. unfold raise_limit, new_limit. wl_steps. rewrite Hf.
  destruct (N.leb_spec v (limit (peer_of (w_ses w)))) as [Hle|Hlt].
  - rewrite (proj2 (N.ltb_ge _ _)) by done. by apply flow_error_handled.
  - rewrite (proj2 (N.ltb_lt _ _)) by done. wl_steps. split; [split|].
    + apply Hs.
    + cbn. by rewrite app_nil_r.
    + right. apply Hb.
Qed.

Lemma handled_same (w : World C) : handled w (peer_of (w_ses w), []) w.
Proof. split; [|by right]. split; [done|]. cbn. by rewrite app_nil_r. Qed.

Lemma handle_flow_capsule_handled ty value (w : World C) :
  ws_closed (w_ses w) = false →
  wlp (handle_flow_capsule ty value)
    (fun _ w' => handled w (flow_effect ty value (peer_of (w_ses w))) w') w.
Proof.
  intros Hc. unfold handle_flow_capsule, flow_effect.
  destruct (read_varint value) as [[v n]|] eqn:E; [|by apply flow_error_handled]. cbv zeta.
  assert (Hn : negb (n =? length value)%nat = (n <? length value)%nat).
  { apply read_varint_bounds in E. destruct (Nat.eqb_spec n (length value)), (Nat.ltb_spec n (length value)); try done; lia. }
  rewrite Hn. cbn [existsb]. rewrite orb_false_r, negb_orb. change (N.shiftl 1 60) with (2 ^ 60).
  destruct (_ || _); [by apply flow_error_handled|].
  destruct (ty =? WT_MAX_DATA_CAPSULE); [by apply raise_limit_handled|].
  destruct (ty =? WT_MAX_STREAMS_BIDI_CAPSULE); [by apply raise_limit_handled|].
  destruct (ty =? WT_MAX_STREAMS_UNI_CAPSULE); [by apply raise_limit_handled|].
  apply wlp_ret, handled_same.
Qed.

Lemma handle_capsule_handled ty value (w : World C) :
  ws_closed (w_ses w) = false →
  wlp (handle_capsule ty value)
    (fun _ w' => handled w (capsule_effect (ty, value) (peer_of (w_ses w))) w') w.
Proof.
  intros Hc. unfold handle_capsule, capsule_effect. wl_steps.
  change (pv_closed (peer_of (w_ses w))) with (ws_closed (w_ses w)).
  change (pv_drained (peer_of (w_ses w))) with (ws_drain_emitted (w_ses w)). rewrite Hc.
  cbn [negb]. rewrite !andb_true_r. destruct (N.eqb_spec ty WT_CLOSE_SESSION_CAPSULE) as [->|_].
  { destruct (close_info value) as [code reason]. cbn [fst snd].
    eapply wlp_mono; [by apply mark_closed_becomes|]. cbv beta. intros _ w' [H _]. split; [done|].
    left. destruct H as [H _]. by apply (f_equal pv_closed) in H. }
  destruct (N.eqb_spec ty WT_DRAIN_SESSION_CAPSULE) as [->|_]; cbn [andb].
  { destruct (ws_drain_emitted (w_ses w)); cbn [negb]; [apply wlp_ret, handled_same|].
    wl_steps. split; [done|by right]. }
  assert (E : is_flow_capsule ty = existsb (N.eqb ty) flow_capsules).
  { unfold is_flow_capsule. cbn. by rewrite orb_false_r, !orb_assoc. }
  rewrite E. destruct (existsb _ _); cbn [when]; [by apply handle_flow_capsule_handled|].
  apply wlp_ret, handled_same.
Qed.

(** The session has handled [cs], or handled some and then been closed because
    the parser memory refused. *)
Definition refusal : list Ev := [EvError (s2b "parser memory limit exceeded"); EvClosed 0 [] true].
Definition refused (cs : list (N * bytes)) (w w' : World C) : Prop :=
  ∃ handled_cs, handled_cs `prefix_of` cs ∧
    pv_closed (capsules_effect handled_cs (peer_of (w_ses w))).1 = false ∧
    becomes w w' (((capsules_effect handled_cs (peer_of (w_ses w))).1) <| pv_closed := true |>,
                  (capsules_effect handled_cs (peer_of (w_ses w))).2 ++ refusal).
Lemma becomes_trans w w1 w2 cs ds :
  becomes w w1 (capsules_effect cs (peer_of (w_ses w))) →
  becomes w1 w2 (capsules_effect ds (peer_of (w_ses w1))) →
  becomes w w2 (capsules_effect (cs ++ ds) (peer_of (w_ses w))).
Proof.
  intros [p1 e1] [p2 e2]. rewrite capsules_effect_app.
  destruct (capsules_effect cs (peer_of (w_ses w))) as [q1 evs1]. cbn in *. subst q1.
  destruct (capsules_effect ds (peer_of (w_ses w1))) as [q2 evs2]. cbn in *.
  split; [done|]. cbn. by rewrite e2, e1, app_assoc.
Qed.

Lemma refused_trans w w1 w2 cs ds :
  becomes w w1 (capsules_effect cs (peer_of (w_ses w))) →
  refused ds w1 w2 → refused (cs ++ ds) w w2.
Proof.
  intros [p1 e1] (es & Hpre & Ho & [p2 e2]). exists (cs ++ es). split; [by apply prefix_app|].
  rewrite capsules_effect_app.
  destruct (capsules_effect cs (peer_of (w_ses w))) as [q1 evs1]. cbn in *. subst q1.
  destruct (capsules_effect es (peer_of (w_ses w1))) as [q2 evs2]. cbn in *.
  split; [done|]. split; [done|]. cbn. by rewrite e2, e1, !app_assoc.
Qed.

Lemma becomes_one c w w1 :
  becomes w w1 (capsule_effect c (peer_of (w_ses w))) →
  becomes w w1 (capsules_effect [c] (peer_of (w_ses w))).
Proof. cbn. destruct (capsule_effect _ _) as [p evs]. by rewrite app_nil_r. Qed.

(** The bytes left in the buffer are the beginning of the capsules [rest]. *)
Definition left_over (rest : list (N * bytes)) (k : bytes) (w : World C) : Prop :=
  ws_closed (w_ses w) = false →
  pb_data (ws_capsule_buf (w_ses w)) ++ k = encode_frames rest ∧
  parse_frame (pb_data (ws_capsule_buf (w_ses w))) = Incomplete.

Definition scan_post (cs : list (N * bytes)) (k : bytes) (w w' : World C) : Prop :=
  ∃ scanned_cs rest, cs = scanned_cs ++ rest ∧
    (becomes w w' (capsules_effect scanned_cs (peer_of (w_ses w))) ∧ left_over rest k w' ∨
     refused cs w w').

Lemma becomes_nil (w : World C) : becomes w w (capsules_effect [] (peer_of (w_ses w))).
Proof. split; [done|]. cbn. by rewrite app_nil_r. Qed.

Lemma same_view (w w1 w2 : World C) r :
  peer_of (w_ses w1) = peer_of (w_ses w) → w_ev w1 = w_ev w → becomes w1 w2 r → becomes w w2 r.
Proof. intros Hp He [H1 H2]. split; [done|]. by rewrite H2, He. Qed.

(** Taking one whole capsule out of the buffer and acting on it, [next] being the
    rest of the scan. *)
Lemma scan_frame_scans (next : M (World C) ()) ty v cs k start stop (w : World C) :
  (∀ w1 : World C, (ws_closed (w_ses w1) = false →
     pb_data (ws_capsule_buf (w_ses w1)) ++ k = encode_frames cs) →
   wlp next (fun _ w' => scan_post cs k w1 w') w1) →
  ws_closed (w_ses w) = false →
  take (stop - start) (drop start (pb_data (ws_capsule_buf (w_ses w)))) = v →
  drop stop (pb_data (ws_capsule_buf (w_ses w))) ++ k = encode_frames cs →
  wlp (r ← mem (buf_copy (ws_capsule_buf (w_ses w)) start stop);
       match r with
       | Err () => parser_limit_exceeded
       | Ok value =>
           buf ← mem (buf_consume (ws_capsule_buf (w_ses w)) stop);
           _ ← set_ses (fun s => s <| ws_capsule_buf := buf |>);
           _ ← handle_capsule ty (pb_data value);
           _ ← mem (buf_drop value);
           next
       end) (fun _ w' => scan_post ((ty, v) :: cs) k w w') w.
Proof.
  intros Hnext Hc Hv Hd. apply wlp_bind, wlp_mem. intros r u Er. destruct r as [value|[]].
  - apply copy_data in Er. rewrite Hv in Er. rewrite Er.
    apply wlp_bind, wlp_mem. intros b u2 Eb. apply consume_data in Eb. cbn in Eb. wl_steps.
    match goal with |- wlp _ _ ?w1 => set (w2 := w1) end.
    eapply wlp_mono; [by apply handle_capsule_handled|]. cbv beta. intros _ w3 [Hw3 Hbuf].
    apply wlp_bind, wlp_mem. intros [] u3 _.
    assert (Hone : becomes w (w3 <| w_mem := u3 |>) (capsules_effect [(ty, v)] (peer_of (w_ses w)))).
    { apply becomes_one. exact Hw3. }
    eapply wlp_mono; [apply Hnext|].
    + cbn. intros Hc3. destruct Hbuf as [Hbuf|Hbuf]; [congruence|]. rewrite Hbuf. cbn. by rewrite Eb.
    + cbv beta. intros _ w4 (done & rest & -> & Hw4).
      exists ((ty, v) :: done), rest. split; [done|].
      destruct Hw4 as [[Hw4 Hl]|Hw4].
      * left. split; [|done]. exact (becomes_trans _ _ _ [(ty, v)] _ Hone Hw4).
      * right. exact (refused_trans _ _ _ [(ty, v)] _ Hone Hw4).
  - eapply wlp_mono; [by apply parser_limit_becomes|]. cbv beta. intros _ w2 Hw2.
    exists [], ((ty, v) :: cs). split; [done|]. right. exists []. split; [apply prefix_nil|].
    split; [exact Hc|exact Hw2].
Qed.

Lemma scan_loop_scans fuel cs k (w : World C) :
  Forall frame_ok cs → (ws_closed (w_ses w) = false →
    pb_data (ws_capsule_buf (w_ses w)) ++ k = encode_frames cs) →
  wlp (scan_loop fuel) (fun _ w' => scan_post cs k w w') w.
Proof.
  revert cs w. induction fuel as [|fuel IH]; intros cs w Hcs E; cbn [scan_loop]; [apply wlp_panic|].
  wl_steps. destruct (ws_closed (w_ses w)) eqn:Hc; cbv beta iota.
  { apply wlp_ret. exists [], cs. split; [done|]. left. split; [apply becomes_nil|].
    intros H. congruence. }
  specialize (E eq_refl). wl_steps.
  set (d := pb_data (ws_capsule_buf (w_ses w))) in *.
  assert (Hstop : parse_frame d = Incomplete → wlp (mret ()) (fun _ w' => scan_post cs k w w') w).
  { intros Hp. apply wlp_ret. exists [], cs. split; [done|]. left. split; [apply becomes_nil|]. by intros _. }
  destruct cs as [|[ty v] cs].
  { apply app_eq_nil in E as [E ->]. rewrite E in *. by apply Hstop. }
  inversion Hcs as [|? ? Hok Hcs']; subst.
  assert (Hparse := parse_frame_prefix ty v cs d k Hok E). unfold parse_frame in Hparse, Hstop.
  destruct (read_varint d) as [[ty' n1]|]; [|by apply Hstop].
  destruct (read_varint (drop n1 d)) as [[len n2]|]; [|by apply Hstop]. cbv zeta in *.
  destruct (MAX_CONTROL_FRAME <? len); [by destruct Hparse as [|(? & ? & _)]|].
  destruct (length d <? n1 + n2 + N.to_nat len)%nat; [by apply Hstop|].
  destruct Hparse as [?|(d' & [= -> Hv Hd] & E')]; [done|].
  apply scan_frame_scans; [|done| |fold d; by rewrite Hd].
  - intros w1. by apply IH.
  - by replace (n1 + n2 + N.to_nat len - (n1 + n2))%nat with (N.to_nat len) by lia.
Qed.

Lemma scan_capsules_scans payload cs k (w : World C) :
  Forall frame_ok cs → (ws_closed (w_ses w) = false →
    pb_data (ws_capsule_buf (w_ses w)) ++ payload ++ k = encode_frames cs) →
  wlp (scan_capsules payload) (fun _ w' => scan_post cs k w w') w.
Proof.
  intros Hcs E. unfold scan_capsules. wl_steps.
  destruct (ws_closed (w_ses w)) eqn:Hc; cbv beta iota.
  { apply wlp_ret. exists [], cs. split; [done|]. left. split; [apply becomes_nil|]. intros H. congruence. }
  specialize (E eq_refl). apply wlp_bind, wlp_gets, wlp_bind, wlp_mem. intros [r b] u Er.
  unfold buf_extend in Er. destruct (extend_from_slice _ _ _) as [[r' b'] u'] eqn:Ee.
  injection Er as -> -> ->. apply extend_data in Ee. cbv beta iota. wl_steps. destruct r as [[]|[]].
  - eapply wlp_mono; [apply (scan_loop_scans _ cs k); [done|]|].
    + intros _. cbn. rewrite Ee, <- app_assoc. exact E.
    + cbv beta. intros _ w' (done & rest & -> & H). exists done, rest. split; [done|].
      destruct H as [[H Hl]|(es & Hpre & Ho & H)]; [left|right].
      * split; [|done]. by eapply same_view; [..|exact H].
      * exists es. split; [done|]. split; [done|]. by eapply same_view; [..|exact H].
  - eapply wlp_mono; [by apply parser_limit_becomes|]. cbv beta. intros _ w2 Hw2.
    exists [], cs. split; [done|]. right. exists []. split; [apply prefix_nil|].
    split; [exact Hc|]. by eapply same_view; [..|exact Hw2].
Qed.

(** The payloads of successive DATA frames. *)
Fixpoint scan_all (payloads : list bytes) : M (World C) () :=
  match payloads with
  | [] => mret ()
  | p :: ps => _ ← scan_capsules p; scan_all ps
  end.

Lemma scan_all_closed payloads (w : World C) :
  ws_closed (w_ses w) = true → wlp (scan_all payloads) (fun _ w' => w' = w) w.
Proof.
  revert w. induction payloads as [|p ps IH]; intros w Hc; cbn [scan_all]; [by apply wlp_ret|].
  unfold scan_capsules. wl_steps. rewrite Hc. cbv beta iota. apply wlp_ret. by apply IH.
Qed.

Lemma scan_all_scans payloads cs (w : World C) :
  Forall frame_ok cs →
  (ws_closed (w_ses w) = false →
    pb_data (ws_capsule_buf (w_ses w)) ++ concat payloads = encode_frames cs ∧
    parse_frame (pb_data (ws_capsule_buf (w_ses w))) = Incomplete) →
  wlp (scan_all payloads) (fun _ w' =>
    becomes w w' (capsules_effect cs (peer_of (w_ses w))) ∨ refused cs w w') w.
Proof.
  revert cs w. induction payloads as [|p ps IH]; intros cs w Hcs E.
  - cbn [scan_all]. apply wlp_ret. left. destruct (ws_closed (w_ses w)) eqn:Hc.
    { rewrite capsules_effect_closed by done. split; [done|]. cbn. by rewrite app_nil_r. }
    destruct (E eq_refl) as [E1 E2]. cbn in E1. rewrite app_nil_r in E1.
    destruct cs as [|[ty v] cs]; [apply becomes_nil|]. inversion Hcs; subst. exfalso.
    rewrite E1 in E2. unfold encode_frames in E2. cbn in E2. by rewrite parse_frame_encoded in E2.
  - cbn [scan_all]. apply wlp_bind.
    eapply wlp_mono; [apply (scan_capsules_scans p cs (concat ps)); [done|]|].
    { intros Hc. by apply E. }
    cbv beta. intros _ w1 (done & rest & -> & [[H1 Hl]|H1]).
    + apply Forall_app in Hcs as [_ Hrest]. eapply wlp_mono; [by apply (IH rest)|].
      cbv beta. intros _ w2 [H2|H2]; [left|right].
      * by eapply becomes_trans.
      * by eapply refused_trans.
    + assert (Hc1 : ws_closed (w_ses w1) = true).
      { destruct H1 as (? & _ & _ & [Hp _]). by apply (f_equal pv_closed) in Hp. }
      eapply wlp_mono; [by apply scan_all_closed|]. cbv beta. intros _ w2 ->. by right.
Qed.
End refinement.

Section scanner.
Context {C : Type} {quic : Quic C} {quic_laws : QuicLaws C}.
Context {alloc : Allocator} {alloc_laws : AllocatorLaws} {hist : History}.
Context (limits : N → N) (limits_usize : ∀ i, limits i < U64).

Lemma scan_all_good payloads L (w : World C) :
  inv limits L w → wp (scan_all payloads) (fun _ w' => inv limits L w') w.
Proof.
  revert w. induction payloads as [|p ps IH]; intros w Hw; cbn [scan_all]; [by apply wp_ret|].
  apply wp_bind. eapply wp_mono.
  - by apply (scan_capsules_good limits limits_usize free w L w p), good_start.
  - cbv beta. intros _ w' [Hw' _]. by apply IH.
Qed.

(** The scanner refines the capsule protocol. *)
Lemma scan_all_refines (payloads : list bytes) (cs : list (N * bytes)) L (w : World C) :
  inv limits L w → pb_data (ws_capsule_buf (w_ses w)) = [] →
  Forall frame_ok cs → concat payloads = encode_frames cs →
  wp (scan_all payloads) (fun _ w' =>
    becomes w w' (capsules_effect cs (peer_of (w_ses w))) ∨ refused cs w w') w.
Proof.
  intros Hw Hb Hcs E. eapply wp_mono.
  - eapply wp_of_wlp; [by apply (scan_all_good payloads L)|].
    apply (scan_all_scans payloads cs); [done|]. intros _. by rewrite Hb.
  - cbv beta. by intros _ w' [_ H].
Qed.

(** C10: the capsule scanner implements the capsule protocol.  However the
    encoding of some capsules is cut into DATA frames, scanning them returns,
    and the session's flags, limits and events become exactly what the
    capsules say, in order: a close ends the session with the peer's code and
    reason, a drain is surfaced once, a flow-control capsule must carry one
    whole integer and strictly raise its limit or the session ends with
    WT_FLOW_CONTROL_ERROR, unknown capsules do nothing, and nothing follows a
    close.  Only the parser memory may interfere: then a beginning of the
    capsules has been handled and the session has closed with an error. *)
Theorem scan_capsules_refines (payloads : list bytes) (cs : list (N * bytes)) L (w : World C) :
  inv limits L w → pb_data (ws_capsule_buf (w_ses w)) = [] →
  Forall frame_ok cs → concat payloads = encode_frames cs →
  wp (scan_all payloads) (fun _ w' =>
    becomes w w' (capsules_effect cs (peer_of (w_ses w))) ∨ refused cs w w') w.
Proof. by apply scan_all_refines. Qed.

Lemma truncate_idempotent reason :
  truncate_close_reason (truncate_close_reason reason) = truncate_close_reason reason.
Proof.
  unfold truncate_close_reason at 1. rewrite (proj2 (Nat.leb_le _ _)); [done|].
  apply truncate_close_reason_length.
Qed.

(** Our CLOSE_WEBTRANSPORT_SESSION capsule, as the peer reads it. *)
Lemma close_capsule_effect code reason p :
  code < 2 ^ 32 → (length reason <= WT_MAX_CLOSE_REASON)%nat → pv_closed p = false →
  capsules_effect [(WT_CLOSE_SESSION_CAPSULE, be32 code ++ reason)] p =
  (p <| pv_closed := true |>, [EvClosed code reason true]).
Proof.
  intros Hc Hr Hp. cbn [capsules_effect capsule_effect]. rewrite Hp.
  change (WT_CLOSE_SESSION_CAPSULE =? WT_CLOSE_SESSION_CAPSULE) with true. cbv beta iota.
  unfold close_info, be32. cbn [app fst snd]. rewrite from_be32_be32 by done.
  unfold truncate_close_reason. by rewrite (proj2 (Nat.leb_le _ _)).
Qed.

(** *** A capsule that closes, given room

    With room in the parser memory a capsule of at most 2048 bytes that ends the
    session is never refused.  [l] are the buffers besides the capsule buffer. *)

Definition enough_room (w : World C) : Prop :=
  ∃ B, grants 2048 B ∧ fits (pb_memory (ws_capsule_buf (w_ses w))) (3 * B) (w_mem w).

Record roomy (B : N) (l : list ParserBuffer) (b : ParserBuffer) (u : Usage) : Prop := mkRoomy {
  ry_wf : wf_buffer limits b;
  ry_within : within limits u;
  ry_accounted : accounted u (b :: l);
  ry_old i : i ∈ ids (pb_memory b) → load (b :: l) i + 2 * B <= limits i;
  ry_rest i : i ∈ ids (pb_memory b) → load l i + 3 * B <= limits i;
}.

Lemma roomy_start B l b u :
  wf_buffer limits b → within limits u → accounted u (b :: l) → fits (pb_memory b) (3 * B) u → roomy B l b u.
Proof.
  intros Hb Hw Ha Hf. rewrite (fits_load limits) with (l := b :: l) in Hf by (done || by destruct Hb).
  split; try done; intros i Hi; specialize (Hf i Hi); [lia|]. rewrite load_cons in Hf. lia.
Qed.

Lemma roomy_extend B l b u new :
  grants 2048 B → roomy B l b u → lenN (pb_data b) + lenN new <= 2048 →
  ∃ b' v, extend_from_slice b new u = (Ok (), b', v) ∧ roomy B l b' v ∧ pb_data b' = pb_data b ++ new.
Proof.
  intros Hgr [Hb Hw Ha Ho Hr] Hn.
  pose proof (extend_from_slice_accounted limits limits_usize b new u l Hb Hw Ha) as H.
  destruct (extend_roomy limits limits_usize b new B u l (proj1 Hb) Hw Ha Hn Hgr) as (b' & v & E & Hcap).
  { intros i Hi. specialize (Ho i Hi). lia. }
  rewrite E in H. destruct H as (Hw' & Ha' & Hb' & Hm & Hd).
  exists b', v. split; [done|]. split; [|done]. split; try done; rewrite Hm; intros i Hi; [|by apply Hr].
  specialize (Ho i Hi). specialize (Hr i Hi). rewrite load_cons in *. unfold contribution in *.
  rewrite Hm, decide_True in * by done. destruct Hcap; lia.
Qed.

Lemma roomy_copy B l b u lo hi :
  grants 2048 B → roomy B l b u → (lo <= hi <= length (pb_data b))%nat → lenN (pb_data b) <= 2048 →
  ∃ r v, copy_range b lo hi u = Some (Ok r, v).
Proof.
  intros Hgr [Hb Hw Ha Ho Hr] Hlo Hn. unfold copy_range.
  rewrite (proj2 (Nat.leb_le lo hi)), (proj2 (Nat.leb_le hi _)) by lia. cbn [andb].
  destruct (extend_roomy limits limits_usize (new_buffer (pb_memory b)) (take (hi - lo) (drop lo (pb_data b))) B u (b :: l))
    as (c & v & E & _); [by destruct Hb|done|by apply new_buffer_accounted| |done| |rewrite E; by eexists _, _].
  - cbn [new_buffer pb_data]. unfold lenN in *. cbn [length]. rewrite length_take, length_drop. lia.
  - intros i Hi. specialize (Ho i Hi). rewrite load_cons. unfold contribution at 1.
    cbn [new_buffer pb_capacity pb_memory]. case_decide; lia.
Qed.

Definition room (B : N) (l : list ParserBuffer) (w : World C) : Prop :=
  roomy B l (ws_capsule_buf (w_ses w)) (w_mem w).

(** The one capsule [frame ty v], of which [k] is still to come. *)
Lemma scan_loop_closing fuel B l ty v k (w : World C) :
  grants 2048 B → room B l w → ws_closed (w_ses w) = false → frame_ok (ty, v) → lenN (frame ty v) <= 2048 →
  pv_closed (capsule_effect (ty, v) (peer_of (w_ses w))).1 = true →
  pb_data (ws_capsule_buf (w_ses w)) ++ k = frame ty v →
  wlp (scan_loop fuel) (fun _ w' => if decide (k = []) then becomes w w' (capsule_effect (ty, v) (peer_of (w_ses w)))
    else w' = w) w.
Proof.
  intros Hgr Hroom Hc Hok Hlen Hcl E. destruct fuel as [|fuel]; cbn [scan_loop]; [apply wlp_panic|].
  wl_steps. rewrite Hc. wl_steps. set (d := pb_data (ws_capsule_buf (w_ses w))) in *.
  case_decide as Hk; [subst k; rewrite app_nil_r in E|].
  2: { assert (Hp : parse_frame d = Incomplete).
       { apply (parse_frame_partial ty v d k []); [done|by rewrite app_nil_r|]. rewrite <- E, length_app.
         destruct k; [done|]. cbn. lia. }
       unfold parse_frame in Hp. destruct (read_varint d) as [[ty' n1]|]; [|by apply wlp_ret].
       destruct (read_varint (drop n1 d)) as [[len n2]|]; [|by apply wlp_ret]. cbv zeta in *.
       destruct (MAX_CONTROL_FRAME <? len); [done|]. destruct (_ <? _)%nat; [by apply wlp_ret|done]. }
  pose proof (parse_frame_encoded ty v [] Hok) as Hp. rewrite app_nil_r, <- E in Hp. unfold parse_frame in Hp.
  destruct (read_varint d) as [[ty' n1]|]; [|done].
  destruct (read_varint (drop n1 d)) as [[len n2]|]; [|done]. cbv zeta in *.
  destruct (MAX_CONTROL_FRAME <? len); [done|]. destruct (Nat.ltb_spec (length d) (n1 + n2 + N.to_nat len)); [done|].
  injection Hp as -> Hv _. apply wlp_bind, wlp_mem. intros r u Er.
  destruct (roomy_copy B l (ws_capsule_buf (w_ses w)) (w_mem w) (n1 + n2) (n1 + n2 + N.to_nat len))
    as (r0 & u0 & E0); [done..|fold d; lia|fold d; by rewrite E|].
  unfold buf_copy in Er. rewrite E0 in Er. injection Er as <- <-. apply copy_data in E0. fold d in E0.
  replace (n1 + n2 + N.to_nat len - (n1 + n2))%nat with (N.to_nat len) in E0 by lia. rewrite Hv in E0. rewrite E0.
  apply wlp_bind, wlp_mem. intros b u2 _. wl_steps.
  match goal with |- wlp _ _ ?w1 => set (w2 := w1) end.
  eapply wlp_mono; [by apply handle_capsule_handled|]. cbv beta. intros _ w3 [Hw3 _].
  apply wlp_bind, wlp_mem. intros [] u3 _.
  assert (Hc3 : ws_closed (w_ses w3) = true).
  { destruct Hw3 as [Hw3 _]. apply (f_equal pv_closed) in Hw3. cbn [peer_of pv_closed] in Hw3. by rewrite Hw3. }
  destruct fuel as [|fuel]; cbn [scan_loop]; [apply wlp_panic|]. wl_steps.
  change (ws_closed (w_ses (w3 <| w_mem := u3 |>))) with (ws_closed (w_ses w3)). rewrite Hc3. apply wlp_ret. exact Hw3.
Qed.

Lemma scan_capsules_closing B l ty v p k (w : World C) :
  grants 2048 B → room B l w → ws_closed (w_ses w) = false → frame_ok (ty, v) → lenN (frame ty v) <= 2048 →
  pv_closed (capsule_effect (ty, v) (peer_of (w_ses w))).1 = true →
  pb_data (ws_capsule_buf (w_ses w)) ++ p ++ k = frame ty v →
  wlp (scan_capsules p) (fun _ w' =>
    if decide (k = []) then becomes w w' (capsule_effect (ty, v) (peer_of (w_ses w)))
    else becomes w w' (peer_of (w_ses w), []) ∧ room B l w' ∧
         pb_data (ws_capsule_buf (w_ses w')) = pb_data (ws_capsule_buf (w_ses w)) ++ p) w.
Proof.
  intros Hgr Hroom Hc Hok Hlen Hcl E. unfold scan_capsules. wl_steps. rewrite Hc.
  apply wlp_bind, wlp_gets, wlp_bind, wlp_mem. intros [r b] u Er. unfold buf_extend in Er.
  destruct (roomy_extend B l (ws_capsule_buf (w_ses w)) (w_mem w) p Hgr Hroom) as (b' & v' & Ee & Hr' & Hd).
  { rewrite <- E, !lenN_app in Hlen. lia. }
  rewrite Ee in Er. injection Er as <- <- <-. cbv beta iota. wl_steps.
  eapply wlp_mono; [apply (scan_loop_closing _ B l ty v k)|]; try done.
  - cbn. by rewrite Hd, <- app_assoc.
  - cbv beta. intros _ w'. case_decide; [|intros ->].
    + intros H'. by eapply same_view; [..|exact H'].
    + split; [split; [done|]|by split]. cbn. by rewrite app_nil_r.
Qed.

Lemma scan_all_closing payloads B l ty v (w : World C) :
  grants 2048 B → room B l w → ws_closed (w_ses w) = false → frame_ok (ty, v) → lenN (frame ty v) <= 2048 →
  pv_closed (capsule_effect (ty, v) (peer_of (w_ses w))).1 = true → concat payloads ≠ [] →
  pb_data (ws_capsule_buf (w_ses w)) ++ concat payloads = frame ty v →
  wlp (scan_all payloads) (fun _ w' => becomes w w' (capsule_effect (ty, v) (peer_of (w_ses w)))) w.
Proof.
  intros Hgr. revert w. induction payloads as [|p ps IH]; intros w Hroom Hc Hok Hlen Hcl Hne E; cbn [concat scan_all] in *; [done|].
  apply wlp_bind. eapply wlp_mono; [by apply (scan_capsules_closing B l ty v p (concat ps))|].
  cbv beta. intros _ w1. case_decide as Hps.
  - intros H1. eapply wlp_mono; [apply scan_all_closed|by cbv beta; intros _ w2 ->].
    destruct H1 as [H1 _]. apply (f_equal pv_closed) in H1. cbn [peer_of pv_closed] in H1. by rewrite H1.
  - intros ([Hp He] & Hr & Hd). cbn [fst snd] in Hp, He. rewrite app_nil_r in He.
    assert (Hc1 : ws_closed (w_ses w1) = false) by (by apply (f_equal pv_closed) in Hp; cbn in Hp; rewrite Hp).
    eapply wlp_mono; [apply IH; try done; [by rewrite Hp|by rewrite Hd, <- app_assoc]|].
    cbv beta. rewrite Hp. intros _ w2 H2. by eapply same_view; [..|exact H2].
Qed.

Lemma close_capsule_fits code reason :
  (length reason <= WT_MAX_CLOSE_REASON)%nat →
  frame_ok (WT_CLOSE_SESSION_CAPSULE, be32 code ++ reason) ∧
  lenN (frame WT_CLOSE_SESSION_CAPSULE (be32 code ++ reason)) <= 2048.
Proof.
  intros Hr. unfold WT_MAX_CLOSE_REASON in Hr. split.
  - split; [done|]. cbn [snd]. rewrite lenN_app. change (lenN (be32 code)) with 4.
    change MAX_CONTROL_FRAME with 1048576. unfold lenN. lia.
  - unfold lenN. rewrite frame_length. pose proof (varint_len_bounds WT_CLOSE_SESSION_CAPSULE).
    pose proof (varint_len_bounds (lenN (be32 code ++ reason))).
    rewrite length_app. change (length (be32 code)) with 4%nat. lia.
Qed.

(** The peer that receives our close, in any pieces. *)
Lemma close_received payloads code reason L (them : World C) :
  code < 2 ^ 32 → (length reason <= WT_MAX_CLOSE_REASON)%nat →
  inv limits L them → ws_closed (w_ses them) = false → pb_data (ws_capsule_buf (w_ses them)) = [] →
  concat payloads = capsule_bytes WT_CLOSE_SESSION_CAPSULE (be32 code ++ reason) →
  wp (scan_all payloads) (fun _ them' =>
    ws_closed (w_ses them') = true ∧
    (w_ev them' = w_ev them ++ [EvClosed code reason true] ∨
     w_ev them' = w_ev them ++ refusal) ∧
    (enough_room them → w_ev them' = w_ev them ++ [EvClosed code reason true])) them.
Proof.
  intros Hcode Hr Hinv Hc Hb E. set (v := be32 code ++ reason) in *.
  destruct (close_capsule_fits code reason Hr) as [Hok Hlen]. fold v in Hok, Hlen.
  assert (Heff := close_capsule_effect code reason (peer_of (w_ses them)) Hcode Hr Hc). fold v in Heff.
  assert (Hclosing : capsule_effect (WT_CLOSE_SESSION_CAPSULE, v) (peer_of (w_ses them)) =
    ((peer_of (w_ses them)) <| pv_closed := true |>, [EvClosed code reason true])).
  { rewrite <- Heff. cbn [capsules_effect]. fold v. destruct (capsule_effect _ _). by rewrite app_nil_r. }
  assert (Hroom : wlp (scan_all payloads) (fun _ them' =>
    enough_room them → w_ev them' = w_ev them ++ [EvClosed code reason true]) them).
  { intros [] them1 Erun (B & Hgr & Hf). revert Erun.
    enough (H : wlp (scan_all payloads) (fun _ them' => w_ev them' = w_ev them ++ [EvClosed code reason true]) them) by apply H. pose proof (inv_capsule limits L them Hinv) as (Hm & Hcap & _).
    eapply wlp_mono; [apply (scan_all_closing payloads B (streams_bufs (ws_streams (w_ses them)) ++ L)
      WT_CLOSE_SESSION_CAPSULE v)|]; try done.
    - apply (roomy_start B _ (ws_capsule_buf (w_ses them)) (w_mem them)); [|by destruct Hinv..|done].
      split; [|done]. rewrite Hm. by destruct Hinv.
    - by rewrite Hclosing.
    - rewrite E. unfold capsule_bytes. by intros [?%put_varint_nonempty _]%app_eq_nil.
    - by rewrite Hb.
    - cbv beta. intros _ them' [_ He]. by rewrite He, Hclosing. }
  eapply wp_mono; [eapply wp_of_wlp; [eapply wp_of_wlp; [by apply (scan_all_good payloads L)|]|]|].
  - apply (scan_all_scans payloads [(WT_CLOSE_SESSION_CAPSULE, v)]); [by constructor|]. intros _.
    rewrite Hb, E. split; [|done]. unfold encode_frames. cbn. by rewrite app_nil_r.
  - exact Hroom.
  - cbv beta. intros [] them' [[_ H] Hrm]. destruct H as [[H1 H2]|(cs & Hpre & Ho & [H1 H2])].
    + rewrite Heff in H1, H2. split; [by apply (f_equal pv_closed) in H1|]. split; [by left|done].
    + split; [by apply (f_equal pv_closed) in H1|]. split; [|done]. right. rewrite H2.
      destruct cs as [|c cs]; [done|]. destruct Hpre as [k Ek].
      pose proof (f_equal (hd c) Ek) as Ec. pose proof (f_equal tail Ek) as Et. cbn [hd tail app] in Ec, Et.
      symmetry in Et. apply app_eq_nil in Et as [-> ->]. rewrite <- Ec in Ho. by rewrite Heff in Ho.
Qed.

(** C11: a graceful close reaches the peer.  Closing a session with a CONNECT
    stream queues one DATA frame and the FIN behind it.  A peer that receives
    that payload in any pieces closes with our code and our reason, cut to the
    longest prefix of at most 1024 bytes that splits no character, and reports
    just that, as remote: always when its allocator serves requests of up to
    2048 bytes with at most [B] and every node its parser memory is charged to
    has [3 * B] bytes to spare; without that room it does the same or closes
    with the error that its parser memory refused. *)
Theorem close_reaches_peer (code : N) (reason : bytes) (us them : World C) st L :
  ws_close_req (w_ses us) = None → ws_streams (w_ses us) !! CONNECT_ID = Some st →
  code < 2 ^ 32 →
  inv limits L them → ws_closed (w_ses them) = false →
  pb_data (ws_capsule_buf (w_ses them)) = [] →
  ∃ cut, longest_cut reason cut ∧
  wp (_ ← close code reason; queue_close_capsule) (fun _ us' => ∃ payload st',
    ws_streams (w_ses us') !! CONNECT_ID = Some st' ∧
    st_out st' = st_out st ++ [mkOutChunk (frame FRAME_DATA payload) 0 None] ∧
    st_fin_queued st' = true ∧
    ∀ payloads, concat payloads = payload →
      wp (scan_all payloads) (fun _ them' =>
        ws_closed (w_ses them') = true ∧
        (w_ev them' = w_ev them ++ [EvClosed code cut true] ∨
         w_ev them' = w_ev them ++ refusal) ∧
        (∀ B, grants 2048 B →
          fits (pb_memory (ws_capsule_buf (w_ses them))) (3 * B) (w_mem them) →
          w_ev them' = w_ev them ++ [EvClosed code cut true])) them) us.
Proof.
  intros Hreq Hst Hcode Hinv Hc Hb. set (r := truncate_close_reason reason). exists r.
  split; [apply truncate_close_reason_longest|].
  unfold close. ses_steps. rewrite Hreq. ses_steps. unfold queue_close_capsule. ses_steps. cbn.
  ses_steps. cbn. rewrite Hst. unfold push_out, with_stream. ses_steps.
  exists (capsule_bytes WT_CLOSE_SESSION_CAPSULE (be32 code ++ r)),
    (st <| st_out ::= fun out => out ++ [mkOutChunk (capsule_frame WT_CLOSE_SESSION_CAPSULE (be32 code ++ r)) 0 None] |>
        <| st_fin_queued := true |>).
  cbn. rewrite !lookup_alter, !decide_True, Hst by done. do 3 (split; [done|]).
  intros payloads Hp.
  eapply wp_mono; [by apply (close_received payloads code r L them); [|apply truncate_close_reason_length|..]|].
  cbv beta. intros _ them' (H1 & H2 & H3). split; [done|]. split; [done|]. intros B Hgr Hf. apply H3. by exists B.
Qed.
End scanner.
