(* ===== verification/SessionHandshake.v ===== *)
(** * The handshake across the two sessions ([crates/native/src/session.rs])

    The client's CONNECT as the server reads it, the server's answer as the
    client reads it, and that both sides agree on the outcome. *)

From S2P Require Import Prelude Utf8 H3 ParserMemory FrameParser Headers Net Quic SessionState.
From S2P Require Import SessionRecv SessionConnect SessionSend SessionInv SessionFrame.
From S2P Require Import SessionFlow.

#[local] Opaque from_utf8_lossy is_utf8.

(** A header the application may add: valid UTF-8, lower case, and none of the
    names that carry the negotiation. *)
Definition reserved : list bytes :=
  [s2b ":method"; s2b ":protocol"; s2b ":authority"; s2b ":path"; s2b "origin";
   WT_AVAILABLE_PROTOCOLS; WT_PROTOCOL].
Record plain_header (kv : rstring * rstring) : Prop := mkPlainHeader {
  ph_name : is_utf8 kv.1 = true;
  ph_value : is_utf8 kv.2 = true;
  ph_lower : lower_name (mkHeader kv.1 kv.2) = true;
  ph_colon : starts_with (s2b ":") kv.1 = false;
  ph_free : kv.1 ∉ reserved;
}.

Definition header_of (kv : rstring * rstring) : Header := mkHeader kv.1 kv.2.

(** The reader's cases, one by one. *)
Ltac read_case :=
  unfold read_field; cbn [h_name h_value];
  repeat (rewrite bool_decide_false by discriminate); try rewrite bool_decide_true by reflexivity; reflexivity.

Lemma read_method r v : read_field r (mkHeader (s2b ":method") v) = r <| rq_method := Some v |>.
Proof. read_case. Qed.
Lemma read_protocol r v : read_field r (mkHeader (s2b ":protocol") v) = r <| rq_protocol := Some v |>.
Proof. read_case. Qed.
Lemma read_scheme r v : read_field r (mkHeader (s2b ":scheme") v) = r.
Proof. read_case. Qed.
Lemma read_authority r v : is_utf8 v = true →
  read_field r (mkHeader (s2b ":authority") v) = r <| rq_authority := v |>.
Proof. intros H. transitivity (r <| rq_authority := from_utf8_lossy v |>);
  [read_case|by rewrite from_utf8_lossy_id]. Qed.
Lemma read_path r v : is_utf8 v = true → read_field r (mkHeader (s2b ":path") v) = r <| rq_path := v |>.
Proof. intros H. transitivity (r <| rq_path := from_utf8_lossy v |>);
  [read_case|by rewrite from_utf8_lossy_id]. Qed.
Lemma read_origin r v : is_utf8 v = true →
  read_field r (mkHeader (s2b "origin") v) = r <| rq_origin := Some v |>.
Proof. intros H. transitivity (r <| rq_origin := Some (from_utf8_lossy v) |>);
  [read_case|by rewrite from_utf8_lossy_id]. Qed.
Lemma read_protocols r v : is_utf8 v = true →
  read_field r (mkHeader WT_AVAILABLE_PROTOCOLS v) = r <| rq_protocol_fields ::= fun l => l ++ [v] |>.
Proof. intros H. transitivity (r <| rq_protocol_fields ::= fun l => l ++ [from_utf8_lossy v] |>);
  [read_case|by rewrite from_utf8_lossy_id]. Qed.

Lemma read_plain r kv : plain_header kv → read_field r (header_of kv) = r <| rq_extra ::= fun l => l ++ [kv] |>.
Proof.
  intros [Hn Hv _ Hc Hf]. unfold read_field, header_of. cbn [h_name h_value].
  unfold reserved in Hf. rewrite !not_elem_of_cons in Hf. destruct Hf as (? & ? & ? & ? & ? & ? & ? & _).
  rewrite !bool_decide_false by done. rewrite Hc, !from_utf8_lossy_id by done. by destruct kv.
Qed.

Lemma read_plains kvs r :
  Forall plain_header kvs → foldl read_field r (map header_of kvs) = r <| rq_extra ::= fun l => l ++ kvs |>.
Proof.
  intros H. revert r. induction H as [|kv kvs Hkv _ IH]; intros r; cbn [map foldl].
  - destruct r. unfold upd. cbn. by rewrite app_nil_r.
  - rewrite read_plain, IH by done. destruct r. unfold upd. cbn. by rewrite <- app_assoc.
Qed.

Lemma response_headers_cons h hs :
  response_headers (h :: hs) =
  if starts_with (s2b ":") (h_name h) then response_headers hs
  else match (n ← from_utf8 (h_name h); v ← from_utf8 (h_value h); Some (n, v)) with
       | Some kv => kv :: response_headers hs
       | None => response_headers hs
       end.
Proof. unfold response_headers. cbn [List.filter]. by destruct (starts_with _ _). Qed.

Lemma response_plains kvs :
  Forall plain_header kvs → response_headers (map header_of kvs) = kvs.
Proof.
  induction 1 as [|[n v] kvs [Hn Hv _ Hc _] _ IH]; [done|]. cbn [map].
  rewrite response_headers_cons. unfold header_of, from_utf8. cbn [h_name h_value fst snd] in *.
  rewrite Hc, Hn. cbn [mbind option_bind]. rewrite Hv. cbn [mbind option_bind]. by f_equal.
Qed.

Section handshake.
Context {qpack : Qpack} {qpack_laws : QpackLaws} {sfv : Sfv} {sfv_laws : SfvLaws}.

Lemma serialized_list_utf8 ps : Forall sf_token ps → is_utf8 (serialize_sf_string_list ps) = true.
Proof.
  intros Hs. apply ascii_utf8. unfold serialize_sf_string_list.
  induction Hs as [|p ps Hp Hs IH]; cbn [map join]; [constructor|].
  pose proof (sf_string_ascii _ _ (serialize_sf_string_spec p Hp)) as Ha.
  destruct ps as [|q ps]; [done|]. cbn [map] in *. apply Forall_app. split; [done|].
  apply Forall_app. split; [|done]. by repeat constructor.
Qed.

(** The server reads what the client sent. *)
Lemma read_connect_headers authority path origin extra protocols :
  is_utf8 authority = true → is_utf8 path = true →
  match origin with Some o => is_utf8 o = true | None => True end →
  Forall plain_header extra → Forall sf_token protocols →
  let r := read_request (connect_headers authority path origin extra protocols) in
  rq_method r = Some (s2b "CONNECT") ∧ rq_protocol r = Some (s2b "webtransport") ∧
  rq_authority r = authority ∧ rq_path r = path ∧ rq_origin r = origin ∧ rq_extra r = extra ∧
  parse_sf_string_list (join (s2b ", ") (rq_protocol_fields r)) = protocols.
Proof.
  intros Ha Hp Ho He Ht. unfold read_request, connect_headers.
  rewrite !foldl_app. change (map (fun kv => mkHeader kv.1 kv.2) extra) with (map header_of extra).
  rewrite read_plains by done. cbv zeta.
  cbn [foldl]. rewrite read_method, read_protocol, read_scheme, read_authority, read_path by done.
  assert (E : ∀ r, foldl read_field r (match origin with Some o => [mkHeader (s2b "origin") o] | None => [] end) =
    match origin with Some o => r <| rq_origin := Some o |> | None => r end).
  { intros r. destruct origin as [o|]; [|done]. cbn [foldl]. by rewrite read_origin. }
  rewrite E. clear E. destruct protocols as [|p ps].
  - cbn [foldl]. pose proof (parse_serialized_list [] Ht) as E. destruct origin; done.
  - cbn [foldl]. rewrite read_protocols by (by apply serialized_list_utf8).
    pose proof (parse_serialized_list (p :: ps) Ht) as E. destruct origin; done.
Qed.

(** A HEADERS frame decodes to the list it encodes. *)
Lemma headers_frame_decodes headers f :
  encode_headers_frame headers = Ok f →
  Forall (fun h => lower_name h = true) headers → headers_size headers <= MAX_HEADER_BLOCK →
  ∃ block, f = frame FRAME_HEADERS block ∧ decode_header_block block = Ok headers.
Proof.
  unfold encode_headers_frame, decode_header_block. intros E Hl Hs. cbv zeta in E.
  match type of E with context [qpack_encode ?h ?cap] =>
    destruct (qpack_encode h cap) as [block|e] eqn:Eb; [|done] end.
  injection E as <-. exists block. split; [done|]. by rewrite (qpack_roundtrip _ _ _ _ Eb).
Qed.

Lemma plain_lower kvs : Forall plain_header kvs → Forall (fun h => lower_name h = true) (map header_of kvs).
Proof. intros H. apply Forall_map. eapply Forall_impl; [done|]. intros kv [_ _ Hl _ _]. exact Hl. Qed.

Lemma connect_headers_lower authority path origin extra protocols :
  Forall plain_header extra →
  Forall (fun h => lower_name h = true) (connect_headers authority path origin extra protocols).
Proof.
  intros He. unfold connect_headers. rewrite !Forall_app.
  split; [by repeat constructor|]. split; [destruct origin; by repeat constructor|].
  split; [destruct protocols; by repeat constructor|]. by apply plain_lower.
Qed.

Lemma accept_response_lower selected extra :
  Forall plain_header extra → Forall (fun h => lower_name h = true) (accept_response selected extra).
Proof.
  intros He. unfold accept_response. rewrite !Forall_app.
  split; [by repeat constructor|]. split; [destruct selected; by repeat constructor|]. by apply plain_lower.
Qed.

(** The client reads the server's selection. *)
Lemma answer_protocol selected extra :
  match selected with Some p => sf_token p | None => True end → Forall plain_header extra →
  wt_protocol_of (accept_response selected extra) = selected.
Proof.
  intros Hs He. unfold wt_protocol_of, accept_response. rewrite !List.filter_app.
  assert (Hf : List.filter (fun h => bool_decide (h_name h = WT_PROTOCOL)) (map (fun kv => mkHeader kv.1 kv.2) extra) = []).
  { clear Hs. induction He as [|kv kvs [_ _ _ _ Hkv] _ IH]; [done|]. cbn [map List.filter h_name].
    rewrite bool_decide_false, IH; [done|]. intros E. apply Hkv. rewrite E. vm_compute. set_solver. }
  rewrite Hf. destruct selected as [p|]; [|done]. cbn [List.filter h_name app].
  rewrite bool_decide_false by done. rewrite bool_decide_true by done. cbn [app h_value].
  unfold from_utf8. rewrite ascii_utf8 by (eapply sf_string_ascii, serialize_sf_string_spec; done).
  by apply parse_serialized_item.
Qed.

Lemma answer_headers selected extra :
  match selected with Some p => sf_token p | None => True end → Forall plain_header extra →
  response_headers (accept_response selected extra) =
  match selected with Some p => [(WT_PROTOCOL, serialize_sf_string p)] | None => [] end ++ extra.
Proof.
  intros Hs He. unfold accept_response. cbn [app]. rewrite response_headers_cons.
  cbn [h_name]. change (starts_with (s2b ":") (s2b ":status")) with true. cbv beta iota.
  change (map (fun kv => mkHeader kv.1 kv.2) extra) with (map header_of extra).
  destruct selected as [p|]; cbn [app]; [|by apply response_plains].
  rewrite response_headers_cons, response_plains by done. cbn [h_name h_value].
  change (starts_with (s2b ":") WT_PROTOCOL) with false. cbv beta iota.
  unfold from_utf8. change (is_utf8 WT_PROTOCOL) with true.
  by rewrite ascii_utf8 by (eapply sf_string_ascii, serialize_sf_string_spec; done).
Qed.

Lemma select_protocol_spec supported offered p :
  select_protocol supported offered = Some p → p ∈ supported ∧ p ∈ offered.
Proof.
  unfold select_protocol. intros H. apply List.find_some in H as [H1 H2].
  split; [by apply list_elem_of_In|].
  apply existsb_exists in H2 as (q & Hq & E%bool_decide_eq_true). subst. by apply list_elem_of_In.
Qed.
End handshake.

(** What the two applications configured. *)
Record can_ask (c : WtSession) : Prop := mkCanAsk {
  ca_authority : is_utf8 (ws_authority c) = true;
  ca_path : is_utf8 (ws_path c) = true;
  ca_origin : match ws_origin c with Some o => is_utf8 o = true | None => True end;
  ca_extra : Forall plain_header (ws_extra_headers c);
  ca_protocols : Forall sf_token (ws_protocols c);
}.

(** The two header lists of a handshake. *)
Definition ask (c : WtSession) : list Header :=
  connect_headers (ws_authority c) (ws_path c) (ws_origin c) (ws_extra_headers c) (ws_protocols c).
Definition answer (c s : WtSession) : list Header :=
  accept_response (select_protocol (ws_supported_protocols s) (ws_protocols c)) (ws_response_headers s).

Definition server_ready (c s : WtSession) : Ev :=
  EvServerReady (ws_authority c) (ws_path c) (ws_origin c) (ws_extra_headers c) (ws_protocols c)
    (select_protocol (ws_supported_protocols s) (ws_protocols c))
    (match ws_remote_addr s with Some a => ip_to_string (sa_ip a) | None => [] end)
    (match ws_remote_addr s with Some a => sa_port a | None => 0 end).

(** The frame waiting on a session's CONNECT stream carries these headers. *)
Definition queued_headers `{Qpack} {C} (headers : list Header) (before : list OutChunk) (w : World C) : Prop :=
  ∃ st block, ws_streams (w_ses w) !! CONNECT_ID = Some st ∧
    st_out st = before ++ [mkOutChunk (frame FRAME_HEADERS block) 0 None] ∧
    decode_header_block block = Ok headers.

Section agreement.
Context {C : Type} {quic : Quic C} {alloc : Allocator}.
Context {qpack : Qpack} {qpack_laws : QpackLaws} {sfv : Sfv} {sfv_laws : SfvLaws}.

(** The client's half: the request goes out as the first bytes of its stream. *)
Lemma queue_connect_wp f (cli : World C) :
  can_ask (w_ses cli) → headers_size (ask (w_ses cli)) <= MAX_HEADER_BLOCK →
  encode_headers_frame (ask (w_ses cli)) = Ok f → f ≠ [] →
  wp queue_connect (fun _ cli' => queued_headers (ask (w_ses cli)) [] cli' ∧
    w_ev cli' = w_ev cli ∧ of_ses (fun s => (ws_ready s, ws_protocols s)) cli' =
      of_ses (fun s => (ws_ready s, ws_protocols s)) cli) cli.
Proof.
  intros [] Hsize Ef Hne. unfold queue_connect. ses_steps. fold (ask (w_ses cli)). rewrite Ef. ses_steps.
  destruct (headers_frame_decodes _ _ Ef) as (block & -> & Hd); [by apply connect_headers_lower|done|].
  assert (E : with_prefix Connect (frame FRAME_HEADERS block) (ws_parser_memory (w_ses cli)) =
    (new_stream Connect (ws_parser_memory (w_ses cli)))
      <| st_out := [mkOutChunk (frame FRAME_HEADERS block) 0 None] |>).
  { unfold with_prefix. by destruct (frame FRAME_HEADERS block). }
  rewrite E. eapply wp_mono; [apply insert_stream_wp|]. cbv beta. intros _ w' [u ->].
  split; [|done]. eexists _, block. cbn. rewrite lookup_insert, decide_True by done. done.
Qed.

(** The server's half. *)
Lemma accept_connect_wp f (c : WtSession) (srv : World C) st :
  can_ask c → Forall plain_header (ws_response_headers (w_ses srv)) →
  origin_permitted (ws_allowed_origins (w_ses srv)) (ws_origin c) = true →
  headers_size (answer c (w_ses srv)) <= MAX_HEADER_BLOCK →
  encode_headers_frame (answer c (w_ses srv)) = Ok f →
  ws_streams (w_ses srv) !! CONNECT_ID = Some st →
  wp (accept_connect CONNECT_ID (ask c)) (fun _ srv' =>
    queued_headers (answer c (w_ses srv)) (st_out st) srv' ∧
    ws_ready (w_ses srv') = true ∧ w_ev srv' = w_ev srv ++ [server_ready c (w_ses srv)]) srv.
Proof.
  intros [] Hresp Horigin Hsize Ef Hst. unfold accept_connect.
  destruct (read_connect_headers (ws_authority c) (ws_path c) (ws_origin c) (ws_extra_headers c)
    (ws_protocols c)) as (E1 & E2 & E3 & E4 & E5 & E6 & E7); [done..|].
  fold (ask c) in *. cbv zeta. rewrite E1, E2, E3, E4, E5, E6, E7, !bool_decide_true by done.
  cbn [andb negb]. ses_steps. rewrite Horigin. cbn [negb]. ses_steps.
  fold (answer c (w_ses srv)). rewrite Ef.
  destruct (headers_frame_decodes _ _ Ef) as (block & -> & Hd); [by apply accept_response_lower|done|].
  unfold push_out, with_stream. ses_steps.
  assert (Hdone : ∀ a p, wp (push_ev (EvServerReady (ws_authority c) (ws_path c) (ws_origin c) (ws_extra_headers c)
      (ws_protocols c) (select_protocol (ws_supported_protocols (w_ses srv)) (ws_protocols c)) a p))
    (fun _ srv' => ∃ w1, srv' = w1 <| w_ev ::= fun l => l ++
       [EvServerReady (ws_authority c) (ws_path c) (ws_origin c) (ws_extra_headers c) (ws_protocols c)
         (select_protocol (ws_supported_protocols (w_ses srv)) (ws_protocols c)) a p] |> ∧
       w1 = (srv <| w_ses ::= fun s => s <| ws_streams ::= alter (fun st => st <| st_out ::= fun out => out ++
         [mkOutChunk (frame FRAME_HEADERS block) 0 None] |>) CONNECT_ID |> |> <| w_ses ::= fun s => s <| ws_ready := true |> |>))
    (srv <| w_ses ::= fun s => s <| ws_streams ::= alter (fun st => st <| st_out ::= fun out => out ++
         [mkOutChunk (frame FRAME_HEADERS block) 0 None] |>) CONNECT_ID |> |> <| w_ses ::= fun s => s <| ws_ready := true |> |>)).
  { intros a p. apply wp_modify. eauto. }
  unfold server_ready. cbn. destruct (ws_remote_addr (w_ses srv)) as [a|];
    (eapply wp_mono; [apply Hdone|]; cbv beta; intros _ srv' (w1 & -> & ->); split; [|done];
     eexists _, block; cbn; rewrite lookup_alter, decide_True, Hst by done; done).
Qed.

(** The client reads the answer. *)
Lemma handle_response_wp (s : WtSession) (cli : World C) (c : WtSession) :
  Forall sf_token (ws_protocols c) → Forall plain_header (ws_response_headers s) →
  ws_ready (w_ses cli) = false → ws_protocols (w_ses cli) = ws_protocols c →
  let selected := select_protocol (ws_supported_protocols s) (ws_protocols c) in
  wp (handle_response (answer c s)) (fun _ cli' => ws_ready (w_ses cli') = true ∧
    w_ev cli' = w_ev cli ++ [EvReady selected (response_headers (answer c s))]) cli.
Proof.
  intros Ht Hr Hready Hp selected. unfold handle_response.
  change (status_of (answer c s)) with (Some 200). cbn [default]. cbv zeta.
  change (id 200) with 200. change ((200 <=? 200) && (200 <? 300)) with true. cbv beta iota. ses_steps. rewrite Hready. ses_steps.
  assert (Hsel : match selected with Some p => sf_token p ∧ p ∈ ws_protocols c | None => True end).
  { unfold selected. destruct (select_protocol _ _) as [p|] eqn:E; [|done].
    apply select_protocol_spec in E as [_ Hin]. split; [|done]. by eapply Forall_forall in Ht. }
  assert (Eprot : wt_protocol_of (answer c s) = selected).
  { unfold answer. fold selected. apply answer_protocol; [destruct selected; tauto|done]. }
  rewrite Eprot, Hp.
  assert (Hoff : match selected with
    | Some p => negb (existsb (fun o => bool_decide (o = p)) (ws_protocols c)) | None => false end = false).
  { destruct selected as [p|]; [|done]. destruct Hsel as [_ Hin]. apply negb_false_iff, existsb_exists.
    exists p. split; [by apply list_elem_of_In|]. by apply bool_decide_eq_true. }
  rewrite Hoff. ses_steps. done.
Qed.

(** C9: the two sides of a handshake agree.  When the application supplied
    proper strings and tokens, the header lists fit, and the server permits
    the origin, then: the CONNECT the client queues decodes to headers that
    make the server ready, with the client's authority, path, origin, extra
    headers and subprotocol offer; and the answer the server queues behind
    whatever it had decodes to headers that make the client ready with the
    same subprotocol, the first the server supports that the client offered. *)
Theorem handshake_agrees f g (cli srv : World C) st :
  can_ask (w_ses cli) → ws_ready (w_ses cli) = false →
  Forall plain_header (ws_response_headers (w_ses srv)) →
  origin_permitted (ws_allowed_origins (w_ses srv)) (ws_origin (w_ses cli)) = true →
  ws_streams (w_ses srv) !! CONNECT_ID = Some st →
  headers_size (ask (w_ses cli)) <= MAX_HEADER_BLOCK →
  headers_size (answer (w_ses cli) (w_ses srv)) <= MAX_HEADER_BLOCK →
  encode_headers_frame (ask (w_ses cli)) = Ok f →
  encode_headers_frame (answer (w_ses cli) (w_ses srv)) = Ok g →
  let selected := select_protocol (ws_supported_protocols (w_ses srv)) (ws_protocols (w_ses cli)) in
  wp queue_connect (fun _ cli1 => ∃ asked,
    queued_headers asked [] cli1 ∧ w_ev cli1 = w_ev cli ∧
    wp (accept_connect CONNECT_ID asked) (fun _ srv1 => ∃ answered,
      queued_headers answered (st_out st) srv1 ∧
      ws_ready (w_ses srv1) = true ∧
      w_ev srv1 = w_ev srv ++ [server_ready (w_ses cli) (w_ses srv)] ∧
      wp (handle_response answered) (fun _ cli2 =>
        ws_ready (w_ses cli2) = true ∧
        w_ev cli2 = w_ev cli ++ [EvReady selected
          (match selected with Some p => [(WT_PROTOCOL, serialize_sf_string p)] | None => [] end ++
           ws_response_headers (w_ses srv))]) cli1) srv) cli.
Proof.
  intros Hask Hready Hresp Horigin Hst Hsize1 Hsize2 Ef Eg selected.
  assert (Hne : f ≠ []).
  { destruct (headers_frame_decodes _ _ Ef) as (block & -> & _); [|done|done].
    apply connect_headers_lower. by destruct Hask. }
  eapply wp_mono; [by apply (queue_connect_wp f)|]. cbv beta. intros _ cli1 (Hq1 & Hev1 & Hkeep).
  exists (ask (w_ses cli)). split; [done|]. split; [done|].
  eapply wp_mono; [by apply (accept_connect_wp g (w_ses cli) srv st)|]. cbv beta.
  intros _ srv1 (Hq2 & Hr2 & Hev2). exists (answer (w_ses cli) (w_ses srv)). do 3 (split; [done|]).
  unfold of_ses in Hkeep. injection Hkeep as Hk1 Hk2.
  eapply wp_mono; [apply (handle_response_wp (w_ses srv) cli1 (w_ses cli)); [by destruct Hask|done|congruence|done]|].
  cbv beta. intros _ cli2 [Hr3 Hev3]. split; [done|]. rewrite Hev3, Hev1. fold selected.
  unfold answer. fold selected. rewrite answer_headers; [done| |done].
  unfold selected. destruct (select_protocol _ _) as [p|] eqn:E; [|done].
  apply select_protocol_spec in E as [_ Hin]. destruct Hask. by eapply Forall_forall in ca_protocols0.
Qed.
End agreement.

(** ** A concrete handshake *)

Module Example.
#[local] Existing Instance exact_allocator.
#[local] Existing Instance literal_qpack.
#[local] Existing Instance rfc9651.

Definition memory : ParserMemory := PMRoot 0 MAX_SESSION_PARSER_MEMORY.
Definition client : World ToyConn := mkWorld ((blank_session memory)
  <| ws_authority := s2b "example.org" |> <| ws_path := s2b "/chat" |>
  <| ws_origin := Some (s2b "https://example.org") |>
  <| ws_extra_headers := [(s2b "x-user", s2b "ada")] |>
  <| ws_protocols := [s2b "moq-01"; s2b "moq-00"] |>) toy_new ∅ [].
Definition server : World ToyConn := mkWorld ((blank_session memory)
  <| ws_is_server := true |> <| ws_supported_protocols := [s2b "moq-00"] |>
  <| ws_allowed_origins := Some [s2b "https://example.org"] |>
  <| ws_response_headers := [(s2b "server", s2b "rwt")] |>
  <| ws_streams := {[ CONNECT_ID := new_stream Connect memory ]} |>) toy_new ∅ [].

Definition frame_of (headers : list Header) : bytes :=
  match encode_headers_frame headers with Ok f => f | Err _ => [] end.

Lemma plain name value :
  is_utf8 name && is_utf8 value && lower_name (mkHeader name value) && negb (starts_with (s2b ":") name) &&
    negb (bool_decide (name ∈ reserved)) = true → plain_header (name, value).
Proof.
  rewrite !andb_true_iff, !negb_true_iff, bool_decide_eq_false. intros ((((? & ?) & ?) & ?) & ?).
  by constructor.
Qed.

Lemma client_can_ask : can_ask (w_ses client).
Proof.
  constructor; [vm_compute; reflexivity..| |].
  - repeat constructor; try (by vm_compute). apply (plain (s2b "x-user") (s2b "ada")). by vm_compute.
  - repeat constructor.
Qed.

Lemma handshake_agrees_witness :
  ∃ cli1 asked srv1, queue_connect client = Some ((), cli1) ∧
    accept_connect CONNECT_ID asked server = Some ((), srv1) ∧
    w_ev srv1 = [EvServerReady (s2b "example.org") (s2b "/chat") (Some (s2b "https://example.org"))
      [(s2b "x-user", s2b "ada")] [s2b "moq-01"; s2b "moq-00"] (Some (s2b "moq-00")) [] 0].
Proof.
  assert (Hresp : Forall plain_header (ws_response_headers (w_ses server))).
  { repeat constructor; try (by vm_compute). apply (plain (s2b "server") (s2b "rwt")). by vm_compute. }
  pose proof (handshake_agrees (frame_of (ask (w_ses client)))
    (frame_of (answer (w_ses client) (w_ses server))) client server (new_stream Connect memory)
    client_can_ask eq_refl Hresp) as H.
  cbv zeta in H. specialize (H ltac:(vm_compute; reflexivity) eq_refl
    ltac:(vm_compute; discriminate) ltac:(vm_compute; discriminate)
    ltac:(vm_compute; reflexivity) ltac:(vm_compute; reflexivity)).
  apply wp_elim in H as ([] & cli1 & E1 & asked & _ & _ & H).
  apply wp_elim in H as ([] & srv1 & E2 & answered & _ & _ & Hev & _).
  exists cli1, asked, srv1. split; [exact E1|]. split; [exact E2|].
  rewrite Hev. vm_compute. reflexivity.
Defined.
End Example.
