(* ===== verification/SessionReassembly.v ===== *)
(** * Data streams from the peer ([crates/native/src/session.rs])

    However the network cuts a stream, its signal is recognised and exactly its
    payload is delivered. *)

From S2P Require Import Prelude H3 ParserMemory FrameParser Headers Net Quic SessionState.
From S2P Require Import SessionRecv SessionConnect SessionStreams SessionSend SessionInv.
From S2P Require Import SessionRecvInv SessionFrame SessionCapsule.

(** The bytes of stream [id] among the events. *)
Definition delivered (id : N) (evs : list Ev) : bytes :=
  concat (omap (fun e => match e with
    | EvStreamData i d => if decide (i = id) then Some d else None
    | _ => None
    end) evs).

Lemma delivered_app id l k : delivered id (l ++ k) = delivered id l ++ delivered id k.
Proof. unfold delivered. by rewrite omap_app, concat_app. Qed.

Lemma delivered_pieces id pieces : delivered id (map (EvStreamData id) pieces) = concat pieces.
Proof.
  induction pieces as [|p ps IH]; [done|]. unfold delivered in *. cbn.
  rewrite decide_True by done. cbn. by rewrite IH.
Qed.

(** The signal that opens a stream of ours at the peer, and the role of such a
    stream before it has been read. *)
Definition pending (bidi : bool) : Role := if bidi then PendingBidi else PendingUni.
Definition signal (bidi : bool) : bytes := stream_prefix bidi.
Definition signal_type (bidi : bool) : N := if bidi then WT_BIDI_FRAME_TYPE else WT_UNI_STREAM_TYPE.

Lemma signal_read bidi rest :
  read_varint (signal bidi ++ rest) = Some (signal_type bidi, 2%nat) ∧
  read_varint (drop 2 (signal bidi ++ rest)) = Some (CONNECT_ID, 1%nat) ∧
  drop 3 (signal bidi ++ rest) = rest.
Proof. by destruct bidi. Qed.

(** Reading from a beginning of some bytes. *)
Lemma read_varint_beginning b k whole v n :
  b ++ k = whole → read_varint b = Some (v, n) →
  read_varint whole = Some (v, n) ∧ (n <= length b)%nat.
Proof.
  intros <- E. split; [by apply read_varint_app|]. apply read_varint_bounds in E. lia.
Qed.

Section reassembly.
Context {C : Type} {quic : Quic C} {alloc : Allocator} {qpack : Qpack} {sfv : Sfv}.
Context (id : N) (bidi : bool) (payload : bytes).

(** The rounds of the read loop on one stream: what each read brought, the
    last with the FIN. *)
Fixpoint recv_all (chunks : list bytes) (last : bytes) : M (World C) () :=
  closed ← ses ws_closed;
  if (closed : bool) then mret ()
  else
    match chunks with
    | [] => process_recv id last true
    | c :: cs => _ ← process_recv id c false; recv_all cs last
    end.

(** [k] is still to come. *)
Inductive phase (w0 w : World C) (k : bytes) : Prop :=
  | phase_pending st :
      ws_streams (w_ses w) !! id = Some st → st_role st = pending bidi →
      pb_data (st_class_buf st) ++ k = signal bidi ++ payload → w_ev w = w_ev w0 →
      k ≠ [] → phase w0 w k
  | phase_data st pieces :
      ws_streams (w_ses w) !! id = Some st → st_role st = WtData bidi →
      Forall (fun p => p ≠ []) pieces → concat pieces ++ k = payload →
      w_ev w = w_ev w0 ++ EvIncomingStream id bidi :: map (EvStreamData id) pieces →
      phase w0 w k.

Definition broken_off (w0 w : World C) : Prop :=
  ws_closed (w_ses w) = true ∧
  ∃ evs, w_ev w = w_ev w0 ++ evs ∧ delivered id evs `prefix_of` payload.

Definition finished (w0 w : World C) : Prop :=
  ∃ pieces, Forall (fun p => p ≠ []) pieces ∧ concat pieces = payload ∧
    w_ev w = w_ev w0 ++ EvIncomingStream id bidi :: map (EvStreamData id) pieces ++ [EvStreamFinished id].

(** Accounting either lets the data pass or ends the session. *)
Lemma account_receive_outcome amount st (w : World C) :
  ws_closed (w_ses w) = false → ws_streams (w_ses w) !! id = Some st →
  wlp (account_receive id amount) (fun (ok : bool) w' =>
    if ok then ws_closed (w_ses w') = false ∧ w_ev w' = w_ev w ∧
      ∃ st', ws_streams (w_ses w') !! id = Some st' ∧ st_role st' = st_role st
    else ws_closed (w_ses w') = true ∧ ∃ m, w_ev w' = w_ev w ++ [EvError m; EvClosed 0 [] true]) w.
Proof.
  intros Hc Hst. unfold account_receive. wl_steps. destruct (_ && _).
  - wl_steps. eapply wlp_mono; [by apply flow_error_becomes|]. cbv beta. intros _ w' [Hp He]. wl_steps.
    split; [by apply (f_equal pv_closed) in Hp|]. eexists. exact He.
  - wl_steps. split; [done|]. split; [done|]. eexists. cbn.
    rewrite lookup_alter, decide_True, Hst by done. by split.
Qed.

Lemma account_incoming_outcome st (w : World C) :
  ws_closed (w_ses w) = false → ws_streams (w_ses w) !! id = Some st →
  wlp (account_incoming bidi) (fun (ok : bool) w' =>
    if ok then ws_closed (w_ses w') = false ∧ w_ev w' = w_ev w ∧ ws_streams (w_ses w') !! id = Some st
    else ws_closed (w_ses w') = true ∧ ∃ m, w_ev w' = w_ev w ++ [EvError m; EvClosed 0 [] true]) w.
Proof.
  intros Hc Hst. unfold account_incoming. wl_steps. destruct (_ && _).
  - wl_steps. eapply wlp_mono; [by apply flow_error_becomes|]. cbv beta. intros _ w' [Hp He]. wl_steps.
    split; [by apply (f_equal pv_closed) in Hp|]. eexists. exact He.
  - wl_steps. done.
Qed.

(** Delivering data of a resolved stream, and its end. *)
Lemma deliver_spec pieces k data fin st (w0 w : World C) :
  ws_streams (w_ses w) !! id = Some st → st_role st = WtData bidi → ws_closed (w_ses w) = false →
  Forall (fun p => p ≠ []) pieces → concat pieces ++ data ++ k = payload →
  w_ev w = w_ev w0 ++ EvIncomingStream id bidi :: map (EvStreamData id) pieces →
  (fin = true → k = []) →
  wlp (_ ← when (negb (bool_decide (data = []))) (push_ev (EvStreamData id data));
       when fin (
         _ ← with_stream id (fun st => st <| st_recv_dead := true |>);
         push_ev (EvStreamFinished id)))
    (fun _ w' => ws_closed (w_ses w') = false ∧
      if fin then finished w0 w' else phase w0 w' k) w.
Proof.
  intros Hst Hrole Hc Hne Hp Hev Hfin.
  set (pieces' := pieces ++ (if bool_decide (data = []) then [] else [data])).
  assert (Hne' : Forall (fun p => p ≠ []) pieces').
  { apply Forall_app. split; [done|]. case_bool_decide; by repeat constructor. }
  assert (Hp' : concat pieces' ++ k = payload).
  { unfold pieces'. rewrite concat_app, <- app_assoc, <- Hp. do 2 f_equal.
    case_bool_decide; subst; cbn; by rewrite ?app_nil_r. }
  apply wlp_bind, (wlp_mono _ (fun _ w1 => ws_streams (w_ses w1) = ws_streams (w_ses w) ∧
    ws_closed (w_ses w1) = false ∧
    w_ev w1 = w_ev w0 ++ EvIncomingStream id bidi :: map (EvStreamData id) pieces')).
  { unfold pieces'. case_bool_decide; cbn [negb when]; wl_steps; (split; [done|]; split; [done|]); cbn.
    - by rewrite app_nil_r.
    - by rewrite Hev, map_app, <- app_assoc. }
  intros _ w1 (E1 & Hc1 & Hev1). destruct fin; cbn [when].
  - wl_steps. split; [done|]. exists pieces'. split; [done|].
    split; [by rewrite <- Hp', (Hfin eq_refl), app_nil_r|]. cbn. rewrite Hev1, <- app_assoc. done.
  - apply wlp_ret. split; [done|]. eapply (phase_data _ _ _ st pieces'); [by rewrite E1|done..].
Qed.

(** An early end keeps the prefix already delivered. *)
Lemma broken_off_after evs0 m (w0 w w' : World C) :
  w_ev w = w_ev w0 ++ evs0 → delivered id evs0 `prefix_of` payload →
  ws_closed (w_ses w') = true → w_ev w' = w_ev w ++ [EvError m; EvClosed 0 [] true] →
  broken_off w0 w'.
Proof.
  intros E Hd Hc E'. split; [done|]. exists (evs0 ++ [EvError m; EvClosed 0 [] true]).
  split; [by rewrite E', E, app_assoc|]. by rewrite delivered_app, app_nil_r.
Qed.

(** One read. *)
Definition read_post (fin : bool) (k : bytes) (w0 w : World C) : Prop :=
  broken_off w0 w ∨
  ws_closed (w_ses w) = false ∧ (if fin then finished w0 w else phase w0 w k).

Lemma set_role_outcome role st (w : World C) :
  ws_streams (w_ses w) !! id = Some st →
  wlp (set_role id role) (fun _ w' => ws_closed (w_ses w') = ws_closed (w_ses w) ∧
    w_ev w' = w_ev w ∧ ∃ st', ws_streams (w_ses w') !! id = Some st' ∧ st_role st' = role) w.
Proof.
  intros Hst. unfold set_role, class_buf_clear. wl_steps.
  cbn. rewrite lookup_alter, decide_True, Hst by done. cbn. wl_steps.
  split; [done|]. split; [done|]. eexists. cbn.
  rewrite lookup_alter, decide_True, lookup_alter, decide_True, Hst by done. by split.
Qed.

Lemma resolve_wt_data_spec header data fin k st (w0 w : World C) :
  ws_streams (w_ses w) !! id = Some st → ws_closed (w_ses w) = false → w_ev w = w_ev w0 →
  data ++ k = payload → (fin = true → k = []) →
  wlp (resolve_wt_data id bidi header data fin) (fun _ w' => read_post fin k w0 w') w.
Proof.
  intros Hst Hc Hev Hp Hfin. unfold resolve_wt_data.
  apply wlp_bind. eapply wlp_mono; [by apply (set_role_outcome (WtData bidi) st)|]. cbv beta.
  intros _ w1 (Hc1 & Hev1 & st1 & Hst1 & Hr1). rewrite Hc in Hc1. rewrite Hev in Hev1.
  apply wlp_bind. apply wlp_modify. match goal with |- wlp _ _ ?w' => set (w2 := w') end.
  assert (Hst2 : ∃ st2, ws_streams (w_ses w2) !! id = Some st2 ∧ st_role st2 = WtData bidi).
  { eexists. cbn. rewrite lookup_alter, decide_True, Hst1 by done. by split. }
  destruct Hst2 as (st2 & Hst2 & Hr2).
  apply wlp_bind. eapply wlp_mono; [by apply (account_incoming_outcome st2)|]. cbv beta.
  assert (Hnil : delivered id [] `prefix_of` payload) by apply prefix_nil.
  assert (Hev2 : w_ev w2 = w_ev w0 ++ []) by (cbn; by rewrite app_nil_r).
  intros [] w3; [|intros [Hc3 [m Hm]]; apply wlp_ret; left; by eapply broken_off_after].
  intros (Hc3 & Hev3 & Hst3). cbn [negb].
  apply wlp_bind. eapply wlp_mono; [by apply (account_receive_outcome _ st2)|]. cbv beta.
  rewrite <- Hev3 in Hev2.
  intros [] w4; [|intros [Hc4 [m Hm]]; apply wlp_ret; left; by eapply broken_off_after].
  intros (Hc4 & Hev4 & st4 & Hst4 & Hr4). cbn [negb].
  apply wlp_bind, wlp_modify.
  eapply wlp_mono; [eapply (deliver_spec [] k data fin st4 w0); try done; [congruence|]|].
  - cbn. by rewrite Hev4, Hev2, app_nil_r.
  - cbv beta. intros _ w' H. by right.
Qed.

Lemma class_buf_extend_outcome chunk st (w : World C) :
  ws_closed (w_ses w) = false → ws_streams (w_ses w) !! id = Some st →
  wlp (class_buf_extend id chunk) (fun r w' =>
    match r with
    | None => ws_closed (w_ses w') = true ∧ ∃ m, w_ev w' = w_ev w ++ [EvError m; EvClosed 0 [] true]
    | Some buf => buf = pb_data (st_class_buf st) ++ chunk ∧ ws_closed (w_ses w') = false ∧
        w_ev w' = w_ev w ∧
        ∃ st', ws_streams (w_ses w') !! id = Some st' ∧ st_role st' = st_role st ∧
          pb_data (st_class_buf st') = buf
    end) w.
Proof.
  intros Hc Hst. unfold class_buf_extend. apply wlp_bind, wlp_gets. rewrite Hst.
  apply wlp_bind, wlp_mem. intros [r b] u Eb. unfold buf_extend in Eb.
  destruct (extend_from_slice _ _ _) as [[r' b'] u'] eqn:Ee. injection Eb as -> -> ->.
  apply extend_data in Ee. wl_steps. destruct r as [[]|[]].
  - wl_steps. split; [done|]. split; [done|]. split; [done|]. eexists. cbn.
    rewrite lookup_alter, decide_True, Hst by done. by split.
  - apply wlp_bind. eapply wlp_mono; [by apply parser_limit_becomes|]. cbv beta. intros _ w' [Hp He].
    apply wlp_ret. split; [by apply (f_equal pv_closed) in Hp|]. eexists. exact He.
Qed.

(** Waiting for more of the signal; only possible when more is to come. *)
Lemma keep_waiting buf k fin st (w0 w : World C) :
  ws_streams (w_ses w) !! id = Some st → st_role st = pending bidi → ws_closed (w_ses w) = false →
  pb_data (st_class_buf st) = buf → buf ++ k = signal bidi ++ payload → w_ev w = w_ev w0 →
  (fin = true → k = []) → (k = [] → False) →
  wlp (when fin (remove_stream id)) (fun _ w' => read_post fin k w0 w') w.
Proof.
  intros Hst Hr Hc Hb Hk Hev Hfin Hne. destruct fin; [by destruct Hne; apply Hfin|].
  apply wlp_ret. right. split; [done|]. eapply phase_pending; [done|done|by rewrite Hb|done|].
  intros ->. by apply Hne.
Qed.

Lemma resolve_session_spec buf k fin st (w0 w : World C) :
  ws_streams (w_ses w) !! id = Some st → st_role st = pending bidi → ws_closed (w_ses w) = false →
  pb_data (st_class_buf st) = buf → buf ++ k = signal bidi ++ payload → w_ev w = w_ev w0 →
  (fin = true → k = []) → (2 <= length buf)%nat →
  wlp (resolve_session id bidi buf 2 fin) (fun _ w' => read_post fin k w0 w') w.
Proof.
  intros Hst Hr Hc Hb Hk Hev Hfin Hlen. destruct (signal_read bidi payload) as (_ & E2 & E3).
  unfold resolve_session.
  assert (Hdrop : drop 2 buf ++ k = drop 2 (signal bidi ++ payload)) by (by rewrite <- Hk, drop_app_le).
  destruct (read_varint (drop 2 buf)) as [[session n2]|] eqn:E.
  - destruct (read_varint_beginning _ _ _ _ _ Hdrop E) as [E' Hn]. rewrite E2 in E'. injection E' as <- <-.
    cbn [negb N.eqb CONNECT_ID]. rewrite length_drop in Hn.
    eapply resolve_wt_data_spec; [done..| |done]. rewrite <- drop_app_le by lia. by rewrite Hk.
  - eapply keep_waiting; [done..|]. intros ->. rewrite app_nil_r in Hdrop. by rewrite Hdrop, E2 in E.
Qed.

Lemma process_pending chunk fin k st (w0 w : World C) :
  ws_streams (w_ses w) !! id = Some st → st_role st = pending bidi → ws_closed (w_ses w) = false →
  pb_data (st_class_buf st) ++ chunk ++ k = signal bidi ++ payload → w_ev w = w_ev w0 →
  (fin = true → k = []) →
  wlp (process_recv id chunk fin) (fun _ w' => read_post fin k w0 w') w.
Proof.
  intros Hst Hr Hc Hk Hev Hfin. destruct (signal_read bidi payload) as (E1 & _).
  unfold process_recv. wl_steps. rewrite Hst. cbn [fmap option_fmap option_map]. rewrite Hr.
  assert (Hext : ∀ f : option bytes → M (World C) (),
    (∀ buf st' w', buf ++ k = signal bidi ++ payload → ws_streams (w_ses w') !! id = Some st' →
       st_role st' = pending bidi → ws_closed (w_ses w') = false → pb_data (st_class_buf st') = buf →
       w_ev w' = w_ev w0 → wlp (f (Some buf)) (fun _ w' => read_post fin k w0 w') w') →
    f None = mret () →
    wlp (buf ← class_buf_extend id chunk; f buf) (fun _ w' => read_post fin k w0 w') w).
  { intros f Hsome Hnone. apply wlp_bind.
    eapply wlp_mono; [by apply (class_buf_extend_outcome chunk st)|]. cbv beta. intros [buf|] w'.
    - intros (-> & Hc' & Hev' & st' & Hst' & Hr' & Hb').
      eapply Hsome; [by rewrite <- app_assoc|done|congruence|done|done|congruence].
    - intros [Hc' [m Hm]]. rewrite Hnone. apply wlp_ret. left.
      eapply (broken_off_after []); [by rewrite app_nil_r|apply prefix_nil|done|exact Hm]. }
  assert (Hcase : bidi = true ∨ bidi = false) by (destruct bidi; auto).
  destruct Hcase as [Hb|Hb].
  - assert (Et : signal_type bidi = WT_BIDI_FRAME_TYPE) by (unfold signal_type; by rewrite Hb).
    replace (pending bidi) with PendingBidi by (unfold pending; by rewrite Hb). cbv beta iota.
    apply Hext; [|done]. intros buf st' w' Hk' Hst' Hr' Hc' Hb' Hev'.
    destruct (read_varint buf) as [[ty n]|] eqn:E.
    + destruct (read_varint_beginning _ _ _ _ _ Hk' E) as [E' Hn]. rewrite E1, Et in E'. injection E' as <- <-.
      change (negb (WT_BIDI_FRAME_TYPE =? WT_BIDI_FRAME_TYPE)) with false. cbv beta iota.
      assert (Er : resolve_session id true buf 2 fin = resolve_session (C := C) id bidi buf 2 fin)
        by (by rewrite Hb).
      rewrite Er. by eapply resolve_session_spec.
    + eapply keep_waiting; [done..|]. intros ->. rewrite app_nil_r in Hk'. by rewrite Hk', E1 in E.
  - assert (Et : signal_type bidi = WT_UNI_STREAM_TYPE) by (unfold signal_type; by rewrite Hb).
    replace (pending bidi) with PendingUni by (unfold pending; by rewrite Hb). cbv beta iota.
    apply Hext; [|done]. intros buf st' w' Hk' Hst' Hr' Hc' Hb' Hev'.
    destruct (read_varint buf) as [[ty n]|] eqn:E.
    + destruct (read_varint_beginning _ _ _ _ _ Hk' E) as [E' Hn]. rewrite E1, Et in E'. injection E' as <- <-.
      apply wlp_bind, wlp_gets.
      change (WT_UNI_STREAM_TYPE =? H3_CONTROL_STREAM_TYPE) with false.
      change ((WT_UNI_STREAM_TYPE =? QPACK_ENCODER_STREAM_TYPE) || (WT_UNI_STREAM_TYPE =? QPACK_DECODER_STREAM_TYPE)) with false.
      change (WT_UNI_STREAM_TYPE =? WT_UNI_STREAM_TYPE) with true. cbv beta iota.
      assert (Er : resolve_session id false buf 2 fin = resolve_session (C := C) id bidi buf 2 fin)
        by (by rewrite Hb).
      rewrite Er. by eapply resolve_session_spec.
    + eapply keep_waiting; [done..|]. intros ->. rewrite app_nil_r in Hk'. by rewrite Hk', E1 in E.
Qed.

Lemma process_data chunk fin k st pieces (w0 w : World C) :
  ws_streams (w_ses w) !! id = Some st → st_role st = WtData bidi → ws_closed (w_ses w) = false →
  Forall (fun p => p ≠ []) pieces → concat pieces ++ chunk ++ k = payload →
  w_ev w = w_ev w0 ++ EvIncomingStream id bidi :: map (EvStreamData id) pieces →
  (fin = true → k = []) →
  wlp (process_recv id chunk fin) (fun _ w' => read_post fin k w0 w') w.
Proof.
  intros Hst Hr Hc Hne Hp Hev Hfin. unfold process_recv. wl_steps. rewrite Hst.
  cbn [fmap option_fmap option_map]. rewrite Hr.
  apply wlp_bind. eapply wlp_mono; [by apply (account_receive_outcome _ st)|]. cbv beta.
  intros [] w1; cbn [negb].
  - intros (Hc1 & Hev1 & st1 & Hst1 & Hr1).
    eapply wlp_mono; [eapply (deliver_spec pieces k chunk fin st1 w0); try done; congruence|].
    cbv beta. intros _ w' H. by right.
  - intros [Hc1 [m Hm]]. apply wlp_ret. left. eapply broken_off_after; [exact Hev| |done|exact Hm].
    change (delivered id (EvIncomingStream id bidi :: map (EvStreamData id) pieces)) with
      (delivered id (map (EvStreamData id) pieces)).
    rewrite delivered_pieces, <- Hp. by eexists.
Qed.

Lemma process_read chunk fin k (w0 w : World C) :
  ws_closed (w_ses w) = false → phase w0 w (chunk ++ k) → (fin = true → k = []) →
  wlp (process_recv id chunk fin) (fun _ w' => read_post fin k w0 w') w.
Proof.
  intros Hc H Hfin. destruct H as [st H1 H2 H3 H4 H5|st pieces H1 H2 H3 H4 H5].
  - by eapply process_pending.
  - by eapply process_data.
Qed.

Lemma recv_all_spec chunks last (w0 w : World C) :
  ws_closed (w_ses w) = false → phase w0 w (concat chunks ++ last) →
  wlp (recv_all chunks last) (fun _ w' => broken_off w0 w' ∨ ws_closed (w_ses w') = false ∧ finished w0 w') w.
Proof.
  revert w. induction chunks as [|c cs IH]; intros w Hc H; cbn [recv_all]; wl_steps; rewrite Hc; cbv beta iota.
  - eapply wlp_mono; [apply (process_read last true [] w0); [done|by rewrite app_nil_r|done]|]. done.
  - apply wlp_bind. eapply wlp_mono; [apply (process_read c false (concat cs ++ last) w0)|]; [done| |done|].
    { by rewrite app_assoc. }
    cbv beta. intros _ w1 [H1|[Hc1 H1]]; [|by apply IH].
    assert (Hc1 : ws_closed (w_ses w1) = true) by apply H1.
    destruct cs; cbn [recv_all]; wl_steps; rewrite Hc1; cbv beta iota; apply wlp_ret; by left.
Qed.
End reassembly.

Section delivery.
Context {C : Type} {quic : Quic C} {quic_laws : QuicLaws C}.
Context {alloc : Allocator} {alloc_laws : AllocatorLaws} {qpack : Qpack} {sfv : Sfv}.
Context {hist : History} (limits : N → N) (limits_usize : ∀ i, limits i < U64).

Lemma recv_all_good id chunks last L (w : World C) :
  inv limits L w → wp (recv_all id chunks last) (fun _ w' => inv limits L w') w.
Proof.
  revert w. induction chunks as [|c cs IH]; intros w Hw; cbn [recv_all];
    (apply wp_bind, wp_gets; destruct (ws_closed (w_ses w)) eqn:Hc; [by apply wp_ret|]).
  - eapply wp_mono; [by apply (process_recv_good limits limits_usize free w L w), good_start|].
    by intros _ w' [? _].
  - apply wp_bind. eapply wp_mono;
      [by apply (process_recv_good limits limits_usize free w L w), good_start|].
    cbv beta. intros _ w' [Hw' _]. by apply IH.
Qed.

Lemma peer_stream_wp (id : N) (bidi : bool) (payload : bytes)
    (chunks : list bytes) (last : bytes) st L (w : World C) :
  inv limits L w → ws_closed (w_ses w) = false →
  ws_streams (w_ses w) !! id = Some st → st_role st = pending bidi →
  pb_data (st_class_buf st) = [] →
  concat chunks ++ last = signal bidi ++ payload →
  wp (recv_all id chunks last) (fun _ w' =>
    (ws_closed (w_ses w') = false ∧ ∃ pieces,
      Forall (fun p => p ≠ []) pieces ∧ concat pieces = payload ∧
      w_ev w' = w_ev w ++
        EvIncomingStream id bidi :: map (EvStreamData id) pieces ++ [EvStreamFinished id]) ∨
    (ws_closed (w_ses w') = true ∧ ∃ evs,
      w_ev w' = w_ev w ++ evs ∧ delivered id evs `prefix_of` payload)) w.
Proof.
  intros Hw Hc Hst Hr Hb E. eapply wp_mono.
  - eapply wp_of_wlp; [by apply (recv_all_good id chunks last L)|].
    apply (recv_all_spec id bidi payload chunks last w w); [done|].
    eapply phase_pending; [done|done|by rewrite Hb|done|]. rewrite E. by destruct bidi.
  - cbv beta. intros _ w' [_ [H|[Hc' H]]]; [by right|left]. by split.
Qed.

(** C6: a peer's data stream is delivered whole and in order however the
    network cuts it, its signal included: an open session announces the
    stream once, delivers non-empty pieces that make up exactly the payload,
    and reports the end once.  The reads always return; if the session is
    closed on the way (its memory or flow-control limits exceeded), what was
    delivered is a beginning of the payload. *)
Theorem peer_stream_delivered (id : N) (bidi : bool) (payload : bytes)
    (chunks : list bytes) (last : bytes) st L (w : World C) :
  inv limits L w → ws_closed (w_ses w) = false →
  ws_streams (w_ses w) !! id = Some st → st_role st = pending bidi →
  pb_data (st_class_buf st) = [] →
  concat chunks ++ last = signal bidi ++ payload →
  wp (recv_all id chunks last) (fun _ w' =>
    (ws_closed (w_ses w') = false ∧ ∃ pieces,
      Forall (fun p => p ≠ []) pieces ∧ concat pieces = payload ∧
      w_ev w' = w_ev w ++
        EvIncomingStream id bidi :: map (EvStreamData id) pieces ++ [EvStreamFinished id]) ∨
    (ws_closed (w_ses w') = true ∧ ∃ evs,
      w_ev w' = w_ev w ++ evs ∧ delivered id evs `prefix_of` payload)) w.
Proof. by apply peer_stream_wp. Qed.
End delivery.
