(* ===== verification/Session.v ===== *)
(** * Sessions as a whole ([crates/native/src/session.rs])

    Every call the event loops make on a session is an operation; between two
    operations the network may change the connection.  The theorems hold of
    every run of operations from a fresh client or server session. *)

From S2P Require Import Prelude H3 ParserMemory FrameParser Headers Net Quic SessionState.
From S2P Require Import SessionRecv SessionConnect SessionStreams SessionSend SessionInv.
From S2P Require Import SessionRecvInv SessionSendInv SessionFlow SessionWire SessionCapsule.
From S2P Require Import SessionReassembly.

(** ** Runs *)

Inductive SessionOp (C : Type) :=
  | OpEstablished
  | OpReadable (id : N) (backpressured : bool)
  | OpDatagrams
  | OpSendDatagram (data : bytes) (request_id : N)
  | OpOpenStream (bidi : bool) (request_id : N)
  | OpWrite (id : N) (data : bytes) (request_id : N)
  | OpFin (id : N)
  | OpReset (id code : N)
  | OpStopSending (id code : N)
  | OpSetPaused (id : N) (paused : bool)
  | OpClose (code : N) (reason : bytes)
  | OpDrain
  | OpFlush (order : list N → list N)
  | OpMarkClosed (code : N) (reason : bytes) (remote : bool)
  | OpGetStats (request_id : N)
  | OpExportKeyingMaterial (request_id : N) (label context : bytes) (length : N)
  (** The event loop reports a fatal error of its own. *)
  | OpError (message : rstring)
  (** Packets, acknowledgements and timers: any other connection state. *)
  | OpNetwork (c : C).
Arguments OpEstablished {C}.
Arguments OpReadable {C}.
Arguments OpDatagrams {C}.
Arguments OpSendDatagram {C}.
Arguments OpOpenStream {C}.
Arguments OpWrite {C}.
Arguments OpFin {C}.
Arguments OpReset {C}.
Arguments OpStopSending {C}.
Arguments OpSetPaused {C}.
Arguments OpClose {C}.
Arguments OpDrain {C}.
Arguments OpFlush {C}.
Arguments OpMarkClosed {C}.
Arguments OpGetStats {C}.
Arguments OpExportKeyingMaterial {C}.
Arguments OpError {C}.
Arguments OpNetwork {C}.

Section runs.
Context {C : Type} `{!Quic C} `{!Allocator} `{!Qpack} `{!Sfv}.

Definition run_op (o : SessionOp C) : M (World C) () :=
  match o with
  | OpEstablished => on_established
  | OpReadable id backpressured => on_readable id backpressured
  | OpDatagrams => on_datagrams
  | OpSendDatagram data request_id => send_datagram data request_id
  | OpOpenStream bidi request_id => open_stream bidi request_id
  | OpWrite id data request_id => stream_write id data request_id
  | OpFin id => stream_fin id
  | OpReset id code => stream_reset id code
  | OpStopSending id code => stream_stop_sending id code
  | OpSetPaused id paused => set_paused id paused
  | OpClose code reason => close code reason
  | OpDrain => send_drain
  | OpFlush order => flush order
  | OpMarkClosed code reason remote => mark_closed code reason remote
  | OpGetStats request_id =>
      e ← gets (fun w => build_stats (w_conn w) request_id);
      push_ev e
  | OpExportKeyingMaterial request_id label context length =>
      e ← conn (build_keying_material request_id label context length);
      push_ev e
  | OpError message => push_ev (EvError message)
  | OpNetwork c => modify (fun w => w <| w_conn := c |>)
  end.

Fixpoint run_ops (ops : list (SessionOp C)) : M (World C) () :=
  match ops with
  | [] => mret ()
  | o :: ops => _ ← run_op o; run_ops ops
  end.
End runs.

(** A fresh session: built by one of the two constructors. *)
Inductive constructed : WtSession → Usage → Usage → Prop :=
  | constructed_client authority path origin extra protocols u :
      constructed (new_client authority path origin extra protocols u).1 u
                  (new_client authority path origin extra protocols u).2
  | constructed_server remote supported allowed response parent u :
      constructed (new_server remote supported allowed response parent u).1 u
                  (new_server remote supported allowed response parent u).2.

(** What the automaton says of a trace it admits. *)
Definition is_closed_ev (e : Ev) : bool := match e with EvClosed _ _ _ => true | _ => false end.
Definition is_draining_ev (e : Ev) : bool := match e with EvDraining => true | _ => false end.
Definition is_ready_ev (e : Ev) : bool :=
  match e with EvReady _ _ | EvServerReady _ _ _ _ _ _ _ _ => true | _ => false end.
Definition from_peer_streams (e : Ev) : bool :=
  match e with
  | EvIncomingStream _ _ | EvStreamData _ _ | EvStreamFinished _ | EvStreamReset _ _ => true
  | _ => false
  end.

Lemma lifecycle_split evs1 evs2 l :
  lifecycle (evs1 ++ evs2) = Some l →
  ∃ l1, lifecycle evs1 = Some l1 ∧ foldl (fun o e => l ← o; life_step l e) (Some l1) evs2 = Some l.
Proof.
  unfold lifecycle. rewrite foldl_app. intros H. destruct (foldl _ _ evs1) as [l1|] eqn:E; [eauto|].
  exfalso. clear E. induction evs2; cbn in H; [done|auto].
Qed.

Lemma life_step_flags l e l' :
  life_step l e = Some l' →
  l_closed l' = l_closed l || is_closed_ev e ∧ (is_closed_ev e = true → l_closed l = false) ∧
  l_drained l' = l_drained l || is_draining_ev e ∧ (is_draining_ev e = true → l_drained l = false) ∧
  l_ready l' = l_ready l || is_ready_ev e ∧ (is_ready_ev e = true → l_ready l = false) ∧
  (from_peer_streams e || is_draining_ev e || is_ready_ev e = true → l_closed l = false).
Proof.
  destruct l as [[] [] []], e; cbn; intros [= <-]; cbn; repeat split; done.
Qed.

(** The number of events of each lifecycle kind is the flag. *)
Lemma lifecycle_counts evs l :
  lifecycle evs = Some l →
  countb is_closed_ev evs = Nat.b2n (l_closed l) ∧
  countb is_draining_ev evs = Nat.b2n (l_drained l) ∧
  countb is_ready_ev evs = Nat.b2n (l_ready l).
Proof.
  revert l. induction evs as [|e evs IH] using rev_ind; intros l.
  { by intros [= <-]. }
  intros (l1 & H1 & H2)%lifecycle_split. cbn in H2. apply IH in H1 as (C1 & C2 & C3).
  apply life_step_flags in H2 as (E1 & N1 & E2 & N2 & E3 & N3 & _).
  rewrite !countb_app, C1, C2, C3, E1, E2, E3. unfold countb. cbn [List.filter].
  destruct (is_closed_ev e), (is_draining_ev e), (is_ready_ev e), (l_closed l1), (l_drained l1),
    (l_ready l1); cbn; try (specialize (N1 eq_refl)); try (specialize (N2 eq_refl));
    try (specialize (N3 eq_refl)); repeat split; congruence.
Qed.

(** Nothing of the peer's streams, no [Ready] and no [Draining] follows
    [Closed]. *)
Lemma lifecycle_quiet evs1 e evs2 l :
  lifecycle (evs1 ++ e :: evs2) = Some l → is_closed_ev e = true →
  Forall (fun e => from_peer_streams e || is_draining_ev e || is_ready_ev e = false) evs2.
Proof.
  intros (l1 & _ & H)%lifecycle_split He. cbn in H.
  destruct (life_step l1 e) as [l2|] eqn:E.
  - apply life_step_flags in E as (Hc & _). rewrite He, orb_true_r in Hc. clear He l1.
    revert l2 H Hc. induction evs2 as [|e2 evs2 IH]; intros l2 H Hc; [constructor|]. cbn in H.
    destruct (life_step l2 e2) as [l3|] eqn:E2.
    + apply life_step_flags in E2 as (Hc3 & _ & _ & _ & _ & _ & Hq). rewrite Hc in Hc3, Hq.
      constructor; [|by apply (IH l3)].
      apply not_true_is_false. intros Hx. by specialize (Hq Hx).
    + exfalso. clear -H. induction evs2; cbn in H; [done|auto].
  - exfalso. clear -H. induction evs2; cbn in H; [done|auto].
Qed.

Section session.
Context {C : Type} {quic : Quic C} {quic_laws : QuicLaws C}.
Context {alloc : Allocator} {alloc_laws : AllocatorLaws}.
Context {qpack : Qpack} {sfv : Sfv} {hist : History}.
Context (limits : N → N) (limits_usize : ∀ i, limits i < U64).

Abbreviation good := (good limits).

Lemma op_network_inv L (w : World C) c : inv limits L w → inv limits L (w <| w_conn := c |>).
Proof. by intros []. Qed.

Lemma run_op_inv o L w : inv limits L w → wp (run_op o) (fun _ w' => inv limits L w') w.
Proof.
  intros Hinv. pose proof (good_start limits free L w Hinv) as Hg.
  assert (Hpost : ∀ (m : M (World C) ()), wp m (fun _ w' => good free w L w') w →
    wp m (fun _ w' => inv limits L w') w).
  { intros m Hm. eapply wp_mono; [done|]. by intros _ w' [? _]. }
  destruct o; cbn [run_op].
  - by apply Hpost, on_established_good.
  - by apply Hpost, on_readable_good.
  - by apply Hpost, on_datagrams_good.
  - by apply Hpost, send_datagram_good.
  - by apply Hpost, open_stream_good.
  - by apply Hpost, stream_write_good.
  - by apply Hpost, stream_good.
  - by apply Hpost, stream_reset_good.
  - by apply Hpost, stream_stop_sending_good.
  - by apply Hpost, stream_good.
  - by apply Hpost, close_good.
  - by apply Hpost, send_drain_good.
  - by apply Hpost, flush_good.
  - apply Hpost. call (mark_closed_good limits limits_usize); [exact Hg|tauto].
  - apply Hpost. ses_steps. apply good_push; [|done]. apply always_admitted_step.
    unfold build_stats. by destruct (path_stats _).
  - apply wp_bind, wp_conn. apply wp_modify.
    match goal with |- inv limits L ((?w' <| w_conn := ?c |>) <| w_ev ::= fun l => l ++ [?e] |>) =>
      set (c1 := c); set (e1 := e) end.
    apply (good_inv limits free (w <| w_conn := c1 |>)), good_push.
    + apply always_admitted_step. unfold e1, build_keying_material. by repeat case_match.
    + by apply good_start, op_network_inv.
  - by apply Hpost, event_good.
  - apply wp_modify. by apply op_network_inv.
Qed.

Lemma run_ops_inv ops L w : inv limits L w → wp (run_ops ops) (fun _ w' => inv limits L w') w.
Proof.
  revert w. induction ops as [|o ops IH]; intros w Hinv; cbn [run_ops]; [by apply wp_ret|].
  apply wp_bind. eapply wp_mono; [by apply run_op_inv|]. cbv beta. intros _ w' Hinv'. by apply IH.
Qed.

End session.

(** ** Fresh sessions *)

(** Nothing has been reported of a fresh session. *)
Definition no_history : History := [].

Section fresh.
Context {C : Type} {quic : Quic C} {quic_laws : QuicLaws C}.
Context {alloc : Allocator} {alloc_laws : AllocatorLaws}.
Context {qpack : Qpack} {sfv : Sfv}.
Context (limits : N → N) (limits_usize : ∀ i, limits i < U64).
#[local] Existing Instance no_history.

Lemma blank_session_inv memory (f : WtSession → WtSession) (c : C) u L :
  (ws_is_server (f (blank_session memory)) = true →
   ws_next_bidi (f (blank_session memory)) = SERVER_FIRST_WT_BIDI_ID ∧
   ws_next_uni (f (blank_session memory)) = SERVER_FIRST_WT_UNI_ID) →
  (let s := f (blank_session memory) in
   (ws_parser_memory s, ws_streams s, ws_capsule_buf s, life_of s, ws_connect_pending s) =
   (memory, ∅, new_buffer memory, mkLife false false false, false)) →
  wf_memory limits memory → within limits u → accounted u L →
  inv limits L (mkWorld (f (blank_session memory)) c u []).
Proof.
  intros Hs E Hm Hu Ha. cbv zeta in E. injection E as E1 E2 E3 E4 E5 E6 E7.
  constructor; cbn; unfold life_of, ses_bufs, roles_ok; rewrite ?E1, ?E2, ?E3, ?E4, ?E5, ?E6; try done.
  - by apply new_buffer_accounted.
  - intros Hsrv. destruct (Hs Hsrv) as [H1 H2].
    constructor; rewrite ?H1, ?H2, ?E2, ?E6, ?E7; done.
Qed.

(** Allocating a counter changes no node's usage. *)
Lemma fresh_usage (u : Usage) i : i ∉ dom u → usage_equiv (<[i := 0]> u) u.
Proof.
  intros Hi%not_elem_of_dom j. rewrite usage_insert. case_decide; [|done]. subst. unfold usage. by rewrite Hi.
Qed.

Lemma constructed_inv s u u' (c : C) L :
  constructed s u u' → wf_memory limits (ws_parser_memory s) →
  within limits u → accounted u L → inv limits L (mkWorld s c u' []).
Proof.
  intros Hs Hm Hu Ha.
  destruct Hs as [authority path origin extra protocols u|remote supported allowed response parent u].
  - apply (blank_session_inv _ (fun s => s <| ws_authority := authority |> <| ws_path := path |>
      <| ws_origin := origin |> <| ws_extra_headers := extra |> <| ws_protocols := protocols |>) c);
      [done|done|exact Hm|cbn; by rewrite (fresh_usage u _ (is_fresh (dom u)))..].
  - assert (Hf : fresh (dom u ∪ ids parent) ∉ dom u)
      by apply (not_elem_of_union _ _ (ids parent)), is_fresh.
    apply (blank_session_inv _ (fun s => s <| ws_is_server := true |>
      <| ws_supported_protocols := supported |> <| ws_allowed_origins := allowed |>
      <| ws_response_headers := response |> <| ws_next_bidi := SERVER_FIRST_WT_BIDI_ID |>
      <| ws_next_uni := SERVER_FIRST_WT_UNI_ID |> <| ws_remote_addr := Some remote |>) c);
      [done|done|exact Hm|cbn; by rewrite (fresh_usage u _ Hf)..].
Qed.

(** C1: memory safety and termination of every run: from a fresh session, any
    sequence of calls and network events returns (no index or slice out of
    range, no [unwrap] of [None], every loop ends), after which each node of
    the memory hierarchy counts exactly the buffers of this session and of the
    others [L], within its limit; and a session that has closed, however it
    did, holds no parser memory at all. *)
Theorem runs_return_and_conserve_memory (ops : list (SessionOp C)) s u u' c L :
  constructed s u u' → wf_memory limits (ws_parser_memory s) →
  within limits u → accounted u L →
  wp (run_ops ops) (fun _ w =>
    within limits (w_mem w) ∧
    accounted (w_mem w) (ses_bufs (w_ses w) ++ L) ∧
    (ws_closed (w_ses w) = true → accounted (w_mem w) L)) (mkWorld s c u' []).
Proof.
  intros Hs Hm Hu Ha. eapply wp_mono; [apply (run_ops_inv limits limits_usize ops L); by eapply constructed_inv|].
  cbv beta. intros _ w Hinv. destruct Hinv as [i1 i2 i3 i4 i5 i6 i7 i8]. split; [done|]. split; [done|].
  intros Hc. rewrite Hc in i4, i5.
  assert (Hz : Forall (fun b => pb_capacity b = 0) (ses_bufs (w_ses w))).
  { constructor; [by apply i4|]. unfold streams_bufs. apply Forall_concat, Forall_map, Forall_forall.
    intros [id st] Hin%elem_of_map_to_list. destruct (i5 id st Hin) as [H1 H2 _].
    constructor; [by apply H1|]. constructor; [by apply H2|done]. }
  intros i. rewrite i3. clear -Hz. induction Hz as [|b l Hb Hl IH]; [done|].
  cbn [app]. rewrite load_cons, IH. unfold contribution. rewrite Hb. by case_decide.
Qed.

(** C18: what the application sees follows the lifecycle: in every run, the
    events are exactly admitted by the lifecycle automaton and its state is
    the session's flags.  So a session becomes ready at most once, reports
    [Draining] at most once, and [Closed] exactly once if it has closed and
    never otherwise; our streams open only between ready and closed, and
    nothing of the peer's streams is delivered after [Closed]. *)
Theorem events_follow_lifecycle (ops : list (SessionOp C)) s u u' c L :
  constructed s u u' → wf_memory limits (ws_parser_memory s) →
  within limits u → accounted u L →
  wp (run_ops ops) (fun _ w =>
    lifecycle (w_ev w) = Some (life_of (w_ses w)) ∧
    countb is_closed_ev (w_ev w) = Nat.b2n (ws_closed (w_ses w)) ∧
    countb is_draining_ev (w_ev w) = Nat.b2n (ws_drain_emitted (w_ses w)) ∧
    countb is_ready_ev (w_ev w) = Nat.b2n (ws_ready (w_ses w)) ∧
    (∀ before e after, w_ev w = before ++ e :: after → is_closed_ev e = true →
      Forall (fun e => from_peer_streams e || is_draining_ev e || is_ready_ev e = false) after))
    (mkWorld s c u' []).
Proof.
  intros Hs Hm Hu Ha. eapply wp_mono; [apply (run_ops_inv limits limits_usize ops L); by eapply constructed_inv|].
  cbv beta. intros _ w []. change (history ++ w_ev w) with (w_ev w) in inv_life. split; [done|].
  destruct (lifecycle_counts _ _ inv_life) as (? & ? & ?). do 3 (split; [done|]).
  intros before e after E He. rewrite E in inv_life. by eapply lifecycle_quiet.
Qed.
End fresh.

(** ** A concrete server session

    One client connects, opens a stream with data, and closes. *)

Module Example.
#[local] Existing Instance exact_allocator.
#[local] Existing Instance literal_qpack.
#[local] Existing Instance rfc9651.
#[local] Existing Instance no_history.

Definition limits (i : N) : N := if i =? 0 then 2 ^ 26 else MAX_SESSION_PARSER_MEMORY.
Lemma limits_usize i : limits i < U64.
Proof. unfold limits. by destruct (i =? 0). Qed.

Definition server_memory : ParserMemory := PMRoot 0 (2 ^ 26).
Definition counters : Usage := {[0 := 0]}.
Definition remote : SocketAddr := mkSocketAddr (V4 x7f x00 x00 x01) 4433.
Definition server : WtSession * Usage :=
  new_server remote [s2b "moq-00"] None [] server_memory counters.

(** What the client's packets put in the receive buffers: its control stream,
    its request, and a WebTransport stream with three bytes. *)
Definition request : list Header :=
  connect_headers (s2b "example.org") (s2b "/chat") None [] [s2b "moq-00"].
Definition request_frame : bytes :=
  match encode_headers_frame request with Ok f => f | Err _ => [] end.
Definition inbox : gmap N (bytes * bool) :=
  {[ 2 := (control_stream_prefix, false);
     0 := (request_frame, false);
     4 := (put_varint WT_BIDI_FRAME_TYPE ++ put_varint CONNECT_ID ++ s2b "abc", true) ]}.
Definition established : ToyConn := toy_new <| toy_inbox := inbox |>.

Definition ops : list (SessionOp ToyConn) :=
  [OpEstablished; OpNetwork established; OpReadable 2 false; OpReadable 0 false;
   OpFlush id; OpReadable 4 false; OpOpenStream true 7; OpWrite 1 (s2b "hi") 8;
   OpClose 5 (s2b "bye"); OpFlush id; OpFlush id; OpMarkClosed 5 (s2b "bye") false].

Definition final : option (() * World ToyConn) :=
  run_ops ops (mkWorld server.1 toy_new server.2 []).

Lemma server_constructed : constructed server.1 counters server.2.
Proof. exact (constructed_server remote [s2b "moq-00"] None [] server_memory counters). Qed.

Lemma server_memory_wf : wf_memory limits (ws_parser_memory server.1).
Proof.
  replace (ws_parser_memory server.1) with
    (PMChild 1 MAX_SESSION_PARSER_MEMORY server_memory) by (vm_compute; reflexivity).
  repeat split. cbn. set_solver.
Qed.

Lemma counters_within : within limits counters.
Proof. intros i. unfold usage, counters. rewrite lookup_singleton. case_decide; cbn; lia. Qed.

Lemma counters_accounted : accounted counters [].
Proof. intros i. unfold usage, counters. rewrite lookup_singleton. by case_decide. Qed.

Lemma runs_return_and_conserve_memory_witness :
  ∃ w, run_ops ops (mkWorld server.1 toy_new server.2 []) = Some ((), w) ∧
    ws_closed (w_ses w) = true ∧ accounted (w_mem w) [].
Proof.
  pose proof (runs_return_and_conserve_memory limits limits_usize ops server.1 counters server.2
    toy_new [] server_constructed server_memory_wf counters_within counters_accounted) as H.
  apply wp_elim in H as ([] & w & E & _ & _ & H). exists w. split; [exact E|].
  assert (Hc : ws_closed (w_ses w) = true).
  { pose proof (f_equal (fun o => match o with Some (_, w) => ws_closed (w_ses w) | None => false end) E)
      as Hc. cbv beta iota in Hc. rewrite <- Hc. vm_compute. reflexivity. }
  split; [exact Hc|exact (H Hc)].
Defined.

Lemma events_follow_lifecycle_witness :
  ∃ w, run_ops ops (mkWorld server.1 toy_new server.2 []) = Some ((), w) ∧
    lifecycle (w_ev w) = Some (mkLife true false true) ∧ countb is_closed_ev (w_ev w) = 1%nat.
Proof.
  pose proof (events_follow_lifecycle limits limits_usize ops server.1 counters server.2
    toy_new [] server_constructed server_memory_wf counters_within counters_accounted) as H.
  apply wp_elim in H as ([] & w & E & H & H1 & _). exists w. split; [exact E|].
  assert (Hl : life_of (w_ses w) = mkLife true false true).
  { pose proof (f_equal (fun o => match o with Some (_, w) => life_of (w_ses w)
      | None => mkLife false false false end) E) as Hc.
    cbv beta iota in Hc. rewrite <- Hc. vm_compute. reflexivity. }
  rewrite H, H1, Hl. split; [reflexivity|]. injection Hl as -> _ _. reflexivity.
Defined.

(** The session before it closes: two bytes are queued on stream 1. *)
Definition ops_open : list (SessionOp ToyConn) := take 8 ops.

(** A fresh server, as the peer of a closing session. *)
Definition fresh_world : World ToyConn := mkWorld server.1 toy_new server.2 [].
Lemma fresh_inv : inv limits [] fresh_world.
Proof.
  exact (constructed_inv limits server.1 counters server.2 toy_new [] server_constructed
    server_memory_wf counters_within counters_accounted).
Qed.

Definition capsules : list (N * bytes) :=
  [(WT_DRAIN_SESSION_CAPSULE, []); (WT_MAX_DATA_CAPSULE, put_varint 500);
   (WT_CLOSE_SESSION_CAPSULE, be32 7 ++ s2b "bye")].

Lemma scan_capsules_refines_witness :
  ∃ w', scan_all (map (fun b => [b]) (encode_frames capsules)) fresh_world = Some ((), w') ∧
    w_ev w' = [EvDraining; EvClosed 7 (s2b "bye") true] ∧ ws_fc_max_data_remote (w_ses w') = 500.
Proof.
  assert (Hok : Forall frame_ok capsules) by (repeat constructor; done).
  pose proof (scan_capsules_refines limits limits_usize (map (fun b => [b]) (encode_frames capsules))
    capsules [] fresh_world fresh_inv eq_refl Hok eq_refl) as H.
  apply wp_elim in H as ([] & w' & E & H). exists w'. split; [exact E|].
  destruct H as [[Hp He]|(cs & _ & _ & [_ He])].
  - rewrite He. split; [reflexivity|]. exact (f_equal pv_max_data Hp).
  - pose proof (f_equal (fun o => match o with Some (_, w) => (w_ev w, ws_fc_max_data_remote (w_ses w))
      | None => ([], 0) end) E) as Hc.
    cbv beta iota in Hc. match type of Hc with ?a = _ =>
      replace a with ([EvDraining; EvClosed 7 (s2b "bye") true], 500) in Hc by (vm_compute; reflexivity) end.
    injection Hc as <- <-. split; reflexivity.
Defined.

Lemma close_reaches_peer_witness :
  let us := mkWorld ((blank_session server_memory) <| ws_streams :=
    {[ CONNECT_ID := new_stream Connect server_memory ]} |>) toy_new counters [] in
  ∃ us' payload them', (_ ← close 5 (s2b "bye"); queue_close_capsule) us = Some ((), us') ∧
    scan_all (map (fun b => [b]) payload) fresh_world = Some ((), them') ∧ ws_closed (w_ses them') = true ∧
    w_ev them' = [EvClosed 5 (s2b "bye") true].
Proof.
  cbv zeta. match goal with |- ∃ us' payload them', ?m ?u = _ ∧ _ => set (us := u) end.
  pose proof (close_reaches_peer limits limits_usize 5 (s2b "bye") us fresh_world
    (new_stream Connect server_memory) [] eq_refl eq_refl eq_refl fresh_inv eq_refl eq_refl) as (cut & Hcut & H).
  destruct Hcut as (_ & _ & Hcut & _). rewrite Hcut in H by (apply Nat.leb_le; reflexivity). clear Hcut.
  apply wp_elim in H as ([] & us' & E & payload & st' & _ & _ & _ & H).
  assert (Hcat : concat (map (fun b => [b]) payload) = payload) by (clear; induction payload as [|b l IH]; [|cbn; f_equal]; done).
  specialize (H (map (fun b => [b]) payload) Hcat).
  apply wp_elim in H as ([] & them' & E2 & Hc & _ & Hroom). exists us', payload, them'.
  split; [exact E|]. split; [exact E2|]. split; [exact Hc|]. apply (Hroom 2048).
  - intros m Hm. exists m. split; [|exact Hm]. unfold try_reserve_exact, exact_allocator.
    rewrite (proj2 (N.ltb_lt m U64)); [reflexivity|]. eapply N.le_lt_trans; [exact Hm|reflexivity].
  - vm_compute. repeat split; discriminate.
Defined.

(** A peer's stream of which nothing has been read, cut into single bytes. *)
Definition ops_pending : list (SessionOp ToyConn) :=
  [OpNetwork (toy_new <| toy_inbox := {[ 4 := ([], false) ]} |>); OpReadable 4 false].

Lemma peer_stream_delivered_witness :
  ∃ w w', run_ops ops_pending fresh_world = Some ((), w) ∧
    recv_all 4 (map (fun b => [b]) (signal true ++ s2b "abc")) [] w = Some ((), w') ∧
    ws_closed (w_ses w') = false ∧
    ∃ pieces, w_ev w' = EvIncomingStream 4 true :: map (EvStreamData 4) pieces ++ [EvStreamFinished 4] ∧
      concat pieces = s2b "abc".
Proof.
  pose proof (run_ops_inv limits limits_usize ops_pending [] fresh_world fresh_inv) as H.
  apply wp_elim in H as ([] & w & E & Hw). exists w.
  pose proof (f_equal (fun o => match o with
    | Some (_, w) => (ws_closed (w_ses w), w_ev w, ws_streams (w_ses w) !! 4)
    | None => (true, [], None) end) E) as Hc. cbv beta iota in Hc.
  match type of Hc with ?a = _ =>
    replace a with (false, @nil Ev, Some (new_stream PendingBidi (ws_parser_memory server.1))) in Hc
      by (vm_compute; reflexivity) end.
  injection Hc as Hclosed Hev Hst.
  pose proof (peer_stream_delivered limits limits_usize 4 true (s2b "abc")
    (map (fun b => [b]) (signal true ++ s2b "abc")) [] (new_stream PendingBidi (ws_parser_memory server.1))
    [] w Hw (eq_sym Hclosed) (eq_sym Hst) eq_refl eq_refl eq_refl) as H.
  apply wp_elim in H as ([] & w' & E' & H). exists w'. split; [exact E|]. split; [exact E'|].
  assert (Hopen : ws_closed (w_ses w') = false).
  { assert (E2 : (_ ← run_ops ops_pending; recv_all 4 (map (fun b => [b]) (signal true ++ s2b "abc")) [])
      fresh_world = Some ((), w')) by (unfold mbind, M_bind; rewrite E; exact E').
    pose proof (f_equal (fun o => match o with Some (_, w) => ws_closed (w_ses w) | None => true end) E2) as Hc.
    cbv beta iota in Hc. rewrite <- Hc. vm_compute. reflexivity. }
  split; [exact Hopen|]. destruct H as [(_ & pieces & _ & Hp & He)|[Hbad _]]; [|congruence].
  exists pieces. split; [|exact Hp]. rewrite He, <- Hev. reflexivity.
Defined.
End Example.
