(* ===== verification/SessionTypes.v ===== *)
(** * The typing of the session's streams ([crates/native/src/session.rs])

    The low two bits of a QUIC stream id say who opened the stream and whether
    it has two directions.  In every run the role of each stream in the table
    fits the bits of its id, and the events about streams are typed: the
    application is told of a stream before it is told anything that happens on
    it, and the id it is told has the bits of that kind of stream. *)

From S2P Require Import Prelude H3 ParserMemory FrameParser Headers Net Quic SessionState.
From S2P Require Import SessionRecv SessionConnect SessionStreams SessionSend SessionFrame SessionInv.
From S2P Require Import SessionSendInv Session.

(** ** Types of streams *)

Definition stream_bits (server_initiated bidi : bool) : N :=
  (if bidi then 0 else 2) + (if server_initiated then 1 else 0).
Definition has_bits (id : N) (server_initiated bidi : bool) : bool :=
  N.land id 0x3 =? stream_bits server_initiated bidi.

(** The roles a stream may have at an endpoint, by its id. *)
Definition role_fits (srv : bool) (id : N) (role : Role) : bool :=
  match role with
  | LocalControlPlane => has_bits id srv false
  | Connect => id =? CONNECT_ID
  | PeerControl | PeerQpack _ | PendingUni => has_bits id (negb srv) false
  | PendingBidi => has_bits id (negb srv) true && negb (id =? CONNECT_ID)
  | WtData bidi => has_bits id srv bidi || has_bits id (negb srv) bidi
  | Ignored => true
  end.

Definition announces (id : N) (e : Ev) : bool :=
  match e with
  | EvIncomingStream id' _ | EvStreamOpened _ id' => id =? id'
  | _ => false
  end.
Definition announced (evs : list Ev) (id : N) : Prop := existsb (announces id) evs = true.

(** An event, after the events [before] it. *)
Definition ev_typed (srv : bool) (before : list Ev) (e : Ev) : Prop :=
  match e with
  | EvIncomingStream id bidi => has_bits id (negb srv) bidi = true
  | EvStreamOpened _ id => has_bits id srv true || has_bits id srv false = true
  | EvStreamData id _ | EvStreamFinished id | EvStreamReset id _ => announced before id
  | _ => True
  end.
Definition events_typed (srv : bool) (evs : list Ev) : Prop :=
  ∀ before e after, evs = before ++ e :: after → ev_typed srv before e.

(** Events that are typed wherever they occur. *)
Definition untyped_ev (e : Ev) : bool :=
  match e with
  | EvIncomingStream _ _ | EvStreamOpened _ _ | EvStreamData _ _ | EvStreamFinished _
  | EvStreamReset _ _ => false
  | _ => true
  end.

Lemma events_typed_nil srv : events_typed srv [].
Proof. by intros [] ??. Qed.
Lemma events_typed_snoc srv evs e :
  events_typed srv evs → ev_typed srv evs e → events_typed srv (evs ++ [e]).
Proof.
  intros H He before e' after E.
  destruct (decide (after = [])) as [->|Hne].
  - apply app_inj_tail in E as [<- <-]. done.
  - destruct (exists_last Hne) as (after' & z & ->).
    rewrite app_comm_cons, app_assoc in E. apply app_inj_tail in E as [-> _]. by eapply H.
Qed.

Lemma announced_app evs more id : announced evs id → announced (evs ++ more) id.
Proof. unfold announced. rewrite existsb_app. by intros ->. Qed.
Lemma announced_last evs e id : announces id e = true → announced (evs ++ [e]) id.
Proof. unfold announced. rewrite existsb_app. cbn. intros ->. by rewrite orb_true_r. Qed.
Lemma announced_prefix evs evs' id : evs `prefix_of` evs' → announced evs id → announced evs' id.
Proof. intros [more ->]. apply announced_app. Qed.

Lemma has_bits_mod id s b : has_bits id s b = (id mod 4 =? stream_bits s b).
Proof. unfold has_bits. change 3 with (N.ones 2). by rewrite N.land_ones. Qed.
Lemma has_bits_next id s b : has_bits (add64 id 4) s b = has_bits id s b.
Proof. by rewrite !has_bits_mod, add64_4_mod. Qed.

Lemma classify_new_fits id srv : role_fits srv id (classify_new id srv) = true.
Proof.
  unfold classify_new. destruct srv.
  - destruct (N.land id 3) as [|[[]|[]|]] eqn:E; try done.
    + destruct (id =? CONNECT_ID) eqn:E0; [done|]. cbn. unfold has_bits. by rewrite E, E0.
    + cbn. unfold has_bits. by rewrite E.
  - destruct (N.land id 3) as [|[[]|[]|]] eqn:E; try done; cbn; unfold has_bits; rewrite E; [done|].
    destruct (id =? CONNECT_ID) eqn:E0; [|done]. apply N.eqb_eq in E0 as ->. done.
Qed.
Lemma classify_new_not_data id srv : is_wt_data (classify_new id srv) = false.
Proof.
  unfold classify_new. destruct srv; destruct (N.land id 3) as [|[[]|[]|]]; try done.
  by destruct (id =? CONNECT_ID).
Qed.

(** The events a part of the code may push: at least those that are typed
    wherever they occur. *)
Class Reports := {
  reports : Ev → Prop;
  reports_untyped e : untyped_ev e = true → reports e;
}.

Section typing.
Context {C : Type} {quic : Quic C} {alloc : Allocator} {qpack : Qpack} {sfv : Sfv}.
Context (srv : bool).

Abbreviation Method := (M (World C)).

(** ** The invariant

    [x] is the stream whose announcement is under way, if any. *)

Definition roles_typed (m : gmap N Stream) : Prop :=
  map_Forall (fun id st => role_fits srv id (st_role st) = true) m.
Definition data_announced (x : option N) (evs : list Ev) (m : gmap N Stream) : Prop :=
  map_Forall (fun id st => is_wt_data (st_role st) = true → x = Some id ∨ announced evs id) m.

Record typed (x : option N) (w : World C) : Prop := mkTyped {
  ty_server : ws_is_server (w_ses w) = srv;
  ty_bidi : has_bits (ws_next_bidi (w_ses w)) srv true = true;
  ty_uni : has_bits (ws_next_uni (w_ses w)) srv false = true;
  ty_roles : roles_typed (ws_streams (w_ses w));
  ty_announced : ws_closed (w_ses w) = false → data_announced x (w_ev w) (ws_streams (w_ses w));
  ty_events : events_typed srv (w_ev w);
}.

(** The events added are ones that [reports] admits. *)
Context {P : Reports}.
Definition adds (w w' : World C) : Prop :=
  ∃ evs, w_ev w' = w_ev w ++ evs ∧ Forall reports evs.

Lemma adds_same w w' : w_ev w' = w_ev w → adds w w'.
Proof. intros E. exists []. by rewrite E, app_nil_r. Qed.
Lemma adds_trans w w1 w2 : adds w w1 → adds w1 w2 → adds w w2.
Proof.
  intros (l1 & E1 & F1) (l2 & E2 & F2). exists (l1 ++ l2). rewrite E2, E1, app_assoc.
  split; [done|by apply Forall_app].
Qed.
Lemma adds_prefix w w' : adds w w' → w_ev w `prefix_of` w_ev w'.
Proof. intros (l & -> & _). by eexists. Qed.

(** What a step of a method leaves. *)
Definition onward (x : option N) (w w' : World C) : Prop := typed x w' ∧ adds w w'.
Record tk {A} (x : option N) (m : Method A) : Prop := Tk {
  run_tk w : typed x w → wlp m (fun _ w' => onward x w w') w;
}.

(** What [typed] depends on in the session. *)
Definition table (s : WtSession) :=
  (ws_is_server s, ws_next_bidi s, ws_next_uni s, ws_closed s, ws_streams s).

Lemma typed_same x w w' :
  table (w_ses w') = table (w_ses w) → w_ev w' = w_ev w → typed x w → onward x w w'.
Proof.
  unfold table. intros [= E1 E2 E3 E4 E5] Ev []. split; [|by apply adds_same].
  constructor; by rewrite ?Ev, ?E1, ?E2, ?E3, ?E4, ?E5.
Qed.
Lemma onward_refl x w : typed x w → onward x w w.
Proof. split; [done|by apply adds_same]. Qed.
Lemma onward_trans x w w1 w2 : onward x w w1 → onward x w1 w2 → onward x w w2.
Proof. intros [? ?] [? ?]. split; [done|]. by eapply adds_trans. Qed.

(** The streams change, and nothing else does. *)
Lemma typed_streams x w w' m :
  w' = w <| w_ses ::= fun s => s <| ws_streams := m |> |> →
  typed x w → roles_typed m → (ws_closed (w_ses w) = false → data_announced x (w_ev w) m) →
  onward x w w'.
Proof. intros -> [] ? ?. split; [|by apply adds_same]. by constructor. Qed.

(** ** Rules *)

Lemma tk_ret x {A} (a : A) : tk x (mret a).
Proof. split; intros w Hw. by apply wlp_ret, onward_refl. Qed.
Lemma tk_bind x {A B} (m : Method A) (k : A → Method B) :
  tk x m → (∀ a, tk x (k a)) → tk x (m ≫= k).
Proof.
  intros Hm Hk. split; intros w Hw. apply wlp_bind. eapply wlp_mono; [by apply Hm|]. intros a w1 H1.
  eapply wlp_mono; [apply Hk, H1|]. cbv beta. intros _ w2 H2. exact (onward_trans x w w1 w2 H1 H2).
Qed.
Lemma tk_gets x {A} (f : World C → A) : tk x (gets f).
Proof. split; intros w Hw. by apply wlp_gets, onward_refl. Qed.
Lemma tk_unwrap x {A} (o : option A) : tk x (unwrap o).
Proof. split; intros w Hw. apply wlp_unwrap. intros _ _. by apply onward_refl. Qed.
Lemma tk_panic x {A} : tk x (@panic (World C) A).
Proof. split; intros w Hw. apply wlp_panic. Qed.
Lemma tk_when x b m : tk x m → tk x (when b m).
Proof. destruct b; [done|]. intros _. apply tk_ret. Qed.
Lemma tk_set_ses x f : (∀ s, table (f s) = table s) → tk x (set_ses f).
Proof. intros H. split; intros w Hw. apply wlp_modify. apply typed_same; [apply H|done|done]. Qed.
Lemma tk_mem x {A} (m : M Usage A) : tk x (mem m).
Proof.
  split; intros w Hw a w'. unfold mem. destruct (m (w_mem w)) as [[b u]|]; [|done]. intros [= <- <-].
  by apply typed_same.
Qed.
Lemma tk_conn x {A} (f : C → A * C) : tk x (conn f).
Proof.
  split; intros w Hw a w'. unfold conn. destruct (f (w_conn w)). intros [= <- <-]. by apply typed_same.
Qed.
Lemma tk_conn_ x f : tk x (conn_ f).
Proof. split; intros w Hw. apply wlp_modify. by apply typed_same. Qed.

Lemma push_typed x x' w e :
  typed x w → ev_typed srv (w_ev w) e → reports e →
  (∀ id, x = Some id → x' = Some id ∨ announces id e = true) →
  onward x' w (w <| w_ev ::= fun l => l ++ [e] |>).
Proof.
  intros [] He Hr Hx. split; [|exists [e]; split; [done|by constructor]]. constructor; try done.
  - intros Hc id st Hst Hd. destruct (ty_announced0 Hc id st Hst Hd) as [Hid|Ha]; cbn.
    + destruct (Hx id Hid) as [?|Hn]; [by left|]. right. by apply announced_last.
    + right. by apply announced_app.
  - by apply events_typed_snoc.
Qed.
Lemma tk_push_ev x e : untyped_ev e = true → tk x (push_ev e).
Proof. intros He. split; intros w Hw. apply wlp_modify, (push_typed x); [done|by destruct e|by apply reports_untyped|by left]. Qed.

(** A table whose streams are those of the old one, in the same roles. *)
Definition same_roles (m m' : gmap N Stream) : Prop :=
  ∀ id st', m' !! id = Some st' → ∃ st, m !! id = Some st ∧ st_role st' = st_role st.

Lemma same_roles_onward x (w : World C) m :
  typed x w → same_roles (ws_streams (w_ses w)) m →
  onward x w (w <| w_ses ::= fun s => s <| ws_streams := m |> |>).
Proof.
  intros Hw Hm. eapply typed_streams; [done|done|..]; destruct Hw.
  - intros id st (st0 & H0 & ->)%Hm. by apply (ty_roles0 id st0).
  - intros Hc id st (st0 & H0 & ->)%Hm. by apply (ty_announced0 Hc id st0).
Qed.
Lemma same_roles_set x (f : gmap N Stream → gmap N Stream) :
  (∀ m, same_roles m (f m)) → tk x (set_ses (fun s => s <| ws_streams ::= f |>)).
Proof. intros Hf. split; intros w Hw. apply wlp_modify. by apply (same_roles_onward x w). Qed.

Lemma tk_with_stream x id f : (∀ st, st_role (f st) = st_role st) → tk x (with_stream id f).
Proof.
  intros Hf. apply same_roles_set. intros m i st' Hi. rewrite lookup_alter in Hi. case_decide; [|eauto].
  subst. destruct (m !! i) as [st|]; [|done]. injection Hi as <-. eauto.
Qed.

Lemma insert_typed x (w : World C) id st :
  typed x w → role_fits srv id (st_role st) = true →
  (is_wt_data (st_role st) = true → x = Some id ∨ announced (w_ev w) id) →
  onward x w (w <| w_ses ::= fun s => s <| ws_streams ::= <[id := st]> |> |>).
Proof.
  intros Hw Hfit Hd. eapply typed_streams; [done|done|..]; destruct Hw.
  - by apply map_Forall_insert_2.
  - intros Hc. by apply map_Forall_insert_2; [|apply ty_announced0].
Qed.
Lemma tk_insert_stream x id st :
  role_fits srv id (st_role st) = true → (is_wt_data (st_role st) = true → x = Some id) →
  tk x (insert_stream id st).
Proof.
  intros Hfit Hd. apply tk_bind; [apply tk_gets|]. intros old. apply tk_bind.
  - split; intros w Hw. apply wlp_modify. apply insert_typed; [done..|]. intros H. left. by apply Hd.
  - intros _. destruct old; [apply tk_mem|apply tk_ret].
Qed.
Lemma tk_remove_stream x id : tk x (remove_stream id).
Proof.
  apply tk_bind; [apply tk_gets|]. intros old. apply tk_bind.
  - apply same_roles_set. intros m i st' Hi%lookup_delete_Some. naive_solver.
  - intros _. destruct old; [apply tk_mem|apply tk_ret].
Qed.
End typing.

Create HintDb typing discriminated.
#[export] Hint Constants Opaque : typing.

(** Follow the structure of a method, as [keep] does. *)
Ltac tk_step :=
  lazymatch goal with
  | |- tk _ _ (mbind _ _) => apply tk_bind; [|intros ?]
  | |- tk _ _ (mret _) => apply tk_ret
  | |- tk _ _ (ses _) => apply tk_gets
  | |- tk _ _ (get_stream _) => apply tk_gets
  | |- tk _ _ (gets _) => apply tk_gets
  | |- tk _ _ (set_ses _) => apply tk_set_ses; intros ?; try reflexivity
  | |- tk _ _ (with_stream _ _) => apply tk_with_stream; intros ?; try reflexivity
  | |- tk _ _ (push_ev _) => apply tk_push_ev; try reflexivity
  | |- tk _ _ (mem _) => apply tk_mem
  | |- tk _ _ (conn _) => apply tk_conn
  | |- tk _ _ (conn_ _) => apply tk_conn_
  | |- tk _ _ (unwrap _) => apply tk_unwrap
  | |- tk _ _ panic => apply tk_panic
  | |- tk _ _ (when _ _) => apply tk_when
  | |- tk _ _ (remove_stream _) => apply tk_remove_stream
  | |- tk _ _ (match ?x with _ => _ end) => destruct x
  | |- tk _ _ (let _ := _ in _) => cbv zeta
  | |- tk _ _ _ => solve [eauto with typing]
  end.
Ltac tk := repeat tk_step.

(** ** The receiving side *)

Section receive.
Context {C : Type} {quic : Quic C} {alloc : Allocator} {qpack : Qpack} {sfv : Sfv}.
Context {P : Reports} (srv : bool).

Lemma clear_stream_role st u st' u' :
  clear_stream st u = Some (st', u') → st_role st' = st_role st.
Proof.
  unfold clear_stream, mbind, M_bind. destruct (buf_clear _ u) as [[b1 u1]|]; [|done].
  destruct (buf_clear _ u1) as [[b2 u2]|]; [|done]. by intros [= <- <-].
Qed.
Lemma clear_streams_roles l u l' u' :
  clear_streams l u = Some (l', u') →
  ∀ id st', (id, st') ∈ l' → ∃ st, (id, st) ∈ l ∧ st_role st' = st_role st.
Proof.
  revert u l'. induction l as [|[i st] l IH]; intros u l'; cbn [clear_streams].
  { intros [= <- <-] ? ? []%not_elem_of_nil. }
  unfold mbind, M_bind. destruct (clear_stream st u) as [[st1 u1]|] eqn:E1; [|done].
  destruct (clear_streams l u1) as [[l1 u2]|] eqn:E2; [|done]. intros [= <- <-] id st'.
  rewrite elem_of_cons. intros [[= -> ->]|Hin].
  - exists st. split; [by left|]. by eapply clear_stream_role.
  - destruct (IH u1 l1 E2 id st' Hin) as (st0 & ? & ?). exists st0. split; [by right|done].
Qed.

Lemma tk_mark_closed x code reason remote : tk srv x (mark_closed (C := C) code reason remote).
Proof.
  apply tk_bind; [apply tk_gets|]. intros []; [apply tk_ret|].
  apply tk_bind.
  { split; intros w []. apply wlp_modify. split; [|by apply adds_same]. by constructor. }
  intros _. do 3 (apply tk_bind; [tk|intros ?]).
  split; intros w Hw. apply wlp_bind, wlp_gets, wlp_bind. intros l w1. unfold mem.
  destruct (clear_streams _ _) as [[l' u]|] eqn:E; [|done]. intros [= <- <-].
  assert (H1 : onward srv x w (w <| w_mem := u |>)) by by apply typed_same.
  assert (Hm : same_roles (ws_streams (w_ses w)) (list_to_map l')).
  { intros id st' Hin%elem_of_list_to_map_2. eapply clear_streams_roles in E as (st & Hst & Hr); [|done].
    exists st. split; [by apply elem_of_map_to_list|done]. }
  apply wlp_bind, wlp_modify.
  eapply wlp_mono; [apply tk_push_ev; [done|]|].
  - apply (same_roles_onward srv x (w <| w_mem := u |>) (list_to_map l') (proj1 H1) Hm).
  - cbv beta. intros _ w2 H2. apply (onward_trans srv x w _ w2 H1). eapply onward_trans; [|exact H2].
    apply (same_roles_onward srv x (w <| w_mem := u |>) (list_to_map l') (proj1 H1) Hm).
Qed.
#[local] Hint Resolve tk_mark_closed : typing.

Lemma tk_parser_limit_exceeded x : tk srv x (parser_limit_exceeded (C := C)).
Proof. unfold parser_limit_exceeded. tk. Qed.
Lemma tk_flow_error x message : tk srv x (flow_error (C := C) message).
Proof. unfold flow_error. tk. Qed.
Lemma tk_protocol_error x code message : tk srv x (protocol_error (C := C) code message).
Proof. unfold protocol_error. tk. Qed.
Lemma tk_frame_error x id : tk srv x (frame_error (C := C) id).
Proof. unfold frame_error. tk. Qed.
Lemma tk_class_buf_clear x id : tk srv x (class_buf_clear (C := C) id).
Proof. unfold class_buf_clear. tk. Qed.
#[local] Hint Resolve tk_parser_limit_exceeded tk_flow_error tk_protocol_error tk_frame_error
  tk_class_buf_clear : typing.
Lemma tk_frames_clear x id : tk srv x (frames_clear (C := C) id).
Proof. unfold frames_clear. tk. Qed.
Lemma tk_frames_push x id chunk : tk srv x (frames_push (C := C) id chunk).
Proof. unfold frames_push. tk. Qed.
Lemma tk_frames_next x id : tk srv x (frames_next (C := C) id).
Proof. unfold frames_next. tk. Qed.
Lemma tk_push_out x id chunk : tk srv x (push_out (C := C) id chunk).
Proof. unfold push_out. tk. Qed.
#[local] Hint Resolve tk_frames_clear tk_frames_push tk_frames_next tk_push_out : typing.
Lemma tk_kill_recv x id : tk srv x (kill_recv (C := C) id).
Proof. unfold kill_recv. tk. Qed.
Lemma tk_account_incoming x bidi : tk srv x (account_incoming (C := C) bidi).
Proof. unfold account_incoming. tk. Qed.
Lemma tk_account_receive x id amount : tk srv x (account_receive (C := C) id amount).
Proof. unfold account_receive. tk. Qed.
#[local] Hint Resolve tk_kill_recv tk_account_incoming tk_account_receive : typing.

(** *** Capsules and the CONNECT exchange *)

Lemma tk_handle_flow_capsule x ty value : tk srv x (handle_flow_capsule (C := C) ty value).
Proof. unfold handle_flow_capsule, raise_limit. tk. Qed.
#[local] Hint Resolve tk_handle_flow_capsule : typing.
Lemma tk_handle_capsule x ty value : tk srv x (handle_capsule (C := C) ty value).
Proof. unfold handle_capsule. tk. Qed.
#[local] Hint Resolve tk_handle_capsule : typing.
Lemma tk_scan_loop x fuel : tk srv x (scan_loop (C := C) fuel).
Proof. induction fuel; cbn [scan_loop]; tk. Qed.
#[local] Hint Resolve tk_scan_loop : typing.
Lemma tk_scan_capsules x payload : tk srv x (scan_capsules (C := C) payload).
Proof. unfold scan_capsules. tk. Qed.
Lemma tk_reject_connect x id status : tk srv x (reject_connect (C := C) id status).
Proof. unfold reject_connect. tk. Qed.
#[local] Hint Resolve tk_scan_capsules tk_reject_connect : typing.
Lemma tk_accept_connect x id headers : tk srv x (accept_connect (C := C) id headers).
Proof. unfold accept_connect. tk. Qed.
#[local] Hint Resolve tk_accept_connect : typing.
Lemma tk_server_connect_loop x fuel id : tk srv x (server_connect_loop (C := C) fuel id).
Proof. induction fuel; cbn [server_connect_loop]; tk. Qed.
#[local] Hint Resolve tk_server_connect_loop : typing.
Lemma tk_parse_server_connect_frames x id : tk srv x (parse_server_connect_frames (C := C) id).
Proof. unfold parse_server_connect_frames. tk. Qed.
Lemma tk_queue_connect x : tk srv x (queue_connect (C := C)).
Proof. unfold queue_connect. tk. by apply tk_insert_stream; unfold with_prefix; case_match. Qed.
Lemma tk_handle_response x headers : tk srv x (handle_response (C := C) headers).
Proof. unfold handle_response. tk. Qed.
#[local] Hint Resolve tk_parse_server_connect_frames tk_queue_connect tk_handle_response : typing.
Lemma tk_connect_loop x fuel id : tk srv x (connect_loop (C := C) fuel id).
Proof. induction fuel; cbn [connect_loop]; tk. Qed.
#[local] Hint Resolve tk_connect_loop : typing.
Lemma tk_apply_peer_settings x settings : tk srv x (apply_peer_settings (C := C) settings).
Proof. unfold apply_peer_settings. tk. Qed.
#[local] Hint Resolve tk_apply_peer_settings : typing.
Lemma tk_handle_control_frame x id ty payload first :
  tk srv x (handle_control_frame (C := C) id ty payload first).
Proof. unfold handle_control_frame. tk. Qed.
#[local] Hint Resolve tk_handle_control_frame : typing.
Lemma tk_control_loop x fuel id : tk srv x (control_loop (C := C) fuel id).
Proof. induction fuel; cbn [control_loop]; tk. Qed.
#[local] Hint Resolve tk_control_loop : typing.
Lemma tk_process_peer_control x id chunk fin : tk srv x (process_peer_control (C := C) id chunk fin).
Proof. unfold process_peer_control, parse_control_frames. tk. Qed.
Lemma tk_process_connect x id chunk fin : tk srv x (process_connect (C := C) id chunk fin).
Proof. unfold process_connect, parse_connect_frames. tk. Qed.
#[local] Hint Resolve tk_process_peer_control tk_process_connect : typing.

(** *** Streams from the peer *)

Lemma tk_class_buf_extend x id chunk : tk srv x (class_buf_extend (C := C) id chunk).
Proof. unfold class_buf_extend. tk. Qed.
#[local] Hint Resolve tk_class_buf_extend : typing.

Lemma streams_alter_present (w : World C) id f st :
  ws_streams (w_ses w) !! id = Some st →
  w <| w_ses ::= fun s => s <| ws_streams ::= alter f id |> |> =
  w <| w_ses ::= fun s => s <| ws_streams ::= <[id := f st]> |> |>.
Proof.
  intros Hi. destruct w as [s c u0 e]. destruct s. cbn in Hi. unfold upd. cbn.
  by rewrite (alter_insert_delete _ id f st).
Qed.

Lemma tk_set_role x id role :
  role_fits srv id role = true → (is_wt_data role = true → x = Some id) →
  tk srv x (set_role (C := C) id role).
Proof.
  intros Hfit Hd. unfold set_role. apply tk_bind; [|intros _; apply tk_class_buf_clear].
  split; intros w Hw. apply wlp_modify.
  destruct (ws_streams (w_ses w) !! id) as [st|] eqn:E.
  - erewrite (streams_alter_present w id) by done. apply insert_typed; [done..|]. left. by apply Hd.
  - rewrite streams_alter_missing by done. by apply onward_refl.
Qed.

Lemma tk_refuse_stream x id : tk srv x (refuse_stream (C := C) id).
Proof. unfold refuse_stream. tk. by apply tk_set_role. Qed.
#[local] Hint Resolve tk_refuse_stream : typing.

(** An announcement starts, and is called off when the session closes. *)
Lemma typed_weaken x w : typed (C := C) srv None w → typed srv x w.
Proof. intros []. constructor; try done. intros Hc id st Hst Hd. by destruct (ty_announced0 Hc id st Hst Hd); [|right]. Qed.
Lemma typed_closed x x' w : typed (C := C) srv x w → ws_closed (w_ses w) = true → typed srv x' w.
Proof. intros [] Hc. constructor; try done. intros Hc'. congruence. Qed.

Lemma mark_closed_closes code reason remote (w : World C) :
  wlp (mark_closed code reason remote) (fun _ w' => ws_closed (w_ses w') = true) w.
Proof.
  apply wlp_bind, wlp_gets. destruct (ws_closed (w_ses w)) eqn:E; [by apply wlp_ret|].
  apply wlp_bind, wlp_modify. eapply wlp_mono.
  { apply (wlp_keeps (of_ses ws_closed)). keep. }
  cbv beta. intros _ w' H. exact H.
Qed.
Lemma flow_error_closes message (w : World C) :
  wlp (flow_error message) (fun _ w' => ws_closed (w_ses w') = true) w.
Proof.
  apply wlp_bind, wlp_gets. destruct (ws_closed (w_ses w)) eqn:E; [by apply wlp_ret|].
  do 2 apply wlp_bind, wlp_modify. apply mark_closed_closes.
Qed.
(** [false] from the accounting means the session has closed. *)
Lemma account_incoming_closes bidi (w : World C) :
  wlp (account_incoming bidi) (fun ok w' => ok = true ∨ ws_closed (w_ses w') = true) w.
Proof.
  apply wlp_bind, wlp_modify. do 2 apply wlp_bind, wlp_gets. case_match; [|apply wlp_ret; by left].
  apply wlp_bind. eapply wlp_mono; [apply flow_error_closes|]. cbv beta. intros _ w' Hc. apply wlp_ret.
  by right.
Qed.
Lemma account_receive_closes id amount (w : World C) :
  wlp (account_receive id amount) (fun ok w' => ok = true ∨ ws_closed (w_ses w') = true) w.
Proof.
  do 2 apply wlp_bind, wlp_modify. do 2 apply wlp_bind, wlp_gets. case_match; [|apply wlp_ret; by left].
  apply wlp_bind. eapply wlp_mono; [apply flow_error_closes|]. cbv beta. intros _ w' Hc. apply wlp_ret.
  by right.
Qed.

Lemma account_incoming_typed id bidi w :
  typed srv (Some id) w →
  wlp (account_incoming (C := C) bidi) (fun ok w' =>
    onward srv (Some id) w w' ∧ (ok = true ∨ onward srv None w w')) w.
Proof.
  intros Hw. eapply wlp_mono; [apply wlp_and; [by apply tk_account_incoming|apply account_incoming_closes]|].
  cbv beta. intros ok w' [[Ht Hp] [?|Hc]]; (split; [by split|]); [by left|right].
  split; [by eapply typed_closed|done].
Qed.
Lemma account_receive_typed id n w :
  typed srv (Some id) w →
  wlp (account_receive (C := C) id n) (fun ok w' =>
    onward srv (Some id) w w' ∧ (ok = true ∨ onward srv None w w')) w.
Proof.
  intros Hw. eapply wlp_mono; [apply wlp_and; [by apply tk_account_receive|apply account_receive_closes]|].
  cbv beta. intros ok w' [[Ht Hp] [?|Hc]]; (split; [by split|]); [by left|right].
  split; [by eapply typed_closed|done].
Qed.

Lemma tk_apply {A} x (m : M (World C) A) w :
  tk srv x m → typed srv x w → wlp m (fun _ w' => onward srv x w w') w.
Proof. intros H. apply H. Qed.

(** A stream seen for the first time. *)
Lemma discover_typed id w :
  typed srv None w →
  wlp (st ← ses (fun s => new_stream (classify_new id (ws_is_server s)) (ws_parser_memory s));
       insert_stream (C := C) id st) (fun _ w' => onward srv None w w') w.
Proof.
  intros Hw. apply wlp_bind, wlp_gets. rewrite (ty_server _ _ _ Hw).
  apply tk_insert_stream; cbn; [apply classify_new_fits|by rewrite classify_new_not_data|done].
Qed.

End receive.

#[export] Hint Resolve tk_mark_closed tk_parser_limit_exceeded tk_flow_error tk_protocol_error
  tk_frame_error tk_class_buf_clear tk_push_out tk_account_incoming tk_account_receive
  tk_process_peer_control tk_process_connect tk_class_buf_extend tk_refuse_stream : typing.

(** *** Delivery: every event may be pushed *)

Definition report_all : Reports := {| reports _ := True; reports_untyped _ _ := I |}.

Section deliver.
Context {C : Type} {quic : Quic C} {alloc : Allocator} {qpack : Qpack} {sfv : Sfv}.
Context (srv : bool).
#[local] Existing Instance report_all.

(** What has been announced may be delivered. *)
Lemma push_announced id e w :
  typed srv None w → announced (w_ev w) id → (∀ evs, announced evs id → ev_typed srv evs e) →
  wlp (push_ev (C := C) e) (fun _ w' => onward srv None w w') w.
Proof. intros Hw Ha He. apply wlp_modify. apply (push_typed srv None); [done|by apply He|done|by left]. Qed.

Definition deliver (id : N) (data : bytes) (fin : bool) : M (World C) () :=
  _ ← when (negb (bool_decide (data = []))) (push_ev (EvStreamData id data));
  when fin (
    _ ← with_stream id (fun st => st <| st_recv_dead := true |>);
    push_ev (EvStreamFinished id)).
Lemma deliver_typed id data fin w :
  typed srv None w → announced (w_ev w) id →
  wlp (deliver id data fin) (fun _ w' => onward srv None w w') w.
Proof.
  intros Hw Ha. apply wlp_bind.
  eapply (wlp_mono _ (fun _ w' => onward srv None w w')).
  { apply wlp_when; intros _; [by apply (push_announced id)|by apply onward_refl]. }
  intros _ w1 O1. apply wlp_when; intros _; [|done].
  apply wlp_bind. eapply wlp_mono; [by apply tk_with_stream, O1|]. cbv beta. intros _ w2 O2.
  pose proof (onward_trans srv None w w1 w2 O1 O2) as O.
  eapply wlp_mono; [apply (push_announced id); [apply O2| |done]|].
  - eapply announced_prefix; [apply adds_prefix, O|done].
  - cbv beta. intros _ w3 O3. exact (onward_trans srv None w w2 w3 O O3).
Qed.

Lemma tk_resolve_wt_data id bidi header data fin :
  has_bits id (negb srv) bidi = true →
  tk srv None (resolve_wt_data (C := C) id bidi header data fin).
Proof.
  intros Hb. split; intros w Hw. unfold resolve_wt_data.
  apply wlp_bind. eapply wlp_mono.
  { apply (tk_set_role srv (Some id)); [cbn; by rewrite Hb, orb_true_r|done|by apply typed_weaken]. }
  cbv beta. intros _ w1 O1. apply wlp_bind. eapply wlp_mono; [by apply tk_with_stream, O1|].
  cbv beta. intros _ w2 O2. pose proof (onward_trans _ _ _ _ _ O1 O2) as O. clear w1 O1 O2.
  apply wlp_bind. eapply wlp_mono; [apply account_incoming_typed, O|]. cbv beta.
  intros ok w3 [O3 Hok]. destruct ok; cbn [negb].
  2:{ destruct Hok as [|[H3 P3]]; [done|]. apply wlp_ret. split; [done|]. eapply adds_trans; [apply O|done]. }
  pose proof (onward_trans _ _ _ _ _ O O3) as O'. clear w2 O O3 Hok.
  apply wlp_bind. eapply wlp_mono; [apply account_receive_typed, O'|]. cbv beta.
  intros ok w4 [O4 Hok]. destruct ok; cbn [negb].
  2:{ destruct Hok as [|[H4 P4]]; [done|]. apply wlp_ret. split; [done|]. eapply adds_trans; [apply O'|done]. }
  destruct (onward_trans _ _ _ _ _ O' O4) as [H4 P4]. clear w3 O' O4 Hok.
  apply wlp_bind, wlp_modify. set (w5 := _ <| w_ev ::= _ |>).
  assert (O5 : onward srv None w4 w5).
  { apply (push_typed srv (Some id)); [done|done|done|]. intros ? [= <-]. right. apply N.eqb_refl. }
  eapply wlp_mono; [apply (deliver_typed id data fin w5); [apply O5|]|].
  - apply announced_last, N.eqb_refl.
  - cbv beta. intros _ w6 O6. split; [apply O6|].
    eapply adds_trans; [exact P4|]. eapply adds_trans; [apply O5|apply O6].
Qed.
#[local] Hint Resolve tk_resolve_wt_data : typing.

Lemma tk_resolve_session id bidi buf n fin :
  has_bits id (negb srv) bidi = true →
  tk srv None (resolve_session (C := C) id bidi buf n fin).
Proof. intros Hb. unfold resolve_session. tk. Qed.
#[local] Hint Resolve tk_resolve_session : typing.

Lemma tk_resolve_pending_uni id chunk fin :
  has_bits id (negb srv) false = true →
  tk srv None (resolve_pending_uni (C := C) id chunk fin).
Proof. intros Hb. unfold resolve_pending_uni. tk; by apply tk_set_role. Qed.
Lemma tk_resolve_pending_bidi id chunk fin :
  has_bits id (negb srv) true = true →
  tk srv None (resolve_pending_bidi (C := C) id chunk fin).
Proof. intros Hb. unfold resolve_pending_bidi. tk. Qed.

(** While the session is open, its data streams have been announced. *)
Lemma open_announced w id st :
  typed (C := C) srv None w → ws_closed (w_ses w) = false →
  ws_streams (w_ses w) !! id = Some st → is_wt_data (st_role st) = true → announced (w_ev w) id.
Proof. intros [] Hc Hst Hd. by destruct (ty_announced0 Hc id st Hst Hd). Qed.

Lemma process_recv_typed id chunk fin w :
  typed srv None w → ws_closed (w_ses w) = false →
  wlp (process_recv (C := C) id chunk fin) (fun _ w' => onward srv None w w') w.
Proof.
  intros Hw Hc. apply wlp_bind, wlp_gets.
  destruct (ws_streams (w_ses w) !! id) as [st|] eqn:Hst; [|by apply tk_ret].
  pose proof (ty_roles _ _ _ Hw id st Hst) as Hfit. cbv beta in Hfit.
  pose proof (open_announced w id st Hw Hc Hst) as Ha. cbn [fmap option_fmap option_map].
  destruct (st_role st); cbn in Hfit, Ha; try solve [apply tk_apply; [tk; fail|done]].
  - apply wlp_bind. eapply wlp_mono; [by apply tk_account_receive|].
    cbv beta. intros ok w1 [H1 P1]. destruct ok; cbn [negb]; [|by apply wlp_ret].
    eapply wlp_mono; [apply deliver_typed; [done|]|].
    + eapply announced_prefix; [by apply adds_prefix|]. by apply Ha.
    + cbv beta. intros _ w2 O2. by apply (onward_trans srv None w w1 w2).
  - by apply tk_resolve_pending_uni.
  - apply andb_true_iff in Hfit as [Hfit _]. by apply tk_resolve_pending_bidi.
Qed.

(** What a stream that ends with a reset may be: if it carries data, it has
    been announced. *)
Definition reset_announced (id : N) (e : ReadEnd) (w : World C) : Prop :=
  ∀ code st, e = Broke (Some code) → ws_streams (w_ses w) !! id = Some st →
    is_wt_data (st_role st) = true → announced (w_ev w) id.

Lemma read_loop_typed fuel id backpressured w :
  typed srv None w → ws_closed (w_ses w) = false →
  wlp (read_loop (C := C) fuel id backpressured)
    (fun e w' => onward srv None w w' ∧ reset_announced id e w') w.
Proof.
  revert w. induction fuel as [|fuel IH]; intros w Hw Hc; cbn [read_loop]; [apply wlp_panic|].
  apply wlp_bind, wlp_gets, wlp_bind, wlp_unwrap. intros st Hst.
  case_match; [by apply wlp_ret; split; [apply onward_refl|]|]. cbv zeta.
  apply wlp_bind, wlp_gets, wlp_bind. set (final := stream_recv_final_size _ _). clearbody final.
  eapply wlp_mono; [apply wlp_and; [by apply tk_conn|]|].
  { apply (wlp_keeps (fun w => (ws_closed (w_ses w), ws_streams (w_ses w), w_ev w))).
    intros w0 a w'. unfold conn. case_match. by intros [= <- <-]. }
  cbv beta. intros r w1 [O1 [= E1 E2 E3]]. rewrite <- E1 in Hc. rewrite <- E2 in Hst.
  assert (Hend : ∀ e : ReadEnd, onward srv None w w1 ∧ reset_announced id e w1).
  { intros e. split; [done|]. intros code st' _ Hst' Hd. by eapply open_announced; [apply O1|..]. }
  destruct r as [[chunk f]|[]]; try (by apply wlp_ret).
  - apply wlp_bind. eapply wlp_mono; [by apply process_recv_typed; [apply O1|]|].
    cbv beta. intros _ w2 O2. apply wlp_bind, wlp_gets.
    pose proof (onward_trans srv None w w1 w2 O1 O2) as O.
    destruct (ws_closed (w_ses w2)) eqn:Hc2; [by apply wlp_ret|].
    destruct f; [by apply wlp_ret|]. case_match; [by apply wlp_ret|].
    eapply wlp_mono; [apply IH; [apply O|done]|]. cbv beta. intros e w3 [O3 Ha].
    split; [|done]. exact (onward_trans srv None w w2 w3 O O3).
  - destruct final as [size|]; [|by apply wlp_ret].
    apply wlp_bind, wlp_gets, wlp_bind, wlp_unwrap. intros st1 Hst1.
    destruct (is_wt_data (st_role st1)) eqn:Hd; [|by apply wlp_ret].
    apply wlp_bind. eapply wlp_mono; [by apply tk_account_receive, O1|]. cbv beta. intros ok w2 O2.
    pose proof (onward_trans srv None w w1 w2 O1 O2) as O.
    destruct ok; apply wlp_ret; [|by split]. split; [done|]. intros ? ? _ _ _.
    eapply announced_prefix; [apply adds_prefix, O2|]. by eapply open_announced; [apply O1|..].
Qed.

Lemma handle_reset_typed id code w :
  typed srv None w → reset_announced id (Broke (Some code)) w →
  wlp (handle_reset (C := C) id code) (fun _ w' => onward srv None w w') w.
Proof.
  intros Hw Ha. apply wlp_bind, wlp_gets.
  destruct (ws_streams (w_ses w) !! id) as [st|] eqn:Hst.
  2:{ cbn [fmap option_fmap option_map]. apply tk_apply; [tk|done]. }
  specialize (Ha code st eq_refl Hst). cbn [fmap option_fmap option_map].
  destruct (st_role st); cbn in Ha; try solve [apply tk_apply; [tk; fail|done]].
  apply wlp_bind. eapply wlp_mono; [by apply tk_with_stream|]. cbv beta.
  intros _ w1 [H1 P1]. eapply wlp_mono; [apply (push_announced id); [done| |done]|].
  - eapply announced_prefix; [by apply adds_prefix|]. by apply Ha.
  - cbv beta. intros _ w2 O2. by apply (onward_trans srv None w w1 w2).
Qed.

Lemma tk_on_readable id backpressured : tk srv None (on_readable (C := C) id backpressured).
Proof.
  split; intros w Hw. apply wlp_bind, wlp_gets. destruct (ws_closed (w_ses w)) eqn:Hc; [by apply tk_ret|].
  apply wlp_bind, wlp_gets, wlp_bind.
  eapply (wlp_mono _ (fun _ w' => onward srv None w w' ∧ of_ses ws_closed w' = of_ses ws_closed w)).
  { apply wlp_and.
    - destruct (ws_streams (w_ses w) !! id); [by apply tk_ret|by apply discover_typed].
    - apply wlp_keeps. destruct (ws_streams (w_ses w) !! id); keep. unfold insert_stream. keep. }
  cbv beta. intros _ w1 [O1 E1]. unfold of_ses in E1. rewrite Hc in E1.
  apply wlp_bind, wlp_gets, wlp_bind, wlp_unwrap. intros st Hst.
  do 3 (case_match; [by apply wlp_ret|]).
  apply wlp_bind, wlp_gets, wlp_bind. eapply wlp_mono; [by apply read_loop_typed; [apply O1|]|].
  cbv beta. intros e w2 [O2 Ha]. pose proof (onward_trans srv None w w1 w2 O1 O2) as O.
  destruct e as [|[code|]]; try (by apply wlp_ret).
  eapply wlp_mono; [by apply handle_reset_typed; [apply O|]|]. cbv beta. intros _ w3 O3.
  exact (onward_trans srv None w w2 w3 O O3).
Qed.

(** *** Datagrams and establishment *)

Lemma tk_dgram_loop x fuel : tk srv x (dgram_loop (C := C) fuel).
Proof. induction fuel; cbn [dgram_loop]; tk. Qed.
#[local] Hint Resolve tk_dgram_loop : typing.
Lemma tk_on_datagrams x : tk srv x (on_datagrams (C := C)).
Proof. unfold on_datagrams. tk. Qed.
Lemma tk_send_datagram x data request_id : tk srv x (send_datagram (C := C) data request_id).
Proof. unfold send_datagram. tk. Qed.

Lemma tk_on_established x : tk srv x (on_established (C := C)).
Proof.
  apply tk_bind; [apply tk_gets|]. intros []; [apply tk_ret|].
  apply tk_bind; [tk|]. intros _. split; intros w Hw. apply wlp_bind, wlp_gets. rewrite (ty_server _ _ _ Hw).
  apply tk_apply; [|done]. destruct srv; tk; by apply tk_insert_stream.
Qed.
End deliver.

(** ** The sending side *)

Section send.
Context {C : Type} {quic : Quic C} {alloc : Allocator}.
Context (srv : bool).
#[local] Existing Instance report_all.

(** An opened stream: its id is the next of our ids of that direction. *)
Lemma tk_allocate_stream bidi request_id : tk srv None (allocate_stream (C := C) bidi request_id).
Proof.
  split; intros w Hw. apply wlp_bind, wlp_gets, wlp_bind, wlp_modify. set (w1 := _ <| w_ses ::= _ |>).
  assert (Hid : has_bits (next_id bidi (w_ses w)) srv bidi = true).
  { destruct Hw. by destruct bidi. }
  assert (O1 : onward srv None w w1).
  { destruct Hw. split; [|by apply adds_same]. destruct bidi; constructor; cbn; by rewrite ?has_bits_next. }
  apply wlp_bind, wlp_gets. set (id := next_id bidi (w_ses w)) in *. clearbody id.
  apply wlp_bind. eapply wlp_mono.
  { apply (tk_insert_stream srv (Some id)); [|done|by apply typed_weaken, O1].
    unfold with_prefix. cbn. case_match; cbn; by rewrite Hid. }
  cbv beta. intros _ w2 [H2 P2]. eapply wlp_modify.
  enough (onward srv None w2 (w2 <| w_ev ::= fun l => l ++ [EvStreamOpened request_id id] |>)) as [H3 P3].
  { split; [done|]. eapply adds_trans; [apply O1|]. by eapply adds_trans. }
  apply (push_typed srv (Some id)); [done| |done|].
  - cbn. destruct bidi; rewrite Hid; by rewrite ?orb_true_r.
  - intros ? [= <-]. right. apply N.eqb_refl.
Qed.
#[local] Hint Resolve tk_allocate_stream : typing.
Lemma tk_release_loop pending : tk srv None (release_loop (C := C) pending).
Proof. induction pending; cbn [release_loop]; tk. Qed.
#[local] Hint Resolve tk_release_loop : typing.
Lemma tk_release_pending_opens : tk srv None (release_pending_opens (C := C)).
Proof. unfold release_pending_opens. tk. Qed.
#[local] Hint Resolve tk_release_pending_opens : typing.
Lemma tk_open_stream bidi request_id : tk srv None (open_stream (C := C) bidi request_id).
Proof. unfold open_stream. tk. Qed.

(** *** Commands *)

Lemma tk_stream_write x id data request_id : tk srv x (stream_write (C := C) id data request_id).
Proof. unfold stream_write. tk. Qed.
Lemma tk_stream_fin x id : tk srv x (stream_fin (C := C) id).
Proof. unfold stream_fin. tk. Qed.
Lemma tk_reconcile x id : tk srv x (reconcile_send_final_size (C := C) id).
Proof. unfold reconcile_send_final_size. tk. Qed.
#[local] Hint Resolve tk_reconcile : typing.
Lemma tk_stream_reset x id code : tk srv x (stream_reset (C := C) id code).
Proof. unfold stream_reset. tk. Qed.
Lemma tk_stream_stop_sending x id code : tk srv x (stream_stop_sending (C := C) id code).
Proof. unfold stream_stop_sending. tk. Qed.
Lemma tk_set_paused x id paused : tk srv x (set_paused (C := C) id paused).
Proof. unfold set_paused. tk. Qed.
Lemma tk_close x code reason : tk srv x (close (C := C) code reason).
Proof. unfold close. tk. Qed.
Lemma tk_send_drain x : tk srv x (send_drain (C := C)).
Proof. unfold send_drain. tk. Qed.

(** *** The flush *)

Lemma tk_queue_session_capsule x ty value : tk srv x (queue_session_capsule (C := C) ty value).
Proof. unfold queue_session_capsule. tk. Qed.
Lemma tk_ack_all x out : tk srv x (ack_all (C := C) out).
Proof. induction out; cbn [ack_all]; tk. Qed.
#[local] Hint Resolve tk_queue_session_capsule tk_ack_all : typing.
Lemma tk_send_front x id enforce is_wt front rest wt_sent :
  tk srv x (send_front (C := C) id enforce is_wt front rest wt_sent).
Proof. unfold send_front. tk. Qed.
#[local] Hint Resolve tk_send_front : typing.
Lemma tk_flush_loop x fuel id enforce is_wt wt_sent :
  tk srv x (flush_loop (C := C) fuel id enforce is_wt wt_sent).
Proof. revert wt_sent. induction fuel; intros wt_sent; cbn [flush_loop]; tk. Qed.
#[local] Hint Resolve tk_flush_loop : typing.
Lemma tk_flush_stream x id wt_sent : tk srv x (flush_stream (C := C) id wt_sent).
Proof. unfold flush_stream. tk. Qed.
#[local] Hint Resolve tk_flush_stream : typing.
Lemma tk_flush_streams x ids wt_sent : tk srv x (flush_streams (C := C) ids wt_sent).
Proof. revert wt_sent. induction ids; intros wt_sent; cbn [flush_streams]; tk. Qed.
Lemma tk_flush_terminal_error x : tk srv x (flush_terminal_error (C := C)).
Proof. unfold flush_terminal_error. tk. Qed.
Lemma tk_grant_credit x : tk srv x (grant_credit (C := C)).
Proof. unfold grant_credit. tk. Qed.
Lemma tk_replenish_credit x : tk srv x (replenish_credit (C := C)).
Proof. unfold replenish_credit, replenish_data, replenish_streams. tk. Qed.
Lemma tk_queue_close_capsule x : tk srv x (queue_close_capsule (C := C)).
Proof. unfold queue_close_capsule. tk. Qed.
Lemma tk_signal_blocked x : tk srv x (signal_flow_control_blocked (C := C)).
Proof. unfold signal_flow_control_blocked, signal_data_blocked, signal_streams_blocked. tk. Qed.
Lemma tk_drive_quic_close x : tk srv x (drive_quic_close (C := C)).
Proof. unfold drive_quic_close. tk. Qed.

Lemma tk_prune_streams x : tk srv x (prune_streams (C := C)).
Proof.
  split; intros w Hw. apply wlp_bind, wlp_gets, wlp_bind, wlp_gets, wlp_bind, wlp_modify.
  match goal with |- wlp _ _ (_ <| w_ses ::= fun s => s <| ws_streams := ?m |> |>) => set (m' := m) end.
  assert (O1 : onward srv x w (w <| w_ses ::= fun s => s <| ws_streams := m' |> |>)).
  { apply same_roles_onward; [done|]. intros id st [Hst _]%map_lookup_filter_Some. eauto. }
  eapply wlp_mono; [apply tk_mem, O1|]. cbv beta. intros _ w2 O2.
  exact (onward_trans srv x w _ w2 O1 O2).
Qed.
#[local] Hint Resolve tk_flush_streams tk_flush_terminal_error tk_grant_credit tk_replenish_credit
  tk_queue_close_capsule tk_signal_blocked tk_drive_quic_close tk_prune_streams : typing.
Lemma tk_flush order : tk srv None (flush (C := C) order).
Proof. unfold flush. tk. Qed.
End send.

(** ** Every run *)

Section runs.
Context {C : Type} {quic : Quic C} {alloc : Allocator} {qpack : Qpack} {sfv : Sfv}.
Context (srv : bool).
#[local] Existing Instance report_all.

Lemma tk_run_op (o : SessionOp C) : tk srv None (run_op o).
Proof.
  destruct o; cbn [run_op].
  - apply tk_on_established.
  - apply tk_on_readable.
  - apply tk_on_datagrams.
  - apply tk_send_datagram.
  - apply tk_open_stream.
  - apply tk_stream_write.
  - apply tk_stream_fin.
  - apply tk_stream_reset.
  - apply tk_stream_stop_sending.
  - apply tk_set_paused.
  - apply tk_close.
  - apply tk_send_drain.
  - apply tk_flush.
  - apply tk_mark_closed.
  - split. intros w Hw. apply wlp_bind, wlp_gets. apply tk_push_ev; [|done].
    unfold build_stats. by destruct (path_stats _).
  - split. intros w Hw. apply wlp_bind. eapply wlp_mono.
    { apply wlp_and; [by apply tk_conn|].
      intros e w' E. instantiate (1 := fun e _ => untyped_ev e = true). revert E.
      unfold conn, build_keying_material. destruct (negb _); [by intros [= <- <-]|].
      destruct (export_keying_material _ _ _ _). by intros [= <- <-]. }
    cbv beta. intros e w1 [O1 He]. eapply wlp_mono; [by apply tk_push_ev, O1|]. cbv beta.
    intros _ w2 O2. by apply (onward_trans srv None w w1 w2).
  - by apply tk_push_ev.
  - split. intros w Hw. apply wlp_modify. by apply typed_same.
Qed.

Lemma tk_run_ops (ops : list (SessionOp C)) : tk srv None (run_ops ops).
Proof.
  induction ops as [|o ops IH]; cbn [run_ops]; [apply tk_ret|].
  apply tk_bind; [apply tk_run_op|done].
Qed.
End runs.

Lemma constructed_typed {C} s u u' (c : C) :
  constructed s u u' → typed (ws_is_server s) None (mkWorld s c u' []).
Proof.
  intros []; cbn; (constructor; cbn;
    [done|done|done|by intros ??|by intros _ ??|apply events_typed_nil]).
Qed.

Section fresh.
Context {C : Type} {quic : Quic C} {quic_laws : QuicLaws C}.
Context {alloc : Allocator} {alloc_laws : AllocatorLaws}.
Context {qpack : Qpack} {sfv : Sfv}.
Context (limits : N → N) (limits_usize : ∀ i, limits i < U64).
#[local] Existing Instance no_history.

(** C19: streams are well typed: after any run of a fresh session, the role of
    each stream in the table fits the initiator and direction its id encodes
    (our control plane on our unidirectional ids, the peer's control and QPACK
    streams and pending streams on the peer's, requests on stream 0); the
    application hears of incoming streams only under ids of the peer and of
    opened ones only under ids of ours, never hears of data, end or reset of a
    stream that was not announced to it before, and while the session is open
    every data stream in the table has been announced. *)
Theorem streams_well_typed (ops : list (SessionOp C)) s u u' c L :
  constructed s u u' → wf_memory limits (ws_parser_memory s) →
  within limits u → accounted u L →
  wp (run_ops ops) (fun _ w =>
    map_Forall (fun id st => role_fits (ws_is_server s) id (st_role st) = true) (ws_streams (w_ses w)) ∧
    events_typed (ws_is_server s) (w_ev w) ∧
    (ws_closed (w_ses w) = false →
      map_Forall (fun id st => is_wt_data (st_role st) = true → announced (w_ev w) id)
        (ws_streams (w_ses w))))
    (mkWorld s c u' []).
Proof.
  intros Hs Hm Hu Ha. eapply wp_mono.
  { apply wp_of_wlp.
    - apply (run_ops_inv limits limits_usize ops L). by eapply constructed_inv.
    - apply (tk_run_ops (ws_is_server s)). by eapply constructed_typed. }
  cbv beta. intros _ w [_ [Ht _]]. destruct Ht. split; [done|]. split; [done|].
  intros Hc id st Hst Hd. by destruct (ty_announced0 Hc id st Hst Hd).
Qed.
End fresh.

(** The session of [Session.Example]: the client's stream 4 and our stream 1
    are announced, and nothing else. *)
Module Example.
#[local] Existing Instance exact_allocator.
#[local] Existing Instance literal_qpack.
#[local] Existing Instance rfc9651.
#[local] Existing Instance no_history.
Import Session.Example.

Lemma streams_well_typed_witness :
  ∃ w, run_ops ops_open (mkWorld server.1 toy_new server.2 []) = Some ((), w) ∧
    events_typed true (w_ev w) ∧ announced (w_ev w) 4 ∧ announced (w_ev w) 1 ∧
    is_Some (ws_streams (w_ses w) !! 4).
Proof.
  pose proof (streams_well_typed limits limits_usize ops_open server.1 counters server.2
    toy_new [] server_constructed server_memory_wf counters_within counters_accounted) as H.
  apply wp_elim in H as ([] & w & E & _ & H & Ha). exists w. split; [exact E|]. split; [exact H|].
  pose proof (f_equal (fun o => match o with
    | Some (_, w) => (ws_closed (w_ses w), (fun st => is_wt_data (st_role st)) <$> ws_streams (w_ses w) !! 4,
        (fun st => is_wt_data (st_role st)) <$> ws_streams (w_ses w) !! 1)
    | None => (true, None, None) end) E) as Hc. cbv beta iota in Hc.
  match type of Hc with ?a = _ => replace a with (false, Some true, Some true) in Hc
    by (vm_compute; reflexivity) end.
  injection Hc as Hclosed H4 H1. specialize (Ha (eq_sym Hclosed)).
  destruct (ws_streams (w_ses w) !! 4) as [st4|] eqn:E4; [|discriminate].
  destruct (ws_streams (w_ses w) !! 1) as [st1|] eqn:E1; [|discriminate].
  injection H4 as H4. injection H1 as H1.
  split; [exact (Ha 4 st4 E4 (eq_sym H4))|]. split; [exact (Ha 1 st1 E1 (eq_sym H1))|].
  exists st4. reflexivity.
Defined.
End Example.
