(* ===== verification/SessionPressure.v ===== *)
(** * Reading under back-pressure ([crates/native/src/session.rs])

    While too many event batches wait in the JavaScript event loop, the event
    loops call [on_readable] with [backpressured] set.  Application data then
    stays in QUIC, whose flow control slows the peer down, while the CONNECT,
    control and QPACK streams go on: new unidirectional streams are classified
    one byte at a time, so that nothing after the type of a WebTransport stream
    is read. *)

From S2P Require Import Prelude H3 ParserMemory FrameParser Headers Net Quic SessionState.
From S2P Require Import SessionRecv SessionConnect SessionStreams SessionFrame SessionInv SessionCapsule.
From S2P Require Import SessionTable Session SessionTypes.

(** ** Bytewise classification *)

Lemma read_varint_take buf v n :
  read_varint buf = Some (v, n) → read_varint (take n buf) = Some (v, n).
Proof.
  intros (b & tl & t & -> & -> & Ht & Hn & Hlen & ->)%read_varint_cases.
  cbn [length] in Hlen. destruct n as [|n].
  { exfalso. clear -Ht Hn. destruct (tag_cases _ Ht) as [E|[E|[E|E]]]; rewrite E in Hn; by vm_compute in Hn. }
  cbn [take]. unfold read_varint. rewrite <- Hn. cbn [length].
  rewrite length_take, (proj2 (Nat.ltb_ge _ _)) by lia. cbn [Nat.sub]. rewrite Nat.sub_0_r in *.
  by rewrite take_take, Nat.min_id.
Qed.

(** The byte that completes a varint is its last. *)
Lemma read_varint_last buf chunk v n :
  (length chunk <= 1)%nat → (∀ v' n', read_varint buf = Some (v', n') → v' ≠ v) →
  read_varint (buf ++ chunk) = Some (v, n) → drop n (buf ++ chunk) = [].
Proof.
  intros Hc Hb E. apply drop_ge. rewrite length_app.
  destruct (decide (n <= length buf)%nat) as [Hn|]; [|lia]. exfalso.
  pose proof (read_varint_take _ _ _ E) as E1. rewrite take_app_le in E1 by done.
  apply (read_varint_app _ (drop n buf)) in E1. rewrite take_drop in E1. by eapply Hb.
Qed.

Lemma has_bits_inj id a b a' b' :
  has_bits id a b = true → has_bits id a' b' = true → a = a' ∧ b = b'.
Proof. unfold has_bits. rewrite !N.eqb_eq. intros ->. by destruct a, b, a', b'. Qed.

Section pressure.
Context {C : Type} {quic : Quic C} {quic_laws : QuicLaws C}.
Context {alloc : Allocator} {qpack : Qpack} {sfv : Sfv}.
Context (srv : bool).

(** The events allowed: none about a stream of the peer. *)
Definition quiet : Reports := {| reports e := untyped_ev e = true; reports_untyped _ H := H |}.
#[local] Existing Instance quiet.

Lemma class_buf_extend_bytes id chunk st (w : World C) :
  ws_streams (w_ses w) !! id = Some st →
  wlp (class_buf_extend id chunk)
    (fun r _ => ∀ buf, r = Some buf → buf = pb_data (st_class_buf st) ++ chunk) w.
Proof.
  intros Hst. apply wlp_bind, wlp_gets. rewrite Hst. apply wlp_bind. intros [r b] w1. unfold mem, buf_extend.
  destruct (extend_from_slice _ _ _) as [[r' b'] u'] eqn:E. intros [= <- <- <-].
  apply wlp_bind, wlp_modify. apply extend_data in E. destruct r' as [[]|[]].
  - apply wlp_ret. by intros buf [= <-].
  - apply wlp_bind. intros [] w2 _. by apply wlp_ret.
Qed.

Lemma resolve_pending_uni_quiet id chunk fin st (w : World C) :
  typed srv None w → ws_streams (w_ses w) !! id = Some st → st_role st = PendingUni →
  left_unread st = false → (length chunk <= 1)%nat →
  wlp (resolve_pending_uni id chunk fin) (fun _ w' => onward srv None w w') w.
Proof.
  intros Hw Hst Hr Hu Hc. pose proof (ty_roles _ _ _ Hw id st Hst) as Hfit. cbv beta in Hfit.
  rewrite Hr in Hfit. cbn in Hfit.
  assert (Hty : ∀ v n, read_varint (pb_data (st_class_buf st)) = Some (v, n) → v ≠ WT_UNI_STREAM_TYPE).
  { intros v n E ->. unfold left_unread in Hu. by rewrite Hr, E in Hu. }
  apply wlp_bind. eapply wlp_mono.
  { apply wlp_and; [by apply tk_class_buf_extend|by eapply class_buf_extend_bytes]. }
  cbv beta. intros [buf|] w1 [O1 Hbuf]; [|by apply wlp_ret]. specialize (Hbuf buf eq_refl).
  eapply wlp_mono; [apply (tk_apply srv None _ w1); [|apply O1]|].
  2:{ cbv beta. intros _ w2 O2. exact (onward_trans srv None w w1 w2 O1 O2). }
  destruct (read_varint buf) as [[ty n]|] eqn:E; [|tk].
  apply tk_bind; [tk|]. intros streams.
  destruct (ty =? H3_CONTROL_STREAM_TYPE); [tk; by apply tk_set_role|].
  destruct (_ || _); [tk; by apply tk_set_role|].
  destruct (N.eqb_spec ty WT_UNI_STREAM_TYPE) as [->|]; [|by apply tk_set_role].
  unfold resolve_session. rewrite Hbuf in *. rewrite (read_varint_last _ _ _ _ Hc Hty E). cbn [read_varint].
  tk.
Qed.

(** Reading a stream that need not be left in QUIC reports nothing of the
    peer's streams, and does not make it a pending bidirectional one. *)
Definition not_pending_bidi (id : N) (w : World C) : Prop :=
  ∀ st, ws_streams (w_ses w) !! id = Some st → st_role st ≠ PendingBidi.

Lemma process_recv_quiet id chunk fin st (w : World C) :
  typed srv None w → ws_streams (w_ses w) !! id = Some st →
  left_unread st = false → st_role st ≠ PendingBidi →
  (st_role st = PendingUni → (length chunk <= 1)%nat) →
  wlp (process_recv id chunk fin) (fun _ w' => onward srv None w w') w.
Proof.
  intros Hw Hst Hu Hb Hc. apply wlp_bind, wlp_gets. rewrite Hst. cbn [fmap option_fmap option_map].
  unfold left_unread in Hu.
  destruct (st_role st) eqn:Hr; cbn in Hu; try done; try solve [apply tk_apply; [tk; fail|done]].
  eapply resolve_pending_uni_quiet; try done; [|by apply Hc].
  unfold left_unread. by rewrite Hr.
Qed.

Lemma process_recv_not_pending_bidi id chunk fin st (w : World C) :
  typed srv None w → ws_streams (w_ses w) !! id = Some st →
  left_unread st = false → st_role st ≠ PendingBidi →
  (st_role st = PendingUni → (length chunk <= 1)%nat) →
  wlp (process_recv id chunk fin) (fun _ w' => not_pending_bidi id w') w.
Proof.
  intros Hw Hst Hu Hb Hc. destruct (decide (st_role st = Ignored)) as [Hi|Hi].
  - apply wlp_bind, wlp_gets. rewrite Hst. cbn [fmap option_fmap option_map]. rewrite Hi.
    apply wlp_when; intros _.
    + apply wlp_modify. intros st'. cbn. rewrite lookup_alter, decide_True, Hst by done.
      intros [= <-]. cbn. congruence.
    + intros st'. rewrite Hst. intros [= <-]. congruence.
  - eapply wlp_mono; [by eapply process_recv_quiet|]. cbv beta. intros _ w' [Hw' _] st' Hst' Hp.
    pose proof (ty_roles _ _ _ Hw' id st' Hst') as Hf'. cbv beta in Hf'. rewrite Hp in Hf'.
    cbn in Hf'. apply andb_true_iff in Hf' as [Hf' Hne].
    pose proof (ty_roles _ _ _ Hw id st Hst) as Hf. cbv beta in Hf. unfold left_unread in Hu.
    destruct (st_role st) eqn:Hr; cbn in Hf, Hu; try done;
      try (by destruct (has_bits_inj _ _ _ _ _ Hf Hf')).
    by rewrite Hf in Hne.
Qed.

(** What the read loop leaves: a stream that ends with a reset carries no
    application data. *)
Definition reset_quiet (id : N) (e : ReadEnd) (w : World C) : Prop :=
  ∀ code st, e = Broke (Some code) → ws_streams (w_ses w) !! id = Some st →
    is_wt_data (st_role st) = false.

Lemma conn_same {A} (f : C → A * C) (w : World C) :
  wlp (conn f) (fun r w' => r = (f (w_conn w)).1 ∧ w_ses w' = w_ses w) w.
Proof. intros r w'. unfold conn. destruct (f (w_conn w)). by intros [= <- <-]. Qed.

Lemma read_loop_quiet fuel id (w : World C) :
  typed srv None w → not_pending_bidi id w →
  wlp (read_loop fuel id true) (fun e w' => onward srv None w w' ∧ reset_quiet id e w') w.
Proof.
  revert w. induction fuel as [|fuel IH]; intros w Hw Hb; cbn [read_loop]; [apply wlp_panic|].
  apply wlp_bind, wlp_gets, wlp_bind, wlp_unwrap. intros st Hst. cbn [andb].
  destruct (left_unread st) eqn:Hu; [by apply wlp_ret; split; [apply onward_refl|]|]. cbv zeta.
  apply wlp_bind, wlp_gets, wlp_bind. set (final := stream_recv_final_size _ _). clearbody final.
  set (len := if bool_decide _ then 1 else READ_BUF).
  eapply wlp_mono; [apply wlp_and; [by apply tk_conn|apply conn_same]|]. cbv beta.
  intros r w1 (O1 & Er & Es). rewrite <- Es in Hst.
  assert (Hnd : is_wt_data (st_role st) = false) by (unfold left_unread in Hu; by destruct (is_wt_data _)).
  assert (Hend : ∀ e : ReadEnd, onward srv None w w1 ∧ reset_quiet id e w1).
  { intros e. split; [done|]. intros code st'. rewrite Hst. by intros _ [= <-]. }
  destruct r as [[chunk f]|[]]; try (by apply wlp_ret).
  - assert (Hc : st_role st = PendingUni → (length chunk <= 1)%nat).
    { intros Hr. destruct (stream_recv (w_conn w) id len) as [r c'] eqn:E. cbn in Er. subst r.
      apply recv_fits in E. unfold len in E. rewrite bool_decide_true in E by done. unfold lenN in E. lia. }
    apply wlp_bind. eapply wlp_mono.
    { apply wlp_and; [eapply process_recv_quiet|eapply process_recv_not_pending_bidi]; try done; try apply O1;
        apply Hb; by rewrite <- Es. }
    cbv beta. intros _ w2 [O2 Hb2]. apply wlp_bind, wlp_gets.
    pose proof (onward_trans srv None w w1 w2 O1 O2) as O.
    destruct (ws_closed (w_ses w2)); [by apply wlp_ret|]. destruct f; [by apply wlp_ret|].
    case_match; [by apply wlp_ret|].
    eapply wlp_mono; [apply IH; [apply O|done]|]. cbv beta. intros e w3 [O3 Ha].
    split; [|done]. exact (onward_trans srv None w w2 w3 O O3).
  - destruct final as [size|]; [|by apply wlp_ret].
    apply wlp_bind, wlp_gets, wlp_bind, wlp_unwrap. intros st1. rewrite Hst. intros [= <-].
    rewrite Hnd. by apply wlp_ret.
Qed.

Lemma handle_reset_quiet id code (w : World C) :
  typed srv None w → reset_quiet id (Broke (Some code)) w →
  wlp (handle_reset id code) (fun _ w' => onward srv None w w') w.
Proof.
  intros Hw Ha. apply wlp_bind, wlp_gets.
  destruct (ws_streams (w_ses w) !! id) as [st|] eqn:Hst.
  - specialize (Ha code st eq_refl Hst). cbn [fmap option_fmap option_map].
    destruct (st_role st) eqn:Hr; cbn in Ha; try done; (apply tk_apply; [tk|done]).
  - cbn [fmap option_fmap option_map]. apply tk_apply; [tk|done].
Qed.

(** Application data in the sense of [on_readable]'s early returns. *)
Definition app_data (st : Stream) : bool :=
  is_wt_data (st_role st) || bool_decide (st_role st = PendingBidi).

Lemma on_readable_quiet id (w : World C) :
  typed srv None w → wlp (on_readable id true) (fun _ w' => onward srv None w w') w.
Proof.
  intros Hw. apply wlp_bind, wlp_gets. destruct (ws_closed (w_ses w)) eqn:Hc; [by apply tk_ret|].
  apply wlp_bind, wlp_gets, wlp_bind.
  eapply (wlp_mono _ (fun _ w' => onward srv None w w')).
  { destruct (ws_streams (w_ses w) !! id); [by apply tk_ret|by apply discover_typed]. }
  intros _ w1 O1. apply wlp_bind, wlp_gets, wlp_bind, wlp_unwrap. intros st Hst.
  destruct (st_recv_dead st); [by apply wlp_ret|]. rewrite orb_true_r. cbn [andb].
  destruct (is_wt_data (st_role st)) eqn:Hd; [by apply wlp_ret|].
  destruct (bool_decide (st_role st = PendingBidi)) eqn:Hp; [by apply wlp_ret|].
  apply bool_decide_eq_false in Hp.
  apply wlp_bind, wlp_gets, wlp_bind. eapply wlp_mono.
  { apply read_loop_quiet; [apply O1|]. intros st'. rewrite Hst. by intros [= <-]. }
  cbv beta. intros e w2 [O2 Ha]. pose proof (onward_trans srv None w w1 w2 O1 O2) as O.
  destruct e as [|[code|]]; try (by apply wlp_ret).
  eapply wlp_mono; [by apply handle_reset_quiet; [apply O|]|]. cbv beta. intros _ w3 O3.
  exact (onward_trans srv None w w2 w3 O O3).
Qed.

(** *** How far a stream is read

    A read of a stream that need not be left in QUIC, as steps: every chunk QUIC
    yields is processed, until it yields no more, the stream ends or is reset, the
    session closes, or what has been processed shows that the rest is application
    data. *)
Definition read_size (st : Stream) : N := if bool_decide (st_role st = PendingUni) then 1 else READ_BUF.
Definition asks (id : N) (w : World C) (r : result QuicError (bytes * bool)) (w1 : World C) : Prop :=
  ∃ st c, ws_streams (w_ses w) !! id = Some st ∧ left_unread st = false ∧
    stream_recv (w_conn w) id (read_size st) = (r, c) ∧ w1 = w <| w_conn := c |>.

Inductive reads (id : N) : World C → World C → Prop :=
  | reads_held w st : ws_streams (w_ses w) !! id = Some st → left_unread st = true → reads id w w
  | reads_dry w w1 e : asks id w (Err e) w1 → (∀ code, e ≠ StreamReset code) → reads id w w1
  | reads_reset w w1 w2 code :
      asks id w (Err (StreamReset code)) w1 → handle_reset id code w1 = Some ((), w2) → reads id w w2
  | reads_last w w1 w2 d fin :
      asks id w (Ok (d, fin)) w1 → process_recv id d fin w1 = Some ((), w2) →
      ws_closed (w_ses w2) = true ∨ fin = true ∨ d = [] → reads id w w2
  | reads_more w w1 w2 w3 d :
      asks id w (Ok (d, false)) w1 → d ≠ [] → process_recv id d false w1 = Some ((), w2) →
      ws_closed (w_ses w2) = false → reads id w2 w3 → reads id w w3.

Definition after_read (id : N) (e : ReadEnd) : M (World C) () :=
  match e with Broke (Some code) => handle_reset id code | _ => mret () end.

Lemma read_loop_reads fuel id (w : World C) :
  wlp (read_loop fuel id true) (fun e w' => wlp (after_read id e) (fun _ w2 => reads id w w2) w') w.
Proof.
  revert w. induction fuel as [|fuel IH]; intros w; cbn [read_loop]; [apply wlp_panic|].
  apply wlp_bind, wlp_gets, wlp_bind, wlp_unwrap. intros st Hst. cbn [andb].
  destruct (left_unread st) eqn:Hu; [apply wlp_ret, wlp_ret; by eapply reads_held|]. cbv zeta.
  apply wlp_bind, wlp_gets, wlp_bind. set (final := stream_recv_final_size _ _). clearbody final.
  intros r w1 E. unfold conn in E. fold (read_size st) in E.
  destruct (stream_recv (w_conn w) id (read_size st)) as [r' c] eqn:Er. injection E as -> <-.
  assert (Ha : asks id w r (w <| w_conn := c |>)) by (exists st, c; by rewrite Er).
  assert (Hst1 : ws_streams (w_ses (w <| w_conn := c |>)) !! id = Some st) by done.
  set (w1 := w <| w_conn := c |>) in *. clearbody w1. destruct r as [[chunk f]|e].
  - apply wlp_bind. intros [] w2 Ep. apply wlp_bind, wlp_gets.
    destruct (ws_closed (w_ses w2)) eqn:Hc; [apply wlp_ret, wlp_ret; eapply reads_last; eauto|].
    destruct f; [apply wlp_ret, wlp_ret; eapply reads_last; eauto|].
    case_bool_decide; [apply wlp_ret, wlp_ret; eapply reads_last; eauto|].
    eapply wlp_mono; [apply IH|]. cbv beta. intros e w3 H3. eapply wlp_mono; [exact H3|].
    cbv beta. intros _ w4 H4. eapply reads_more; eauto.
  - assert (Hreset : ∀ code, e = StreamReset code → wlp (handle_reset id code) (fun _ w2 => reads id w w2) w1).
    { intros code ->. intros [] w2 E2. by eapply reads_reset. }
    destruct e as [| |code|code|]; try (apply wlp_ret, wlp_ret; by eapply reads_dry).
    destruct final as [size|]; [|by apply wlp_ret, Hreset].
    apply wlp_bind, wlp_gets, wlp_bind, wlp_unwrap. intros st1. rewrite Hst1. intros [= <-].
    unfold left_unread in Hu. apply orb_false_iff in Hu as [-> _]. by apply wlp_ret, Hreset.
Qed.

Lemma on_readable_reads id st (w : World C) :
  ws_streams (w_ses w) !! id = Some st → ws_closed (w_ses w) = false → st_recv_dead st = false →
  app_data st = false → wlp (on_readable id true) (fun _ w' => reads id w w') w.
Proof.
  intros Hst Hc Hd Ha. unfold app_data in Ha. apply orb_false_iff in Ha as [Ha Hp].
  apply wlp_bind, wlp_gets. rewrite Hc. apply wlp_bind, wlp_gets. rewrite Hst. apply wlp_bind, wlp_ret.
  apply wlp_bind, wlp_gets. rewrite Hst. apply wlp_bind, wlp_ret. rewrite Hd, Ha, andb_false_r, Hp.
  apply wlp_bind, wlp_gets, wlp_bind. eapply wlp_mono; [apply read_loop_reads|]. cbv beta. intros e w1 H1. exact H1.
Qed.

(** *** Control streams

    Their role never changes, and reading them makes no difference between
    back-pressure and none. *)
Definition control_stream (st : Stream) : bool :=
  match st_role st with Connect | PeerControl | PeerQpack _ => true | _ => false end.

#[local] Instance any_step : ConnStep C.
Proof. by refine {| quieter _ _ := True |}. Defined.

Record role_stays (id : N) (r : Role) (w : World C) : Prop := mkRoleStays {
  rs_connect i st : ws_streams (w_ses w) !! i = Some st → st_role st = Connect → i = CONNECT_ID;
  rs_role st : ws_streams (w_ses w) !! id = Some st → st_role st = r;
}.

Lemma role_stays_kept id r :
  (id = CONNECT_ID → r = Connect) → unresolved r = false → Kept (role_stays id r).
Proof.
  intros Hid Hr. split.
  - intros w w' [E _ _] [Hc Hrole].
    assert (Hold : ∀ i st', ws_streams (w_ses w') !! i = Some st' →
      ∃ st, ws_streams (w_ses w) !! i = Some st ∧ st_role st = st_role st').
    { intros i st' Hst'. specialize (E i). rewrite Hst' in E.
      destruct (ws_streams (w_ses w) !! i) as [st|]; [|done]. injection E as E _ _ _. by exists st. }
    split; [intros i st' Hst'|intros st' Hst']; apply Hold in Hst' as (st & Hst & <-); eauto.
  - intros w i st H. by apply (rs_connect _ _ _ H).
  - intros w f Hf [Hc Hrole]. split; cbn; [intros i st|intros st]; rewrite lookup_alter; case_decide; eauto.
    subst. destruct (ws_streams (w_ses w) !! _) eqn:E; [|done]. intros [= <-]. rewrite Hf. eauto.
  - intros w st0 Hst0 [Hc Hrole]. split; cbn; [intros i st|intros st]; rewrite lookup_insert; case_decide; eauto.
    intros [= <-]. rewrite Hst0. symmetry. by apply Hid.
  - intros w m Hm [Hc Hrole]. split; cbn; [intros i st Hst|intros st Hst]; apply (lookup_weaken _ _ _ _ Hst) in Hm; eauto.
  - intros w i st0 role Hst0 Hu Hres [Hc Hrole]. split; cbn; [intros j st|intros st]; rewrite lookup_alter; case_decide; eauto.
    + subst. rewrite Hst0. intros [= <-]. cbn. by intros ->.
    + subst. specialize (Hrole _ Hst0). congruence.
Qed.

Lemma read_loop_pressure fuel id r (w : World C) :
  Kept (role_stays id r) → unresolved r = false → is_wt_data r = false → role_stays id r w →
  read_loop fuel id true w = read_loop fuel id false w.
Proof.
  intros Hk Hr Hd. revert w. induction fuel as [|fuel IH]; intros w Hw; cbn [read_loop]; [done|].
  unfold get_stream, ses, gets, mbind, M_bind, unwrap. cbn.
  destruct (ws_streams (w_ses w) !! id) as [st|] eqn:Hst; [|done]. cbn [mret M_ret].
  pose proof (rs_role _ _ _ Hw st Hst) as Hrole. unfold left_unread. rewrite Hrole, Hd.
  rewrite (bool_decide_false (r = PendingUni)) by (by intros ->). cbn [andb orb].
  unfold conn. destruct (stream_recv (w_conn w) id READ_BUF) as [[[d f]|e] c]; [|done].
  destruct (process_recv id d f (w <| w_conn := c |>)) as [[[] w1]|] eqn:Ep; [|done].
  assert (H1 : role_stays id r w1).
  { eapply (run_mt _ _ (mt_process_recv _ id d f)); [|exact Ep]. by apply (blind w). }
  destruct (ws_closed (w_ses w1)); [done|]. destruct f; [done|]. destruct (bool_decide _); [done|]. by apply IH.
Qed.

#[local] Arguments read_loop : simpl never.
Lemma on_readable_pressure id st r (w : World C) :
  role_stays id r w → Kept (role_stays id r) → ws_streams (w_ses w) !! id = Some st → control_stream st = true →
  on_readable id true w = on_readable id false w.
Proof.
  intros Hw Hk Hst Hc. pose proof (rs_role _ _ _ Hw st Hst) as Hr. unfold control_stream in Hc. rewrite Hr in Hc.
  unfold on_readable, get_stream, ses, gets, mbind, M_bind, mret, M_ret, unwrap. cbn.
  destruct (ws_closed (w_ses w)); [done|]. rewrite Hst. cbn. rewrite Hst. cbn.
  destruct (st_recv_dead st); [done|]. rewrite orb_true_r, Hr.
  assert (Hd : is_wt_data r = false) by by destruct r. rewrite Hd, !andb_false_r.
  rewrite (bool_decide_false (r = PendingBidi)) by (by intros ->). cbn [andb].
  by rewrite (read_loop_pressure _ id r w Hk) by (done || by destruct r).
Qed.

Lemma typed_role_stays id st (w : World C) :
  typed srv None w → ws_streams (w_ses w) !! id = Some st → control_stream st = true →
  role_stays id (st_role st) w ∧ Kept (role_stays id (st_role st)).
Proof.
  intros Hw Hst Hc. pose proof (ty_roles _ _ _ Hw) as Hroles. split.
  - split; [|intros st'; rewrite Hst; by intros [= <-]]. intros i st' Hst' Hr. pose proof (Hroles i st' Hst') as Hf.
    cbv beta in Hf. rewrite Hr in Hf. by apply N.eqb_eq in Hf.
  - unfold control_stream in Hc. apply role_stays_kept; [|by destruct (st_role st)]. intros ->.
    pose proof (Hroles CONNECT_ID st Hst) as Hf. cbv beta in Hf. destruct (st_role st); try done; by destruct srv.
Qed.

(** A stream of application data is not touched. *)
Lemma on_readable_untouched id st (w : World C) :
  ws_streams (w_ses w) !! id = Some st → app_data st = true →
  on_readable id true w = Some ((), w).
Proof.
  intros Hst Hd. unfold on_readable, get_stream, ses, gets, mbind, M_bind, mret, M_ret, unwrap. cbn.
  destruct (ws_closed (w_ses w)); [done|]. rewrite Hst. cbn. rewrite Hst. cbn.
  destruct (st_recv_dead st); [done|]. rewrite orb_true_r. unfold app_data in Hd.
  destruct (is_wt_data (st_role st)); [done|]. cbn in Hd. by rewrite Hd.
Qed.
End pressure.

Section fresh.
Context {C : Type} {quic : Quic C} {quic_laws : QuicLaws C}.
Context {alloc : Allocator} {alloc_laws : AllocatorLaws}.
Context {qpack : Qpack} {sfv : Sfv}.
Context (limits : N → N) (limits_usize : ∀ i, limits i < U64).
#[local] Existing Instance no_history.

(** C20: back-pressure holds application data back, and only that.  In any run
    of a fresh session, a read under global back-pressure returns, whatever QUIC
    holds, and reports nothing of the peer's streams (no incoming stream, data,
    end or reset).  A stream known to be application data, or a pending
    bidirectional one, is left exactly as it is, its bytes in QUIC.  Every other
    stream in the table is read on: chunk after chunk is processed until QUIC has
    no more, the stream ends or is reset, the session closes, or a new
    unidirectional stream, which is read byte by byte, has shown the type of
    application data; and the CONNECT, control and QPACK streams are read exactly
    as without back-pressure. *)
Theorem backpressure_withholds_streams (ops : list (SessionOp C)) id s u u' c L :
  constructed s u u' → wf_memory limits (ws_parser_memory s) →
  within limits u → accounted u L →
  wp (run_ops ops) (fun _ w =>
    (∀ st, ws_streams (w_ses w) !! id = Some st → control_stream st = true →
      on_readable id true w = on_readable id false w) ∧
    wp (on_readable id true) (fun _ w' =>
      (∃ evs, w_ev w' = w_ev w ++ evs ∧ Forall (fun e => from_peer_streams e = false) evs) ∧
      (∀ st, ws_streams (w_ses w) !! id = Some st →
        if app_data st then w' = w
        else ws_closed (w_ses w) = false → st_recv_dead st = false → reads id w w')) w)
    (mkWorld s c u' []).
Proof.
  intros Hs Hm Hu Ha. eapply wp_mono.
  { apply wp_of_wlp.
    - apply (run_ops_inv limits limits_usize ops L). by eapply constructed_inv.
    - apply (tk_run_ops (ws_is_server s)). by eapply constructed_typed. }
  cbv beta. intros _ w [Hinv [Ht _]]. split.
  { intros st Hst Hc. destruct (typed_role_stays (ws_is_server s) id st w Ht Hst Hc) as [Hr Hk].
    by apply (on_readable_pressure id st (st_role st)). }
  eapply wp_mono.
  { apply wp_of_wlp; [apply (run_op_inv limits limits_usize (OpReadable id true) L w Hinv)|].
    apply wlp_and; [by apply (on_readable_quiet (ws_is_server s))|].
    instantiate (1 := fun _ w' => ∀ st, ws_streams (w_ses w) !! id = Some st → if app_data st then w' = w
      else ws_closed (w_ses w) = false → st_recv_dead st = false → reads id w w').
    intros a w' E st Hst. destruct (app_data st) eqn:Hd; [|intros Hc Hdead; by apply (on_readable_reads id st w Hst Hc Hdead Hd a w')].
    rewrite (on_readable_untouched id st w Hst Hd) in E. by injection E as _ <-. }
  cbv beta. intros _ w' [_ [[_ (evs & E & F)] H]]. split; [|done]. exists evs. split; [done|].
  eapply Forall_impl; [exact F|]. by intros [].
Qed.
End fresh.

(** A unidirectional stream of the client arrives under back-pressure: two
    bytes of it are read, its type. *)
Module Example.
#[local] Existing Instance exact_allocator.
#[local] Existing Instance literal_qpack.
#[local] Existing Instance rfc9651.
#[local] Existing Instance no_history.
Import Session.Example.

Definition header : bytes := put_varint WT_UNI_STREAM_TYPE.
Definition rest : bytes := put_varint CONNECT_ID ++ s2b "abc".
Definition ops_uni : list (SessionOp ToyConn) :=
  [OpEstablished; OpNetwork (toy_new <| toy_inbox := {[ 6 := (header ++ rest, true) ]} |>)].

Lemma backpressure_withholds_streams_witness :
  ∃ w w', run_ops ops_uni (mkWorld server.1 toy_new server.2 []) = Some ((), w) ∧
    on_readable 6 true w = Some ((), w') ∧
    (∃ evs, w_ev w' = w_ev w ++ evs ∧ Forall (fun e => from_peer_streams e = false) evs) ∧
    toy_inbox (w_conn w') !! 6 = Some (rest, true).
Proof.
  pose proof (backpressure_withholds_streams limits limits_usize ops_uni 6 server.1 counters server.2
    toy_new [] server_constructed server_memory_wf counters_within counters_accounted) as H.
  apply wp_elim in H as ([] & w & E & _ & H). apply wp_elim in H as ([] & w' & E' & H & _).
  exists w, w'. split; [exact E|]. split; [exact E'|]. split; [exact H|].
  assert (E2 : (_ ← run_ops ops_uni; on_readable 6 true) (mkWorld server.1 toy_new server.2 [])
    = Some ((), w')) by (unfold mbind, M_bind; rewrite E; exact E').
  pose proof (f_equal (fun o => match o with Some (_, w) => toy_inbox (w_conn w) !! 6 | None => None end) E2)
    as Hc. cbv beta iota in Hc. rewrite <- Hc. vm_compute. reflexivity.
Defined.
End Example.
