(* ===== verification/SessionCarry.v ===== *)
(** * What leaves a stream of ours alone ([crates/native/src/session.rs])

    A method [carries] the stream [id] when it changes neither its role, its
    queue, nor the bytes QUIC has accepted of it, nor the ids still to be given
    out.  All that a session does on the receiving side carries its own
    streams. *)

From S2P Require Import Prelude H3 ParserMemory FrameParser Headers Net Quic SessionState.
From S2P Require Import SessionRecv SessionConnect SessionStreams SessionSend.

(** ** What leaves the stream alone *)

Create HintDb carry discriminated.
#[export] Hint Constants Opaque : carry.

Section carry.
Context {C : Type} {quic : Quic C} {wire : QuicWire C}.
(** Our stream. *)
Context (id : N).

(** Its role, its queue and the bytes QUIC has accepted of it, and what decides
    the ids of the streams still to be opened. *)
Definition entry (s : WtSession) : option (Role * list OutChunk) :=
  (fun st => (st_role st, st_out st)) <$> ws_streams s !! id.
Definition ids_view (s : WtSession) :=
  (ws_setup_sent s, ws_is_server s, ws_next_bidi s, ws_next_uni s, lenN (ws_pending_opens s)).
Definition view (w : World C) := (entry (w_ses w), accepted (w_conn w) id, ids_view (w_ses w)).

Record carries {A} (m : M (World C) A) : Prop := Carries { run_carries : keeps view m }.

Lemma carries_ret {A} (a : A) : carries (mret a).
Proof. split. apply keeps_ret. Qed.
Lemma carries_bind {A B} (m : M (World C) A) (k : A → M (World C) B) :
  carries m → (∀ a, carries (k a)) → carries (m ≫= k).
Proof. intros [Hm] Hk. split. apply keeps_bind; [done|]. intros a. by destruct (Hk a). Qed.
Lemma carries_gets {A} (f : World C → A) : carries (gets f).
Proof. split. apply keeps_gets. Qed.
Lemma carries_unwrap {A} (o : option A) : carries (unwrap o).
Proof. split. apply keeps_unwrap. Qed.
Lemma carries_panic {A} : carries (@panic (World C) A).
Proof. split. apply keeps_panic. Qed.
Lemma carries_when b m : carries m → carries (when b m).
Proof. intros [H]. split. by apply keeps_when. Qed.
Lemma carries_set_ses f :
  (∀ s, (entry (f s), ids_view (f s)) = (entry s, ids_view s)) → carries (set_ses f).
Proof. intros H. split. apply keeps_modify. intros w. unfold view. cbn. specialize (H (w_ses w)). congruence. Qed.
Lemma carries_push_ev e : carries (push_ev e).
Proof. split. by apply keeps_modify. Qed.
Lemma carries_mem {A} (m : M Usage A) : carries (mem m).
Proof. split. intros w a w'. unfold mem. destruct (m (w_mem w)) as [[b u]|]; [|done]. by intros [= <- <-]. Qed.
Lemma carries_conn {A} (f : C → A * C) :
  (∀ c, accepted (f c).2 id = accepted c id) → carries (conn f).
Proof.
  intros H. split. intros w a w'. unfold conn. specialize (H (w_conn w)). destruct (f (w_conn w)).
  intros [= <- <-]. unfold view. cbn in *. by rewrite H.
Qed.
Lemma carries_conn_ f : (∀ c, accepted (f c) id = accepted c id) → carries (conn_ f).
Proof. intros H. split. apply keeps_modify. intros w. unfold view. cbn. by rewrite H. Qed.

(** A stream changes in other respects, or another stream does. *)
Lemma carries_with_stream id' f :
  (∀ st, (st_role (f st), st_out (f st)) = (st_role st, st_out st)) ∨ id' ≠ id →
  carries (with_stream id' f).
Proof.
  intros H. apply carries_set_ses. intros s. unfold entry. cbn. f_equal. rewrite lookup_alter.
  case_decide; [|done]. subst. destruct H; [|done]. destruct (ws_streams s !! id); [|done].
  cbn. by f_equal.
Qed.
Lemma carries_insert_stream id' st : id' ≠ id → carries (insert_stream id' st).
Proof.
  intros Hne. apply carries_bind; [apply carries_gets|]. intros old. apply carries_bind.
  - apply carries_set_ses. intros s. unfold entry. cbn. by rewrite lookup_insert_ne.
  - intros _. destruct old; [apply carries_mem|apply carries_ret].
Qed.
Lemma carries_remove_stream id' : id' ≠ id → carries (remove_stream id').
Proof.
  intros Hne. apply carries_bind; [apply carries_gets|]. intros old. apply carries_bind.
  - apply carries_set_ses. intros s. unfold entry. cbn. by rewrite lookup_delete_ne.
  - intros _. destruct old; [apply carries_mem|apply carries_ret].
Qed.
End carry.

#[export] Hint Resolve recv_accepted dgram_recv_accepted dgram_send_accepted export_accepted
  shutdown_accepted close_accepted : core.

(** Follow the structure of a method, as [keep] does. *)
Ltac carry_step :=
  lazymatch goal with
  | |- carries _ (mbind _ _) => apply carries_bind; [|intros ?]
  | |- carries _ (mret _) => apply carries_ret
  | |- carries _ (ses _) => apply carries_gets
  | |- carries _ (get_stream _) => apply carries_gets
  | |- carries _ (gets _) => apply carries_gets
  | |- carries _ (set_ses _) => apply carries_set_ses; intros ?; try reflexivity
  | |- carries _ (with_stream _ _) =>
      apply carries_with_stream; first [left; intros ?; reflexivity|right; assumption]
  | |- carries _ (remove_stream _) => apply carries_remove_stream; assumption
  | |- carries _ (insert_stream _ _) => apply carries_insert_stream; assumption
  | |- carries _ (push_ev _) => apply carries_push_ev
  | |- carries _ (mem _) => apply carries_mem
  | |- carries _ (conn _) => apply carries_conn; intros ?; auto
  | |- carries _ (conn_ _) => apply carries_conn_; intros ?; auto
  | |- carries _ (unwrap _) => apply carries_unwrap
  | |- carries _ panic => apply carries_panic
  | |- carries _ (when _ _) => apply carries_when
  | |- carries _ (match ?x with _ => _ end) => destruct x
  | |- carries _ (let _ := _ in _) => cbv zeta
  | |- carries _ _ => solve [eauto with carry]
  end.
Ltac carry := repeat carry_step.

(** ** The receiving side *)

Section receive.
Context {C : Type} {quic : Quic C} {wire : QuicWire C} {alloc : Allocator} {qpack : Qpack} {sfv : Sfv}.
Context (id : N) (not_connect : CONNECT_ID ≠ id).

Lemma clear_streams_lookup l u l' u' :
  clear_streams l u = Some (l', u') →
  (fun st => (st_role st, st_out st)) <$> (list_to_map l' : gmap N Stream) !! id =
  (fun st => (st_role st, st_out st)) <$> (list_to_map l : gmap N Stream) !! id.
Proof.
  revert u l'. induction l as [|[i st] l IH]; intros u l'; cbn [clear_streams]; [by intros [= <- <-]|].
  unfold clear_stream, mbind, M_bind. destruct (buf_clear _ u) as [[b1 u1]|]; [|done].
  destruct (buf_clear _ u1) as [[b2 u2]|]; [|done]. cbn.
  destruct (clear_streams l u2) as [[l1 u3]|] eqn:E; [|done]. intros [= <- <-]. cbn.
  rewrite !lookup_insert. case_decide; [done|]. by apply (IH u2).
Qed.

Lemma mark_closed_carries code reason remote : carries (C := C) id (mark_closed code reason remote).
Proof.
  unfold mark_closed. carry_step; [carry|]. destruct a; [carry|]. do 4 (carry_step; [carry|]).
  split. intros w. apply wlp_bind, wlp_gets, wlp_bind. intros l w1. unfold mem.
  destruct (clear_streams _ _) as [[l' u]|] eqn:E; [|done]. intros [= <- <-].
  apply wlp_bind, wlp_modify, wlp_modify. unfold view, entry. cbn.
  rewrite (clear_streams_lookup _ _ _ _ E). by rewrite list_to_map_to_list.
Qed.
#[local] Hint Resolve mark_closed_carries : carry.

Lemma parser_limit_exceeded_carries : carries (C := C) id parser_limit_exceeded.
Proof. unfold parser_limit_exceeded. carry. Qed.
Lemma flow_error_carries message : carries (C := C) id (flow_error message).
Proof. unfold flow_error. carry. Qed.
Lemma protocol_error_carries code message : carries (C := C) id (protocol_error code message).
Proof. unfold protocol_error. carry. Qed.
Lemma frame_error_carries i : carries (C := C) id (frame_error i).
Proof. unfold frame_error. carry. Qed.
Lemma class_buf_clear_carries i : carries (C := C) id (class_buf_clear i).
Proof. unfold class_buf_clear. carry. Qed.
Lemma frames_clear_carries i : carries (C := C) id (frames_clear i).
Proof. unfold frames_clear. carry. Qed.
Lemma frames_push_carries i chunk : carries (C := C) id (frames_push i chunk).
Proof. unfold frames_push. carry. Qed.
Lemma frames_next_carries i : carries (C := C) id (frames_next i).
Proof. unfold frames_next. carry. Qed.
#[local] Hint Resolve parser_limit_exceeded_carries flow_error_carries protocol_error_carries
  frame_error_carries class_buf_clear_carries frames_clear_carries frames_push_carries
  frames_next_carries : carry.
Lemma kill_recv_carries i : carries (C := C) id (kill_recv i).
Proof. unfold kill_recv. carry. Qed.
Lemma account_incoming_carries bidi : carries (C := C) id (account_incoming bidi).
Proof. unfold account_incoming. carry. Qed.
Lemma account_receive_carries i amount : carries (C := C) id (account_receive i amount).
Proof. unfold account_receive. carry. Qed.
Lemma push_out_carries i chunk : i ≠ id → carries (C := C) id (push_out i chunk).
Proof. intros Hi. unfold push_out. carry. Qed.
#[local] Hint Resolve kill_recv_carries account_incoming_carries account_receive_carries
  push_out_carries : carry.

(** *** Capsules and the CONNECT exchange *)

Lemma handle_flow_capsule_carries ty value : carries (C := C) id (handle_flow_capsule ty value).
Proof. unfold handle_flow_capsule, raise_limit. carry. Qed.
#[local] Hint Resolve handle_flow_capsule_carries : carry.
Lemma handle_capsule_carries ty value : carries (C := C) id (handle_capsule ty value).
Proof. unfold handle_capsule. carry. Qed.
#[local] Hint Resolve handle_capsule_carries : carry.
Lemma scan_loop_carries fuel : carries (C := C) id (scan_loop fuel).
Proof. induction fuel; cbn [scan_loop]; carry. Qed.
#[local] Hint Resolve scan_loop_carries : carry.
Lemma scan_capsules_carries payload : carries (C := C) id (scan_capsules payload).
Proof. unfold scan_capsules. carry. Qed.
Lemma reject_connect_carries i status : i ≠ id → carries (C := C) id (reject_connect i status).
Proof. intros Hi. unfold reject_connect. carry. Qed.
#[local] Hint Resolve scan_capsules_carries reject_connect_carries : carry.
Lemma accept_connect_carries i headers : i ≠ id → carries (C := C) id (accept_connect i headers).
Proof. intros Hi. unfold accept_connect. carry. Qed.
#[local] Hint Resolve accept_connect_carries : carry.
Lemma server_connect_loop_carries fuel i : i ≠ id → carries (C := C) id (server_connect_loop fuel i).
Proof. intros Hi. induction fuel; cbn [server_connect_loop]; carry. Qed.
#[local] Hint Resolve server_connect_loop_carries : carry.
Lemma parse_server_connect_frames_carries i :
  i ≠ id → carries (C := C) id (parse_server_connect_frames i).
Proof. intros Hi. unfold parse_server_connect_frames. carry. Qed.
Lemma queue_connect_carries : carries (C := C) id queue_connect.
Proof. unfold queue_connect. carry. Qed.
Lemma handle_response_carries headers : carries (C := C) id (handle_response headers).
Proof. unfold handle_response. carry. Qed.
#[local] Hint Resolve parse_server_connect_frames_carries queue_connect_carries
  handle_response_carries : carry.
Lemma connect_loop_carries fuel i : carries (C := C) id (connect_loop fuel i).
Proof. induction fuel; cbn [connect_loop]; carry. Qed.
#[local] Hint Resolve connect_loop_carries : carry.
Lemma apply_peer_settings_carries settings : carries (C := C) id (apply_peer_settings settings).
Proof. unfold apply_peer_settings. carry. Qed.
#[local] Hint Resolve apply_peer_settings_carries : carry.
Lemma handle_control_frame_carries i ty payload first :
  carries (C := C) id (handle_control_frame i ty payload first).
Proof. unfold handle_control_frame. carry. Qed.
#[local] Hint Resolve handle_control_frame_carries : carry.
Lemma control_loop_carries fuel i : carries (C := C) id (control_loop fuel i).
Proof. induction fuel; cbn [control_loop]; carry. Qed.
#[local] Hint Resolve control_loop_carries : carry.
Lemma process_peer_control_carries i chunk fin :
  carries (C := C) id (process_peer_control i chunk fin).
Proof. unfold process_peer_control, parse_control_frames. carry. Qed.
Lemma process_connect_carries i chunk fin :
  i ≠ id → carries (C := C) id (process_connect i chunk fin).
Proof. intros Hi. unfold process_connect, parse_connect_frames. carry. Qed.
#[local] Hint Resolve process_peer_control_carries process_connect_carries : carry.

(** *** Streams from the peer *)

Lemma class_buf_extend_carries i chunk : carries (C := C) id (class_buf_extend i chunk).
Proof. unfold class_buf_extend. carry. Qed.
Lemma set_role_carries i role : i ≠ id → carries (C := C) id (set_role i role).
Proof. intros Hi. unfold set_role. carry. Qed.
#[local] Hint Resolve class_buf_extend_carries set_role_carries : carry.
Lemma resolve_session_carries i bidi buf n fin :
  i ≠ id → carries (C := C) id (resolve_session i bidi buf n fin).
Proof. intros Hi. unfold resolve_session, refuse_stream, resolve_wt_data. carry. Qed.
#[local] Hint Resolve resolve_session_carries : carry.
Lemma resolve_pending_uni_carries i chunk fin :
  i ≠ id → carries (C := C) id (resolve_pending_uni i chunk fin).
Proof. intros Hi. unfold resolve_pending_uni. carry. Qed.
Lemma resolve_pending_bidi_carries i chunk fin :
  i ≠ id → carries (C := C) id (resolve_pending_bidi i chunk fin).
Proof. intros Hi. unfold resolve_pending_bidi, refuse_stream. carry. Qed.
#[local] Hint Resolve resolve_pending_uni_carries resolve_pending_bidi_carries : carry.

Lemma process_recv_other i chunk fin : i ≠ id → carries (C := C) id (process_recv i chunk fin).
Proof. intros Hi. unfold process_recv. carry. Qed.

Definition has_data_role (w : World C) : Prop :=
  ∃ st, ws_streams (w_ses w) !! id = Some st ∧ is_wt_data (st_role st) = true.

Lemma carries_data_role (w w' : World C) : view id w' = view id w → has_data_role w → has_data_role w'.
Proof.
  intros [= E _ _] (st & Hst & Hd). unfold entry in E. rewrite Hst in E. cbn in E.
  destruct (ws_streams (w_ses w') !! id) as [st'|] eqn:Hst'; [|done]. injection E as E _.
  exists st'. split; [done|congruence].
Qed.

Lemma process_recv_carries i chunk fin (w : World C) :
  has_data_role w → wlp (process_recv i chunk fin) (fun _ w' => view id w' = view id w) w.
Proof.
  intros (st & Hst & Hd). destruct (decide (i = id)) as [->|Hi]; [|by apply (run_carries id), process_recv_other].
  apply wlp_bind, wlp_gets. rewrite Hst. cbn [fmap option_fmap option_map].
  destruct (st_role st); try done. apply (run_carries id). carry.
Qed.

Lemma read_loop_carries fuel i backpressured (w : World C) :
  has_data_role w → wlp (read_loop fuel i backpressured) (fun _ w' => view id w' = view id w) w.
Proof.
  revert w. induction fuel as [|fuel IH]; intros w Hw; cbn [read_loop]; [apply wlp_panic|].
  apply wlp_bind, wlp_gets, wlp_bind, wlp_unwrap. intros st Hst. case_match; [by apply wlp_ret|].
  cbv zeta. apply wlp_bind, wlp_gets, wlp_bind.
  eapply wlp_mono; [apply (run_carries id), carries_conn; auto|]. cbv beta. intros r w1 E1.
  pose proof (carries_data_role _ _ E1 Hw) as Hw1.
  destruct r as [[chunk f]|[]]; try (by apply wlp_ret).
  - apply wlp_bind. eapply wlp_mono; [by apply process_recv_carries|]. cbv beta. intros _ w2 E2.
    rewrite E1 in E2. apply wlp_bind, wlp_gets. repeat (case_match; [by apply wlp_ret|]).
    eapply wlp_mono; [apply IH; by eapply carries_data_role|]. cbv beta. congruence.
  - rewrite <- E1. apply (run_carries id). carry.
Qed.

Lemma on_readable_carries i backpressured (w : World C) :
  has_data_role w → wlp (on_readable i backpressured) (fun _ w' => view id w' = view id w) w.
Proof.
  intros Hw. apply wlp_bind, wlp_gets. case_match; [by apply wlp_ret|].
  apply wlp_bind, wlp_gets, wlp_bind. eapply (wlp_mono _ (fun _ w' => view id w' = view id w)).
  { destruct (ws_streams (w_ses w) !! i) eqn:Hi; [by apply wlp_ret|].
    assert (i ≠ id) by (intros ->; destruct Hw as (? & ? & _); congruence).
    apply (run_carries id). carry. }
  intros _ w1 E1. pose proof (carries_data_role _ _ E1 Hw) as Hw1. rewrite <- E1.
  apply wlp_bind, wlp_gets, wlp_bind, wlp_unwrap. intros st Hst.
  do 3 (case_match; [by apply wlp_ret|]). apply wlp_bind, wlp_gets, wlp_bind.
  eapply wlp_mono; [by apply read_loop_carries|]. cbv beta. intros e w2 E2. rewrite <- E2.
  apply (run_carries id). unfold handle_reset. carry.
Qed.

Lemma dgram_loop_carries fuel : carries (C := C) id (dgram_loop fuel).
Proof. induction fuel; cbn [dgram_loop]; carry. Qed.
#[local] Hint Resolve dgram_loop_carries : carry.
Lemma on_datagrams_carries : carries (C := C) id on_datagrams.
Proof. unfold on_datagrams. carry. Qed.
Lemma send_datagram_carries data rid : carries (C := C) id (send_datagram data rid).
Proof. unfold send_datagram. carry. Qed.
End receive.
