(* ===== verification/SessionTransfer.v ===== *)
(** * A stream from one application to the other ([crates/native/src/session.rs])

    One stream of ours, from the call that opens it to the peer's application:
    whatever else the session does meanwhile, QUIC is handed the stream's signal
    and then the application's writes, in order, without loss or duplication;
    and a peer that is sent those bytes delivers the writes. *)

From S2P Require Import Prelude H3 ParserMemory FrameParser Headers Net Quic SessionState.
From S2P Require Import SessionRecv SessionConnect SessionStreams SessionSend SessionFrame SessionInv.
From S2P Require Import SessionRecvInv SessionSendInv SessionWire SessionReassembly Session SessionTypes.
From S2P Require Import SessionCarry.

(** ** The sending side *)

Section send.
Context {C : Type} {quic : Quic C} {quic_laws : QuicLaws C} {wire : QuicWire C}.
Context {alloc : Allocator} {alloc_laws : AllocatorLaws}.
(** Our stream, and who we are. *)
Context (id : N) (bidi srv : bool) (not_connect : CONNECT_ID ≠ id) (id_bits : has_bits id srv bidi = true).

(** The ids still to be given out are others: [p] more opens than those that
    wait do not reach the end of the id space. *)
Record ahead (p : N) (s : WtSession) : Prop := mkAhead {
  ah_setup : ws_setup_sent s = true;
  ah_server : ws_is_server s = srv;
  ah_bits b : has_bits (next_id b s) srv b = true;
  ah_next : id < next_id bidi s;
  ah_room : next_id bidi s + 4 * (p + lenN (ws_pending_opens s)) < U64;
}.

(** [W] is what the application wants sent, the signal included: accepted by
    QUIC or still queued. *)
Definition sending (W : bytes) (w : World C) : Prop :=
  ∃ st, ws_streams (w_ses w) !! id = Some st ∧ st_role st = WtData bidi ∧
    accepted (w_conn w) id ++ unsent (st_out st) = W.

Lemma ahead_ids p s s' : ids_view s' = ids_view s → ahead p s → ahead p s'.
Proof.
  intros [= E1 E2 E3 E4 E5] [a1 as_ a2 a3 a4].
  assert (En : ∀ b, next_id b s' = next_id b s) by (intros []; done).
  constructor; [congruence|congruence|intros b; by rewrite En|by rewrite En|by rewrite En, E5].
Qed.
Lemma ahead_less p p' s : p' <= p → ahead p s → ahead p' s.
Proof. intros Hp []. constructor; try done. lia. Qed.

Lemma sending_view W (w w' : World C) : view id w' = view id w → sending W w → sending W w'.
Proof.
  intros [= E Ea _] (st & Hst & Hr & HW). unfold entry in E. rewrite Hst in E. cbn in E.
  destruct (ws_streams (w_ses w') !! id) as [st'|] eqn:Hst'; [|done]. injection E as Er Eo.
  exists st'. split; [done|]. split; [congruence|]. by rewrite Ea, Eo.
Qed.
Lemma ahead_view p (w w' : World C) : view id w' = view id w → ahead p (w_ses w) → ahead p (w_ses w').
Proof. intros [= _ _ E1 E2 E3 E4 E5]. apply ahead_ids. unfold ids_view. congruence. Qed.
Lemma sending_data_role W (w : World C) : sending W w → has_data_role id w.
Proof. intros (st & Hst & Hr & _). exists st. by rewrite Hr. Qed.

(** Under way: [sending], with [p] opens to come. *)
Definition underway (p : N) (W : bytes) (w : World C) : Prop := ahead p (w_ses w) ∧ sending W w.

Lemma underway_view p W (w w' : World C) : view id w' = view id w → underway p W w → underway p W w'.
Proof. intros E []. split; [by eapply ahead_view|by eapply sending_view]. Qed.
Lemma underway_carries {A} p W (m : M (World C) A) (w : World C) :
  carries id m → underway p W w → wlp m (fun _ w' => underway p W w') w.
Proof. intros [H] Hw. eapply wlp_mono; [apply H|]. cbv beta. intros _ w' E. by eapply underway_view. Qed.

(** *** Opening other streams *)

Lemma next_other b p s : ahead p s → next_id b s ≠ id.
Proof.
  intros [_ _ H2 H3 _] E. destruct (decide (b = bidi)) as [->|Hb]; [lia|].
  specialize (H2 b). rewrite E in H2. unfold has_bits in *. apply N.eqb_eq in H2, id_bits.
  rewrite id_bits in H2. by destruct srv, b, bidi.
Qed.

Lemma allocate_stream_underway b rid p W (w : World C) :
  underway (1 + p) W w → wlp (allocate_stream b rid) (fun _ w' => underway p W w') w.
Proof.
  intros [Ha Hs]. pose proof (next_other b _ _ Ha) as Hne. unfold allocate_stream.
  apply wlp_bind, wlp_gets, wlp_bind, wlp_modify. set (w1 := _ <| w_ses ::= _ |>).
  assert (H1 : underway p W w1).
  { split; [|by destruct b]. destruct Ha as [a1 as_ a2 a3 a4].
    assert (Hadd : ∀ n, n = next_id bidi (w_ses w) → add64 n 4 = n + 4).
    { intros n ->. apply add64_small. lia. }
    constructor; [by destruct b|by destruct b|intros b'; specialize (a2 b')|..];
      destruct b; try destruct b'; destruct bidi; cbn in *; rewrite ?has_bits_next, ?Hadd by done;
      first [done|lia]. }
  clearbody w1. apply wlp_bind, wlp_gets. eapply underway_carries; [|exact H1]. carry.
Qed.

Lemma release_loop_underway pending p W (w : World C) :
  underway (lenN pending + p) W w → wlp (release_loop pending) (fun _ w' => underway p W w') w.
Proof.
  revert w. induction pending as [|[b rid] pending IH]; intros w Hw; cbn [release_loop];
    [by apply wlp_ret|].
  apply wlp_bind, wlp_gets, wlp_bind. eapply (wlp_mono _ (fun _ w' => underway (lenN pending + p) W w')).
  - destruct (open_blocked _ _).
    + apply wlp_modify. destruct Hw as [[a1 as_ a2 a3 a4] Hs]. split; [|exact Hs].
      constructor; try done. cbn. unfold next_id in *. cbn in *. rewrite lenN_app, lenN_cons, lenN_nil.
      rewrite lenN_cons in a4. lia.
    + apply allocate_stream_underway. rewrite lenN_cons in Hw. by rewrite N.add_assoc.
  - intros _ w1 H1. by apply IH.
Qed.

Lemma release_pending_opens_underway p W (w : World C) :
  underway p W w → wlp release_pending_opens (fun _ w' => underway p W w') w.
Proof.
  intros Hw. unfold release_pending_opens. apply wlp_bind, wlp_gets. case_match; [by apply wlp_ret|].
  apply wlp_bind, wlp_gets, wlp_bind, wlp_modify. apply release_loop_underway.
  destruct Hw as [[a1 as_ a2 a3 a4] Hs]. split; [|exact Hs]. constructor; try done.
  cbn. unfold next_id in *. cbn in *. rewrite lenN_nil. lia.
Qed.

Lemma open_stream_underway b rid p W (w : World C) :
  underway (1 + p) W w → wlp (open_stream b rid) (fun _ w' => underway p W w') w.
Proof.
  intros [[a1 as_ a2 a3 a4] Hs]. apply wlp_bind, wlp_modify. apply release_pending_opens_underway.
  split; [|exact Hs]. constructor; try done. cbn. unfold next_id in *. cbn in *.
  rewrite lenN_app, lenN_cons, lenN_nil. lia.
Qed.

(** *** Commands *)

#[local] Hint Resolve push_out_carries : carry.

Lemma push_out_sending chunk W (w : World C) :
  oc_off chunk = O → sending W w → wlp (push_out id chunk) (fun _ w' => sending (W ++ oc_data chunk) w') w.
Proof.
  intros Hoff (st & Hst & Hr & HW). apply wlp_modify.
  exists (st <| st_out ::= fun out => out ++ [chunk] |>). cbn.
  rewrite lookup_alter, decide_True, Hst by done. split; [done|]. split; [done|].
  rewrite <- HW. unfold unsent. rewrite map_app, concat_app, app_assoc. cbn. by rewrite Hoff, app_nil_r.
Qed.

Definition written_by (i : N) (data : bytes) : bytes := if decide (i = id) then data else [].

Lemma stream_write_underway i data rid p W (w : World C) :
  underway p W w →
  wlp (stream_write i data rid) (fun _ w' => underway p (W ++ written_by i data) w') w.
Proof.
  intros [Ha Hs]. unfold written_by. destruct (decide (i = id)) as [->|Hi].
  - apply wlp_bind, wlp_gets. pose proof Hs as (st & -> & _).
    eapply wlp_mono; [apply wlp_and; [by apply push_out_sending|]|].
    + apply (wlp_keeps (of_ses ids_view)). unfold push_out. keep.
    + cbv beta. intros _ w' [Hs' E]. split; [by eapply ahead_ids|done].
  - rewrite app_nil_r. apply underway_carries; [|done]. unfold stream_write. carry.
Qed.

Lemma reconcile_carries i : carries (C := C) id (reconcile_send_final_size i).
Proof. unfold reconcile_send_final_size. carry. Qed.
#[local] Hint Resolve reconcile_carries : carry.
Lemma stream_reset_carries i code : i ≠ id → carries (C := C) id (stream_reset i code).
Proof. intros Hi. unfold stream_reset. carry. Qed.
Lemma stream_stop_sending_carries i code : carries (C := C) id (stream_stop_sending i code).
Proof. unfold stream_stop_sending. carry. Qed.
Lemma send_drain_carries : carries (C := C) id send_drain.
Proof. unfold send_drain. carry. Qed.

(** *** The flush *)

Lemma queue_session_capsule_carries ty value : carries (C := C) id (queue_session_capsule ty value).
Proof. unfold queue_session_capsule. carry. Qed.
#[local] Hint Resolve queue_session_capsule_carries : carry.
Lemma flush_terminal_error_carries : carries (C := C) id flush_terminal_error.
Proof. unfold flush_terminal_error. carry. Qed.
Lemma grant_credit_carries : carries (C := C) id grant_credit.
Proof. unfold grant_credit. carry. Qed.
Lemma replenish_credit_carries : carries (C := C) id replenish_credit.
Proof. unfold replenish_credit, replenish_data, replenish_streams. carry. Qed.
Lemma queue_close_capsule_carries : carries (C := C) id queue_close_capsule.
Proof. unfold queue_close_capsule. carry. Qed.
Lemma signal_blocked_carries : carries (C := C) id signal_flow_control_blocked.
Proof.
  unfold signal_flow_control_blocked, signal_data_blocked, signal_streams_blocked. carry.
  all: by destruct bidi.
Qed.
Lemma drive_quic_close_carries : carries (C := C) id drive_quic_close.
Proof. unfold drive_quic_close. carry. Qed.

(** The peer has stopped the stream: what was accepted is a beginning. *)
Definition stopped (W : bytes) (w : World C) : Prop :=
  accepted (w_conn w) id `prefix_of` W ∧ ∃ code, EvStreamStopSending id code ∈ w_ev w.
Definition emptied (w : World C) : Prop :=
  ∃ st, ws_streams (w_ses w) !! id = Some st ∧ st_role st = WtData bidi ∧ unsent (st_out st) = [].

(** A flush of one stream, ours or another. *)
Lemma flush_stream_absent i n (w : World C) :
  ws_streams (w_ses w) !! i = None → flush_stream i n w = Some (n, w).
Proof.
  intros Hi. unfold flush_stream, reconcile_send_final_size, get_stream, ses, gets, mbind, M_bind, mret, M_ret.
  cbn. rewrite Hi. destruct (stream_send_final_size _ _); cbn; by rewrite Hi.
Qed.

(** Flushing changes no role and opens nothing. *)
Definition roles_view (s : WtSession) := (st_role <$> ws_streams s !! id, ids_view s).
Lemma roles_alter f i s :
  (∀ st, st_role (f st) = st_role st) → roles_view (s <| ws_streams ::= alter f i |>) = roles_view s.
Proof.
  intros Hf. unfold roles_view. cbn. rewrite lookup_alter. case_decide; [|done]. subst.
  destruct (ws_streams s !! id); [|done]. cbn. by rewrite Hf.
Qed.
Abbreviation keeps_roles m := (keeps (of_ses (C := C) roles_view) m).
Ltac keep_roles := keep; try (by apply roles_alter).

Lemma reconcile_roles i : keeps_roles (reconcile_send_final_size i).
Proof. unfold reconcile_send_final_size. keep_roles. Qed.
Lemma ack_all_roles out : keeps_roles (ack_all out).
Proof. induction out; cbn [ack_all]; keep_roles. Qed.
#[local] Hint Resolve reconcile_roles ack_all_roles : keeps.
Lemma send_front_roles i enforce is_wt front rest n : keeps_roles (send_front i enforce is_wt front rest n).
Proof. unfold send_front. keep_roles. Qed.
#[local] Hint Resolve send_front_roles : keeps.
Lemma flush_loop_roles fuel i enforce is_wt n : keeps_roles (flush_loop fuel i enforce is_wt n).
Proof. revert n. induction fuel; intros n; cbn [flush_loop]; keep_roles. Qed.
#[local] Hint Resolve flush_loop_roles : keeps.
Lemma flush_stream_roles i n : keeps_roles (flush_stream i n).
Proof. unfold flush_stream. keep_roles. Qed.

(** After a flush of any stream ours is still under way, or the peer has
    stopped it. *)
Definition flushing (p : N) (W : bytes) (w : World C) : Prop :=
  underway p W w ∨ stopped W w ∧ emptied w.

Lemma emptied_view (w w' : World C) : view id w' = view id w → emptied w → emptied w'.
Proof.
  intros [= E _ _] (st & Hst & Hr & Ho). unfold entry in E. rewrite Hst in E. cbn in E.
  destruct (ws_streams (w_ses w') !! id) as [st'|] eqn:Hst'; [|done]. injection E as E1 E2.
  exists st'. split; [done|]. split; [congruence|by rewrite E2].
Qed.
Lemma stopped_same W (w w' : World C) evs :
  accepted (w_conn w') id = accepted (w_conn w) id → w_ev w' = w_ev w ++ evs →
  stopped W w → stopped W w'.
Proof.
  intros Ea Ee [Hp [code Hc]]. split; [by rewrite Ea|]. exists code. rewrite Ee. set_solver.
Qed.

(** The stream flushed is another. *)
Lemma flush_other i st' sent p W (w w' : World C) evs :
  i ≠ id → only_stream i st' sent w w' → ids_view (w_ses w') = ids_view (w_ses w) →
  w_ev w' = w_ev w ++ evs → flushing p W w → flushing p W w'.
Proof.
  intros Hi [os oa _] Hids Hev Hf.
  assert (Ev : view id w' = view id w).
  { unfold view, entry. rewrite os, lookup_insert_ne, oa, decide_False, app_nil_r by done. by rewrite Hids. }
  destruct Hf as [Hu|[Hs He]]; [left; by eapply underway_view|right].
  split; [|by eapply emptied_view]. eapply stopped_same; [|done..]. by injection Ev.
Qed.

(** It is ours. *)
Lemma flush_ours st st' sent acked e evs p W (w w' : World C) :
  only_stream id st' sent w w' → sends id st st' sent acked e evs →
  ws_streams (w_ses w) !! id = Some st → st_role st' = st_role st →
  ids_view (w_ses w') = ids_view (w_ses w) → w_ev w' = w_ev w ++ evs →
  flushing p W w → flushing p W w'.
Proof.
  intros [os oa _] [_ Hs] Hst Hrole Hids Hev Hf. specialize (oa id). rewrite decide_True in oa by done.
  assert (Hst' : ws_streams (w_ses w') !! id = Some st') by (by rewrite os, lookup_insert, decide_True).
  destruct Hf as [[Ha (st0 & Hst0 & Hr & HW)]|[Hstop (st0 & Hst0 & Hr & Ho)]];
    rewrite Hst in Hst0; injection Hst0 as <-.
  - destruct e as [|code settled].
    + destruct Hs as (Hu & _ & _). left. split; [by eapply ahead_ids|]. exists st'. split; [done|].
      split; [congruence|]. by rewrite oa, <- app_assoc, <- Hu.
    + destruct Hs as (Ho & _ & Hpre & _ & ->). right. split; [split|].
      * rewrite oa, <- HW. by apply prefix_app.
      * exists code. rewrite Hev. set_solver.
      * exists st'. split; [done|]. split; [congruence|by rewrite Ho].
  - assert (Hsent : sent = [] ∧ unsent (st_out st') = []).
    { rewrite Ho in Hs. destruct e as [|code settled].
      - destruct Hs as (Hu & _). symmetry in Hu. by apply app_eq_nil in Hu.
      - destruct Hs as (Ho' & _ & Hpre & _). split; [by apply prefix_nil_inv in Hpre|by rewrite Ho']. }
    destruct Hsent as [-> Ho']. rewrite app_nil_r in oa. right. split; [by eapply stopped_same|].
    exists st'. split; [done|]. split; [congruence|done].
Qed.

Lemma flush_stream_flushing i n p W (w : World C) :
  map_Forall (fun _ st => Forall chunk_ok (st_out st)) (ws_streams (w_ses w)) →
  flushing p W w → wp (flush_stream i n) (fun _ w' => flushing p W w') w.
Proof.
  intros Hok Hf. destruct (ws_streams (w_ses w) !! i) as [sti|] eqn:Hi.
  2:{ unfold wp. rewrite flush_stream_absent by done. exact Hf. }
  eapply wp_mono; [apply wp_of_wlp; [apply (flush_stream_wp i n w sti Hi), (Hok i sti Hi)|]|].
  { apply (wlp_keeps (of_ses roles_view)), flush_stream_roles. }
  cbv beta. intros _ w' [(st' & sent & acked & e & evs & Hon & Hs & Hev & _) E].
  assert (Hids : ids_view (w_ses w') = ids_view (w_ses w)) by exact (f_equal snd E).
  destruct (decide (i = id)) as [->|Hne]; [|by eapply flush_other].
  eapply flush_ours; try done. apply (f_equal fst) in E. cbn in E.
  rewrite (os_streams _ _ _ _ _ Hon), lookup_insert, decide_True, Hi in E by done. by injection E.
Qed.

(** *** Pruning *)

Lemma ours_can_send : (if srv then N.land id 0x1 =? 1 else N.land id 0x1 =? 0) = true.
Proof.
  assert (E : N.land id 0x1 = N.land (N.land id 0x3) 0x1) by (by rewrite <- N.land_assoc).
  unfold has_bits in id_bits. apply N.eqb_eq in id_bits. rewrite E, id_bits. by destruct srv, bidi.
Qed.

(** The stream has left the table: everything was sent. *)
Definition gone (W : bytes) (w : World C) : Prop :=
  ws_streams (w_ses w) !! id = None ∧ accepted (w_conn w) id = W.

Lemma prune_streams_underway p W (w : World C) :
  underway p W w → wlp prune_streams (fun _ w' => underway p W w' ∨ gone W w') w.
Proof.
  intros [Ha (st & Hst & Hr & HW)].
  apply wlp_bind, wlp_gets, wlp_bind, wlp_gets, wlp_bind, wlp_modify. rewrite (ah_server _ _ Ha).
  match goal with |- wlp _ _ (_ <| w_ses ::= fun s => s <| ws_streams := ?m |> |>) => set (m' := m) end.
  intros a w' E. unfold mem in E. destruct (drop_streams _ _) as [[[] u]|]; [|done]. injection E as _ <-.
  destruct (retained srv id st) eqn:Hk.
  - left. split; [by apply (ahead_ids p (w_ses w))|]. exists st. split; [|done].
    by apply map_lookup_filter_Some_2.
  - right. split.
    + apply map_lookup_filter_None_2. right. intros st'. rewrite Hst. intros [= <-]. cbn. by rewrite Hk.
    + cbn. rewrite <- HW. unfold retained in Hk. apply N.eqb_neq in not_connect.
      rewrite N.eqb_sym, not_connect, bool_decide_false, ours_can_send in Hk by congruence. cbn in Hk.
      rewrite orb_true_r in Hk. cbn in Hk.
      apply negb_false_iff, andb_true_iff in Hk as [_ [_ Ho%bool_decide_eq_true]%andb_true_iff].
      by rewrite Ho, app_nil_r.
Qed.
End send.

(** The end of a flush reports nothing. *)
Section silent.
Context {C : Type} {quic : Quic C}.

Ltac silent_step :=
  lazymatch goal with
  | |- keeps _ (mbind _ _) => apply keeps_bind; [|intros ?]
  | |- keeps _ (mret _) => apply keeps_ret
  | |- keeps _ (when _ _) => apply keeps_when
  | |- keeps _ (match ?x with _ => _ end) => destruct x
  | |- keeps _ (mem _) => intros ? ? ?; unfold mem; case_match; [|done]; case_match; by intros [= <- <-]
  | |- keeps _ _ => first [apply keeps_gets | apply keeps_modify; reflexivity]
  end.
Ltac silent := repeat silent_step.

Lemma signal_blocked_silent : keeps w_ev (signal_flow_control_blocked (C := C)).
Proof.
  unfold signal_flow_control_blocked, signal_data_blocked, signal_streams_blocked,
    queue_session_capsule, push_out. silent.
Qed.
Lemma prune_streams_silent : keeps w_ev (prune_streams (C := C)).
Proof. unfold prune_streams. cbv zeta. silent. Qed.
Lemma prune_streams_offline : keeps w_conn (prune_streams (C := C)).
Proof. unfold prune_streams. cbv zeta. silent. Qed.
Lemma drive_quic_close_silent : keeps w_ev (drive_quic_close (C := C)).
Proof. unfold drive_quic_close. cbv zeta. silent. Qed.
End silent.

(** ** Every run *)

Section runs.
Context {C : Type} {quic : Quic C} {quic_laws : QuicLaws C} {wire : QuicWire C}.
Context {alloc : Allocator} {alloc_laws : AllocatorLaws} {qpack : Qpack} {sfv : Sfv}.
Context {hist : History} (limits : N → N) (limits_usize : ∀ i, limits i < U64).
Context (id : N) (bidi srv : bool) (not_connect : CONNECT_ID ≠ id) (id_bits : has_bits id srv bidi = true).

Abbreviation inv := (inv limits).
Abbreviation underway := (underway id bidi srv).
Abbreviation flushing := (flushing id bidi srv).

Lemma underway_piece {A} (m : M (World C) A) L p W (w : World C) :
  (∀ w, inv L w → wp m (fun _ w' => good limits free w L w') w) → carries id m →
  inv L w → underway p W w → wp m (fun _ w' => inv L w' ∧ underway p W w') w.
Proof.
  intros Hm Hc Hi Hu. eapply wp_mono; [apply wp_of_wlp; [by apply Hm|by apply underway_carries]|].
  cbv beta. by intros _ w' [[? _] ?].
Qed.

Lemma inv_chunks L (w : World C) :
  inv L w → map_Forall (fun _ st => Forall chunk_ok (st_out st)) (ws_streams (w_ses w)).
Proof. intros [] i st Hst. by destruct (inv_streams i st Hst). Qed.

Lemma flush_streams_flushing ids n L p W (w : World C) :
  inv L w → flushing p W w → wp (flush_streams ids n) (fun _ w' => inv L w' ∧ flushing p W w') w.
Proof.
  revert n w. induction ids as [|i ids IH]; intros n w Hi Hf; cbn [flush_streams]; [by apply wp_ret|].
  apply wp_bind. eapply wp_mono.
  { apply wp_conj; [by apply (flush_stream_good limits free w L w), good_start|].
    apply (flush_stream_flushing id bidi srv); try done. by eapply inv_chunks. }
  cbv beta. intros n' w' [[Hi' _] Hf']. by apply IH.
Qed.

Lemma carries_accepted {A} (m : M (World C) A) :
  carries id m → keeps (fun w => accepted (w_conn w) id) m.
Proof. intros [H] w. eapply wlp_mono; [apply H|]. cbv beta. intros _ w' [= _ E _]. exact E. Qed.
Lemma stopped_keeps {A} (m : M (World C) A) W (w : World C) :
  keeps (fun w => accepted (w_conn w) id) m → keeps w_ev m → stopped id W w →
  wlp m (fun _ w' => stopped id W w') w.
Proof.
  intros Ha He Hs. eapply wlp_mono; [apply wlp_and; [apply Ha|apply He]|]. cbv beta.
  intros _ w' [E1 E2]. destruct Hs as [Hp [code Hc]]. split; [by rewrite E1|]. exists code. by rewrite E2.
Qed.

(** How the stream's transfer ends within a run. *)
Definition ended (W : bytes) (w : World C) : Prop := gone id W w ∨ stopped id W w.

Lemma flush_tail p W (w : World C) :
  flushing p W w →
  wlp (_ ← signal_flow_control_blocked; _ ← prune_streams; drive_quic_close)
    (fun _ w' => underway p W w' ∨ ended W w') w.
Proof.
  intros [Hu|[Hs _]].
  - apply wlp_bind. eapply wlp_mono; [apply (underway_carries id bidi srv p W), Hu|].
    { by apply signal_blocked_carries. }
    cbv beta. intros _ w1 H1. apply wlp_bind.
    eapply wlp_mono; [by apply prune_streams_underway|]. cbv beta. intros _ w2 [H2|H2].
    + eapply wlp_mono; [apply (underway_carries id bidi srv p W), H2|by left].
      by apply drive_quic_close_carries.
    + eapply wlp_mono; [apply (run_carries id), drive_quic_close_carries|]. cbv beta.
      intros _ w3 [= E Ea _]. right; left. destruct H2 as [H2 H2']. split; [|congruence].
      unfold entry in E. rewrite H2 in E. by destruct (ws_streams (w_ses w3) !! id).
  - apply wlp_bind. eapply wlp_mono; [apply stopped_keeps; [|apply signal_blocked_silent|exact Hs]|].
    { apply carries_accepted. by apply signal_blocked_carries. }
    cbv beta. intros _ w1 H1. apply wlp_bind.
    eapply wlp_mono; [apply stopped_keeps; [|apply prune_streams_silent|exact H1]|].
    { intros w2 a w3 E. by rewrite (prune_streams_offline w2 a w3 E). }
    cbv beta. intros _ w2 H2.
    eapply wlp_mono; [apply stopped_keeps; [|apply drive_quic_close_silent|exact H2]|].
    { apply carries_accepted. by apply drive_quic_close_carries. }
    cbv beta. intros _ w3 H3. by right; right.
Qed.

(** A whole flush. *)
Lemma flush_underway order L p W (w : World C) :
  inv L w → underway p W w → wp (flush order) (fun _ w' => underway p W w' ∨ ended W w') w.
Proof.
  intros Hi Hu. unfold flush.
  assert (Hpiece : ∀ m k : M (World C) (),
    (∀ w, inv L w → wp m (fun _ w' => good limits free w L w') w) → carries id m →
    (∀ w, inv L w → underway p W w → wp k (fun _ w' => underway p W w' ∨ ended W w') w) →
    ∀ w, inv L w → underway p W w → wp (_ ← m; k) (fun _ w' => underway p W w' ∨ ended W w') w).
  { intros m k Hm Hc Hk w0 Hi0 Hu0. apply wp_bind. eapply wp_mono; [by apply (underway_piece m L p W)|].
    cbv beta. intros _ w1 [? ?]. by apply Hk. }
  revert w Hi Hu.
  apply Hpiece; [intros; by apply (flush_terminal_error_good limits), good_start
    |by apply flush_terminal_error_carries|].
  apply Hpiece; [intros; by apply (grant_credit_good limits), good_start|by apply grant_credit_carries|].
  apply Hpiece; [intros; by apply (replenish_credit_good limits), good_start
    |by apply replenish_credit_carries|].
  apply Hpiece; [intros; by apply (queue_close_capsule_good limits), good_start
    |by apply queue_close_capsule_carries|].
  intros w Hi Hu. apply wp_bind. eapply wp_mono.
  { apply wp_of_wlp; [by apply (release_pending_opens_good limits limits_usize free w L w), good_start|].
    by apply release_pending_opens_underway. }
  cbv beta. intros _ w1 [[Hi1 _] Hu1]. ses_steps.
  eapply wp_mono; [apply (flush_streams_flushing _ _ L p W w1 Hi1); by left|]. cbv beta.
  intros n w2 [Hi2 Hf2]. apply wp_bind, wp_modify. set (w3 := _ <| w_ses ::= _ |>).
  assert (Hg3 : good limits free w2 L w3) by by apply good_set, good_start.
  assert (Hf3 : flushing p W w3).
  { destruct Hf2 as [H|H]; [left|by right]. by apply (underway_view id bidi srv p W w2). }
  eapply wp_mono; [apply wp_of_wlp; [|by apply (flush_tail p W w3)]|].
  - call (signal_flow_control_blocked_good limits); [exact Hg3|]. intros _ w4 Hg4.
    call (prune_streams_good limits limits_usize free w2 L); [done|exact Hg4|]. intros _ w5 Hg5.
    by apply (drive_quic_close_good limits free w2 L).
  - cbv beta. by intros _ w4 [_ ?].
Qed.

(** ** Runs

    Between two calls the network may change the connection, but does not take
    back what has been accepted. *)

Definition opens (o : SessionOp C) : N := match o with OpOpenStream _ _ => 1 | _ => 0 end.
Definition writes (o : SessionOp C) : bytes :=
  match o with OpWrite i data _ => written_by id i data | _ => [] end.
(** The calls that leave the stream to its course. *)
Definition undisturbed (o : SessionOp C) : Prop :=
  match o with OpReset i _ => i ≠ id | OpNetwork _ => False | _ => True end.

Lemma run_op_underway o L p W (w : World C) :
  undisturbed o → inv L w → underway (opens o + p) W w →
  wp (run_op o) (fun _ w' => inv L w' ∧ (underway p (W ++ writes o) w' ∨ ended (W ++ writes o) w')) w.
Proof.
  intros Ho Hi Hu. apply wp_conj; [by apply (run_op_inv limits limits_usize)|].
  assert (Hwlp : wlp (run_op o) (fun _ w' => underway p (W ++ writes o) w') w →
    wp (run_op o) (fun _ w' => underway p (W ++ writes o) w' ∨ ended (W ++ writes o) w') w).
  { intros Hm. eapply wp_mono.
    - apply wp_of_wlp; [by apply (run_op_inv limits limits_usize _ L)|exact Hm].
    - cbv beta. intros _ w' [_ ?]. by left. }
  assert (Hcourse : opens o = 0 → writes o = [] → carries id (run_op o) →
    wp (run_op o) (fun _ w' => underway p (W ++ writes o) w' ∨ ended (W ++ writes o) w') w).
  { intros E1 E2 Hc. apply Hwlp. rewrite E2, app_nil_r. rewrite E1 in Hu. by apply underway_carries. }
  destruct o as [|i b| | | |i data rid| |i| | | | |order| | | | |]; cbn [undisturbed] in Ho; try done;
    try (by apply Hcourse; [done|done|cbn [run_op]; carry]);
    cbn [opens writes] in *; rewrite ?app_nil_r in *.
  - apply Hwlp, wlp_bind, wlp_gets. rewrite (ah_setup _ _ _ _ _ (proj1 Hu)). by apply wlp_ret.
  - apply Hwlp. eapply wlp_mono; [by apply (on_readable_carries id not_connect), (sending_data_role id bidi W), Hu|].
    cbv beta. intros _ w' E. by eapply underway_view.
  - apply Hcourse; [done|done|by apply on_datagrams_carries].
  - apply Hcourse; [done|done|by apply send_datagram_carries].
  - apply Hwlp. by apply (open_stream_underway id bidi srv).
  - apply Hwlp. by apply stream_write_underway.
  - apply Hcourse; [done|done|]. cbn [run_op]. unfold stream_fin. carry.
  - apply Hcourse; [done|done|by apply stream_reset_carries].
  - apply Hcourse; [done|done|by apply stream_stop_sending_carries].
  - apply Hcourse; [done|done|]. cbn [run_op]. unfold set_paused. carry.
  - apply Hcourse; [done|done|]. cbn [run_op]. unfold close. carry.
  - apply Hcourse; [done|done|by apply send_drain_carries].
  - by apply flush_underway with L.
  - apply Hcourse; [done|done|by apply mark_closed_carries].
  - apply Hcourse; [done|done|]. cbn [run_op]. carry_step; [|carry]. apply carries_conn. intros c.
    unfold build_keying_material. destruct (negb _); [done|].
    destruct (export_keying_material _ _ _ _) as [r c'] eqn:E. cbn.
    change c' with (r, c').2. by rewrite <- E, export_accepted.
Qed.

(** A call, or a change of the network's. *)
Inductive Step := Call (o : SessionOp C) | Net (f : C → C).
Definition run_step (s : Step) : M (World C) () :=
  match s with
  | Call o => run_op o
  | Net f => conn_ f
  end.
Fixpoint run_steps (l : list Step) : M (World C) () :=
  match l with
  | [] => mret ()
  | s :: l => _ ← run_step s; run_steps l
  end.
Definition step_opens (s : Step) : N := match s with Call o => opens o | Net _ => 0 end.
Definition step_writes (s : Step) : bytes := match s with Call o => writes o | Net _ => [] end.
Definition all_opens (l : list Step) : N := foldr (fun s n => step_opens s + n) 0 l.
(** What the application writes on the stream. *)
Definition written (l : list Step) : bytes := concat (map step_writes l).
Definition step_ok (s : Step) : Prop :=
  match s with
  | Call o => undisturbed o
  | Net f => ∀ c, accepted (f c) id = accepted c id
  end.

Lemma run_step_underway s L p W (w : World C) :
  step_ok s → inv L w → underway (step_opens s + p) W w →
  wp (run_step s) (fun _ w' => inv L w' ∧
    (underway p (W ++ step_writes s) w' ∨ ended (W ++ step_writes s) w')) w.
Proof.
  intros Hs Hi Hu. destruct s as [o|f]; [by apply run_op_underway|].
  apply wp_modify. cbn in *. rewrite app_nil_r. split.
  - by apply (op_network_inv limits L w (f (w_conn w))).
  - left. apply (underway_view id bidi srv p W w); [|exact Hu]. unfold view. cbn. by rewrite Hs.
Qed.

Lemma run_steps_inv l L (w : World C) : inv L w → wp (run_steps l) (fun _ w' => inv L w') w.
Proof.
  revert w. induction l as [|s l IH]; intros w Hi; cbn [run_steps]; [by apply wp_ret|].
  apply wp_bind, (wp_mono _ (fun _ w' => inv L w')); [|by intros _; apply IH].
  destruct s as [o|f]; [by apply (run_op_inv limits limits_usize)|].
  apply wp_modify. by apply (op_network_inv limits L w (f (w_conn w))).
Qed.

(** The transfer is under way to the end, or has ended at some point. *)
Lemma run_steps_transfer l L W (w : World C) :
  Forall step_ok l → inv L w → underway (all_opens l) W w →
  wp (run_steps l) (fun _ w' => ∃ l1 l2 w1, l = l1 ++ l2 ∧ run_steps l1 w = Some ((), w1) ∧
    (l2 = [] ∧ underway 0 (W ++ written l1) w1 ∨ ended (W ++ written l1) w1)) w.
Proof.
  revert W w. induction l as [|s l IH]; intros W w Hl Hi Hu; cbn [run_steps].
  { apply wp_ret. exists [], [], w. split; [done|]. split; [done|]. left. split; [done|].
    unfold written. cbn [map concat]. by rewrite app_nil_r. }
  inversion_clear Hl as [|? ? Hs Hl']. apply wp_bind.
  pose proof (run_step_underway s L (all_opens l) W w Hs Hi Hu) as H.
  apply wp_elim in H as ([] & w' & E & Hi' & [Hu'|He]); (eapply wp_intro; [exact E|]).
  - eapply wp_mono; [exact (IH (W ++ step_writes s) w' Hl' Hi' Hu')|]. cbv beta. intros _ w2 (l1 & l2 & w1 & -> & E1 & H1).
    exists (s :: l1), l2, w1. split; [done|]. split.
    + cbn [run_steps]. unfold mbind, M_bind. by rewrite E.
    + unfold written in *. cbn [map concat]. by rewrite app_assoc.
  - eapply wp_mono; [by apply (run_steps_inv l L)|]. cbv beta. intros _ w2 _.
    exists [s], l, w'. split; [done|]. split.
    + cbn [run_steps]. unfold mbind, M_bind. by rewrite E.
    + right. unfold written. cbn [map concat]. by rewrite app_nil_r.
Qed.
End runs.

(** ** End to end *)

Section transfer.
Context {C : Type} {quic : Quic C} {quic_laws : QuicLaws C} {wire : QuicWire C}.
Context {alloc : Allocator} {alloc_laws : AllocatorLaws} {qpack : Qpack} {sfv : Sfv}.
Context {hist : History} (limits : N → N) (limits_usize : ∀ i, limits i < U64).

Lemma insert_stream_spec id st (w : World C) :
  wlp (insert_stream id st) (fun _ w' => ids_view (w_ses w') = ids_view (w_ses w) ∧
    ws_streams (w_ses w') !! id = Some st ∧ w_conn w' = w_conn w) w.
Proof.
  apply wlp_bind, wlp_gets, wlp_bind, wlp_modify.
  assert (H : ids_view (w_ses (w <| w_ses ::= fun s => s <| ws_streams ::= <[id := st]> |> |>)) =
    ids_view (w_ses w) ∧ <[id := st]> (ws_streams (w_ses w)) !! id = Some st ∧ w_conn w = w_conn w).
  { split; [done|]. by rewrite lookup_insert, decide_True. }
  case_match; [|by apply wlp_ret]. intros a w' E. unfold mem in E.
  destruct (drop_stream _ _) as [[]|]; [|done]. by injection E as _ <-.
Qed.

(** A stream starts with its signal queued. *)
Lemma allocate_stream_starts bidi srv rid p (w : World C) :
  typed srv None w → ws_setup_sent (w_ses w) = true →
  next_id bidi (w_ses w) + 4 * (1 + p + lenN (ws_pending_opens (w_ses w))) < U64 →
  accepted (w_conn w) (next_id bidi (w_ses w)) = [] →
  wlp (allocate_stream bidi rid) (fun _ w' =>
    underway (next_id bidi (w_ses w)) bidi srv p (signal bidi) w') w.
Proof.
  intros [t1 t2 t3 _ _ _] Hs Hroom Ha. set (id := next_id bidi (w_ses w)) in *.
  assert (Hadd : add64 id 4 = id + 4) by (apply add64_small; lia).
  apply wlp_bind, wlp_gets, wlp_bind, wlp_modify, wlp_bind, wlp_gets. fold id.
  match goal with |- wlp _ _ ?w' => set (w1 := w') end.
  assert (H1 : ahead id bidi srv p (w_ses w1)).
  { constructor.
    - by destruct bidi.
    - by destruct bidi.
    - intros b. by destruct bidi, b; cbn; rewrite ?has_bits_next.
    - unfold w1. destruct bidi; cbn in *; rewrite Hadd; lia.
    - unfold w1. destruct bidi; cbn in *; rewrite Hadd; lia. }
  assert (E1 : accepted (w_conn w1) id = []) by by destruct bidi.
  clearbody w1. apply wlp_bind. eapply wlp_mono; [apply insert_stream_spec|]. cbv beta.
  intros _ w2 (Hids & Hst & Hc). apply wlp_modify. split; [by eapply ahead_ids|].
  eexists. split; [exact Hst|]. cbn. rewrite Hc, E1. by destruct bidi.
Qed.

(** C7: a stream from one application to the other.  We open a stream and then
    do anything at all except resetting it: write on it and on others, finish,
    flush, read, close, drain, while the network changes the connection without
    taking back what it accepted.  Every call returns, and of this stream QUIC
    has accepted its signal and then the application's writes, in order and
    without loss or duplication: the rest is queued, or the stream left the
    table when all was sent, or the peer has stopped it and what was accepted
    is a beginning.  Once everything is handed over, a peer that reads those
    bytes, however they are cut, delivers exactly the writes to its
    application and then the end, or closes on its limits after a beginning. *)
Theorem stream_end_to_end bidi srv rid steps (us : World C) L :
  inv limits L us → typed srv None us → ws_ready (w_ses us) = true → ws_closed (w_ses us) = false →
  ws_setup_sent (w_ses us) = true →
  let id := next_id bidi (w_ses us) in
  CONNECT_ID ≠ id → accepted (w_conn us) id = [] →
  id + 4 * (1 + all_opens steps + lenN (ws_pending_opens (w_ses us))) < U64 →
  Forall (step_ok id) steps →
  wp (_ ← allocate_stream bidi rid; run_steps steps) (fun _ _ => ∃ done todo us',
    steps = done ++ todo ∧ (_ ← allocate_stream bidi rid; run_steps done) us = Some ((), us') ∧
    let sent := signal bidi ++ written id done in
    ((todo = [] ∧ ∃ st, ws_streams (w_ses us') !! id = Some st ∧
        accepted (w_conn us') id ++ unsent (st_out st) = sent) ∨
     (ws_streams (w_ses us') !! id = None ∧ accepted (w_conn us') id = sent) ∨
     ((∃ code, EvStreamStopSending id code ∈ w_ev us') ∧ accepted (w_conn us') id `prefix_of` sent)) ∧
    (∀ (them : World C) L' st chunks last,
      inv limits L' them → ws_closed (w_ses them) = false →
      ws_streams (w_ses them) !! id = Some st → st_role st = pending bidi →
      pb_data (st_class_buf st) = [] →
      accepted (w_conn us') id = sent → concat chunks ++ last = accepted (w_conn us') id →
      wp (recv_all id chunks last) (fun _ them' =>
        (ws_closed (w_ses them') = false ∧ ∃ pieces, Forall (fun p => p ≠ []) pieces ∧
          concat pieces = written id done ∧
          w_ev them' = w_ev them ++
            EvIncomingStream id bidi :: map (EvStreamData id) pieces ++ [EvStreamFinished id]) ∨
        (ws_closed (w_ses them') = true ∧ ∃ evs, w_ev them' = w_ev them ++ evs ∧
          delivered id evs `prefix_of` written id done)) them)) us.
Proof.
  intros Hi Ht Hr Hc Hs id Hne Ha Hroom Hok.
  assert (Hbits : has_bits id srv bidi = true) by (destruct Ht; by destruct bidi).
  assert (H : wp (allocate_stream bidi rid) (fun _ w' => inv limits L w' ∧
    underway id bidi srv (all_opens steps) (signal bidi) w') us).
  { eapply wp_mono; [apply wp_of_wlp|].
    - by apply (allocate_stream_good limits limits_usize free us L), good_start.
    - by apply allocate_stream_starts.
    - cbv beta. by intros _ w' [[[? _] _] ?]. }
  apply wp_elim in H as ([] & us0 & E0 & Hi0 & Hu0). apply wp_bind. eapply wp_intro; [exact E0|].
  eapply wp_mono; [by apply (run_steps_transfer limits limits_usize id bidi srv Hne Hbits steps L)|].
  cbv beta. intros _ _ (done' & todo & us' & Hsplit & E & Hend). exists done', todo, us'.
  split; [exact Hsplit|]. split; [unfold mbind, M_bind; by rewrite E0|]. cbv zeta. split.
  - destruct Hend as [(-> & _ & st & Hst & _ & HW)|[Hg|[Hp Hstop]]]; [left|by right; left|by right; right].
    split; [done|]. by exists st.
  - intros them L' st chunks last Hi' Hc' Hst Hrole Hbuf Hacc Hcut.
    apply (peer_stream_wp limits limits_usize id bidi (written id done') chunks last st L'); try done.
    by rewrite Hcut.
Qed.
End transfer.

(** The server of [Session.Example] opens a stream, writes five bytes in two
    calls, finishes, and flushes twice, between which QUIC grants credit. *)
Module Example.
#[local] Existing Instance exact_allocator.
#[local] Existing Instance literal_qpack.
#[local] Existing Instance rfc9651.
#[local] Existing Instance no_history.
Import Session.Example.

Definition ops_ready : list (SessionOp ToyConn) := take 5 ops.
Definition no_credit (c : ToyConn) : ToyConn := c <| toy_credit := fun _ => 4%nat |>.
Definition steps : list (Step (C := ToyConn)) :=
  [Net no_credit; Call (OpWrite 1 (s2b "AB") 8); Call (OpFlush id); Call (OpWrite 1 (s2b "CDE") 9);
   Call (OpFin 1); Net no_credit; Call (OpFlush id)].

Lemma stream_end_to_end_witness :
  ∃ us us', run_ops ops_ready (mkWorld server.1 toy_new server.2 []) = Some ((), us) ∧
    (_ ← allocate_stream true 7; run_steps steps) us = Some ((), us') ∧
    accepted (w_conn us') 1 = signal true ++ s2b "ABCDE" ∧
    ∃ done todo us1, steps = done ++ todo ∧
      (_ ← allocate_stream true 7; run_steps done) us = Some ((), us1) ∧
      accepted (w_conn us1) 1 `prefix_of` signal true ++ written 1 done.
Proof.
  pose proof (run_ops_inv limits limits_usize ops_ready [] (mkWorld server.1 toy_new server.2 [])
    (constructed_inv limits server.1 counters server.2 toy_new [] server_constructed
      server_memory_wf counters_within counters_accounted)) as H.
  apply wp_elim in H as ([] & us & E & Hi). exists us.
  pose proof (run_tk _ _ _ (tk_run_ops true ops_ready) (mkWorld server.1 toy_new server.2 [])
    (constructed_typed _ _ _ toy_new server_constructed) _ _ E) as [Ht _].
  pose proof (f_equal (fun o => match o with
    | Some (_, w) => (ws_ready (w_ses w), ws_closed (w_ses w), ws_setup_sent (w_ses w),
        next_id true (w_ses w), ws_pending_opens (w_ses w), accepted (w_conn w) 1)
    | None => (false, false, false, 0, [], []) end) E) as Hc. cbv beta iota in Hc.
  match type of Hc with ?a = _ => replace a with (true, false, true, 1, @nil (bool * N), @nil byte) in Hc
    by (vm_compute; reflexivity) end.
  injection Hc as H1 H2 H3 H4 H5 H6.
  assert (Hok : Forall (step_ok (next_id true (w_ses us))) steps)
    by (unfold steps; repeat constructor; done).
  pose proof (stream_end_to_end limits limits_usize true true 7 steps us [] Hi Ht (eq_sym H1) (eq_sym H2)
    (eq_sym H3)) as H. cbv zeta in H.
  assert (N1 : next_id true (w_ses us) = 1) by exact (eq_sym H4).
  assert (N2 : accepted (w_conn us) 1 = []) by exact (eq_sym H6).
  rewrite N1, <- H5, N2 in H. rewrite N1 in Hok.
  specialize (H ltac:(done) eq_refl ltac:(vm_compute; reflexivity) Hok).
  apply wp_elim in H as ([] & us' & E' & dn & todo & us1 & Hsplit & E1 & Hsent & _).
  exists us'. split; [exact E|]. split; [exact E'|]. split.
  - assert (E2 : (_ ← run_ops ops_ready; _ ← allocate_stream true 7; run_steps steps)
      (mkWorld server.1 toy_new server.2 []) = Some ((), us')) by (unfold mbind at 1, M_bind; rewrite E; exact E').
    pose proof (f_equal (fun o => match o with Some (_, w) => accepted (w_conn w) 1 | None => [] end) E2) as Hc.
    cbv beta iota in Hc. rewrite <- Hc. vm_compute. reflexivity.
  - exists dn, todo, us1. split; [exact Hsplit|]. split; [exact E1|].
    destruct Hsent as [(_ & st & _ & <-)|[[_ ->]|[_ Hp]]]; [by eexists|done|exact Hp].
Defined.
End Example.
