(* ===== verification/SessionBooks.v ===== *)
(** * The books on the data sent ([crates/native/src/session.rs])

    The session counts the WebTransport payload it hands to QUIC
    ([fc_data_sent], and [send_payload] of each stream) and gives credit back for
    what a reset drops.  Here the count is compared with what QUIC has in fact
    accepted, over whole runs: it never falls short, so that holding the count to
    the peer's data limit holds the payload to it. *)

From S2P Require Import Prelude H3 ParserMemory FrameParser Headers Net Quic SessionState.
From S2P Require Import SessionRecv SessionConnect SessionStreams SessionSend SessionFrame SessionInv SessionFlow.
From S2P Require Import SessionReassembly SessionTable Session SessionTypes SessionPressure SessionTransfer.

(** ** Tallies

    The sum of a quantity over any distinct streams is within a bound. *)

Definition tally (f : N → N) (ids : list N) : N := sum_list_N (map f ids).
Definition total (f : N → N) (B : N) : Prop := ∀ ids, NoDup ids → tally f ids <= B.

Lemma tally_cons f i ids : tally f (i :: ids) = f i + tally f ids.
Proof. done. Qed.
Lemma tally_mono f g ids : (∀ i, i ∈ ids → g i <= f i) → tally g ids <= tally f ids.
Proof.
  induction ids as [|i ids IH]; intros H; [done|]. rewrite !tally_cons.
  pose proof (H i ltac:(left)). assert (∀ j, j ∈ ids → g j <= f j) by (intros j Hj; apply H; by right).
  specialize (IH ltac:(done)). lia.
Qed.
Lemma tally_mem ids j : NoDup ids → j ∈ ids → ∃ ids',
  NoDup ids' ∧ (j ∉ ids') ∧ ∀ g, tally g ids = g j + tally g ids'.
Proof.
  intros Hnd Hj. apply elem_of_Permutation in Hj as [ids' Hp]. exists ids'. rewrite Hp in Hnd.
  apply NoDup_cons in Hnd as [Hn Hnd]. split; [done|]. split; [done|].
  intros g. rewrite <- tally_cons. apply sum_list_N_perm. by apply Permutation_map.
Qed.

Lemma total_mono f g B B' : total f B → (∀ i, g i <= f i) → B <= B' → total g B'.
Proof. intros Hf Hg HB ids Hnd. specialize (Hf ids Hnd). pose proof (tally_mono f g ids ltac:(auto)). lia. Qed.
Lemma total_single f B j : total f B → f j <= B.
Proof. intros Hf. specialize (Hf [j] (NoDup_singleton j)). rewrite tally_cons in Hf. lia. Qed.
(** One entry grows. *)
Lemma total_add f g j B d :
  total f B → (∀ i, i ≠ j → g i <= f i) → g j <= f j + d → total g (B + d).
Proof.
  intros Hf Ho Hj ids Hnd. destruct (decide (j ∈ ids)) as [Hin|Hin].
  - destruct (tally_mem ids j Hnd Hin) as (ids' & Hnd' & Hn & E). rewrite E.
    pose proof (tally_mono f g ids' ltac:(intros i Hi; apply Ho; congruence)). specialize (Hf ids Hnd). rewrite E in Hf. lia.
  - pose proof (tally_mono f g ids ltac:(intros i Hi; apply Ho; congruence)). specialize (Hf ids Hnd). lia.
Qed.
(** One entry shrinks. *)
Lemma total_sub f g j B d :
  total f B → (∀ i, i ≠ j → g i <= f i) → g j + d <= f j → total g (B - d).
Proof.
  intros Hf Ho Hj ids Hnd. destruct (decide (j ∈ ids)) as [Hin|Hin].
  - destruct (tally_mem ids j Hnd Hin) as (ids' & Hnd' & Hn & E). rewrite E.
    pose proof (tally_mono f g ids' ltac:(intros i Hi; apply Ho; congruence)). specialize (Hf ids Hnd). rewrite E in Hf. lia.
  - pose proof (tally_mono f g ids ltac:(intros i Hi; apply Ho; congruence)).
    pose proof (Hf (j :: ids) ltac:(by apply NoDup_cons)) as Hc. rewrite tally_cons in Hc. lia.
Qed.

(** ** Payload *)

Section books.
Context {C : Type} {quic : Quic C} {wire : QuicWire C} {resets : QuicResets C}.
(** The role of the endpoint. *)
Context (srv : bool).

(** What counts of a stream: the bytes accepted, less those a reset dropped. *)
Definition wire_size (c : C) (id : N) : N := lenN (accepted c id) - discarded c id.

(** The streams that can carry application data: ours from the first
    WebTransport ids on, and the peer's but the CONNECT stream.  Ours begin with
    a signal of three bytes. *)
Definition ours (id : N) : bool := has_bits id srv true || has_bits id srv false.
Definition data_id (id : N) : bool :=
  if has_bits id srv true then first_id srv true <=? id
  else if has_bits id srv false then first_id srv false <=? id
  else negb (id =? CONNECT_ID).
Definition signal_len (id : N) : N := if ours id then 3 else 0.
(** The WebTransport payload on a stream. *)
Definition payload (c : C) (id : N) : N := if data_id id then wire_size c id - signal_len id else 0.

#[export] Instance wire_step : ConnStep C.
Proof.
  refine {| quieter c c' := ∀ id, wire_size c' id <= wire_size c id |}.
  - split; [by intros c id|]. intros c c1 c2 H1 H2 id. specialize (H1 id). specialize (H2 id). lia.
  - intros c id len i. unfold wire_size. rewrite recv_accepted. pose proof (recv_discards c id len i). lia.
  - intros c id dir code i. unfold wire_size. rewrite shutdown_accepted. pose proof (shutdown_discards c id dir code i). lia.
  - intros c app code reason i. unfold wire_size. rewrite close_accepted. pose proof (close_discards c app code reason i). lia.
  - intros c len i. unfold wire_size. rewrite dgram_recv_accepted. pose proof (dgram_recv_discards c len i). lia.
  - intros c d i. unfold wire_size. rewrite dgram_send_accepted. pose proof (dgram_send_discards c d i). lia.
  - intros c len l x i. unfold wire_size. rewrite export_accepted. pose proof (export_discards c len l x i). lia.
Defined.

Lemma wire_send c id d fin r c' :
  stream_send c id d fin = (r, c') → ∀ i,
  wire_size c' i <= wire_size c i + (if decide (id = i) then match r with Ok n => lenN (take n d) | Err _ => 0 end else 0).
Proof.
  intros E i. unfold wire_size. pose proof (send_discards c id d fin i) as Hd. rewrite E in Hd. cbn in Hd.
  destruct r as [n|e].
  - rewrite (send_accepts _ _ _ _ _ _ E). case_decide; rewrite lenN_app; [lia|]. change (lenN []) with 0. lia.
  - rewrite (send_refuses _ _ _ _ _ _ E). lia.
Qed.
Lemma payload_quieter c c' id : wire_size c' id <= wire_size c id → payload c' id <= payload c id.
Proof. unfold payload. intros H. destruct (data_id id); lia. Qed.

Lemma data_connect : data_id CONNECT_ID = false.
Proof. unfold data_id. destruct srv; reflexivity. Qed.
Lemma data_next id b : has_bits id srv b = true → first_id srv b <= id → data_id id = true.
Proof.
  intros Hb Hf. unfold data_id. destruct b; [by rewrite Hb, (proj2 (N.leb_le _ _))|].
  destruct (has_bits id srv true) eqn:Ht; [by destruct (has_bits_inj _ _ _ _ _ Ht Hb)|].
  by rewrite Hb, (proj2 (N.leb_le _ _)).
Qed.
Lemma data_theirs id : ours id = false → id ≠ CONNECT_ID → data_id id = true.
Proof.
  unfold ours, data_id. intros [-> ->]%orb_false_iff Hne. by rewrite (proj2 (N.eqb_neq _ _)).
Qed.

(** ** The invariant *)

Definition is_payload (ch : OutChunk) : bool := bool_decide (is_Some (oc_request_id ch)).
Definition left_of (ch : OutChunk) : N := N.of_nat (length (oc_data ch) - oc_off ch).
(** What is queued of payload, and of the signal. *)
Definition payload_left (out : list OutChunk) : N :=
  sum_list_N (map (fun ch => if is_payload ch then left_of ch else 0) out).
Definition signal_left (out : list OutChunk) : N :=
  sum_list_N (map (fun ch => if is_payload ch then 0 else left_of ch) out).

Definition blank (out : list OutChunk) (p sp : N) : Prop := out = [] ∧ p = 0 ∧ sp = 0.

(** A stream of application data, with [p] bytes of payload and a prefix of [sp]
    on its books: only the front of its queue may be its signal, which precedes
    all payload. *)
Record sends_data (A : N → N) (s : WtSession) (c : C) (id : N) (out : list OutChunk) (p sp : N) : Prop := mkSendsData {
  sd_id : data_id id = true;
  sd_given b : has_bits id srv b = true → id < next_id b s;
  sd_payload : p <= A id;
  sd_prefix : sp <= signal_len id;
  sd_shape : Forall (fun ch => is_payload ch = true) (tail out);
  sd_signal : signal_left out ≠ 0 → wire_size c id + signal_left out <= signal_len id ∧ p = 0;
}.

Definition held (A : N → N) (s : WtSession) (c : C) (id : N) (e : Role * list OutChunk * N * N) : Prop :=
  let '(role, out, p, sp) := e in
  match role with
  | WtData _ => sends_data A s c id out p sp
  | PendingUni | PendingBidi => ours id = false ∧ id ≠ CONNECT_ID ∧ blank out p sp
  | Connect => id = CONNECT_ID
  | _ => data_id id = true → blank out p sp
  end.

Definition entry_left (e : Role * list OutChunk * N * N) : N :=
  let '(role, out, _, _) := e in if is_wt_data role then payload_left out else 0.
(** The payload queued on a stream. *)
Definition queued (s : WtSession) (id : N) : N :=
  match ws_streams s !! id with Some st => entry_left (ent st) | None => 0 end.

(** [n] bytes of payload have been handed over in the flush under way and are not
    in the session's count yet; [T] bytes have been written in all; [K] bounds the
    ids given out.  [A] is what the session has counted for each stream. *)
Record books (n T K : N) (w : World C) : Prop := mkBooks {
  bk_server : ws_is_server (w_ses w) = srv;
  bk_bits b : has_bits (next_id b (w_ses w)) srv b = true;
  bk_first b : first_id srv b <= next_id b (w_ses w);
  bk_room b : next_id b (w_ses w) + 4 * lenN (ws_pending_opens (w_ses w)) <= K;
  bk_future id b : has_bits id srv b = true → next_id b (w_ses w) <= id → wire_size (w_conn w) id = 0;
  bk_account : ∃ A, total A (ws_fc_data_sent (w_ses w) + n) ∧
    (∀ id, data_id id = true → wire_size (w_conn w) id <= A id + signal_len id) ∧
    (∀ id st, ws_streams (w_ses w) !! id = Some st → held A (w_ses w) (w_conn w) id (ent st));
  bk_queued : ∃ R, total (queued (w_ses w)) R ∧ ws_fc_data_sent (w_ses w) + n + R <= T;
}.

(** Besides, where the limit [m] is enforced: the count is within it, or no
    payload has been handed over since [c0]. *)
Record ledger (e : bool) (m : N) (c0 : C) (n T K : N) (w : World C) : Prop := mkLedger {
  lg_books : books n T K w;
  lg_limit : e = true → ws_fc_data_sent (w_ses w) + n <= m ∨ ∀ id, payload (w_conn w) id <= payload c0 id;
}.

(** ** Reading respects it *)

Lemma held_quieter A s s' c c' id e :
  (∀ b, next_id b s' = next_id b s) → wire_size c' id <= wire_size c id → held A s c id e → held A s' c' id e.
Proof.
  intros Hn Hw. destruct e as [[[role out] p] sp]. destruct role; try done. intros [H1 H2 H3 H4 H5 H6].
  constructor; [done|intros b; rewrite Hn; apply H2|done|done|done|]. intros H. destruct (H6 H). split; [lia|done].
Qed.

(** The table changes: an entry is an old one, or one that any account holds and
    that queues no payload. *)
Definition harmless (w : World C) (id : N) (e : Role * list OutChunk * N * N) : Prop :=
  (∀ A, held A (w_ses w) (w_conn w) id e) ∧ entry_left e = 0.

Lemma queued_entry s id : queued s id = match ent <$> ws_streams s !! id with Some e => entry_left e | None => 0 end.
Proof. unfold queued. by destruct (ws_streams s !! id). Qed.

Lemma ledger_table e m c0 n T K w f :
  (∀ id st', f (ws_streams (w_ses w)) !! id = Some st' →
    ent <$> ws_streams (w_ses w) !! id = Some (ent st') ∨ harmless w id (ent st')) →
  ledger e m c0 n T K w → ledger e m c0 n T K (w <| w_ses ::= fun s => s <| ws_streams ::= f |> |>).
Proof.
  intros Hf [[H1 H2 H3 H4 H5 (A & HA & Hw & Hh) (R & HR & HT)] Hl]. split; [|done].
  constructor; try done.
  - exists A. split; [done|]. split; [done|]. intros id st' Hst'.
    apply (held_quieter A (w_ses w) _ (w_conn w)); [by intros []|done|]. apply Hf in Hst' as [E|[Ha _]]; [|apply Ha].
    destruct (ws_streams (w_ses w) !! id) as [st|] eqn:Hst; [|done]. cbn [fmap option_fmap option_map] in E.
    apply Some_inj in E. rewrite <- E. by apply Hh.
  - exists R. split; [|done]. apply (total_mono (queued (w_ses w)) _ R R HR); [|done]. intros id. rewrite !queued_entry.
    change (ws_streams (w_ses (w <| w_ses ::= fun s => s <| ws_streams ::= f |> |>))) with (f (ws_streams (w_ses w))).
    destruct (f (ws_streams (w_ses w)) !! id) as [st'|] eqn:Hst'; cbn [fmap option_fmap option_map]; [|lia].
    apply Hf in Hst' as [->|[_ ->]]; [done|lia].
Qed.

Lemma held_connect A s c role out p sp out' p' sp' A' :
  held A s c CONNECT_ID (role, out, p, sp) →
  is_wt_data role = false ∧ held A' s c CONNECT_ID (role, out', p', sp').
Proof.
  destruct role; cbn [held is_wt_data]; try rewrite data_connect; try done.
  - intros [Hd _ _ _ _ _]. by rewrite data_connect in Hd.
  - by intros (_ & ? & _).
  - by intros (_ & ? & _).
Qed.

#[export] Instance ledger_kept e m c0 n T K : Kept (ledger e m c0 n T K).
Proof.
  split.
  - intros w w' [E S Q] [[H1 H2 H3 H4 H5 (A & HA & Hw & Hh) (R & HR & HT)] Hl].
    unfold scalars in S. injection S as S1 S2 S3 S4 S5. cbn in Q.
    assert (Hn : ∀ b, next_id b (w_ses w') = next_id b (w_ses w)) by by intros [].
    split; [|intros He; rewrite S2; destruct (Hl He) as [|Hp]; [by left|right]; intros id; specialize (Hp id);
      pose proof (payload_quieter _ _ _ (Q id)); lia].
    constructor; [congruence|intros b; by rewrite Hn|intros b; by rewrite Hn|intros b; by rewrite Hn, S5| | |].
    + intros id b Hb. rewrite Hn. intros Hid. specialize (Q id). rewrite (H5 id b) in Q by done. lia.
    + exists A. rewrite S2. split; [done|]. split; [intros id Hd; specialize (Q id); specialize (Hw id Hd); lia|].
      intros id st' Hst'. specialize (E id). rewrite Hst' in E.
      destruct (ws_streams (w_ses w) !! id) as [st|] eqn:Hst; [|done]. injection E as E1 E2 E3 E4.
      apply (held_quieter A (w_ses w) _ (w_conn w) _ id _ Hn (Q id)). unfold ent. rewrite E1, E2, E3, E4. by apply Hh.
    + exists R. rewrite S2. split; [|done]. apply (total_mono _ _ R R HR); [|done]. intros id. by rewrite !queued_entry, E.
  - intros w id st [[_ _ _ _ _ (A & _ & _ & Hh) _] _] Hst Hr. specialize (Hh id st Hst). unfold held, ent in Hh. by rewrite Hr in Hh.
  - intros w f Hf Hw. apply ledger_table; [|done]. destruct Hw as [[_ _ _ _ _ (A & _ & _ & Hh) _] _].
    intros id st'. rewrite lookup_alter. case_decide; [subst|intros ->; by left].
    destruct (ws_streams (w_ses w) !! CONNECT_ID) as [st|] eqn:Hst; [|done]. intros [= <-]. right.
    specialize (Hh _ _ Hst). unfold ent in *. rewrite Hf. split; [intros A'; by eapply held_connect|].
    apply (held_connect _ _ _ _ _ _ _ [] 0 0 A) in Hh as [Hd _]. unfold entry_left. by rewrite Hd.
  - intros w st Hr Hw. apply ledger_table; [|done]. intros id st'. rewrite lookup_insert. case_decide; [|intros ->; by left].
    intros [= <-]. right. unfold ent, harmless. rewrite Hr. by subst.
  - intros w m' Hm Hw. apply (ledger_table _ _ _ _ _ _ w (fun _ => m')); [|done]. intros id st Hst. left.
    by rewrite (lookup_weaken _ _ _ _ Hst Hm).
  - intros w id st role Hst Hu Hr Hw. apply ledger_table; [|done]. destruct Hw as [[_ _ _ _ _ (A & _ & _ & Hh) _] _].
    intros i st'. rewrite lookup_alter. case_decide; [subst i|intros ->; by left]. rewrite Hst. intros [= <-]. right.
    specialize (Hh _ _ Hst). unfold ent, held in Hh. cbn.
    assert (Hp : ours id = false ∧ id ≠ CONNECT_ID ∧ blank (st_out st) (st_send_payload st) (st_send_prefix st)) by by destruct (st_role st).
    destruct Hp as (Ho & Hne & Hout & Hp & Hsp). unfold harmless, ent. cbn. rewrite Hout, Hp, Hsp.
    split; [|by destruct role]. intros A'. destruct role; try done. constructor; cbn; try (done || apply N.le_0_l).
    + by apply data_theirs.
    + intros b Hb. unfold ours in Ho. apply orb_false_iff in Ho as [Ht Hf]. destruct b; congruence.
Qed.
End books.

(** ** The calls of the application *)

Section calls.
Context {C : Type} {quic : Quic C} {wire : QuicWire C} {resets : QuicResets C}.
Context {alloc : Allocator} {qpack : Qpack} {sfv : Sfv}.
Context (srv e : bool) (m : N) (c0 : C).
Abbreviation led := (ledger srv e m c0).

Lemma ledger_weaken n T T' K K' w : led n T K w → T <= T' → K <= K' → led n T' K' w.
Proof.
  intros [[H1 H2 H3 H4 H5 Ha (R & HR & HT)] Hl] ? ?. split; [|done]. constructor; try done.
  - intros b. specialize (H4 b). lia.
  - exists R. split; [done|]. lia.
Qed.

(** Inserting a stream that any account holds. *)
Lemma insert_ledger n T K id st w :
  harmless srv w id (ent st) → led n T K w → wlp (insert_stream id st) (fun _ w' => led n T K w') w.
Proof.
  intros Hh Hw. apply wlp_bind, wlp_gets, wlp_bind, wlp_modify. eapply (run_mt (led n T K)).
  - destruct (ws_streams (w_ses w) !! id); mt.
  - apply ledger_table; [|done]. intros i st'. rewrite lookup_insert. case_decide; [|intros ->; by left].
    intros [= <-]. right. by subst.
Qed.

(** A stream seen for the first time. *)
Lemma discover_ledger n T K id w :
  led n T K w →
  wlp (st ← ses (fun s => new_stream (classify_new id (ws_is_server s)) (ws_parser_memory s)); insert_stream id st)
    (fun _ w' => led n T K w') w.
Proof.
  intros Hw. apply wlp_bind, wlp_gets. rewrite (bk_server _ _ _ _ _ (lg_books _ _ _ _ _ _ _ _ Hw)).
  apply insert_ledger; [|done]. pose proof (classify_new_fits id srv) as Hf. unfold harmless, ent, new_stream. cbn.
  assert (Htheirs : ∀ b, has_bits id (negb srv) b = true → ours srv id = false).
  { intros b Hb. unfold ours. apply orb_false_iff.
    split; match goal with |- ?h = false => destruct h eqn:Hb' end; try done;
      destruct (has_bits_inj _ _ _ _ _ Hb Hb') as [Hs _]; by destruct srv. }
  assert (Hblank : blank [] 0 0) by done. pose proof (classify_new_not_data id srv) as Hnd.
  split; [|by destruct (classify_new id srv)]. intros A.
  destruct (classify_new id srv); cbn in *; try done; try (intros _; exact Hblank).
  - by apply N.eqb_eq in Hf.
  - split; [by eapply Htheirs|]. split; [|done]. intros ->. clear -Hf. by destruct srv.
  - apply andb_true_iff in Hf as [Hf Hne]. apply negb_true_iff, N.eqb_neq in Hne. split; [by eapply Htheirs|done].
Qed.

Lemma on_readable_ledger n T K id backpressured w :
  led n T K w → wlp (on_readable id backpressured) (fun _ w' => led n T K w') w.
Proof.
  intros Hw. apply wlp_bind, wlp_gets. destruct (ws_closed (w_ses w)); [by apply wlp_ret|].
  apply wlp_bind, wlp_gets, wlp_bind. eapply (wlp_mono _ (fun _ w' => led n T K w')).
  { destruct (ws_streams (w_ses w) !! id); [by apply wlp_ret|by apply discover_ledger]. }
  intros _ w1 H1. apply (run_mt (led n T K)); [mt|done].
Qed.

Lemma on_established_ledger n T K w : led n T K w → wlp on_established (fun _ w' => led n T K w') w.
Proof.
  intros Hw. apply wlp_bind, wlp_gets. destruct (ws_setup_sent (w_ses w)); [by apply wlp_ret|].
  apply wlp_bind, wlp_modify, wlp_bind, wlp_gets.
  match goal with |- wlp _ _ ?w' => set (w1 := w') end.
  assert (H1 : led n T K w1) by (apply (blind w); [by constructor|done]).
  rewrite (bk_server _ _ _ _ _ (lg_books _ _ _ _ _ _ _ _ H1)). clearbody w1. clear w Hw.
  assert (Hins : ∀ id prefix memory w, data_id srv id = false → led n T K w →
    wlp (insert_stream id (with_prefix LocalControlPlane prefix memory)) (fun _ w' => led n T K w') w).
  { intros id prefix memory w Hd Hw. apply insert_ledger; [|done]. unfold with_prefix, harmless, ent.
    destruct prefix; cbn; (split; [intros _; by rewrite Hd|done]). }
  destruct srv eqn:Es; cbn [negb when]; apply wlp_bind, wlp_gets, wlp_bind.
  all: eapply wlp_mono; [apply Hins; [reflexivity|done]|]; cbv beta; intros _ w2 H2; apply wlp_bind.
  all: eapply wlp_mono; [apply Hins; [reflexivity|done]|]; cbv beta; intros _ w3 H3; apply wlp_bind.
  all: eapply wlp_mono; [apply Hins; [reflexivity|done]|]; cbv beta; intros _ w4 H4.
  - by apply wlp_ret.
  - apply (run_mt (ledger false e m c0 n T K)); [mt|done].
Qed.

(** A stream of ours is opened: it has the next id, of which QUIC has accepted
    nothing. *)
Definition advance (bidi : bool) (s : WtSession) : WtSession :=
  if bidi then s <| ws_next_bidi ::= fun n => add64 n 4 |> else s <| ws_next_uni ::= fun n => add64 n 4 |>.

#[local] Arguments advance : simpl never.
Lemma advance_next bidi b s K :
  next_id bidi s + 4 <= K → K < U64 →
  next_id b (advance bidi s) = next_id b s + (if Bool.eqb b bidi then 4 else 0).
Proof.
  intros HK HU. unfold advance. destruct bidi, b; cbn in *; rewrite ?N.add_0_r; try done; apply add64_small; lia.
Qed.

Lemma advance_ledger bidi n T K w :
  led n T K w → next_id bidi (w_ses w) + 4 * (1 + lenN (ws_pending_opens (w_ses w))) <= K → K < U64 →
  led n T K (w <| w_ses ::= advance bidi |>).
Proof.
  intros [[H1 H2 H3 H4 H5 (A & HA & Hw & Hh) HR] Hl] HK HU.
  assert (Hn : ∀ b, next_id b (advance bidi (w_ses w)) = next_id b (w_ses w) + (if Bool.eqb b bidi then 4 else 0)).
  { intros b. apply (advance_next bidi b (w_ses w) K); [lia|done]. }
  assert (Hsame : ∀ A (f : WtSession → A), (∀ n s, f (s <| ws_next_bidi := n |>) = f s) →
    (∀ n s, f (s <| ws_next_uni := n |>) = f s) → f (advance bidi (w_ses w)) = f (w_ses w)).
  { intros ? f Hb Hu. unfold advance. destruct bidi; [apply (Hb (add64 _ 4))|apply (Hu (add64 _ 4))]. }
  assert (Es : ws_fc_data_sent (advance bidi (w_ses w)) = ws_fc_data_sent (w_ses w)) by by destruct bidi.
  split; [|intros He; cbn; rewrite Es; by apply Hl]. constructor; cbn.
  - by rewrite (Hsame _ ws_is_server).
  - intros b. specialize (H2 b). rewrite Hn. rewrite has_bits_mod in *. destruct (Bool.eqb b bidi); [|by rewrite N.add_0_r].
    by rewrite <- N.Div0.add_mod_idemp_r, N.add_0_r.
  - intros b. rewrite Hn. specialize (H3 b). lia.
  - intros b. rewrite Hn, (Hsame _ ws_pending_opens) by done. specialize (H4 b).
    destruct (Bool.eqb b bidi) eqn:Eb; [apply eqb_prop in Eb as ->|]; lia.
  - intros id b Hb. rewrite Hn. intros Hid. apply (H5 id b Hb). lia.
  - exists A. rewrite Es. split; [done|]. split; [done|].
    intros id st. rewrite (Hsame _ ws_streams) by done. intros Hst. specialize (Hh id st Hst). unfold ent, held in *.
    destruct (st_role st); try done. destruct Hh as [G1 G2 G3 G4 G5 G6]. constructor; try done.
    intros b Hb. rewrite Hn. specialize (G2 b Hb). lia.
  - by rewrite Es, (Hsame _ queued).
Qed.

Lemma next_harmless bidi memory n T K w :
  led n T K w → next_id bidi (w_ses w) + 4 <= K → K < U64 →
  harmless srv (w <| w_ses ::= advance bidi |>) (next_id bidi (w_ses w))
    (ent (with_prefix (WtData bidi) (stream_prefix bidi) memory)).
Proof.
  intros [[_ H2 H3 _ H5 _ _] _] HK HU. specialize (H2 bidi). specialize (H3 bidi).
  assert (Hours : ours srv (next_id bidi (w_ses w)) = true) by (unfold ours; destruct bidi; rewrite H2; auto using orb_true_r).
  assert (Hlen : lenN (stream_prefix bidi) = 3) by (by destruct bidi).
  assert (E : ent (with_prefix (WtData bidi) (stream_prefix bidi) memory) =
    (WtData bidi, [mkOutChunk (stream_prefix bidi) 0 None], 0, 3)) by (unfold ent; by destruct bidi).
  rewrite E. split; [|done]. intros A. constructor; cbn [tail].
  - by eapply data_next.
  - intros b Hb. destruct (has_bits_inj _ _ _ _ _ Hb H2) as [_ ->]. cbn.
    rewrite (advance_next bidi bidi (w_ses w) K HK HU), eqb_reflx. lia.
  - apply N.le_0_l.
  - unfold signal_len. by rewrite Hours.
  - by apply Forall_nil_2.
  - intros _. cbn. rewrite (H5 _ bidi H2) by done. unfold signal_len. rewrite Hours.
    split; [|done]. unfold signal_left, left_of. cbn. rewrite Nat.sub_0_r. unfold lenN in Hlen. rewrite Hlen. done.
Qed.

Lemma allocate_ledger bidi rid n T K w :
  led n T K w → next_id bidi (w_ses w) + 4 * (1 + lenN (ws_pending_opens (w_ses w))) <= K → K < U64 →
  wlp (allocate_stream bidi rid) (fun _ w' => led n T K w' ∧ ws_pending_opens (w_ses w') = ws_pending_opens (w_ses w) ∧
    ∀ b, next_id b (w_ses w') = next_id b (w_ses w) + if Bool.eqb b bidi then 4 else 0) w.
Proof.
  intros Hw HK HU. apply wlp_bind, wlp_gets, wlp_bind, wlp_modify.
  change (fun s => if bidi then _ else _) with (advance bidi).
  pose proof (advance_ledger bidi n T K w Hw HK HU) as H1.
  set (obs := fun s => (ws_pending_opens s, ws_next_bidi s, ws_next_uni s)).
  eapply wlp_mono.
  { apply wlp_and; [|apply (wlp_keeps (of_ses obs)); unfold insert_stream; keep]. apply wlp_bind, wlp_gets, wlp_bind.
    eapply wlp_mono; [apply insert_ledger; [|exact H1]; eapply next_harmless; [done| |done]; lia|]. cbv beta.
    intros _ w2 H2. apply (run_mt (led n T K)); [mt|exact H2]. }
  cbv beta. intros _ w2 [H2 E]. split; [done|]. unfold of_ses, obs in E. injection E as E1 E2 E3. split.
  - rewrite E1. unfold advance. by destruct bidi.
  - intros b. rewrite <- (advance_next bidi b (w_ses w) K) by (done || lia). destruct b; [exact E2|exact E3].
Qed.
End calls.

(** ** One stream at a time *)

Section stream.
Context {C : Type} {quic : Quic C} {wire : QuicWire C} {resets : QuicResets C}.
Context {alloc : Allocator}.
Context (srv e : bool) (m : N) (c0 : C).
Abbreviation led := (ledger srv e m c0).

Definition steady (s : WtSession) := (ws_is_server s, ws_next_bidi s, ws_next_uni s, ws_pending_opens s).

(** Only the entry of [id] changes, to [en]. *)
Record enters (id : N) (en : Role * list OutChunk * N * N) (w w' : World C) : Prop := mkEnters {
  en_entries i : ent <$> ws_streams (w_ses w') !! i = if decide (id = i) then Some en else ent <$> ws_streams (w_ses w) !! i;
  en_steady : steady (w_ses w') = steady (w_ses w);
  en_others i : id ≠ i → wire_size (w_conn w') i <= wire_size (w_conn w) i;
}.

Lemma enters_next id en w w' : enters id en w w' → ∀ b, next_id b (w_ses w') = next_id b (w_ses w).
Proof. intros [_ S _]. unfold steady in S. injection S as _ S1 S2 _. by intros []. Qed.

(** A stream of application data moves on; the account of it may change with it. *)
Lemma ledger_enters id b out p sp out' p' n n' T T' K w w' :
  led n T K w → ent <$> ws_streams (w_ses w) !! id = Some (WtData b, out, p, sp) →
  enters id (WtData b, out', p', sp) w w' →
  (∀ A, total A (ws_fc_data_sent (w_ses w) + n) → wire_size (w_conn w) id <= A id + signal_len srv id →
    sends_data srv A (w_ses w) (w_conn w) id out p sp →
    ∃ A', total A' (ws_fc_data_sent (w_ses w') + n') ∧ (∀ i, id ≠ i → A i <= A' i) ∧
      wire_size (w_conn w') id <= A' id + signal_len srv id ∧ p' <= A' id ∧
      Forall (fun ch => is_payload ch = true) (tail out') ∧
      (signal_left out' ≠ 0 → wire_size (w_conn w') id + signal_left out' <= signal_len srv id ∧ p' = 0)) →
  (∀ R, total (queued (w_ses w)) R → ws_fc_data_sent (w_ses w) + n + R <= T → payload_left out <= R →
    ∃ R', total (queued (w_ses w')) R' ∧ ws_fc_data_sent (w_ses w') + n' + R' <= T') →
  (e = true → (ws_fc_data_sent (w_ses w) + n <= m ∨ ∀ i, payload srv (w_conn w) i <= payload srv c0 i) →
    ws_fc_data_sent (w_ses w') + n' <= m ∨ payload srv (w_conn w') id <= payload srv c0 id ∧
      (∀ i, payload srv (w_conn w) i <= payload srv c0 i)) →
  led n' T' K w'.
Proof.
  intros [[H1 H2 H3 H4 H5 (A & HA & Hw & Hh) (R & HR & HT)] Hl] Hst Hen Hacc Hq Hlim.
  pose proof (enters_next _ _ _ _ Hen) as Hn. destruct Hen as [E S Q].
  destruct (ws_streams (w_ses w) !! id) as [st|] eqn:Hlk; [|done]. apply Some_inj in Hst.
  pose proof (Hh id st Hlk) as Hid. rewrite Hst in Hid. cbn [held] in Hid.
  destruct (Hacc A HA (Hw id (sd_id _ _ _ _ _ _ _ _ Hid)) Hid) as (A' & HA' & Ho & Hw' & Hp' & Hshape & Hsig).
  unfold steady in S. injection S as S1 S2 S3 S4. split; [constructor|].
  - congruence.
  - intros b'. by rewrite Hn.
  - intros b'. by rewrite Hn.
  - intros b'. by rewrite Hn, S4.
  - intros i b' Hb. rewrite Hn. intros Hi. assert (Hne : id ≠ i).
    { intros ->. pose proof (sd_given _ _ _ _ _ _ _ _ Hid b' Hb). lia. }
    specialize (Q i Hne). rewrite (H5 i b') in Q by done. lia.
  - exists A'. split; [done|]. split.
    + intros i Hd. destruct (decide (id = i)) as [<-|Hne]; [done|]. specialize (Q i Hne). specialize (Ho i Hne). specialize (Hw i Hd). lia.
    + intros i st' Hst'. specialize (E i). rewrite Hst' in E. cbn [fmap option_fmap option_map] in E. destruct (decide (id = i)) as [<-|Hne].
      * apply Some_inj in E. rewrite E. destruct Hid as [G1 G2 G3 G4 G5 G6]. constructor; try done. intros b'. rewrite Hn. apply G2.
      * destruct (ws_streams (w_ses w) !! i) as [st0|] eqn:H0; [|done]. apply Some_inj in E. rewrite E.
        pose proof (held_quieter srv A _ _ _ _ i (ent st0) Hn (Q i Hne) (Hh i st0 H0)) as G. unfold held, ent in *.
        destruct (st_role st0); try done. destruct G as [G1 G2 G3 G4 G5 G6]. specialize (Ho i Hne). constructor; try done. lia.
  - apply (Hq R HR HT). pose proof (total_single _ _ id HR) as HR1. unfold queued in HR1. rewrite Hlk, Hst in HR1. exact HR1.
  - intros He. destruct (Hlim He (Hl He)) as [?|[Hp Hall]]; [by left|right]. intros i.
    destruct (decide (id = i)) as [<-|Hne]; [done|]. specialize (Hall i).
    pose proof (payload_quieter srv _ _ i (Q i Hne)). lia.
Qed.

(** A stream that carries no application data moves on. *)
Lemma ledger_enters_other id role out p sp out' p' sp' n T K w w' :
  led n T K w → ent <$> ws_streams (w_ses w) !! id = Some (role, out, p, sp) → is_wt_data role = false → out ≠ [] →
  enters id (role, out', p', sp') w w' → ws_fc_data_sent (w_ses w') = ws_fc_data_sent (w_ses w) →
  led n T K w'.
Proof.
  intros [[H1 H2 H3 H4 H5 (A & HA & Hw & Hh) (R & HR & HT)] Hl] Hst Hd Hne Hen Hfc.
  pose proof (enters_next _ _ _ _ Hen) as Hn. destruct Hen as [E S Q].
  destruct (ws_streams (w_ses w) !! id) as [st|] eqn:Hlk; [|done]. apply Some_inj in Hst.
  pose proof (Hh id st Hlk) as Hid. rewrite Hst in Hid. cbn [held] in Hid.
  assert (Hno : data_id srv id = false ∧ ∀ A, held srv A (w_ses w') (w_conn w') id (role, out', p', sp')).
  { destruct role; try done; cbn [held] in *;
      try (destruct (data_id srv id) eqn:Ed; [by destruct (Hid eq_refl) as [-> _]|done]).
    - rewrite Hid. split; [apply data_connect|done].
    - by destruct Hid as (_ & _ & -> & _).
    - by destruct Hid as (_ & _ & -> & _). }
  destruct Hno as [Hno Hheld]. unfold steady in S. injection S as S1 S2 S3 S4. split; [constructor|].
  - congruence.
  - intros b'. by rewrite Hn.
  - intros b'. by rewrite Hn.
  - intros b'. by rewrite Hn, S4.
  - intros i b' Hb. rewrite Hn. intros Hi. assert (Hne' : id ≠ i).
    { intros ->. specialize (H3 b'). rewrite (data_next srv i b' Hb) in Hno by lia. done. }
    specialize (Q i Hne'). rewrite (H5 i b') in Q by done. lia.
  - exists A. rewrite Hfc. split; [done|]. split.
    + intros i Hi. assert (Hne' : id ≠ i) by congruence. specialize (Q i Hne'). specialize (Hw i Hi). lia.
    + intros i st' Hst'. specialize (E i). rewrite Hst' in E. cbn [fmap option_fmap option_map] in E. destruct (decide (id = i)) as [<-|Hne'].
      * apply Some_inj in E. rewrite E. apply Hheld.
      * destruct (ws_streams (w_ses w) !! i) as [st0|] eqn:H0; [|done]. apply Some_inj in E. rewrite E.
        by apply (held_quieter srv A _ _ _ _ i (ent st0) Hn (Q i Hne')), Hh.
  - exists R. rewrite Hfc. split; [|done]. apply (total_mono _ _ R R HR); [|done]. intros i. rewrite !queued_entry, E.
    destruct (decide (id = i)) as [<-|]; [|done]. unfold entry_left. rewrite Hd. lia.
  - intros He. rewrite Hfc. destruct (Hl He) as [?|Hall]; [by left|right]. intros i. specialize (Hall i).
    destruct (decide (id = i)) as [<-|Hne']; [unfold payload; rewrite Hno; lia|].
    pose proof (payload_quieter srv _ _ i (Q i Hne')). lia.
Qed.
End stream.

(** *** Sending, writing, resetting *)

(** The queue after [sent] bytes of its front. *)
Definition sent_queue (front : OutChunk) (rest : list OutChunk) (sent : nat) : list OutChunk :=
  if (length (oc_data front) <=? oc_off front + sent)%nat then rest
  else front <| oc_off := (oc_off front + sent)%nat |> :: rest.

Lemma payload_left_cons ch out : payload_left (ch :: out) = (if is_payload ch then left_of ch else 0) + payload_left out.
Proof. done. Qed.
Lemma signal_left_cons ch out : signal_left (ch :: out) = (if is_payload ch then 0 else left_of ch) + signal_left out.
Proof. done. Qed.
Lemma payload_left_app out k : payload_left (out ++ k) = payload_left out + payload_left k.
Proof. unfold payload_left. by rewrite map_app, sum_list_N_app. Qed.
Lemma signal_left_app out k : signal_left (out ++ k) = signal_left out + signal_left k.
Proof. unfold signal_left. by rewrite map_app, sum_list_N_app. Qed.
Lemma signal_left_payload out : Forall (fun ch => is_payload ch = true) out → signal_left out = 0.
Proof. induction 1 as [|ch out Hc _ IH]; [done|]. by rewrite signal_left_cons, Hc, IH. Qed.

Lemma sent_queue_left front rest sent :
  (sent <= length (oc_data front) - oc_off front)%nat →
  payload_left (sent_queue front rest sent) + (if is_payload front then N.of_nat sent else 0) = payload_left (front :: rest) ∧
  signal_left (sent_queue front rest sent) + (if is_payload front then 0 else N.of_nat sent) = signal_left (front :: rest).
Proof.
  intros Hs. rewrite payload_left_cons, signal_left_cons. unfold sent_queue.
  destruct (Nat.leb_spec (length (oc_data front)) (oc_off front + sent)) as [Hd|Hm].
  - assert (left_of front = N.of_nat sent) as -> by (unfold left_of; lia). destruct (is_payload front); lia.
  - rewrite payload_left_cons, signal_left_cons.
    change (is_payload (front <| oc_off := _ |>)) with (is_payload front).
    assert (left_of (front <| oc_off := (oc_off front + sent)%nat |>) + N.of_nat sent = left_of front) by (unfold left_of; cbn; lia).
    destruct (is_payload front); lia.
Qed.
Lemma sent_queue_shape front rest sent :
  Forall (fun ch => is_payload ch = true) rest → Forall (fun ch => is_payload ch = true) (tail (sent_queue front rest sent)).
Proof. intros H. unfold sent_queue. destruct (_ <=? _)%nat; [|done]. destruct rest; [done|]. by apply Forall_cons in H as [_ ?]. Qed.

Section sending.
Context {C : Type} {quic : Quic C} {wire : QuicWire C} {resets : QuicResets C}.
Context {alloc : Allocator}.
Context (srv e : bool) (m : N) (c0 : C).
Abbreviation led := (ledger srv e m c0).

Lemma queued_enters id en w w' i :
  enters id en w w' → queued (w_ses w') i = if decide (id = i) then entry_left en else queued (w_ses w) i.
Proof. intros [E _ _]. rewrite !queued_entry, E. by case_decide. Qed.

(** What is queued is within what has been written. *)
Lemma ledger_room n T K w id b out p sp :
  led n T K w → ent <$> ws_streams (w_ses w) !! id = Some (WtData b, out, p, sp) →
  ws_fc_data_sent (w_ses w) + n + payload_left out <= T ∧ p <= ws_fc_data_sent (w_ses w) + n.
Proof.
  intros [[_ _ _ _ _ (A & HA & _ & Hh) (R & HR & HT)] _] Hst. split.
  - pose proof (total_single _ _ id HR) as H. rewrite queued_entry, Hst in H. cbn in H. lia.
  - destruct (ws_streams (w_ses w) !! id) as [st|] eqn:Hlk; [|done]. apply Some_inj in Hst.
    specialize (Hh id st Hlk). rewrite Hst in Hh. pose proof (sd_payload _ _ _ _ _ _ _ _ Hh).
    pose proof (total_single _ _ id HA). lia.
Qed.

Lemma payload_sent id b front rest p sp sent n T K w w' :
  led n T K w → T < U64 → ent <$> ws_streams (w_ses w) !! id = Some (WtData b, front :: rest, p, sp) →
  is_payload front = true → (sent <= length (oc_data front) - oc_off front)%nat →
  enters id (WtData b, sent_queue front rest sent, add64 p (N.of_nat sent), sp) w w' →
  ws_fc_data_sent (w_ses w') = ws_fc_data_sent (w_ses w) →
  wire_size (w_conn w') id <= wire_size (w_conn w) id + N.of_nat sent →
  (e = true → sent = 0%nat ∨ ws_fc_data_sent (w_ses w) + n + N.of_nat sent <= m) →
  led (add64 n (N.of_nat sent)) T K w'.
Proof.
  intros Hw HT Hst Hpay Hs Hen Hfc Hwire Hlim. set (s := N.of_nat sent) in *.
  destruct (ledger_room n T K w id _ _ _ _ Hw Hst) as [Hroom Hp].
  destruct (sent_queue_left front rest sent Hs) as [Hleft _]. rewrite Hpay in Hleft. fold s in Hleft.
  rewrite (add64_small n s) by lia. rewrite (add64_small p s) in Hen by lia.
  eapply (ledger_enters srv e m c0 id); [exact Hw|exact Hst|exact Hen|..]; rewrite Hfc.
  - intros A HA HwA [G1 G2 G3 G4 G5 G6]. exists (fun i => if decide (id = i) then A i + s else A i).
    rewrite decide_True by done. split; [|split; [intros i Hne; by rewrite decide_False|]].
    + rewrite N.add_assoc. apply (total_add A _ id); [done|intros i Hne; by rewrite decide_False|by rewrite decide_True].
    + split; [lia|]. split; [lia|]. split; [by apply sent_queue_shape|]. intros Hsig. destruct Hsig.
      apply signal_left_payload. unfold sent_queue. destruct (_ <=? _)%nat; [done|]. by apply Forall_cons.
  - intros R HR HTR HleR. exists (R - s). split; [|lia]. apply (total_sub (queued (w_ses w)) _ id); [done|..].
    + intros i Hne. by rewrite (queued_enters _ _ _ _ i Hen), decide_False.
    + rewrite (queued_enters _ _ _ _ id Hen), decide_True, queued_entry, Hst by done. cbn [entry_left is_wt_data]. lia.
  - intros He Hold. destruct (Hlim He) as [Hz|Hm]; [|left; lia].
    assert (E0 : s = 0) by (unfold s; by rewrite Hz). clearbody s. subst s. destruct Hold as [Hold|Hold]; [left; lia|right].
    split; [|done]. specialize (Hold id). pose proof (payload_quieter srv (w_conn w) (w_conn w') id ltac:(lia)). lia.
Qed.

Lemma signal_sent id b front rest p sp sent n T K w w' :
  led n T K w → ent <$> ws_streams (w_ses w) !! id = Some (WtData b, front :: rest, p, sp) →
  is_payload front = false → (sent <= length (oc_data front) - oc_off front)%nat →
  enters id (WtData b, sent_queue front rest sent, p, sp) w w' →
  ws_fc_data_sent (w_ses w') = ws_fc_data_sent (w_ses w) →
  wire_size (w_conn w') id <= wire_size (w_conn w) id + N.of_nat sent →
  led n T K w'.
Proof.
  intros Hw Hst Hpay Hs Hen Hfc Hwire. set (s := N.of_nat sent) in *.
  destruct (sent_queue_left front rest sent Hs) as [Hleft Hsl]. rewrite Hpay in Hleft, Hsl. fold s in Hsl.
  assert (Hsig : ∀ A, sends_data srv A (w_ses w) (w_conn w) id (front :: rest) p sp →
    s = 0 ∨ wire_size (w_conn w') id + signal_left (sent_queue front rest sent) <= signal_len srv id ∧ p = 0).
  { intros A G. destruct (N.eq_dec s 0) as [|Hne]; [by left|right].
    destruct (sd_signal _ _ _ _ _ _ _ _ G) as [Hw1 Hp0]; lia. }
  assert (Hd : ∃ A, sends_data srv A (w_ses w) (w_conn w) id (front :: rest) p sp).
  { destruct Hw as [[_ _ _ _ _ (A & _ & _ & Hh) _] _]. destruct (ws_streams (w_ses w) !! id) as [st|] eqn:Hlk; [|done].
    apply Some_inj in Hst. specialize (Hh id st Hlk). rewrite Hst in Hh. by exists A. }
  eapply (ledger_enters srv e m c0 id); [exact Hw|exact Hst|exact Hen|..]; rewrite Hfc.
  - intros A HA HwA G. exists A. split; [done|]. split; [done|]. pose proof (Hsig A G) as Hs'.
    destruct G as [G1 G2 G3 G4 G5 G6]. split; [lia|]. split; [done|]. split; [by apply sent_queue_shape|].
    intros Hne. destruct Hs' as [E0|]; [|done]. destruct G6; [lia|]. split; [lia|done].
  - intros R HR HTR HleR. exists R. split; [|done]. apply (total_mono (queued (w_ses w)) _ R); [done| |done].
    intros i. rewrite (queued_enters _ _ _ _ i Hen). case_decide; [|done]. subst i. rewrite queued_entry, Hst. cbn [entry_left is_wt_data]. lia.
  - intros He [Hold|Hold]; [by left|right]. split; [|done]. destruct Hd as [A G]. specialize (Hold id).
    destruct (Hsig A G) as [E0|[Hw0 _]].
    + pose proof (payload_quieter srv (w_conn w) (w_conn w') id ltac:(lia)). lia.
    + unfold payload at 1. destruct (data_id srv id); lia.
Qed.

(** The queue of a stream is given up. *)
Lemma queue_dropped id st p' sp' n T K w w' :
  led n T K w → ws_streams (w_ses w) !! id = Some st → p' = st_send_payload st → sp' = st_send_prefix st →
  enters id (st_role st, [], p', sp') w w' → ws_fc_data_sent (w_ses w') = ws_fc_data_sent (w_ses w) →
  wire_size (w_conn w') id <= wire_size (w_conn w) id → led n T K w'.
Proof.
  intros Hw Hst -> -> Hen Hfc Hwire.
  assert (Hent : ent <$> ws_streams (w_ses w) !! id = Some (st_role st, st_out st, st_send_payload st, st_send_prefix st))
    by by rewrite Hst.
  destruct (is_wt_data (st_role st)) eqn:Hd.
  - destruct (st_role st) as [| | | |enc|b| |]; try done.
    eapply (ledger_enters srv e m c0 id); [exact Hw|exact Hent|exact Hen|..]; rewrite Hfc.
    + intros A HA HwA [G1 G2 G3 G4 G5 G6]. exists A. split; [done|]. split; [done|]. split; [lia|]. split; [done|].
      split; [by apply Forall_nil_2|]. by intros [].
    + intros R HR HTR _. exists R. split; [|done]. apply (total_mono (queued (w_ses w)) _ R); [done| |done].
      intros i. rewrite (queued_enters _ _ _ _ i Hen). case_decide; [|done]. cbn. lia.
    + intros He [Hold|Hold]; [by left|right]. split; [|done]. specialize (Hold id).
      pose proof (payload_quieter srv _ _ id Hwire). lia.
  - destruct (decide (st_out st = [])) as [Hout|Hout].
    + destruct Hen as [E S Q]. unfold steady in S. injection S as S1 S2 S3 S4. apply (blind w); [constructor|done].
      * intros i. rewrite E. case_decide; [|done]. subst i. by rewrite Hent, Hout.
      * unfold scalars. congruence.
      * intros i. destruct (decide (id = i)) as [<-|]; [done|by apply Q].
    + by eapply (ledger_enters_other srv e m c0 id).
Qed.

(** *** The methods *)

Lemma alter_enters id f st w :
  ws_streams (w_ses w) !! id = Some st →
  enters id (ent (f st)) w (w <| w_ses ::= fun s => s <| ws_streams ::= alter f id |> |>).
Proof.
  intros Hst. constructor; [|done|done]. intros i. cbn. rewrite lookup_alter. case_decide; [|done]. subst. by rewrite Hst.
Qed.
Lemma enters_trans id en1 en2 w w1 w2 : enters id en1 w w1 → enters id en2 w1 w2 → enters id en2 w w2.
Proof.
  intros [E1 S1 Q1] [E2 S2 Q2]. constructor; [|congruence|].
  - intros i. rewrite E2, E1. by case_decide.
  - intros i Hi. specialize (Q1 i Hi). specialize (Q2 i Hi). lia.
Qed.

Lemma stream_write_ledger id data rid n T K w :
  led n T K w → (∀ st, ws_streams (w_ses w) !! id = Some st → is_wt_data (st_role st) = true) →
  wlp (stream_write id data rid) (fun _ w' => led n (T + lenN data) K w') w.
Proof.
  intros Hw Hlegal. apply wlp_bind, wlp_gets. destruct (ws_streams (w_ses w) !! id) as [st|] eqn:Hst.
  2: { apply wlp_modify. apply (blind w); [by constructor|]. eapply ledger_weaken; [exact Hw|lia|done]. }
  specialize (Hlegal st eq_refl). apply wlp_modify. set (ch := mkOutChunk data 0 (Some rid)).
  destruct (st_role st) as [| | | |enc|b| |] eqn:Hr; try done.
  assert (Hent : ent <$> ws_streams (w_ses w) !! id = Some (WtData b, st_out st, st_send_payload st, st_send_prefix st))
    by (rewrite Hst; cbn; unfold ent; by rewrite Hr).
  pose proof (alter_enters id (fun st => st <| st_out ::= fun out => out ++ [ch] |>) st w Hst) as Hen.
  unfold ent in Hen. cbn [st_role st_out st_send_payload st_send_prefix] in Hen.
  match type of Hen with enters _ _ _ ?x => set (w' := x) in * end. change (led n (T + lenN data) K w').
  assert (Hfc : ws_fc_data_sent (w_ses w') = ws_fc_data_sent (w_ses w)) by done.
  assert (Hconn : w_conn w' = w_conn w) by done. clearbody w'. cbn in Hen. rewrite Hr in Hen.
  eapply (ledger_enters srv e m c0 id); [exact Hw|exact Hent|exact Hen|..]; rewrite ?Hfc, ?Hconn.
  - intros A HA HwA [G1 G2 G3 G4 G5 G6]. exists A. split; [done|]. split; [done|]. split; [done|]. split; [done|].
    rewrite signal_left_app. change (signal_left [ch]) with 0. rewrite N.add_0_r. split; [|done].
    destruct (st_out st) as [|x out]; cbn [tail app]; [by apply Forall_nil_2|]. apply Forall_app. split; [done|].
    by apply Forall_singleton.
  - intros R HR HTR HleR. exists (R + lenN data). split; [|lia]. apply (total_add (queued (w_ses w)) _ id); [done|..].
    + intros i Hne. by rewrite (queued_enters _ _ _ _ i Hen), decide_False.
    + rewrite (queued_enters _ _ _ _ id Hen), decide_True, queued_entry, Hent by done. cbn [entry_left is_wt_data].
      rewrite payload_left_app. unfold payload_left at 2, left_of. cbn. rewrite Nat.sub_0_r. unfold lenN. lia.
  - intros He [Hold|Hold]; [by left|right]. split; [apply Hold|done].
Qed.

Lemma reconcile_ledger id n T K w :
  led n T K w → wlp (reconcile_send_final_size id) (fun _ w' => led n T K w' ∧
    (∀ i, st_role <$> ws_streams (w_ses w') !! i = st_role <$> ws_streams (w_ses w) !! i) ∧
    w_conn w' = w_conn w ∧ ws_fc_data_sent (w_ses w') <= ws_fc_data_sent (w_ses w)) w.
Proof.
  intros Hw. apply wlp_bind, wlp_gets, wlp_bind, wlp_gets.
  assert (Hsame : led n T K w ∧ (∀ i, st_role <$> ws_streams (w_ses w) !! i = st_role <$> ws_streams (w_ses w) !! i) ∧
    w_conn w = w_conn w ∧ ws_fc_data_sent (w_ses w) <= ws_fc_data_sent (w_ses w)) by by split.
  destruct (stream_send_final_size (w_conn w) id) as [f|] eqn:Ef; [|by apply wlp_ret].
  destruct (ws_streams (w_ses w) !! id) as [st|] eqn:Hst; [|by apply wlp_ret].
  destruct (st_role st) as [| | | |enc|b| |] eqn:Hr; try (by apply wlp_ret). cbn [is_wt_data negb]. cbv zeta.
  destruct (N.ltb_spec (f - st_send_prefix st) (st_send_payload st)) as [Hlt|]; [|by apply wlp_ret].
  set (fp := f - st_send_prefix st) in *. set (d := st_send_payload st - fp).
  apply wlp_bind, wlp_modify, wlp_modify. split; [|split; [|split; [done|cbn; lia]]].
  2: { intros i. cbn. rewrite lookup_alter. case_decide; [subst i; rewrite Hst|]; done. }
  assert (Hent : ent <$> ws_streams (w_ses w) !! id = Some (WtData b, st_out st, st_send_payload st, st_send_prefix st))
    by (rewrite Hst; cbn; unfold ent; by rewrite Hr).
  eapply (ledger_enters srv e m c0 id b _ _ _ (st_out st) fp n n T T K); [exact Hw|exact Hent|constructor; [|done|done]|..].
  - intros i. cbn. rewrite lookup_alter. case_decide; [|done]. subst i. rewrite Hst. cbn. unfold ent. cbn. by rewrite Hr.
  - cbn. intros A HA HwA [G1 G2 G3 G4 G5 G6].
    assert (Ewire : wire_size (w_conn w) id = f).
    { unfold wire_size. rewrite (final_size_counts _ _ _ Ef). lia. }
    exists (fun i => if decide (id = i) then A i - d else A i). rewrite decide_True by done.
    split; [|split; [intros i Hne; by rewrite decide_False|]].
    + apply (total_mono (fun i => if decide (id = i) then A i - d else A i) _ (ws_fc_data_sent (w_ses w) + n - d)); [|done|lia].
      apply (total_sub A _ id); [done|intros i Hne; by rewrite decide_False|rewrite decide_True by done; lia].
    + split; [lia|]. split; [lia|]. split; [done|]. intros Hsig. destruct (G6 Hsig) as [_ Hp0]. lia.
  - cbn. intros R HR HTR _. exists R. split; [|lia]. apply (total_mono (queued (w_ses w)) _ R); [done| |done].
    intros i. rewrite !queued_entry. cbn. rewrite lookup_alter. case_decide; [|done]. subst i. rewrite Hst. cbn. by rewrite Hr.
  - cbn. intros He [Hold|Hold]; [left; lia|right]. split; [apply Hold|done].
Qed.
End sending.

(** ** Flushing and the other calls *)

Definition limit_obs (s : WtSession) := (ws_fc_max_data_remote s, ws_peer_settings s).

Section flushing.
Context {C : Type} {quic : Quic C} {quic_laws : QuicLaws C} {wire : QuicWire C} {resets : QuicResets C}.
Context {alloc : Allocator} {qpack : Qpack} {sfv : Sfv}.
Context (srv e : bool) (m : N) (c0 : C).
Abbreviation led := (ledger srv e m c0).

Lemma give_up_ledger id f n T K w :
  (∀ st, ent (f st) = (st_role st, [], st_send_payload st, st_send_prefix st)) →
  led n T K w → wlp (with_stream id f) (fun _ w' => led n T K w' ∧
    ∀ i, st_role <$> ws_streams (w_ses w') !! i = st_role <$> ws_streams (w_ses w) !! i) w.
Proof.
  intros Hf Hw. apply wlp_modify. split.
  - destruct (ws_streams (w_ses w) !! id) as [st|] eqn:Hst; [|by rewrite streams_alter_missing].
    pose proof (alter_enters id f st w Hst) as Hen. rewrite Hf in Hen.
    by eapply (queue_dropped srv e m c0 id st).
  - intros i. cbn. rewrite lookup_alter. case_decide; [|done]. subst i.
    destruct (ws_streams (w_ses w) !! id) as [st|]; [|done]. cbn. specialize (Hf st). unfold ent in Hf. by injection Hf as ->.
Qed.

Lemma stream_reset_ledger id code n T K w : led n T K w → wlp (stream_reset id code) (fun _ w' => led n T K w') w.
Proof.
  intros Hw. apply wlp_bind, wlp_gets. destruct (ws_streams (w_ses w) !! id); [|by apply wlp_ret]. cbv zeta.
  apply wlp_bind, wlp_modify, wlp_bind. eapply wlp_mono.
  { apply reconcile_ledger. apply (blind w); [|done]. constructor; [done|done|]. apply quieter_shutdown. }
  cbv beta. intros _ w1 [H1 _]. eapply wlp_mono; [by apply give_up_ledger|]. by intros _ w2 [? _].
Qed.

(** What a step of the send loop leaves: the books, and the stream's role. *)
Definition flushed (id : N) (T K : N) (w : World C) (n' : N) (w' : World C) : Prop :=
  led n' T K w' ∧ st_role <$> ws_streams (w_ses w') !! id = st_role <$> ws_streams (w_ses w) !! id.

(** QUIC accepted [sent] bytes of the front. *)
Lemma front_sent id st front rest sent c is_payload' n T K w :
  led n T K w → T < U64 → ws_streams (w_ses w) !! id = Some st → st_out st = front :: rest →
  is_payload' = is_wt_data (st_role st) && is_payload front →
  (sent <= length (oc_data front) - oc_off front)%nat →
  (∀ i, wire_size c i <= wire_size (w_conn w) i + (if decide (id = i) then N.of_nat sent else 0)) →
  (e = true → is_payload' = true → sent = 0%nat ∨ ws_fc_data_sent (w_ses w) + n + N.of_nat sent <= m) →
  ∀ w', enters id (st_role st, sent_queue front rest sent,
      if is_payload' then add64 (st_send_payload st) (N.of_nat sent) else st_send_payload st, st_send_prefix st)
      (w <| w_conn := c |>) w' → w_conn w' = c → ws_fc_data_sent (w_ses w') = ws_fc_data_sent (w_ses w) →
  led (if is_payload' then add64 n (N.of_nat sent) else n) T K w'.
Proof.
  intros Hw HT Hst Hout Hip Hs Hwire Hlim w' [E S Q] Hc Hfc.
  assert (Hent : ent <$> ws_streams (w_ses w) !! id = Some (st_role st, front :: rest, st_send_payload st, st_send_prefix st))
    by (rewrite Hst; cbn; unfold ent; by rewrite Hout).
  pose proof (Hwire id) as Hid. rewrite decide_True in Hid by done. rewrite <- Hc in Hid.
  match type of E with ∀ i, _ = if _ then Some ?en else _ => assert (Hen : enters id en w w') end.
  { constructor; [exact E|exact S|]. intros i Hi. rewrite Hc. specialize (Hwire i). rewrite decide_False in Hwire by done. lia. }
  destruct (is_wt_data (st_role st)) eqn:Hd; cbn [andb] in Hip.
  - destruct (st_role st) as [| | | |enc|b| |]; try done. destruct (is_payload front) eqn:Hp; subst is_payload'.
    + apply (payload_sent srv e m c0 id b front rest (st_send_payload st) (st_send_prefix st) sent n T K w w'); auto.
    + by apply (signal_sent srv e m c0 id b front rest (st_send_payload st) (st_send_prefix st) sent n T K w w').
  - subst is_payload'. by eapply (ledger_enters_other srv e m c0 id).
Qed.

(** Only the entry of [id] changes, neither the connection nor the count. *)
Definition edits (id : N) (en : Role * list OutChunk * N * N) (w w' : World C) : Prop :=
  enters id en w w' ∧ w_conn w' = w_conn w ∧ ws_fc_data_sent (w_ses w') = ws_fc_data_sent (w_ses w).

Lemma with_stream_edits id f st w (Q : () → World C → Prop) :
  ws_streams (w_ses w) !! id = Some st →
  (∀ w', edits id (ent (f st)) w w' → ws_streams (w_ses w') !! id = Some (f st) → Q () w') → wlp (with_stream id f) Q w.
Proof.
  intros Hst HQ. apply wlp_modify, HQ; [split; [by apply alter_enters|done]|].
  cbn. by rewrite lookup_alter, decide_True, Hst.
Qed.

Lemma count_edits (b : bool) id k st w :
  ws_streams (w_ses w) !! id = Some st →
  wlp (when b (with_stream id (fun st => st <| st_send_payload ::= fun n => add64 n k |>)))
    (fun _ w' => ∃ st1, ws_streams (w_ses w') !! id = Some st1 ∧ edits id (ent st1) w w' ∧
      ent st1 = (st_role st, st_out st, if b then add64 (st_send_payload st) k else st_send_payload st, st_send_prefix st)) w.
Proof.
  intros Hst. apply wlp_when; intros ->.
  - eapply with_stream_edits; [exact Hst|]. intros w' H H1. eexists. split; [exact H1|]. by split.
  - exists st. split; [done|]. split; [|done]. split; [|done]. constructor; [|done|done]. intros i.
    case_decide; [|done]. subst. by rewrite Hst.
Qed.

Lemma advance_edits id front rest sent st w :
  ws_streams (w_ses w) !! id = Some st →
  let off := (oc_off front + sent)%nat in
  wlp (if (length (oc_data front) <=? off)%nat then
         _ ← with_stream id (fun st => st <| st_out := rest |>);
         match oc_request_id front with Some rid => push_ev (EvWriteAck rid) | None => mret () end
       else with_stream id (fun st => st <| st_out := front <| oc_off := off |> :: rest |>))
    (fun _ w' => edits id (st_role st, sent_queue front rest sent, st_send_payload st, st_send_prefix st) w w') w.
Proof.
  intros Hst. cbv zeta. unfold sent_queue. destruct (_ <=? _)%nat.
  - apply wlp_bind. eapply with_stream_edits; [exact Hst|]. intros w' [[E S Q] H] _.
    destruct (oc_request_id front); [apply wlp_modify|apply wlp_ret]; (split; [by constructor|exact H]).
  - eapply with_stream_edits; [exact Hst|]. intros w' H _. exact H.
Qed.

Lemma flushed_alike id n T K w w' : alike w w' → led n T K w → flushed id T K w n w'.
Proof.
  intros Ha Hw. split; [by apply (blind w)|]. destruct Ha as [E _ _]. specialize (E id).
  destruct (ws_streams (w_ses w') !! id), (ws_streams (w_ses w) !! id); try done. cbn in *. by injection E as -> _ _ _.
Qed.
Lemma enters_role id role out p sp st w w' :
  enters id (role, out, p, sp) w w' → ws_streams (w_ses w) !! id = Some st → role = st_role st →
  st_role <$> ws_streams (w_ses w') !! id = st_role <$> ws_streams (w_ses w) !! id.
Proof.
  intros [E _ _] Hst ->. specialize (E id). rewrite decide_True in E by done. rewrite Hst.
  destruct (ws_streams (w_ses w') !! id); [|done]. cbn in *. by injection E as -> _ _ _.
Qed.

Lemma stopped_ledger id code out n T K w w1 :
  alike w w1 → led n T K w →
  wlp (_ ← push_ev (EvStreamStopSending id code);
       _ ← ack_all out;
       _ ← with_stream id (fun st => st <| st_out := [] |> <| st_fin_sent := true |>);
       mret (false, n)) (fun r w' => flushed id T K w r.2 w') w1.
Proof.
  intros Ha Hw. apply wlp_bind, wlp_modify, wlp_bind. match goal with |- wlp _ _ ?w' => set (w2 := w') end.
  assert (Ha2 : alike w w2) by (destruct Ha; by constructor).
  apply (wlp_mono _ (fun _ w' => alike w w')); [by apply (run_mt (alike w) _ (mt_ack_all _ _))|]. intros _ w3 Ha3. apply wlp_bind.
  pose proof (flushed_alike id n T K w w3 Ha3 Hw) as [H3 Hr3].
  eapply wlp_mono; [by apply give_up_ledger|]. cbv beta. intros _ w4 [H4 Hr4]. apply wlp_ret. split; [done|]. by rewrite Hr4.
Qed.

(** The amount offered is within the allowance. *)
Lemma amount_allowed enforce rem n T s :
  ws_fc_data_sent s + n <= T → T < U64 → enforce = true →
  send_amount enforce true rem n s = 0%nat ∨
  ws_fc_data_sent s + n + N.of_nat (send_amount enforce true rem n s) <= ws_fc_max_data_remote s.
Proof.
  intros Hr HT ->. unfold send_amount, saturating_add64, u64_max. cbn [andb].
  rewrite (N.min_l (ws_fc_data_sent s + n)) by lia. destruct (N.le_gt_cases (ws_fc_max_data_remote s) (ws_fc_data_sent s + n)); [left|right]; lia.
Qed.

Lemma send_front_ledger id enforce front rest st n T K w :
  led n T K w → T < U64 → ws_streams (w_ses w) !! id = Some st → st_out st = front :: rest →
  (e = true → enforce = true ∧ ws_fc_max_data_remote (w_ses w) = m) →
  wlp (send_front id enforce (is_wt_data (st_role st)) front rest n) (fun r w' => flushed id T K w r.2 w') w.
Proof.
  intros Hw HT Hst Hout He. unfold send_front. cbv zeta. apply wlp_bind, wlp_gets. fold (is_payload front).
  set (ip := is_wt_data (st_role st) && is_payload front). set (rem := (length (oc_data front) - oc_off front)%nat).
  set (amount := send_amount enforce ip rem n (w_ses w)).
  destruct ((amount =? 0)%nat && _); [by apply wlp_ret, flushed_alike|].
  destruct (negb _); [apply wlp_panic|]. apply wlp_bind. intros r w1. unfold conn.
  destruct (stream_send (w_conn w) id _ false) as [r' c] eqn:E. intros [= <- <-]. pose proof (wire_send _ _ _ _ _ _ E) as Hwire.
  destruct r' as [sent|err].
  2: { assert (Ha : alike w (w <| w_conn := c |>)).
       { constructor; [done|done|]. intros i. specialize (Hwire i). case_decide; cbn; lia. }
       destruct err; try (by apply wlp_ret, flushed_alike). by apply stopped_ledger. }
  pose proof (send_fits _ _ _ _ _ _ E) as Hfits. rewrite length_take, length_drop in Hfits.
  assert (Hs : (sent <= rem)%nat) by (unfold rem; lia).
  assert (Hlim : e = true → ip = true → sent = 0%nat ∨ ws_fc_data_sent (w_ses w) + n + N.of_nat sent <= m).
  { intros Het Hip. destruct (He Het) as [Hen Hm]. rewrite <- Hm.
    assert (Ham : amount = send_amount enforce true rem n (w_ses w)) by (unfold amount; by rewrite Hip).
    unfold ip in Hip. apply andb_true_iff in Hip as [Hd _].
    destruct (st_role st) as [| | | |enc|b| |] eqn:Hr; try done.
    destruct (ledger_room srv e m c0 n T K w id b (st_out st) (st_send_payload st) (st_send_prefix st) Hw) as [Hroom _];
      [rewrite Hst; cbn; unfold ent; by rewrite Hr|].
    destruct (amount_allowed enforce rem n T (w_ses w)) as [H0|H0]; [lia|done|done|left|right]; rewrite <- Ham in H0; lia. }
  apply wlp_bind. eapply wlp_mono; [by apply (count_edits ip id (N.of_nat sent) st)|]. cbv beta.
  intros _ w2 (st2 & Hst2 & (Hen2 & Hc2 & Hf2) & Eent). unfold ent in Eent. injection Eent as E1 E2 E3 E4.
  apply wlp_bind. eapply wlp_mono; [by apply (advance_edits id front rest sent st2)|]. cbv beta.
  rewrite E1, E3, E4. intros _ w3 (Hen3 & Hc3 & Hf3). apply wlp_ret.
  pose proof (enters_trans id _ _ _ _ _ Hen2 Hen3) as Hen. split.
  - apply (front_sent id st front rest sent c ip n T K w); try done.
    + intros i. specialize (Hwire i). case_decide; [|done]. unfold lenN in Hwire. rewrite !length_take, length_drop in Hwire. lia.
    + by rewrite Hc3, Hc2.
    + by rewrite Hf3, Hf2.
  - exact (enters_role id _ _ _ _ st (w <| w_conn := c |>) w3 Hen Hst eq_refl).
Qed.
End flushing.

(** ** Whole flushes *)

Section limit.
Context {C : Type} {quic : Quic C} {alloc : Allocator}.
Abbreviation keeps_limit m := (keeps (of_ses (C := C) limit_obs) m).

(** Nothing that a flush does changes the peer's limit. *)
Lemma keeps_limit_of {A} (m : M (World C) A) : keeps (of_ses data_obs) m → keeps_limit m.
Proof.
  intros H w. eapply wlp_mono; [apply H|]. cbv beta. unfold of_ses, data_obs, limit_obs. intros _ w' E.
  injection E as _ -> ->. done.
Qed.
Lemma reconcile_keeps_limit id : keeps_limit (reconcile_send_final_size id).
Proof. unfold reconcile_send_final_size. keep. Qed.
#[local] Hint Resolve reconcile_keeps_limit : keeps.
Lemma ack_all_keeps_limit out : keeps_limit (ack_all out).
Proof. apply keeps_limit_of, ack_all_keeps. Qed.
#[local] Hint Resolve ack_all_keeps_limit : keeps.
Lemma send_front_keeps_limit id enforce is_wt front rest n : keeps_limit (send_front id enforce is_wt front rest n).
Proof. unfold send_front. keep. Qed.
#[local] Hint Resolve send_front_keeps_limit : keeps.
Lemma flush_loop_keeps_limit fuel id enforce is_wt n : keeps_limit (flush_loop fuel id enforce is_wt n).
Proof. revert n. induction fuel; intros n; cbn [flush_loop]; keep. Qed.
#[local] Hint Resolve flush_loop_keeps_limit : keeps.
Lemma flush_stream_keeps_limit id n : keeps_limit (flush_stream id n).
Proof. unfold flush_stream. keep. Qed.
#[local] Hint Resolve flush_stream_keeps_limit : keeps.
Lemma flush_streams_keeps_limit ids n : keeps_limit (flush_streams ids n).
Proof. revert n. induction ids; intros n; cbn [flush_streams]; keep. Qed.
End limit.

Section flush.
Context {C : Type} {quic : Quic C} {quic_laws : QuicLaws C} {wire : QuicWire C} {resets : QuicResets C}.
Context {alloc : Allocator} {qpack : Qpack} {sfv : Sfv}.
Context (srv e : bool) (m : N) (c0 : C).
Abbreviation led := (ledger srv e m c0).

(** Where the limit is enforced, it is [m]. *)
Definition enforced (w : World C) : Prop :=
  e = true → uses_session_flow_control (w_ses w) = true ∧ ws_fc_max_data_remote (w_ses w) = m.
Lemma enforced_obs w w' : of_ses limit_obs w' = of_ses limit_obs w → enforced w → enforced w'.
Proof.
  unfold of_ses, limit_obs, enforced, uses_session_flow_control. intros E. injection E as -> ->. done.
Qed.

Lemma flush_loop_ledger fuel id enforce is_wt n T K w :
  led n T K w → T < U64 → (∀ r, st_role <$> ws_streams (w_ses w) !! id = Some r → is_wt_data r = is_wt) →
  (e = true → enforce = true) → enforced w →
  wlp (flush_loop fuel id enforce is_wt n) (fun r w' => flushed srv e m c0 id T K w r.2 w') w.
Proof.
  intros Hw HT Hwt He. revert n w Hw Hwt. induction fuel as [|fuel IH]; intros n w Hw Hwt Henf; cbn [flush_loop]; [apply wlp_panic|].
  apply wlp_bind, wlp_gets, wlp_bind, wlp_unwrap. intros st Hst.
  destruct (st_out st) as [|front rest] eqn:Hout; [apply wlp_ret; by split|].
  assert (is_wt_data (st_role st) = is_wt) as <- by (apply Hwt; by rewrite Hst).
  apply wlp_bind. eapply wlp_mono; [apply wlp_and|].
  - apply (send_front_ledger srv e m c0 id enforce front rest st n T K w Hw HT Hst Hout).
    intros Het. split; [by apply He|by apply Henf].
  - apply (wlp_keeps (of_ses limit_obs)), send_front_keeps_limit.
  - cbv beta. intros [go n'] w1 [[H1 Hr] Ho]. cbn [snd] in H1. destruct go; [|by apply wlp_ret].
    eapply wlp_mono; [apply (IH n' w1 H1); [rewrite Hr; exact Hwt|by eapply enforced_obs]|].
    cbv beta. intros r w2 [H2 Hr2]. split; [done|congruence].
Qed.

Lemma flush_stream_ledger id n T K w :
  led n T K w → T < U64 → enforced w → wlp (flush_stream id n) (fun n' w' => led n' T K w') w.
Proof.
  intros Hw HT Henf. apply wlp_bind. eapply wlp_mono; [apply wlp_and|].
  - by apply (reconcile_ledger srv e m c0 id n T K).
  - apply (wlp_keeps (of_ses limit_obs)), reconcile_keeps_limit.
  - cbv beta. intros _ w1 [(H1 & _) Ho]. pose proof (enforced_obs _ _ Ho Henf) as Henf1.
    apply wlp_bind, wlp_gets. destruct (ws_streams (w_ses w1) !! id) as [st|] eqn:Hst; [|by apply wlp_ret].
    apply wlp_bind, wlp_gets, wlp_bind. eapply wlp_mono.
    { apply (flush_loop_ledger _ id _ _ n T K w1 H1 HT); [|intros Het; by apply Henf1|done].
      intros r. rewrite Hst. by intros [= <-]. }
    cbv beta. intros [go n'] w2 [H2 _]. cbn [snd] in H2. destruct (negb go); [by apply wlp_ret|].
    apply wlp_bind, wlp_gets. destruct (ws_streams (w_ses w2) !! id); [|by apply wlp_ret].
    destruct (_ && _); [|by apply wlp_ret]. apply wlp_bind. intros r w3. unfold conn.
    destruct (stream_send (w_conn w2) id [] true) as [r' c] eqn:E. intros [= <- <-].
    assert (H3 : led n' T K (w2 <| w_conn := c |>)).
    { apply (blind w2); [|done]. constructor; [done|done|]. intros i. cbn.
      pose proof (wire_send _ _ _ _ _ _ E i) as Hs. destruct (decide (id = i)); [|lia].
      destruct r' as [k|]; [rewrite take_nil in Hs; change (lenN []) with 0 in Hs|]; lia. }
    apply wlp_bind. eapply wlp_mono; [apply (run_mt (led n' T K)); [|exact H3]; destruct r'; mt|].
    cbv beta. intros _ w4 H4. by apply wlp_ret.
Qed.

Lemma flush_streams_ledger ids n T K w :
  led n T K w → T < U64 → enforced w → wlp (flush_streams ids n) (fun n' w' => led n' T K w') w.
Proof.
  intros Hw HT. revert n w Hw. induction ids as [|id ids IH]; intros n w Hw Henf; cbn [flush_streams]; [by apply wlp_ret|].
  apply wlp_bind. eapply wlp_mono; [apply wlp_and|].
  - by apply flush_stream_ledger.
  - apply (wlp_keeps (of_ses limit_obs)), flush_stream_keeps_limit.
  - cbv beta. intros n' w1 [H1 Ho]. apply IH; [done|]. by eapply enforced_obs.
Qed.

(** *** Opening streams *)

Lemma set_pending_ledger f n T K K' w :
  led n T K w → (∀ b, next_id b (w_ses w) + 4 * lenN (f (ws_pending_opens (w_ses w))) <= K') →
  led n T K' (w <| w_ses ::= fun s => s <| ws_pending_opens ::= f |> |>).
Proof.
  intros [[H1 H2 H3 H4 H5 (A & HA & Hw & Hh) HR] Hl] HK. split; [|done]. constructor; try done.
  exists A. split; [done|]. split; [done|]. intros id st Hst.
  apply (held_quieter srv A (w_ses w) _ (w_conn w)); [by intros []|done|by apply Hh].
Qed.

Lemma release_loop_ledger l n T K w :
  led n T K w → K + 4 * lenN l < U64 → wlp (release_loop l) (fun _ w' => led n T (K + 4 * lenN l) w') w.
Proof.
  revert K w. induction l as [|[bidi rid] l IH]; intros K w Hw HK; cbn [release_loop].
  { apply wlp_ret. eapply ledger_weaken; [exact Hw|done|lia]. }
  assert (Hlen : lenN ((bidi, rid) :: l) = 1 + lenN l) by (unfold lenN; cbn [length]; lia). rewrite Hlen in *.
  pose proof (bk_room _ _ _ _ _ (lg_books _ _ _ _ _ _ _ _ Hw)) as Hroom.
  apply wlp_bind, wlp_gets, wlp_bind. apply (wlp_mono _ (fun _ w' => led n T (K + 4) w')).
  - destruct (open_blocked bidi (w_ses w)).
    + apply wlp_modify, (set_pending_ledger _ n T K); [done|]. intros b. specialize (Hroom b). rewrite lenN_app.
      change (lenN [(bidi, rid)]) with 1. lia.
    + eapply wlp_mono; [apply (allocate_ledger srv e m c0 bidi rid n T (K + 4))|by intros _ w1 [? _]].
      * eapply ledger_weaken; [exact Hw|done|lia].
      * specialize (Hroom bidi). lia.
      * lia.
  - intros _ w1 H1. replace (K + 4 * (1 + lenN l)) with (K + 4 + 4 * lenN l) by lia. apply IH; [done|lia].
Qed.

Lemma release_pending_ledger n T K w :
  led n T K w → K < U64 → wlp release_pending_opens (fun _ w' => led n T K w') w.
Proof.
  intros Hw HK. apply wlp_bind, wlp_gets. destruct (_ || _); [by apply wlp_ret|].
  apply wlp_bind, wlp_gets, wlp_bind, wlp_modify. set (l := ws_pending_opens (w_ses w)).
  pose proof (bk_room _ _ _ _ _ (lg_books _ _ _ _ _ _ _ _ Hw)) as Hroom. fold l in Hroom.
  pose proof (Hroom true). assert (EK : K - 4 * lenN l + 4 * lenN l = K) by lia. rewrite <- EK.
  apply release_loop_ledger; [|lia].
  apply (set_pending_ledger (fun _ => []) n T K); [done|]. intros b. specialize (Hroom b). change (lenN []) with 0. lia.
Qed.

Lemma open_stream_ledger bidi rid n T K w :
  led n T K w → K + 4 < U64 → wlp (open_stream bidi rid) (fun _ w' => led n T (K + 4) w') w.
Proof.
  intros Hw HK. apply wlp_bind, wlp_modify. apply release_pending_ledger; [|done].
  apply (set_pending_ledger _ n T K); [done|]. intros b. rewrite lenN_app. change (lenN [(bidi, rid)]) with 1.
  pose proof (bk_room _ _ _ _ _ (lg_books _ _ _ _ _ _ _ _ Hw) b). lia.
Qed.

(** What has been handed over enters the count at the end. *)
Lemma count_sent n T K w :
  led n T K w → T < U64 → led 0 T K (w <| w_ses ::= fun s => s <| ws_fc_data_sent ::= fun x => add64 x n |> |>).
Proof.
  intros [[H1 H2 H3 H4 H5 (A & HA & Hw & Hh) (R & HR & HTR)] Hl] HT.
  assert (E : add64 (ws_fc_data_sent (w_ses w)) n + 0 = ws_fc_data_sent (w_ses w) + n) by (rewrite add64_small; lia).
  split; [constructor; try done|cbn; by rewrite E].
  - exists A. split; [cbn; by rewrite E|]. split; [done|]. intros id st Hst.
    apply (held_quieter srv A (w_ses w) _ (w_conn w)); [by intros []|done|by apply Hh].
  - exists R. split; [done|]. cbn. by rewrite E.
Qed.

Lemma flush_ledger order T K w :
  led 0 T K w → T < U64 → K < U64 → enforced w → wlp (flush order) (fun _ w' => led 0 T K w') w.
Proof.
  intros Hw HT HK Henf.
  assert (Hstep : ∀ {A} (h : M (World C) A) (k : A → M (World C) ()) w,
    (∀ w, led 0 T K w → wlp h (fun _ w' => led 0 T K w') w) → keeps (of_ses data_obs) h →
    (∀ a w', led 0 T K w' → enforced w' → wlp (k a) (fun _ w' => led 0 T K w') w') →
    led 0 T K w → enforced w → wlp (h ≫= k) (fun _ w' => led 0 T K w') w).
  { intros A h k w1 Hh Hk Hrest H1 He. apply wlp_bind. eapply wlp_mono; [apply wlp_and; [by apply Hh|apply (keeps_limit_of h Hk)]|].
    cbv beta. intros a w2 [H2 Ho]. apply Hrest; [done|]. by eapply enforced_obs. }
  assert (Hmt : ∀ {A} (h : M (World C) A), mt (led 0 T K) h → ∀ w, led 0 T K w → wlp h (fun _ w' => led 0 T K w') w).
  { intros A h H. apply H. }
  revert Hw Henf. apply Hstep; [apply Hmt; mt|apply flush_terminal_error_keeps|]. intros _ w1.
  apply Hstep; [apply Hmt; mt|apply grant_credit_keeps|]. intros _ w2.
  apply Hstep; [apply Hmt; mt|apply replenish_credit_keeps|]. intros _ w3.
  apply Hstep; [apply Hmt; mt|apply queue_close_capsule_keeps|]. intros _ w4.
  apply Hstep; [intros w' ?; by apply release_pending_ledger|apply release_pending_opens_keeps|]. intros _ w5 H5 He5.
  apply wlp_bind, wlp_gets, wlp_bind. eapply wlp_mono; [by apply flush_streams_ledger|]. cbv beta. intros n w6 H6.
  apply wlp_bind, wlp_modify, (run_mt (led 0 T K)); [mt|by apply count_sent].
Qed.
End flush.

(** ** Runs *)

Section runs.
Context {C : Type} {quic : Quic C} {quic_laws : QuicLaws C} {wire : QuicWire C} {resets : QuicResets C}.
Context {alloc : Allocator} {qpack : Qpack} {sfv : Sfv}.

Definition op_bytes (o : SessionOp C) : N := match o with OpWrite _ data _ => lenN data | _ => 0 end.
Definition step_bytes (s : Step (C := C)) : N := match s with Call o => op_bytes o | Net _ => 0 end.
Definition bytes_written (l : list Step) : N := sum_list_N (map step_bytes l).

(** The application writes on streams of its own, known or forgotten; the network
    takes back nothing QUIC has accepted, but for what a reset drops. *)
Definition lawful (s : Step) (w : World C) : Prop :=
  match s with
  | Call (OpWrite id _ _) => ∀ st, ws_streams (w_ses w) !! id = Some st → is_wt_data (st_role st) = true
  | Call (OpNetwork _) => False
  | Call _ => True
  | Net f => ∀ id, accepted (f (w_conn w)) id = accepted (w_conn w) id ∧
      discarded (w_conn w) id <= discarded (f (w_conn w)) id
  end.
Definition lawful_run (l : list Step) (w : World C) : Prop :=
  ∀ before s after w1, l = before ++ s :: after → run_steps before w = Some ((), w1) → lawful s w1.

Lemma lawful_run_cons s l w :
  lawful_run (s :: l) w → lawful s w ∧ ∀ w1, run_step s w = Some ((), w1) → lawful_run l w1.
Proof.
  intros H. split; [by apply (H [] s l)|]. intros w1 E before s' after w2 -> E2.
  apply (H (s :: before) s' after w2); [done|]. cbn [run_steps]. unfold mbind, M_bind. by rewrite E.
Qed.

Context (srv : bool) (c0 : C).
Abbreviation led := (ledger srv false 0 c0).

Lemma run_op_ledger o T K w :
  led 0 T K w → lawful (Call o) w → T + op_bytes o < U64 → K + 4 < U64 →
  wlp (run_op o) (fun _ w' => led 0 (T + op_bytes o) (K + 4) w') w.
Proof.
  intros Hw Hlaw HT HK.
  assert (Hwk : op_bytes o = 0 → wlp (run_op o) (fun _ w' => led 0 T K w') w →
    wlp (run_op o) (fun _ w' => led 0 (T + op_bytes o) (K + 4) w') w).
  { intros Hz H. eapply wlp_mono; [exact H|]. cbv beta. intros _ w' H'. eapply ledger_weaken; [exact H'|lia|lia]. }
  assert (Hmt : mt (led 0 T K) (run_op o) → wlp (run_op o) (fun _ w' => led 0 T K w') w) by (intros H; by apply H).
  destruct o as [|i b| | | |i data rid| |i code| | | | |order| | | | |]; cbn [op_bytes lawful] in *; try done;
    try (apply Hwk; [done|]; apply Hmt; cbn [run_op]; mt; fail).
  - apply Hwk; [done|]. by apply on_established_ledger.
  - apply Hwk; [done|]. by apply on_readable_ledger.
  - rewrite N.add_0_r. by apply open_stream_ledger.
  - eapply wlp_mono; [by apply (stream_write_ledger srv false 0 c0)|]. cbv beta. intros _ w' H'. eapply ledger_weaken; [exact H'|done|lia].
  - apply Hwk; [done|]. by apply stream_reset_ledger.
  - apply Hwk; [done|]. apply flush_ledger; [done|lia|lia|done].
  - apply Hwk; [done|]. apply Hmt, mt_export. apply _.
Qed.

Lemma run_step_ledger s T K w :
  led 0 T K w → lawful s w → T + step_bytes s < U64 → K + 4 < U64 →
  wlp (run_step s) (fun _ w' => led 0 (T + step_bytes s) (K + 4) w') w.
Proof.
  intros Hw Hlaw HT HK. destruct s as [o|f]; [by apply run_op_ledger|]. apply wlp_modify.
  cbn [step_bytes]. eapply ledger_weaken; [apply (blind w); [|exact Hw]|lia|lia]. constructor; [done|done|].
  intros id. cbn. unfold wire_size. destruct (Hlaw id) as [-> Hd]. lia.
Qed.

Lemma run_steps_ledger l T K w :
  led 0 T K w → lawful_run l w → T + bytes_written l < U64 → K + 4 * lenN l < U64 →
  wlp (run_steps l) (fun _ w' => led 0 (T + bytes_written l) (K + 4 * lenN l) w') w.
Proof.
  revert T K w. induction l as [|s l IH]; intros T K w Hw Hlaw HT HK; cbn [run_steps].
  { apply wlp_ret. eapply ledger_weaken; [exact Hw|lia|lia]. }
  apply lawful_run_cons in Hlaw as [Hs Hl].
  assert (Hb : bytes_written (s :: l) = step_bytes s + bytes_written l) by done.
  assert (Hlen : lenN (s :: l) = 1 + lenN l) by (unfold lenN; cbn [length]; lia). rewrite Hb, Hlen in *.
  apply wlp_bind. intros [] w1 E.
  pose proof (run_step_ledger s T K w Hw Hs ltac:(lia) ltac:(lia) () w1 E) as H1.
  replace (T + (step_bytes s + bytes_written l)) with (T + step_bytes s + bytes_written l) by lia.
  replace (K + 4 * (1 + lenN l)) with (K + 4 + 4 * lenN l) by lia. apply IH; [done|by apply Hl|lia|lia].
Qed.
End runs.

(** The books of a fresh session. *)
Lemma constructed_ledger {C} {quic : Quic C} {wire : QuicWire C} {resets : QuicResets C} s u u' (c : C) e m c0 :
  constructed s u u' → (∀ id, accepted c id = []) → payload (ws_is_server s) c = payload (ws_is_server s) c0 →
  ledger (ws_is_server s) e m c0 0 0 15 (mkWorld s c u' []).
Proof.
  intros Hs Hc Hc0.
  assert (Hinit : ws_streams s = ∅ ∧ ws_fc_data_sent s = 0 ∧ ws_pending_opens s = [] ∧
    ∀ b, next_id b s = first_id (ws_is_server s) b).
  { destruct Hs as [????? u0|????? u0]; unfold new_client, new_server; case_match; repeat split; by intros []. }
  destruct Hinit as (H1 & H2 & H3 & H4).
  assert (Hz : ∀ id, wire_size c id = 0) by (intros id; unfold wire_size; by rewrite Hc).
  split; [|intros _; right; intros id; cbn; by rewrite Hc0].
  constructor; cbn [w_ses w_conn].
  - done.
  - intros b. rewrite H4. by destruct (ws_is_server s), b.
  - intros b. by rewrite H4.
  - intros b. rewrite H3, H4. by destruct (ws_is_server s), b.
  - done.
  - exists (fun _ => 0). split; [|split].
    + intros ids _. induction ids; [unfold tally; cbn; lia|by rewrite tally_cons].
    + intros id _. rewrite Hz. lia.
    + intros id st. by rewrite H1, lookup_empty.
  - exists 0. rewrite H2. split; [|done]. intros ids _.
    assert (E : tally (queued s) ids = 0); [|by rewrite E].
    induction ids as [|i ids IH]; [done|]. rewrite tally_cons, IH. unfold queued. by rewrite H1, lookup_empty.
Qed.

(** ** The peer's data limit *)

Section bound.
Context {C : Type} {quic : Quic C} {quic_laws : QuicLaws C} {wire : QuicWire C} {resets : QuicResets C}.
Context {alloc : Allocator} {alloc_laws : AllocatorLaws} {qpack : Qpack} {sfv : Sfv}.
Context (limits : N → N) (limits_usize : ∀ i, limits i < U64).
#[local] Existing Instance no_history.

(** The count covers the payload QUIC has accepted. *)
Lemma ledger_covers srv e m (c0 : C) T K w :
  ledger srv e m c0 0 T K w → total (payload srv (w_conn w)) (ws_fc_data_sent (w_ses w)).
Proof.
  intros [[_ _ _ _ _ (A & HA & Hw & _) _] _]. apply (total_mono A _ (ws_fc_data_sent (w_ses w) + 0)); [done| |lia].
  intros id. unfold payload. destruct (data_id srv id) eqn:Hd; [specialize (Hw id Hd)|]; lia.
Qed.

Lemma flush_keeps_limit order : keeps (of_ses (C := C) limit_obs) (flush order).
Proof.
  unfold flush. repeat first
    [apply keeps_limit_of; first [apply flush_terminal_error_keeps|apply grant_credit_keeps|apply replenish_credit_keeps
      |apply queue_close_capsule_keeps|apply release_pending_opens_keeps|apply signal_flow_control_blocked_keeps
      |apply prune_streams_keeps|apply drive_quic_close_keeps]
    |apply flush_streams_keeps_limit|keep_step].
Qed.

(** A flush of a session whose books are in order. *)
Lemma flush_bounded order srv (c0 : C) T K L w :
  inv limits L w → ledger srv false 0 c0 0 T K w → T < U64 → K < U64 →
  wp (flush order) (fun _ w' =>
    ws_fc_max_data_remote (w_ses w') = ws_fc_max_data_remote (w_ses w) ∧
    total (payload srv (w_conn w')) (ws_fc_data_sent (w_ses w')) ∧
    (uses_session_flow_control (w_ses w) = true → ∀ ids, NoDup ids →
      tally (payload srv (w_conn w')) ids <=
        N.max (ws_fc_max_data_remote (w_ses w)) (tally (payload srv (w_conn w)) ids))) w.
Proof.
  intros Hi [Hb _] HT HK. set (m := ws_fc_max_data_remote (w_ses w)). set (e := uses_session_flow_control (w_ses w)).
  assert (Hw : ledger srv e m (w_conn w) 0 T K w) by (split; [done|]; intros _; right; done).
  eapply wp_mono; [apply wp_of_wlp; [apply (run_op_inv limits limits_usize (OpFlush order) L w Hi)|apply wlp_and]|].
  - apply (flush_ledger srv e m (w_conn w) order T K w Hw HT HK). by intros He.
  - apply (wlp_keeps (of_ses limit_obs)), flush_keeps_limit.
  - cbv beta. intros _ w' [_ [H' Ho]]. unfold of_ses, limit_obs in Ho. injection Ho as Hmax _. split; [done|].
    pose proof (ledger_covers _ _ _ _ _ _ _ H') as Hc. split; [done|]. intros He ids Hnd.
    destruct (lg_limit _ _ _ _ _ _ _ _ H' He) as [Hle|Hle].
    + specialize (Hc ids Hnd). lia.
    + pose proof (tally_mono (payload srv (w_conn w)) (payload srv (w_conn w')) ids ltac:(auto)). lia.
Qed.

(** C13: the session never hands QUIC more payload than it counts, nor a flush
    more than the peer allows.  After any calls of the application and any changes
    of the network from a fresh session, the payload on all WebTransport streams
    together, counted as QUIC has accepted it (without the signals, and without
    what a reset dropped), is at most the session's count.  From there every
    flush, in any order, returns and leaves the limit as it was; where session
    flow control is in use it leaves the payload on all streams together within
    the peer's limit, or where it was if it was beyond it already (handed over
    before the peer's settings came).  The run is lawful: the application writes
    on WebTransport streams only, less than 2^64 bytes in all, in fewer than some
    2^62 steps, and the network takes back nothing that QUIC has accepted. *)
Theorem flush_respects_data_limit (steps : list (Step (C := C))) s u u' c L :
  constructed s u u' → wf_memory limits (ws_parser_memory s) → within limits u → accounted u L →
  (∀ id, accepted c id = []) → lawful_run steps (mkWorld s c u' []) →
  bytes_written steps < U64 → 15 + 4 * lenN steps < U64 →
  wp (run_steps steps) (fun _ w =>
    total (payload (ws_is_server s) (w_conn w)) (ws_fc_data_sent (w_ses w)) ∧
    ∀ order, wp (flush order) (fun _ w' =>
      ws_fc_max_data_remote (w_ses w') = ws_fc_max_data_remote (w_ses w) ∧
      total (payload (ws_is_server s) (w_conn w')) (ws_fc_data_sent (w_ses w')) ∧
      (uses_session_flow_control (w_ses w) = true → ∀ ids, NoDup ids →
        tally (payload (ws_is_server s) (w_conn w')) ids <=
          N.max (ws_fc_max_data_remote (w_ses w)) (tally (payload (ws_is_server s) (w_conn w)) ids))) w)
    (mkWorld s c u' []).
Proof.
  intros Hs Hm Hu Ha Hc Hlaw HT HK.
  pose proof (constructed_ledger s u u' c false 0 c Hs Hc eq_refl) as H0.
  eapply wp_mono; [apply wp_of_wlp; [apply (run_steps_inv limits limits_usize steps L); by eapply constructed_inv|]|].
  - apply (run_steps_ledger (ws_is_server s) c steps 0 15 _ H0 Hlaw); [by rewrite N.add_0_l|done].
  - cbv beta. intros _ w [Hi Hw]. rewrite N.add_0_l in Hw. split; [by eapply ledger_covers|]. intros order.
    by eapply (flush_bounded order (ws_is_server s) c).
Qed.
End bound.

(** A server whose peer allows four bytes: two writes of seven bytes in all, with
    a flush after each, put the signal and four of the bytes on the wire. *)
Module Example.
#[local] Existing Instance exact_allocator.
#[local] Existing Instance literal_qpack.
#[local] Existing Instance rfc9651.
#[local] Existing Instance no_history.
Import Session.Example.

Definition tight_settings : list (N * N) :=
  map (fun kv => if kv.1 =? SETTINGS_WT_INITIAL_MAX_DATA then (kv.1, 4) else kv) settings_pairs.
Definition arrive (c : ToyConn) : ToyConn := c <| toy_inbox :=
  {[ 2 := (put_varint H3_CONTROL_STREAM_TYPE ++ frame FRAME_SETTINGS (put_settings tight_settings), false);
     0 := (request_frame, false) ]} |>.
Definition steps : list (Step (C := ToyConn)) :=
  [Call OpEstablished; Net arrive; Call (OpReadable 2 false); Call (OpReadable 0 false);
   Call (OpOpenStream true 7); Call (OpWrite 1 (s2b "abc") 8); Call (OpFlush id); Call (OpWrite 1 (s2b "defg") 9)].
Definition world : World ToyConn := mkWorld server.1 toy_new server.2 [].

(** The two writes are on a stream of our own. *)
Definition role_of (id : N) (o : option (() * World ToyConn)) : option Role :=
  match o with Some (_, w) => st_role <$> ws_streams (w_ses w) !! id | None => None end.
Lemma steps_lawful : lawful_run steps world.
Proof.
  assert (Hwrite : ∀ before w1 data rid, run_steps before world = Some ((), w1) →
    role_of 1 (run_steps before world) = Some (WtData true) → lawful (Call (OpWrite 1 data rid)) w1).
  { intros before w1 data rid E Hr st Hst. rewrite E in Hr. cbn in Hr. rewrite Hst in Hr. by injection Hr as ->. }
  intros before s after w1 E Erun. unfold steps in E.
  do 8 (destruct before as [|? before];
    [injection E as <- _; first [exact I|intros ?; split; [reflexivity|apply N.le_refl]
      |eapply Hwrite; [exact Erun|vm_compute; reflexivity]]|injection E as <- E]).
  destruct before; discriminate E.
Qed.

Lemma flush_respects_data_limit_witness :
  ∃ w w', run_steps steps world = Some ((), w) ∧ flush id w = Some ((), w') ∧
    accepted (w_conn w') 1 = signal true ++ s2b "abcd" ∧
    ∀ ids, NoDup ids → tally (payload true (w_conn w')) ids <= 4.
Proof.
  pose proof (flush_respects_data_limit limits limits_usize steps server.1 counters server.2 toy_new []
    server_constructed server_memory_wf counters_within counters_accounted (fun _ => eq_refl) steps_lawful
    eq_refl eq_refl) as H.
  fold world in H. apply wp_elim in H as ([] & w & E & Hcount & H). specialize (H id).
  apply wp_elim in H as ([] & w' & E' & _ & _ & Hlim). exists w, w'. split; [exact E|]. split; [exact E'|].
  assert (E2 : (_ ← run_steps steps; flush id) world = Some ((), w')) by (unfold mbind, M_bind; rewrite E; exact E').
  split.
  - pose proof (f_equal (fun o => match o with Some (_, w) => accepted (w_conn w) 1 | None => [] end) E2) as Hc.
    cbv beta iota in Hc. rewrite <- Hc. vm_compute. reflexivity.
  - pose proof (f_equal (fun o => match o with
      | Some (_, w) => (uses_session_flow_control (w_ses w), ws_fc_max_data_remote (w_ses w), ws_fc_data_sent (w_ses w))
      | None => (false, 0, 0) end) E) as Hc. cbv beta iota in Hc.
    match type of Hc with ?a = _ => replace a with (true, 4, 3) in Hc by (vm_compute; reflexivity) end.
    injection Hc as H1 H2 H3. intros ids Hnd. specialize (Hlim (eq_sym H1) ids Hnd). rewrite <- H2 in Hlim.
    specialize (Hcount ids Hnd). rewrite <- H3 in Hcount.
    eapply N.le_trans; [exact Hlim|]. apply N.max_lub; [reflexivity|]. eapply N.le_trans; [exact Hcount|discriminate].
Defined.
End Example.
