(* ===== verification/SessionClose.v ===== *)
(** * The graceful close ([crates/native/src/session.rs])

    After [close] the session hands QUIC the close capsule and only then closes
    the QUIC connection, once: the invariant every method preserves, and the
    runs.  The last part shows what can keep that close from ever coming. *)

From S2P Require Import Prelude H3 ParserMemory FrameParser Headers Net Quic SessionState.
From S2P Require Import SessionRecv SessionConnect SessionStreams SessionSend SessionFrame SessionInv.
From S2P Require Import SessionRecvInv SessionSendInv SessionWire Session SessionCarry SessionTransfer.

(** The close of the QUIC connection that ends a session in good order. *)
Definition goodbye : bool * N * bytes := (true, H3_NO_ERROR, []).

(** [x] occurs in [l]. *)
Definition contains (x l : bytes) : Prop := ∃ before after, l = before ++ x ++ after.
Lemma contains_app x l k : contains x l → contains x (l ++ k).
Proof. intros (a & b & ->). exists a, (b ++ k). by rewrite <- !app_assoc. Qed.

Section closing.
Context {C : Type} {quic : Quic C} {wire : QuicWire C}.
(** What the application closed with, as sent. *)
Context (code : N) (reason : bytes).

Definition goodbyes (c : C) : nat := countb (fun x => bool_decide (x = goodbye)) (closes c).
Definition close_frame : bytes := capsule_frame WT_CLOSE_SESSION_CAPSULE (be32 code ++ reason).

Definition stop_seen (w : World C) : Prop := ∃ c, EvStreamStopSending CONNECT_ID c ∈ w_ev w.

(** The session is set up, and has been asked to close; [p] opens to come do not
    reach the end of the id space. *)
Record asked (p : N) (s : WtSession) : Prop := mkAsked {
  as_setup : ws_setup_sent s = true;
  as_connect : ws_connect_pending s = false;
  as_ids b : CONNECT_ID < next_id b s ∧ next_id b s + 4 * (p + lenN (ws_pending_opens s)) < U64;
  as_error c m : ws_terminal_error s = Some (c, m) → c ≠ H3_NO_ERROR;
  as_req : ∃ q, ws_close_req s = Some (mkCloseReq code reason q);
}.

(** The capsule is queued behind what QUIC has accepted once it is marked so, and
    accepted before the QUIC connection is to be closed. *)
Definition on_course (w : World C) : Prop :=
  ∃ st, ws_streams (w_ses w) !! CONNECT_ID = Some st ∧ st_role st = Connect ∧
    (∀ r, ws_close_req (w_ses w) = Some r → cr_capsule_queued r = true →
       contains close_frame (accepted (w_conn w) CONNECT_ID ++ unsent (st_out st))) ∧
    (is_Some (ws_want_quic_close (w_ses w)) ∨ ws_quic_close_issued (w_ses w) = true →
       contains close_frame (accepted (w_conn w) CONNECT_ID)).

(** The state of the close: [live] until the peer has stopped the CONNECT
    stream. *)
Definition closing (live : bool) (p : N) (w : World C) : Prop :=
  asked p (w_ses w) ∧
  goodbyes (w_conn w) = (if ws_quic_close_issued (w_ses w) then 1 else 0)%nat ∧
  if live then on_course w else stop_seen w.

Definition control_view (s : WtSession) :=
  (ws_setup_sent s, ws_connect_pending s, ws_next_bidi s, ws_next_uni s, lenN (ws_pending_opens s),
   ws_terminal_error s, ws_close_req s, ws_want_quic_close s, ws_quic_close_issued s).

Lemma asked_view p s s' : control_view s' = control_view s → asked p s → asked p s'.
Proof.
  intros [= E1 E2 E3 E4 E5 E6 E7 E8 E9] [a1 a2 a3 a4 a5].
  assert (En : ∀ b, next_id b s' = next_id b s) by (intros []; done).
  constructor; [congruence|congruence|intros b; by rewrite En, E5|intros ? ?; rewrite E6; apply a4|by rewrite E7].
Qed.

(** The CONNECT stream keeps its role, and what it has sent and queued only
    grows. *)
Definition grows (w w' : World C) : Prop :=
  ∀ st, ws_streams (w_ses w) !! CONNECT_ID = Some st → ∃ st' more later,
    ws_streams (w_ses w') !! CONNECT_ID = Some st' ∧ st_role st' = st_role st ∧
    accepted (w_conn w') CONNECT_ID = accepted (w_conn w) CONNECT_ID ++ more ∧
    accepted (w_conn w') CONNECT_ID ++ unsent (st_out st') =
      (accepted (w_conn w) CONNECT_ID ++ unsent (st_out st)) ++ later.

Lemma closing_grows live p (w w' : World C) evs :
  control_view (w_ses w') = control_view (w_ses w) → goodbyes (w_conn w') = goodbyes (w_conn w) →
  w_ev w' = w_ev w ++ evs → (live = true → grows w w') → closing live p w → closing live p w'.
Proof.
  intros E Eg Ee Hg (Ha & Hn & Hl). split; [by eapply asked_view|]. injection E as _ _ _ _ _ _ E7 E8 E9.
  split; [by rewrite Eg, E9|]. destruct live.
  - destruct Hl as (st & Hst & Hr & Hq & Hw). destruct (Hg eq_refl st Hst) as (st' & more & later & Hst' & Hr' & Ea & Eu).
    exists st'. split; [done|]. split; [congruence|]. rewrite E7, E8, E9, Eu, Ea. split.
    + intros r Er Eq. by apply contains_app, (Hq r).
    + intros H. by apply contains_app, Hw.
  - destruct Hl as [c Hc]. exists c. rewrite Ee. set_solver.
Qed.

(** ** What keeps the close on its course *)

Record steady (live : bool) {A} (m : M (World C) A) : Prop := Steady {
  run_steady p w : closing live p w → wlp m (fun _ w' => closing live p w') w;
}.
End closing.

Section rules.
Context {C : Type} {quic : Quic C} {wire : QuicWire C} (code : N) (reason : bytes) (live : bool).
Abbreviation steady := (steady code reason live).
Abbreviation closing := (closing code reason live).

Lemma closing_same p (w w' : World C) evs :
  control_view (w_ses w') = control_view (w_ses w) → goodbyes (w_conn w') = goodbyes (w_conn w) →
  w_ev w' = w_ev w ++ evs →
  (live = true → entry CONNECT_ID (w_ses w') = entry CONNECT_ID (w_ses w) ∧
    accepted (w_conn w') CONNECT_ID = accepted (w_conn w) CONNECT_ID) →
  closing p w → closing p w'.
Proof.
  intros E1 E2 E3 Hs. apply (closing_grows code reason live p w w' evs E1 E2 E3). intros Hl st Hst.
  destruct (Hs Hl) as [He Ha]. unfold entry in He. rewrite Hst in He. cbn in He.
  destruct (ws_streams (w_ses w') !! CONNECT_ID) as [st'|]; [|done]. injection He as Hr Ho.
  exists st', [], []. rewrite Ha, Ho, !app_nil_r. done.
Qed.

Lemma steady_ret {A} (a : A) : steady (mret a).
Proof. split. intros p w Hw. by apply wlp_ret. Qed.
Lemma steady_bind {A B} (m : M (World C) A) (k : A → M (World C) B) :
  steady m → (∀ a, steady (k a)) → steady (m ≫= k).
Proof.
  intros [Hm] Hk. split. intros p w Hw. apply wlp_bind. eapply wlp_mono; [by apply Hm|]. cbv beta.
  intros a w' Hw'. by apply (Hk a).
Qed.
Lemma steady_gets {A} (f : World C → A) : steady (gets f).
Proof. split. intros p w Hw. by apply wlp_gets. Qed.
Lemma steady_unwrap {A} (o : option A) : steady (unwrap o).
Proof. split. intros p w Hw. by apply wlp_unwrap. Qed.
Lemma steady_panic {A} : steady (@panic (World C) A).
Proof. split. intros p w Hw. apply wlp_panic. Qed.
Lemma steady_when b m : steady m → steady (when b m).
Proof. intros H. destruct b; [done|apply steady_ret]. Qed.
Lemma steady_set_ses f :
  (∀ s, control_view (f s) = control_view s) →
  (live = true → ∀ s, entry CONNECT_ID (f s) = entry CONNECT_ID s) → steady (set_ses f).
Proof.
  intros H1 H2. split. intros p w Hw. apply wlp_modify.
  apply (closing_same p w _ []); [apply H1|done|by rewrite app_nil_r|intros Hl; split; [apply (H2 Hl)|done]|done].
Qed.
Lemma steady_push_ev e : steady (push_ev e).
Proof. split. intros p w Hw. apply wlp_modify. by apply (closing_same p w _ [e]). Qed.
Lemma steady_mem {A} (m : M Usage A) : steady (mem m).
Proof.
  split. intros p w Hw a w'. unfold mem. destruct (m (w_mem w)) as [[b u]|]; [|done]. intros [= _ <-].
  apply (closing_same p w _ []); [done|done|by rewrite app_nil_r|done|done].
Qed.
Lemma steady_conn {A} (f : C → A * C) :
  (∀ c, accepted (f c).2 CONNECT_ID = accepted c CONNECT_ID) → (∀ c, closes (f c).2 = closes c) → steady (conn f).
Proof.
  intros H1 H2. split. intros p w Hw a w'. unfold conn. specialize (H1 (w_conn w)). specialize (H2 (w_conn w)).
  destruct (f (w_conn w)) as [b c]. intros [= _ <-]. cbn in *.
  apply (closing_same p w _ []); [done|unfold goodbyes; cbn; by rewrite H2|by rewrite app_nil_r|done|done].
Qed.
Lemma steady_conn_ f :
  (∀ c, accepted (f c) CONNECT_ID = accepted c CONNECT_ID) → (∀ c, goodbyes (f c) = goodbyes c) → steady (conn_ f).
Proof.
  intros H1 H2. split. intros p w Hw. apply wlp_modify.
  apply (closing_same p w _ []); [done|apply H2|by rewrite app_nil_r|by intros _; split; [|apply H1]|done].
Qed.

(** A stream changes in other respects, or another one does, or its queue
    grows. *)
Lemma steady_with_stream i f :
  (∀ st, (st_role (f st), st_out (f st)) = (st_role st, st_out st)) ∨ (live = true → i ≠ CONNECT_ID) →
  steady (with_stream i f).
Proof.
  intros H. apply steady_set_ses; [done|]. intros Hl s. unfold entry. cbn. rewrite lookup_alter.
  case_decide; [|done]. subst i. destruct H as [H|H]; [|by destruct (H Hl)].
  destruct (ws_streams s !! CONNECT_ID); [|done]. cbn. by f_equal.
Qed.
Lemma steady_append i f :
  (∀ st, st_role (f st) = st_role st ∧ ∃ chunk, st_out (f st) = st_out st ++ [chunk]) →
  steady (with_stream i f).
Proof.
  intros H. split. intros p w Hw. apply wlp_modify. revert Hw.
  apply (closing_grows code reason live p w _ []); [done|done|by rewrite app_nil_r|]. intros _ st Hst. cbn.
  rewrite lookup_alter. case_decide as Hd.
  - subst i. rewrite Hst. destruct (H st) as [Hr [chunk Ho]].
    exists (f st), [], (unsent [chunk]). split; [done|]. split; [done|]. rewrite app_nil_r. split; [done|].
    rewrite Ho. unfold unsent. by rewrite map_app, concat_app, app_assoc.
  - exists st, [], []. by rewrite !app_nil_r.
Qed.
Lemma steady_push_out i chunk : steady (push_out i chunk).
Proof. apply steady_append. intros st. split; [done|]. by exists chunk. Qed.
Lemma steady_insert_stream i st : (live = true → i ≠ CONNECT_ID) → steady (insert_stream i st).
Proof.
  intros Hne. apply steady_bind; [apply steady_gets|]. intros old. apply steady_bind.
  - apply steady_set_ses; [done|]. intros Hl s. unfold entry. cbn. rewrite lookup_insert_ne; [done|]. by apply Hne.
  - intros _. destruct old; [apply steady_mem|apply steady_ret].
Qed.
Lemma steady_remove_stream i : (live = true → i ≠ CONNECT_ID) → steady (remove_stream i).
Proof.
  intros Hne. apply steady_bind; [apply steady_gets|]. intros old. apply steady_bind.
  - apply steady_set_ses; [done|]. intros Hl s. unfold entry. cbn. rewrite lookup_delete_ne; [done|]. by apply Hne.
  - intros _. destruct old; [apply steady_mem|apply steady_ret].
Qed.

(** A close with another code is no goodbye. *)
Lemma other_close app ec message c :
  ec ≠ H3_NO_ERROR → goodbyes (conn_close c app ec message) = goodbyes c.
Proof.
  intros Hne. unfold goodbyes. rewrite close_closes, countb_app. cbn. rewrite bool_decide_false; [cbn; lia|].
  unfold goodbye. congruence.
Qed.
Lemma same_goodbyes c c' : closes c' = closes c → goodbyes c' = goodbyes c.
Proof. unfold goodbyes. by intros ->. Qed.
End rules.

Create HintDb steady discriminated.
#[export] Hint Constants Opaque : steady.
#[export] Hint Resolve recv_closes dgram_recv_closes dgram_send_closes export_closes shutdown_closes : core.

(** Follow the structure of a method, as [carry] does. *)
Ltac steady_step :=
  lazymatch goal with
  | |- steady _ _ _ (mbind _ _) => apply steady_bind; [|intros ?]
  | |- steady _ _ _ (mret _) => apply steady_ret
  | |- steady _ _ _ (ses _) => apply steady_gets
  | |- steady _ _ _ (get_stream _) => apply steady_gets
  | |- steady _ _ _ (gets _) => apply steady_gets
  | |- steady _ _ _ (set_ses _) => apply steady_set_ses; [intros ?; reflexivity|intros _ ?; reflexivity]
  | |- steady _ _ _ (with_stream _ _) =>
      apply steady_with_stream; first [left; intros ?; reflexivity|right; assumption]
  | |- steady _ _ _ (push_out _ _) => apply steady_push_out
  | |- steady _ _ _ (remove_stream _) => apply steady_remove_stream; assumption
  | |- steady _ _ _ (insert_stream _ _) => apply steady_insert_stream; assumption
  | |- steady _ _ _ (push_ev _) => apply steady_push_ev
  | |- steady _ _ _ (mem _) => apply steady_mem
  | |- steady _ _ _ (conn _) => apply steady_conn; intros ?; auto
  | |- steady _ _ _ (conn_ (fun c => conn_close c _ _ _)) =>
      apply steady_conn_; intros ?; [apply close_accepted|by apply other_close]
  | |- steady _ _ _ (conn_ _) => apply steady_conn_; intros ?; [auto|apply same_goodbyes; auto]
  | |- steady _ _ _ (unwrap _) => apply steady_unwrap
  | |- steady _ _ _ panic => apply steady_panic
  | |- steady _ _ _ (when _ _) => apply steady_when
  | |- steady _ _ _ (match ?x with _ => _ end) => destruct x
  | |- steady _ _ _ (let _ := _ in _) => cbv zeta
  | |- steady _ _ _ _ => solve [eauto with steady]
  end.
Ltac stay := repeat steady_step.

(** ** The receiving side *)

Section receive.
Context {C : Type} {quic : Quic C} {wire : QuicWire C} {alloc : Allocator} {qpack : Qpack} {sfv : Sfv}.
Context (code : N) (reason : bytes) (live : bool).
Abbreviation steady := (steady (C := C) code reason live).
Abbreviation closing := (closing (C := C) code reason live).

Lemma mark_closed_steady c message remote : steady (mark_closed c message remote).
Proof.
  unfold mark_closed. steady_step; [stay|]. destruct a; [stay|]. do 4 (steady_step; [stay|]).
  split. intros p w Hw. apply wlp_bind, wlp_gets, wlp_bind. intros l w1. unfold mem.
  destruct (clear_streams _ _) as [[l' u]|] eqn:E; [|done]. intros [= <- <-].
  apply wlp_bind, wlp_modify, wlp_modify. revert Hw. apply (closing_same _ _ _ _ w _ [EvClosed c message remote]); try done.
  intros _. split; [|done]. unfold entry. cbn.
  rewrite (clear_streams_lookup _ _ _ _ _ E). by rewrite list_to_map_to_list.
Qed.
#[local] Hint Resolve mark_closed_steady : steady.

Lemma parser_limit_exceeded_steady : steady parser_limit_exceeded.
Proof. unfold parser_limit_exceeded. stay. Qed.
Lemma flow_error_steady message : steady (flow_error message).
Proof.
  unfold flow_error. steady_step; [stay|]. destruct a; [stay|]. steady_step; [|stay].
  split. intros p w (Ha & Hn & Hl). apply wlp_modify. split; [|by destruct live].
  destruct Ha as [a1 a2 a3 a4 a5]. constructor; try done. cbn. by intros c m [= <- _].
Qed.
Lemma protocol_error_steady ec message : ec ≠ H3_NO_ERROR → steady (protocol_error ec message).
Proof. intros Hne. unfold protocol_error. stay. Qed.
Lemma frame_error_steady i : steady (frame_error i).
Proof. unfold frame_error. stay. Qed.
Lemma class_buf_clear_steady i : steady (class_buf_clear i).
Proof. unfold class_buf_clear. stay. Qed.
Lemma frames_clear_steady i : steady (frames_clear i).
Proof. unfold frames_clear. stay. Qed.
Lemma frames_push_steady i chunk : steady (frames_push i chunk).
Proof. unfold frames_push. stay. Qed.
Lemma frames_next_steady i : steady (frames_next i).
Proof. unfold frames_next. stay. Qed.
#[local] Hint Extern 1 (_ ≠ H3_NO_ERROR) => discriminate : steady.
#[local] Hint Resolve parser_limit_exceeded_steady flow_error_steady protocol_error_steady
  frame_error_steady class_buf_clear_steady frames_clear_steady frames_push_steady
  frames_next_steady : steady.
Lemma kill_recv_steady i : steady (kill_recv i).
Proof. unfold kill_recv. stay. Qed.
Lemma account_incoming_steady bidi : steady (account_incoming bidi).
Proof. unfold account_incoming. stay. Qed.
Lemma account_receive_steady i amount : steady (account_receive i amount).
Proof. unfold account_receive. stay. Qed.
#[local] Hint Resolve kill_recv_steady account_incoming_steady account_receive_steady : steady.

(** *** Capsules and the CONNECT exchange *)

Lemma handle_flow_capsule_steady ty value : steady (handle_flow_capsule ty value).
Proof. unfold handle_flow_capsule, raise_limit. stay. Qed.
#[local] Hint Resolve handle_flow_capsule_steady : steady.
Lemma handle_capsule_steady ty value : steady (handle_capsule ty value).
Proof. unfold handle_capsule. stay. Qed.
#[local] Hint Resolve handle_capsule_steady : steady.
Lemma scan_loop_steady fuel : steady (scan_loop fuel).
Proof. induction fuel; cbn [scan_loop]; stay. Qed.
#[local] Hint Resolve scan_loop_steady : steady.
Lemma scan_capsules_steady payload : steady (scan_capsules payload).
Proof. unfold scan_capsules. stay. Qed.
Lemma reject_connect_steady i status : steady (reject_connect i status).
Proof.
  unfold reject_connect. cbv zeta. steady_step; [|stay].
  destruct (encode_headers_frame _) as [frame|]; [|stay].
  apply steady_append. intros st. split; [done|]. by eexists.
Qed.
#[local] Hint Resolve scan_capsules_steady reject_connect_steady : steady.
Lemma accept_connect_steady i headers : steady (accept_connect i headers).
Proof. unfold accept_connect. stay. Qed.
#[local] Hint Resolve accept_connect_steady : steady.
Lemma server_connect_loop_steady fuel i : steady (server_connect_loop fuel i).
Proof. induction fuel; cbn [server_connect_loop]; stay. Qed.
#[local] Hint Resolve server_connect_loop_steady : steady.
Lemma parse_server_connect_frames_steady i : steady (parse_server_connect_frames i).
Proof. unfold parse_server_connect_frames. stay. Qed.
Lemma handle_response_steady headers : steady (handle_response headers).
Proof. unfold handle_response. stay. Qed.
#[local] Hint Resolve parse_server_connect_frames_steady handle_response_steady : steady.
Lemma connect_loop_steady fuel i : steady (connect_loop fuel i).
Proof. induction fuel; cbn [connect_loop]; stay. Qed.
#[local] Hint Resolve connect_loop_steady : steady.

(** A session that is set up queues no second CONNECT. *)
Lemma apply_peer_settings_steady settings : steady (apply_peer_settings settings).
Proof.
  unfold apply_peer_settings. steady_step; [stay|]. split. intros p w Hw. apply wlp_bind, wlp_gets.
  rewrite (as_connect _ _ _ _ (proj1 Hw)). revert p w Hw. apply run_steady. cbn [when]. stay.
Qed.
#[local] Hint Resolve apply_peer_settings_steady : steady.
Lemma handle_control_frame_steady i ty payload first : steady (handle_control_frame i ty payload first).
Proof. unfold handle_control_frame. stay. Qed.
#[local] Hint Resolve handle_control_frame_steady : steady.
Lemma control_loop_steady fuel i : steady (control_loop fuel i).
Proof. induction fuel; cbn [control_loop]; stay. Qed.
#[local] Hint Resolve control_loop_steady : steady.
Lemma process_peer_control_steady i chunk fin : steady (process_peer_control i chunk fin).
Proof. unfold process_peer_control, parse_control_frames. stay. Qed.
Lemma process_connect_steady i chunk fin : steady (process_connect i chunk fin).
Proof. unfold process_connect, parse_connect_frames. stay. Qed.
#[local] Hint Resolve process_peer_control_steady process_connect_steady : steady.

(** *** Streams from the peer *)

Lemma class_buf_extend_steady i chunk : steady (class_buf_extend i chunk).
Proof. unfold class_buf_extend. stay. Qed.
#[local] Hint Resolve class_buf_extend_steady : steady.

Section other.
Context (i : N) (other : live = true → i ≠ CONNECT_ID).
Lemma set_role_steady role : steady (set_role i role).
Proof. unfold set_role. stay. Qed.
#[local] Hint Resolve set_role_steady : steady.
Lemma resolve_session_steady bidi buf n fin : steady (resolve_session i bidi buf n fin).
Proof. unfold resolve_session, refuse_stream, resolve_wt_data. stay. Qed.
#[local] Hint Resolve resolve_session_steady : steady.
Lemma resolve_pending_uni_steady chunk fin : steady (resolve_pending_uni i chunk fin).
Proof. unfold resolve_pending_uni. stay. Qed.
Lemma resolve_pending_bidi_steady chunk fin : steady (resolve_pending_bidi i chunk fin).
Proof. unfold resolve_pending_bidi, refuse_stream. stay. Qed.
End other.

Lemma process_recv_steady i chunk fin : steady (process_recv i chunk fin).
Proof.
  split. intros p w Hw. apply wlp_bind, wlp_gets.
  assert (Hpend : ∀ st, ws_streams (w_ses w) !! i = Some st → st_role st ≠ Connect →
    live = true → i ≠ CONNECT_ID).
  { intros st Hst Hr Hl ->. destruct Hw as (_ & _ & Hw). rewrite Hl in Hw.
    destruct Hw as (st' & Hst' & Hr' & _). congruence. }
  destruct (ws_streams (w_ses w) !! i) as [st|]; cbn [fmap option_fmap option_map]; [|by apply wlp_ret].
  specialize (Hpend st eq_refl). revert p w Hw. apply run_steady.
  destruct (st_role st) eqn:Hr; try stay.
  - apply resolve_pending_uni_steady. by apply Hpend.
  - apply resolve_pending_bidi_steady. by apply Hpend.
Qed.
#[local] Hint Resolve process_recv_steady : steady.
Lemma read_loop_steady fuel i backpressured : steady (read_loop fuel i backpressured).
Proof. induction fuel; cbn [read_loop]; stay. Qed.
#[local] Hint Resolve read_loop_steady : steady.
Lemma handle_reset_steady i c : steady (handle_reset i c).
Proof. unfold handle_reset. stay. Qed.
#[local] Hint Resolve handle_reset_steady : steady.
Lemma on_readable_steady i backpressured : steady (on_readable i backpressured).
Proof.
  unfold on_readable. steady_step; [stay|]. destruct a; [stay|].
  split. intros p w Hw. apply wlp_bind, wlp_gets.
  assert (Habs : ws_streams (w_ses w) !! i = None → live = true → i ≠ CONNECT_ID).
  { intros Hst Hl ->. destruct Hw as (_ & _ & Hw). rewrite Hl in Hw.
    destruct Hw as (st' & Hst' & _). congruence. }
  destruct (ws_streams (w_ses w) !! i) eqn:E; revert p w E Hw Habs; intros p w E Hw Habs;
    [|specialize (Habs eq_refl)]; revert Hw; apply run_steady; stay.
Qed.
Lemma dgram_loop_steady fuel : steady (dgram_loop fuel).
Proof. induction fuel; cbn [dgram_loop]; stay. Qed.
#[local] Hint Resolve dgram_loop_steady : steady.
Lemma on_datagrams_steady : steady on_datagrams.
Proof. unfold on_datagrams. stay. Qed.
Lemma send_datagram_steady data rid : steady (send_datagram data rid).
Proof. unfold send_datagram. stay. Qed.
End receive.

(** ** The sending side *)

Section send.
Context {C : Type} {quic : Quic C} {quic_laws : QuicLaws C} {wire : QuicWire C}.
Context {alloc : Allocator} {alloc_laws : AllocatorLaws}.
Context (code : N) (reason : bytes) (live : bool).
Abbreviation steady := (steady (C := C) code reason live).
Abbreviation closing := (closing (C := C) code reason live).
Abbreviation asked := (asked code reason).

Lemma closing_less p p' (w : World C) : p' <= p → closing p w → closing p' w.
Proof.
  intros Hp [[a1 a2 a3 a4 a5] H]. split; [|done]. constructor; try done.
  intros b. destruct (a3 b). split; [done|lia].
Qed.

(** A step that changes only what decides the ids of new streams. *)
Lemma closing_ids p p' (w : World C) (f : WtSession → WtSession) :
  (∀ s : WtSession, asked p s → asked p' (f s)) →
  (∀ s : WtSession, (ws_quic_close_issued (f s), ws_want_quic_close (f s), ws_close_req (f s), ws_streams (f s)) =
        (ws_quic_close_issued s, ws_want_quic_close s, ws_close_req s, ws_streams s)) →
  closing p w → closing p' (w <| w_ses ::= f |>).
Proof.
  intros Hf He (Ha & Hn & Hl). specialize (He (w_ses w)). injection He as E1 E2 E3 E4.
  split; [by apply Hf|]. cbn. split; [by rewrite E1|]. destruct live; [|done].
  unfold on_course in *. cbn. by rewrite E1, E2, E3, E4.
Qed.

Lemma asked_bump (b : bool) p (s : WtSession) :
  asked (1 + p) s →
  asked p (if b then s <| ws_next_bidi ::= fun n => add64 n 4 |> else s <| ws_next_uni ::= fun n => add64 n 4 |>).
Proof.
  intros [a1 a2 a3 a4 a5]. destruct (a3 b) as [_ Hb].
  assert (Hadd : add64 (next_id b s) 4 = next_id b s + 4) by (apply add64_small; lia).
  constructor; try (by destruct b). intros b'. specialize (a3 b'). unfold CONNECT_ID in *.
  destruct b, b'; cbn in *; rewrite ?Hadd; lia.
Qed.

Lemma allocate_stream_closing b rid p (w : World C) :
  closing (1 + p) w → wlp (allocate_stream b rid) (fun _ w' => closing p w') w.
Proof.
  intros Hw. assert (Hne : live = true → next_id b (w_ses w) ≠ CONNECT_ID).
  { destruct (as_ids _ _ _ _ (proj1 Hw) b). lia. }
  unfold allocate_stream. apply wlp_bind, wlp_gets, wlp_bind, wlp_modify.
  apply (closing_ids _ p) with (f := fun s => if b then s <| ws_next_bidi ::= fun n => add64 n 4 |>
    else s <| ws_next_uni ::= fun n => add64 n 4 |>) in Hw; [|by apply asked_bump|by destruct b].
  revert Hw. apply run_steady. stay.
Qed.

Lemma asked_pending l p p' (s : WtSession) :
  p' + lenN l <= p + lenN (ws_pending_opens s) → asked p s → asked p' (s <| ws_pending_opens := l |>).
Proof.
  intros Hl [a1 a2 a3 a4 a5]. constructor; try done. intros b. destruct (a3 b) as [H1 H2].
  unfold next_id in *. cbn in *. split; [done|lia].
Qed.

Lemma release_loop_closing pending p (w : World C) :
  closing (lenN pending + p) w → wlp (release_loop pending) (fun _ w' => closing p w') w.
Proof.
  revert w. induction pending as [|[b rid] pending IH]; intros w Hw; cbn [release_loop];
    [by apply wlp_ret|].
  rewrite lenN_cons in Hw.
  apply wlp_bind, wlp_gets, wlp_bind. eapply (wlp_mono _ (fun _ w' => closing (lenN pending + p) w')).
  - destruct (open_blocked _ _).
    + apply wlp_modify. eapply closing_ids; [|done|exact Hw]. intros s. apply asked_pending.
      rewrite lenN_app, lenN_cons, lenN_nil. lia.
    + apply allocate_stream_closing. eapply closing_less; [|exact Hw]. lia.
  - intros _ w1 H1. by apply IH.
Qed.

Lemma release_pending_opens_closing p (w : World C) :
  closing p w → wlp release_pending_opens (fun _ w' => closing p w') w.
Proof.
  intros Hw. unfold release_pending_opens. apply wlp_bind, wlp_gets. case_match; [by apply wlp_ret|].
  apply wlp_bind, wlp_gets, wlp_bind, wlp_modify. apply release_loop_closing.
  destruct Hw as [Ha Hrest]. split; [|done]. apply (asked_pending [] p); [rewrite lenN_nil; lia|done].
Qed.

Lemma open_stream_closing b rid p (w : World C) :
  closing (1 + p) w → wlp (open_stream b rid) (fun _ w' => closing p w') w.
Proof.
  intros Hw. apply wlp_bind, wlp_modify, release_pending_opens_closing.
  eapply closing_ids; [|done|exact Hw]. intros s. apply asked_pending.
  rewrite lenN_app, lenN_cons, lenN_nil. lia.
Qed.

(** *** The parts of a flush *)

Lemma flush_terminal_error_steady : steady flush_terminal_error.
Proof.
  split. intros p w Hw. apply wlp_bind, wlp_gets.
  destruct (ws_terminal_error (w_ses w)) as [[c m]|] eqn:He; [|by apply wlp_ret].
  pose proof (as_error _ _ _ _ (proj1 Hw) c m He) as Hne. apply wlp_bind, wlp_modify.
  apply (closing_ids p p) with (f := fun s => s <| ws_terminal_error := None |>) in Hw; [|by intros s []|done].
  revert Hw. apply run_steady. stay.
Qed.
Lemma grant_credit_steady : steady grant_credit.
Proof. unfold grant_credit, queue_session_capsule. stay. Qed.
Lemma replenish_credit_steady : steady replenish_credit.
Proof. unfold replenish_credit, replenish_data, replenish_streams, queue_session_capsule. stay. Qed.
Lemma signal_blocked_steady : steady signal_flow_control_blocked.
Proof.
  unfold signal_flow_control_blocked, signal_data_blocked, signal_streams_blocked, queue_session_capsule. stay.
  all: apply steady_set_ses; [by destruct bidi|by intros _; destruct bidi].
Qed.
Lemma send_drain_steady : steady send_drain.
Proof. unfold send_drain. stay. Qed.
Lemma stream_stop_sending_steady i c : steady (stream_stop_sending i c).
Proof. unfold stream_stop_sending. stay. Qed.
Lemma reconcile_steady i : steady (reconcile_send_final_size i).
Proof. unfold reconcile_send_final_size. stay. Qed.
Lemma stream_reset_steady i c : i ≠ CONNECT_ID → steady (stream_reset i c).
Proof.
  intros Hi. unfold stream_reset. stay.
  all: first [apply reconcile_steady|apply steady_with_stream; by right].
Qed.

(** The application's close is already in. *)
Lemma close_steady c r : steady (close c r).
Proof.
  split. intros p w Hw. apply wlp_bind, wlp_gets. destruct (as_req _ _ _ _ (proj1 Hw)) as [q ->]. by apply wlp_ret.
Qed.

Lemma queue_close_capsule_steady : steady queue_close_capsule.
Proof.
  split. intros p w (Ha & Hn & Hl). apply wlp_bind, wlp_gets.
  destruct (as_req _ _ _ _ Ha) as [q Hq]. rewrite Hq. cbn [cr_capsule_queued cr_code cr_reason].
  destruct q; [by apply wlp_ret|]. apply wlp_bind, wlp_modify, wlp_bind, wlp_gets. cbn.
  set (r := mkCloseReq code reason true).
  assert (Ha1 : asked p ((w_ses w) <| ws_close_req := Some r |>)).
  { destruct Ha as [a1 a2 a3 a4 a5]. constructor; try done. by exists true. }
  destruct live eqn:El.
  - destruct Hl as (st & Hst & Hr & _ & Hw). rewrite Hst. apply wlp_bind, wlp_modify, wlp_modify.
    split; [by eapply asked_view; [|exact Ha1]|]. split; [exact Hn|].
    eexists. cbn. rewrite !lookup_alter, !decide_True, Hst by done. split; [reflexivity|]. split; [done|]. split.
    + intros _ _ _. exists (accepted (w_conn w) CONNECT_ID ++ unsent (st_out st)), []. cbn.
      unfold unsent. rewrite map_app, concat_app. cbn. by rewrite !app_nil_r, <- app_assoc.
    + exact Hw.
  - assert (Hw : SessionClose.closing code reason false p (w <| w_ses ::= fun s => s <| ws_close_req := Some r |> |>)) by done.
    destruct (ws_streams (w_ses w) !! CONNECT_ID).
    + revert Hw. apply run_steady. stay.
    + apply wlp_modify. split; [by destruct Ha1; constructor|]. by split.
Qed.

(** The CONNECT stream is never pruned. *)
Lemma prune_streams_steady : steady prune_streams.
Proof.
  split. intros p w Hw. apply wlp_bind, wlp_gets, wlp_bind, wlp_gets, wlp_bind, wlp_modify.
  match goal with |- wlp _ _ (_ <| w_ses ::= fun s => s <| ws_streams := ?m |> |>) => set (m' := m) end.
  assert (E : m' !! CONNECT_ID = ws_streams (w_ses w) !! CONNECT_ID).
  { destruct (ws_streams (w_ses w) !! CONNECT_ID) as [st|] eqn:Hst.
    - by apply map_lookup_filter_Some_2.
    - apply map_lookup_filter_None_2. by left. }
  apply run_steady; [apply steady_mem|]. revert Hw.
  apply (closing_same _ _ _ _ w _ []); [done|done|by rewrite app_nil_r|]. intros _. split; [|done].
  unfold entry. cbn. by rewrite E.
Qed.

(** The QUIC connection is closed only with the capsule accepted, and once. *)
Lemma drive_quic_close_steady : steady drive_quic_close.
Proof.
  split. intros p w (Ha & Hn & Hl). apply wlp_bind, wlp_gets.
  destruct (ws_quic_close_issued (w_ses w)) eqn:Hi; [by apply wlp_ret; split; [|rewrite Hi]|].
  apply wlp_bind, wlp_gets, wlp_bind.
  apply (wlp_mono _ (fun _ w' => closing p w' ∧ ws_quic_close_issued (w_ses w') = false)).
  - assert (Hw : closing p w) by (split; [|rewrite Hi]; done).
    destruct (ws_want_quic_close (w_ses w)) eqn:Hwant; [by apply wlp_ret|]. apply wlp_bind, wlp_gets.
    destruct (as_req _ _ _ _ Ha) as [q Hq]. rewrite Hq. apply wlp_bind, wlp_gets. cbv zeta.
    destruct (_ && _) eqn:Hd; [|by apply wlp_ret]. apply wlp_modify. split; [|exact Hi].
    split; [by destruct Ha; constructor|]. cbn. rewrite Hi. split; [done|]. destruct live; [|done].
    destruct Hl as (st & Hst & Hr & Hc & _). exists st. cbn. do 2 (split; [done|]). split; [done|]. intros _.
    rewrite Hst in Hd. cbn in Hd. apply andb_true_iff in Hd as [-> [Ho%bool_decide_eq_true _]%andb_true_iff].
    specialize (Hc _ Hq eq_refl). by rewrite Ho, app_nil_r in Hc.
  - cbv beta. clear Ha Hn Hl Hi. intros _ w1 [(Ha & Hn & Hl) Hi]. apply wlp_bind, wlp_gets.
    destruct (ws_want_quic_close (w_ses w1)) eqn:Hwant; [|by apply wlp_ret].
    apply wlp_bind, wlp_gets. rewrite Hi in Hn. destruct (ws_close_deferred_once (w_ses w1)).
    + apply wlp_bind, wlp_modify, wlp_modify. split; [by destruct Ha; constructor|]. cbn. split.
      * unfold goodbyes in *. rewrite close_closes, countb_app, Hn. done.
      * destruct live; [|done]. destruct Hl as (st & Hst & Hr & Hc & Hg). exists st. cbn.
        rewrite close_accepted. do 2 (split; [done|]). split; [done|]. intros _. apply Hg. left. by eexists.
    + apply wlp_modify. split; [by destruct Ha; constructor|]. cbn. rewrite Hi. split; [done|]. destruct live; [|done].
      destruct Hl as (st & Hst & Hr & Hc & Hg). by exists st.
Qed.

(** *** The streams of a flush *)

Abbreviation keeps_control m := (keeps (of_ses (C := C) control_view) m).
Lemma reconcile_control i : keeps_control (reconcile_send_final_size i).
Proof. unfold reconcile_send_final_size. keep. Qed.
Lemma ack_all_control out : keeps_control (ack_all out).
Proof. induction out; cbn [ack_all]; keep. Qed.
#[local] Hint Resolve reconcile_control ack_all_control : keeps.
Lemma send_front_control i enforce is_wt front rest n : keeps_control (send_front i enforce is_wt front rest n).
Proof. unfold send_front. keep. Qed.
#[local] Hint Resolve send_front_control : keeps.
Lemma flush_loop_control fuel i enforce is_wt n : keeps_control (flush_loop fuel i enforce is_wt n).
Proof. revert n. induction fuel; intros n; cbn [flush_loop]; keep. Qed.
#[local] Hint Resolve flush_loop_control : keeps.
Lemma flush_stream_control i n : keeps_control (flush_stream i n).
Proof. unfold flush_stream. keep. Qed.

(** The peer may stop the CONNECT stream meanwhile. *)
Definition closing_or p (w : World C) : Prop := closing p w ∨ SessionClose.closing code reason false p w.

Lemma stopped_closing p (w : World C) c : EvStreamStopSending CONNECT_ID c ∈ w_ev w → closing p w → closing_or p w.
Proof. intros Hc (Ha & Hn & _). right. split; [done|]. split; [done|]. by exists c. Qed.

Lemma flush_stream_closing i n p (w : World C) :
  map_Forall (fun _ st => Forall chunk_ok (st_out st)) (ws_streams (w_ses w)) →
  closing p w → wp (flush_stream i n) (fun _ w' => closing_or p w') w.
Proof.
  intros Hok Hw. destruct (ws_streams (w_ses w) !! i) as [sti|] eqn:Hi.
  2:{ unfold wp. rewrite flush_stream_absent by done. by left. }
  eapply wp_mono; [apply wp_of_wlp; [apply (flush_stream_wp i n w sti Hi), (Hok i sti Hi)|]|].
  { apply wlp_and; [apply (wlp_keeps (of_ses (roles_view CONNECT_ID)) _ w), flush_stream_roles
      |apply (wlp_keeps (of_ses control_view) _ w), flush_stream_control]. }
  cbv beta. intros _ w' [(st' & sent & acked & e & evs & [os oa oc] & [_ Hs] & Hev & _) [Er Ec]].
  assert (Hg : goodbyes (w_conn w') = goodbyes (w_conn w)) by by apply same_goodbyes.
  destruct (decide (i = CONNECT_ID)) as [->|Hne].
  2:{ left. apply (closing_same code reason live p w w' evs); try done. intros _. unfold entry.
      by rewrite os, lookup_insert_ne, oa, decide_False, app_nil_r by done. }
  destruct e as [|c settled].
  - left. apply (closing_grows code reason live p w w' evs); try done. intros _ st0 Hst0.
    rewrite Hi in Hst0. injection Hst0 as <-. exists st', sent, [].
    apply (f_equal fst) in Er. cbn in Er. rewrite os, lookup_insert, decide_True, Hi in Er by done.
    injection Er as Er. rewrite os, lookup_insert, decide_True by done. do 2 (split; [done|]). rewrite oa, decide_True by done. split; [done|].
    destruct Hs as (Hu & _). by rewrite <- !app_assoc, Hu, app_nil_r.
  - right. split; [|split].
    + eapply asked_view; [exact Ec|]. apply Hw.
    + rewrite Hg. injection Ec as _ _ _ _ _ _ _ _ ->. apply Hw.
    + exists c. rewrite Hev. destruct Hs as (_ & _ & _ & _ & ->). set_solver.
Qed.
End send.

(** ** Every run *)

Section runs.
Context {C : Type} {quic : Quic C} {quic_laws : QuicLaws C} {wire : QuicWire C}.
Context {alloc : Allocator} {alloc_laws : AllocatorLaws} {qpack : Qpack} {sfv : Sfv}.
Context {hist : History} (limits : N → N) (limits_usize : ∀ i, limits i < U64).
Context (code : N) (reason : bytes).

Abbreviation inv := (inv limits).
Abbreviation closing := (closing (C := C) code reason).
(** With the CONNECT stream open, or stopped by the peer. *)
Abbreviation closing_any := (closing_or (C := C) code reason true).
Abbreviation steady live m := (steady (C := C) code reason live m).

Lemma any_live live p (w : World C) : closing_or code reason live p w → closing_any p w.
Proof. intros [H|H]; [|by right]. destruct live; [by left|by right]. Qed.

(** What holds of either state holds of both. *)
Lemma wlp_any {A} (m : M (World C) A) p p' (w : World C) :
  (∀ live, closing live p w → wlp m (fun _ w' => closing live p' w') w) →
  closing_any p w → wlp m (fun _ w' => closing_any p' w') w.
Proof.
  intros Hm [Hw|Hw]; (eapply wlp_mono; [by apply Hm|]); cbv beta; intros; [by left|by right].
Qed.
Lemma steady_any {A} (m : M (World C) A) p (w : World C) :
  (∀ live, steady live m) → closing_any p w → wlp m (fun _ w' => closing_any p w') w.
Proof. intros Hm. apply wlp_any. intros live. apply run_steady, Hm. Qed.

Lemma any_piece {A} (m : M (World C) A) L p (w : World C) :
  (∀ w, inv L w → wp m (fun _ w' => good limits free w L w') w) → (∀ live, steady live m) →
  inv L w → closing_any p w → wp m (fun _ w' => inv L w' ∧ closing_any p w') w.
Proof.
  intros Hm Hs Hi Hw. eapply wp_mono; [apply wp_of_wlp; [by apply Hm|by apply steady_any]|].
  cbv beta. by intros _ w' [[? _] ?].
Qed.

Lemma flush_streams_any ids n L p (w : World C) :
  inv L w → closing_any p w → wp (flush_streams ids n) (fun _ w' => inv L w' ∧ closing_any p w') w.
Proof.
  revert n w. induction ids as [|i ids IH]; intros n w Hi Hw; cbn [flush_streams]; [by apply wp_ret|].
  apply wp_bind. assert (Hs : wp (flush_stream i n) (fun _ w' => closing_any p w') w).
  { assert (Hok := inv_chunks _ _ _ Hi).
    destruct Hw as [Hw|Hw]; (eapply wp_mono; [eapply flush_stream_closing; [exact Hok|exact Hw]|]);
      cbv beta; intros a w1; apply any_live. }
  eapply wp_mono; [apply wp_conj; [by apply (flush_stream_good limits free w L w), good_start|exact Hs]|].
  cbv beta. intros n' w' [[Hi' _] Hw']. by apply IH.
Qed.

(** A whole flush. *)
Lemma flush_any order L p (w : World C) :
  inv L w → closing_any p w → wp (flush order) (fun _ w' => closing_any p w') w.
Proof.
  intros Hi Hw. unfold flush.
  assert (Hpiece : ∀ m k : M (World C) (),
    (∀ w, inv L w → wp m (fun _ w' => good limits free w L w') w) → (∀ live, steady live m) →
    (∀ w, inv L w → closing_any p w → wp k (fun _ w' => closing_any p w') w) →
    ∀ w, inv L w → closing_any p w → wp (_ ← m; k) (fun _ w' => closing_any p w') w).
  { intros m k Hm Hc Hk w0 Hi0 Hu0. apply wp_bind. eapply wp_mono; [by apply (any_piece m L p)|].
    cbv beta. intros _ w1 [? ?]. by apply Hk. }
  revert w Hi Hw.
  apply Hpiece; [intros; by apply (flush_terminal_error_good limits), good_start
    |intros; by apply flush_terminal_error_steady|].
  apply Hpiece; [intros; by apply (grant_credit_good limits), good_start|intros; by apply grant_credit_steady|].
  apply Hpiece; [intros; by apply (replenish_credit_good limits), good_start
    |intros; by apply replenish_credit_steady|].
  apply Hpiece; [intros; by apply (queue_close_capsule_good limits), good_start
    |intros; by apply queue_close_capsule_steady|].
  intros w Hi Hw. apply wp_bind. eapply wp_mono.
  { apply wp_of_wlp; [by apply (release_pending_opens_good limits limits_usize free w L w), good_start|].
    apply (wlp_any _ p p); [|exact Hw]. intros live. apply release_pending_opens_closing. }
  cbv beta. intros _ w1 [[Hi1 _] Hw1]. ses_steps.
  eapply wp_mono; [apply (flush_streams_any _ _ L p w1 Hi1 Hw1)|]. cbv beta.
  intros n w2 [Hi2 Hw2]. revert w2 Hi2 Hw2.
  apply Hpiece; [intros; by apply wp_modify, good_set, good_start|intros; stay|].
  apply Hpiece; [intros; by apply (signal_flow_control_blocked_good limits), good_start
    |intros; by apply signal_blocked_steady|].
  apply Hpiece; [intros; by apply (prune_streams_good limits limits_usize), good_start
    |intros; by apply prune_streams_steady|].
  intros w2 Hi2 Hw2. eapply wp_mono; [apply (any_piece _ L p)|]; [..|by intros _ w3 [_ ?]].
  - intros w3 Hi3. by apply (drive_quic_close_good limits free w3 L), good_start.
  - intros. by apply drive_quic_close_steady.
  - done.
  - done.
Qed.

(** The calls that leave the CONNECT stream to its course. *)
Definition step_fair (s : Step (C := C)) : Prop :=
  match s with
  | Call o => undisturbed CONNECT_ID o
  | Net f => ∀ c, accepted (f c) CONNECT_ID = accepted c CONNECT_ID ∧ closes (f c) = closes c
  end.

Lemma run_op_any o L p (w : World C) :
  undisturbed CONNECT_ID o → inv L w → closing_any (opens o + p) w →
  wp (run_op o) (fun _ w' => inv L w' ∧ closing_any p w') w.
Proof.
  intros Ho Hi Hw. apply wp_conj; [by apply (run_op_inv limits limits_usize)|].
  assert (Hwlp : wlp (run_op o) (fun _ w' => closing_any p w') w → wp (run_op o) (fun _ w' => closing_any p w') w).
  { intros Hm. eapply wp_mono.
    - apply wp_of_wlp; [by apply (run_op_inv limits limits_usize _ L)|exact Hm].
    - cbv beta. by intros _ w' [_ ?]. }
  assert (Hsteady : opens o = 0 → (∀ live, steady live (run_op o)) → wp (run_op o) (fun _ w' => closing_any p w') w).
  { intros E Hs. apply Hwlp, steady_any; [exact Hs|]. by rewrite E in Hw. }
  destruct o as [|i b| | | |i data rid| |i| | | | |order| | | | |]; cbn [undisturbed] in Ho; try done;
    try (by apply Hsteady; [done|intros live; cbn [run_op]; stay]); cbn [opens] in *.
  - apply Hsteady; [done|]. intros live. split. intros p1 w1 H1. apply wlp_bind, wlp_gets.
    rewrite (as_setup _ _ _ _ (proj1 H1)). by apply wlp_ret.
  - apply Hsteady; [done|]. intros live. apply on_readable_steady.
  - apply Hsteady; [done|]. intros live. apply on_datagrams_steady.
  - apply Hsteady; [done|]. intros live. apply send_datagram_steady.
  - apply Hwlp, (wlp_any _ (1 + p) p); [|exact Hw]. intros live. apply open_stream_closing.
  - apply Hsteady; [done|]. intros live. cbn [run_op]. unfold stream_write. stay.
  - apply Hsteady; [done|]. intros live. cbn [run_op]. unfold stream_fin. stay.
  - apply Hsteady; [done|]. intros live. by apply stream_reset_steady.
  - apply Hsteady; [done|]. intros live. apply stream_stop_sending_steady.
  - apply Hsteady; [done|]. intros live. cbn [run_op]. unfold set_paused. stay.
  - apply Hsteady; [done|]. intros live. apply close_steady.
  - apply Hsteady; [done|]. intros live. apply send_drain_steady.
  - by apply flush_any with L.
  - apply Hsteady; [done|]. intros live. apply mark_closed_steady.
  - apply Hsteady; [done|]. intros live. cbn [run_op]. unfold build_keying_material. stay.
    all: destruct (negb _); [done|]; destruct (export_keying_material _ _ _ _) as [r c'] eqn:E; cbn.
    all: change c' with (r, c').2; rewrite <- E; auto using export_accepted.
Qed.

Lemma run_steps_any l L p (w : World C) :
  Forall step_fair l → inv L w → closing_any (all_opens l + p) w →
  wp (run_steps l) (fun _ w' => closing_any p w') w.
Proof.
  revert w. induction l as [|s l IH]; intros w Hl Hi Hw; cbn [run_steps]; [by apply wp_ret|].
  inversion_clear Hl as [|? ? Hs Hl']. apply wp_bind, (wp_mono _ (fun _ w' => inv L w' ∧ closing_any (all_opens l + p) w'));
    [|intros _ w' [? ?]; by apply IH].
  change (all_opens (s :: l)) with (step_opens s + all_opens l) in Hw. rewrite <- N.add_assoc in Hw.
  destruct s as [o|f]; [by apply run_op_any|].
  apply wp_modify. split; [by apply (op_network_inv limits L w (f (w_conn w)))|].
  refine (steady_any (conn_ f) _ w _ Hw () _ eq_refl).
  intros live. apply steady_conn_; intros c; [apply Hs|by apply same_goodbyes, Hs].
Qed.

End runs.

(** ** The close *)

Section goodbye.
Context {C : Type} {quic : Quic C} {quic_laws : QuicLaws C} {wire : QuicWire C}.
Context {alloc : Allocator} {alloc_laws : AllocatorLaws} {qpack : Qpack} {sfv : Sfv}.
Context {hist : History} (limits : N → N) (limits_usize : ∀ i, limits i < U64).

(** C12: the close of a session that is set up.  The application closes it with a
    code and a reason, and whatever follows (calls of any kind except resetting
    the CONNECT stream, and a network that takes back nothing it accepted), every
    call returns and the session closes the QUIC connection at most once, and
    only once the capsule that carries the code and the reason, cut to what a
    capsule may hold, has been accepted by QUIC on the CONNECT stream, unless the
    peer has stopped that stream. *)
Theorem goodbye_after_capsule code r steps L st (w : World C) :
  inv limits L w → ws_setup_sent (w_ses w) = true → ws_connect_pending (w_ses w) = false →
  ws_close_req (w_ses w) = None → ws_want_quic_close (w_ses w) = None →
  ws_quic_close_issued (w_ses w) = false → ws_terminal_error (w_ses w) = None →
  ws_streams (w_ses w) !! CONNECT_ID = Some st → st_role st = Connect →
  goodbyes (w_conn w) = O →
  (∀ b, CONNECT_ID < next_id b (w_ses w) ∧
    next_id b (w_ses w) + 4 * (all_opens steps + lenN (ws_pending_opens (w_ses w))) < U64) →
  Forall step_fair steps →
  wp (_ ← close code r; run_steps steps) (fun _ w' =>
    goodbyes (w_conn w') = (if ws_quic_close_issued (w_ses w') then 1 else 0)%nat ∧
    (goodbyes (w_conn w') = 1%nat → stop_seen w' ∨
       contains (close_frame code (truncate_close_reason r)) (accepted (w_conn w') CONNECT_ID))) w.
Proof.
  intros Hi H1 H2 H3 H4 H5 H6 Hst Hr H7 Hroom Hs. apply wp_bind, wp_bind, wp_gets. rewrite H3. apply wp_modify.
  set (w1 := w <| w_ses ::= _ |>).
  assert (Hw : SessionClose.closing code (truncate_close_reason r) true (all_opens steps + 0) w1).
  { split; [|split].
    - constructor; cbn; rewrite ?N.add_0_r; try done; [by rewrite H6|by eexists].
    - cbn. by rewrite H5.
    - exists st. cbn. do 2 (split; [done|]). split; [by intros ? [= <-]|]. rewrite H4, H5. intros [[]|?]; done. }
  assert (Hi1 : inv limits L w1) by by apply (good_set limits free w L w), good_start.
  eapply wp_mono; [apply (run_steps_any limits limits_usize code (truncate_close_reason r) steps L 0 w1 Hs Hi1); by left|].
  cbv beta. intros _ w' Hw'.
  assert (Hn : goodbyes (w_conn w') = (if ws_quic_close_issued (w_ses w') then 1 else 0)%nat)
    by by destruct Hw' as [(_ & ? & _)|(_ & ? & _)].
  split; [exact Hn|]. intros E. rewrite Hn in E. destruct Hw' as [(_ & _ & st' & _ & _ & _ & Hg)|(_ & _ & Hg)]; [right|by left].
  apply Hg. right. by destruct (ws_quic_close_issued (w_ses w')).
Qed.
End goodbye.

(** The server of [Session.Example], ready, closes; QUIC takes three bytes of the
    CONNECT stream, then the rest. *)
Module Example.
#[local] Existing Instance exact_allocator.
#[local] Existing Instance literal_qpack.
#[local] Existing Instance rfc9651.
#[local] Existing Instance no_history.
Import Session.Example.

Definition ops_ready : list (SessionOp ToyConn) := take 5 ops.
Definition credit (n : nat) (c : ToyConn) : ToyConn := c <| toy_credit := fun _ => n |>.
Definition steps : list (Step (C := ToyConn)) :=
  [Net (credit 3); Call (OpFlush id); Net (credit 100); Call (OpFlush id); Call (OpFlush id); Call (OpFlush id)].

Lemma goodbye_after_capsule_witness :
  ∃ w w', run_ops ops_ready (mkWorld server.1 toy_new server.2 []) = Some ((), w) ∧
    (_ ← close 5 (s2b "bye"); run_steps steps) w = Some ((), w') ∧
    goodbyes (w_conn w') = 1%nat ∧
    contains (close_frame 5 (s2b "bye")) (accepted (w_conn w') CONNECT_ID).
Proof.
  pose proof (run_ops_inv limits limits_usize ops_ready [] (mkWorld server.1 toy_new server.2 [])
    (constructed_inv limits server.1 counters server.2 toy_new [] server_constructed
      server_memory_wf counters_within counters_accounted)) as H.
  apply wp_elim in H as ([] & w & E & Hi). exists w.
  pose proof (f_equal (fun o => match o with
    | Some (_, w) => Some ((ws_setup_sent (w_ses w), ws_connect_pending (w_ses w), ws_close_req (w_ses w),
        ws_want_quic_close (w_ses w), ws_quic_close_issued (w_ses w)),
        (ws_terminal_error (w_ses w), st_role <$> ws_streams (w_ses w) !! CONNECT_ID, goodbyes (w_conn w),
        next_id true (w_ses w), next_id false (w_ses w), lenN (ws_pending_opens (w_ses w))))
    | None => None end) E) as Hc. cbv beta iota in Hc.
  match type of Hc with ?a = _ => let b := eval vm_compute in a in replace a with b in Hc
    by (vm_compute; reflexivity) end.
  injection Hc as H1 H2 H3 H4 H5 H6 H7 H8 H9 H10 H11.
  destruct (ws_streams (w_ses w) !! CONNECT_ID) as [st|] eqn:Hst; [|done]. injection H7 as H7.
  pose proof (goodbye_after_capsule limits limits_usize 5 (s2b "bye") steps [] st w Hi (eq_sym H1) (eq_sym H2)
    (eq_sym H3) (eq_sym H4) (eq_sym H5) (eq_sym H6) Hst (eq_sym H7) (eq_sym H8)) as H.
  assert (Hroom : ∀ b, CONNECT_ID < next_id b (w_ses w) ∧
    next_id b (w_ses w) + 4 * (all_opens steps + lenN (ws_pending_opens (w_ses w))) < U64).
  { rewrite <- H11. change (all_opens steps) with 0. clear -H9 H10. unfold next_id, CONNECT_ID, U64.
    intros []; [rewrite <- H9|rewrite <- H10]; lia. }
  specialize (H Hroom).
  specialize (H ltac:(unfold steps; repeat constructor)).
  apply wp_elim in H as ([] & w' & E' & Hn & Hg). exists w'. split; [exact E|]. split; [exact E'|].
  assert (E2 : (_ ← run_ops ops_ready; _ ← close 5 (s2b "bye"); run_steps steps)
    (mkWorld server.1 toy_new server.2 []) = Some ((), w')) by (unfold mbind at 1, M_bind; rewrite E; exact E').
  pose proof (f_equal (fun o => match o with
    | Some (_, w) => (ws_quic_close_issued (w_ses w), existsb (fun e => match e with
        | EvStreamStopSending _ _ => true | _ => false end) (w_ev w))
    | None => (false, true) end) E2) as Hc. cbv beta iota in Hc.
  match type of Hc with ?a = _ => replace a with (true, false) in Hc by (vm_compute; reflexivity) end.
  injection Hc as J1 J2. rewrite <- J1 in Hn. split; [exact Hn|]. destruct (Hg Hn) as [[c Hs]|Hk]; [|exact Hk].
  exfalso. symmetry in J2. revert J2. apply not_false_iff_true, existsb_exists.
  eexists. split; [by apply list_elem_of_In, Hs|done].
Defined.
End Example.
