(* ===== verification/SessionStall.v ===== *)
(** * A close that never comes ([crates/native/src/session.rs])

    The graceful close waits for the CONNECT stream to be drained.  [flush]
    queues its blocked signals after the streams have been flushed, the FIN of
    the close among them, and QUIC takes nothing behind a FIN: from there on no
    flush drains the stream, and the session never closes the QUIC connection
    of its own accord. *)

From S2P Require Import Prelude H3 ParserMemory FrameParser Headers Net Quic SessionState.
From S2P Require Import SessionRecv SessionConnect SessionStreams SessionSend SessionFrame SessionInv.
From S2P Require Import SessionRecvInv SessionSendInv SessionWire Session SessionCarry SessionTransfer SessionClose.

Lemma capsule_frame_nonempty ty value : (0 < length (capsule_frame ty value))%nat.
Proof. unfold capsule_frame, frame. replace (put_varint FRAME_DATA) with [x00] by reflexivity. cbn. lia. Qed.

Section stall.
Context {C : Type} {quic : Quic C} {fins : QuicFin C}.

(** QUIC has taken the FIN of the CONNECT stream, the stream has bytes queued,
    and nothing else is about to close the connection or to open a stream. *)
Record stuck (w : World C) : Prop := mkStuck {
  sk_want : ws_want_quic_close (w_ses w) = None;
  sk_issued : ws_quic_close_issued (w_ses w) = false;
  sk_error : ws_terminal_error (w_ses w) = None;
  sk_opens : ws_pending_opens (w_ses w) = [];
  sk_finished : finished (w_conn w) CONNECT_ID;
  sk_queue : ∃ st front rest, ws_streams (w_ses w) !! CONNECT_ID = Some st ∧ st_out st = front :: rest ∧
    (oc_off front < length (oc_data front))%nat;
}.

Definition close_view (s : WtSession) :=
  (ws_want_quic_close s, ws_quic_close_issued s, ws_terminal_error s, ws_pending_opens s).
(** The queue of the CONNECT stream only grows at its end. *)
Definition queue_grows (s s' : WtSession) : Prop :=
  ∀ st, ws_streams s !! CONNECT_ID = Some st →
  ∃ st' later, ws_streams s' !! CONNECT_ID = Some st' ∧ st_out st' = st_out st ++ later.

Lemma stuck_step (w w' : World C) :
  close_view (w_ses w') = close_view (w_ses w) → queue_grows (w_ses w) (w_ses w') →
  (finished (w_conn w) CONNECT_ID → finished (w_conn w') CONNECT_ID) → stuck w → stuck w'.
Proof.
  intros [= E1 E2 E3 E4] Hq Hf [k1 k2 k3 k4 k5 (st & front & rest & Hst & Ho & Hl)].
  constructor; [congruence..|by apply Hf|]. destruct (Hq st Hst) as (st' & later & Hst' & Ho').
  exists st', front, (rest ++ later). split; [done|]. by rewrite Ho', Ho.
Qed.
Lemma queue_same (s s' : WtSession) :
  ws_streams s' !! CONNECT_ID = ws_streams s !! CONNECT_ID → queue_grows s s'.
Proof. intros E st Hst. exists st, []. by rewrite E, app_nil_r. Qed.

(** ** What leaves it stuck *)

Record sticks {A} (m : M (World C) A) : Prop := Sticks { run_sticks w : stuck w → wlp m (fun _ w' => stuck w') w }.

Lemma sticks_ret {A} (a : A) : sticks (mret a).
Proof. split. intros w Hw. by apply wlp_ret. Qed.
Lemma sticks_bind {A B} (m : M (World C) A) (k : A → M (World C) B) :
  sticks m → (∀ a, sticks (k a)) → sticks (m ≫= k).
Proof.
  intros [Hm] Hk. split. intros w Hw. apply wlp_bind. eapply wlp_mono; [by apply Hm|]. cbv beta.
  intros a w' Hw'. by apply (Hk a).
Qed.
Lemma sticks_gets {A} (f : World C → A) : sticks (gets f).
Proof. split. intros w Hw. by apply wlp_gets. Qed.
Lemma sticks_unwrap {A} (o : option A) : sticks (unwrap o).
Proof. split. intros w Hw. by apply wlp_unwrap. Qed.
Lemma sticks_panic {A} : sticks (@panic (World C) A).
Proof. split. intros w Hw. apply wlp_panic. Qed.
Lemma sticks_when b m : sticks m → sticks (when b m).
Proof. intros H. destruct b; [done|apply sticks_ret]. Qed.
Lemma sticks_set_ses f :
  (∀ s, close_view (f s) = close_view s) → (∀ s, queue_grows s (f s)) → sticks (set_ses f).
Proof. intros H1 H2. split. intros w. intros Hw. apply wlp_modify. revert Hw. apply stuck_step; [apply H1|apply H2|done]. Qed.
Lemma sticks_push_ev e : sticks (push_ev e).
Proof. split. intros w Hw. apply wlp_modify. revert Hw. apply stuck_step; [done|apply queue_same; reflexivity|done]. Qed.
Lemma sticks_mem {A} (m : M Usage A) : sticks (mem m).
Proof.
  split. intros w Hw a w'. unfold mem. destruct (m (w_mem w)) as [[b u]|]; [|done]. intros [= _ <-].
  revert Hw. apply stuck_step; [done|apply queue_same; reflexivity|done].
Qed.
Lemma sticks_conn {A} (f : C → A * C) :
  (∀ c, finished c CONNECT_ID → finished (f c).2 CONNECT_ID) → sticks (conn f).
Proof.
  intros H. split. intros w Hw a w'. unfold conn. specialize (H (w_conn w)).
  destruct (f (w_conn w)) as [b c]. intros [= _ <-]. revert Hw. apply stuck_step; [done|apply queue_same; reflexivity|done].
Qed.
(** Another stream changes, or this one and not its queue, or its queue grows. *)
Lemma sticks_with_stream i f :
  i ≠ CONNECT_ID ∨ (∀ st, ∃ later, st_out (f st) = st_out st ++ later) → sticks (with_stream i f).
Proof.
  intros H. apply sticks_set_ses; [done|]. intros s st Hst. cbn. rewrite lookup_alter.
  case_decide as Hd; [|exists st, []; by rewrite app_nil_r].
  destruct H as [H|H]; [done|]. subst i. rewrite Hst. destruct (H st) as [later E]. by exists (f st), later.
Qed.
Lemma sticks_push_out i chunk : sticks (push_out i chunk).
Proof. apply sticks_with_stream. right. intros st. by exists [chunk]. Qed.

End stall.

Create HintDb sticks discriminated.
#[export] Hint Constants Opaque : sticks.
Ltac stick_step :=
  lazymatch goal with
  | |- sticks (mbind _ _) => apply sticks_bind; [|intros ?]
  | |- sticks (mret _) => apply sticks_ret
  | |- sticks (ses _) => apply sticks_gets
  | |- sticks (get_stream _) => apply sticks_gets
  | |- sticks (gets _) => apply sticks_gets
  | |- sticks (set_ses _) => apply sticks_set_ses; [intros ?; reflexivity|intros ?; by apply queue_same]
  | |- sticks (with_stream _ _) =>
      apply sticks_with_stream;
      first [left; assumption|right; intros ?; by exists []; rewrite app_nil_r]
  | |- sticks (push_out _ _) => apply sticks_push_out
  | |- sticks (push_ev _) => apply sticks_push_ev
  | |- sticks (mem _) => apply sticks_mem
  | |- sticks (conn _) => apply sticks_conn; intros ? ?; by apply fin_send
  | |- sticks (unwrap _) => apply sticks_unwrap
  | |- sticks panic => apply sticks_panic
  | |- sticks (when _ _) => apply sticks_when
  | |- sticks (match ?x with _ => _ end) => destruct x
  | |- sticks (let _ := _ in _) => cbv zeta
  | |- sticks _ => solve [eauto with sticks]
  end.
Ltac stick := repeat stick_step.

(** ** The flush *)

Section flush.
Context {C : Type} {quic : Quic C} {quic_laws : QuicLaws C} {wire : QuicWire C} {fins : QuicFin C}.
Context {alloc : Allocator} {alloc_laws : AllocatorLaws}.
Abbreviation sticks := (sticks (C := C)).
Abbreviation stuck := (stuck (C := C)).

Lemma grant_credit_sticks : sticks grant_credit.
Proof. unfold grant_credit, queue_session_capsule. stick. Qed.
Lemma replenish_credit_sticks : sticks replenish_credit.
Proof. unfold replenish_credit, replenish_data, replenish_streams, queue_session_capsule. stick. Qed.
Lemma signal_blocked_sticks : sticks signal_flow_control_blocked.
Proof.
  unfold signal_flow_control_blocked, signal_data_blocked, signal_streams_blocked, queue_session_capsule. stick.
  all: apply sticks_set_ses; [by destruct bidi|by intros s; apply queue_same; destruct bidi].
Qed.
Lemma flush_terminal_error_sticks : sticks flush_terminal_error.
Proof. split. intros w Hw. apply wlp_bind, wlp_gets. rewrite (sk_error w Hw). by apply wlp_ret. Qed.
Lemma release_pending_opens_sticks : sticks release_pending_opens.
Proof.
  split. intros w Hw. apply wlp_bind, wlp_gets. case_match; [by apply wlp_ret|]. apply wlp_bind, wlp_gets. rewrite (sk_opens w Hw).
  apply wlp_bind, wlp_modify, wlp_ret.
  apply (stuck_step w); [|apply queue_same; reflexivity|done|done]. unfold close_view. cbn. by rewrite (sk_opens w).
Qed.
Lemma queue_close_capsule_sticks : sticks queue_close_capsule.
Proof.
  unfold queue_close_capsule. stick_step; [stick|]. destruct a as [r|]; [|stick]. destruct (cr_capsule_queued r); [stick|].
  stick_step; [stick|]. split. intros w Hw. apply wlp_bind, wlp_gets.
  destruct (sk_queue w Hw) as (st & _ & _ & -> & _). revert w Hw. apply run_sticks. stick.
Qed.
Lemma prune_streams_sticks : sticks prune_streams.
Proof.
  split. intros w Hw. apply wlp_bind, wlp_gets, wlp_bind, wlp_gets, wlp_bind, wlp_modify.
  apply run_sticks; [apply sticks_mem|]. revert Hw. apply stuck_step; [done| |done].
  intros st Hst. exists st, []. rewrite app_nil_r. split; [|done]. by apply map_lookup_filter_Some_2.
Qed.
Lemma drive_quic_close_sticks : sticks drive_quic_close.
Proof.
  split. intros w Hw. apply wlp_bind, wlp_gets. rewrite (sk_issued w Hw). apply wlp_bind, wlp_gets.
  rewrite (sk_want w Hw). apply wlp_bind, (wlp_mono _ (fun _ w' => w' = w)).
  2:{ intros _ _ ->. apply wlp_bind, wlp_gets. rewrite (sk_want w Hw). by apply wlp_ret. }
  apply wlp_bind, wlp_gets. destruct (ws_close_req (w_ses w)); [|by apply wlp_ret]. apply wlp_bind, wlp_gets.
  destruct (sk_queue w Hw) as (st & f & r & -> & Ho & _). cbv zeta. rewrite Ho. cbn. rewrite andb_false_r.
  by apply wlp_ret.
Qed.

(** *** The streams of a flush *)

Lemma reconcile_sticks i : sticks (reconcile_send_final_size i).
Proof. unfold reconcile_send_final_size. stick. Qed.
Lemma ack_all_sticks out : sticks (ack_all out).
Proof. induction out; cbn [ack_all]; stick. Qed.
#[local] Hint Resolve reconcile_sticks ack_all_sticks : sticks.
Lemma send_front_sticks i enforce is_wt front rest n : i ≠ CONNECT_ID → sticks (send_front i enforce is_wt front rest n).
Proof. intros Hi. unfold send_front. stick. Qed.
#[local] Hint Resolve send_front_sticks : sticks.
Lemma flush_loop_sticks fuel i enforce is_wt n : i ≠ CONNECT_ID → sticks (flush_loop fuel i enforce is_wt n).
Proof. intros Hi. revert n. induction fuel; intros n; cbn [flush_loop]; stick. Qed.
#[local] Hint Resolve flush_loop_sticks : sticks.
Lemma flush_other_sticks i n : i ≠ CONNECT_ID → sticks (flush_stream i n).
Proof. intros Hi. unfold flush_stream. stick. Qed.

(** The CONNECT stream is offered and refused, or it turns out stopped. *)
Lemma stop_last (w : World C) c es :
  wlp (_ ← push_ev (EvStreamStopSending CONNECT_ID c); ack_all es) (fun _ w' => stop_seen w') w.
Proof.
  apply wlp_bind, wlp_modify. assert (Hw : stop_seen (w <| w_ev ::= fun l => l ++ [EvStreamStopSending CONNECT_ID c] |>)).
  { exists c. cbn. set_solver. }
  revert Hw. generalize (w <| w_ev ::= fun l => l ++ [EvStreamStopSending CONNECT_ID c] |>). clear w.
  induction es as [|e es IH]; intros w Hw; cbn [ack_all]; [by apply wlp_ret|]. apply wlp_bind.
  destruct (oc_request_id e); [apply wlp_modify|apply wlp_ret]; apply IH; [|done].
  destruct Hw as [d Hd]. exists d. cbn. set_solver.
Qed.

Lemma send_front_stuck enforce is_wt n (w : World C) st front rest :
  stuck w → ws_streams (w_ses w) !! CONNECT_ID = Some st → st_out st = front :: rest →
  wlp (send_front CONNECT_ID enforce is_wt front rest n)
    (fun r w' => r.1 = false ∧ (stuck w' ∨ stop_seen w')) w.
Proof.
  intros Hw Hst Ho. unfold send_front. cbv zeta. apply wlp_bind, wlp_gets.
  destruct (sk_queue w Hw) as (st0 & f0 & r0 & Hst0 & Ho0 & Hl). rewrite Hst in Hst0. injection Hst0 as <-.
  rewrite Ho in Ho0. injection Ho0 as <- <-. set (amount := send_amount _ _ _ _ _).
  destruct ((amount =? 0)%nat && _) eqn:Hz; [by apply wlp_ret; split; [|left]|].
  assert (Ha : amount ≠ O).
  { intros E. rewrite E in Hz. cbn in Hz. apply negb_false_iff, Nat.eqb_eq in Hz. lia. }
  destruct (negb (oc_off front + amount <=? length (oc_data front))%nat); [apply wlp_panic|].
  assert (Hne : take amount (drop (oc_off front) (oc_data front)) ≠ []).
  { intros E. apply (f_equal length) in E. rewrite length_take, length_drop in E. cbn in E. lia. }
  apply wlp_bind. intros r w1 E. unfold conn in E.
  destruct (fin_refuses _ _ _ false (sk_finished w Hw) Hne) as [e He].
  assert (Hw1 : stuck w1).
  { eapply (run_sticks (conn (fun c => stream_send c CONNECT_ID (take amount (drop (oc_off front) (oc_data front))) false)));
      [stick|exact Hw|exact E]. }
  destruct (stream_send _ _ _ _) as [r' c']. cbn in He. subst r'. injection E as <- _.
  destruct e; try (by apply wlp_ret; split; [|left]).
  pose proof (stop_last w1 (default code (http_code_to_webtransport_code code)) (front :: rest)) as Hs.
  apply wlp_bind. intros [] w2 E2. apply wlp_bind. intros [] w3 E3. apply wlp_bind, wlp_modify, wlp_ret.
  split; [done|right]. apply (Hs () w3). unfold mbind, M_bind. by rewrite E2.
Qed.

Lemma flush_connect_stuck n (w : World C) :
  stuck w → wlp (flush_stream CONNECT_ID n) (fun _ w' => stuck w' ∨ stop_seen w') w.
Proof.
  intros Hw. unfold flush_stream. apply wlp_bind. eapply wlp_mono; [by apply run_sticks, Hw; apply reconcile_sticks|].
  cbv beta. clear w Hw. intros _ w Hw. apply wlp_bind, wlp_gets.
  destruct (sk_queue w Hw) as (st & front & rest & Hst & Ho & Hl). rewrite Hst. apply wlp_bind, wlp_gets.
  apply wlp_bind. apply (wlp_mono _ (fun r w' => r.1 = false ∧ (stuck w' ∨ stop_seen w'))).
  - cbn [flush_loop]. apply wlp_bind, wlp_gets, wlp_bind. rewrite Hst. apply wlp_ret. rewrite Ho.
    apply wlp_bind. eapply wlp_mono; [by eapply send_front_stuck|]. cbv beta. intros [go n'] w' [Hg Hw']. cbn in Hg. subst go. by apply wlp_ret.
  - intros [go n'] w' [Hg Hw']. cbn in Hg. subst go. by apply wlp_ret.
Qed.
End flush.

(** ** Runs *)

Section runs.
Context {C : Type} {quic : Quic C} {quic_laws : QuicLaws C} {wire : QuicWire C} {fins : QuicFin C}.
Context {alloc : Allocator} {alloc_laws : AllocatorLaws} {qpack : Qpack} {sfv : Sfv}.
Context {hist : History} (limits : N → N) (limits_usize : ∀ i, limits i < U64).

Abbreviation inv := (inv limits).

(** Nothing more is asked of the session: it is flushed, and the network goes
    on without undoing a FIN it has taken. *)
Definition quiet (s : Step (C := C)) : Prop :=
  match s with
  | Call (OpFlush _) => True
  | Call _ => False
  | Net f => ∀ c, finished c CONNECT_ID → finished (f c) CONNECT_ID
  end.

Definition stuck_or (w : World C) : Prop := stuck w ∨ stop_seen w.

Lemma stop_seen_grows (w w' : World C) evs : w_ev w' = w_ev w ++ evs → stop_seen w → stop_seen w'.
Proof. intros E [c Hc]. exists c. rewrite E. set_solver. Qed.

Lemma flush_streams_stuck ids n L (w : World C) :
  inv L w → stuck_or w → wp (flush_streams ids n) (fun _ w' => inv L w' ∧ stuck_or w') w.
Proof.
  revert n w. induction ids as [|i ids IH]; intros n w Hi Hw; cbn [flush_streams]; [by apply wp_ret|].
  apply wp_bind, (wp_mono _ (fun _ w' => inv L w' ∧ stuck_or w')); [|intros n' w' [Hi' Hw']; by apply IH].
  assert (Hg : wp (flush_stream i n) (fun _ w' => good limits free w L w') w)
    by by apply (flush_stream_good limits free w L w), good_start.
  destruct Hw as [Hw|Hw].
  - eapply wp_mono; [apply wp_of_wlp; [exact Hg|]|cbv beta; intros a w' [[Hi' _] Hw']; split; [done|exact Hw']].
    destruct (decide (i = CONNECT_ID)) as [->|Hne]; [by apply flush_connect_stuck|].
    eapply wlp_mono; [by apply run_sticks, Hw; apply flush_other_sticks|by left].
  - destruct (ws_streams (w_ses w) !! i) as [sti|] eqn:Hst.
    2:{ unfold wp. rewrite flush_stream_absent by done. split; [done|by right]. }
    eapply wp_mono; [apply wp_conj; [exact Hg|apply (flush_stream_wp i n w sti Hst), (inv_chunks _ _ _ Hi i sti Hst)]|].
    cbv beta. intros _ w' [[? _] (? & ? & ? & ? & evs & _ & _ & Hev & _)]. split; [done|right].
    by eapply stop_seen_grows.
Qed.

Lemma stuck_piece {A} (m : M (World C) A) L (w : World C) :
  (∀ w, inv L w → wp m (fun _ w' => good limits free w L w') w) → sticks m →
  inv L w → stuck w → wp m (fun _ w' => inv L w' ∧ stuck w') w.
Proof.
  intros Hm Hs Hi Hw. eapply wp_mono; [apply wp_of_wlp; [by apply Hm|by apply run_sticks]|].
  cbv beta. by intros _ w' [[? _] ?].
Qed.
Lemma stuck_or_piece {A} (m : M (World C) A) L (w : World C) :
  (∀ w, inv L w → wp m (fun _ w' => good limits free w L w') w) → sticks m → keeps w_ev m →
  inv L w → stuck_or w → wp m (fun _ w' => inv L w' ∧ stuck_or w') w.
Proof.
  intros Hm Hs Hk Hi [Hw|Hw].
  - eapply wp_mono; [by apply (stuck_piece m L)|]. cbv beta. intros _ w' [? ?]. split; [done|by left].
  - eapply wp_mono; [apply wp_of_wlp; [by apply Hm|apply Hk]|]. cbv beta. intros _ w' [[? _] E].
    split; [done|right]. apply (stop_seen_grows w w' []); [by rewrite app_nil_r|done].
Qed.

(** The end of a flush. *)
Lemma flush_tail_stuck L (w : World C) :
  inv L w → stuck_or w →
  wp (_ ← signal_flow_control_blocked; _ ← prune_streams; drive_quic_close)
    (fun _ w' => inv L w' ∧ stuck_or w') w.
Proof.
  intros Hi Hw. apply wp_bind. eapply wp_mono.
  { apply (stuck_or_piece _ L); [|apply signal_blocked_sticks|apply signal_blocked_silent|exact Hi|exact Hw].
    intros. by apply (signal_flow_control_blocked_good limits), good_start. }
  cbv beta. clear w Hi Hw. intros _ w [Hi Hw]. apply wp_bind. eapply wp_mono.
  { apply (stuck_or_piece _ L); [|apply prune_streams_sticks|apply prune_streams_silent|exact Hi|exact Hw].
    intros. by apply (prune_streams_good limits limits_usize), good_start. }
  cbv beta. clear w Hi Hw. intros _ w [Hi Hw].
  apply (stuck_or_piece _ L); [|apply drive_quic_close_sticks|apply drive_quic_close_silent|exact Hi|exact Hw].
  intros. by apply (drive_quic_close_good limits), good_start.
Qed.

Lemma flush_stuck order L (w : World C) :
  inv L w → stuck w → wp (flush order) (fun _ w' => inv L w' ∧ stuck_or w') w.
Proof.
  intros Hi Hw. unfold flush.
  assert (Hpiece : ∀ m k : M (World C) (),
    (∀ w, inv L w → wp m (fun _ w' => good limits free w L w') w) → sticks m →
    (∀ w, inv L w → stuck w → wp k (fun _ w' => inv L w' ∧ stuck_or w') w) →
    ∀ w, inv L w → stuck w → wp (_ ← m; k) (fun _ w' => inv L w' ∧ stuck_or w') w).
  { intros m k Hm Hc Hk w0 Hi0 Hu0. apply wp_bind. eapply wp_mono; [by apply (stuck_piece m L)|].
    cbv beta. intros _ w1 [? ?]. by apply Hk. }
  revert w Hi Hw.
  apply Hpiece; [intros; by apply (flush_terminal_error_good limits), good_start|apply flush_terminal_error_sticks|].
  apply Hpiece; [intros; by apply (grant_credit_good limits), good_start|apply grant_credit_sticks|].
  apply Hpiece; [intros; by apply (replenish_credit_good limits), good_start|apply replenish_credit_sticks|].
  apply Hpiece; [intros; by apply (queue_close_capsule_good limits), good_start|apply queue_close_capsule_sticks|].
  apply Hpiece; [intros; by apply (release_pending_opens_good limits limits_usize), good_start
    |apply release_pending_opens_sticks|].
  intros w Hi Hw. ses_steps.
  eapply wp_mono; [apply (flush_streams_stuck _ _ L w Hi); by left|]. cbv beta. intros n w2 [Hi2 Hw2].
  apply wp_bind, wp_modify, flush_tail_stuck.
  - by apply (good_set limits free w2 L w2), good_start.
  - destruct Hw2 as [Hw2|Hw2]; [left|by right]. revert Hw2. apply stuck_step; [done|apply queue_same; reflexivity|done].
Qed.

(** The session stays stuck to the end, or the peer stops the stream first. *)
Lemma run_steps_stuck l L (w : World C) :
  Forall quiet l → inv L w → stuck_or w →
  wp (run_steps l) (fun _ w' => ∃ l1 l2 w1, l = l1 ++ l2 ∧ run_steps l1 w = Some ((), w1) ∧
    (l2 = [] ∧ stuck w' ∨ stop_seen w1)) w.
Proof.
  revert w. induction l as [|s l IH]; intros w Hl Hi [Hw|Hw]; cbn [run_steps].
  { apply wp_ret. exists [], [], w. by split; [|split; [|left]]. }
  { apply wp_ret. exists [], [], w. by split; [|split; [|right]]. }
  2:{ eapply wp_mono; [by apply (run_steps_inv limits limits_usize (s :: l) L)|]. cbv beta. intros _ w' _.
      exists [], (s :: l), w. by split; [|split; [|right]]. }
  inversion_clear Hl as [|? ? Hs Hl']. apply wp_bind.
  assert (H : wp (run_step s) (fun _ w' => inv L w' ∧ stuck_or w') w).
  { destruct s as [o|f]; [destruct o; try done; by apply flush_stuck|]. apply wp_modify. split.
    - by apply (op_network_inv limits L w (f (w_conn w))).
    - left. revert Hw. apply stuck_step; [done|apply queue_same; reflexivity|apply Hs]. }
  apply wp_elim in H as ([] & w' & E & Hi' & Hw'). eapply wp_intro; [exact E|].
  eapply wp_mono; [by apply (IH w')|]. cbv beta. intros _ w2 (l1 & l2 & w1 & -> & E1 & H1).
  exists (s :: l1), l2, w1. split; [done|]. split; [|done]. cbn [run_steps]. unfold mbind, M_bind. by rewrite E.
Qed.

(** A flush up to its signals. *)
Definition flush_head (order : list N → list N) : M (World C) () :=
  _ ← flush_terminal_error;
  _ ← grant_credit;
  _ ← replenish_credit;
  _ ← queue_close_capsule;
  _ ← release_pending_opens;
  streams ← ses ws_streams;
  wt_sent ← flush_streams (order (map_to_list streams).*1) 0;
  set_ses (fun s => s <| ws_fc_data_sent ::= fun n => add64 n wt_sent |>).

Lemma flush_split order (w : World C) :
  flush order w = (_ ← flush_head order; _ ← signal_flow_control_blocked; _ ← prune_streams; drive_quic_close) w.
Proof. unfold flush, flush_head, mbind, M_bind. by repeat (case_match; simplify_eq/=). Qed.

Lemma flush_head_inv order L (w : World C) : inv L w → wp (flush_head order) (fun _ w' => inv L w') w.
Proof.
  intros Hi. apply (wp_mono _ (fun _ w' => good limits free w L w')); [|by intros _ w' [Hg _]]. unfold flush_head.
  call (flush_terminal_error_good limits free w L w); [by apply good_start|]. intros _ w1 Hg1.
  call (grant_credit_good limits free w L); [exact Hg1|]. intros _ w2 Hg2.
  call (replenish_credit_good limits free w L); [exact Hg2|]. intros _ w3 Hg3.
  call (queue_close_capsule_good limits free w L); [exact Hg3|]. intros _ w4 Hg4.
  call (release_pending_opens_good limits limits_usize free w L); [exact Hg4|]. intros _ w5 Hg5. ses_steps.
  eapply wp_mono; [by apply (flush_streams_good limits _ free w L)|]. cbv beta. intros n w6 Hg6.
  by apply wp_modify, good_set.
Qed.

(** The signal lands behind the FIN. *)
Lemma signal_stuck st (w : World C) :
  ws_streams (w_ses w) !! CONNECT_ID = Some st → st_out st = [] → finished (w_conn w) CONNECT_ID →
  ws_want_quic_close (w_ses w) = None → ws_quic_close_issued (w_ses w) = false →
  ws_terminal_error (w_ses w) = None → ws_pending_opens (w_ses w) = [] → ws_closed (w_ses w) = false →
  uses_session_flow_control (w_ses w) = true → data_blocked_due (w_ses w) = true →
  wlp signal_flow_control_blocked (fun _ w' => stuck w') w.
Proof.
  intros Hst Ho Hf H1 H2 H3 H4 H5 H6 H7. apply wlp_bind, wlp_gets. rewrite H6, H5.
  apply wlp_bind, wlp_bind, wlp_gets. rewrite H7.
  apply wlp_bind, wlp_gets, wlp_bind, wlp_modify, wlp_modify. apply run_sticks.
  - unfold signal_streams_blocked, queue_session_capsule. stick.
    all: apply sticks_set_ses; [by destruct bidi|by intros s; apply queue_same].
  - constructor; try done. eexists _, _, []. cbn. rewrite lookup_alter, decide_True, Hst by done.
    split; [reflexivity|]. cbn. rewrite Ho. split; [reflexivity|]. apply capsule_frame_nonempty.
Qed.

(** C22: a close that never comes.  Take a flush that drains the CONNECT stream
    and hands QUIC its FIN, but finds the application's data held back by the
    peer's data limit, which it has not signalled yet: it queues the signal
    behind the FIN.  From there on, however often the session is flushed and
    whatever the network does, short of the peer stopping the CONNECT stream,
    the signal stays in the queue and the session does not close the QUIC
    connection. *)
Theorem blocked_signal_stalls_close order steps L st (w w0 : World C) :
  inv L w → flush_head order w = Some ((), w0) →
  ws_streams (w_ses w0) !! CONNECT_ID = Some st → st_out st = [] → finished (w_conn w0) CONNECT_ID →
  ws_want_quic_close (w_ses w0) = None → ws_quic_close_issued (w_ses w0) = false →
  ws_terminal_error (w_ses w0) = None → ws_pending_opens (w_ses w0) = [] → ws_closed (w_ses w0) = false →
  uses_session_flow_control (w_ses w0) = true → data_blocked_due (w_ses w0) = true →
  Forall quiet steps →
  wp (_ ← flush order; run_steps steps) (fun _ w' => ∃ done todo w1,
    steps = done ++ todo ∧ (_ ← flush order; run_steps done) w = Some ((), w1) ∧
    (stop_seen w1 ∨ todo = [] ∧ ws_quic_close_issued (w_ses w') = false ∧
      ∃ st', ws_streams (w_ses w') !! CONNECT_ID = Some st' ∧ st_out st' ≠ [])) w.
Proof.
  intros Hi E0 Hst Ho Hf H1 H2 H3 H4 H5 H6 H7 Hs.
  assert (Hi0 : inv L w0).
  { pose proof (flush_head_inv order L w Hi) as Hh. apply wp_elim in Hh as ([] & w' & E & Hh). congruence. }
  assert (Hw : wp (flush order) (fun _ w' => inv L w' ∧ stuck w') w).
  { unfold wp. rewrite flush_split. apply wp_bind. eapply wp_intro; [exact E0|]. apply wp_bind. eapply wp_mono.
    { apply wp_of_wlp; [by apply (signal_flow_control_blocked_good limits free w0 L w0), good_start|].
      by apply (signal_stuck st). }
    cbv beta. intros _ w1 [[Hi1 _] Hw1]. apply wp_bind.
    eapply wp_mono; [apply (stuck_piece _ L); [|apply prune_streams_sticks|exact Hi1|exact Hw1]|].
    { intros. by apply (prune_streams_good limits limits_usize), good_start. }
    cbv beta. intros _ w2 [Hi2 Hw2]. apply (stuck_piece _ L); [|apply drive_quic_close_sticks|exact Hi2|exact Hw2].
    intros. by apply (drive_quic_close_good limits), good_start. }
  apply wp_elim in Hw as ([] & w1 & E & Hi1 & Hw1). apply wp_bind. eapply wp_intro; [exact E|].
  eapply wp_mono; [by apply (run_steps_stuck steps L w1 Hs Hi1); left|]. cbv beta.
  intros _ w' (l1 & l2 & w2 & Hsplit & E2 & Hend). exists l1, l2, w2. split; [exact Hsplit|].
  split; [unfold mbind, M_bind; by rewrite E|]. destruct Hend as [[-> Hk]|Hk]; [right|by left].
  split; [done|]. split; [by apply sk_issued|]. destruct (sk_queue _ Hk) as (st' & f & r & Hst' & Ho' & _).
  exists st'. by rewrite Ho'.
Qed.
End runs.

(** A client whose settings allow four bytes; the server of [Session.Example]
    writes five and closes. *)
Module Example.
#[local] Existing Instance exact_allocator.
#[local] Existing Instance literal_qpack.
#[local] Existing Instance rfc9651.
#[local] Existing Instance no_history.
Import Session.Example.

Definition small_settings : list (N * N) :=
  [(SETTINGS_ENABLE_CONNECT_PROTOCOL, 1); (SETTINGS_H3_DATAGRAM, 1); (SETTINGS_ENABLE_WEBTRANSPORT, 1);
   (SETTINGS_WT_MAX_SESSIONS, 1); (SETTINGS_WT_INITIAL_MAX_DATA, 4);
   (SETTINGS_WT_INITIAL_MAX_STREAMS_BIDI, 1)].
Definition small_inbox : gmap N (bytes * bool) :=
  {[ 2 := (put_varint H3_CONTROL_STREAM_TYPE ++ frame FRAME_SETTINGS (put_settings small_settings), false);
     0 := (request_frame, false) ]}.
Definition ops_write : list (SessionOp ToyConn) :=
  [OpEstablished; OpNetwork (toy_new <| toy_inbox := small_inbox |>); OpReadable 2 false; OpReadable 0 false;
   OpFlush id; OpOpenStream true 7; OpWrite 1 (s2b "ABCDE") 8; OpClose 5 (s2b "bye")].
Definition steps : list (Step (C := ToyConn)) := [Call (OpFlush id); Net id; Call (OpFlush id); Call (OpFlush id)].

Lemma blocked_signal_stalls_close_witness :
  ∃ w w', run_ops ops_write (mkWorld server.1 toy_new server.2 []) = Some ((), w) ∧
    (_ ← flush id; run_steps steps) w = Some ((), w') ∧
    goodbyes (w_conn w') = O ∧ toy_fins (w_conn w') = [CONNECT_ID] ∧
    ∃ done todo w1, steps = done ++ todo ∧ (_ ← flush id; run_steps done) w = Some ((), w1) ∧
      (stop_seen w1 ∨ todo = [] ∧ ws_quic_close_issued (w_ses w') = false).
Proof.
  pose proof (run_ops_inv limits limits_usize ops_write [] (mkWorld server.1 toy_new server.2 [])
    (constructed_inv limits server.1 counters server.2 toy_new [] server_constructed
      server_memory_wf counters_within counters_accounted)) as H.
  apply wp_elim in H as ([] & w & E & Hi). exists w.
  pose proof (flush_head_inv limits limits_usize id [] w Hi) as H. apply wp_elim in H as ([] & w0 & E0 & _).
  assert (E1 : (_ ← run_ops ops_write; flush_head id) (mkWorld server.1 toy_new server.2 []) = Some ((), w0))
    by (unfold mbind, M_bind; rewrite E; exact E0).
  pose proof (f_equal (fun o => match o with
    | Some (_, w) => Some ((st_out <$> ws_streams (w_ses w) !! CONNECT_ID, toy_fins (w_conn w),
        ws_want_quic_close (w_ses w), ws_quic_close_issued (w_ses w), ws_terminal_error (w_ses w)),
        (ws_pending_opens (w_ses w), ws_closed (w_ses w), uses_session_flow_control (w_ses w),
         data_blocked_due (w_ses w)))
    | None => None end) E1) as Hc. cbv beta iota in Hc.
  match type of Hc with ?a = _ => let b := eval vm_compute in a in replace a with b in Hc
    by (vm_compute; reflexivity) end.
  injection Hc as H1 H2 H3 H4 H5 H6 H7 H8 H9.
  destruct (ws_streams (w_ses w0) !! CONNECT_ID) as [st|] eqn:Hst; [|done]. injection H1 as H1.
  assert (Hf : finished (w_conn w0) CONNECT_ID) by (left; rewrite <- H2; apply list_elem_of_here).
  pose proof (blocked_signal_stalls_close limits limits_usize id steps [] st w w0 Hi E0 Hst (eq_sym H1) Hf
    (eq_sym H3) (eq_sym H4) (eq_sym H5) (eq_sym H6) (eq_sym H7) (eq_sym H8) (eq_sym H9)) as H.
  assert (Hq : Forall quiet steps) 
    by (constructor; [exact I|constructor; [exact (fun _ h => h)|constructor; [exact I|constructor; [exact I|constructor]]]]).
  specialize (H Hq).
  apply wp_elim in H as ([] & w' & E' & dn & todo & w1 & Hsplit & Ed & Hend).
  exists w'. split; [exact E|]. split; [exact E'|].
  assert (E2 : (_ ← run_ops ops_write; _ ← flush id; run_steps steps)
    (mkWorld server.1 toy_new server.2 []) = Some ((), w')) by (unfold mbind at 1, M_bind; rewrite E; exact E').
  pose proof (f_equal (fun o => match o with
    | Some (_, w) => (goodbyes (w_conn w), toy_fins (w_conn w)) | None => (1%nat, []) end) E2) as Hc.
  cbv beta iota in Hc.
  match type of Hc with ?a = _ => let b := eval vm_compute in a in replace a with b in Hc
    by (vm_compute; reflexivity) end.
  injection Hc as J1 J2. split; [by rewrite <- J1|]. split; [by rewrite <- J2|].
  exists dn, todo, w1. split; [exact Hsplit|]. split; [exact Ed|].
  destruct Hend as [Hs|(Ht & Hs & _)]; [left; exact Hs|right; exact (conj Ht Hs)].
Defined.
End Example.
