(* ===== verification/SessionDatagrams.v ===== *)
(** * Datagrams from one application to the other
    ([crates/native/src/session.rs])

    A datagram carries the quarter of the session's stream id before its
    payload; the network may lose and reorder datagrams, but not change them. *)

From S2P Require Import Prelude H3 ParserMemory FrameParser Headers Net Quic SessionState.
From S2P Require Import SessionRecv SessionConnect SessionStreams SessionInv SessionCapsule.

(** The datagram of a payload, and the payload of a datagram of the session. *)
Definition framed (data : bytes) : bytes := put_varint (CONNECT_ID / 4) ++ data.
Definition payload_of (d : bytes) : option bytes :=
  '(qsi, off) ← read_varint d;
  if qsi =? CONNECT_ID / 4 then Some (drop off d) else None.

Lemma payload_of_framed data : payload_of (framed data) = Some data.
Proof. done. Qed.

Section datagrams.
Context {C : Type} {quic : Quic C} {quic_laws : QuicLaws C} {dgrams : QuicDatagrams C}.

(** The application's calls. *)
Fixpoint send_all (msgs : list (bytes * N)) : M (World C) () :=
  match msgs with
  | [] => mret ()
  | (data, request_id) :: msgs => _ ← send_datagram data request_id; send_all msgs
  end.

(** Each message is accepted or not; [outcomes] says which. *)
Definition accepted_of (msgs : list (bytes * N)) (outcomes : list bool) : list bytes :=
  map (fun x => x.1.1) (List.filter snd (zip msgs outcomes)).
Definition acks_of (msgs : list (bytes * N)) (outcomes : list bool) : list Ev :=
  zip_with (fun msg sent => EvDatagramAck msg.2 sent) msgs outcomes.

Lemma send_all_wp msgs (w : World C) :
  wp (send_all msgs) (fun _ w' => ∃ outcomes, length outcomes = length msgs ∧
    dgrams_out (w_conn w') = dgrams_out (w_conn w) ++ map framed (accepted_of msgs outcomes) ∧
    w_ev w' = w_ev w ++ acks_of msgs outcomes ∧ w_ses w' = w_ses w) w.
Proof.
  revert w. induction msgs as [|[data rid] msgs IH]; intros w; cbn [send_all].
  { apply wp_ret. exists []. cbn. by rewrite !app_nil_r. }
  apply wp_bind. unfold send_datagram. cbv zeta. apply wp_bind, wp_conn, wp_modify.
  pose proof (dgram_send_out (w_conn w) (framed data)) as Hout.
  change (put_varint (CONNECT_ID / 4) ++ data) with (framed data).
  destruct (dgram_send (w_conn w) (framed data)) as [r c]. cbn [fst snd] in *.
  eapply wp_mono; [apply IH|]. cbv beta. intros _ w' (outcomes & Hlen & Ho & He & Hs).
  exists (match r with Ok _ => true | Err _ => false end :: outcomes). cbn in *. split; [by f_equal|]. split; [|split; [|done]].
  - rewrite Ho, Hout. unfold accepted_of. by destruct r; cbn; rewrite <- ?app_assoc.
  - rewrite He, <- app_assoc. by destruct r.
Qed.

Lemma dgram_loop_wp fuel arrived (w : World C) :
  dgrams_in (w_conn w) = arrived → Forall (fun d => lenN d <= DGRAM_BUF) arrived →
  (length arrived < fuel)%nat →
  wp (dgram_loop fuel) (fun _ w' => w_ses w' = w_ses w ∧ dgrams_in (w_conn w') = [] ∧
    w_ev w' = w_ev w ++ map EvDatagram (omap payload_of arrived)) w.
Proof.
  revert arrived w. induction fuel as [|fuel IH]; intros arrived w Hin Hfit Hfuel; [lia|].
  cbn [dgram_loop]. apply wp_bind, wp_conn. destruct arrived as [|d arrived].
  - destruct (dgram_recv_none _ DGRAM_BUF Hin) as [[e ->] Hin']. apply wp_ret. cbn. by rewrite app_nil_r.
  - inversion_clear Hfit as [|? ? Hd Hrest]. cbn in Hfuel.
    destruct (dgram_recv_next _ DGRAM_BUF d arrived Hin Hd) as [-> Hin'].
    assert (Hnext : ∀ w1, w_ses w1 = w_ses w → dgrams_in (w_conn w1) = arrived →
      w_ev w1 = w_ev w ++ map EvDatagram (option_list (payload_of d)) →
      wp (dgram_loop fuel) (fun _ w' => w_ses w' = w_ses w ∧ dgrams_in (w_conn w') = [] ∧
        w_ev w' = w_ev w ++ map EvDatagram (omap payload_of (d :: arrived))) w1).
    { intros w1 E1 E2 E3. eapply wp_mono; [apply (IH arrived w1 E2 Hrest); lia|]. cbv beta.
      intros _ w' (H1 & H2 & H3). split; [congruence|]. split; [done|]. rewrite H3, E3, <- app_assoc. cbn.
      by destruct (payload_of d). }
    apply wp_bind. unfold payload_of in Hnext.
    destruct (read_varint d) as [[qsi off]|].
    + cbn in Hnext. destruct (qsi =? CONNECT_ID / 4); cbn [when].
      * apply wp_modify. apply Hnext; done.
      * apply wp_ret. apply Hnext; [done|done|]. cbn. by rewrite app_nil_r.
    + apply wp_ret. apply Hnext; [done|done|]. cbn. by rewrite app_nil_r.
Qed.

(** What has arrived is within the bound that serves as fuel: each read takes
    one. *)
Lemma dgrams_bounded arrived (c : C) :
  dgrams_in c = arrived → Forall (fun d => lenN d <= DGRAM_BUF) arrived →
  (length arrived <= dgram_bound c)%nat.
Proof.
  revert c. induction arrived as [|d arrived IH]; intros c Hin Hfit; [cbn; lia|].
  inversion_clear Hfit as [|? ? Hd Hrest].
  destruct (dgram_recv_next c DGRAM_BUF d arrived Hin Hd) as [Hr Hin'].
  destruct (dgram_recv c DGRAM_BUF) as [r c'] eqn:E. cbn in Hr, Hin'. subst r.
  apply dgram_progress in E. specialize (IH c' Hin' Hrest). cbn. lia.
Qed.

Lemma on_datagrams_wp arrived (w : World C) :
  dgrams_in (w_conn w) = arrived → Forall (fun d => lenN d <= DGRAM_BUF) arrived →
  wp on_datagrams (fun _ w' => w_ses w' = w_ses w ∧ dgrams_in (w_conn w') = [] ∧
    w_ev w' = w_ev w ++ map EvDatagram (omap payload_of arrived)) w.
Proof.
  intros Hin Hfit. apply wp_bind, wp_gets, (dgram_loop_wp _ arrived); [done..|].
  pose proof (dgrams_bounded arrived (w_conn w) Hin Hfit). lia.
Qed.

(** C8: datagrams from one application to the other.  Every message sent is
    answered in order, and QUIC has accepted exactly those reported as sent,
    each once and in order.  Of such datagrams whichever reach a peer, in
    whatever order and among whatever others, one read delivers exactly their
    payloads to its application in the order of arrival, ignoring what belongs
    to no session of this connection, and leaves nothing behind. *)
Theorem datagrams_end_to_end msgs (us : World C) :
  wp (send_all msgs) (fun _ us' => ∃ outcomes, length outcomes = length msgs ∧
    dgrams_out (w_conn us') = dgrams_out (w_conn us) ++ map framed (accepted_of msgs outcomes) ∧
    w_ev us' = w_ev us ++ acks_of msgs outcomes ∧ w_ses us' = w_ses us ∧
    ∀ (them : World C) (arrived : list (bytes + bytes)),
      (∀ d, inr d ∈ arrived → payload_of d = None) →
      dgrams_in (w_conn them) = map (fun x => match x with inl data => framed data | inr d => d end) arrived →
      Forall (fun d => lenN d <= DGRAM_BUF) (dgrams_in (w_conn them)) →
      wp on_datagrams (fun _ them' =>
        w_ev them' = w_ev them ++
          map EvDatagram (omap (fun x => match x with inl data => Some data | inr _ => None end) arrived) ∧
        dgrams_in (w_conn them') = [] ∧ w_ses them' = w_ses them) them) us.
Proof.
  eapply wp_mono; [apply send_all_wp|]. cbv beta. intros _ us' (outcomes & H1 & H2 & H3 & H4).
  exists outcomes. do 4 (split; [done|]). intros them arrived Hforeign Hin Hfit.
  eapply wp_mono; [by apply (on_datagrams_wp _ them eq_refl)|]. cbv beta. intros _ them' (E1 & E2 & E3).
  split; [|done]. rewrite E3, Hin. do 2 f_equal. clear -Hforeign.
  induction arrived as [|x arrived IH]; [done|]. cbn [map omap list_omap].
  assert (Hx : payload_of match x with inl data => framed data | inr d => d end =
    match x with inl data => Some data | inr _ => None end).
  { destruct x as [data|d]; [apply payload_of_framed|]. apply Hforeign. by left. }
  rewrite Hx. destruct x; [f_equal|]; apply IH; intros; apply Hforeign; by right.
Qed.
End datagrams.

(** Two messages, which arrive in the other order with a datagram of another
    session between them. *)
Module Example.
Definition memory : ParserMemory := PMRoot 0 MAX_SESSION_PARSER_MEMORY.
Definition us : World ToyConn := mkWorld (blank_session memory) toy_new ∅ [].
Definition foreign : bytes := put_varint 1 ++ s2b "xx".
Definition them : World ToyConn :=
  mkWorld (blank_session memory)
    (toy_new <| toy_dgrams := [framed (s2b "yo"); foreign; framed (s2b "hi")] |>) ∅ [].

Lemma datagrams_end_to_end_witness :
  ∃ us' them', send_all [(s2b "hi", 1); (s2b "yo", 2)] us = Some ((), us') ∧
    w_ev us' = [EvDatagramAck 1 true; EvDatagramAck 2 true] ∧
    on_datagrams them = Some ((), them') ∧
    w_ev them' = [EvDatagram (s2b "yo"); EvDatagram (s2b "hi")].
Proof.
  pose proof (datagrams_end_to_end [(s2b "hi", 1); (s2b "yo", 2)] us) as H.
  apply wp_elim in H as ([] & us' & E & outcomes & _ & _ & _ & _ & H).
  specialize (H them [inl (s2b "yo"); inr foreign; inl (s2b "hi")]).
  apply wp_elim in H as ([] & them' & E' & Hev & _).
  - exists us', them'. split; [exact E|]. split; [|split; [exact E'|exact Hev]].
    pose proof (f_equal (fun o => match o with Some (_, w) => w_ev w | None => [] end) E) as Hc.
    cbv beta iota in Hc. rewrite <- Hc. vm_compute. reflexivity.
  - intros d Hd. rewrite !elem_of_cons in Hd.
    destruct Hd as [?|[[= ->]|[?|[]%not_elem_of_nil]]]; [discriminate|reflexivity|discriminate].
  - reflexivity.
  - repeat constructor; vm_compute; discriminate.
Defined.
End Example.
