(* ===== verification/RetryToken.v ===== *)
(** * Retry tokens ([crates/native/src/server.rs])

    The stateless address validation of the server: a token binds a client's
    source address and original connection id under a per-process secret. *)

From S2P Require Import Prelude Net.

(** [boring::sha::sha256]: a digest of 32 bytes. *)
Class Sha256 := sha256 : bytes → bytes.
Class Sha256Laws `{Sha256} := { sha256_length d : length (sha256 d) = 32%nat }.

Definition TOKEN_TAG_LEN : nat := 16.
Definition TOKEN_PREFIX : bytes := s2b "rwt1".

Definition addr_identity (src : SocketAddr) : bytes := octets (sa_ip src) ++ be16 (sa_port src).

(** ** Random bytes

    [os] is what the operating system's generator yields, if it does, and
    [clock] the nanoseconds since the epoch, if the clock is not before it. *)

(** [u128::to_le_bytes]. *)
Definition le128 (v : N) : bytes :=
  map (fun i => n2b (N.shiftr v (8 * N.of_nat i) mod 256)) (seq 0 16).

Definition random_secret (os : option bytes) (clock : option N) : bytes :=
  match os with
  | Some b => b
  | None =>
      let s := le128 (default 0 clock) in
      map (fun i => nth (i mod length s) s x00) (seq 0 32)
  end.

Definition random_scid (os : option bytes) (clock : option N) : bytes :=
  match os with
  | Some b => b
  | None => le128 (default 0 clock)
  end.

(** Without the generator, the secret is the clock's reading, twice. *)
Lemma random_secret_fallback clock :
  random_secret None clock = le128 (default 0 clock) ++ le128 (default 0 clock).
Proof. reflexivity. Qed.

(** ** Tokens *)

(** [a[i] ^= b[i]] over two arrays of one length. *)
Definition xor_bytes (a b : bytes) : bytes := zip_with byte_xor a b.

Section hmac.
Context {sha : Sha256}.

Definition BLOCK : nat := 64.

Definition block_key (secret : bytes) : bytes :=
  let k := if (BLOCK <? length secret)%nat then sha256 secret else secret in
  k ++ replicate (BLOCK - length k) x00.

Definition hmac_sha256 (secret data : bytes) : bytes :=
  let key := block_key secret in
  let ipad := xor_bytes (replicate BLOCK (n2b 0x36)) key in
  let opad := xor_bytes (replicate BLOCK (n2b 0x5c)) key in
  let inner_hash := sha256 (ipad ++ data) in
  sha256 (opad ++ inner_hash).

Definition constant_time_eq (a b : bytes) : bool :=
  if negb (length a =? length b)%nat then false
  else bool_decide (foldl (fun diff xy => byte_or diff (byte_xor xy.1 xy.2)) x00 (zip a b) = x00).

Definition token_tag (secret : bytes) (src : SocketAddr) (orig_dcid : bytes) : bytes :=
  take TOKEN_TAG_LEN (hmac_sha256 secret (addr_identity src ++ orig_dcid)).

Definition mint_token (secret orig_dcid : bytes) (src : SocketAddr) : bytes :=
  TOKEN_PREFIX ++ orig_dcid ++ token_tag secret src orig_dcid.

Definition strip_prefix (p s : bytes) : option bytes :=
  if bool_decide (take (length p) s = p) then Some (drop (length p) s) else None.

Definition validate_token (secret : bytes) (src : SocketAddr) (token : bytes) : option bytes :=
  rest ← strip_prefix TOKEN_PREFIX token;
  if (length rest <? TOKEN_TAG_LEN)%nat then None
  else
    let orig_dcid := take (length rest - TOKEN_TAG_LEN) rest in
    let tag := drop (length rest - TOKEN_TAG_LEN) rest in
    if negb (constant_time_eq (token_tag secret src orig_dcid) tag) then None
    else Some orig_dcid.
End hmac.

(** ** Comparison *)

Lemma log2_small x : x < 256 → N.log2 x < 8.
Proof. intros Hx. destruct (N.eq_dec x 0) as [->|]; [done|]. apply N.log2_lt_pow2; [lia|done]. Qed.

(** A bitwise combination of two bytes fits a byte. *)
Lemma bitwise_small a b x : a < 256 → b < 256 → N.log2 x <= N.max (N.log2 a) (N.log2 b) → x < 256.
Proof.
  intros Ha%log2_small Hb%log2_small Hx. destruct (N.eq_dec x 0) as [->|Hne]; [done|].
  change 256 with (2 ^ 8). apply N.log2_lt_pow2; [lia|]. lia.
Qed.

Lemma byte_or_zero a b : byte_or a b = x00 ↔ a = x00 ∧ b = x00.
Proof.
  split; [|by intros [-> ->]].
  unfold byte_or. intros E. apply (f_equal b2n) in E. rewrite b2n_n2b in E.
  rewrite N.mod_small in E.
  - change (b2n x00) with 0 in E. apply N.lor_eq_0_iff in E as [E1 E2].
    split; apply b2n_inj; [by rewrite E1|by rewrite E2].
  - eapply bitwise_small; [apply b2n_lt|apply b2n_lt|]. by rewrite N.log2_lor.
Qed.

Lemma byte_xor_zero a b : byte_xor a b = x00 ↔ a = b.
Proof.
  unfold byte_xor. split.
  - intros E. apply (f_equal b2n) in E. rewrite b2n_n2b, N.mod_small in E.
    + change (b2n x00) with 0 in E. by apply b2n_inj, N.lxor_eq.
    + eapply bitwise_small; [apply b2n_lt|apply b2n_lt|apply N.log2_lxor].
  - intros ->. by rewrite N.lxor_nilpotent.
Qed.

Lemma or_fold_zero l acc :
  foldl (fun diff xy => byte_or diff (byte_xor xy.1 xy.2)) acc l = x00 ↔
  acc = x00 ∧ Forall (fun xy : byte * byte => xy.1 = xy.2) l.
Proof.
  revert acc. induction l as [|[x y] l IH]; intros acc; cbn [foldl].
  - split; [done|by intros [? _]].
  - rewrite IH, byte_or_zero, byte_xor_zero, Forall_cons. cbn. tauto.
Qed.

(** The comparison decides equality. *)
Lemma constant_time_eq_spec a b : constant_time_eq a b = true ↔ a = b.
Proof.
  unfold constant_time_eq. destruct (Nat.eqb_spec (length a) (length b)) as [Hl|Hl]; cbn [negb].
  - rewrite bool_decide_eq_true, or_fold_zero. split.
    + intros [_ H]. revert b Hl H. induction a as [|x a IH]; intros [|y b]; cbn; try done.
      intros [= Hl] H. inversion_clear H. cbn in *. f_equal; auto.
    + intros ->. split; [done|]. induction b; cbn; constructor; auto.
  - split; [done|]. by intros ->.
Qed.

(** ** Validation *)

Lemma be16_inj m n : m < 2 ^ 16 → n < 2 ^ 16 → be16 m = be16 n → m = n.
Proof.
  intros Hm Hn [= E1 E2]. apply (f_equal b2n) in E1, E2. rewrite !b2n_n2b in E1, E2.
  rewrite !N.shiftr_div_pow2 in E1. change (2 ^ 8) with 256 in E1. change (2 ^ 16) with 65536 in *. nlia.
Qed.

Lemma segments_inj l k :
  length l = length k → Forall (fun s => s < 2 ^ 16) l → Forall (fun s => s < 2 ^ 16) k →
  concat (map be16 l) = concat (map be16 k) → l = k.
Proof.
  revert k. induction l as [|m l IH]; intros [|n k]; cbn [length map concat]; try done.
  intros [= Hl] Hm Hn E. inversion_clear Hm. inversion_clear Hn.
  assert (E1 : be16 m = be16 n) by (exact (f_equal (take 2) E)).
  assert (E2 : concat (map be16 l) = concat (map be16 k)) by (exact (f_equal (drop 2) E)).
  f_equal; [by apply be16_inj|by apply IH].
Qed.

Definition same_family (a b : SocketAddr) : Prop := length (octets (sa_ip a)) = length (octets (sa_ip b)).

Lemma octets_inj a b : wf_ip a → wf_ip b → length (octets a) = length (octets b) → octets a = octets b → a = b.
Proof.
  destruct a as [a1 a2 a3 a4|l], b as [b1 b2 b3 b4|k]; cbn.
  - by intros _ _ _ [= -> -> -> ->].
  - intros _ [Hk _] Hl. do 8 (destruct k as [|? k]; [done|]). done.
  - intros [Hk _] _ Hl. do 8 (destruct l as [|? l]; [done|]). done.
  - intros [Hl1 Hl] [Hk1 Hk] _ E. f_equal. apply segments_inj; try done. congruence.
Qed.

(** Within one address family the identity determines the address, whatever
    connection id follows it. *)
Lemma addr_identity_inj a b d e :
  wf_addr a → wf_addr b → same_family a b →
  addr_identity a ++ d = addr_identity b ++ e → a = b ∧ d = e.
Proof.
  intros [Ha1 Ha2] [Hb1 Hb2] Hf E. unfold addr_identity in E. rewrite <- !app_assoc in E.
  apply app_inj_1 in E as [E1 E2]; [|exact Hf]. apply app_inj_1 in E2 as [E2 E3]; [|done].
  split; [|done]. destruct a as [ip p], b as [ip' p']. cbn in *.
  f_equal; [by apply octets_inj|by apply be16_inj].
Qed.

Section tokens.
Context {sha : Sha256} {sha_laws : Sha256Laws}.

Lemma token_tag_length secret src d : length (token_tag secret src d) = TOKEN_TAG_LEN.
Proof. unfold token_tag, hmac_sha256. cbv zeta. by rewrite length_take, sha256_length. Qed.

Lemma validate_token_iff secret src token d :
  validate_token secret src token = Some d ↔ token = mint_token secret d src.
Proof.
  unfold validate_token, mint_token, strip_prefix. split.
  - case_bool_decide as Hp; [|done]. cbn [mbind option_bind].
    set (rest := drop (length TOKEN_PREFIX) token).
    destruct (Nat.ltb_spec (length rest) TOKEN_TAG_LEN); [done|]. cbv zeta.
    destruct (constant_time_eq _ _) eqn:E; [|done]. cbn [negb]. intros [= <-].
    apply constant_time_eq_spec in E. rewrite E, take_drop.
    rewrite <- (take_drop (length TOKEN_PREFIX) token) at 1. by rewrite Hp.
  - intros ->. rewrite take_app_length, bool_decide_true by done. cbn [mbind option_bind].
    rewrite drop_app_length. pose proof (token_tag_length secret src d) as Hl.
    rewrite length_app, Hl. replace (length d + TOKEN_TAG_LEN - TOKEN_TAG_LEN)%nat with (length d) by lia.
    destruct (Nat.ltb_spec (length d + TOKEN_TAG_LEN) TOKEN_TAG_LEN); [lia|]. cbv zeta.
    rewrite take_app_length, drop_app_length.
    by rewrite (proj2 (constant_time_eq_spec _ _)) by done.
Qed.

(** ** The contract of a token

    Written apart from the code: HMAC as RFC 2104 has it, over the octets of the
    address, the port in network order and the connection id. *)

Definition hmac_spec (secret text : bytes) : bytes :=
  let K := if (64 <? length secret)%nat then sha256 secret else secret in
  let K0 := K ++ replicate (64 - length K) x00 in
  sha256 (map (byte_xor (n2b 0x5c)) K0 ++ sha256 (map (byte_xor (n2b 0x36)) K0 ++ text)).

Definition message (src : SocketAddr) (d : bytes) : bytes := octets (sa_ip src) ++ be16 (sa_port src) ++ d.
Definition authenticator (secret : bytes) (src : SocketAddr) (d : bytes) : bytes :=
  take 16 (hmac_spec secret (message src d)).

Lemma xor_constant c (k : bytes) n : length k = n → xor_bytes (replicate n c) k = map (byte_xor c) k.
Proof. intros <-. unfold xor_bytes. induction k as [|x k IH]; cbn; [done|]. by rewrite <- IH. Qed.

Lemma block_key_length secret : length (block_key secret) = BLOCK.
Proof.
  unfold block_key. cbv zeta. destruct (Nat.ltb_spec BLOCK (length secret)); rewrite length_app, length_replicate;
    [rewrite sha256_length|]; unfold BLOCK in *; lia.
Qed.

Lemma hmac_sha256_spec secret text : hmac_sha256 secret text = hmac_spec secret text.
Proof. unfold hmac_sha256. cbv zeta. rewrite !(xor_constant _ _ BLOCK) by apply block_key_length. reflexivity. Qed.

Lemma token_tag_spec secret src d : token_tag secret src d = authenticator secret src d.
Proof. unfold token_tag, authenticator, message, addr_identity. by rewrite hmac_sha256_spec, <- app_assoc. Qed.

(** Where a token minted under one secret for one source is accepted. *)
Lemma foreign_token_iff secret secret' src src' d e :
  validate_token secret' src' (mint_token secret d src) = Some e ↔
  e = d ∧ authenticator secret src d = authenticator secret' src' d.
Proof.
  rewrite validate_token_iff, <- !token_tag_spec. unfold mint_token. split.
  - intros E%app_inv_head. apply app_inj_2 in E as [-> E]; [done|]. by rewrite !token_tag_length.
  - by intros [-> ->].
Qed.

(** C24: the server accepts exactly the tokens that carry the source they come
    from.  A token validates for a source and yields a connection id if and only
    if it is, byte for byte, the prefix, that connection id and the first 16
    bytes of the HMAC-SHA-256 (as RFC 2104 defines it) of the source's address
    octets, its port and the connection id under the server's secret, and that
    is the token the server mints.  It is worth nothing elsewhere: another
    address of the family is another message, and a token minted for one source
    under one secret is accepted for another source, or by a server with another
    secret, only for the same connection id, and exactly when the tags of these
    two messages under the two secrets are equal; otherwise it is refused. *)
Theorem validate_token_exact (secret d : bytes) (src : SocketAddr) :
  mint_token secret d src = s2b "rwt1" ++ d ++ authenticator secret src d ∧
  (∀ token, validate_token secret src token = Some d ↔ token = s2b "rwt1" ++ d ++ authenticator secret src d) ∧
  (∀ src' e, wf_addr src → wf_addr src' → same_family src src' → src ≠ src' → message src d ≠ message src' e) ∧
  (∀ secret' src' e, validate_token secret' src' (mint_token secret d src) = Some e ↔
    e = d ∧ authenticator secret src d = authenticator secret' src' d) ∧
  (∀ secret' src', authenticator secret src d ≠ authenticator secret' src' d →
    validate_token secret' src' (mint_token secret d src) = None).
Proof.
  rewrite <- token_tag_spec. split; [done|]. split; [intros token; apply validate_token_iff|]. split.
  { intros src' e Ha Hb Hf Hne E. unfold message in E. rewrite !app_assoc in E.
    by apply (addr_identity_inj src src' d e) in E as [? _]. }
  rewrite token_tag_spec. split; [intros secret' src' e; apply foreign_token_iff|].
  intros secret' src' Hne. destruct (validate_token _ _ _) eqn:E; [|done]. by apply foreign_token_iff in E as [_ ?].
Qed.
End tokens.

(** ** Two digests to compute with

    One collides everywhere; the other repeats the end of its input, so that it
    keeps the message the code hashes. *)

#[local] Instance zero_digest : Sha256 := fun _ => replicate 32 x00.
#[local] Instance zero_digest_laws : Sha256Laws.
Proof. constructor. done. Qed.

Definition tail_digest : Sha256 := fun m => take 32 (drop 64 m ++ replicate 32 x00).
Lemma tail_digest_laws : Sha256Laws (H := tail_digest).
Proof.
  constructor. intros d. unfold sha256, tail_digest.
  rewrite length_take, length_app, length_replicate. lia.
Qed.

(** The token of 192.0.2.10:4433 for its own source, for a neighbour and for
    another port. *)
Lemma validate_token_exact_witness :
  let src := mkSocketAddr (V4 xc0 x00 x02 x0a) 4433 in
  let src' := mkSocketAddr (V4 xc0 x00 x02 x0b) 4433 in
  let token := mint_token (sha := tail_digest) (s2b "secret") (s2b "dcid") src in
  validate_token (sha := tail_digest) (s2b "secret") src token = Some (s2b "dcid") ∧
  message src (s2b "dcid") ≠ message src' (s2b "dcid") ∧
  validate_token (sha := tail_digest) (s2b "secret") src' token = None ∧
  validate_token (sha := tail_digest) (s2b "secret") (mkSocketAddr (V4 xc0 x00 x02 x0a) 5555) token = None.
Proof.
  intros src src' token.
  destruct (@validate_token_exact tail_digest tail_digest_laws (s2b "secret") (s2b "dcid") src)
    as (Hmint & Hown & Hmessage & _ & Hrefused).
  split; [by apply Hown|]. split; [|split].
  - apply Hmessage; [exact (conj I eq_refl)|exact (conj I eq_refl)|reflexivity|discriminate].
  - apply Hrefused. vm_compute. discriminate.
  - apply Hrefused. vm_compute. discriminate.
Defined.
