(* ===== verification/EventLoop.v ===== *)
(** * What the two event loops share ([crates/native/src/driver.rs],
    [crates/native/src/server.rs])

    The part of [quiche::Connection] and of the UDP socket that only the loops
    use, one round of driving a session, and how a connection's end is
    reported. *)

From S2P Require Import Prelude H3 ParserMemory FrameParser Headers Net Quic SessionState.
From S2P Require Import SessionRecv SessionConnect SessionStreams SessionSend SessionInv.
From S2P Require Import SessionRecvInv SessionSendInv.

(** [quiche::ConnectionError]. *)
Record ConnError := mkConnError { ce_is_app : bool; ce_error_code : N; ce_reason : bytes }.

(** What the loops use of a connection besides [Quic]. *)
Class QuicLoop (C : Type) := {
  (** A UDP payload from an address. *)
  conn_recv : C → bytes → SocketAddr → result QuicError () * C;
  on_timeout : C → C;
  is_established : C → bool;
  readable : C → list N;
  conn_is_closed : C → bool;
  is_draining : C → bool;
  peer_error : C → option ConnError;
  local_error : C → option ConnError;
  is_timed_out : C → bool;
  (** The next packet to send, and where to. *)
  conn_send : C → result QuicError (bytes * SocketAddr) * C;
  (** A bound on the packets waiting; it serves as fuel of the send loops. *)
  send_bound_packets : C → nat;
  (** [{e:?}]. *)
  debug_error : QuicError → rstring;
}.

Class QuicLoopLaws C `{QuicLoop C} := {
  conn_send_progress c p c' : conn_send c = (Ok p, c') → (send_bound_packets c' < send_bound_packets c)%nat;
}.

(** ** QUIC for a server *)

(** The fields of [quiche::Header] the code reads. *)
Record Hdr := mkHdr {
  hd_initial : bool;
  hd_dcid : bytes;
  hd_scid : bytes;
  hd_token : option bytes;
  hd_version : N;
}.

Class QuicServer (C : Type) := {
  (** [Header::from_slice] with connection ids of 16 bytes. *)
  parse_header : bytes → option Hdr;
  (** The Retry packet for a source id, a destination id, a new id, a token and a
      version, if it can be written. *)
  retry : bytes → bytes → bytes → bytes → N → option bytes;
  (** [accept] for a new id, the original one after a Retry, a local and a
      remote address. *)
  accept : bytes → option bytes → SocketAddr → SocketAddr → option C;
}.

(** ** The socket

    What [recv_from] and [send_to] answer is the environment's: the answers of
    one wake are lists; [recv_from] would block when its list is used up, and
    [send_to] succeeds. *)

Inductive SocketRecv := Datagram (data : bytes) (from : SocketAddr) | RecvFailed (message : rstring).
Inductive SocketSend := SendOk | SendWouldBlock | SendFailed.

(** ** Panics

    What [catch_unwind] finds in a panic's payload. *)

Inductive PanicPayload := StrPayload (s : rstring) | StringPayload (s : rstring) | OtherPayload.
Definition panic_message (p : PanicPayload) : rstring :=
  match p with StrPayload s | StringPayload s => s | OtherPayload => s2b "unknown panic" end.

Section loops.
Context {C : Type} {quic : Quic C} {qloop : QuicLoop C} {alloc : Allocator} {qpack : Qpack} {sfv : Sfv}.

(** The code, the reason, whether the peer closed, and an error message for an
    abnormal end. *)
Definition closure_info (c : C) : N * bytes * bool * option rstring :=
  match peer_error c with
  | Some err =>
      if ce_is_app err then (trunc32 (ce_error_code err), ce_reason err, true, None)
      else (0, [], true,
            Some (s2b "connection terminated by peer transport error " ++ hex (ce_error_code err)))
  | None =>
      match local_error c with
      | Some err =>
          if ce_is_app err then (trunc32 (ce_error_code err), ce_reason err, false, None)
          else (0, [], false,
                Some (s2b "connection closed by transport error " ++ hex (ce_error_code err)))
      | None =>
          if is_timed_out c then (0, [], false, Some (s2b "connection timed out"))
          else (0, [], true, Some (s2b "connection closed abnormally"))
      end
  end.

(** The readable streams, in the order QUIC lists them. *)
Fixpoint read_streams (ids : list N) (backpressured : bool) : M (World C) () :=
  match ids with
  | [] => mret ()
  | id :: ids => _ ← on_readable id backpressured; read_streams ids backpressured
  end.

(** Drive a session forward. *)
Definition drive (backpressured : bool) (order : list N → list N) : M (World C) () :=
  established ← gets (fun w => is_established (w_conn w));
  _ ← when established on_established;
  _ ← when (negb backpressured) on_datagrams;
  ids ← gets (fun w => readable (w_conn w));
  _ ← read_streams ids backpressured;
  flush order.

(** The connection has ended: report it once. *)
Definition report_closure : M (World C) () :=
  closed ← ses ws_closed;
  if (closed : bool) then mret ()
  else
    info ← ses local_close_info;
    match info with
    | Some (code, reason) => mark_closed code reason false
    | None =>
        i ← gets (fun w => closure_info (w_conn w));
        let '(code, reason, remote, err) := i in
        _ ← match err with Some msg => push_ev (EvError msg) | None => mret () end;
        mark_closed code reason remote
    end.

(** Hand the connection's packets to the socket; [keep_going] says whether a
    failed send other than a full buffer is skipped.  The packets handed
    over, in order. *)
Fixpoint flush_send_loop (fuel : nat) (keep_going : bool) (sends : list SocketSend)
    : M C (list (bytes * SocketAddr)) :=
  match fuel with
  | O => panic
  | S fuel => fun c =>
      let '(r, c) := conn_send c in
      match r with
      | Err _ => Some ([], c)
      | Ok p =>
          match sends with
          | SendWouldBlock :: _ => Some ([], c)
          | SendFailed :: sends =>
              if keep_going then flush_send_loop fuel keep_going sends c else Some ([], c)
          | _ =>
              match flush_send_loop fuel keep_going (tail sends) c with
              | Some (ps, c) => Some (p :: ps, c)
              | None => None
              end
          end
      end
  end.
Definition flush_send (keep_going : bool) (sends : list SocketSend) : M C (list (bytes * SocketAddr)) :=
  fun c => flush_send_loop (S (send_bound_packets c)) keep_going sends c.
End loops.

(** A wake emits at most one batch. *)
Definition grown {A} (batches batches' : list A) : Prop := ∃ new, batches' = batches ++ new ∧ (length new <= 1)%nat.
Lemma grown_same {A} (batches batches' : list A) : batches' = batches → grown batches batches'.
Proof. intros ->. exists []. rewrite app_nil_r. split; [done|cbn; lia]. Qed.

(** ** The invariant through a round *)

Section preservation.
Context {C : Type} {quic : Quic C} {quic_laws : QuicLaws C} {qloop : QuicLoop C} {qloop_laws : QuicLoopLaws C}.
Context {alloc : Allocator} {alloc_laws : AllocatorLaws} {qpack : Qpack} {sfv : Sfv} {hist : History}.
Context (limits : N → N) (limits_usize : ∀ i, limits i < U64).

Abbreviation keeps_inv L m := (∀ w : World C, inv limits L w → wp m (fun _ w' => inv limits L w') w).

(** From the rule with a mode to the bare invariant. *)
Lemma of_good {A} md (m : M (World C) A) L w :
  (∀ w, good limits md w L w → wp m (fun _ w' => good limits md w L w') w) → inv limits L w →
  wp m (fun _ w' => inv limits L w') w.
Proof. intros H Hw. eapply wp_mono; [by apply H, good_start|]. by intros ? ? [? _]. Qed.

Lemma set_conn_inv L (w : World C) c : inv limits L w → inv limits L (w <| w_conn := c |>).
Proof. by intros []. Qed.

Lemma conn_inv {A} (f : C → A * C) L (w : World C) :
  inv limits L w → wp (conn f) (fun _ w' => inv limits L w') w.
Proof. intros Hw. apply wp_conn. by apply set_conn_inv. Qed.

Lemma push_always_inv e L (w : World C) :
  always_admitted e = true → inv limits L w → wp (push_ev e) (fun _ w' => inv limits L w') w.
Proof.
  intros He Hw. apply (of_good free); [|done]. intros w' Hg.
  apply wp_modify, good_push; [by apply always_admitted_step|done].
Qed.

Lemma read_streams_inv ids backpressured L : keeps_inv L (read_streams ids backpressured).
Proof.
  induction ids as [|id ids IH]; intros w Hw; cbn [read_streams]; [by apply wp_ret|].
  apply wp_bind. eapply wp_mono; [apply (of_good free); [|exact Hw]|].
  - intros w' Hg. by apply (on_readable_good limits limits_usize).
  - cbv beta. intros _ w'. apply IH.
Qed.

Lemma drive_inv backpressured order L : keeps_inv L (drive backpressured order).
Proof.
  intros w Hw. unfold drive. apply wp_bind, wp_gets, wp_bind.
  apply (wp_mono _ (fun _ w' => inv limits L w')).
  { apply wp_when; intros _; [|done]. apply (of_good free); [|done]. intros w' Hg. by apply (on_established_good limits limits_usize). }
  intros _ w1 Hw1. apply wp_bind. apply (wp_mono _ (fun _ w' => inv limits L w')).
  { apply wp_when; intros _; [|done]. apply (of_good free); [|done]. intros w' Hg. by apply (on_datagrams_good limits). }
  intros _ w2 Hw2. apply wp_bind, wp_gets, wp_bind. eapply wp_mono; [by apply read_streams_inv|].
  cbv beta. intros _ w3 Hw3. apply (of_good free); [|done]. intros w' Hg. by apply (flush_good limits limits_usize).
Qed.

Lemma mark_closed_inv code reason remote L (w : World C) :
  inv limits L w →
  wp (mark_closed code reason remote) (fun _ w' => inv limits L w' ∧ ws_closed (w_ses w') = true) w.
Proof.
  intros Hw. eapply wp_mono; [by apply (mark_closed_good limits limits_usize free w L), good_start|].
  by intros _ w' [[? _] [? _]].
Qed.

(** Afterwards the session has closed, by this report or before. *)
Lemma report_closure_inv L (w : World C) :
  inv limits L w → wp report_closure (fun _ w' => inv limits L w' ∧ ws_closed (w_ses w') = true) w.
Proof.
  intros Hw. unfold report_closure. ses_steps. destruct (ws_closed (w_ses w)) eqn:Hc; [by apply wp_ret|].
  ses_steps. destruct (local_close_info (w_ses w)) as [[code reason]|]; [by apply mark_closed_inv|].
  apply wp_bind, wp_gets. destruct (closure_info (w_conn w)) as [[[code reason] remote] err].
  apply wp_bind. apply (wp_mono _ (fun _ w' => inv limits L w')).
  { destruct err; [by apply push_always_inv|by apply wp_ret]. }
  intros _ w1 Hw1. by apply mark_closed_inv.
Qed.

(** The send loop ends. *)
Lemma flush_send_returns keep_going sends (c : C) :
  ∃ ps c', flush_send keep_going sends c = Some (ps, c').
Proof.
  unfold flush_send.
  assert (H : ∀ fuel sends c, (send_bound_packets c < fuel)%nat →
    ∃ ps c', flush_send_loop fuel keep_going sends c = Some (ps, c')); [|by apply H; lia].
  clear -qloop_laws. induction fuel as [|fuel IH]; intros sends c Hf; [lia|]. cbn [flush_send_loop].
  destruct (conn_send c) as [[p|e] c1] eqn:E; [|eauto]. apply conn_send_progress in E.
  assert (Hrec : ∀ l, ∃ ps c', flush_send_loop fuel keep_going l c1 = Some (ps, c')) by (intros l; apply IH; lia).
  destruct sends as [|[| |] sends]; cbn [tail]; [destruct (Hrec []) as (ps & c' & ->); eauto| |eauto|].
  - destruct (Hrec sends) as (ps & c' & ->). eauto.
  - destruct keep_going; [apply Hrec|eauto].
Qed.
End preservation.

(** ** The loop's side of the small concrete connection

    A packet is the id of a stream followed by its bytes; the connection is
    established at once and closed as soon as a close was requested. *)

#[export] Instance toy_loop : QuicLoop ToyConn := {
  conn_recv c data _ :=
    match data with
    | [] => (Err Done, c)
    | id :: d => (Ok (), c <| toy_inbox ::= <[b2n id := (d, false)]> |>)
    end;
  on_timeout c := c;
  is_established _ := true;
  readable c := omap (fun kv => match kv.2.1 with [] => None | _ => Some kv.1 end) (map_to_list (toy_inbox c));
  conn_is_closed c := negb (bool_decide (toy_closes c = []));
  is_draining _ := false;
  peer_error _ := None;
  local_error _ := None;
  is_timed_out _ := false;
  conn_send c := (Err Done, c);
  send_bound_packets _ := O;
  debug_error _ := s2b "Error";
}.
#[export] Instance toy_loop_laws : QuicLoopLaws ToyConn.
Proof. constructor. done. Qed.

(** An initial packet starts with the byte 255 and carries its token. *)
#[export] Instance toy_server : QuicServer ToyConn := {
  parse_header data :=
    match data with
    | [] => None
    | xff :: token => Some (mkHdr true [x01] [x02] (Some token) 1)
    | _ => Some (mkHdr false [x01] [x02] None 1)
    end;
  retry _ _ random token _ := Some (random ++ token);
  accept _ _ _ _ := Some toy_new;
}.
