(* ===== verification/EchoServer.v ===== *)
(** * The echo server ([crates/echo-server/src/main.rs])

    The test fixture the client is exercised against: one state per QUIC
    connection, which classifies the peer's streams, answers the CONNECT as its
    mode says and echoes streams and datagrams; and the loop that owns the
    connections. *)

From S2P Require Import Prelude Utf8 H3 Headers Net Tls Quic EventLoop.

(** [--mode]. *)
Inductive Mode := Echo | Reject | MalformedHeaders | Garbage | ResetStreams | CloseSession.
#[export] Instance Mode_eq_dec : EqDecision Mode.
Proof. solve_decision. Defined.

Definition parse_mode (s : rstring) : Mode :=
  if decide (s = s2b "reject") then Reject
  else if decide (s = s2b "malformed-headers") then MalformedHeaders
  else if decide (s = s2b "garbage") then Garbage
  else if decide (s = s2b "reset") then ResetStreams
  else if decide (s = s2b "close") then CloseSession
  else Echo.

Definition CONNECT_ID : N := 0.

Inductive Role := LocalControlPlane | PeerControlPlane | Connect | WtBidi | WtUniIn | PendingUni | Ignored.
#[export] Instance Role_eq_dec : EqDecision Role.
Proof. solve_decision. Defined.

Record Stream := mkStream {
  st_role : Role;
  st_class_buf : bytes;
  st_frames : bytes;
  st_out : bytes;
  st_out_off : nat;
  st_fin_queued : bool;
  st_fin_sent : bool;
  st_prefix_done : bool;
  st_reset_queued : bool;
}.
#[export] Instance Stream_eta : Eta Stream := fun s =>
  mkStream (st_role s) (st_class_buf s) (st_frames s) (st_out s) (st_out_off s) (st_fin_queued s)
    (st_fin_sent s) (st_prefix_done s) (st_reset_queued s).

Definition new_stream (role : Role) : Stream := mkStream role [] [] [] 0 false false false false.
Definition with_prefix (role : Role) (prefix : bytes) : Stream := (new_stream role) <| st_out := prefix |>.
Definition queue (data : bytes) (s : Stream) : Stream := s <| st_out ::= fun out => out ++ data |>.

(** [FrameBuf::next]: the first complete frame of the buffer, and the rest. *)
Definition next_frame (buf : bytes) : option ((N * bytes) * bytes) :=
  '(ty, n1) ← read_varint buf;
  '(len, n2) ← read_varint (drop n1 buf);
  if N.shiftl 1 20 <? len then None
  else
    let total := (n1 + n2 + N.to_nat len)%nat in
    if (length buf <? total)%nat then None
    else Some ((ty, drop (n1 + n2) (take total buf)), drop total buf).

Definition classify (id : N) : Role :=
  match N.land id 0x3 with
  | 0 => if id =? CONNECT_ID then Connect else WtBidi
  | 2 => PendingUni
  | _ => Ignored
  end.

Record Server {C : Type} := mkServer {
  es_conn : C;
  es_streams : gmap N Stream;
  es_setup_done : bool;
  es_connected : bool;
  es_next_server_uni : N;
  es_mode : Mode;
  es_adversary_done : bool;
}.
Arguments Server : clear implicits.
Arguments mkServer {C}.
#[export] Instance Server_eta C : Eta (Server C) := fun s =>
  mkServer (es_conn s) (es_streams s) (es_setup_done s) (es_connected s) (es_next_server_uni s) (es_mode s)
    (es_adversary_done s).

Definition new_server {C} (conn : C) (mode : Mode) : Server C := mkServer conn ∅ false false 15 mode false.

Section server.
Context {C : Type} {quic : Quic C} {qloop : QuicLoop C} {qpack : Qpack}.

Definition conn_op {A} (f : C → A * C) : M (Server C) A := fun s =>
  let '(a, c) := f (es_conn s) in Some (a, s <| es_conn := c |>).
(** [if let Some(s) = self.streams.get_mut(&id)]. *)
Definition on_stream (id : N) (f : Stream → Stream) : M (Server C) () :=
  modify (fun s => s <| es_streams ::= alter f id |>).
(** [self.streams.get_mut(&id).unwrap()]. *)
Definition stream (id : N) : M (Server C) Stream :=
  o ← gets (fun s => es_streams s !! id);
  unwrap o.
(** [self.streams.entry(id).or_insert_with(..)]. *)
Definition or_insert (id : N) (st : Stream) : M (Server C) () :=
  modify (fun s => s <| es_streams ::= fun m => match m !! id with Some _ => m | None => <[id := st]> m end |>).

Definition on_established : M (Server C) () :=
  setup ← gets es_setup_done;
  if (setup : bool) then mret ()
  else
    modify (fun s => s <| es_setup_done := true |> <| es_streams ::= fun m =>
      <[11 := with_prefix LocalControlPlane (put_varint QPACK_DECODER_STREAM_TYPE)]>
        (<[7 := with_prefix LocalControlPlane (put_varint QPACK_ENCODER_STREAM_TYPE)]>
          (<[3 := with_prefix LocalControlPlane control_stream_prefix]> m)) |>).

(** ** Reading *)

(** The bytes after the signal and the session id, once they are complete. *)
Definition strip_prefix (id : N) (chunk : bytes) : M (Server C) bytes :=
  st ← stream id;
  if st_prefix_done st then mret chunk
  else
    let buf := st_class_buf st ++ chunk in
    _ ← on_stream id (fun st => st <| st_class_buf := buf |>);
    match read_varint buf with
    | None => mret []
    | Some (_, n1) =>
        match read_varint (drop n1 buf) with
        | None => mret []
        | Some (_, n2) =>
            _ ← on_stream id (fun st => st <| st_prefix_done := true |> <| st_class_buf := [] |>);
            mret (drop (n1 + n2) buf)
        end
    end.

(** Queue echoed bytes on the current stream of our own. *)
Definition echo_uni (data : bytes) (fin : bool) : M (Server C) () :=
  id ← gets es_next_server_uni;
  _ ← or_insert id (with_prefix LocalControlPlane (put_varint WT_UNI_STREAM_TYPE ++ put_varint CONNECT_ID));
  _ ← stream id;
  _ ← on_stream id (queue data);
  when fin (
    _ ← on_stream id (fun st => st <| st_fin_queued := true |>);
    modify (fun s => s <| es_next_server_uni ::= fun n => add64 n 4 |>)).

Definition resolve_uni (id : N) (chunk : bytes) (fin : bool) : M (Server C) () :=
  st ← stream id;
  let buf := st_class_buf st ++ chunk in
  _ ← on_stream id (fun st => st <| st_class_buf := buf |>);
  match read_varint buf with
  | None => mret ()
  | Some (ty, n) =>
      if (ty =? H3_CONTROL_STREAM_TYPE) || (ty =? QPACK_ENCODER_STREAM_TYPE) || (ty =? QPACK_DECODER_STREAM_TYPE) then
        on_stream id (fun st => st <| st_role := PeerControlPlane |> <| st_class_buf := [] |>)
      else if ty =? WT_UNI_STREAM_TYPE then
        match read_varint (drop n buf) with
        | None => mret ()
        | Some (_, n2) =>
            let data := drop (n + n2) buf in
            _ ← on_stream id (fun st => st <| st_role := WtUniIn |> <| st_prefix_done := true |> <| st_class_buf := [] |>);
            when (negb (bool_decide (data = [])) || fin) (echo_uni data fin)
        end
      else on_stream id (fun st => st <| st_role := Ignored |> <| st_class_buf := [] |>)
  end.

(** One frame of the CONNECT stream. *)
Definition malformed_response : bytes :=
  put_varint FRAME_HEADERS ++ put_varint 6 ++ replicate 6 xff.
Definition is_webtransport (payload : bytes) : bool :=
  match decode_header_block payload with
  | Ok headers => existsb (fun h => bool_decide (h_name h = s2b ":protocol") && bool_decide (h_value h = s2b "webtransport")) headers
  | Err _ => false
  end.
Definition handle_frame (id ty : N) (payload : bytes) : M (Server C) () :=
  if negb (ty =? FRAME_HEADERS) then mret ()
  else
    mode ← gets es_mode;
    if decide (mode = MalformedHeaders) then
      _ ← on_stream id (fun st => (queue malformed_response st) <| st_fin_queued := true |>);
      modify (fun s => s <| es_connected := false |>)
    else
      let ok := is_webtransport payload && negb (bool_decide (mode = Reject)) in
      let resp := [mkHeader (s2b ":status") (s2b (if ok then "200" else "404"))] in
      _ ← match encode_headers_frame resp with
          | Ok frame => on_stream id (fun st =>
              let st := queue frame st in if ok then st else st <| st_fin_queued := true |>)
          | Err _ => mret ()
          end;
      modify (fun s => s <| es_connected := ok |>).
Fixpoint connect_frames (fuel : nat) (id : N) : M (Server C) () :=
  match fuel with
  | O => panic
  | S fuel =>
      o ← gets (fun s => st ← es_streams s !! id; next_frame (st_frames st));
      match o with
      | None => mret ()
      | Some ((ty, payload), rest) =>
          _ ← on_stream id (fun st => st <| st_frames := rest |>);
          _ ← handle_frame id ty payload;
          connect_frames fuel id
      end
  end.
Definition handle_connect (id : N) : M (Server C) () :=
  n ← gets (fun s => match es_streams s !! id with Some st => length (st_frames st) | None => O end);
  connect_frames (S n) id.

Definition process (id : N) (chunk : bytes) (fin : bool) : M (Server C) () :=
  role ← gets (fun s => st_role <$> es_streams s !! id);
  match role with
  | Some PeerControlPlane | Some LocalControlPlane | Some Ignored | None => mret ()
  | Some Connect =>
      _ ← on_stream id (fun st => st <| st_frames ::= fun b => b ++ chunk |>);
      handle_connect id
  | Some WtBidi =>
      data ← strip_prefix id chunk;
      mode ← gets es_mode;
      let reset := bool_decide (mode = ResetStreams) in
      on_stream id (fun st =>
        let st := if bool_decide (data = []) then st else queue data st in
        if fin then if reset then st <| st_reset_queued := true |> else st <| st_fin_queued := true |> else st)
  | Some WtUniIn =>
      data ← strip_prefix id chunk;
      when (negb (bool_decide (data = [])) || fin) (echo_uni data fin)
  | Some PendingUni => resolve_uni id chunk fin
  end.

(** All a stream has to read now, and whether it has ended. *)
Definition READ_BUF : N := 16 * 1024.
Fixpoint read_loop (fuel : nat) (id : N) (chunk : bytes) : M (Server C) (bytes * bool) :=
  match fuel with
  | O => panic
  | S fuel =>
      r ← conn_op (fun c => stream_recv c id READ_BUF);
      match r with
      | Err _ => mret (chunk, false)
      | Ok (d, f) =>
          if (f : bool) then mret (chunk ++ d, true)
          else if bool_decide (d = []) then mret (chunk, false)
          else read_loop fuel id (chunk ++ d)
      end
  end.
Definition on_readable (id : N) : M (Server C) () :=
  _ ← or_insert id (new_stream (classify id));
  n ← gets (fun s => recv_bound (es_conn s) id);
  '(chunk, fin) ← read_loop (S n) id [];
  process id chunk fin.
Fixpoint read_all (ids : list N) : M (Server C) () :=
  match ids with
  | [] => mret ()
  | id :: ids => _ ← on_readable id; read_all ids
  end.

(** ** Writing *)

Fixpoint send_loop (fuel : nat) (id : N) : M (Server C) () :=
  match fuel with
  | O => panic
  | S fuel =>
      st ← stream id;
      if negb (st_out_off st <? length (st_out st))%nat then mret ()
      else
        let remaining := drop (st_out_off st) (st_out st) in
        r ← conn_op (fun c => stream_send c id remaining false);
        match r with
        | Err _ => mret ()
        | Ok sent =>
            _ ← on_stream id (fun st => st <| st_out_off ::= fun n => (n + sent)%nat |>);
            if (sent <? length remaining)%nat then mret () else send_loop fuel id
        end
  end.
Definition flush_stream (id : N) : M (Server C) () :=
  st ← stream id;
  _ ← send_loop (S (length (st_out st))) id;
  st ← stream id;
  if st_reset_queued st && negb (st_fin_sent st) then
    _ ← conn_op (fun c => ((), stream_shutdown c id Write 7));
    on_stream id (fun st => st <| st_fin_sent := true |>)
  else if (length (st_out st) <=? st_out_off st)%nat && st_fin_queued st && negb (st_fin_sent st) then
    r ← conn_op (fun c => stream_send c id [] true);
    match r with Ok _ => on_stream id (fun st => st <| st_fin_sent := true |>) | Err _ => mret () end
  else mret ().
Fixpoint flush_ids (ids : list N) : M (Server C) () :=
  match ids with
  | [] => mret ()
  | id :: ids => _ ← flush_stream id; flush_ids ids
  end.
(** The hash map's keys come in some order. *)
Definition flush (order : list N → list N) : M (Server C) () :=
  ids ← gets (fun s => order (map fst (map_to_list (es_streams s))));
  flush_ids ids.

(** The hostile action of the mode, once. *)
Definition GARBAGE : bytes := [xff; xff; xff; xff; xde; xad; xbe; xef; x01; x02; x03].
Definition adversary : M (Server C) () :=
  skip ← gets (fun s => es_adversary_done s || negb (es_connected s));
  if (skip : bool) then mret ()
  else
    mode ← gets es_mode;
    match mode with
    | Garbage =>
        _ ← on_stream CONNECT_ID (queue GARBAGE);
        modify (fun s => s <| es_adversary_done := true |>)
    | CloseSession =>
        _ ← on_stream CONNECT_ID (fun st => st <| st_fin_queued := true |>);
        modify (fun s => s <| es_adversary_done := true |>)
    | _ => mret ()
    end.

Definition DGRAM_BUF : N := 65536.
Fixpoint echo_datagrams (fuel : nat) : M (Server C) () :=
  match fuel with
  | O => panic
  | S fuel =>
      r ← conn_op (fun c => dgram_recv c DGRAM_BUF);
      match r with
      | Err _ => mret ()
      | Ok data =>
          _ ← conn_op (fun c => dgram_send c data);
          echo_datagrams fuel
      end
  end.

Definition drive (order : list N → list N) : M (Server C) () :=
  established ← gets (fun s => is_established (es_conn s));
  _ ← when established on_established;
  n ← gets (fun s => dgram_bound (es_conn s));
  _ ← echo_datagrams (S n);
  ids ← gets (fun s => readable (es_conn s));
  _ ← read_all ids;
  _ ← adversary;
  flush order.
End server.

(** ** The loop over all connections *)

Record Loop {C : Type} := mkLoop {
  lp_clients : gmap bytes (Server C);
  lp_routing : gmap bytes bytes;
  lp_wire : list (bytes * SocketAddr);
}.
Arguments Loop : clear implicits.
Arguments mkLoop {C}.
#[export] Instance Loop_eta C : Eta (Loop C) := fun l => mkLoop (lp_clients l) (lp_routing l) (lp_wire l).

(** The environment's part of one wake: what [recv_from] yields, each with a
    fresh connection id, and the orders of the hash maps. *)
Record EchoWake := mkEchoWake {
  ew_packets : list (SocketRecv * bytes);
  ew_client_order : list bytes → list bytes;
  ew_stream_order : bytes → list N → list N;
}.

Section main.
Context {C : Type} {quic : Quic C} {qloop : QuicLoop C} {qserver : QuicServer C} {qpack : Qpack}.
(** [due c]: [timeout()] is [Some(ZERO)]. *)
Context (mode : Mode) (local_addr : SocketAddr) (due : C → bool).

Definition with_server (key : bytes) (m : M (Server C) ()) : M (Loop C) () := fun l =>
  match lp_clients l !! key with
  | None => Some ((), l)
  | Some s =>
      match m s with
      | Some (_, s) => Some ((), l <| lp_clients ::= <[key := s]> |>)
      | None => None
      end
  end.

Definition receive (data : bytes) (from : SocketAddr) (random_scid : bytes) : M (Loop C) () :=
  match parse_header data with
  | None => mret ()
  | Some hdr =>
      routed ← gets (fun l => lp_routing l !! hd_dcid hdr);
      scid ← match routed with
             | Some scid => mret (Some scid)
             | None =>
                 if negb (hd_initial hdr) then mret None
                 else
                   match accept random_scid None local_addr from with
                   | None => mret None
                   | Some c =>
                       _ ← modify (fun l => l
                             <| lp_routing ::= fun m => <[random_scid := random_scid]> (<[hd_dcid hdr := random_scid]> m) |>
                             <| lp_clients ::= <[random_scid := new_server c mode]> |>);
                       mret (Some random_scid)
                   end
             end;
      match scid with
      | None => mret ()
      | Some scid => with_server scid (conn_op (fun c => ((), (conn_recv c data from).2)))
      end
  end.
Fixpoint receive_packets (l : list (SocketRecv * bytes)) : M (Loop C) () :=
  match l with
  | [] | (RecvFailed _, _) :: _ => mret ()
  | (Datagram data from, random) :: l => _ ← receive data from random; receive_packets l
  end.

Definition fire_timeouts : M (Loop C) () := modify (fun l => l <| lp_clients ::= fmap (fun s : Server C =>
  if due (es_conn s) then s <| es_conn ::= on_timeout |> else s) |>).

(** Whatever [send_to] answers, the next packet is sent. *)
Fixpoint send_all (fuel : nat) : M (Server C) (list (bytes * SocketAddr)) :=
  match fuel with
  | O => panic
  | S fuel =>
      r ← conn_op conn_send;
      match r with
      | Err _ => mret []
      | Ok p => ps ← send_all fuel; mret (p :: ps)
      end
  end.
Definition send_client (key : bytes) : M (Loop C) () := fun l =>
  match lp_clients l !! key with
  | None => Some ((), l)
  | Some s =>
      match send_all (S (send_bound_packets (es_conn s))) s with
      | Some (ps, s) => Some ((), l <| lp_clients ::= <[key := s]> |> <| lp_wire ::= fun w => w ++ ps |>)
      | None => None
      end
  end.
Fixpoint drive_clients (keys : list bytes) (order : bytes → list N → list N) : M (Loop C) () :=
  match keys with
  | [] => mret ()
  | key :: keys =>
      _ ← with_server key (drive (order key));
      _ ← send_client key;
      drive_clients keys order
  end.

Definition reap : M (Loop C) () := modify (fun l =>
  let clients := filter (fun kv => conn_is_closed (es_conn kv.2) = false) (lp_clients l) in
  l <| lp_clients := clients |> <| lp_routing ::= filter (fun kv => is_Some (clients !! kv.2)) |>).

Definition iteration (wk : EchoWake) : M (Loop C) () :=
  _ ← receive_packets (ew_packets wk);
  _ ← fire_timeouts;
  keys ← gets (fun l => ew_client_order wk (map fst (map_to_list (lp_clients l))));
  _ ← drive_clients keys (ew_stream_order wk);
  reap.
Fixpoint run (wakes : list EchoWake) : M (Loop C) () :=
  match wakes with
  | [] => mret ()
  | wk :: wakes => _ ← iteration wk; run wakes
  end.
End main.

(** ** Starting up *)

Record Args := mkArgs { ar_cert : rstring; ar_key : rstring; ar_host : rstring; ar_port : N; ar_mode : Mode }.
#[export] Instance Args_eta : Eta Args := fun a =>
  mkArgs (ar_cert a) (ar_key a) (ar_host a) (ar_port a) (ar_mode a).

(** An option takes the next argument, whatever it is; others are skipped. *)
Fixpoint parse_args (args : list rstring) (a : Args) : Args :=
  match args with
  | [] => a
  | s :: args =>
      let set (f : option rstring → Args) :=
        match args with [] => f None | v :: rest => parse_args rest (f (Some v)) end in
      if decide (s = s2b "--cert") then set (fun v => a <| ar_cert := default [] v |>)
      else if decide (s = s2b "--key") then set (fun v => a <| ar_key := default [] v |>)
      else if decide (s = s2b "--host") then set (fun v => a <| ar_host := default (s2b "127.0.0.1") v |>)
      else if decide (s = s2b "--port") then set (fun v => a <| ar_port := default 0 (v ≫= parse_u16) |>)
      else if decide (s = s2b "--mode") then set (fun v => a <| ar_mode := parse_mode (default [] v) |>)
      else parse_args args a
  end.

(** The arguments, unless the usage is printed. *)
Definition startup (args : list rstring) : option Args :=
  let a := parse_args args (mkArgs [] [] (s2b "127.0.0.1") 0 Echo) in
  if bool_decide (ar_cert a = []) || bool_decide (ar_key a = []) then None else Some a.

(** BoringSSL's errors are shown as they are, quiche's in debug form. *)
Definition prefixed (what : string) (r : result rstring ()) : result rstring () :=
  match r with Ok _ => Ok () | Err e => Err (s2b what ++ e) end.
Definition build_server_config (cert key : rstring) (a : ConfigAnswers)
    : result rstring (list TlsSetting * list ConfigSetting) :=
  _ ← prefixed "" (ta_builder (ca_tls a));
  _ ← prefixed "" (ta_min_proto (ca_tls a));
  _ ← prefixed "" (ta_max_proto (ca_tls a));
  _ ← prefixed "" (ca_config a);
  _ ← prefixed "cert: " (ca_cert a);
  _ ← prefixed "key: " (ca_key a);
  _ ← prefixed "" (ca_protos a);
  Ok ([MinProtoTls13; MaxProtoTls13],
      [LoadCertChain cert; LoadPrivKey key; ApplicationProtos [s2b "h3"]; MaxIdleTimeout 30000;
       MaxRecvUdpPayload 1350; MaxSendUdpPayload 1350; InitialMaxData (10 * 1024 * 1024);
       InitialMaxStreamDataBidiLocal (1024 * 1024); InitialMaxStreamDataBidiRemote (1024 * 1024);
       InitialMaxStreamDataUni (1024 * 1024); InitialMaxStreamsBidi 256; InitialMaxStreamsUni 256;
       DisableActiveMigration true; EnableDgram true 65536 65536]).

(** The connection ids of the fixture: a linear congruential generator seeded
    with the clock. *)
Definition LOCAL_CONN_ID_LEN : nat := 16.
Fixpoint getrandom_fill (n : nat) (seed : N) : bytes :=
  match n with
  | O => []
  | S n =>
      let seed := wrap64 (wrap64 (seed * 6364136223846793005) + 1442695040888963407) in
      n2b (N.shiftr seed 33) :: getrandom_fill n seed
  end.
