(* ===== verification/EchoSpec.v ===== *)
(** * What the echo server echoes ([crates/echo-server/src/main.rs])

    A bidirectional stream comes back byte for byte, and unidirectional streams
    that are open at the same time share one echo. *)

From S2P Require Import Prelude H3 Headers Net Quic EventLoop EchoServer.

(** ** Bidirectional streams *)

(** [strip_prefix] as a function of the stream. *)
Definition strip (st : Stream) (chunk : bytes) : bytes * Stream :=
  if st_prefix_done st then (chunk, st)
  else
    let buf := st_class_buf st ++ chunk in
    let waiting := st <| st_class_buf := buf |> in
    match read_varint buf with
    | None => ([], waiting)
    | Some (_, n1) =>
        match read_varint (drop n1 buf) with
        | None => ([], waiting)
        | Some (_, n2) => (drop (n1 + n2) buf, st <| st_prefix_done := true |> <| st_class_buf := [] |>)
        end
    end.

Definition bidi_step (mode : Mode) (st : Stream) (chunk : bytes) (fin : bool) : Stream :=
  let '(data, st) := strip st chunk in
  let st := if bool_decide (data = []) then st else queue data st in
  if fin then if bool_decide (mode = ResetStreams) then st <| st_reset_queued := true |> else st <| st_fin_queued := true |>
  else st.

(** What the client writes before the payload of a stream of session [n]. *)
Definition signal (ty n : N) : bytes := put_varint ty ++ put_varint n.

(** The stream after the bytes [acc] of a signal and a payload. *)
Definition echoing (ty n : N) (acc : bytes) (st : Stream) : Prop :=
  if st_prefix_done st then acc = signal ty n ++ st_out st
  else st_class_buf st = acc ∧ st_out st = [] ∧ ¬ ∃ p, acc = signal ty n ++ p.

Lemma strip_echoing ty n acc st chunk rest payload :
  ty < 2 ^ 62 → n < 2 ^ 62 →
  acc ++ chunk ++ rest = signal ty n ++ payload → echoing ty n acc st →
  let '(data, st') := strip st chunk in
  echoing ty n (acc ++ chunk) (if bool_decide (data = []) then st' else queue data st').
Proof.
  intros Hty Hn Hall He. unfold strip.
  destruct (st_prefix_done st) eqn:Hd; unfold echoing in He; rewrite Hd in He.
  { case_bool_decide as Hc; unfold echoing; cbn; rewrite Hd, He; [subst; by rewrite app_nil_r|by rewrite app_assoc]. }
  destruct He as (Hb & Ho & Hnot). rewrite Hb.
  assert (Hwhole : (acc ++ chunk) ++ rest = put_varint ty ++ put_varint n ++ payload)
    by (rewrite <- !app_assoc, Hall; unfold signal; by rewrite <- app_assoc).
  assert (Hwait : (¬ ∃ p, acc ++ chunk = signal ty n ++ p) →
    echoing ty n (acc ++ chunk) (st <| st_class_buf := acc ++ chunk |>)).
  { intros H. unfold echoing. cbn. by rewrite Hd. }
  destruct (read_varint (acc ++ chunk)) as [[ty' n1]|] eqn:E1.
  2: { rewrite bool_decide_true by done. apply Hwait. intros [p Hp]. rewrite Hp in E1. unfold signal in E1.
    rewrite <- app_assoc, read_put_varint in E1 by done. done. }
  pose proof (read_varint_app _ rest _ _ E1) as E1'. rewrite Hwhole, read_put_varint in E1' by done.
  injection E1' as <- <-. apply read_varint_bounds in E1 as B1.
  assert (H1 : drop (varint_len ty) (acc ++ chunk) ++ rest = put_varint n ++ payload).
  { rewrite <- drop_app_le by lia. rewrite Hwhole. by rewrite drop_app_length' by (by rewrite put_varint_length). }
  destruct (read_varint (drop (varint_len ty) (acc ++ chunk))) as [[n' n2]|] eqn:E2.
  2: { rewrite bool_decide_true by done. apply Hwait. intros [p Hp]. rewrite Hp in E2. unfold signal in E2.
    rewrite <- app_assoc, drop_app_length' in E2 by (by rewrite put_varint_length).
    rewrite read_put_varint in E2 by done. done. }
  pose proof (read_varint_app _ rest _ _ E2) as E2'. rewrite H1, read_put_varint in E2' by done.
  injection E2' as <- <-. apply read_varint_bounds in E2 as B2.
  assert (H2 : acc ++ chunk = signal ty n ++ drop (varint_len ty + varint_len n) (acc ++ chunk)).
  { apply (app_inv_tail rest). rewrite <- (app_assoc (signal ty n)).
    assert (H3 : drop (varint_len ty + varint_len n) (acc ++ chunk) ++ rest = payload).
    { rewrite length_drop in B2. rewrite <- drop_drop, <- drop_app_le by (rewrite length_drop; lia). rewrite H1.
      by rewrite drop_app_length' by (by rewrite put_varint_length). }
    rewrite H3. unfold signal. by rewrite <- !app_assoc, <- Hwhole, <- app_assoc. }
  case_bool_decide as Hc; unfold echoing; cbn; rewrite Ho, ?app_nil_l; [by rewrite H2 at 1; rewrite Hc|exact H2].
Qed.

Section echo.
Context {C : Type} {quic : Quic C} {qloop : QuicLoop C} {qpack : Qpack}.

Lemma on_stream_wp id f st (Q : () → Server C → Prop) s :
  es_streams s !! id = Some st → Q () (s <| es_streams ::= <[id := f st]> |>) → wp (on_stream id f) Q s.
Proof.
  intros Hst HQ. apply wp_modify. unfold upd in *. cbn in *. by rewrite (alter_insert_delete _ _ f st Hst).
Qed.

Lemma stream_wp id st (Q : Stream → Server C → Prop) s :
  es_streams s !! id = Some st → Q st s → wp (stream id) Q s.
Proof. intros Hst HQ. apply wp_bind, wp_gets. rewrite Hst. by apply (wp_unwrap _ _ _ st). Qed.

(** The stream [id] becomes [st']; nothing else changes. *)
Definition stream_set (id : N) (st' : Stream) (s s' : Server C) : Prop :=
  s' = s <| es_streams ::= <[id := st']> |>.

Lemma stream_set_twice id st st' s s1 s2 :
  stream_set id st s s1 → stream_set id st' s1 s2 → stream_set id st' s s2.
Proof. intros -> ->. unfold stream_set, upd. cbn. by rewrite insert_insert_eq. Qed.

Lemma stream_set_same id st s : es_streams s !! id = Some st → stream_set id st s s.
Proof. intros Hst. unfold stream_set, upd. cbn. rewrite insert_id by done. by destruct s. Qed.

Lemma set_stream_wp id f st s0 (Q : () → Server C → Prop) s :
  stream_set id st s0 s → (∀ s', stream_set id (f st) s0 s' → Q () s') → wp (on_stream id f) Q s.
Proof.
  intros Hs HQ. apply (on_stream_wp id f st); [rewrite Hs; apply lookup_insert_eq|].
  apply HQ. by eapply stream_set_twice.
Qed.

Lemma strip_prefix_wp id chunk st s :
  es_streams s !! id = Some st →
  wp (strip_prefix id chunk) (fun data s' => data = (strip st chunk).1 ∧ stream_set id (strip st chunk).2 s s') s.
Proof.
  intros Hst. unfold strip_prefix, strip. apply wp_bind, (stream_wp id st); [done|].
  destruct (st_prefix_done st); [apply wp_ret; split; [done|by apply stream_set_same]|].
  apply wp_bind, (set_stream_wp id _ st s); [by apply stream_set_same|]. intros s1 H1.
  destruct (read_varint _) as [[ty n1]|]; [|by apply wp_ret].
  destruct (read_varint _) as [[n n2]|]; [|by apply wp_ret].
  apply wp_bind. eapply set_stream_wp; [exact H1|]. intros s2 H2. apply wp_ret. split; [done|].
  by destruct st.
Qed.

Lemma process_bidi_wp id chunk fin st s :
  es_streams s !! id = Some st → st_role st = WtBidi →
  wp (process id chunk fin) (fun _ s' => stream_set id (bidi_step (es_mode s) st chunk fin) s s') s.
Proof.
  intros Hst Hrole. unfold process. apply wp_bind, wp_gets. rewrite Hst. cbn. rewrite Hrole.
  apply wp_bind. eapply wp_mono; [by apply strip_prefix_wp|]. cbv beta. intros data s1 [-> H1].
  apply wp_bind, wp_gets. assert (Em : es_mode s1 = es_mode s) by (by rewrite H1). rewrite Em.
  apply (set_stream_wp id _ (strip st chunk).2 s); [exact H1|]. intros s2 H2.
  unfold bidi_step. by destruct (strip st chunk) as [data st'].
Qed.

(** The chunks of a stream as the loop reads them, the last one with the FIN. *)
Fixpoint process_all (id : N) (chunks : list bytes) (last : bytes) : M (Server C) () :=
  match chunks with
  | [] => process id last true
  | chunk :: chunks => _ ← process id chunk false; process_all id chunks last
  end.

Lemma strip_keeps st chunk :
  let st' := (strip st chunk).2 in
  st_role st' = st_role st ∧ st_out_off st' = st_out_off st ∧ st_fin_queued st' = st_fin_queued st ∧
  st_reset_queued st' = st_reset_queued st.
Proof.
  unfold strip. destruct (st_prefix_done st); [done|].
  destruct (read_varint _) as [[? n]|]; [|done]. by destruct (read_varint (drop n _)) as [[? ?]|].
Qed.

(** The other fields after a step. *)
Lemma bidi_step_keeps mode st chunk fin :
  let st' := bidi_step mode st chunk fin in
  st_role st' = st_role st ∧ st_out_off st' = st_out_off st ∧
  st_fin_queued st' = st_fin_queued st || (fin && negb (bool_decide (mode = ResetStreams))) ∧
  st_reset_queued st' = st_reset_queued st || (fin && bool_decide (mode = ResetStreams)).
Proof.
  unfold bidi_step. pose proof (strip_keeps st chunk) as (H1 & H2 & H3 & H4).
  destruct (strip st chunk) as [data st']. cbn in H1, H2, H3, H4 |- *.
  destruct (bool_decide (data = [])), fin, (bool_decide (mode = ResetStreams)); cbn;
    rewrite ?H1, ?H2, ?H3, ?H4, ?orb_true_r, ?orb_false_r; done.
Qed.

Lemma bidi_step_out mode st chunk fin :
  st_out (bidi_step mode st chunk fin) =
    st_out (let '(data, st') := strip st chunk in if bool_decide (data = []) then st' else queue data st').
Proof.
  unfold bidi_step. destruct (strip st chunk). destruct fin; [|done]. by repeat case_bool_decide.
Qed.

(** C39: a bidirectional stream is echoed byte for byte.  However the network
    cuts the client's signal, session id and payload into chunks, when the FIN
    has come the queue of that stream is exactly the payload, and the stream is
    to be finished, or to be reset in the mode that resets; no other stream and
    no other part of the state changes. *)
Theorem bidi_stream_echoed (id ty n : N) (payload : bytes) (chunks : list bytes) (last : bytes) (s : Server C) :
  es_streams s !! id = Some (new_stream WtBidi) → ty < 2 ^ 62 → n < 2 ^ 62 →
  concat chunks ++ last = signal ty n ++ payload →
  wp (process_all id chunks last) (fun _ s' => ∃ st', stream_set id st' s s' ∧
    st_out st' = payload ∧ st_out_off st' = 0%nat ∧
    st_fin_queued st' = negb (bool_decide (es_mode s = ResetStreams)) ∧
    st_reset_queued st' = bool_decide (es_mode s = ResetStreams)) s.
Proof.
  intros Hst Hty Hn Hall.
  (* what holds of the stream between two chunks *)
  set (open := fun st => st_role st = WtBidi ∧ st_out_off st = 0%nat ∧ st_fin_queued st = false ∧ st_reset_queued st = false).
  assert (Hstep : ∀ st chunk fin, open st →
    st_role (bidi_step (es_mode s) st chunk fin) = WtBidi ∧
    st_out_off (bidi_step (es_mode s) st chunk fin) = 0%nat ∧
    st_fin_queued (bidi_step (es_mode s) st chunk fin) = fin && negb (bool_decide (es_mode s = ResetStreams)) ∧
    st_reset_queued (bidi_step (es_mode s) st chunk fin) = fin && bool_decide (es_mode s = ResetStreams)).
  { intros st chunk fin (H0 & H1 & H2 & H3). destruct (bidi_step_keeps (es_mode s) st chunk fin) as (K0 & K1 & K2 & K3).
    cbn in *. by rewrite K0, K1, K2, K3, H0, H1, H2, H3. }
  enough (H : ∀ acc s1 st, stream_set id st s s1 → open st → echoing ty n acc st →
    acc ++ concat chunks ++ last = signal ty n ++ payload →
    wp (process_all id chunks last) (fun _ s' => ∃ st', stream_set id st' s s' ∧ st_out st' = payload ∧
      st_out_off st' = 0%nat ∧ st_fin_queued st' = negb (bool_decide (es_mode s = ResetStreams)) ∧
      st_reset_queued st' = bool_decide (es_mode s = ResetStreams)) s1).
  { apply (H [] s (new_stream WtBidi)); [by apply stream_set_same|done| |done].
    unfold echoing. cbn. split; [done|]. split; [done|]. intros [p Hp]. symmetry in Hp.
    apply app_eq_nil in Hp as [Hp _]. unfold signal in Hp. apply app_eq_nil in Hp as [Hp _].
    pose proof (put_varint_length ty) as Hl. rewrite Hp in Hl. cbn in Hl. pose proof (varint_len_bounds ty). lia. }
  clear Hall Hst. induction chunks as [|chunk chunks IH]; intros acc s1 st Hset Hopen He Hall; cbn [process_all];
    (assert (Hst1 : es_streams s1 !! id = Some st) by (rewrite Hset; apply lookup_insert_eq));
    (assert (Em : es_mode s1 = es_mode s) by (by rewrite Hset)).
  - cbn [concat app] in Hall. eapply wp_mono; [apply process_bidi_wp; [exact Hst1|apply Hopen]|].
    cbv beta. rewrite Em. intros _ s2 H2. destruct (Hstep st last true Hopen) as (F0 & F1 & F2 & F3).
    eexists. split; [by eapply stream_set_twice|]. split; [|done].
    pose proof (strip_echoing ty n acc st last [] payload Hty Hn) as Hs. rewrite app_nil_r in Hs.
    specialize (Hs Hall He). rewrite bidi_step_out. destruct (strip st last) as [data st'].
    unfold echoing in Hs. rewrite Hall in Hs. destruct (st_prefix_done _).
    + by apply app_inv_head in Hs.
    + destruct Hs as (_ & _ & Hnot). exfalso. apply Hnot. eauto.
  - cbn [concat] in Hall. rewrite <- app_assoc in Hall. apply wp_bind.
    eapply wp_mono; [apply process_bidi_wp; [exact Hst1|apply Hopen]|]. cbv beta. rewrite Em. intros _ s2 H2.
    destruct (Hstep st chunk false Hopen) as (F0 & F1 & F2 & F3).
    apply (IH (acc ++ chunk) s2 (bidi_step (es_mode s) st chunk false)).
    + by eapply stream_set_twice.
    + done.
    + pose proof (strip_echoing ty n acc st chunk (concat chunks ++ last) payload Hty Hn Hall He) as Hs.
      unfold bidi_step. by destruct (strip st chunk).
    + by rewrite <- app_assoc.
Qed.

(** ** Unidirectional streams *)

(** What a unidirectional stream of ours starts with. *)
Definition uni_prefix : bytes := put_varint WT_UNI_STREAM_TYPE ++ put_varint CONNECT_ID.

Lemma strip_prefix_done id chunk st (Q : bytes → Server C → Prop) s :
  es_streams s !! id = Some st → st_prefix_done st = true → Q chunk s → wp (strip_prefix id chunk) Q s.
Proof. intros Hst Hd HQ. unfold strip_prefix. apply wp_bind, (stream_wp id st); [done|]. rewrite Hd. by apply wp_ret. Qed.

(** The current outgoing stream holds the echo of the bytes [acc]; before the
    first byte it does not exist. *)
Definition echo_stream (acc : bytes) (s : Server C) : Prop :=
  match es_streams s !! es_next_server_uni s with
  | None => acc = []
  | Some st => st_out st = uni_prefix ++ acc
  end.

Lemma echo_uni_wp acc data fin s :
  echo_stream acc s →
  wp (echo_uni data fin) (fun _ s' => ∃ st,
    es_streams s' = <[es_next_server_uni s := st]> (es_streams s) ∧
    st_out st = uni_prefix ++ acc ++ data ∧ (fin = true → st_fin_queued st = true) ∧
    es_next_server_uni s' = if fin then add64 (es_next_server_uni s) 4 else es_next_server_uni s) s.
Proof.
  intros Hacc. unfold echo_uni. apply wp_bind, wp_gets. set (id := es_next_server_uni s).
  assert (H : ∃ st, st_out st = uni_prefix ++ acc ∧
    wp (or_insert id (with_prefix LocalControlPlane uni_prefix)) (fun _ s' => stream_set id st s s') s).
  { unfold echo_stream in Hacc. fold id in Hacc. destruct (es_streams s !! id) as [st|] eqn:E.
    - exists st. split; [done|]. apply wp_modify. unfold stream_set, upd. by rewrite E, insert_id.
    - exists (with_prefix LocalControlPlane uni_prefix). rewrite Hacc. split; [by rewrite app_nil_r|].
      apply wp_modify. unfold stream_set, upd. by rewrite E. }
  destruct H as (st & Hout & H). apply wp_bind. eapply wp_mono; [exact H|]. cbv beta. intros _ s1 H1.
  apply wp_bind, (stream_wp id st); [rewrite H1; apply lookup_insert_eq|].
  apply wp_bind, (set_stream_wp id _ st s); [exact H1|]. intros s2 H2.
  destruct fin; cbn [when].
  - apply wp_bind. eapply set_stream_wp; [exact H2|]. intros s3 H3. apply wp_modify.
    eexists. rewrite H3. cbn. split; [done|]. cbn. by rewrite Hout, app_assoc.
  - apply wp_ret. eexists. rewrite H2. split; [done|]. cbn. by rewrite Hout, app_assoc.
Qed.

(** A step on an incoming stream whose header has been read. *)
Lemma process_uni_wp acc id chunk fin st s :
  es_streams s !! id = Some st → st_role st = WtUniIn → st_prefix_done st = true → echo_stream acc s →
  wp (process id chunk fin) (fun _ s' =>
    (s' = s ∧ chunk = [] ∧ fin = false) ∨
    ∃ st, es_streams s' = <[es_next_server_uni s := st]> (es_streams s) ∧
      st_out st = uni_prefix ++ acc ++ chunk ∧ (fin = true → st_fin_queued st = true) ∧
      es_next_server_uni s' = if fin then add64 (es_next_server_uni s) 4 else es_next_server_uni s) s.
Proof.
  intros Hst Hrole Hd Hacc. unfold process. apply wp_bind, wp_gets. rewrite Hst. cbn. rewrite Hrole.
  apply wp_bind, (strip_prefix_done id chunk st); [done..|]. apply wp_when.
  - intros _. eapply wp_mono; [by apply (echo_uni_wp acc)|]. by right.
  - intros Hb. left. apply orb_false_iff in Hb as [Hb ->]. apply negb_false_iff, bool_decide_eq_true in Hb. done.
Qed.

(** Chunks of several incoming streams, in the order they are read; the last one
    ends its stream. *)
Fixpoint process_chunks (chunks : list (N * bytes)) (last : N * bytes) : M (Server C) () :=
  match chunks with
  | [] => process last.1 last.2 true
  | (id, chunk) :: chunks => _ ← process id chunk false; process_chunks chunks last
  end.

(** C40: what the incoming unidirectional streams carry is echoed on one outgoing
    stream until one of them ends.  With one incoming stream that is its
    payload, byte for byte, after the signal and the session id.  With several
    that are open at the same time it is what they carry, interleaved as it was
    read, and the first FIN ends it: they do not each get a stream of their
    own. *)
Theorem uni_streams_share_echo (chunks : list (N * bytes)) (last : N * bytes) (s : Server C) :
  es_streams s !! es_next_server_uni s = None →
  (∀ id, id ∈ map fst chunks ++ [last.1] → ∃ st,
    es_streams s !! id = Some st ∧ st_role st = WtUniIn ∧ st_prefix_done st = true) →
  wp (process_chunks chunks last) (fun _ s' => ∃ st,
    es_streams s' !! es_next_server_uni s = Some st ∧
    st_out st = put_varint WT_UNI_STREAM_TYPE ++ put_varint CONNECT_ID ++ concat (map snd chunks) ++ last.2 ∧
    st_fin_queued st = true ∧ es_next_server_uni s' = add64 (es_next_server_uni s) 4) s.
Proof.
  intros Hnone Hids. set (next := es_next_server_uni s).
  assert (Hne : ∀ id, id ∈ map fst chunks ++ [last.1] → id ≠ next).
  { intros id Hid ->. destruct (Hids _ Hid) as (st & Hst & _). unfold next in Hst. congruence. }
  enough (H : ∀ acc s1, es_next_server_uni s1 = next → echo_stream acc s1 →
    (∀ id, id ∈ map fst chunks ++ [last.1] → es_streams s1 !! id = es_streams s !! id) →
    wp (process_chunks chunks last) (fun _ s' => ∃ st, es_streams s' !! next = Some st ∧
      st_out st = uni_prefix ++ acc ++ concat (map snd chunks) ++ last.2 ∧
      st_fin_queued st = true ∧ es_next_server_uni s' = add64 next 4) s1).
  { eapply wp_mono; [apply (H [] s); [done|unfold echo_stream; by rewrite Hnone|done]|]. cbv beta.
    intros _ s' (st & ? & Hout & ? & ?). exists st. unfold uni_prefix in Hout. rewrite <- app_assoc in Hout. done. }
  induction chunks as [|[id chunk] chunks IH]; intros acc s1 Hn Hacc Hsame; cbn [process_chunks].
  - destruct (Hids last.1) as (st & Hst & Hr & Hd); [by left|]. rewrite <- Hsame in Hst by (by left).
    eapply wp_mono; [by apply (process_uni_wp acc _ _ _ st)|]. cbv beta. rewrite Hn.
    intros _ s2 [(_ & _ & ?)|(st' & Hs' & Hout & Hf & Hnext)]; [done|]. exists st'. rewrite Hs', lookup_insert_eq.
    cbn. auto.
  - destruct (Hids id) as (st & Hst & Hr & Hd); [by left|]. rewrite <- Hsame in Hst by (by left).
    apply wp_bind. eapply wp_mono; [by apply (process_uni_wp acc _ _ _ st)|]. cbv beta. rewrite Hn.
    assert (Hids' : ∀ i, i ∈ map fst chunks ++ [last.1] → ∃ st, es_streams s !! i = Some st ∧ st_role st = WtUniIn ∧ st_prefix_done st = true)
      by (intros i Hi; apply Hids; by right).
    intros _ s2 [(-> & -> & _)|(st' & Hs' & Hout & _ & Hnext)]; (eapply wp_mono; [apply (IH Hids')|]).
    + intros i Hi. apply Hne. by right.
    + done.
    + exact Hacc.
    + intros i Hi. apply Hsame. by right.
    + cbn. done.
    + intros i Hi. apply Hne. by right.
    + exact Hnext.
    + unfold echo_stream. rewrite Hnext, Hs', lookup_insert_eq. exact Hout.
    + intros i Hi. rewrite Hs', lookup_insert_ne by (symmetry; apply Hne; by right). apply Hsame. by right.
    + cbn. intros _ s3 (st3 & ? & Ho & ?). exists st3. rewrite Ho, <- !app_assoc. done.
Qed.
End echo.

Module Example.
#[local] Existing Instance literal_qpack.

Definition serving (streams : gmap N Stream) : Server ToyConn := mkServer toy_new streams true true 15 Echo false.

Lemma bidi_stream_echoed_witness :
  wp (process_all 4 [put_varint WT_BIDI_FRAME_TYPE; [x00; x68]] [x69]) (fun _ s' => ∃ st',
      stream_set 4 st' (serving {[4 := new_stream WtBidi]}) s' ∧ st_out st' = s2b "hi" ∧ st_out_off st' = 0%nat ∧
      st_fin_queued st' = true ∧ st_reset_queued st' = false)
    (serving {[4 := new_stream WtBidi]}).
Proof.
  apply (bidi_stream_echoed 4 WT_BIDI_FRAME_TYPE 0 (s2b "hi") _ _ (serving {[4 := new_stream WtBidi]}));
    vm_compute; reflexivity.
Defined.

(** Two incoming streams, their bytes interleaved. *)
Definition incoming : Stream := (new_stream WtUniIn) <| st_prefix_done := true |>.

Definition serving_uni : Server ToyConn := serving {[2 := incoming; 6 := incoming]}.

Lemma uni_streams_share_echo_witness :
  wp (process_chunks [(2, s2b "a"); (6, s2b "b"); (2, s2b "c")] (6, s2b "d")) (fun _ s' => ∃ st,
      es_streams s' !! 15 = Some st ∧ drop 3 (st_out st) = s2b "abcd" ∧
      st_fin_queued st = true ∧ es_next_server_uni s' = 19)
    serving_uni.
Proof.
  eapply wp_mono; [apply (uni_streams_share_echo [(2, s2b "a"); (6, s2b "b"); (2, s2b "c")] (6, s2b "d") serving_uni)|].
  - vm_compute. reflexivity.
  - intros id Hid. exists incoming. cbn in Hid. rewrite !elem_of_cons, elem_of_nil in Hid.
    destruct Hid as [->|[->|[->|[->|[]]]]]; by repeat split.
  - cbv beta. intros _ s' (st & H1 & H2 & H3 & H4). exists st. split; [exact H1|].
    split; [rewrite H2; vm_compute; reflexivity|]. split; [exact H3|exact H4].
Defined.
End Example.
