(* ===== verification/EchoInv.v ===== *)
(** * The echo server returns and sends in order ([crates/echo-server/src/main.rs])

    Every operation of the echo server returns; of every stream QUIC has
    accepted exactly the part of the queue that counts as sent; and between two
    wakes every route leads to a connection that is alive. *)

From S2P Require Import Prelude H3 Headers Net Quic EventLoop EchoServer EchoSpec.

(** What the server relies on besides [QuicWire]: the loop's operations put no
    stream bytes on the wire, and no stream is readable during the handshake. *)
Class EchoLaws C `{QuicWire C, QuicLoop C, QuicServer C} := {
  packet_accepted c data from id : accepted (conn_recv c data from).2 id = accepted c id;
  timeout_accepted c id : accepted (on_timeout c) id = accepted c id;
  conn_send_accepted c id : accepted (conn_send c).2 id = accepted c id;
  accept_fresh scid odcid local peer c id : accept scid odcid local peer = Some c → accepted c id = [];
  (** Sending a datagram does not bring one in. *)
  dgram_send_keeps_bound c d : (dgram_bound (dgram_send c d).2 <= dgram_bound c)%nat;
  readable_established c : is_established c = false → readable c = [];
  dgram_recv_established c len : is_established (dgram_recv c len).2 = is_established c;
  dgram_send_established c d : is_established (dgram_send c d).2 = is_established c;
}.

Section returns.
Context {C : Type} {quic : Quic C} {quic_laws : QuicLaws C} {wire : QuicWire C}.
Context {qloop : QuicLoop C} {qloop_laws : QuicLoopLaws C} {qserver : QuicServer C} {echo : EchoLaws C} {qpack : Qpack}.

(** QUIC has accepted of each stream what its queue counts as sent. *)
Definition in_order (s : Server C) : Prop :=
  (∀ id st, es_streams s !! id = Some st →
    (st_out_off st <= length (st_out st))%nat ∧ accepted (es_conn s) id = take (st_out_off st) (st_out st)) ∧
  (∀ id, es_streams s !! id = None → accepted (es_conn s) id = []).

(** What every operation after the handshake does: streams are never removed,
    and what is in order stays so. *)
Record keeps (s s' : Server C) : Prop := mkKeeps {
  keeps_dom : dom (es_streams s) ⊆ dom (es_streams s');
  keeps_setup : es_setup_done s' = es_setup_done s;
  keeps_order : in_order s → in_order s';
}.
#[local] Instance keeps_preorder : PreOrder keeps.
Proof.
  split; [by intros s|]. intros s1 s2 s3 [D1 S1 O1] [D2 S2 O2]. split; [by etrans|congruence|auto].
Qed.
Lemma keeps_in s s' id : keeps s s' → id ∈ dom (es_streams s) → id ∈ dom (es_streams s').
Proof. intros [H _ _]. set_solver. Qed.

(** The computation returns, and keeps all that. *)
Definition total {A} (m : M (Server C) A) (s : Server C) : Prop := wp m (fun _ s' => keeps s s') s.

Lemma total_ret {A} (a : A) s : total (mret a) s.
Proof. apply wp_ret. reflexivity. Qed.
Lemma total_then {A B} (m : M (Server C) A) (k : A → M (Server C) B) (P : A → Server C → Prop) s :
  wp m (fun a s' => keeps s s' ∧ P a s') s → (∀ a s', keeps s s' → P a s' → total (k a) s') → total (m ≫= k) s.
Proof.
  intros Hm Hk. apply wp_bind. eapply wp_mono; [exact Hm|]. cbv beta. intros a s' [Hs HP].
  eapply wp_mono; [by apply Hk|]. cbv beta. intros _ s2 H2. by etrans.
Qed.
Lemma total_bind {A B} (m : M (Server C) A) (k : A → M (Server C) B) s :
  total m s → (∀ a s', keeps s s' → total (k a) s') → total (m ≫= k) s.
Proof.
  intros Hm Hk. apply (total_then m k (fun _ _ => True)); [|auto]. eapply wp_mono; [exact Hm|]. by cbv beta.
Qed.
Lemma total_gets {A} (f : Server C → A) s : total (gets f) s.
Proof. apply wp_gets. reflexivity. Qed.
Lemma total_when b m s : (b = true → total m s) → total (when b m) s.
Proof. intros H. destruct b; [by apply H|by apply total_ret]. Qed.

(** Changing neither the streams nor the connection. *)
Lemma total_same f s :
  (∀ s, es_streams (f s) = es_streams s ∧ es_conn (f s) = es_conn s ∧ es_setup_done (f s) = es_setup_done s) →
  total (modify f) s.
Proof.
  intros H. destruct (H s) as (H1 & H2 & H3). apply wp_modify. split; [by rewrite H1|done|].
  unfold in_order. by rewrite H1, H2.
Qed.
(** An operation of QUIC that accepts no stream bytes. *)
Lemma conn_keeps s c : (∀ id, accepted c id = accepted (es_conn s) id) → keeps s (s <| es_conn := c |>).
Proof.
  intros H. split; [done..|]. intros [H1 H2]. split; intros id; cbn; rewrite H; [apply H1|apply H2].
Qed.
Lemma total_conn {A} (f : C → A * C) s : (∀ c id, accepted (f c).2 id = accepted c id) → total (conn_op f) s.
Proof.
  intros H. unfold total, wp, conn_op. specialize (H (es_conn s)). destruct (f (es_conn s)) as [a c].
  by apply conn_keeps.
Qed.

(** A change of one stream that at most appends to its queue. *)
Definition appends (f : Stream → Stream) : Prop :=
  ∀ st, st_out_off (f st) = st_out_off st ∧ st_out st `prefix_of` st_out (f st).
Lemma total_on_stream id f s : appends f → total (on_stream id f) s.
Proof.
  intros Hf. apply wp_modify. split; [cbn; rewrite dom_alter_L; reflexivity|done|]. intros [H1 H2]. split; cbn.
  - intros i st. rewrite lookup_alter. destruct (decide (id = i)) as [<-|]; [|apply H1].
    destruct (es_streams s !! id) as [st0|] eqn:E; [|done]. intros [= <-]. destruct (H1 id st0 E) as [Hl ->].
    destruct (Hf st0) as [-> [tail ->]]. split; [rewrite length_app; lia|]. by rewrite take_app_le.
  - intros i. rewrite lookup_alter. destruct (decide (id = i)) as [<-|]; [|apply H2].
    intros Hn. apply H2. by destruct (es_streams s !! id).
Qed.

#[local] Ltac appends_steps :=
  let st := fresh in intros st; split; repeat case_match; cbn; first [reflexivity|by apply prefix_app_r].

Lemma total_stream id s : id ∈ dom (es_streams s) → total (stream id) s.
Proof. intros [st Hst]%elem_of_dom. by apply (stream_wp id st). Qed.
Lemma total_or_insert id st s :
  st_out_off st = 0%nat → wp (or_insert id st) (fun _ s' => keeps s s' ∧ id ∈ dom (es_streams s')) s.
Proof.
  intros Hoff. apply wp_modify. destruct (es_streams s !! id) eqn:E.
  - assert (Hs : keeps s s) by reflexivity. destruct s. unfold upd. cbn in *. rewrite E. split; [done|by eapply elem_of_dom_2].
  - unfold upd. cbn. rewrite E. split; [|cbn; rewrite dom_insert_L; set_solver].
    split; [cbn; rewrite dom_insert_L; set_solver|done|]. intros [H1 H2]. split; cbn; intros i.
    + intros st'. rewrite lookup_insert. destruct (decide (id = i)) as [<-|]; [|apply H1].
      intros [= <-]. rewrite Hoff, take_0. split; [lia|by apply H2].
    + rewrite lookup_insert. destruct (decide (id = i)); [done|apply H2].
Qed.

(** ** Reading *)

#[local] Ltac total_step :=
  lazymatch goal with
  | |- total (mret _) _ => apply total_ret
  | |- total (mbind _ _) _ => apply total_bind; [|intros ? ? ?]
  | |- total (gets _) _ => apply total_gets
  | |- total (on_stream _ _) _ =>
      apply total_on_stream; appends_steps
  | |- total (stream _) _ => apply total_stream; eauto using keeps_in
  | |- total (when _ _) _ => apply total_when; intros ?
  | |- total (modify _) _ => apply total_same; done
  | |- total (match ?x with _ => _ end) _ => destruct x
  | |- total (let _ := _ in _) _ => cbv zeta
  end.
#[local] Ltac total_steps := repeat total_step.

Lemma strip_prefix_total id chunk s : id ∈ dom (es_streams s) → total (strip_prefix id chunk) s.
Proof. intros Hid. unfold strip_prefix. total_steps. Qed.

Lemma echo_uni_total data fin s : total (echo_uni data fin) s.
Proof.
  unfold echo_uni. apply total_bind; [apply total_gets|]. intros id s1 H1.
  eapply total_then; [by apply total_or_insert|]. cbv beta. intros _ s2 H2 Hid. total_steps.
Qed.

Lemma resolve_uni_total id chunk fin s : id ∈ dom (es_streams s) → total (resolve_uni id chunk fin) s.
Proof. intros Hid. unfold resolve_uni. total_steps. apply echo_uni_total. Qed.

Lemma next_frame_shrinks buf f rest : next_frame buf = Some (f, rest) → (length rest < length buf)%nat.
Proof.
  unfold next_frame. destruct (read_varint buf) as [[ty n1]|] eqn:E1; [|done]. cbn.
  destruct (read_varint (drop n1 buf)) as [[len n2]|]; [|done]. cbn. case_match; [done|].
  case_match eqn:El; [done|]. apply Nat.ltb_ge in El. intros [= _ <-].
  apply read_varint_bounds in E1 as (_ & ? & ?). rewrite length_drop. lia.
Qed.

(** Handling a frame leaves what is buffered of the stream alone. *)
Definition frames_of (id : N) (s : Server C) : bytes :=
  match es_streams s !! id with Some st => st_frames st | None => [] end.
Lemma on_stream_frames id f s :
  appends f → (∀ st, st_frames (f st) = st_frames st) →
  wp (on_stream id f) (fun _ s' => keeps s s' ∧ frames_of id s' = frames_of id s) s.
Proof.
  intros Ha Hf. apply wp_conj; [by apply total_on_stream|]. apply wp_modify.
  unfold frames_of. cbn. rewrite lookup_alter, decide_True by done. by destruct (es_streams s !! id); cbn.
Qed.
Lemma handle_frame_total id ty payload s :
  wp (handle_frame id ty payload) (fun _ s' => keeps s s' ∧ frames_of id s' = frames_of id s) s.
Proof.
  assert (Hset : ∀ b (m : M (Server C) ()), wp m (fun _ s' => keeps s s' ∧ frames_of id s' = frames_of id s) s →
    wp (m ≫= fun _ => modify (fun s : Server C => s <| es_connected := b |>))
      (fun _ s' => keeps s s' ∧ frames_of id s' = frames_of id s) s).
  { intros b m H. apply wp_bind. eapply wp_mono; [exact H|]. cbv beta. intros _ s1 [H1 Hf].
    eapply wp_mono; [apply wp_conj; [by apply total_same|by apply (wp_modify _ (fun _ s' => frames_of id s' = frames_of id s1))]|].
    cbv beta. intros _ s2 [H2 Hf2]. split; [by etrans|congruence]. }
  unfold handle_frame. destruct (negb _); [apply wp_ret; split; reflexivity|]. apply wp_bind, wp_gets.
  destruct (decide _); [|cbv zeta]; apply Hset.
  - apply on_stream_frames; [appends_steps|done].
  - destruct (encode_headers_frame _); [|apply wp_ret; split; reflexivity].
    apply on_stream_frames; [appends_steps|]. intros st. by destruct (_ && _).
Qed.

Lemma connect_frames_total fuel id s : (length (frames_of id s) < fuel)%nat → total (connect_frames fuel id) s.
Proof.
  revert s. induction fuel as [|fuel IH]; intros s Hf; [lia|]. cbn [connect_frames].
  apply wp_bind, wp_gets. unfold frames_of in Hf.
  destruct (es_streams s !! id) as [st|] eqn:Hst; cbn; [|by apply wp_ret].
  destruct (next_frame (st_frames st)) as [[[ty payload] rest]|] eqn:En; [|by apply wp_ret].
  apply next_frame_shrinks in En. apply (total_then _ _ (fun _ s1 => frames_of id s1 = rest)).
  { apply wp_conj; [apply total_on_stream; appends_steps|]. apply wp_modify.
    unfold frames_of. cbn. by rewrite lookup_alter, decide_True, Hst by done. }
  intros _ s1 H1 Hrest. eapply total_then; [apply handle_frame_total|]. cbv beta. intros _ s2 H2 Hr2.
  apply IH. rewrite Hr2, Hrest. lia.
Qed.

Lemma process_total id chunk fin s : total (process id chunk fin) s.
Proof.
  unfold process. apply wp_bind, wp_gets. destruct (es_streams s !! id) as [st|] eqn:Hst; cbn; [|by apply wp_ret].
  assert (Hid : id ∈ dom (es_streams s)) by (by eapply elem_of_dom_2).
  destruct (st_role st); try (by apply total_ret).
  - apply total_bind; [apply total_on_stream; appends_steps|]. intros _ s1 _. unfold handle_connect.
    apply wp_bind, wp_gets. apply connect_frames_total. unfold frames_of. destruct (es_streams s1 !! id); cbn; lia.
  - apply total_bind; [by apply strip_prefix_total|]. intros data s1 _. total_steps.
  - apply total_bind; [by apply strip_prefix_total|]. intros data s1 _. apply total_when. intros _. apply echo_uni_total.
  - by apply resolve_uni_total.
Qed.
Lemma read_loop_total fuel id chunk s : (recv_bound (es_conn s) id < fuel)%nat → total (read_loop fuel id chunk) s.
Proof.
  revert chunk s. induction fuel as [|fuel IH]; intros chunk s Hf; [lia|]. cbn [read_loop].
  apply (total_then _ _ (fun r s' => ∀ d fin, r = Ok (d, fin) → d ≠ [] → (recv_bound (es_conn s') id < fuel)%nat)).
  { apply wp_conj; [apply total_conn; intros; apply recv_accepted|]. unfold wp, conn_op.
    destruct (stream_recv (es_conn s) id READ_BUF) as [r c] eqn:E. cbn. intros d fin -> Hd.
    apply recv_progress in E; [lia|done]. }
  intros r s1 _ Hr. destruct r as [[d f]|e]; [|by apply total_ret]. destruct f; [by apply total_ret|].
  case_bool_decide; [by apply total_ret|]. apply IH. by eapply Hr.
Qed.

Lemma on_readable_total id s : total (on_readable id) s.
Proof.
  unfold on_readable. eapply total_then; [by apply total_or_insert|]. cbv beta. intros _ s1 _ _.
  apply wp_bind, wp_gets. apply total_bind; [apply read_loop_total; lia|]. intros [chunk fin] s2 _. apply process_total.
Qed.
Lemma read_all_total ids s : total (read_all ids) s.
Proof.
  revert s. induction ids as [|id ids IH]; intros s; cbn; [by apply wp_ret|].
  apply total_bind; [apply on_readable_total|]. intros. apply IH.
Qed.

(** ** Writing *)

Lemma send_refused_keeps id d fin e c s :
  stream_send (es_conn s) id d fin = (Err e, c) → keeps s (s <| es_conn := c |>).
Proof. intros H. apply conn_keeps. intros i. by eapply send_refuses. Qed.

(** What QUIC accepts of the rest of a queue counts as sent. *)
Lemma sent_keeps id st fin n c s :
  es_streams s !! id = Some st →
  stream_send (es_conn s) id (drop (st_out_off st) (st_out st)) fin = (Ok n, c) →
  keeps s (s <| es_conn := c |> <| es_streams ::= alter (fun st => st <| st_out_off ::= fun o => (o + n)%nat |>) id |>).
Proof.
  intros Hst E. split; [cbn; rewrite dom_alter_L; reflexivity|done|]. intros [H1 H2].
  pose proof (send_fits _ _ _ _ _ _ E) as Hn. rewrite length_drop in Hn. split; intros i; cbn; rewrite lookup_alter.
  - intros st'. rewrite (send_accepts _ _ _ _ _ _ E). destruct (decide (id = i)) as [<-|].
    + rewrite Hst. intros [= <-]. destruct (H1 id st Hst) as [Hl ->]. cbn. split; [lia|]. apply take_take_drop.
    + intros Hi. rewrite app_nil_r. by apply H1.
  - intros Hi. rewrite (send_accepts _ _ _ _ _ _ E). destruct (decide (id = i)) as [<-|]; [by rewrite Hst in Hi|].
    rewrite app_nil_r. by apply H2.
Qed.

Lemma send_loop_total fuel id st s :
  es_streams s !! id = Some st → (length (st_out st) - st_out_off st < fuel)%nat → total (send_loop fuel id) s.
Proof.
  revert st s. induction fuel as [|fuel IH]; intros st s Hst Hf; [lia|]. cbn [send_loop].
  apply wp_bind, (stream_wp id st); [done|]. destruct (st_out_off st <? length (st_out st))%nat eqn:Hlt; [|by apply wp_ret].
  apply Nat.ltb_lt in Hlt. cbn [negb]. cbv zeta. apply wp_bind. unfold wp at 1, conn_op.
  destruct (stream_send (es_conn s) id (drop (st_out_off st) (st_out st)) false) as [[n|e] c] eqn:E.
  2: { apply wp_ret. by eapply send_refused_keeps. }
  pose proof (sent_keeps _ _ _ _ _ _ Hst E) as Hk. apply wp_bind, wp_modify.
  match type of Hk with keeps _ ?s' => set (s1 := s') in Hk end. change (wp (if (n <? length (drop (st_out_off st) (st_out st)))%nat then mret () else send_loop fuel id) (fun _ s' => keeps s s') s1).
  rewrite length_drop. destruct (n <? _)%nat eqn:Hn; [by apply wp_ret|]. apply Nat.ltb_ge in Hn.
  eapply wp_mono; [apply (IH (st <| st_out_off ::= fun o => (o + n)%nat |>)); subst s1; cbn|].
  - rewrite lookup_alter, decide_True, Hst by done. done.
  - lia.
  - cbv beta. intros _ s2 H2. by etrans.
Qed.

Lemma flush_stream_total id s : id ∈ dom (es_streams s) → total (flush_stream id) s.
Proof.
  intros [st Hst]%elem_of_dom. unfold flush_stream. apply wp_bind, (stream_wp id st); [done|].
  apply total_bind; [apply (send_loop_total _ _ st); [done|lia]|]. intros _ s1 H1.
  assert (Hid : id ∈ dom (es_streams s1)) by (eapply keeps_in; [done|by eapply elem_of_dom_2]).
  apply total_bind; [by apply total_stream|]. intros st1 s2 _. destruct (_ && _).
  - apply total_bind; [apply total_conn; intros; apply shutdown_accepted|]. intros _ s3 _. total_steps.
  - destruct (_ && _); [|by apply total_ret]. apply total_bind; [|intros r s3 _; destruct r; total_steps].
    apply total_conn. intros c i. destruct (stream_send c id [] true) as [[n|e] c'] eqn:E; cbn.
    + rewrite (send_accepts _ _ _ _ _ _ E), take_nil. case_decide; apply app_nil_r.
    + by eapply send_refuses.
Qed.

Lemma flush_ids_total ids s : (∀ id, id ∈ ids → id ∈ dom (es_streams s)) → total (flush_ids ids) s.
Proof.
  revert s. induction ids as [|id ids IH]; intros s Hids; cbn; [by apply wp_ret|].
  apply total_bind; [apply flush_stream_total, Hids; set_solver|]. intros _ s1 H1. apply IH.
  intros i Hi. eapply keeps_in; [done|]. apply Hids. set_solver.
Qed.
Lemma flush_total order s : (∀ l, order l ≡ₚ l) → total (flush order) s.
Proof.
  intros Ho. apply wp_bind, wp_gets. apply flush_ids_total. intros id Hid. rewrite Ho in Hid.
  apply list_elem_of_fmap in Hid as ([i st] & -> & Hin%elem_of_map_to_list). by eapply elem_of_dom_2.
Qed.

Lemma adversary_total s : total adversary s.
Proof. unfold adversary. total_steps. Qed.
(** Echoing the datagrams ends, since none comes in meanwhile. *)
Lemma echo_datagrams_total fuel s :
  (dgram_bound (es_conn s) < fuel)%nat →
  wp (echo_datagrams fuel) (fun _ s' => keeps s s' ∧
    es_streams s' = es_streams s ∧ is_established (es_conn s') = is_established (es_conn s)) s.
Proof.
  revert s. induction fuel as [|fuel IH]; intros s Hf; [lia|]. cbn [echo_datagrams].
  apply wp_bind. unfold wp at 1, conn_op. pose proof (fun id => dgram_recv_accepted (es_conn s) DGRAM_BUF id) as Ha.
  pose proof (dgram_recv_established (es_conn s) DGRAM_BUF) as He.
  destruct (dgram_recv (es_conn s) DGRAM_BUF) as [[data|e] c] eqn:E; cbn [fst snd] in *.
  2: { apply wp_ret. split; [by apply conn_keeps|done]. }
  apply dgram_progress in E. apply wp_bind. unfold wp at 1, conn_op. cbn [es_conn upd].
  pose proof (fun id => dgram_send_accepted c data id) as Ha2. pose proof (dgram_send_established c data) as He2.
  pose proof (dgram_send_keeps_bound c data) as Hb. cbn. destruct (dgram_send c data) as [r c2]. cbn [fst snd] in *.
  eapply wp_mono; [apply IH; cbn; lia|]. cbv beta. cbn. intros _ s' (Hk & Hs & Hest).
  split; [|split; [done|congruence]]. etrans; [|exact Hk].
  apply (conn_keeps s c2). intros id. by rewrite Ha2, Ha.
Qed.

(** One round after the handshake's part. *)
Definition round (order : list N → list N) : M (Server C) () :=
  n ← gets (fun s : Server C => dgram_bound (es_conn s));
  _ ← echo_datagrams (S n);
  ids ← gets (fun s : Server C => readable (es_conn s));
  _ ← read_all ids;
  _ ← adversary;
  flush order.

Lemma round_total order s : (∀ l, order l ≡ₚ l) → total (round order) s.
Proof.
  intros Ho. unfold round. apply wp_bind, wp_gets. eapply total_then; [apply echo_datagrams_total; lia|].
  intros _ s1 _ _. apply wp_bind, wp_gets. apply total_bind; [apply read_all_total|]. intros _ s2 _.
  apply total_bind; [apply adversary_total|]. intros _ s3 _. by apply flush_total.
Qed.

(** During the handshake nothing is read, and no stream appears. *)
Lemma round_handshake order s :
  (∀ l, order l ≡ₚ l) → is_established (es_conn s) = false → es_streams s = ∅ →
  wp (round order) (fun _ s' => es_streams s' = ∅) s.
Proof.
  intros Ho He Hs. unfold round. apply wp_bind, wp_gets, wp_bind.
  eapply wp_mono; [apply echo_datagrams_total; lia|]. cbv beta. intros _ s1 (_ & Hs1 & He1).
  apply wp_bind, wp_gets. rewrite readable_established by congruence. apply wp_bind, wp_ret, wp_bind.
  apply (wp_mono _ (fun _ s' => es_streams s' = ∅)).
  - unfold adversary. apply wp_bind, wp_gets. destruct (_ || _); [apply wp_ret; congruence|].
    apply wp_bind, wp_gets. destruct (es_mode s1); try (apply wp_ret; congruence);
      apply wp_bind, wp_modify, wp_modify; cbn; rewrite Hs1, Hs; done.
  - intros _ s2 Hs2. unfold flush. apply wp_bind, wp_gets. rewrite Hs2, map_to_list_empty. cbn [map].
    rewrite (proj1 (Permutation_nil_r _) (Ho [])). by apply wp_ret.
Qed.

(** What holds of a connection between two wakes. *)
Definition client_ok (s : Server C) : Prop := in_order s ∧ (es_setup_done s = false → es_streams s = ∅).

Lemma keeps_client_ok s s' : keeps s s' → client_ok s → (es_setup_done s = false → es_streams s' = ∅) → client_ok s'.
Proof. intros [_ Hs Ho] [H1 H2] H. split; [auto|]. by rewrite Hs. Qed.

Lemma on_established_ok s :
  client_ok s → wp on_established (fun _ s' => client_ok s' ∧ es_setup_done s' = true) s.
Proof.
  intros [[H1 H2] H3]. unfold on_established. apply wp_bind, wp_gets.
  destruct (es_setup_done s) eqn:E; [apply wp_ret; split; [split; [by split|congruence]|done]|]. specialize (H3 eq_refl).
  apply wp_modify. split; [|done]. split; [|done]. rewrite H3 in H2. split; cbn; rewrite H3; intros id.
  - intros st Hst. rewrite H2 by apply lookup_empty. assert (st_out_off st = 0%nat) as ->; [|split; [lia|done]].
    rewrite !lookup_insert, lookup_empty in Hst. by repeat case_decide; simplify_eq/=.
  - intros _. by apply H2.
Qed.

Lemma drive_ok order s : (∀ l, order l ≡ₚ l) → client_ok s → wp (drive order) (fun _ s' => client_ok s') s.
Proof.
  intros Ho Hs. unfold drive. apply wp_bind, wp_gets, wp_bind. apply wp_when; intros He.
  - eapply wp_mono; [by apply on_established_ok|]. cbv beta. intros _ s1 [H1 Hd].
    eapply wp_mono; [by apply (round_total order)|]. cbv beta. intros _ s2 H2.
    apply (keeps_client_ok s1); [done..|]. by rewrite Hd.
  - destruct (es_setup_done s) eqn:Hd.
    + eapply wp_mono; [by apply (round_total order)|]. cbv beta. intros _ s2 H2.
      apply (keeps_client_ok s); [done..|]. by rewrite Hd.
    + eapply wp_mono; [apply wp_conj; [by apply (round_total order)|apply (round_handshake order); [done..|by apply Hs]]|].
      cbv beta. intros _ s2 [H2 H3]. by apply (keeps_client_ok s).
Qed.

(** ** The loop *)

Lemma conn_ok c s : (∀ id, accepted c id = accepted (es_conn s) id) → client_ok s → client_ok (s <| es_conn := c |>).
Proof. intros H Hs. apply (keeps_client_ok s); [by apply conn_keeps|done|apply Hs]. Qed.

Lemma send_all_ok fuel s :
  (send_bound_packets (es_conn s) < fuel)%nat → client_ok s → wp (send_all fuel) (fun _ s' => client_ok s') s.
Proof.
  revert s. induction fuel as [|fuel IH]; intros s Hf Hs; [lia|]. cbn [send_all]. apply wp_bind.
  unfold wp at 1, conn_op. pose proof (fun id => conn_send_accepted (es_conn s) id) as Ha.
  destruct (conn_send (es_conn s)) as [[p|e] c] eqn:E; cbn [snd] in Ha; [|by apply wp_ret, conn_ok].
  apply conn_send_progress in E. apply wp_bind. eapply wp_mono; [apply IH; [cbn; lia|by apply conn_ok]|].
  cbv beta. intros ps s' Hs'. by apply wp_ret.
Qed.

(** Every route leads to a connection. *)
Record loop_ok (l : Loop C) : Prop := mkLoopOk {
  routes_live : ∀ cid scid, lp_routing l !! cid = Some scid → is_Some (lp_clients l !! scid);
  clients_in_order : ∀ key s, lp_clients l !! key = Some s → client_ok s;
}.

Lemma set_client_ok key s l w :
  loop_ok l → client_ok s → loop_ok (l <| lp_clients ::= <[key := s]> |> <| lp_wire := w |>).
Proof.
  intros [H1 H2] Hs. split; cbn.
  - intros cid scid Hc. rewrite lookup_insert_is_Some'. right. by eapply H1.
  - intros k s'. rewrite lookup_insert. case_decide; [by intros [= <-]|apply H2].
Qed.
Lemma with_server_ok key m l :
  loop_ok l → (∀ s, client_ok s → wp m (fun _ s' => client_ok s') s) →
  wp (with_server key m) (fun _ l' => loop_ok l') l.
Proof.
  intros Hl Hm. unfold wp, with_server. destruct (lp_clients l !! key) as [s|] eqn:E; [|done].
  destruct (wp_elim m _ s (Hm s (clients_in_order l Hl _ _ E))) as (u & s' & -> & Hs').
  by apply (set_client_ok key s' l (lp_wire l)).
Qed.
Lemma send_client_ok key l : loop_ok l → wp (send_client key) (fun _ l' => loop_ok l') l.
Proof.
  intros Hl. unfold wp, send_client. destruct (lp_clients l !! key) as [s|] eqn:E; [|done].
  destruct (wp_elim (send_all (S (send_bound_packets (es_conn s)))) _ s (send_all_ok _ s (Nat.lt_succ_diag_r _) (clients_in_order l Hl _ _ E)))
    as (ps & s' & -> & Hs').
  by apply (set_client_ok key s' l).
Qed.
Lemma echo_drive_clients_ok keys order l :
  (∀ key l, order key l ≡ₚ l) → loop_ok l → wp (drive_clients keys order) (fun _ l' => loop_ok l') l.
Proof.
  intros Ho. revert l. induction keys as [|key keys IH]; intros l Hl; cbn [drive_clients]; [by apply wp_ret|].
  apply wp_bind. eapply wp_mono; [apply with_server_ok; [done|]; intros s Hs; by apply drive_ok|]. cbv beta.
  intros _ l1 H1. apply wp_bind. eapply wp_mono; [by apply send_client_ok|]. cbv beta. intros _ l2. apply IH.
Qed.
Lemma echo_receive_ok mode local data from random l :
  loop_ok l → wp (receive mode local data from random) (fun _ l' => loop_ok l') l.
Proof.
  intros Hl. unfold receive. destruct (parse_header data) as [hdr|]; [|by apply wp_ret].
  apply wp_bind, wp_gets, wp_bind. apply (wp_mono _ (fun _ l' => loop_ok l')).
  2: { intros [scid|] l1 H1; [|by apply wp_ret]. apply with_server_ok; [done|]. intros s Hs.
    unfold wp, conn_op. apply conn_ok; [|done]. intros id. apply packet_accepted. }
  destruct (lp_routing l !! hd_dcid hdr); [by apply wp_ret|]. destruct (negb _); [by apply wp_ret|].
  destruct (accept random None local from) as [c|] eqn:Ea; [|by apply wp_ret].
  apply wp_bind, wp_modify, wp_ret. destruct Hl as [H1 H2]. split; cbn.
  - intros cid scid Hc. rewrite lookup_insert_is_Some'. rewrite !lookup_insert in Hc.
    repeat case_decide; simplify_eq; eauto.
  - intros key s. rewrite lookup_insert. case_decide; [|apply H2]. intros [= <-]. split; [|done].
    split; cbn; [done|]. intros id _. by eapply accept_fresh.
Qed.
Lemma echo_receive_packets_ok mode local packets l :
  loop_ok l → wp (receive_packets mode local packets) (fun _ l' => loop_ok l') l.
Proof.
  revert l. induction packets as [|[[data from|message] random] packets IH]; intros l Hl; cbn [receive_packets];
    try (by apply wp_ret). apply wp_bind. eapply wp_mono; [by apply echo_receive_ok|]. cbv beta. intros _ l1. apply IH.
Qed.

Lemma fire_timeouts_ok due l : loop_ok l → wp (fire_timeouts due) (fun _ l' => loop_ok l') l.
Proof.
  intros [H1 H2]. apply wp_modify. split; cbn.
  - intros cid scid Hc. rewrite lookup_fmap, fmap_is_Some. by eapply H1.
  - intros key s. rewrite lookup_fmap. intros (s0 & Hs0 & ->)%fmap_Some. apply H2 in Hs0.
    destruct (due _); [|done]. apply conn_ok; [|done]. intros id. apply timeout_accepted.
Qed.

(** No client of the table has a closed connection. *)
Definition all_open (l : Loop C) : Prop :=
  ∀ key s, lp_clients l !! key = Some s → conn_is_closed (es_conn s) = false.

Lemma reap_ok l : loop_ok l → wp reap (fun _ l' => loop_ok l' ∧ all_open l') l.
Proof.
  intros [H1 H2]. apply wp_modify. split; [split|]; cbn.
  - by intros cid scid [_ H]%map_lookup_filter_Some.
  - intros key s [H _]%map_lookup_filter_Some. by eapply H2.
  - by intros key s [_ H]%map_lookup_filter_Some.
Qed.

Lemma iteration_ok mode local due wk l :
  (∀ key l, ew_stream_order wk key l ≡ₚ l) → loop_ok l →
  wp (iteration mode local due wk) (fun _ l' => loop_ok l' ∧ all_open l') l.
Proof.
  intros Ho Hl. unfold iteration. apply wp_bind. eapply wp_mono; [by apply echo_receive_packets_ok|]. cbv beta.
  intros _ l1 H1. apply wp_bind. eapply wp_mono; [by apply fire_timeouts_ok|]. cbv beta. intros _ l2 H2.
  apply wp_bind, wp_gets, wp_bind. eapply wp_mono; [by apply echo_drive_clients_ok|]. cbv beta. intros _ l3. apply reap_ok.
Qed.

(** C38: the echo server's loop never gets stuck, and never sends out of order.
    Whatever packets and timeouts its wakes bring and in whatever order the
    hash maps are walked, every wake runs to its end: no [unwrap] of a missing
    stream, no read, send or echo loop that does not stop.  Afterwards every
    connection id routes to a client that is there, no client has a closed
    connection, and QUIC has accepted of each stream of each client exactly the
    prefix of its queue that counts as sent. *)
Theorem echo_server_runs (mode : Mode) (local : SocketAddr) (due : C → bool) (wakes : list EchoWake) :
  Forall (fun wk => ∀ key l, ew_stream_order wk key l ≡ₚ l) wakes →
  wp (run mode local due wakes) (fun _ l =>
    (∀ cid scid, lp_routing l !! cid = Some scid → is_Some (lp_clients l !! scid)) ∧
    (∀ key s, lp_clients l !! key = Some s → conn_is_closed (es_conn s) = false ∧
      ∀ id, accepted (es_conn s) id =
        match es_streams s !! id with Some st => take (st_out_off st) (st_out st) | None => [] end))
    (mkLoop ∅ ∅ []).
Proof.
  intros Ho.
  assert (H : ∀ l, loop_ok l → all_open l → wp (run mode local due wakes) (fun _ l' => loop_ok l' ∧ all_open l') l).
  { induction Ho as [|wk wakes Hwk Ho IH]; intros l Hl Hc; cbn [run]; [by apply wp_ret|].
    apply wp_bind. eapply wp_mono; [by apply iteration_ok|]. cbv beta. intros _ l1 [H1 H2]. by apply IH. }
  eapply wp_mono; [apply H; [split|]; cbn; by intros|]. cbv beta. intros _ l [[H1 H2] H3]. split; [done|].
  intros key s Hs. split; [by eapply H3|]. intros id. destruct (H2 key s Hs) as [[Hs1 Hs2] _].
  destruct (es_streams s !! id) as [st|] eqn:E; [by apply Hs1|by apply Hs2].
Qed.
End returns.

#[export] Instance toy_echo : EchoLaws ToyConn.
Proof.
  constructor; try done.
  - intros c [|i data] from id; done.
  - intros scid odcid local peer c id [= <-]. cbn. by rewrite lookup_empty.
Qed.

Module Example.
#[local] Existing Instance literal_qpack.

Definition peer : SocketAddr := mkSocketAddr (V4 x7f x00 x00 x01) 50000.
Definition local : SocketAddr := mkSocketAddr (V4 x7f x00 x00 x01) 4433.
(** A client arrives, then sends the bytes of a bidirectional stream. *)
Definition wake (packets : list bytes) : EchoWake :=
  mkEchoWake (map (fun p => (Datagram p peer, [x09])) packets) (fun l => l) (fun _ l => l).
Definition wakes : list EchoWake :=
  [wake [[xff]]; wake [x04 :: put_varint WT_BIDI_FRAME_TYPE ++ [x00; x68]; [x07; x00]]].

Definition final : option (() * Loop ToyConn) := run Echo local (fun _ => false) wakes (mkLoop ∅ ∅ []).

Lemma echo_server_runs_witness :
  (s ← (final ≫= fun r => lp_clients r.2 !! [x09]); Some (accepted (es_conn s) 4)) = Some [x68] ∧
  ∃ l, final = Some ((), l) ∧ ∀ cid scid, lp_routing l !! cid = Some scid → is_Some (lp_clients l !! scid).
Proof.
  split; [vm_compute; reflexivity|].
  destruct (wp_elim _ _ _ (echo_server_runs (C := ToyConn) Echo local (fun _ => false) wakes
    ltac:(repeat constructor; by cbn))) as ([] & l & E & H & _).
  exists l. split; [exact E|exact H].
Defined.
End Example.
