(* ===== verification/Driver.v ===== *)
(** * The client's event loop ([crates/native/src/driver.rs])

    One thread owns a socket, a QUIC connection and a client session.  Each wake
    reads packets, applies the application's commands, drives the session, sends
    what is queued and emits the events of the round as one batch. *)

From S2P Require Import Prelude H3 ParserMemory FrameParser Headers Net Quic SessionState.
From S2P Require Import SessionRecv SessionConnect SessionStreams SessionSend SessionInv.
From S2P Require Import SessionRecvInv SessionSendInv Session EventLoop RetryToken.

Definition MAX_INFLIGHT_BATCHES : Z := 128.

(** What the application reads synchronously; [inflight] is an input of each
    wake, since only the application's thread and the sink change it. *)
Record DriverShared := mkDriverShared {
  sh_max_datagram_size : N;
  sh_ready : bool;
  sh_closed : bool;
}.
#[export] Instance DriverShared_eta : Eta DriverShared := fun s =>
  mkDriverShared (sh_max_datagram_size s) (sh_ready s) (sh_closed s).
Definition shared_new : DriverShared := mkDriverShared 0 false false.

Inductive Command :=
  | OpenStream (request_id : N) (bidi : bool)
  | Write (id : N) (data : bytes) (request_id : N)
  | Fin (id : N)
  | ResetStream (id code : N)
  | StopSending (id code : N)
  | SetPaused (id : N) (paused : bool)
  | SendDatagram (data : bytes) (request_id : N)
  | Close (code : N) (reason : bytes)
  | Drain
  | GetStats (request_id : N)
  | ExportKeyingMaterial (request_id : N) (label context : bytes) (length : N)
  | Shutdown.

(** How [poll] returned. *)
Inductive Polled := Ready | Interrupted | PollFailed (message : rstring).

(** The environment's part of one wake. *)
Record Wake := mkWake {
  wk_poll : Polled;
  wk_no_events : bool;
  wk_packets : list SocketRecv;
  wk_commands : list Command;
  wk_inflight : Z;
  wk_order : list N → list N;
  wk_sends : list SocketSend;
}.

(** The loop's variables, what it has emitted to the sink and sent. *)
Record Driver {C : Type} := mkDriver {
  dr_world : World C;
  dr_shared : DriverShared;
  dr_batches : list (list Ev);
  dr_wire : list (bytes * SocketAddr);
}.
Arguments Driver : clear implicits.
Arguments mkDriver {C}.
#[export] Instance Driver_eta C : Eta (Driver C) := fun d =>
  mkDriver (dr_world d) (dr_shared d) (dr_batches d) (dr_wire d).

Section driver.
Context {C : Type} {quic : Quic C} {qloop : QuicLoop C} {alloc : Allocator} {qpack : Qpack} {sfv : Sfv}.

(** A session method, and an emission. *)
Definition in_world {A} (m : M (World C) A) : M (Driver C) A := fun d =>
  match m (dr_world d) with
  | Some (a, w) => Some (a, d <| dr_world := w |>)
  | None => None
  end.
Definition emit (evs : list Ev) : M (Driver C) () := modify (fun d => d <| dr_batches ::= fun l => l ++ [evs] |>).
Definition emit_events : M (Driver C) () :=
  evs ← gets (fun d => w_ev (dr_world d));
  when (negb (bool_decide (evs = []))) (emit evs).
Definition share (f : DriverShared → DriverShared) : M (Driver C) () := modify (fun d => d <| dr_shared ::= f |>).
Definition send_packets (sends : list SocketSend) : M (Driver C) () := fun d =>
  match flush_send true sends (w_conn (dr_world d)) with
  | Some (ps, c) => Some ((), d <| dr_world ::= fun w => w <| w_conn := c |> |> <| dr_wire ::= fun l => l ++ ps |>)
  | None => None
  end.

(** Read what the socket has: whether there was a packet. *)
Fixpoint recv_packets (l : list SocketRecv) : M (World C) bool :=
  match l with
  | [] => mret false
  | Datagram [] _ :: l => recv_packets l
  | Datagram data from :: l =>
      r ← conn (fun c => conn_recv c data from);
      _ ← match r with
          | Ok _ | Err Done => mret ()
          | Err e => push_ev (EvError (s2b "quic recv: " ++ debug_error e))
          end;
      _ ← recv_packets l;
      mret true
  | RecvFailed message :: _ =>
      _ ← push_ev (EvError (s2b "socket recv: " ++ message));
      mret false
  end.

(** [true]: shut down. *)
Definition apply_command (cmd : Command) : M (World C) bool :=
  match cmd with
  | OpenStream request_id bidi => _ ← open_stream bidi request_id; mret false
  | Write id data request_id => _ ← stream_write id data request_id; mret false
  | Fin id => _ ← stream_fin id; mret false
  | ResetStream id code => _ ← stream_reset id code; mret false
  | StopSending id code => _ ← stream_stop_sending id code; mret false
  | SetPaused id paused => _ ← set_paused id paused; mret false
  | SendDatagram data request_id => _ ← send_datagram data request_id; mret false
  | Close code reason => _ ← close code reason; mret false
  | Drain => _ ← send_drain; mret false
  | GetStats request_id =>
      e ← gets (fun w => build_stats (w_conn w) request_id);
      _ ← push_ev e; mret false
  | ExportKeyingMaterial request_id label context length =>
      e ← conn (build_keying_material request_id label context length);
      _ ← push_ev e; mret false
  | Shutdown => mret true
  end.
Fixpoint drain_commands (cmds : list Command) : M (World C) bool :=
  match cmds with
  | [] => mret false
  | cmd :: cmds =>
      shutdown ← apply_command cmd;
      if (shutdown : bool) then mret true else drain_commands cmds
  end.

(** One wake: whether the loop goes on. *)
Definition iteration (wk : Wake) : M (Driver C) bool :=
  match wk_poll wk with
  | Interrupted => mret true
  | PollFailed message => _ ← emit [EvError (s2b "poll error: " ++ message)]; mret false
  | Ready =>
      _ ← in_world (modify (fun w => w <| w_ev := [] |>));
      got_packet ← in_world (recv_packets (wk_packets wk));
      _ ← when (negb got_packet && wk_no_events wk) (in_world (conn_ on_timeout));
      shutdown ← in_world (drain_commands (wk_commands wk));
      if (shutdown : bool) then
        _ ← in_world (conn_ (fun c => conn_close c true 0 []));
        _ ← send_packets (wk_sends wk);
        mret false
      else
        let backpressured := (MAX_INFLIGHT_BATCHES <=? wk_inflight wk)%Z in
        _ ← in_world (drive backpressured (wk_order wk));
        _ ← send_packets (wk_sends wk);
        size ← gets (fun d => max_datagram_size (w_conn (dr_world d)));
        ready ← gets (fun d => ws_ready (w_ses (dr_world d)));
        _ ← share (fun s => s <| sh_max_datagram_size := size |> <| sh_ready := ready |>);
        closed ← gets (fun d => conn_is_closed (w_conn (dr_world d)));
        if (closed : bool) then
          _ ← in_world report_closure;
          _ ← share (fun s => s <| sh_closed := true |>);
          _ ← emit_events;
          mret false
        else
          _ ← emit_events;
          mret true
  end.

(** The loop over the wakes the environment provides. *)
Fixpoint event_loop (wakes : list Wake) : M (Driver C) bool :=
  match wakes with
  | [] => mret true
  | wk :: wakes =>
      go_on ← iteration wk;
      if (go_on : bool) then event_loop wakes else mret false
  end.

(** The panic boundary of [run]: what the thread does when the code above
    panics. *)
Definition run_panicked (p : PanicPayload) : M (Driver C) () :=
  _ ← share (fun s => s <| sh_closed := true |>);
  emit [EvError (s2b "rwebtransport internal driver error: " ++ panic_message p);
        EvClosed 0 (s2b "driver panic") false].

(** [registered] is [Err] with a message when the socket cannot be registered;
    [sends] answers the first Initial. *)
Definition run_inner (registered : result rstring ()) (sends : list SocketSend) (wakes : list Wake)
    : M (Driver C) bool :=
  match registered with
  | Err e => _ ← emit [EvError (s2b "failed to register socket: " ++ e)]; mret false
  | Ok _ => _ ← send_packets sends; event_loop wakes
  end.
End driver.

(** ** Setup

    What the resolver, the socket, the TLS configuration, the generator of
    random bytes, the clock and QUIC answer. *)

(** Any local address of the peer's family. *)
Definition bind_for (peer : SocketAddr) : SocketAddr :=
  mkSocketAddr (match sa_ip peer with V4 _ _ _ _ => V4 x00 x00 x00 x00 | V6 _ => V6 (replicate 8 0) end) 0.

Record Setup (C : Type) := mkSetup {
  su_host : rstring;
  su_port : N;
  su_authority : rstring;
  su_path : rstring;
  su_origin : option rstring;
  su_extra_headers : list (rstring * rstring);
  su_protocols : list rstring;
  su_resolved : option SocketAddr;
  su_bound : SocketAddr → result rstring ();
  su_local_addr : result rstring SocketAddr;
  su_config : result rstring ();
  su_random : option bytes;
  su_clock : option N;
  (** [quiche::connect] with a connection id, from a local address to the peer. *)
  su_connect : bytes → SocketAddr → SocketAddr → result rstring C;
}.
Arguments su_host {C}.
Arguments su_port {C}.
Arguments su_authority {C}.
Arguments su_path {C}.
Arguments su_origin {C}.
Arguments su_extra_headers {C}.
Arguments su_protocols {C}.
Arguments su_resolved {C}.
Arguments su_bound {C}.
Arguments su_local_addr {C}.
Arguments su_config {C}.
Arguments su_random {C}.
Arguments su_clock {C}.
Arguments su_connect {C}.

(** A thread that ends before its session exists: what it shares and emits. *)
Definition emit_fatal (message : rstring) : DriverShared * list (list Ev) :=
  (shared_new <| sh_closed := true |>, [[EvError message; EvClosed 0 (s2b "setup failed") false]]).

(** [Err]: what the application is told of a failed setup; [Ok]: the event
    loop's initial state. *)
Definition setup_and_run {C} (s : Setup C) : result (DriverShared * list (list Ev)) (Driver C) :=
  match su_resolved s with
  | None => Err (emit_fatal (s2b "failed to resolve " ++ su_host s ++ s2b ":" ++ dec (su_port s)))
  | Some peer =>
      match su_bound s (bind_for peer) with
      | Err e => Err (emit_fatal (s2b "failed to bind UDP socket: " ++ e))
      | Ok _ =>
          match su_local_addr s with
          | Err e => Err (emit_fatal (s2b "failed to read local addr: " ++ e))
          | Ok local_addr =>
              match su_config s with
              | Err e => Err (emit_fatal e)
              | Ok _ =>
                  match su_connect s (random_scid (su_random s) (su_clock s)) local_addr peer with
                  | Err e => Err (emit_fatal (s2b "quiche connect: " ++ e))
                  | Ok c =>
                      let '(session, u) := new_client (su_authority s) (su_path s) (su_origin s)
                        (su_extra_headers s) (su_protocols s) ∅ in
                      Ok (mkDriver (mkWorld session c u []) shared_new [] [])
                  end
              end
          end
      end
  end.

(** ** What the application sees of a client *)

Section events.
Context {C : Type} {quic : Quic C} {quic_laws : QuicLaws C} {qloop : QuicLoop C} {qloop_laws : QuicLoopLaws C}.
Context {alloc : Allocator} {alloc_laws : AllocatorLaws} {qpack : Qpack} {sfv : Sfv}.

(** A client session's memory is a root of its own. *)
Definition limits (_ : N) : N := MAX_SESSION_PARSER_MEMORY.
Lemma client_limits_usize i : limits i < U64.
Proof. done. Qed.

Section round.
Context {hist : History}.

Lemma recv_packets_inv l (w : World C) :
  inv limits [] w → wp (recv_packets l) (fun _ w' => inv limits [] w') w.
Proof.
  revert w. induction l as [|[[|b data] from|message] l IH]; intros w Hw; cbn [recv_packets];
    [by apply wp_ret|by apply IH| |].
  - apply wp_bind. eapply wp_mono; [by apply conn_inv|]. cbv beta. intros r w1 Hw1.
    apply wp_bind. apply (wp_mono _ (fun _ w' => inv limits [] w')).
    { destruct r as [[]|[]]; try (by apply wp_ret); by apply push_always_inv. }
    intros _ w2 Hw2. apply wp_bind. eapply wp_mono; [by apply IH|]. cbv beta. intros _ w3 Hw3.
    by apply wp_ret.
  - apply wp_bind. eapply wp_mono; [by apply push_always_inv|]. cbv beta. intros _ w1 Hw1. by apply wp_ret.
Qed.

Lemma apply_command_inv cmd (w : World C) :
  inv limits [] w → wp (apply_command cmd) (fun _ w' => inv limits [] w') w.
Proof.
  intros Hw. assert (Hop : ∀ o, wp (_ ← run_op o; mret false) (fun (_ : bool) w' => inv limits [] w') w).
  { intros o. apply wp_bind. eapply wp_mono; [by apply (run_op_inv limits client_limits_usize o)|].
    cbv beta. intros _ w' Hw'. by apply wp_ret. }
  destruct cmd; cbn [apply_command]; [apply (Hop (OpOpenStream bidi request_id))|
    apply (Hop (OpWrite id data request_id))|apply (Hop (OpFin id))|apply (Hop (OpReset id code))|
    apply (Hop (OpStopSending id code))|apply (Hop (OpSetPaused id paused))|
    apply (Hop (OpSendDatagram data request_id))|apply (Hop (OpClose code reason))|apply (Hop OpDrain)| | |].
  - apply wp_bind, wp_gets, wp_bind. eapply wp_mono; [apply push_always_inv; [|exact Hw]|].
    + unfold build_stats. by destruct (path_stats _).
    + cbv beta. intros _ w' Hw'. by apply wp_ret.
  - apply wp_bind, wp_conn, wp_bind. eapply wp_mono; [apply push_always_inv; [|by apply set_conn_inv]|].
    + unfold build_keying_material. by repeat case_match.
    + cbv beta. intros _ w' Hw'. by apply wp_ret.
  - by apply wp_ret.
Qed.

Lemma drain_commands_inv cmds (w : World C) :
  inv limits [] w → wp (drain_commands cmds) (fun _ w' => inv limits [] w') w.
Proof.
  revert w. induction cmds as [|cmd cmds IH]; intros w Hw; cbn [drain_commands]; [by apply wp_ret|].
  apply wp_bind. eapply wp_mono; [by apply apply_command_inv|]. cbv beta.
  intros [] w' Hw'; [by apply wp_ret|by apply IH].
Qed.
End round.

Lemma in_world_wp {A} (m : M (World C) A) (Q : A → Driver C → Prop) d :
  wp m (fun a w => Q a (d <| dr_world := w |>)) (dr_world d) → wp (in_world m) Q d.
Proof. unfold wp, in_world. by destruct (m (dr_world d)) as [[a w]|]. Qed.

Lemma send_packets_wp sends (Q : () → Driver C → Prop) d :
  (∀ c ps, Q () (d <| dr_world ::= fun w => w <| w_conn := c |> |> <| dr_wire ::= fun l => l ++ ps |>)) →
  wp (send_packets sends) Q d.
Proof.
  intros HQ. unfold wp, send_packets.
  destruct (flush_send_returns true sends (w_conn (dr_world d))) as (ps & c & ->). apply HQ.
Qed.

(** Between wakes: the session's invariant, with everything emitted behind
    it. *)
Definition running (d : Driver C) : Prop :=
  inv (hist := concat (dr_batches d)) limits [] ((dr_world d) <| w_ev := [] |>) ∧
  Forall (fun b => b ≠ []) (dr_batches d) ∧ sh_closed (dr_shared d) = false.

(** What a wake leaves: the loop goes on, or has ended. *)
Definition emitted_ok (d : Driver C) : Prop :=
  (∃ l, lifecycle (concat (dr_batches d)) = Some l) ∧ Forall (fun b => b ≠ []) (dr_batches d) ∧
  (sh_closed (dr_shared d) = true → countb is_closed_ev (concat (dr_batches d)) = 1%nat).

Lemma running_ok d : running d → emitted_ok d.
Proof.
  intros ([] & Hb & Hs). split; [|split; [done|congruence]].
  exists (life_of (w_ses (dr_world d))). cbn in inv_life. unfold history in inv_life.
  by rewrite app_nil_r in inv_life.
Qed.

(** Emitting the events of a round. *)
Lemma emit_events_wp (Q : () → Driver C → Prop) d :
  (∀ bs, concat bs = concat (dr_batches d) ++ w_ev (dr_world d) →
     (Forall (fun b => b ≠ []) (dr_batches d) → Forall (fun b => b ≠ []) bs) →
     grown (dr_batches d) bs → Q () (d <| dr_batches := bs |>)) →
  wp emit_events Q d.
Proof.
  intros HQ. unfold emit_events. apply wp_bind, wp_gets. case_bool_decide as He; cbn [negb when].
  - apply wp_ret. specialize (HQ (dr_batches d)). rewrite He, app_nil_r in HQ.
    destruct d. apply HQ; [done|auto|by apply grown_same].
  - apply wp_modify. apply HQ; [by rewrite concat_app, concat_cons, app_nil_r| |by eexists].
    intros H. apply Forall_app. split; [done|by repeat constructor].
Qed.

(** The session's invariant speaks of what was reported before a round and in
    it. *)
Lemma inv_reported before (w : World C) :
  inv (hist := before) limits [] w → inv (hist := before ++ w_ev w) limits [] (w <| w_ev := [] |>).
Proof. intros []. constructor; try done. cbn. unfold history in *. by rewrite app_nil_r. Qed.

(** A failing poll: the last batch is the error. *)
Lemma poll_error_ok message d :
  running d → emitted_ok (d <| dr_batches ::= fun l => l ++ [[EvError (s2b "poll error: " ++ message)]] |>).
Proof.
  intros (Hi & Hb & Hs). destruct Hi. split; [|split; [|cbn; congruence]].
  - exists (life_of (w_ses (dr_world d))). cbn. rewrite concat_app.
    cbn in inv_life. unfold history in inv_life. rewrite app_nil_r in inv_life.
    change (concat (dr_batches d) ++ concat [[EvError (s2b "poll error: " ++ message)]]) with
      (concat (dr_batches d) ++ [EvError (s2b "poll error: " ++ message)]).
    pose proof (lifecycle_snoc (concat (dr_batches d)) [] (EvError (s2b "poll error: " ++ message))
      (life_of (w_ses (dr_world d))) (life_of (w_ses (dr_world d)))) as H.
    rewrite app_nil_r in H. by apply H.
  - cbn. apply Forall_app. split; [done|by repeat constructor].
Qed.

(** Were a wake to panic before the session has closed, the boundary would still
    give the application exactly one [Closed]. *)
Lemma run_panicked_ok p d :
  running d → ws_closed (w_ses (dr_world d)) = false → wp (run_panicked p) (fun _ d' => emitted_ok d') d.
Proof.
  intros (Hi & Hb & Hs) Hopen. apply wp_bind, wp_modify, wp_modify. destruct Hi.
  set (evs := [EvError _; EvClosed _ _ _]).
  cbn in inv_life. unfold history in inv_life. rewrite app_nil_r in inv_life.
  assert (Hlife : ∃ l, lifecycle (concat (dr_batches d) ++ evs) = Some l ∧ l_closed l = true).
  { unfold lifecycle in *. rewrite foldl_app, inv_life. cbn. unfold life_of in *. cbn in *. rewrite Hopen.
    eexists. split; reflexivity. }
  destruct Hlife as (l & Hl & Hc).
  split; [|split]; cbn; rewrite ?concat_app; cbn [concat]; rewrite ?app_nil_r.
  - by exists l.
  - apply Forall_app. split; [done|by repeat constructor].
  - intros _. apply lifecycle_counts in Hl as (Hl & _). by rewrite Hc in Hl.
Qed.

Lemma client_wake_ok wk d :
  running d → wp (iteration wk) (fun (go : bool) d' => (if go then running d' else emitted_ok d') ∧ grown (dr_batches d) (dr_batches d')) d.
Proof.
  intros Hd. unfold iteration. destruct (wk_poll wk) as [| |message]; [|apply wp_ret; split; [done|by apply grown_same]|].
  2: { apply wp_bind, wp_modify, wp_ret. split; [by apply poll_error_ok|by eexists]. }
  destruct Hd as (Hi & Hb & Hs). set (before := concat (dr_batches d)) in *.
  apply wp_bind, in_world_wp, wp_modify.
  apply wp_bind, in_world_wp. eapply wp_mono; [by apply (recv_packets_inv (hist := before))|]. cbv beta.
  intros got w1 Hw1. apply wp_bind.
  apply (wp_mono _ (fun _ d' => ∃ w2, inv (hist := before) limits [] w2 ∧ d' = d <| dr_world := w2 |>)).
  { apply wp_when; intros _; [|by exists w1]. apply in_world_wp, wp_modify. eexists. split; [|done].
    by apply set_conn_inv. }
  intros _ d2 (w2 & Hw2 & ->). apply wp_bind, in_world_wp.
  eapply wp_mono; [by apply (drain_commands_inv (hist := before))|]. cbv beta. intros shutdown w3 Hw3.
  destruct shutdown.
  { apply wp_bind, in_world_wp, wp_modify, wp_bind, send_packets_wp. intros c ps. apply wp_ret.
    split; [|by apply grown_same]. destruct Hi. split; [|split; [done|cbn; congruence]].
    exists (life_of (w_ses (dr_world d))). cbn in inv_life. unfold history in inv_life.
    by rewrite app_nil_r in inv_life. }
  cbv zeta. apply wp_bind, in_world_wp.
  eapply wp_mono; [by apply (drive_inv (hist := before) limits client_limits_usize)|]. cbv beta. intros _ w4 Hw4.
  apply wp_bind, send_packets_wp. intros c ps.
  apply wp_bind, wp_gets, wp_bind, wp_gets, wp_bind, wp_modify, wp_bind, wp_gets.
  match goal with |- wp _ _ ?d' => set (d5 := d') end.
  assert (Hw5 : inv (hist := before) limits [] (dr_world d5)) by (by apply set_conn_inv).
  destruct (conn_is_closed _).
  - apply wp_bind, in_world_wp.
    eapply wp_mono; [by apply (report_closure_inv (hist := before) limits client_limits_usize)|]. cbv beta.
    intros _ w6 [Hw6 Hc6]. apply wp_bind, wp_modify, wp_bind, emit_events_wp.
    intros bs Hbs Hne Hg. apply wp_ret. split; [|exact Hg]. destruct Hw6. cbn in Hbs. fold before in Hbs.
    unfold history in inv_life. rewrite <- Hbs in inv_life.
    split; [by eexists|]. split; [by apply Hne|]. intros _.
    destruct (lifecycle_counts _ _ inv_life) as (Hcount & _).
    unfold life_of in Hcount. cbn [l_closed] in Hcount. by rewrite Hc6 in Hcount.
  - apply wp_bind, emit_events_wp. intros bs Hbs Hne Hg. apply wp_ret. split; [|exact Hg]. apply inv_reported in Hw5.
    cbn in Hbs. fold before in Hbs. split; [|split; [by apply Hne|done]].
    change (dr_batches (d5 <| dr_batches := bs |>)) with bs. rewrite Hbs. exact Hw5.
Qed.

Lemma client_loop_ok wakes d :
  running d → wp (event_loop wakes) (fun _ d' => emitted_ok d') d.
Proof.
  revert d. induction wakes as [|wk wakes IH]; intros d Hd; cbn [event_loop].
  - apply wp_ret. by apply running_ok.
  - apply wp_bind. eapply wp_mono; [by apply client_wake_ok|]. cbv beta.
    intros [] d' [Hd' _]; [by apply IH|by apply wp_ret].
Qed.

(** A failing poll ends the loop with one batch, the error, and leaves the
    published state as it was. *)
Lemma poll_failure_reports_no_close (m : rstring) wk (d : Driver C) :
  iteration (mkWake (PollFailed m) (wk_no_events wk) (wk_packets wk) (wk_commands wk) (wk_inflight wk)
    (wk_order wk) (wk_sends wk)) d =
    Some (false, d <| dr_batches ::= fun l => l ++ [[EvError (s2b "poll error: " ++ m)]] |>).
Proof. reflexivity. Qed.

(** Before the loop nothing has been emitted or published. *)
Lemma setup_fresh (s : Setup C) (d : Driver C) :
  setup_and_run s = Ok d → dr_batches d = [] ∧ sh_closed (dr_shared d) = false.
Proof.
  unfold setup_and_run. destruct (su_resolved s); [|done]. destruct (su_bound s _); [|done].
  destruct (su_local_addr s); [|done]. destruct (su_config s); [|done].
  destruct (su_connect s _ _ _); [|done]. destruct (new_client _ _ _ _ _ _). by intros [= <-].
Qed.

(** A client that is set up is ready to wake, whatever its first flight became
    of. *)
Lemma setup_running (s : Setup C) (d : Driver C) c ps :
  setup_and_run s = Ok d →
  running (d <| dr_world ::= fun w => w <| w_conn := c |> |> <| dr_wire ::= fun l => l ++ ps |>).
Proof.
  intros Hs. unfold setup_and_run in Hs. destruct (su_resolved s); [|done]. destruct (su_bound s _); [|done].
  destruct (su_local_addr s); [|done]. destruct (su_config s); [|done].
  destruct (su_connect s _ _ _) as [c0|]; [|done].
  destruct (new_client _ _ _ _ _ _) as [session u] eqn:E. injection Hs as <-.
  split; [|split; [constructor|done]]. cbn.
  pose proof (constructed_client (su_authority s) (su_path s) (su_origin s) (su_extra_headers s)
    (su_protocols s) ∅) as Hc. rewrite E in Hc. cbn in Hc.
  assert (Hempty : ∀ i, usage ∅ i = 0) by (intros i; unfold usage; by rewrite lookup_empty).
  apply (constructed_inv limits session ∅ u c []); [done| |intros i; rewrite Hempty; done|by intros i; rewrite Hempty].
  injection E as <- _. done.
Qed.

(** C16: the client's event loop tells the application a coherent story.  From
    a successful setup, whatever packets, commands, timers and socket errors
    the environment brings, every wake returns; the batches emitted are never
    empty and their events, concatenated, follow the lifecycle; and when the
    loop has published [closed], exactly one [Closed] has been emitted.  A
    socket that cannot be registered ends the thread with one batch, the error,
    and without publishing [closed]. *)
Theorem client_loop_reports (s : Setup C) (d : Driver C) registered (sends : list SocketSend) (wakes : list Wake) :
  setup_and_run s = Ok d →
  wp (run_inner registered sends wakes) (fun go_on d' =>
    (∃ l, lifecycle (concat (dr_batches d')) = Some l) ∧
    Forall (fun b => b ≠ []) (dr_batches d') ∧
    (sh_closed (dr_shared d') = true → countb is_closed_ev (concat (dr_batches d')) = 1%nat) ∧
    (∀ e, registered = Err e → go_on = false ∧ sh_closed (dr_shared d') = false ∧
      dr_batches d' = [[EvError (s2b "failed to register socket: " ++ e)]])) d.
Proof.
  intros Hs. destruct registered as [[]|e].
  2: { apply setup_fresh in Hs as [Hb Hsh]. apply wp_bind, wp_modify, wp_ret. cbn. rewrite Hb, Hsh.
    split; [by eexists|]. split; [by repeat constructor|]. split; [done|]. by intros _ [= <-]. }
  apply (wp_mono _ (fun _ d' => emitted_ok d')); [|by intros go d' (H1 & H2 & H3); do 3 (split; [done|])].
  unfold run_inner. apply wp_bind, send_packets_wp. intros c ps. apply client_loop_ok. by apply setup_running with s.
Qed.
End events.

(** ** A concrete client

    It connects, becomes ready, opens a stream and closes. *)

Module Example.
#[local] Existing Instance exact_allocator.
#[local] Existing Instance literal_qpack.
#[local] Existing Instance rfc9651.

Definition server_addr : SocketAddr := mkSocketAddr (V4 x7f x00 x00 x01) 4433.
Definition setup : Setup ToyConn := mkSetup ToyConn (s2b "localhost") 4433 (s2b "localhost:4433") (s2b "/")
  None [] [s2b "moq-00"] (Some server_addr) (fun _ => Ok ()) (Ok (mkSocketAddr (V4 x7f x00 x00 x01) 50000)) (Ok ())
  None (Some 1) (fun _ _ _ => Ok toy_new).
Definition answer : bytes :=
  match encode_headers_frame (accept_response (Some (s2b "moq-00")) []) with Ok f => f | Err _ => [] end.
Definition wake (packets : list SocketRecv) (commands : list Command) : Wake :=
  mkWake Ready (bool_decide (packets = [])) packets commands 0 id [].
Definition wakes : list Wake :=
  [wake [Datagram (x03 :: control_stream_prefix) server_addr] [];
   wake [Datagram (x00 :: answer) server_addr] [OpenStream 1 true];
   wake [] [Write 4 (s2b "hi") 2; Close 5 (s2b "bye")]; wake [] []; wake [] []; wake [] []].

Definition initial : option (Driver ToyConn) :=
  match setup_and_run setup with Ok d => Some d | Err _ => None end.

Lemma client_loop_reports_witness :
  ∃ d d', setup_and_run setup = Ok d ∧ run_inner (Ok ()) [] wakes d = Some (false, d') ∧
    sh_closed (dr_shared d') = true ∧ countb is_closed_ev (concat (dr_batches d')) = 1%nat.
Proof.
  destruct (setup_and_run setup) as [d|e] eqn:Es.
  2: { pose proof (f_equal (fun r => match r with Ok _ => true | Err _ => false end) Es) as Hb.
    vm_compute in Hb. discriminate Hb. }
  pose proof (client_loop_reports setup d (Ok ()) [] wakes Es) as H.
  apply wp_elim in H as (go & d' & E & _ & _ & H). exists d, d'. split; [reflexivity|].
  assert (Ec : (go, sh_closed (dr_shared d')) = (false, true)).
  { pose proof (f_equal (fun r => match r with Ok d => Some d | Err _ => None end) Es) as Ed.
    cbv beta iota in Ed. change (initial = Some d) in Ed.
    assert (Er : (d ← initial; run_inner (Ok ()) [] wakes d) = Some (go, d')) by (rewrite Ed; exact E).
    pose proof (f_equal (fun o => match o with Some (go, d) => (go, sh_closed (dr_shared d))
      | None => (true, false) end) Er) as Hc.
    cbv beta iota in Hc. rewrite <- Hc. vm_compute. reflexivity. }
  injection Ec as -> Ec. split; [exact E|]. split; [exact Ec|exact (proj1 H Ec)].
Defined.
End Example.
