(* ===== verification/NativeApi.v ===== *)
(** * The native module's boundary ([crates/native/src/lib.rs])

    The numbers that come from JavaScript, and the counter of event batches the
    JavaScript thread has not yet processed, by which it holds the network
    threads back and wakes them up. *)

From S2P Require Import Prelude H3 Quic Float64 SessionState.
From S2P Require Import Driver.

(** ** Numbers *)

Definition to_stream_id (v : f64) : N :=
  if is_finite v && ge_zero v then f64_as_u64 v else u64_max.
Definition to_code (v : f64) : N :=
  if is_finite v && ge_zero v then N.min (f64_as_u64 v) (N.shiftl 1 62 - 1) else 0.
Definition to_request_id (v : f64) : N :=
  if is_finite v && ge_zero v then f64_as_u64 v else 0.

(** ** Back-pressure

    The network thread and the JavaScript thread share an atomic counter; the
    log is the sequence of its atomic operations, in the order in which they
    take effect, whichever thread performs them.  (The counter is an [i64]; it
    is far from its bounds as long as fewer than 2^63 batches are queued.) *)

Record Inflight := mkInflight { if_count : Z; if_wakes : nat }.
#[export] Instance Inflight_eta : Eta Inflight := fun s => mkInflight (if_count s) (if_wakes s).

(** The counter goes down by one; the thread is woken when it was at the cap. *)
Definition release_inflight_batch (s : Inflight) : Inflight :=
  let previous := if_count s in
  let s := s <| if_count := (previous - 1)%Z |> in
  if (previous =? Driver.MAX_INFLIGHT_BATCHES)%Z then s <| if_wakes ::= S |> else s.

Inductive Atomic := Add | Release.
Definition atomic (s : Inflight) (a : Atomic) : Inflight :=
  match a with
  | Add => s <| if_count ::= (fun n => n + 1)%Z |>
  | Release => release_inflight_batch s
  end.
Definition atomics (l : list Atomic) (s : Inflight) : Inflight := foldl atomic s l.

(** The batches in flight after a log. *)
Definition outstanding (l : list Atomic) : Z :=
  (Z.of_nat (countb (fun a => match a with Add => true | Release => false end) l) -
   Z.of_nat (countb (fun a => match a with Add => false | Release => true end) l))%Z.

(** [backpressured], as the loops compute it from the counter. *)
Definition backpressured (s : Inflight) : bool := (Driver.MAX_INFLIGHT_BATCHES <=? if_count s)%Z.

Lemma atomic_step s a :
  if_wakes (atomic s a) = (if_wakes s + Nat.b2n (backpressured s && negb (backpressured (atomic s a))))%nat ∧
  if_count (atomic s a) = (if_count s + outstanding [a])%Z.
Proof.
  unfold backpressured, outstanding, Driver.MAX_INFLIGHT_BATCHES. destruct a; cbn.
  - destruct (Z.leb_spec 128 (if_count s)); destruct (Z.leb_spec 128 (if_count s + 1)); cbn; lia.
  - unfold release_inflight_batch, Driver.MAX_INFLIGHT_BATCHES.
    destruct (Z.eqb_spec (if_count s) 128) as [E|E]; cbn;
      destruct (Z.leb_spec 128 (if_count s)); destruct (Z.leb_spec 128 (if_count s - 1)); cbn; lia.
Qed.

Lemma outstanding_app l k : outstanding (l ++ k) = (outstanding l + outstanding k)%Z.
Proof. unfold outstanding. rewrite !countb_app. lia. Qed.

Lemma atomics_count l s : if_count (atomics l s) = (if_count s + outstanding l)%Z.
Proof.
  revert s. induction l as [|a l IH]; intros s; [cbn; unfold outstanding; cbn; lia|].
  change (a :: l) with ([a] ++ l). rewrite outstanding_app.
  change (atomics ([a] ++ l) s) with (atomics l (atomic s a)). rewrite IH.
  destruct (atomic_step s a) as [_ ->]. lia.
Qed.

Lemma atomics_wakes l s : (if_wakes s <= if_wakes (atomics l s))%nat.
Proof.
  revert s. induction l as [|a l IH]; intros s; [done|].
  change (atomics (a :: l) s) with (atomics l (atomic s a)). destruct (atomic_step s a) as [H _].
  specialize (IH (atomic s a)). lia.
Qed.

(** No lost wake-up.  The counter is the number of batches in flight; and
    whatever the interleaving of the two threads, if the network thread would
    be held back at some point of the log and no longer at a later one, it has
    been woken in between; while a step that does not end the back-pressure
    wakes nobody. *)
Lemma backpressure_release_wakes (before l : list Atomic) :
  let s := atomics before (mkInflight 0 0) in
  let s' := atomics l s in
  if_count s' = outstanding (before ++ l) ∧
  (backpressured s = true ∧ backpressured s' = false → (if_wakes s < if_wakes s')%nat) ∧
  (∀ a, if_wakes (atomic s a) ≠ if_wakes s ↔ backpressured s = true ∧ backpressured (atomic s a) = false).
Proof.
  cbv zeta. set (s := atomics before (mkInflight 0 0)). split; [|split].
  - rewrite atomics_count, outstanding_app. unfold s. by rewrite atomics_count.
  - clearbody s. intros [Hb Hb']. revert s Hb Hb'. induction l as [|a l IH]; intros s Hb Hb'.
    { cbn in Hb'. congruence. }
    change (atomics (a :: l) s) with (atomics l (atomic s a)) in *. destruct (atomic_step s a) as [Hw _].
    pose proof (atomics_wakes l (atomic s a)) as Hmono. rewrite Hb in Hw.
    destruct (backpressured (atomic s a)) eqn:Ea; cbn in Hw; [|lia].
    specialize (IH (atomic s a) Ea Hb'). lia.
  - intros a. destruct (atomic_step s a) as [Hw _]. rewrite Hw.
    destruct (backpressured s), (backpressured (atomic s a)); cbn; split; intros H; try lia; try done.
    all: destruct H; done.
Qed.

Lemma to_code_le v : to_code v <= 2 ^ 62 - 1.
Proof. unfold to_code. destruct (_ && _); [|done]. apply N.le_min_r. Qed.

(** C33: application error codes on the wire.  The mapping of 32-bit codes into
    the HTTP/3 error space is a bijection onto the reserved range without its
    GREASE codepoints: what maps back is exactly the image of a 32-bit code, and
    what does not is outside the range or GREASE.  [to_code] yields a 62-bit
    value, but a reset or a stop carries its image: the image of a code that
    fits 32 bits (what the TypeScript layer passes) is a 62-bit value, while
    the image of the largest code the clamp lets through is not. *)
Theorem codes_on_the_wire (v : f64) (n h : N) :
  (n < 2 ^ 32 ∧ webtransport_code_to_http_code n = h ↔
   http_code_to_webtransport_code h = Some n) ∧
  (http_code_to_webtransport_code h = None ↔
   ¬ (WT_APP_ERROR_FIRST <= h <= WT_APP_ERROR_LAST) ∨ is_grease h) ∧
  to_code v < 2 ^ 62 ∧
  (to_code v < 2 ^ 32 → webtransport_code_to_http_code (to_code v) < 2 ^ 62) ∧
  let largest := to_code (f64_of_N (2 ^ 62)) in
  largest < 2 ^ 62 ∧ 2 ^ 62 <= webtransport_code_to_http_code largest.
Proof.
  destruct (error_code_mapping_bijective n h) as [Hbij Hnone]. do 2 (split; [done|]).
  pose proof (to_code_le v). split; [lia|]. split; [|split; [vm_compute; reflexivity|vm_compute; discriminate]].
  intros Hc. unfold webtransport_code_to_http_code, WT_APP_ERROR_FIRST.
  assert (to_code v / 0x1e <= to_code v) by (apply N.Div0.div_le_upper_bound; lia).
  change (2 ^ 32) with 4294967296 in Hc. change (2 ^ 62) with 4611686018427387904.
  change U64 with 18446744073709551616 in *.
  rewrite (add64_small 0x52e4a40fa8db) by (change U64 with 18446744073709551616; lia).
  rewrite add64_small by (change U64 with 18446744073709551616; lia). lia.
Qed.
