(* ===== verification/Server.v ===== *)
(** * The server's event loop ([crates/native/src/server.rs])

    One thread owns a socket and a table of QUIC connections, each with a
    server session; all sessions share one budget of parser memory.  New
    connections are created only for sources that return a valid Retry token. *)

From S2P Require Import Prelude Utf8 H3 ParserMemory FrameParser Headers Net IpText Tls Quic SessionState.
From S2P Require Import SessionRecv SessionConnect SessionStreams SessionSend SessionInv.
From S2P Require Import SessionRecvInv SessionSendInv Session RetryToken EventLoop.

Definition MAX_INFLIGHT_BATCHES : Z := 128.
Definition MAX_CONNECTIONS : nat := N.to_nat 16384.
Definition MAX_PARSER_MEMORY : N := 64 * 1024 * 1024.
Definition MAX_RECV_PER_WAKE : nat := N.to_nat 1024.

Record ServerSetup := mkServerSetup {
  ss_host : rstring;
  ss_port : N;
  ss_cert_path : rstring;
  ss_key_path : rstring;
  ss_reuse_port : bool;
  ss_supported_protocols : list rstring;
  ss_allowed_origins : option (list rstring);
  ss_response_headers : list (rstring * rstring);
}.

(** The commands of one session, and of the server. *)
Inductive SessionCommand :=
  | OpenStream (request_id : N) (bidi : bool)
  | Write (id : N) (data : bytes) (request_id : N)
  | Fin (id : N)
  | ResetStream (id code : N)
  | StopSending (id code : N)
  | SetPaused (id : N) (paused : bool)
  | SendDatagram (data : bytes) (request_id : N)
  | CloseSession (code : N) (reason : bytes)
  | Drain
  | GetStats (request_id : N)
  | ExportKeyingMaterial (request_id : N) (label context : bytes) (length : N).
Inductive ServerCommand := ForSession (session : N) (cmd : SessionCommand) | Shutdown.

Inductive ServerMsg :=
  | Listening (port : N)
  | ServerError (message : rstring)
  | ServerClosed
  | SessionMsg (session : N) (e : Ev).

(** ** The loop's variables *)

Record ServerConn {C : Type} := mkServerConn {
  sc_conn : C;
  sc_session : WtSession;
  sc_session_id : N;
  sc_closed_emitted : bool;
}.
Arguments ServerConn : clear implicits.
Arguments mkServerConn {C}.
#[export] Instance ServerConn_eta C : Eta (ServerConn C) := fun s =>
  mkServerConn (sc_conn s) (sc_session s) (sc_session_id s) (sc_closed_emitted s).

Record Server {C : Type} := mkServer {
  sv_clients : gmap bytes (ServerConn C);
  sv_routing : gmap bytes bytes;
  sv_sessions : gmap N bytes;
  sv_next_session_id : N;
  sv_mem : Usage;
  (** The messages of this wake, the batches emitted before, and what was
      sent. *)
  sv_out : list ServerMsg;
  sv_batches : list (list ServerMsg);
  sv_wire : list (bytes * SocketAddr);
  (** What the application reads synchronously. *)
  sv_max_datagram_size : N;
  sv_closed : bool;
}.
Arguments Server : clear implicits.
Arguments mkServer {C}.
#[export] Instance Server_eta C : Eta (Server C) := fun s =>
  mkServer (sv_clients s) (sv_routing s) (sv_sessions s) (sv_next_session_id s) (sv_mem s) (sv_out s)
    (sv_batches s) (sv_wire s) (sv_max_datagram_size s) (sv_closed s).

(** The environment's part of one wake: what [recv_from] yields, each with the
    random connection id and the in-flight count the code would see; the
    commands; the count when the sessions are driven; the orders in which the
    hash maps are traversed; what [send_to] answers. *)
Record Packet := mkPacket { pk_recv : SocketRecv; pk_random : bytes; pk_inflight : Z }.
Record ServerWake := mkServerWake {
  sw_polled : bool;
  sw_packets : list Packet;
  sw_commands : list ServerCommand;
  sw_inflight : Z;
  sw_client_order : list bytes → list bytes;
  sw_stream_order : bytes → list N → list N;
  sw_sends : bytes → list SocketSend;
}.

Section server.
Context {C : Type} {quic : Quic C} {qloop : QuicLoop C} {qserver : QuicServer C}.
Context {alloc : Allocator} {qpack : Qpack} {sfv : Sfv} {sha : Sha256}.
(** Fixed when the thread starts. *)
Context (setup : ServerSetup) (local_addr : SocketAddr) (token_secret : bytes)
  (parser_memory : ParserMemory).

(** Dropping a session frees its buffers. *)
Definition drop_session (s : WtSession) : M Usage () :=
  _ ← buf_drop (ws_capsule_buf s);
  drop_streams (map_to_list (ws_streams s)).

(** A method of one client's session; its events go out under the session's
    id. *)
Definition with_client (key : bytes) (m : M (World C) ()) : M (Server C) () := fun s =>
  match sv_clients s !! key with
  | None => Some ((), s)
  | Some sc =>
      match m (mkWorld (sc_session sc) (sc_conn sc) (sv_mem s) []) with
      | None => None
      | Some (_, w) =>
          Some ((), s <| sv_clients ::= <[key := sc <| sc_session := w_ses w |> <| sc_conn := w_conn w |>]> |>
                      <| sv_mem := w_mem w |>
                      <| sv_out ::= fun l => l ++ map (SessionMsg (sc_session_id sc)) (w_ev w) |>)
      end
  end.

(** ** Packets *)

(** [clients.insert]: an entry it replaces is dropped. *)
Definition insert_client (key : bytes) (sc : ServerConn C) : M (Server C) () := fun s =>
  match sv_clients s !! key with
  | None => Some ((), s <| sv_clients ::= <[key := sc]> |>)
  | Some old =>
      match drop_session (sc_session old) (sv_mem s) with
      | Some (_, u) => Some ((), s <| sv_clients ::= <[key := sc]> |> <| sv_mem := u |>)
      | None => None
      end
  end.

(** An Initial for an unknown connection: the key of the connection created,
    if one was. *)
Definition accept_initial (hdr : Hdr) (from : SocketAddr) (random_scid : bytes) (inflight : Z)
    : M (Server C) (option bytes) :=
  if negb (hd_initial hdr) then mret None
  else
    full ← gets (fun s => (MAX_CONNECTIONS <=? size (sv_clients s))%nat);
    if full || (MAX_INFLIGHT_BATCHES <=? inflight)%Z then mret None
    else
      let token := default [] (hd_token hdr) in
      if bool_decide (token = []) then
        let retry_token := mint_token token_secret (hd_dcid hdr) from in
        _ ← match retry (hd_scid hdr) (hd_dcid hdr) random_scid retry_token (hd_version hdr) with
            | Some packet => modify (fun s => s <| sv_wire ::= fun l => l ++ [(packet, from)] |>)
            | None => mret ()
            end;
        mret None
      else
        match validate_token token_secret from token with
        | None => mret None
        | Some odcid =>
            let key := hd_dcid hdr in
            match accept key (Some odcid) local_addr from with
            | None => mret None
            | Some c =>
                session_id ← gets sv_next_session_id;
                _ ← modify (fun s => s <| sv_next_session_id ::= fun n => add64 n 1 |>
                      <| sv_routing ::= <[key := key]> |> <| sv_sessions ::= <[session_id := key]> |>);
                u ← gets sv_mem;
                let '(session, u) := new_server from (ss_supported_protocols setup) (ss_allowed_origins setup)
                  (ss_response_headers setup) parser_memory u in
                _ ← modify (fun s => s <| sv_mem := u |>);
                _ ← insert_client key (mkServerConn c session session_id false);
                mret (Some key)
            end
        end.

(** One UDP datagram. *)
Definition receive (data : bytes) (from : SocketAddr) (random_scid : bytes) (inflight : Z)
    : M (Server C) () :=
  match parse_header data with
  | None => mret ()
  | Some hdr =>
      routed ← gets (fun s => sv_routing s !! hd_dcid hdr);
      scid ← match routed with
             | Some scid => mret (Some scid)
             | None => accept_initial hdr from random_scid inflight
             end;
      match scid with
      | None => mret ()
      | Some scid => with_client scid (conn_ (fun c => (conn_recv c data from).2))
      end
  end.

(** Up to the per-wake budget; an error ends the round. *)
Fixpoint receive_packets (budget : nat) (l : list Packet) : M (Server C) () :=
  match budget, l with
  | O, _ | _, [] => mret ()
  | S budget, p :: l =>
      match pk_recv p with
      | RecvFailed _ => mret ()
      | Datagram data from =>
          _ ← receive data from (pk_random p) (pk_inflight p);
          receive_packets budget l
      end
  end.

(** ** Commands *)

Definition session_command (cmd : SessionCommand) : M (World C) () :=
  match cmd with
  | OpenStream request_id bidi => open_stream bidi request_id
  | Write id data request_id => stream_write id data request_id
  | Fin id => stream_fin id
  | ResetStream id code => stream_reset id code
  | StopSending id code => stream_stop_sending id code
  | SetPaused id paused => set_paused id paused
  | SendDatagram data request_id => send_datagram data request_id
  | CloseSession code reason => close code reason
  | Drain => send_drain
  | GetStats request_id =>
      e ← gets (fun w => build_stats (w_conn w) request_id);
      push_ev e
  | ExportKeyingMaterial request_id label context length =>
      e ← conn (build_keying_material request_id label context length);
      push_ev e
  end.

Definition apply_command (cmd : ServerCommand) : M (Server C) () :=
  match cmd with
  | Shutdown => mret ()
  | ForSession session cmd =>
      scid ← gets (fun s => sv_sessions s !! session);
      match scid with
      | None => mret ()
      | Some scid => with_client scid (session_command cmd)
      end
  end.

Definition is_shutdown (cmd : ServerCommand) : bool := match cmd with Shutdown => true | _ => false end.

(** [true]: shut down. *)
Fixpoint drain_commands (cmds : list ServerCommand) : M (Server C) bool :=
  match cmds with
  | [] => mret false
  | Shutdown :: _ => mret true
  | cmd :: cmds => _ ← apply_command cmd; drain_commands cmds
  end.

(** ** Driving and reaping *)

Definition send_client (key : bytes) (sends : list SocketSend) : M (Server C) () := fun s =>
  match sv_clients s !! key with
  | None => Some ((), s)
  | Some sc =>
      match flush_send false sends (sc_conn sc) with
      | None => None
      | Some (ps, c) =>
          Some ((), s <| sv_clients ::= <[key := sc <| sc_conn := c |>]> |> <| sv_wire ::= fun l => l ++ ps |>)
      end
  end.

(** A session that has ended closes its connection. *)
Definition close_ended : M (World C) () :=
  ended ← gets (fun w => ws_closed (w_ses w) && negb (conn_is_closed (w_conn w)) && negb (is_draining (w_conn w)));
  when ended (conn_ (fun c => conn_close c true H3_NO_ERROR [])).

Definition publish_size (key : bytes) : M (Server C) () :=
  sc ← gets (fun s => sv_clients s !! key);
  match sc ≫= (fun sc => dgram_max_writable_len (sc_conn sc)) with
  | Some size => modify (fun s => s <| sv_max_datagram_size := size - 1 |>)
  | None => mret ()
  end.

Fixpoint drive_clients (keys : list bytes) (backpressured : bool) (order : bytes → list N → list N)
    (sends : bytes → list SocketSend) : M (Server C) () :=
  match keys with
  | [] => mret ()
  | key :: keys =>
      _ ← with_client key (_ ← drive backpressured (order key); close_ended);
      _ ← publish_size key;
      _ ← send_client key (sends key);
      drive_clients keys backpressured order sends
  end.

(** The final report of a closed connection, once. *)
Definition reap_client (key : bytes) : M (Server C) () :=
  sc ← gets (fun s => sv_clients s !! key);
  match sc with
  | None => mret ()
  | Some sc =>
      if conn_is_closed (sc_conn sc) && negb (sc_closed_emitted sc) then
        _ ← modify (fun s => s <| sv_clients ::= alter (fun sc => sc <| sc_closed_emitted := true |>) key |>);
        with_client key report_closure
      else mret ()
  end.
Fixpoint reap_clients (keys : list bytes) : M (Server C) () :=
  match keys with
  | [] => mret ()
  | key :: keys => _ ← reap_client key; reap_clients keys
  end.

(** The sessions of removed connections are dropped. *)
Fixpoint drop_clients (l : list (bytes * ServerConn C)) : M Usage () :=
  match l with
  | [] => mret ()
  | (_, sc) :: l => _ ← drop_session (sc_session sc); drop_clients l
  end.

(** [clients.retain] and [routing.retain]. *)
Definition is_live (kv : bytes * ServerConn C) : Prop := conn_is_closed (sc_conn kv.2) = false.
#[local] Instance is_live_dec kv : Decision (is_live kv) := bool_eq_dec _ _.
Definition retain_live : M (Server C) () := fun s =>
  let clients := sv_clients s in
  let gone := filter (fun kv => ¬ is_live kv) clients in
  match drop_clients (map_to_list gone) (sv_mem s) with
  | None => None
  | Some (_, u) =>
      let live := filter is_live clients in
      Some ((), s <| sv_clients := live |> <| sv_mem := u |>
        <| sv_sessions ::= filter (fun kv =>
             ∀ key sc, gone !! key = Some sc → sc_session_id sc ≠ kv.1) |>
        <| sv_routing ::= filter (fun kv => is_Some (live !! kv.2)) |>)
  end.

(** ** The loop *)

Definition fire_timeouts : M (Server C) () :=
  modify (fun s => s <| sv_clients ::= fmap (fun sc => sc <| sc_conn ::= on_timeout |>) |>).

(** Every connection is closed before the thread ends. *)
Fixpoint shutdown_clients (keys : list bytes) (sends : bytes → list SocketSend) : M (Server C) () :=
  match keys with
  | [] => mret ()
  | key :: keys =>
      _ ← with_client key (conn_ (fun c => conn_close c true 0 (s2b "server shutdown")));
      _ ← send_client key (sends key);
      shutdown_clients keys sends
  end.

Definition emit_out : M (Server C) () :=
  out ← gets sv_out;
  when (negb (bool_decide (out = []))) (modify (fun s => s <| sv_batches ::= fun l => l ++ [out] |>)).

(** One wake: whether the loop goes on. *)
Definition iteration (wk : ServerWake) : M (Server C) bool :=
  if negb (sw_polled wk) then mret true
  else
    _ ← modify (fun s => s <| sv_out := [] |>);
    _ ← receive_packets MAX_RECV_PER_WAKE (sw_packets wk);
    _ ← fire_timeouts;
    shutdown ← drain_commands (sw_commands wk);
    keys ← gets (fun s => sw_client_order wk (map fst (map_to_list (sv_clients s))));
    if (shutdown : bool) then
      _ ← shutdown_clients keys (sw_sends wk);
      mret false
    else
      let backpressured := (MAX_INFLIGHT_BATCHES <=? sw_inflight wk)%Z in
      _ ← drive_clients keys backpressured (sw_stream_order wk) (sw_sends wk);
      _ ← reap_clients keys;
      _ ← retain_live;
      _ ← emit_out;
      mret true.

Fixpoint event_loop (wakes : list ServerWake) : M (Server C) bool :=
  match wakes with
  | [] => mret true
  | wk :: wakes =>
      go_on ← iteration wk;
      if (go_on : bool) then event_loop wakes else mret false
  end.
End server.

(** ** The thread

    What the socket calls, the TLS library and the poller answer. *)

Record SocketAnswers := mkSocketAnswers {
  so_new : result rstring ();
  so_nonblocking : result rstring ();
  so_reuse_port : result rstring ();
  so_bind : result rstring ();
}.
Record ServerStart := mkServerStart {
  st_socket : SocketAnswers;
  st_local_addr : result rstring SocketAddr;
  st_config_answers : ConfigAnswers;
  st_registered : result rstring ();
}.

(** What is done to the UDP socket. *)
Inductive SocketSetting := UdpSocket (v4 : bool) | NonBlocking | ReusePort | BoundTo (addr : SocketAddr).

(** On Unix; elsewhere [SO_REUSEPORT] is skipped. *)
Definition bind_udp (addr : SocketAddr) (reuse_port : bool) (a : SocketAnswers)
    : result rstring (list SocketSetting) :=
  _ ← so_new a;
  _ ← so_nonblocking a;
  _ ← if reuse_port then so_reuse_port a else Ok ();
  _ ← so_bind a;
  Ok ([UdpSocket (match sa_ip addr with V4 _ _ _ _ => true | V6 _ => false end); NonBlocking] ++
      (if reuse_port then [ReusePort] else []) ++ [BoundTo addr]).

(** [host.trim_matches(['[', ']']).parse()]; the message is that of
    [AddrParseError]. *)
Definition is_bracket (b : byte) : bool := (b2n b =? 0x5b) || (b2n b =? 0x5d).
Definition trim_brackets (s : rstring) : rstring := rev (drop_while is_bracket (rev (drop_while is_bracket s))).
Definition bind_addr (setup : ServerSetup) : result rstring SocketAddr :=
  match parse_ip (trim_brackets (ss_host setup)) with
  | Some ip => Ok (mkSocketAddr ip (ss_port setup))
  | None => Err (s2b "invalid IP address syntax")
  end.

(** [Err]: the message of a setup that failed; [Ok]: the socket's address. *)
Definition start (setup : ServerSetup) (e : ServerStart) : result rstring SocketAddr :=
  match bind_addr setup with
  | Err m => Err (s2b "invalid bind addr: " ++ m)
  | Ok bind =>
      match bind_udp bind (ss_reuse_port setup) (st_socket e) with
      | Err m => Err (s2b "bind failed: " ++ m)
      | Ok _ =>
          match st_local_addr e with
          | Err m => Err (s2b "local addr: " ++ m)
          | Ok local_addr =>
              match build_server_config (ss_cert_path setup) (ss_key_path setup) (st_config_answers e) with
              | Err m => Err m
              | Ok _ =>
                  match st_registered e with
                  | Err m => Err (s2b "register: " ++ m)
                  | Ok _ => Ok local_addr
                  end
              end
          end
      end
  end.

(** Shared by all sessions of the server. *)
Definition server_memory : ParserMemory * Usage := new_memory MAX_PARSER_MEMORY ∅.
Definition server_new (C : Type) (batches : list (list ServerMsg)) : Server C :=
  mkServer ∅ ∅ ∅ 1 server_memory.2 [] batches [] 0 false.

Section thread.
Context {C : Type} {quic : Quic C} {qloop : QuicLoop C} {qserver : QuicServer C}.
Context {alloc : Allocator} {qpack : Qpack} {sfv : Sfv} {sha : Sha256}.

(** The batches a server emits until the wakes run out or it is shut down;
    [Closed] ends every run. *)
Definition run_inner (setup : ServerSetup) (e : ServerStart) (token_secret : bytes)
    (wakes : list ServerWake) : M (Server C) bool :=
  match start setup e with
  | Err m => _ ← modify (fun s => s <| sv_batches ::= fun l => l ++ [[ServerError m]] |>); mret false
  | Ok local_addr =>
      _ ← modify (fun s => s <| sv_batches ::= fun l => l ++ [[Listening (sa_port local_addr)]] |>);
      event_loop setup local_addr token_secret server_memory.1 wakes
  end.
(** The end of the thread. *)
Definition say_closed : M (Server C) () :=
  modify (fun s => s <| sv_closed := true |> <| sv_batches ::= fun l => l ++ [[ServerClosed]] |>).
Definition run (setup : ServerSetup) (e : ServerStart) (token_secret : bytes) (wakes : list ServerWake)
    : M (Server C) bool :=
  go_on ← run_inner setup e token_secret wakes;
  _ ← when (negb go_on) say_closed;
  mret go_on.
(** The panic boundary of [run]. *)
Definition run_panicked (p : PanicPayload) : M (Server C) () :=
  modify (fun s => s <| sv_closed := true |> <| sv_batches ::= fun l =>
    l ++ [[ServerError (s2b "rwebtransport server panic: " ++ panic_message p); ServerClosed]] |>).
End thread.
