(* ===== verification/NativeCalls.v ===== *)
(** * The functions the native module exports ([crates/native/src/lib.rs])

    JavaScript values, the reading of a call's arguments, and the command that
    each exported function puts into the channel of its handle.  [connect] and
    [serverListen], which make the handles, are in [NativeConnect]. *)

From S2P Require Import Prelude Quic Float64 SessionState NativeApi.
From S2P Require Driver Server.

#[local] Set Warnings "-register-all".

(** ** JavaScript values

    A string is the UTF-8 text it converts to; a typed array is one of bytes;
    the fields of an object are in the order of their first assignment. *)
Inductive JsValue :=
  | JsUndefined
  | JsNull
  | JsBoolean (b : bool)
  | JsNumber (v : f64)
  | JsString (s : rstring)
  | JsTypedArray (data : bytes)
  | JsArray (l : list JsValue)
  | JsObject (fields : list (rstring * JsValue))
  | JsFunction
  | JsBoxSession (handle : N)
  | JsBoxServer (handle : N).

Inductive Thrown := TypeError | RangeError (message : rstring) | ThrownError (message : rstring).

Definition as_value (v : JsValue) : option JsValue := Some v.
Definition as_boolean (v : JsValue) : option bool := match v with JsBoolean b => Some b | _ => None end.
Definition as_number (v : JsValue) : option f64 := match v with JsNumber n => Some n | _ => None end.
Definition as_string (v : JsValue) : option rstring := match v with JsString s => Some s | _ => None end.
Definition as_bytes (v : JsValue) : option bytes := match v with JsTypedArray d => Some d | _ => None end.
Definition as_array (v : JsValue) : option (list JsValue) := match v with JsArray l => Some l | _ => None end.
Definition as_function (v : JsValue) : option () := match v with JsFunction => Some () | _ => None end.
Definition as_session (v : JsValue) : option N := match v with JsBoxSession h => Some h | _ => None end.
Definition as_server (v : JsValue) : option N := match v with JsBoxServer h => Some h | _ => None end.

(** [cx.argument::<T>(i)?]: too few arguments, or one of another kind. *)
Definition argument {A} (kind : JsValue → option A) (args : list JsValue) (i : nat) : result Thrown A :=
  match args !! i with
  | None => Err TypeError
  | Some v => ok_or TypeError (kind v)
  end.

Definition stream_id_arg (args : list JsValue) (i : nat) : result Thrown N :=
  v ← argument as_number args i; Ok (to_stream_id v).
Definition code_arg (args : list JsValue) (i : nat) : result Thrown N :=
  v ← argument as_number args i; Ok (to_code v).
Definition request_id_arg (args : list JsValue) (i : nat) : result Thrown N :=
  v ← argument as_number args i; Ok (to_request_id v).

(** ** Client functions *)

Definition open_stream (args : list JsValue) : result Thrown (N * Driver.Command) :=
  handle ← argument as_session args 0;
  bidi ← argument as_boolean args 1;
  request_id ← request_id_arg args 2;
  Ok (handle, Driver.OpenStream request_id bidi).
Definition write_stream (args : list JsValue) : result Thrown (N * Driver.Command) :=
  handle ← argument as_session args 0;
  id ← stream_id_arg args 1;
  data ← argument as_bytes args 2;
  request_id ← request_id_arg args 3;
  Ok (handle, Driver.Write id data request_id).
Definition fin_stream (args : list JsValue) : result Thrown (N * Driver.Command) :=
  handle ← argument as_session args 0;
  id ← stream_id_arg args 1;
  Ok (handle, Driver.Fin id).
Definition reset_stream (args : list JsValue) : result Thrown (N * Driver.Command) :=
  handle ← argument as_session args 0;
  id ← stream_id_arg args 1;
  code ← code_arg args 2;
  Ok (handle, Driver.ResetStream id code).
Definition stop_sending (args : list JsValue) : result Thrown (N * Driver.Command) :=
  handle ← argument as_session args 0;
  id ← stream_id_arg args 1;
  code ← code_arg args 2;
  Ok (handle, Driver.StopSending id code).
Definition set_paused (args : list JsValue) : result Thrown (N * Driver.Command) :=
  handle ← argument as_session args 0;
  id ← stream_id_arg args 1;
  paused ← argument as_boolean args 2;
  Ok (handle, Driver.SetPaused id paused).
Definition send_datagram (args : list JsValue) : result Thrown (N * Driver.Command) :=
  handle ← argument as_session args 0;
  data ← argument as_bytes args 1;
  request_id ← request_id_arg args 2;
  Ok (handle, Driver.SendDatagram data request_id).
Definition close_session (args : list JsValue) : result Thrown (N * Driver.Command) :=
  handle ← argument as_session args 0;
  code ← code_arg args 1;
  reason ← argument as_bytes args 2;
  Ok (handle, Driver.Close (trunc32 code) reason).
Definition drain (args : list JsValue) : result Thrown (N * Driver.Command) :=
  handle ← argument as_session args 0;
  Ok (handle, Driver.Drain).
Definition get_stats (args : list JsValue) : result Thrown (N * Driver.Command) :=
  handle ← argument as_session args 0;
  request_id ← request_id_arg args 1;
  Ok (handle, Driver.GetStats request_id).

(** [!length.is_finite() || length.fract() != 0.0 || !(1.0..=4096.0).contains(&length)]. *)
Definition bad_length (v : f64) : bool :=
  negb (is_finite v) || negb (SFeqb (f64_fract v) (S754_zero false)) ||
  negb (SFleb (f64_of_N 1) v && SFleb v (f64_of_N 4096)).
Definition length_arg (v : f64) : result Thrown N :=
  if bad_length v then Err (RangeError (s2b "outputLength must be an integer between 1 and 4096"))
  else Ok (f64_as_u32 v).
Definition export_keying_material (args : list JsValue) : result Thrown (N * Driver.Command) :=
  handle ← argument as_session args 0;
  request_id ← request_id_arg args 1;
  label ← argument as_bytes args 2;
  context ← argument as_bytes args 3;
  length ← argument as_number args 4;
  length ← length_arg length;
  Ok (handle, Driver.ExportKeyingMaterial request_id label context length).
Definition shutdown (args : list JsValue) : result Thrown (N * Driver.Command) :=
  handle ← argument as_session args 0;
  Ok (handle, Driver.Shutdown).

(** ** Server functions *)

Definition session_arg (args : list JsValue) : result Thrown (N * N) :=
  handle ← argument as_server args 0;
  session ← stream_id_arg args 1;
  Ok (handle, session).
Definition for_session (s : N * N) (cmd : Server.SessionCommand) : result Thrown (N * Server.ServerCommand) :=
  Ok (s.1, Server.ForSession s.2 cmd).

Definition server_open_stream (args : list JsValue) : result Thrown (N * Server.ServerCommand) :=
  s ← session_arg args;
  bidi ← argument as_boolean args 2;
  request_id ← request_id_arg args 3;
  for_session s (Server.OpenStream request_id bidi).
Definition server_write (args : list JsValue) : result Thrown (N * Server.ServerCommand) :=
  s ← session_arg args;
  id ← stream_id_arg args 2;
  data ← argument as_bytes args 3;
  request_id ← request_id_arg args 4;
  for_session s (Server.Write id data request_id).
Definition server_fin (args : list JsValue) : result Thrown (N * Server.ServerCommand) :=
  s ← session_arg args;
  id ← stream_id_arg args 2;
  for_session s (Server.Fin id).
Definition server_reset (args : list JsValue) : result Thrown (N * Server.ServerCommand) :=
  s ← session_arg args;
  id ← stream_id_arg args 2;
  code ← code_arg args 3;
  for_session s (Server.ResetStream id code).
Definition server_stop_sending (args : list JsValue) : result Thrown (N * Server.ServerCommand) :=
  s ← session_arg args;
  id ← stream_id_arg args 2;
  code ← code_arg args 3;
  for_session s (Server.StopSending id code).
Definition server_set_paused (args : list JsValue) : result Thrown (N * Server.ServerCommand) :=
  s ← session_arg args;
  id ← stream_id_arg args 2;
  paused ← argument as_boolean args 3;
  for_session s (Server.SetPaused id paused).
Definition server_send_datagram (args : list JsValue) : result Thrown (N * Server.ServerCommand) :=
  s ← session_arg args;
  data ← argument as_bytes args 2;
  request_id ← request_id_arg args 3;
  for_session s (Server.SendDatagram data request_id).
Definition server_close_session (args : list JsValue) : result Thrown (N * Server.ServerCommand) :=
  s ← session_arg args;
  code ← code_arg args 2;
  reason ← argument as_bytes args 3;
  for_session s (Server.CloseSession (trunc32 code) reason).
Definition server_drain (args : list JsValue) : result Thrown (N * Server.ServerCommand) :=
  s ← session_arg args;
  for_session s Server.Drain.
Definition server_get_stats (args : list JsValue) : result Thrown (N * Server.ServerCommand) :=
  s ← session_arg args;
  request_id ← request_id_arg args 2;
  for_session s (Server.GetStats request_id).
Definition server_export_keying_material (args : list JsValue) : result Thrown (N * Server.ServerCommand) :=
  s ← session_arg args;
  request_id ← request_id_arg args 2;
  label ← argument as_bytes args 3;
  context ← argument as_bytes args 4;
  length ← argument as_number args 5;
  length ← length_arg length;
  for_session s (Server.ExportKeyingMaterial request_id label context length).
Definition server_shutdown (args : list JsValue) : result Thrown (N * Server.ServerCommand) :=
  handle ← argument as_server args 0;
  Ok (handle, Server.Shutdown).

(** ** What a handle publishes *)

Definition max_datagram_size (shared : N → Driver.DriverShared) (args : list JsValue) : result Thrown JsValue :=
  handle ← argument as_session args 0;
  Ok (JsNumber (f64_of_N (Driver.sh_max_datagram_size (shared handle)))).
Definition is_ready (shared : N → Driver.DriverShared) (args : list JsValue) : result Thrown JsValue :=
  handle ← argument as_session args 0;
  Ok (JsBoolean (Driver.sh_ready (shared handle))).
Definition is_closed (shared : N → Driver.DriverShared) (args : list JsValue) : result Thrown JsValue :=
  handle ← argument as_session args 0;
  Ok (JsBoolean (Driver.sh_closed (shared handle))).
Definition server_max_datagram_size (published : N → N) (args : list JsValue) : result Thrown JsValue :=
  handle ← argument as_server args 0;
  Ok (JsNumber (f64_of_N (published handle))).

(** ** The module's table of functions *)

Definition client_exports : list (rstring * (list JsValue → result Thrown (N * Driver.Command))) :=
  [(s2b "openStream", open_stream); (s2b "writeStream", write_stream); (s2b "finStream", fin_stream);
   (s2b "resetStream", reset_stream); (s2b "stopSending", stop_sending); (s2b "setPaused", set_paused);
   (s2b "sendDatagram", send_datagram); (s2b "closeSession", close_session); (s2b "drain", drain);
   (s2b "getStats", get_stats); (s2b "exportKeyingMaterial", export_keying_material);
   (s2b "shutdown", shutdown)].
Definition server_exports : list (rstring * (list JsValue → result Thrown (N * Server.ServerCommand))) :=
  [(s2b "serverOpenStream", server_open_stream); (s2b "serverWrite", server_write);
   (s2b "serverFin", server_fin); (s2b "serverReset", server_reset);
   (s2b "serverStopSending", server_stop_sending); (s2b "serverSetPaused", server_set_paused);
   (s2b "serverSendDatagram", server_send_datagram); (s2b "serverCloseSession", server_close_session);
   (s2b "serverDrain", server_drain); (s2b "serverGetStats", server_get_stats);
   (s2b "serverExportKeyingMaterial", server_export_keying_material); (s2b "serverShutdown", server_shutdown)].

Fixpoint assoc {A} (name : rstring) (l : list (rstring * A)) : option A :=
  match l with
  | [] => None
  | (k, a) :: l => if decide (name = k) then Some a else assoc name l
  end.

(** ** Handles *)

(** A handle's channel, and how often its thread was woken. *)
Record Channel {A : Type} := mkChannel { ch_queue : list A; ch_wakes : nat }.
Arguments Channel : clear implicits.
Arguments mkChannel {A}.

(** [SessionHandle::send], [ServerHandle::send]. *)
Definition send {A} (cmd : A) (ch : Channel A) : Channel A :=
  mkChannel (ch_queue ch ++ [cmd]) (S (ch_wakes ch)).

(** [finalize]: when the handle is collected the thread is told to stop (and
    waited for). *)
Definition finalize_session (ch : Channel Driver.Command) : Channel Driver.Command := send Driver.Shutdown ch.
Definition finalize_server (ch : Channel Server.ServerCommand) : Channel Server.ServerCommand :=
  send Server.Shutdown ch.

(** A call of an exported function; an unknown name is no function. *)
Definition invoke {A} (exports : list (rstring * (list JsValue → result Thrown (N * A))))
    (name : rstring) (args : list JsValue) (channels : N → Channel A) : result Thrown () * (N → Channel A) :=
  match assoc name exports with
  | None => (Err TypeError, channels)
  | Some f =>
      match f args with
      | Err e => (Err e, channels)
      | Ok (h, cmd) => (Ok (), fun i => if decide (i = h) then send cmd (channels i) else channels i)
      end
  end.

(** ** Calls as the TypeScript layer makes them *)

Definition num (n : N) : JsValue := JsNumber (f64_of_N n).

Definition client_call (h : N) (cmd : Driver.Command) : rstring * list JsValue :=
  let box := JsBoxSession h in
  match cmd with
  | Driver.OpenStream request_id bidi => (s2b "openStream", [box; JsBoolean bidi; num request_id])
  | Driver.Write id data request_id => (s2b "writeStream", [box; num id; JsTypedArray data; num request_id])
  | Driver.Fin id => (s2b "finStream", [box; num id])
  | Driver.ResetStream id code => (s2b "resetStream", [box; num id; num code])
  | Driver.StopSending id code => (s2b "stopSending", [box; num id; num code])
  | Driver.SetPaused id paused => (s2b "setPaused", [box; num id; JsBoolean paused])
  | Driver.SendDatagram data request_id => (s2b "sendDatagram", [box; JsTypedArray data; num request_id])
  | Driver.Close code reason => (s2b "closeSession", [box; num code; JsTypedArray reason])
  | Driver.Drain => (s2b "drain", [box])
  | Driver.GetStats request_id => (s2b "getStats", [box; num request_id])
  | Driver.ExportKeyingMaterial request_id label context length =>
      (s2b "exportKeyingMaterial", [box; num request_id; JsTypedArray label; JsTypedArray context; num length])
  | Driver.Shutdown => (s2b "shutdown", [box])
  end.
Definition server_call (h : N) (cmd : Server.ServerCommand) : rstring * list JsValue :=
  let box := JsBoxServer h in
  match cmd with
  | Server.Shutdown => (s2b "serverShutdown", [box])
  | Server.ForSession s cmd =>
      let at_ name args := (s2b name, [box; num s] ++ args) in
      match cmd with
      | Server.OpenStream request_id bidi => at_ "serverOpenStream"%string [JsBoolean bidi; num request_id]
      | Server.Write id data request_id => at_ "serverWrite"%string [num id; JsTypedArray data; num request_id]
      | Server.Fin id => at_ "serverFin"%string [num id]
      | Server.ResetStream id code => at_ "serverReset"%string [num id; num code]
      | Server.StopSending id code => at_ "serverStopSending"%string [num id; num code]
      | Server.SetPaused id paused => at_ "serverSetPaused"%string [num id; JsBoolean paused]
      | Server.SendDatagram data request_id => at_ "serverSendDatagram"%string [JsTypedArray data; num request_id]
      | Server.CloseSession code reason => at_ "serverCloseSession"%string [num code; JsTypedArray reason]
      | Server.Drain => at_ "serverDrain"%string []
      | Server.GetStats request_id => at_ "serverGetStats"%string [num request_id]
      | Server.ExportKeyingMaterial request_id label context length =>
          at_ "serverExportKeyingMaterial"%string
            [num request_id; JsTypedArray label; JsTypedArray context; num length]
      end
  end.

(** What such a call may carry: ids that a JavaScript number holds exactly,
    32-bit close codes, and an admissible length. *)
Definition safe (n : N) : bool := n <? 2 ^ 53.
Definition client_sendable (cmd : Driver.Command) : bool :=
  match cmd with
  | Driver.OpenStream r _ | Driver.SendDatagram _ r | Driver.GetStats r => safe r
  | Driver.Write id _ r => safe id && safe r
  | Driver.Fin id | Driver.SetPaused id _ => safe id
  | Driver.ResetStream id code | Driver.StopSending id code => safe id && safe code
  | Driver.Close code _ => code <? 2 ^ 32
  | Driver.ExportKeyingMaterial r _ _ n => safe r && (1 <=? n) && (n <=? 4096)
  | Driver.Drain | Driver.Shutdown => true
  end.
Definition server_sendable (cmd : Server.ServerCommand) : bool :=
  match cmd with
  | Server.Shutdown => true
  | Server.ForSession s cmd =>
      safe s &&
      match cmd with
      | Server.OpenStream r _ | Server.SendDatagram _ r | Server.GetStats r => safe r
      | Server.Write id _ r => safe id && safe r
      | Server.Fin id | Server.SetPaused id _ => safe id
      | Server.ResetStream id code | Server.StopSending id code => safe id && safe code
      | Server.CloseSession code _ => code <? 2 ^ 32
      | Server.ExportKeyingMaterial r _ _ n => safe r && (1 <=? n) && (n <=? 4096)
      | Server.Drain => true
      end
  end.

(** *** Numbers arrive as they were sent *)

Lemma to_stream_id_num n : safe n = true → to_stream_id (f64_of_N n) = n.
Proof.
  intros Hn%N.ltb_lt. unfold to_stream_id. rewrite f64_of_N_finite by done.
  apply f64_as_of_N; [done|]. change u64_max with 18446744073709551615. lia.
Qed.
Lemma to_request_id_num n : safe n = true → to_request_id (f64_of_N n) = n.
Proof.
  intros Hn%N.ltb_lt. unfold to_request_id. rewrite f64_of_N_finite by done.
  apply f64_as_of_N; [done|]. change u64_max with 18446744073709551615. lia.
Qed.
Lemma to_code_num n : safe n = true → to_code (f64_of_N n) = n.
Proof.
  intros Hn%N.ltb_lt. unfold to_code. rewrite f64_of_N_finite by done. unfold f64_as_u64.
  rewrite f64_as_of_N; [|done|change u64_max with 18446744073709551615; lia].
  change (N.shiftl 1 62 - 1) with 4611686018427387903. lia.
Qed.
Lemma length_arg_num n : 1 <= n → n <= 4096 → length_arg (f64_of_N n) = Ok n.
Proof.
  intros H1 H2. assert (Hn : n < 2 ^ 53) by (change (2 ^ 53) with 9007199254740992; lia).
  unfold length_arg, bad_length. pose proof (f64_of_N_finite n Hn) as [-> _]%andb_true_iff.
  rewrite f64_fract_int, f64_int_between by done. cbn. f_equal.
  apply f64_as_of_N; [done|]. change (2 ^ 32 - 1) with 4294967295. lia.
Qed.

Ltac numbers :=
  repeat match goal with
  | H : _ && _ = true |- _ => apply andb_true_iff in H as [? ?]
  | H : (_ <=? _) = true |- _ => apply N.leb_le in H
  end;
  rewrite ?to_stream_id_num, ?to_request_id_num, ?to_code_num, ?length_arg_num by assumption; cbn.

Lemma trunc32_small n : (n <? 2 ^ 32) = true → safe n = true ∧ trunc32 n = n.
Proof.
  intros Hn%N.ltb_lt. split; [|by apply N.mod_small]. apply N.ltb_lt. revert Hn.
  change (2 ^ 32) with 4294967296. change (2 ^ 53) with 9007199254740992. lia.
Qed.

Lemma client_call_ok h cmd :
  client_sendable cmd = true →
  ∃ f, assoc (client_call h cmd).1 client_exports = Some f ∧ f (client_call h cmd).2 = Ok (h, cmd).
Proof.
  intros Hs. destruct cmd; (eexists; split; [reflexivity|]); cbn in Hs;
    unfold open_stream, write_stream, fin_stream, reset_stream, stop_sending, set_paused, send_datagram,
      close_session, drain, get_stats, export_keying_material, shutdown,
      stream_id_arg, request_id_arg, code_arg; cbn; try (by numbers).
  destruct (trunc32_small code Hs) as [Hsafe Ht]. numbers. by rewrite Ht.
Qed.

Lemma server_call_ok h cmd :
  server_sendable cmd = true →
  ∃ f, assoc (server_call h cmd).1 server_exports = Some f ∧ f (server_call h cmd).2 = Ok (h, cmd).
Proof.
  intros Hs. destruct cmd as [s cmd|]; [|eexists; split; reflexivity].
  cbn in Hs. apply andb_true_iff in Hs as [Hsafe Hs].
  destruct cmd; (eexists; split; [reflexivity|]);
    unfold server_open_stream, server_write, server_fin, server_reset, server_stop_sending, server_set_paused,
      server_send_datagram, server_close_session, server_drain, server_get_stats, server_export_keying_material,
      session_arg, for_session, stream_id_arg, request_id_arg, code_arg; cbn; try (by numbers).
  destruct (trunc32_small code Hs) as [Hc Ht]. numbers. by rewrite Ht.
Qed.

(** ** Calls in sequence *)

Fixpoint invoke_all {A} (exports : list (rstring * (list JsValue → result Thrown (N * A))))
    (calls : list (rstring * list JsValue)) (channels : N → Channel A) : list (result Thrown ()) * (N → Channel A) :=
  match calls with
  | [] => ([], channels)
  | (name, args) :: calls =>
      let '(r, channels) := invoke exports name args channels in
      let '(rs, channels) := invoke_all exports calls channels in
      (r :: rs, channels)
  end.

(** The commands for the handle [h], in order. *)
Definition sent_to {A} (h : N) (cmds : list (N * A)) : list A :=
  omap (fun c => if decide (c.1 = h) then Some c.2 else None) cmds.

(** Every call succeeds, and each channel has received its commands, in order,
    with a wake-up for each. *)
Definition delivered {A} (cmds : list (N * A)) (channels : N → Channel A)
    (outcome : list (result Thrown ()) * (N → Channel A)) : Prop :=
  Forall (fun r => r = Ok ()) outcome.1 ∧
  ∀ h, ch_queue (outcome.2 h) = ch_queue (channels h) ++ sent_to h cmds ∧
    ch_wakes (outcome.2 h) = (ch_wakes (channels h) + length (sent_to h cmds))%nat.

Lemma invoke_all_delivered {A} exports (call : N → A → rstring * list JsValue) cmds channels :
  (∀ h c, (h, c) ∈ cmds → ∃ f, assoc (call h c).1 exports = Some f ∧ f (call h c).2 = Ok (h, c)) →
  delivered cmds channels (invoke_all exports (map (fun c => call c.1 c.2) cmds) channels).
Proof.
  revert channels. induction cmds as [|[h c] cmds IH]; intros channels Hok.
  { split; [done|]. intros h. cbn. by rewrite app_nil_r, Nat.add_0_r. }
  destruct (Hok h c) as (f & Hf & Hr); [by left|]. cbn [map invoke_all fst snd].
  destruct (call h c) as [name args]. cbn [fst snd] in Hf, Hr. unfold invoke. rewrite Hf, Hr.
  match goal with |- context [invoke_all exports _ ?ch] => set (ch1 := ch) end.
  pose proof (IH ch1 ltac:(intros; apply Hok; by right)) as [Hrs Hch].
  destruct (invoke_all exports _ ch1) as [rs ch2]. cbn [fst snd] in *. split; [by apply Forall_cons|].
  intros i. cbn [snd]. destruct (Hch i) as [-> ->]. unfold ch1, sent_to. cbn [omap list_omap fst snd].
  rewrite (decide_ext (i = h) (h = i)) by done. destruct (decide (h = i)) as [<-|]; cbn; [|done].
  rewrite <- app_assoc. split; [done|lia].
Qed.

(** What JavaScript asks for is what the network threads are told.  Calls
    made as the TypeScript layer makes them, with ids that a JavaScript number
    holds exactly, all succeed; each thread's channel receives exactly the
    commands meant, their numbers and bytes intact, in the order of the calls,
    and its thread is woken for each. *)
Lemma commands_reach_threads (client : list (N * Driver.Command)) (server : list (N * Server.ServerCommand))
    (client_channels : N → Channel Driver.Command) (server_channels : N → Channel Server.ServerCommand) :
  Forall (fun c => client_sendable c.2 = true) client → Forall (fun c => server_sendable c.2 = true) server →
  delivered client client_channels
    (invoke_all client_exports (map (fun c => client_call c.1 c.2) client) client_channels) ∧
  delivered server server_channels
    (invoke_all server_exports (map (fun c => server_call c.1 c.2) server) server_channels).
Proof.
  intros Hc Hs. rewrite Forall_forall in Hc. rewrite Forall_forall in Hs. split; apply invoke_all_delivered; intros h c Hin.
  - by apply client_call_ok, (Hc (h, c)).
  - by apply server_call_ok, (Hs (h, c)).
Qed.

(** ** Arbitrary calls *)

(** What the network threads rely on in a command. *)
Definition client_in_range (cmd : Driver.Command) : Prop :=
  match cmd with
  | Driver.ResetStream id code | Driver.StopSending id code => id <= u64_max ∧ code < 2 ^ 62
  | Driver.Close code _ => code < 2 ^ 32
  | Driver.ExportKeyingMaterial r _ _ n => r <= u64_max ∧ 1 <= n <= 4096
  | Driver.Write id _ r => id <= u64_max ∧ r <= u64_max
  | Driver.OpenStream r _ | Driver.SendDatagram _ r | Driver.GetStats r => r <= u64_max
  | Driver.Fin id | Driver.SetPaused id _ => id <= u64_max
  | Driver.Drain | Driver.Shutdown => True
  end.
Definition server_in_range (cmd : Server.ServerCommand) : Prop :=
  match cmd with
  | Server.Shutdown => True
  | Server.ForSession s cmd =>
      s <= u64_max ∧
      match cmd with
      | Server.ResetStream id code | Server.StopSending id code => id <= u64_max ∧ code < 2 ^ 62
      | Server.CloseSession code _ => code < 2 ^ 32
      | Server.ExportKeyingMaterial r _ _ n => r <= u64_max ∧ 1 <= n <= 4096
      | Server.Write id _ r => id <= u64_max ∧ r <= u64_max
      | Server.OpenStream r _ | Server.SendDatagram _ r | Server.GetStats r => r <= u64_max
      | Server.Fin id | Server.SetPaused id _ => id <= u64_max
      | Server.Drain => True
      end
  end.

(** Every number of the engine is a well-formed double. *)
Definition wf_args (args : list JsValue) : Prop :=
  ∀ v, JsNumber v ∈ args → valid_binary 53 1024 v = true.

Lemma argument_ok {A} (kind : JsValue → option A) args i a :
  argument kind args i = Ok a → ∃ v, args !! i = Some v ∧ kind v = Some a.
Proof.
  unfold argument. destruct (args !! i) as [v|]; [|done]. destruct (kind v) eqn:E; [|done]. cbn.
  intros [= <-]. eauto.
Qed.
Lemma stream_id_ok args i n : stream_id_arg args i = Ok n → n <= u64_max.
Proof. intros (v & _ & [= <-])%bind_ok. unfold to_stream_id. destruct (_ && _); [apply f64_saturate_le|done]. Qed.
Lemma request_id_ok args i n : request_id_arg args i = Ok n → n <= u64_max.
Proof. intros (v & _ & [= <-])%bind_ok. unfold to_request_id. destruct (_ && _); [apply f64_saturate_le|done]. Qed.
Lemma code_ok args i n : code_arg args i = Ok n → n < 2 ^ 62.
Proof.
  intros (v & _ & [= <-])%bind_ok. pose proof (to_code_le v) as H. revert H. change (2 ^ 62) with 4611686018427387904. lia.
Qed.
Lemma trunc32_lt n : trunc32 n < 2 ^ 32.
Proof. by apply N.mod_lt. Qed.
Lemma length_ok args i v n :
  wf_args args → argument as_number args i = Ok v → length_arg v = Ok n → 1 <= n <= 4096.
Proof.
  intros Hw (x & Hx & Hv)%argument_ok. unfold length_arg. destruct (bad_length v) eqn:Hb; [done|]. intros [= <-].
  destruct x; try done. injection Hv as ->. apply f64_between.
  - apply Hw. by eapply list_elem_of_lookup_2.
  - unfold bad_length in Hb. apply orb_false_iff in Hb as [_ Hb]. by apply negb_false_iff in Hb.
Qed.
Lemma session_ok args s : session_arg args = Ok s → args !! 0%nat = Some (JsBoxServer s.1) ∧ s.2 <= u64_max.
Proof.
  intros (h & (v & Hv & Hh)%argument_ok & (n & Hn%stream_id_ok & [= <-])%bind_ok)%bind_ok. cbn.
  destruct v; try done. injection Hh as <-. done.
Qed.
Lemma handle_ok args h : argument as_session args 0 = Ok h → args !! 0%nat = Some (JsBoxSession h).
Proof. intros (v & Hv & Hh)%argument_ok. destruct v; try done. by injection Hh as <-. Qed.
Lemma server_handle_ok args h : argument as_server args 0 = Ok h → args !! 0%nat = Some (JsBoxServer h).
Proof. intros (v & Hv & Hh)%argument_ok. destruct v; try done. by injection Hh as <-. Qed.

Lemma assoc_in {A} name (l : list (rstring * A)) a : assoc name l = Some a → a ∈ map snd l.
Proof.
  induction l as [|[k b] l IH]; cbn; [done|]. destruct (decide _); [intros [= <-]; by left|right; auto].
Qed.

Ltac take_args :=
  repeat match goal with
  | H : (_ ≫= _) = Ok _ |- _ => apply bind_ok in H as (? & ? & H)
  | H : Ok _ = Ok _ |- _ => injection H as <- <-
  | H : for_session _ _ = Ok _ |- _ => injection H as <- <-
  | H : argument as_session _ 0 = Ok _ |- _ => apply handle_ok in H
  | H : argument as_server _ 0 = Ok _ |- _ => apply server_handle_ok in H
  | H : session_arg _ = Ok _ |- _ => apply session_ok in H as [? ?]
  | H : stream_id_arg _ _ = Ok _ |- _ => apply stream_id_ok in H
  | H : request_id_arg _ _ = Ok _ |- _ => apply request_id_ok in H
  | H : code_arg _ _ = Ok _ |- _ => apply code_ok in H
  | H : length_arg _ = Ok _, Ha : argument as_number _ _ = Ok _ |- _ => apply (length_ok _ _ _ _ ltac:(eassumption) Ha) in H
  end.

Lemma client_export_ok f args h cmd :
  f ∈ map snd client_exports → wf_args args → f args = Ok (h, cmd) →
  args !! 0%nat = Some (JsBoxSession h) ∧ client_in_range cmd.
Proof.
  intros Hf Hw. cbn in Hf. rewrite !elem_of_cons, elem_of_nil in Hf.
  repeat (destruct Hf as [->|Hf]; [intros H; unfold open_stream, write_stream, fin_stream, reset_stream, stop_sending,
    set_paused, send_datagram, close_session, drain, get_stats, export_keying_material, shutdown in H;
    take_args; cbn; auto using trunc32_lt|]). done.
Qed.

Lemma server_export_ok f args h cmd :
  f ∈ map snd server_exports → wf_args args → f args = Ok (h, cmd) →
  args !! 0%nat = Some (JsBoxServer h) ∧ server_in_range cmd.
Proof.
  intros Hf Hw. cbn in Hf. rewrite !elem_of_cons, elem_of_nil in Hf.
  repeat (destruct Hf as [->|Hf]; [intros H; unfold server_open_stream, server_write, server_fin, server_reset,
    server_stop_sending, server_set_paused, server_send_datagram, server_close_session, server_drain,
    server_get_stats, server_export_keying_material, server_shutdown in H; take_args; cbn; auto using trunc32_lt|]). done.
Qed.

(** C31: whatever JavaScript passes, a call of an exported function either throws
    and sends nothing, or sends one command to the thread of the handle it was
    given and to no other, and the command is in range: ids and request ids are
    64-bit, stream codes are 62-bit values, close codes 32-bit, and an amount of
    keying material is between 1 and 4096 bytes. *)
Theorem calls_in_range (name : rstring) (args : list JsValue)
    (client : N → Channel Driver.Command) (server : N → Channel Server.ServerCommand) :
  wf_args args →
  match invoke client_exports name args client with
  | (Err _, client') => client' = client
  | (Ok _, client') => ∃ h cmd, args !! 0%nat = Some (JsBoxSession h) ∧ client_in_range cmd ∧
      client' h = send cmd (client h) ∧ ∀ i, i ≠ h → client' i = client i
  end ∧
  match invoke server_exports name args server with
  | (Err _, server') => server' = server
  | (Ok _, server') => ∃ h cmd, args !! 0%nat = Some (JsBoxServer h) ∧ server_in_range cmd ∧
      server' h = send cmd (server h) ∧ ∀ i, i ≠ h → server' i = server i
  end.
Proof.
  intros Hw. unfold invoke. split.
  - destruct (assoc name client_exports) as [f|] eqn:Hf; [|done]. destruct (f args) as [[h cmd]|e] eqn:Hr; [|done].
    destruct (client_export_ok f args h cmd (assoc_in _ _ _ Hf) Hw Hr). exists h, cmd.
    split; [done|]. split; [done|]. split; [by rewrite decide_True|]. intros i Hi. by rewrite decide_False.
  - destruct (assoc name server_exports) as [f|] eqn:Hf; [|done]. destruct (f args) as [[h cmd]|e] eqn:Hr; [|done].
    destruct (server_export_ok f args h cmd (assoc_in _ _ _ Hf) Hw Hr). exists h, cmd.
    split; [done|]. split; [done|]. split; [by rewrite decide_True|]. intros i Hi. by rewrite decide_False.
Qed.

Module Example.
Definition quiet {A} (h : N) : Channel A := mkChannel [] 0.

(** Two handles, each of whose commands reach its thread. *)
Example commands_reach_threads_example :
  ch_queue ((invoke_all client_exports (map (fun c => client_call c.1 c.2)
    [(1, Driver.Write 4 (s2b "hi") 9); (2, Driver.Drain); (1, Driver.Fin 4)]) quiet).2 1) =
  [Driver.Write 4 (s2b "hi") 9; Driver.Fin 4].
Proof.
  destruct (commands_reach_threads [(1, Driver.Write 4 (s2b "hi") 9); (2, Driver.Drain); (1, Driver.Fin 4)] [] quiet quiet)
    as [[_ H] _]; [repeat (apply Forall_cons; split; [vm_compute; reflexivity|]); apply Forall_nil_2|apply Forall_nil_2|].
  destruct (H 1) as [-> _]. reflexivity.
Qed.

(** A NaN as length, and a stream id that is no number. *)
Lemma calls_in_range_witness :
  (invoke client_exports (s2b "exportKeyingMaterial")
    [JsBoxSession 1; JsNumber (f64_of_N 3); JsTypedArray []; JsTypedArray []; JsNumber S754_nan] quiet).2 = quiet ∧
  (invoke client_exports (s2b "finStream") [JsBoxSession 1; JsNull] quiet).2 = quiet.
Proof.
  split.
  - apply (calls_in_range (s2b "exportKeyingMaterial")
      [JsBoxSession 1; JsNumber (f64_of_N 3); JsTypedArray []; JsTypedArray []; JsNumber S754_nan] quiet quiet).
    intros v. rewrite !elem_of_cons, elem_of_nil. intros [Hv|[Hv|[Hv|[Hv|[Hv|[]]]]]]; try discriminate Hv;
      injection Hv as ->; reflexivity.
  - apply (calls_in_range (s2b "finStream") [JsBoxSession 1; JsNull] quiet quiet).
    intros v. rewrite !elem_of_cons, elem_of_nil. intros [Hv|[Hv|[]]]; discriminate Hv.
Defined.
End Example.
