(* ===== verification/NativeEvents.v ===== *)
(** * Events as JavaScript objects ([crates/native/src/lib.rs])

    [ev_to_js] and [server_msg_to_js], and the reading of such objects by their
    property names, as the TypeScript layer does it. *)

From S2P Require Import Prelude Quic Float64 SessionState NativeApi NativeCalls.
From S2P Require Server.

(** [obj.set(key, v)] on a plain object.  The name [__proto__] is the setter
    inherited from [Object.prototype], which ignores the strings that are the
    only values set under a name from the peer. *)
Definition PROTO : rstring := s2b "__proto__".
Fixpoint put_field (key : rstring) (v : JsValue) (o : list (rstring * JsValue)) : list (rstring * JsValue) :=
  match o with
  | [] => [(key, v)]
  | (k, w) :: o => if decide (k = key) then (k, v) :: o else (k, w) :: put_field key v o
  end.
Definition obj_set (o : list (rstring * JsValue)) (kv : rstring * JsValue) : list (rstring * JsValue) :=
  if decide (kv.1 = PROTO) then o else put_field kv.1 kv.2 o.
Definition object (l : list (rstring * JsValue)) : list (rstring * JsValue) := foldl obj_set [] l.

Definition set_str (key : string) (s : rstring) : rstring * JsValue := (s2b key, JsString s).
Definition set_num (key : string) (n : N) : rstring * JsValue := (s2b key, num n).
Definition set_f64 (key : string) (v : f64) : rstring * JsValue := (s2b key, JsNumber v).
Definition set_bool (key : string) (b : bool) : rstring * JsValue := (s2b key, JsBoolean b).
Definition set_buf (key : string) (d : bytes) : rstring * JsValue := (s2b key, JsTypedArray d).
Definition set_opt (key : string) (o : option rstring) : rstring * JsValue :=
  (s2b key, match o with Some s => JsString s | None => JsNull end).

(** The request's headers, by name. *)
Definition headers_object (headers : list (rstring * rstring)) : list (rstring * JsValue) :=
  object (map (fun kv => (kv.1, JsString kv.2)) headers).

(** Arrays: of name and value, and of strings. *)
Definition pairs_array (l : list (rstring * rstring)) : JsValue :=
  JsArray (map (fun kv => JsArray [JsString kv.1; JsString kv.2]) l).
Definition strings_array (l : list rstring) : JsValue := JsArray (map JsString l).

Definition ev_to_js (e : Ev) : list (rstring * JsValue) :=
  object
  match e with
  | EvReady protocol headers =>
      [set_str "type" (s2b "ready"); set_opt "protocol" protocol;
       (s2b "responseHeaders", pairs_array headers)]
  | EvDraining => [set_str "type" (s2b "draining")]
  | EvStats request_id bytes_sent bytes_received packets_sent packets_received packets_lost srtt var min =>
      [set_str "type" (s2b "stats"); set_num "requestId" request_id; set_num "bytesSent" bytes_sent;
       set_num "bytesReceived" bytes_received; set_num "packetsSent" packets_sent;
       set_num "packetsReceived" packets_received; set_num "packetsLost" packets_lost;
       set_f64 "smoothedRtt" srtt; set_f64 "rttVariation" var; set_f64 "minRtt" min]
  | EvServerReady authority path origin headers requested_protocols protocol remote_addr remote_port =>
      [set_str "type" (s2b "serverReady"); set_str "authority" authority; set_str "path" path;
       set_opt "origin" origin; (s2b "headers", JsObject (headers_object headers));
       (s2b "requestedProtocols", strings_array requested_protocols); set_opt "protocol" protocol;
       set_str "remoteAddress" remote_addr; set_num "remotePort" remote_port]
  | EvClosed code reason remote =>
      [set_str "type" (s2b "closed"); set_num "code" code; set_buf "reason" reason; set_bool "remote" remote]
  | EvError message => [set_str "type" (s2b "error"); set_str "message" message]
  | EvDatagram data => [set_str "type" (s2b "datagram"); set_buf "data" data]
  | EvIncomingStream id bidi => [set_str "type" (s2b "stream"); set_num "streamId" id; set_bool "bidi" bidi]
  | EvStreamData id data => [set_str "type" (s2b "streamData"); set_num "streamId" id; set_buf "data" data]
  | EvStreamFinished id => [set_str "type" (s2b "streamFin"); set_num "streamId" id]
  | EvStreamReset id code => [set_str "type" (s2b "streamReset"); set_num "streamId" id; set_num "code" code]
  | EvStreamStopSending id code =>
      [set_str "type" (s2b "streamStopSending"); set_num "streamId" id; set_num "code" code]
  | EvStreamOpened request_id id =>
      [set_str "type" (s2b "streamOpened"); set_num "requestId" request_id; set_num "streamId" id]
  | EvWriteAck request_id => [set_str "type" (s2b "writeAck"); set_num "requestId" request_id]
  | EvDatagramAck request_id sent =>
      [set_str "type" (s2b "datagramAck"); set_num "requestId" request_id; set_bool "sent" sent]
  | EvKeyingMaterial request_id data =>
      [set_str "type" (s2b "keyingMaterial"); set_num "requestId" request_id] ++
      match data with
      | Some bytes => [set_bool "ok" true; set_buf "data" bytes]
      | None => [set_bool "ok" false]
      end
  end.

Definition server_msg_to_js (msg : Server.ServerMsg) : list (rstring * JsValue) :=
  match msg with
  | Server.Listening port => object [set_str "type" (s2b "listening"); set_num "port" port]
  | Server.ServerError message => object [set_str "type" (s2b "serverError"); set_str "message" message]
  | Server.ServerClosed => object [set_str "type" (s2b "serverClosed")]
  | Server.SessionMsg session e => obj_set (ev_to_js e) (set_num "session" session)
  end.

(** ** Reading *)

Section read.
Context (o : list (rstring * JsValue)).
Definition field (key : string) : option JsValue := assoc (s2b key) o.
Definition get_str (key : string) : option rstring := field key ≫= as_string.
Definition get_f64 (key : string) : option f64 := field key ≫= as_number.
Definition get_num (key : string) : option N := f64_as_u64 <$> get_f64 key.
Definition get_bool (key : string) : option bool := field key ≫= as_boolean.
Definition get_buf (key : string) : option bytes := field key ≫= as_bytes.
Definition get_opt (key : string) : option (option rstring) :=
  v ← field key; match v with JsNull => Some None | JsString s => Some (Some s) | _ => None end.
End read.

Definition read_pair (v : JsValue) : option (rstring * rstring) :=
  l ← as_array v;
  match l with [JsString k; JsString w] => Some (k, w) | _ => None end.
Definition read_pairs (v : JsValue) : option (list (rstring * rstring)) := as_array v ≫= mapM read_pair.
Definition read_strings (v : JsValue) : option (list rstring) := as_array v ≫= mapM as_string.
Definition read_headers (v : JsValue) : option (list (rstring * rstring)) :=
  match v with
  | JsObject o => mapM (fun kv : rstring * JsValue => s ← as_string kv.2; Some (kv.1, s)) o
  | _ => None
  end.

Definition read_event (o : list (rstring * JsValue)) : option Ev :=
  ty ← get_str o "type";
  let typed (name : string) := bool_decide (ty = s2b name) in
  if typed "ready" then
    protocol ← get_opt o "protocol";
    headers ← field o "responseHeaders" ≫= read_pairs;
    Some (EvReady protocol headers)
  else if typed "draining" then Some EvDraining
  else if typed "stats" then
    request_id ← get_num o "requestId"; bs ← get_num o "bytesSent"; br ← get_num o "bytesReceived";
    ps ← get_num o "packetsSent"; pr ← get_num o "packetsReceived"; pl ← get_num o "packetsLost";
    srtt ← get_f64 o "smoothedRtt"; var ← get_f64 o "rttVariation"; min ← get_f64 o "minRtt";
    Some (EvStats request_id bs br ps pr pl srtt var min)
  else if typed "serverReady" then
    authority ← get_str o "authority"; path ← get_str o "path"; origin ← get_opt o "origin";
    headers ← field o "headers" ≫= read_headers;
    requested ← field o "requestedProtocols" ≫= read_strings;
    protocol ← get_opt o "protocol"; addr ← get_str o "remoteAddress"; port ← get_num o "remotePort";
    Some (EvServerReady authority path origin headers requested protocol addr port)
  else if typed "closed" then
    code ← get_num o "code"; reason ← get_buf o "reason"; remote ← get_bool o "remote";
    Some (EvClosed code reason remote)
  else if typed "error" then message ← get_str o "message"; Some (EvError message)
  else if typed "datagram" then data ← get_buf o "data"; Some (EvDatagram data)
  else if typed "stream" then id ← get_num o "streamId"; bidi ← get_bool o "bidi"; Some (EvIncomingStream id bidi)
  else if typed "streamData" then id ← get_num o "streamId"; data ← get_buf o "data"; Some (EvStreamData id data)
  else if typed "streamFin" then id ← get_num o "streamId"; Some (EvStreamFinished id)
  else if typed "streamReset" then id ← get_num o "streamId"; code ← get_num o "code"; Some (EvStreamReset id code)
  else if typed "streamStopSending" then
    id ← get_num o "streamId"; code ← get_num o "code"; Some (EvStreamStopSending id code)
  else if typed "streamOpened" then
    request_id ← get_num o "requestId"; id ← get_num o "streamId"; Some (EvStreamOpened request_id id)
  else if typed "writeAck" then request_id ← get_num o "requestId"; Some (EvWriteAck request_id)
  else if typed "datagramAck" then
    request_id ← get_num o "requestId"; sent ← get_bool o "sent"; Some (EvDatagramAck request_id sent)
  else if typed "keyingMaterial" then
    request_id ← get_num o "requestId"; ok ← get_bool o "ok";
    if (ok : bool) then data ← get_buf o "data"; Some (EvKeyingMaterial request_id (Some data))
    else Some (EvKeyingMaterial request_id None)
  else None.

Definition read_server_msg (o : list (rstring * JsValue)) : option Server.ServerMsg :=
  ty ← get_str o "type";
  if bool_decide (ty = s2b "listening") then port ← get_num o "port"; Some (Server.Listening port)
  else if bool_decide (ty = s2b "serverError") then m ← get_str o "message"; Some (Server.ServerError m)
  else if bool_decide (ty = s2b "serverClosed") then Some Server.ServerClosed
  else e ← read_event o; session ← get_num o "session"; Some (Server.SessionMsg session e).

(** The numbers of an event that a JavaScript number holds exactly. *)
Definition safe_event (e : Ev) : bool :=
  match e with
  | EvStats r a b c d f _ _ _ => safe r && safe a && safe b && safe c && safe d && safe f
  | EvServerReady _ _ _ _ _ _ _ port => safe port
  | EvClosed code _ _ => safe code
  | EvIncomingStream id _ | EvStreamData id _ | EvStreamFinished id => safe id
  | EvStreamReset id code | EvStreamStopSending id code => safe id && safe code
  | EvStreamOpened r id => safe r && safe id
  | EvWriteAck r | EvDatagramAck r _ | EvKeyingMaterial r _ => safe r
  | EvReady _ _ | EvDraining | EvError _ | EvDatagram _ => true
  end.
(** Header names that an object keeps apart. *)
Definition distinct_headers (e : Ev) : Prop :=
  match e with EvServerReady _ _ _ headers _ _ _ _ => NoDup (PROTO :: map fst headers) | _ => True end.

Lemma f64_as_u64_num n : safe n = true → f64_as_u64 (f64_of_N n) = n.
Proof.
  intros Hn%N.ltb_lt. unfold f64_as_u64. apply f64_as_of_N; [done|].
  change u64_max with 18446744073709551615. lia.
Qed.

Lemma put_field_new key v o : key ∉ map fst o → put_field key v o = o ++ [(key, v)].
Proof.
  induction o as [|[k w] o IH]; cbn; [done|]. intros [Hne Hin]%not_elem_of_cons.
  rewrite decide_False by done. by rewrite IH.
Qed.
Lemma object_distinct l : NoDup (PROTO :: map fst l) → object l = l.
Proof.
  intros [Hp Hn]%NoDup_cons. unfold object.
  assert (H : ∀ o, NoDup (map fst o ++ map fst l) → foldl obj_set o l = o ++ l); [|by apply (H [])].
  clear Hn. induction l as [|[k v] l IH]; intros o Ho; cbn [foldl]; [by rewrite app_nil_r|].
  cbn [map fst] in *. apply not_elem_of_cons in Hp as [Hk Hp]. unfold obj_set at 2. cbn [fst snd].
  rewrite decide_False by done. rewrite put_field_new.
  - rewrite IH; [by rewrite <- app_assoc|done|]. rewrite map_app, <- app_assoc. done.
  - apply NoDup_app in Ho as (_ & Hd & _). intros Hin. by apply (Hd k Hin); left.
Qed.

(** Of several headers of a name, an object has the last. *)
Definition last_of (name : rstring) (headers : list (rstring * rstring)) : option rstring :=
  last (omap (fun kv => if decide (kv.1 = name) then Some kv.2 else None) headers).

Lemma put_field_get key v o name : assoc name (put_field key v o) = if decide (name = key) then Some v else assoc name o.
Proof.
  induction o as [|[k w] o IH]; cbn [put_field assoc]; [done|].
  destruct (decide (k = key)) as [<-|Hk]; cbn [assoc].
  - by destruct (decide (name = k)).
  - rewrite IH. destruct (decide (name = k)) as [->|]; [|done]. by rewrite decide_False.
Qed.

Lemma headers_object_get headers name :
  assoc name (headers_object headers) =
    if decide (name = PROTO) then None else JsString <$> last_of name headers.
Proof.
  unfold headers_object, object, last_of. induction headers as [|[k v] headers IH] using rev_ind.
  { cbn. by destruct (decide _). }
  rewrite map_app, foldl_app, omap_app. cbn [map foldl omap list_omap fst snd]. unfold obj_set at 1. cbn [fst snd].
  destruct (decide (k = PROTO)) as [->|Hk].
  - rewrite IH. destruct (decide (name = PROTO)) as [|Hn]; [done|]. rewrite (decide_False (P := PROTO = name)) by congruence.
    by rewrite app_nil_r.
  - rewrite put_field_get, IH. rewrite (decide_ext (k = name) (name = k)) by done.
    destruct (decide (name = k)) as [->|].
    + rewrite decide_False by done. by rewrite last_snoc.
    + by rewrite app_nil_r.
Qed.

Lemma read_pairs_array l : read_pairs (pairs_array l) = Some l.
Proof. unfold read_pairs. cbn. induction l as [|[k v] l IH]; [done|]. cbn. by rewrite IH. Qed.
Lemma read_strings_array l : read_strings (strings_array l) = Some l.
Proof. unfold read_strings. cbn. induction l as [|s l IH]; [done|]. cbn. by rewrite IH. Qed.
Lemma read_headers_object headers :
  NoDup (PROTO :: map fst headers) → read_headers (JsObject (headers_object headers)) = Some headers.
Proof.
  intros Hn. unfold headers_object. rewrite object_distinct by (rewrite map_map; exact Hn). cbn [read_headers]. clear Hn.
  induction headers as [|[k v] headers IH]; [done|]. cbn. by rewrite IH.
Qed.

(** Evaluate the property names, not what they hold. *)
Ltac eval_fields :=
  lazy -[f64_of_N f64_as_u64 headers_object pairs_array strings_array read_headers read_pairs read_strings];
  repeat match goal with H : _ && _ = true |- _ => apply andb_true_iff in H as [? ?] end;
  rewrite ?f64_as_u64_num by assumption.

Lemma read_event_extended e extra :
  safe_event e = true → distinct_headers e → extra = [] ∨ (∃ n, extra = [set_num "session" n]) →
  read_event (foldl obj_set (ev_to_js e) extra) = Some e.
Proof.
  intros Hs Hd He. destruct He as [->|[n ->]]; destruct e; cbn [safe_event distinct_headers] in Hs, Hd;
    repeat match goal with o : option _ |- _ => destruct o end; eval_fields;
    rewrite ?read_pairs_array, ?read_headers_object, ?read_strings_array by exact Hd; reflexivity.
Qed.

(** A session's event is no server event, and carries the session's id. *)
Definition server_type (ty : rstring) : bool :=
  bool_decide (ty = s2b "listening") || bool_decide (ty = s2b "serverError") || bool_decide (ty = s2b "serverClosed").
Lemma session_event_fields e n :
  let o := obj_set (ev_to_js e) (set_num "session" n) in
  get_num o "session" = Some (f64_as_u64 (f64_of_N n)) ∧ server_type <$> get_str o "type" = Some false.
Proof.
  destruct e; repeat match goal with o : option _ |- _ => destruct o end;
    lazy -[f64_of_N f64_as_u64 headers_object pairs_array strings_array]; done.
Qed.

Definition safe_msg (msg : Server.ServerMsg) : bool :=
  match msg with
  | Server.Listening port => safe port
  | Server.SessionMsg session e => safe session && safe_event e
  | Server.ServerError _ | Server.ServerClosed => true
  end.
Definition distinct_msg (msg : Server.ServerMsg) : Prop :=
  match msg with Server.SessionMsg _ e => distinct_headers e | _ => True end.

Lemma read_ev_to_js e : safe_event e = true → distinct_headers e → read_event (ev_to_js e) = Some e.
Proof. intros Hs Hd. apply (read_event_extended e []); auto. Qed.

Lemma read_server_msg_to_js msg :
  safe_msg msg = true → distinct_msg msg → read_server_msg (server_msg_to_js msg) = Some msg.
Proof.
  intros Hs Hd. destruct msg as [port|message| |session ev]; [eval_fields; reflexivity..|].
  cbn [safe_msg distinct_msg] in Hs, Hd. apply andb_true_iff in Hs as [Hn Hs]. unfold read_server_msg, server_msg_to_js.
  destruct (session_event_fields ev session) as (Hnum & Hkind). cbv zeta in *.
  apply fmap_Some in Hkind as (ty & Hty & Hkind). symmetry in Hkind. unfold server_type in Hkind.
  apply orb_false_iff in Hkind as [[Hk1 Hk2]%orb_false_iff Hk3]. rewrite Hty. cbn [mbind option_bind].
  rewrite Hk1, Hk2, Hk3, Hnum, f64_as_u64_num by done.
  pose proof (read_event_extended ev [set_num "session" session] Hs Hd ltac:(eauto)) as H. cbn [foldl] in H. by rewrite H.
Qed.

(** C30: nothing is lost on the way to JavaScript.  The object of an event, or of
    a message of the server, read by its property names gives the event back:
    all events, all fields, with the kinds told apart, as long as the numbers
    are ones JavaScript holds exactly and the names of a request's headers are
    distinct.  A request's headers in general are what an object can keep of
    them: of a repeated name the last value, and nothing of the name
    [__proto__]. *)
Theorem events_read_back (msg : Server.ServerMsg) (e : Ev) :
  (safe_event e = true → distinct_headers e → read_event (ev_to_js e) = Some e) ∧
  (safe_msg msg = true → distinct_msg msg → read_server_msg (server_msg_to_js msg) = Some msg) ∧
  (∀ headers name, assoc name (headers_object headers) =
    if decide (name = PROTO) then None else JsString <$> last_of name headers).
Proof.
  split; [apply read_ev_to_js|split; [apply read_server_msg_to_js|apply headers_object_get]].
Qed.

Module Example.
Definition ready : Ev :=
  EvServerReady (s2b "example.org") (s2b "/chat") None [(s2b "x-a", s2b "1"); (s2b "x-b", s2b "2")] [s2b "moq-00"]
    (Some (s2b "moq-00")) (s2b "127.0.0.1") 50000.

Lemma events_read_back_witness :
  read_server_msg (server_msg_to_js (Server.SessionMsg 3 ready)) = Some (Server.SessionMsg 3 ready).
Proof.
  apply (events_read_back (Server.SessionMsg 3 ready) ready); [vm_compute; reflexivity|].
  apply (bool_decide_unpack _). vm_compute. exact I.
Defined.
End Example.
