(* ===== verification/NativeBridge.v ===== *)
(** * Events on their way to the application ([crates/native/src/lib.rs])

    The sinks by which the network threads hand batches of events to the
    JavaScript thread: the channel of scheduled callbacks, the counter of
    batches in flight, and what the application's callback is given, under any
    interleaving of the two threads. *)

From S2P Require Import Prelude Quic Float64 SessionState NativeApi NativeCalls NativeEvents.
From S2P Require Server.

(** ** Messages

    What a batch consists of becomes objects for the callback; those that are
    [exact] can be read back. *)

Class JsMessage (Msg : Type) := {
  to_js : Msg → list (rstring * JsValue);
  read_js : list (rstring * JsValue) → option Msg;
  exact : Msg → Prop;
  to_js_read m : exact m → read_js (to_js m) = Some m;
}.

#[export] Instance ev_message : JsMessage Ev := {|
  to_js := ev_to_js;
  read_js := read_event;
  exact e := safe_event e = true ∧ distinct_headers e;
  to_js_read e H := read_ev_to_js e (proj1 H) (proj2 H);
|}.
#[export] Instance server_message : JsMessage Server.ServerMsg := {|
  to_js := server_msg_to_js;
  read_js := read_server_msg;
  exact msg := safe_msg msg = true ∧ distinct_msg msg;
  to_js_read msg H := read_server_msg_to_js msg (proj1 H) (proj2 H);
|}.

(** ** The sink *)

(** The shared counter, the batch the network thread is in the course of
    emitting, the callbacks scheduled on the channel, and the objects the
    application's callback has been called with. *)
Record Bridge {Msg : Type} := mkBridge {
  br_inflight : Inflight;
  br_emitting : option (list Msg);
  br_channel : list (list Msg);
  br_received : list (list (rstring * JsValue));
}.
Arguments Bridge : clear implicits.
Arguments mkBridge {Msg}.
#[export] Instance Bridge_eta {Msg} : Eta (Bridge Msg) := fun b =>
  mkBridge (br_inflight b) (br_emitting b) (br_channel b) (br_received b).

Definition bridge_new {Msg} : Bridge Msg := mkBridge (mkInflight 0 0) None [] [].

Section sink.
Context {Msg : Type} {js : JsMessage Msg}.

(** The first half of [emit], on the network thread: the batch is counted. *)
Definition emit_begin (batch : list Msg) (b : Bridge Msg) : Bridge Msg :=
  b <| br_inflight ::= fun i => atomic i Add |> <| br_emitting := Some batch |>.

(** The second half: the callback is scheduled, or it cannot be and the count
    is taken back. *)
Definition emit_end (scheduled : bool) (b : Bridge Msg) : option (Bridge Msg) :=
  match br_emitting b with
  | None => None
  | Some batch =>
      let b := b <| br_emitting := None |> in
      Some (if scheduled then b <| br_channel ::= fun q => q ++ [batch] |>
            else b <| br_inflight ::= release_inflight_batch |>)
  end.

(** The messages for which the application's callback is called: the loop stops
    at a call that throws. *)
Definition handed (threw : option nat) (batch : list Msg) : list Msg :=
  match threw with Some k => take (S k) batch | None => batch end.

(** The callback of the channel, on the JavaScript thread. *)
Definition dequeue (threw : option nat) (b : Bridge Msg) : option (Bridge Msg) :=
  match br_channel b with
  | [] => None
  | batch :: rest =>
      Some (b <| br_inflight ::= release_inflight_batch |> <| br_channel := rest |>
              <| br_received ::= fun l => l ++ map to_js (handed threw batch) |>)
  end.

(** ** Interleavings *)

Inductive Move := EmitBegin (batch : list Msg) | EmitEnd (scheduled : bool) | Dequeue (threw : option nat).

(** A thread emits one batch at a time. *)
Definition move (m : Move) (b : Bridge Msg) : option (Bridge Msg) :=
  match m with
  | EmitBegin batch => match br_emitting b with None => Some (emit_begin batch b) | Some _ => None end
  | EmitEnd scheduled => emit_end scheduled b
  | Dequeue threw => dequeue threw b
  end.

Fixpoint run_moves (l : list Move) (b : Bridge Msg) : option (Bridge Msg) :=
  match l with
  | [] => Some b
  | m :: l => b ← move m b; run_moves l b
  end.

(** The batches scheduled in the course of the moves, in order. *)
Fixpoint scheduled_batches (pending : option (list Msg)) (l : list Move) : list (list Msg) :=
  match l with
  | [] => []
  | EmitBegin batch :: l => scheduled_batches (Some batch) l
  | EmitEnd true :: l => option_list pending ++ scheduled_batches None l
  | EmitEnd false :: l => scheduled_batches None l
  | Dequeue _ :: l => scheduled_batches pending l
  end.
(** How the callbacks fared. *)
Definition outcomes (l : list Move) : list (option nat) :=
  omap (fun m => match m with Dequeue threw => Some threw | _ => None end) l.

Definition load (b : Bridge Msg) : nat := length (br_channel b) + length (option_list (br_emitting b)).

Lemma run_moves_app l k b : run_moves (l ++ k) b = (b' ← run_moves l b; run_moves k b').
Proof.
  revert b. induction l as [|m l IH]; intros b; [done|]. cbn [run_moves app]. destruct (move m b); [apply IH|done].
Qed.

Lemma move_inflight m b b' :
  move m b = Some b' → ∃ log, br_inflight b' = atomics log (br_inflight b) ∧
    outstanding log = (Z.of_nat (load b') - Z.of_nat (load b))%Z.
Proof.
  unfold load. destruct m as [batch|[]|threw]; cbn; unfold emit_end, dequeue.
  - destruct (br_emitting b); [done|]. intros [= <-]. exists [Add]. split; [done|]. unfold outstanding. cbn. lia.
  - destruct (br_emitting b); [|done]. intros [= <-]. exists []. split; [done|].
    unfold outstanding. cbn. rewrite length_app. cbn. lia.
  - destruct (br_emitting b); [|done]. intros [= <-]. exists [Release]. split; [done|]. unfold outstanding. cbn. lia.
  - destruct (br_channel b) as [|batch rest]; [done|]. intros [= <-]. exists [Release]. split; [done|].
    unfold outstanding. cbn. lia.
Qed.

Lemma run_moves_inflight l b b' :
  run_moves l b = Some b' → ∃ log, br_inflight b' = atomics log (br_inflight b) ∧
    outstanding log = (Z.of_nat (load b') - Z.of_nat (load b))%Z.
Proof.
  revert b. induction l as [|m l IH]; intros b; cbn [run_moves].
  { intros [= <-]. exists []. split; [done|]. unfold outstanding. cbn. lia. }
  destruct (move m b) as [b1|] eqn:E; [|done]. cbn. intros (log2 & E2 & O2)%IH.
  apply move_inflight in E as (log1 & E1 & O1). exists (log1 ++ log2). split.
  - rewrite E2, E1. unfold atomics. by rewrite foldl_app.
  - rewrite outstanding_app. lia.
Qed.

(** The channel is a queue: each callback takes the oldest batch. *)
Lemma run_moves_received l b b' :
  run_moves l b = Some b' →
  let sched := br_channel b ++ scheduled_batches (br_emitting b) l in
  (length (outcomes l) <= length sched)%nat ∧ br_channel b' = drop (length (outcomes l)) sched ∧
  br_received b' = br_received b ++ map to_js (concat (zip_with handed (outcomes l) sched)).
Proof.
  revert b. induction l as [|m l IH]; intros b; cbn [run_moves].
  { intros [= <-]. cbn. rewrite !app_nil_r. split; [lia|done]. }
  destruct (move m b) as [b1|] eqn:E; [|done]. cbn [mbind option_bind]. intros H%IH. clear IH. cbv zeta in H |- *.
  destruct m as [batch|[]|threw]; cbn in E; unfold emit_end, dequeue in E.
  - destruct (br_emitting b); [done|]. by injection E as <-.
  - destruct (br_emitting b) as [batch|]; [|done]. injection E as <-. cbn in H |- *. by rewrite <- app_assoc in H.
  - destruct (br_emitting b); [|done]. by injection E as <-.
  - destruct (br_channel b) as [|batch rest]; [done|]. injection E as <-.
    change (outcomes (Dequeue threw :: l)) with (threw :: outcomes l). cbn in H |- *.
    destruct H as (H1 & H2 & H3). split; [by apply le_n_S|]. split; [done|]. by rewrite H3, <- app_assoc, map_app.
Qed.
End sink.
Arguments Move : clear implicits.

(** What was handed over can be read back when no callback threw. *)
Lemma read_delivered {Msg} {js : JsMessage Msg} (l : list Msg) :
  Forall exact l → mapM read_js (map to_js l) = Some l.
Proof. induction 1 as [|m l Hm _ IH]; [done|]. cbn. rewrite (to_js_read m Hm). cbn. by rewrite IH. Qed.

Lemma handed_whole {Msg} (outs : list (option nat)) (sched : list (list Msg)) :
  Forall (fun o => o = None) outs → zip_with handed outs sched = take (length outs) sched.
Proof.
  intros H. revert sched. induction H as [|o outs -> _ IH]; intros [|b sched]; [done..|]. cbn. by rewrite IH.
Qed.

(** C32: nothing is lost or reordered on the way to the application.  Whatever
    the interleaving of the network thread, which emits batches, and the
    JavaScript thread, which runs the scheduled callbacks: the callbacks run in
    the order of the batches, each once; the application's function is given
    the objects of the messages in order, all of them unless it throws, which
    costs the rest of that batch and nothing else, so that once the channel is
    empty it can read back exactly the messages of the scheduled batches; the
    shared counter is the number of batches scheduled or being emitted; and
    whenever the network thread would be held back at one moment and no longer
    at a later one, it has been woken in between. *)
Theorem events_reach_application {Msg} {js : JsMessage Msg} (before after : list (Move Msg)) (b b' : Bridge Msg) :
  run_moves before bridge_new = Some b → run_moves after b = Some b' →
  let outs := outcomes (before ++ after) in
  let sched := scheduled_batches None (before ++ after) in
  ((length outs <= length sched)%nat ∧ br_channel b' = drop (length outs) sched ∧
   br_received b' = map to_js (concat (zip_with handed outs sched))) ∧
  (Forall (fun o => o = None) outs → br_channel b' = [] → Forall exact (concat sched) →
   mapM read_js (br_received b') = Some (concat sched)) ∧
  if_count (br_inflight b') = Z.of_nat (load b') ∧
  (backpressured (br_inflight b) = true → backpressured (br_inflight b') = false →
   (if_wakes (br_inflight b) < if_wakes (br_inflight b'))%nat).
Proof.
  intros E1 E2 outs sched.
  assert (E : run_moves (before ++ after) bridge_new = Some b') by (rewrite run_moves_app, E1; exact E2).
  pose proof (run_moves_received _ _ _ E) as Hr. cbn [bridge_new br_channel br_emitting br_received app] in Hr.
  split; [exact Hr|]. destruct Hr as (Hlen & Hch & Hrec). fold outs sched in Hlen, Hch, Hrec. split; [|split].
  - intros Hout Hempty Hex. rewrite Hrec, handed_whole, take_ge by (done || (rewrite Hch in Hempty;
      apply (f_equal length) in Hempty; rewrite length_drop in Hempty; cbn in Hempty; lia)).
    by apply read_delivered.
  - destruct (run_moves_inflight _ _ _ E) as (log & El & Ol). rewrite El, atomics_count, Ol. cbn. lia.
  - destruct (run_moves_inflight _ _ _ E1) as (log1 & El1 & _).
    destruct (run_moves_inflight _ _ _ E2) as (log2 & El2 & _). intros Hb Hb'.
    pose proof (backpressure_release_wakes log1 log2) as (_ & Hw & _). cbn [br_inflight bridge_new] in El1.
    rewrite El2, El1 in *. by apply Hw.
Qed.

(** The two sinks. *)
Definition NeonSink : Type := Bridge Ev.
Definition sink_move : Move Ev → NeonSink → option NeonSink := move.
Definition NeonServerSink : Type := Bridge Server.ServerMsg.
Definition server_sink_move : Move Server.ServerMsg → NeonServerSink → option NeonServerSink := move.

Module Example.
Definition first : list Server.ServerMsg := [Server.Listening 4433].
Definition second : list Server.ServerMsg := [Server.SessionMsg 1 EvDraining; Server.SessionMsg 1 (EvStreamFinished 4)].
Definition moves : list (Move Server.ServerMsg) :=
  [EmitBegin first; EmitEnd true; EmitBegin second; Dequeue None; EmitEnd true; EmitBegin second; EmitEnd false; Dequeue None].

Lemma events_reach_application_witness :
  ∃ b' : Bridge Server.ServerMsg, run_moves moves bridge_new = Some b' ∧
    mapM read_js (br_received b') = Some (first ++ second) ∧ if_count (br_inflight b') = 0%Z.
Proof.
  destruct (run_moves moves bridge_new) as [b'|] eqn:E; [|vm_compute in E; discriminate].
  exists b'. split; [done|].
  destruct (events_reach_application [] moves bridge_new b' eq_refl E) as ((_ & Hch & _) & Hread & Hcount & _).
  change (br_channel b' = []) in Hch. split.
  - change (Some (first ++ second)) with (Some (concat [first; second])). apply Hread; [by repeat constructor|done|].
    repeat (constructor; [split; [reflexivity|exact I]|]). constructor.
  - rewrite Hcount. unfold load. rewrite Hch. pose proof (f_equal (fun o => br_emitting <$> o) E) as He.
    change (Some None = Some (br_emitting b')) in He. injection He as <-. reflexivity.
Defined.
End Example.
