(* ===== verification/NativeConnect.v ===== *)
(** * Opening a session, and a server ([crates/native/src/lib.rs])

    [parse_url], [connect] and [serverListen]: from JavaScript arguments to what
    the network threads are started with.  The [url] crate is third-party. *)

From S2P Require Import Prelude Net IpText Tls Quic Float64 NativeApi NativeCalls.
From S2P Require RetryToken Driver Server.

(** ** URLs *)

(** [url::Host]. *)
Inductive UrlHost := Domain (name : rstring) | Ipv4 (a b c d : byte) | Ipv6 (segments : list N).

(** What the code asks of a parsed URL. *)
Record Url := mkUrl {
  ur_scheme : rstring;
  ur_fragment : option rstring;
  ur_username : rstring;
  ur_password : option rstring;
  ur_host : option UrlHost;
  ur_port_or_known_default : option N;
  (** From before the host to after the port, and from before the path to after
      the query. *)
  ur_authority : rstring;
  ur_path : rstring;
}.

Class UrlParser := { url_parse : rstring → result rstring Url }.
(** The URL standard: under [https], which is a special scheme, a domain is never
    an IP address (a host whose last label is a number is read as an IPv4 address
    or refused, and no domain has a colon).  The opaque hosts of other schemes are
    [Domain]s too and may read as anything: [foo://127.0.0.1/]. *)
Class UrlLaws `{UrlParser} := {
  domain_is_no_ip s u name :
    url_parse s = Ok u → ur_scheme u = s2b "https" → ur_host u = Some (Domain name) → parse_ip name = None;
  ipv6_segments s u l : url_parse s = Ok u → ur_host u = Some (Ipv6 l) → wf_ip (V6 l);
}.

Record ParsedUrl := mkParsedUrl {
  pu_host : rstring;
  pu_port : N;
  pu_sni : option rstring;
  pu_authority : rstring;
  pu_path : rstring;
}.

Definition host_string (h : UrlHost) : rstring :=
  match h with
  | Domain name => name
  | Ipv4 a b c d => ip_to_string (V4 a b c d)
  | Ipv6 segments => ip_to_string (V6 segments)
  end.

Definition parse_url `{UrlParser} (url : rstring) : result rstring ParsedUrl :=
  match url_parse url with
  | Err e => Err (s2b "invalid WebTransport URL: " ++ e)
  | Ok parsed =>
      if negb (bool_decide (ur_scheme parsed = s2b "https")) || bool_decide (is_Some (ur_fragment parsed)) ||
         negb (bool_decide (ur_username parsed = [])) || bool_decide (is_Some (ur_password parsed)) then
        Err (s2b "WebTransport URL must use HTTPS without credentials or a fragment")
      else
        host ← ok_or (s2b "WebTransport URL has no host") (ur_host parsed);
        port ← ok_or (s2b "invalid port") (ur_port_or_known_default parsed);
        let host := host_string host in
        let sni := match parse_ip host with Some _ => None | None => Some host end in
        Ok (mkParsedUrl host port sni (ur_authority parsed) (ur_path parsed))
  end.

(** ** Arguments that are arrays *)

Definition strings (l : list JsValue) : result Thrown (list rstring) :=
  mapM (fun v => ok_or TypeError (as_string v)) l.
(** Names and values, as far as both go. *)
Definition header_pairs (names values : list JsValue) : result Thrown (list (rstring * rstring)) :=
  mapM (fun kv : JsValue * JsValue =>
    k ← ok_or TypeError (as_string kv.1);
    v ← ok_or TypeError (as_string kv.2);
    Ok (k, v)) (zip names values).
Definition hash_entry (v : JsValue) : result Thrown bytes :=
  d ← ok_or TypeError (as_bytes v);
  if (length d =? 32)%nat then Ok d
  else Err (ThrownError (s2b "serverCertificateHashes entries must be 32 bytes (sha-256)")).

(** ** [connect] *)

Record SessionSetup := mkSessionSetup {
  st_host : rstring;
  st_port : N;
  st_sni : option rstring;
  st_authority : rstring;
  st_path : rstring;
  st_origin : option rstring;
  st_extra_headers : list (rstring * rstring);
  st_protocols : list rstring;
  st_config : ClientConfigParams;
}.

(** What creating the poller, its waker and the thread answer. *)
Record SpawnAnswers := mkSpawnAnswers {
  sa_poll : result rstring ();
  sa_waker : result rstring ();
  sa_thread : result rstring ();
}.
Definition or_throw {A} (what : rstring) (r : result rstring A) : result Thrown A :=
  match r with Ok a => Ok a | Err e => Err (ThrownError (what ++ e)) end.
(** The event-loop plumbing both entry points create. *)
Definition spawn (thread : rstring) (a : SpawnAnswers) : result Thrown () :=
  _ ← or_throw (s2b "mio poll: ") (sa_poll a);
  _ ← or_throw (s2b "mio waker: ") (sa_waker a);
  or_throw (s2b "failed to spawn " ++ thread ++ s2b " thread: ") (sa_thread a).

Definition chosen_verification (hashes : list bytes) (insecure : bool) : CertVerification :=
  if negb (bool_decide (hashes = [])) then Hashes hashes else if insecure then Insecure else PkiDefault.

(** The setup its driver thread is started with. *)
Definition connect `{UrlParser} (args : list JsValue) (a : SpawnAnswers) : result Thrown SessionSetup :=
  url ← argument as_string args 0;
  hashes_arr ← argument as_array args 1;
  insecure ← argument as_boolean args 2;
  origin ← argument as_value args 3;
  names_arr ← argument as_array args 4;
  vals_arr ← argument as_array args 5;
  protocols_arr ← argument as_array args 6;
  _ ← argument as_function args 7;
  hashes ← mapM hash_entry hashes_arr;
  extra_headers ← header_pairs names_arr vals_arr;
  protocols ← strings protocols_arr;
  parsed ← or_throw [] (parse_url url);
  let verify := chosen_verification hashes insecure in
  let d := default_params in
  let params := mkClientConfigParams verify (parse_ip (pu_host parsed)) (cp_max_idle_timeout_ms d)
    (cp_max_udp_payload_size d) (cp_initial_max_data d) (cp_initial_max_stream_data d)
    (cp_initial_max_streams_bidi d) (cp_initial_max_streams_uni d) (cp_dgram_recv_queue d) (cp_dgram_send_queue d) in
  _ ← spawn (s2b "driver") a;
  Ok (mkSessionSetup (pu_host parsed) (pu_port parsed) (pu_sni parsed) (pu_authority parsed) (pu_path parsed)
    (as_string origin) extra_headers protocols params).

(** ** [serverListen] *)

(** [v as u16]. *)
Definition f64_as_u16 : f64 → N := f64_saturate (2 ^ 16 - 1).

Definition server_listen (args : list JsValue) (a : SpawnAnswers) : result Thrown Server.ServerSetup :=
  cert_path ← argument as_string args 0;
  key_path ← argument as_string args 1;
  host ← argument as_string args 2;
  port ← argument as_number args 3;
  reuse_port ← argument as_boolean args 4;
  supported_arr ← argument as_array args 5;
  origins_val ← argument as_value args 6;
  resp_names ← argument as_array args 7;
  resp_vals ← argument as_array args 8;
  _ ← argument as_function args 9;
  supported_protocols ← strings supported_arr;
  allowed_origins ← match as_array origins_val with
                    | Some arr => l ← strings arr; Ok (Some l)
                    | None => Ok None
                    end;
  response_headers ← header_pairs resp_names resp_vals;
  _ ← spawn (s2b "server") a;
  Ok (Server.mkServerSetup host (f64_as_u16 port) cert_path key_path reuse_port
    supported_protocols allowed_origins response_headers).

(** ** From the call to the connection

    What the driver thread's setup depends on besides: the resolver, the socket,
    the TLS library, and [quiche::connect] for a server name and a
    configuration. *)
Definition Config : Type := list TlsSetting * list ConfigSetting.
Record Network (C : Type) := mkNetwork {
  nw_resolve : rstring → N → option SocketAddr;
  nw_bound : SocketAddr → result rstring ();
  nw_local_addr : result rstring SocketAddr;
  nw_config : ConfigAnswers;
  nw_random : option bytes;
  nw_clock : option N;
  nw_connect : option rstring → Config → bytes → SocketAddr → SocketAddr → result rstring C;
}.
Arguments mkNetwork {C}.
Arguments nw_resolve {C}.
Arguments nw_bound {C}.
Arguments nw_local_addr {C}.
Arguments nw_config {C}.
Arguments nw_random {C}.
Arguments nw_clock {C}.
Arguments nw_connect {C}.

Definition driver_setup {C} (s : SessionSetup) (n : Network C) : Driver.Setup C :=
  let config := build_config (st_config s) (nw_config n) in
  Driver.mkSetup C (st_host s) (st_port s) (st_authority s) (st_path s) (st_origin s) (st_extra_headers s) (st_protocols s)
    (nw_resolve n (st_host s) (st_port s)) (nw_bound n) (nw_local_addr n)
    (match config with Ok _ => Ok () | Err e => Err e end)
    (nw_random n) (nw_clock n)
    (fun scid local peer => match config with Ok c => nw_connect n (st_sni s) c scid local peer | Err e => Err e end).

(** The identity a connection to the host of a URL is checked against: the name
    given to QUIC, or the address in the configuration. *)
Definition checks_host (h : UrlHost) (sni : option rstring) (config : list ConfigSetting) : Prop :=
  match h with
  | Domain name => sni = Some name
  | Ipv4 a b c d => VerifyIp (octets (V4 a b c d)) ∈ config
  | Ipv6 segments => VerifyIp (octets (V6 segments)) ∈ config
  end.

Section identity.
Context {urls : UrlParser} {laws : UrlLaws}.

Lemma host_read s u h :
  url_parse s = Ok u → ur_scheme u = s2b "https" → ur_host u = Some h →
  parse_ip (host_string h) = match h with Domain _ => None | Ipv4 a b c d => Some (V4 a b c d) | Ipv6 l => Some (V6 l) end.
Proof.
  intros Hu Hs Hh. destruct h as [name|a b c d|l]; cbn [host_string].
  - by apply (domain_is_no_ip s u).
  - by apply parse_ip_to_string.
  - apply parse_ip_to_string. by apply (ipv6_segments s u).
Qed.

Lemma parse_url_ok s p :
  parse_url s = Ok p → ∃ u h, url_parse s = Ok u ∧ ur_host u = Some h ∧ ur_scheme u = s2b "https" ∧
    pu_host p = host_string h ∧ pu_sni p = (match parse_ip (host_string h) with Some _ => None | None => Some (host_string h) end).
Proof.
  unfold parse_url. destruct (url_parse s) as [u|e]; [|done]. destruct (bool_decide (ur_scheme u = _)) eqn:Hs; [|done].
  apply bool_decide_eq_true in Hs. cbn [negb orb]. destruct (_ || _); [done|].
  intros (h & Hh & (port & _ & [= <-])%bind_ok)%bind_ok. exists u, h. destruct (ur_host u); [|done]. injection Hh as <-. done.
Qed.

Lemma hashes_32 l hashes : mapM hash_entry l = Ok hashes → Forall (fun h => length h = 32%nat) hashes.
Proof.
  revert hashes. induction l as [|v l IH]; intros hashes; cbn [mapM]; [intros [= <-]; apply Forall_nil_2|].
  intros (d & Hd & (ds & Hds & [= <-])%bind_ok)%bind_ok. apply Forall_cons. split; [|by apply IH].
  unfold hash_entry in Hd. apply bind_ok in Hd as (x & _ & Hd). destruct (Nat.eqb_spec (length x) 32); [|done].
  by injection Hd as <-.
Qed.

Lemma connect_ok args a s :
  connect args a = Ok s → ∃ url p hashes insecure,
    args !! 0%nat = Some (JsString url) ∧ args !! 2%nat = Some (JsBoolean insecure) ∧
    parse_url url = Ok p ∧ Forall (fun h => length h = 32%nat) hashes ∧
    st_sni s = pu_sni p ∧ cp_verify (st_config s) = chosen_verification hashes insecure ∧
    cp_expected_ip (st_config s) = parse_ip (pu_host p).
Proof.
  unfold connect. intros H.
  apply bind_ok in H as (url & (v & Hv & Hurl)%argument_ok & H). destruct v; try done. injection Hurl as ->.
  apply bind_ok in H as (hashes_arr & _ & H).
  apply bind_ok in H as (insecure & (w & Hw & Hins)%argument_ok & H). destruct w; try done. injection Hins as ->.
  do 5 (apply bind_ok in H as (? & _ & H)). apply bind_ok in H as (hashes & Hh & H).
  do 2 (apply bind_ok in H as (? & _ & H)). apply bind_ok in H as (p & Hp & H). apply bind_ok in H as (_ & _ & [= <-]).
  exists url, p, hashes, insecure. split; [done|]. split; [done|]. split; [by destruct (parse_url url); [injection Hp as <-|]|].
  split; [by eapply hashes_32|]. done.
Qed.

(** C29: a connection checks the identity the URL names.  When a call of
    [connect] leads to a connection at all, the URL was an [https] one; the
    connection was made with a configuration for it; certificates are unverified
    only if the call said so and gave no hashes; hashes given are 32 bytes each
    and are the whole policy; and otherwise the system's roots decide, for the
    URL's host: QUIC was given the name of a domain, and the configuration
    requires the address of a numeric host. *)
Theorem connect_checks_identity {C} (args : list JsValue) (a : SpawnAnswers) (n : Network C) (s : SessionSetup) d :
  connect args a = Ok s → Driver.setup_and_run (driver_setup s n) = Ok d →
  ∃ url u h insecure tls config scid local peer c,
    args !! 0%nat = Some (JsString url) ∧ args !! 2%nat = Some (JsBoolean insecure) ∧
    url_parse url = Ok u ∧ ur_host u = Some h ∧ ur_scheme u = s2b "https" ∧
    build_config (st_config s) (nw_config n) = Ok (tls, config) ∧
    nw_connect n (st_sni s) (tls, config) scid local peer = Ok c ∧
    match policy tls config with
    | Unverified => insecure = true
    | Pinned hashes => hashes ≠ [] ∧ Forall (fun h => length h = 32%nat) hashes
    | SystemRoots => (0 < loaded_roots (ca_roots (nw_config n)))%nat ∧ checks_host h (st_sni s) config
    end.
Proof.
  intros Hc Hd. apply connect_ok in Hc as (url & p & hashes & insecure & Hurl & Hins & Hp & H32 & Hsni & Hv & Hip).
  apply parse_url_ok in Hp as (u & h & Hu & Hh & Hs & Hhost & Hpsni).
  unfold Driver.setup_and_run, driver_setup in Hd. cbn in Hd.
  destruct (nw_resolve n _ _) as [peer|]; [|done]. destruct (nw_bound n _); [|done].
  destruct (nw_local_addr n) as [local|]; [|done].
  destruct (build_config (st_config s) (nw_config n)) as [[tls config]|] eqn:Eb; [|done].
  set (scid := RetryToken.random_scid _ _) in Hd.
  destruct (nw_connect n (st_sni s) (tls, config) scid local peer) as [c|] eqn:Ec; [|done].
  exists url, u, h, insecure, tls, config, scid, local, peer, c. do 7 (split; [done|]).
  destruct (build_config_policy _ _ _ _ Eb) as [-> Hroots]. rewrite Hv in *.
  unfold chosen_verification in *. case_bool_decide as Hn; cbn [negb] in *; [|by split].
  destruct insecure; [done|]. destruct (Hroots eq_refl) as [Hl Hverify]. split; [done|].
  rewrite Hhost in Hip. rewrite (host_read url u h Hu Hs Hh) in Hip, Hpsni. rewrite Hsni, Hpsni.
  by destruct h; [|apply Hverify..].
Qed.
End identity.

Module Example.
(** A parser that knows three URLs, one of them with an opaque host that reads as
    an address. *)
Definition literal_url : rstring := s2b "https://[::1]:8443/a".
Definition loopback : list N := [0; 0; 0; 0; 0; 0; 0; 1].
#[local] Instance three_urls : UrlParser := {
  url_parse s :=
    if decide (s = literal_url) then
      Ok (mkUrl (s2b "https") None [] None (Some (Ipv6 loopback)) (Some 8443) (s2b "[::1]:8443") (s2b "/a"))
    else if decide (s = s2b "https://example.com/") then
      Ok (mkUrl (s2b "https") None [] None (Some (Domain (s2b "example.com"))) (Some 443) (s2b "example.com") (s2b "/"))
    else if decide (s = s2b "foo://127.0.0.1/") then
      Ok (mkUrl (s2b "foo") None [] None (Some (Domain (s2b "127.0.0.1"))) None (s2b "127.0.0.1") (s2b "/"))
    else Err (s2b "relative URL without a base");
}.
#[local] Instance three_urls_laws : UrlLaws.
Proof.
  constructor.
  - intros s u name. cbn. case_decide; [by intros [= <-]|]. case_decide.
    + intros [= <-] _ [= <-]. vm_compute. reflexivity.
    + case_decide; [|done]. by intros [= <-].
  - intros s u l. cbn. case_decide; [|case_decide; [by intros [= <-]|by case_decide; [intros [= <-]|]]]. intros [= <-] [= <-].
    split; [done|]. repeat (apply Forall_cons; split; [done|]). apply Forall_nil_2.
Defined.

Definition args : list JsValue :=
  [JsString literal_url; JsArray []; JsBoolean false; JsNull; JsArray []; JsArray []; JsArray []; JsFunction].
Definition spawned : SpawnAnswers := mkSpawnAnswers (Ok ()) (Ok ()) (Ok ()).
Definition setup : SessionSetup := mkSessionSetup (s2b "::1") 8443 None (s2b "[::1]:8443") (s2b "/a") None [] []
  (mkClientConfigParams PkiDefault (Some (V6 loopback)) 30000 1350 (10 * 1024 * 1024) (1024 * 1024) 256 256 1024 1024).
Lemma connected : connect args spawned = Ok setup.
Proof. vm_compute. reflexivity. Qed.
Definition address : SocketAddr := mkSocketAddr (V6 loopback) 8443.
Definition network : Network ToyConn := mkNetwork (fun _ _ => Some address) (fun _ => Ok ()) (Ok address)
  (mkConfigAnswers (mkTlsAnswers (Ok ()) (Ok ()) (Ok ()) (Ok ()) (Ok ())) [Some true] true (Ok ()) (Ok ()) (Ok ()) (Ok ()))
  None (Some 1) (fun _ _ _ _ _ => Ok toy_new).

Definition started : Driver.Driver ToyConn :=
  let '(session, u) := SessionState.new_client (s2b "[::1]:8443") (s2b "/a") None [] [] ∅ in
  Driver.mkDriver (SessionState.mkWorld session toy_new u []) Driver.shared_new [] [].

Lemma connect_checks_identity_witness :
  ∃ tls config, build_config (st_config setup) (nw_config network) = Ok (tls, config) ∧
    st_sni setup = None ∧ VerifyIp (octets (V6 loopback)) ∈ config.
Proof.
  destruct (connect_checks_identity args spawned network setup started connected eq_refl)
    as (url & u & h & insecure & tls & config & scid & local & peer & c & Hurl & Hins & Hu & Hh & _ & Hb & _ & Hp).
  exists tls, config. split; [exact Hb|]. split; [reflexivity|].
  injection Hurl as <-. injection Hins as <-.
  assert (Hpolicy : policy tls config = SystemRoots) by (injection Hb as <- <-; reflexivity).
  rewrite Hpolicy in Hp. destruct Hp as [_ Hp].
  assert (Hhost : h = Ipv6 loopback) by (injection Hu as <-; injection Hh as <-; reflexivity).
  rewrite Hhost in Hp. exact Hp.
Defined.
End Example.
