(* ===== verification/ServerInv.v ===== *)
(** * The server's invariant ([crates/native/src/server.rs])

    The connection tables agree with each other, the shared parser memory is
    accounted over all sessions, and what has been reported of each session
    follows the lifecycle; every step of the loop preserves this. *)

From S2P Require Import Prelude H3 ParserMemory FrameParser Headers Net Quic SessionState.
From S2P Require Import SessionRecv SessionConnect SessionStreams SessionSend SessionInv.
From S2P Require Import SessionRecvInv SessionSendInv Session RetryToken EventLoop Server.

(** A session's share of the messages. *)
Definition event_of (id : N) (m : ServerMsg) : option Ev :=
  match m with SessionMsg i e => if decide (i = id) then Some e else None | _ => None end.
Definition reported (id : N) (l : list ServerMsg) : list Ev := omap (event_of id) l.

Lemma reported_app id l k : reported id (l ++ k) = reported id l ++ reported id k.
Proof. apply omap_app. Qed.
Lemma reported_own id evs : reported id (map (SessionMsg id) evs) = evs.
Proof. unfold reported. induction evs as [|e evs IH]; [done|]. cbn. by rewrite decide_True, IH. Qed.
Lemma reported_other id j evs : j ≠ id → reported id (map (SessionMsg j) evs) = [].
Proof. intros Hj. unfold reported. induction evs as [|e evs IH]; [done|]. cbn. by rewrite decide_False. Qed.
#[global] Arguments reported : simpl never.

(** The limit of each node: the server's root, and its sessions'. *)
Definition limits (i : N) : N :=
  if i =? pm_id server_memory.1 then MAX_PARSER_MEMORY else MAX_SESSION_PARSER_MEMORY.
Lemma server_limits_usize i : limits i < U64.
Proof. unfold limits. by destruct (_ =? _). Qed.

Section server_inv.
Context {C : Type} {quic : Quic C} {quic_laws : QuicLaws C} {qloop : QuicLoop C} {qloop_laws : QuicLoopLaws C}.
Context {qserver : QuicServer C}.
Context {alloc : Allocator} {alloc_laws : AllocatorLaws} {qpack : Qpack} {sfv : Sfv} {sha : Sha256}.

Definition all_bufs (m : gmap bytes (ServerConn C)) : list ParserBuffer :=
  map_concat (fun sc => ses_bufs (sc_session sc)) m.

(** A session between two of its steps, in any state of the shared memory
    that accounts for its buffers. *)
Definition client_ok (before : list Ev) (sc : ServerConn C) : Prop :=
  ∀ u L, within limits u → accounted u (ses_bufs (sc_session sc) ++ L) →
    inv (hist := before) limits L (mkWorld (sc_session sc) (sc_conn sc) u []).

Definition messages (s : Server C) : list ServerMsg := concat (sv_batches s) ++ sv_out s.

(** [n] bounds the ids given out. *)
Record server_inv (n : N) (s : Server C) : Prop := mkServerInv {
  si_within : within limits (sv_mem s);
  si_accounted : accounted (sv_mem s) (all_bufs (sv_clients s));
  si_clients k sc : sv_clients s !! k = Some sc →
    client_ok (reported (sc_session_id sc) (messages s)) sc;
  si_routing k v : sv_routing s !! k = Some v ↔ v = k ∧ is_Some (sv_clients s !! k);
  si_sessions i k : sv_sessions s !! i = Some k ↔ ∃ sc, sv_clients s !! k = Some sc ∧ sc_session_id sc = i;
  si_ids k sc : sv_clients s !! k = Some sc → 1 <= sc_session_id sc < sv_next_session_id s;
  si_next : 1 <= sv_next_session_id s <= n;
  si_fresh i : sv_next_session_id s <= i → reported i (messages s) = [];
  si_size : (size (sv_clients s) <= MAX_CONNECTIONS)%nat;
  si_done k sc : sv_clients s !! k = Some sc → sc_closed_emitted sc = true → ws_closed (sc_session sc) = true;
  si_ended i : 1 <= i < sv_next_session_id s → sv_sessions s !! i = None →
    countb is_closed_ev (reported i (messages s)) = 1%nat;
  si_life i : ∃ l, lifecycle (reported i (messages s)) = Some l;
}.

(** ** The buffers of all clients *)

Lemma all_bufs_lookup m k sc :
  m !! k = Some sc → all_bufs m ≡ₚ ses_bufs (sc_session sc) ++ all_bufs (delete k m).
Proof. apply (map_concat_lookup (fun sc => ses_bufs (sc_session sc))). Qed.
Lemma all_bufs_insert m k sc :
  all_bufs (<[k := sc]> m) ≡ₚ ses_bufs (sc_session sc) ++ all_bufs (delete k m).
Proof. apply (map_concat_insert (fun sc => ses_bufs (sc_session sc))). Qed.
Lemma all_bufs_filter (P : bytes * ServerConn C → Prop) `{!∀ kv, Decision (P kv)} m :
  all_bufs m ≡ₚ all_bufs (filter P m) ++ all_bufs (filter (fun kv => ¬ P kv) m).
Proof. apply (map_concat_filter (fun sc => ses_bufs (sc_session sc))). Qed.

(** [client_ok] from the invariant of the world after a step. *)
Lemma client_ok_of before sc (w : World C) L :
  inv (hist := before) limits L w → sc_session sc = w_ses w →
  client_ok (before ++ w_ev w) sc.
Proof.
  intros [] Es u k Hu Ha. rewrite <- Es in *. constructor; try done. cbn.
  unfold history in *. by rewrite app_nil_r.
Qed.

Lemma server_inv_mono n n' s : n <= n' → server_inv n s → server_inv n' s.
Proof. intros Hn []. constructor; try done. lia. Qed.

(** ** A step of one session *)

(** Replacing a connection by one of the same session keeps the ids. *)
Lemma insert_same_session (m : gmap bytes (ServerConn C)) key sc sc' i k :
  m !! key = Some sc → sc_session_id sc' = sc_session_id sc →
  (∃ c, <[key := sc']> m !! k = Some c ∧ sc_session_id c = i) ↔
  (∃ c, m !! k = Some c ∧ sc_session_id c = i).
Proof.
  intros Hk E. rewrite lookup_insert. case_decide as Hd; [subst k|done].
  rewrite Hk. split; intros (c & [= <-] & <-); eauto.
Qed.

(** The events of one session appended to the messages. *)
Lemma reported_append id (l : list ServerMsg) evs i :
  reported i (l ++ map (SessionMsg id) evs) = if decide (i = id) then reported id l ++ evs else reported i l.
Proof.
  rewrite reported_app. case_decide as Hid.
  - subst i. by rewrite reported_own.
  - by rewrite reported_other, app_nil_r by done.
Qed.

(** A closed session stays closed: its [Closed] event is in the history. *)
Lemma closed_stays before L0 L (w0 w : World C) :
  w_ev w0 = [] → inv (hist := before) limits L0 w0 → inv (hist := before) limits L w →
  ws_closed (w_ses w0) = true → ws_closed (w_ses w) = true.
Proof.
  intros Hev H0 Hl1%inv_life Hclosed. apply inv_life in H0 as inv_life. unfold history in *. rewrite Hev, app_nil_r in inv_life.
  apply lifecycle_counts in inv_life as (Hl0 & _). apply lifecycle_counts in Hl1 as (Hl1 & _).
  rewrite countb_app in Hl1. unfold life_of in *. cbn [l_closed] in *.
  rewrite Hclosed in Hl0. cbn in Hl0, Hl1. destruct (ws_closed (w_ses w)); [done|cbn in Hl1; lia].
Qed.

(** The session ids of the connections are their own. *)
Lemma session_id_inj n s k key c sc :
  server_inv n s → sv_clients s !! k = Some c → sv_clients s !! key = Some sc →
  sc_session_id c = sc_session_id sc → k = key.
Proof.
  intros [] H1 H2 E.
  assert (sv_sessions s !! sc_session_id sc = Some k) by (apply si_sessions0; eauto).
  assert (sv_sessions s !! sc_session_id sc = Some key) by (apply si_sessions0; eauto). congruence.
Qed.

Lemma with_client_ok n key m (Q : World C → Prop) s :
  server_inv n s →
  (∀ before L (w : World C), inv (hist := before) limits L w →
     wp m (fun _ w' => inv (hist := before) limits L w' ∧ Q w') w) →
  wp (with_client key m) (fun _ s' => server_inv n s' ∧ sv_batches s' = sv_batches s ∧
    (∀ k, k ≠ key → sv_clients s' !! k = sv_clients s !! k) ∧
    dom (sv_clients s') = dom (sv_clients s) ∧
    ∀ sc, sv_clients s' !! key = Some sc → ∃ w, Q w ∧ sc_session sc = w_ses w ∧ sc_conn sc = w_conn w) s.
Proof.
  intros Hs Hm. unfold wp, with_client. destruct (sv_clients s !! key) as [sc|] eqn:Hk.
  2: { do 4 (split; [done|]). intros sc. by rewrite Hk. }
  pose proof Hs as [Hw Ha Hc Hr Hse Hi Hn Hf Hsz Hd He Hl].
  set (id := sc_session_id sc). set (before := reported id (messages s)).
  rewrite (all_bufs_lookup _ _ _ Hk) in Ha.
  pose proof (Hm before (all_bufs (delete key (sv_clients s)))
    (mkWorld (sc_session sc) (sc_conn sc) (sv_mem s) []) (Hc key sc Hk _ _ Hw Ha)) as H.
  apply wp_elim in H as ([] & w & -> & Hinv & HQ).
  set (sc' := sc <| sc_session := w_ses w |> <| sc_conn := w_conn w |>).
  match goal with |- server_inv n ?s' ∧ _ => set (s1 := s') end.
  assert (Hrep : ∀ i, reported i (messages s1) =
    if decide (i = id) then before ++ w_ev w else reported i (messages s)).
  { intros i. unfold messages. cbn. fold id. by rewrite app_assoc, reported_append. }
  assert (Hlk : ∀ k c, sv_clients s1 !! k = Some c →
    (k = key ∧ c = sc') ∨ (k ≠ key ∧ sv_clients s !! k = Some c)).
  { intros k c. cbn. rewrite lookup_insert. case_decide; [|by right]. intros [= <-]. by left. }
  assert (Hcl : ws_closed (sc_session sc) = true → ws_closed (w_ses w) = true).
  { by apply (closed_stays before _ _ (mkWorld (sc_session sc) (sc_conn sc) (sv_mem s) []) w eq_refl
      (Hc key sc Hk _ _ Hw Ha) Hinv). }
  split; [|split; [done|]; split; [|split]].
  - constructor; cbn [sv_mem sv_routing sv_sessions sv_next_session_id]; try done.
    + by destruct Hinv.
    + cbn. rewrite all_bufs_insert. by destruct Hinv.
    + intros k c [[-> ->]|[Hne Hkc]]%Hlk; rewrite Hrep.
      * change (sc_session_id sc') with id. rewrite decide_True by done. by eapply client_ok_of.
      * rewrite decide_False; [by apply (Hc k)|]. intros Eid. by apply Hne, (session_id_inj n s k key c sc).
    + intros k v. cbn. rewrite Hr, lookup_insert. case_decide; [subst|done].
      rewrite Hk. split; intros [? ?]; (split; [done|by eexists]).
    + intros i k. cbn. by rewrite Hse, (insert_same_session _ _ sc).
    + intros k c [[-> ->]|[_ Hkc]]%Hlk; [apply (Hi key sc Hk)|by apply (Hi k)].
    + intros i Hlt. cbn in Hlt. rewrite Hrep, decide_False; [by apply Hf|]. specialize (Hi key sc Hk). subst id. lia.
    + cbn. by rewrite map_size_insert_Some by eauto.
    + intros k c [[-> ->]|[_ Hkc]]%Hlk; [intros Hce; by apply Hcl, (Hd key sc Hk)|by apply (Hd k)].
    + intros i Hlt Hnone. cbn in Hlt, Hnone. rewrite Hrep, decide_False; [by apply He|]. intros ->.
      assert (H2 : sv_sessions s !! id = Some key) by (apply Hse; exists sc; done). congruence.
    + intros i. rewrite Hrep. case_decide; [|done]. exists (life_of (w_ses w)). by destruct Hinv.
  - intros k Hne. cbn. by rewrite lookup_insert, decide_False by congruence.
  - cbn. apply dom_insert_lookup_L. eauto.
  - intros c [[_ ->]|[]]%Hlk; [eauto|done].
Qed.

(** ** Steps that leave the sessions alone *)

Definition view (sc : ServerConn C) : WtSession * N := (sc_session sc, sc_session_id sc).
Record same_sessions (s s' : Server C) : Prop := mkSame {
  same_mem : sv_mem s' = sv_mem s;
  same_clients : view <$> sv_clients s' = view <$> sv_clients s;
  same_routing : sv_routing s' = sv_routing s;
  same_table : sv_sessions s' = sv_sessions s;
  same_next : sv_next_session_id s' = sv_next_session_id s;
  same_out : sv_out s' = sv_out s;
  same_batches : sv_batches s' = sv_batches s;
  same_flags k sc : sv_clients s' !! k = Some sc → sc_closed_emitted sc = true →
    (∃ sc0, sv_clients s !! k = Some sc0 ∧ sc_closed_emitted sc0 = true) ∨ ws_closed (sc_session sc) = true;
}.
Lemma same_sessions_refl s : same_sessions s s.
Proof. constructor; eauto. Qed.

Lemma all_bufs_view m m' : view <$> m' = view <$> m → all_bufs m' = all_bufs m.
Proof.
  assert (E : ∀ m, all_bufs m = concat (map (fun kv => ses_bufs kv.2.1) (map_to_list (view <$> m)))).
  { intros n. unfold all_bufs, map_concat. rewrite map_to_list_fmap, map_map. done. }
  intros Hv. by rewrite !E, Hv.
Qed.

Lemma same_lookup s s' k sc :
  same_sessions s s' → sv_clients s' !! k = Some sc →
  ∃ sc0, sv_clients s !! k = Some sc0 ∧ view sc = view sc0.
Proof.
  intros [] Hk. pose proof (f_equal (fun m => m !! k) same_clients0) as E. cbn in E.
  rewrite !lookup_fmap, Hk in E. destruct (sv_clients s !! k) as [sc0|]; [|done].
  exists sc0. split; [done|]. by apply Some_inj in E.
Qed.
Lemma same_is_Some s s' k :
  same_sessions s s' → is_Some (sv_clients s' !! k) ↔ is_Some (sv_clients s !! k).
Proof.
  intros []. by rewrite <- (fmap_is_Some view), <- lookup_fmap, same_clients0, lookup_fmap, fmap_is_Some.
Qed.

Lemma server_inv_same n s s' : same_sessions s s' → server_inv n s → server_inv n s'.
Proof.
  intros Hsame [Hw Ha Hc Hr Hse Hi Hn Hf Hsz Hd He Hl].
  pose proof (fun k => same_lookup s s' k) as Hlk. pose proof (fun k => same_is_Some s s' k Hsame) as His.
  assert (Hback : ∀ k sc0, sv_clients s !! k = Some sc0 → ∃ sc, sv_clients s' !! k = Some sc ∧ view sc = view sc0).
  { intros k sc0 Hk. destruct (proj2 (His k)) as [sc Hsc]; [eauto|]. exists sc. split; [done|].
    destruct (Hlk k sc Hsame Hsc) as (sc1 & Hk1 & E). congruence. }
  destruct Hsame as [Em Ec Er Es En Eo Eb Efl].
  assert (Emsg : messages s' = messages s) by (unfold messages; by rewrite Eo, Eb).
  assert (Hl' : ∀ k sc, sv_clients s' !! k = Some sc → ∃ sc0, sv_clients s !! k = Some sc0 ∧ view sc = view sc0)
    by (intros k sc; by apply Hlk).
  clear Hlk. constructor; rewrite ?Em, ?Er, ?Es, ?En, ?Emsg, ?(all_bufs_view _ _ Ec); try done.
  - intros k sc (sc0 & Hk & [= E1 E2])%Hl'. rewrite E2. specialize (Hc k sc0 Hk).
    intros u L Hu Hb. rewrite E1 in *. exact (set_conn_inv limits L _ (sc_conn sc) (Hc u L Hu Hb)).
  - intros k v. rewrite Hr, His. done.
  - intros i k. rewrite Hse. split; intros (sc & Hk & E).
    + apply Hback in Hk as (sc1 & Hk & [= E1 E2]). exists sc1. split; [done|]. congruence.
    + apply Hl' in Hk as (sc1 & Hk & [= E1 E2]). exists sc1. split; [done|]. congruence.
  - intros k sc (sc0 & Hk & [= E1 E2])%Hl'. rewrite E2. by apply (Hi k).
  - rewrite <- (map_size_fmap view), Ec, map_size_fmap. done.
  - intros k sc Hk Hflag. destruct (Efl k sc Hk Hflag) as [(sc1 & Hk1 & Hf1)|?]; [|done].
    apply Hl' in Hk as (sc0 & Hk & [= E1 E2]). rewrite E1. apply (Hd k); [done|]. congruence.
Qed.

Lemma send_client_same key sends s : wp (send_client key sends) (fun _ s' => same_sessions s s') s.
Proof.
  unfold wp, send_client. destruct (sv_clients s !! key) as [sc|] eqn:Hk; [|apply same_sessions_refl].
  destruct (flush_send_returns false sends (sc_conn sc)) as (ps & c & ->). constructor; try done; cbn.
  - rewrite fmap_insert. apply insert_id. by rewrite lookup_fmap, Hk.
  - intros k sc'. rewrite lookup_insert. case_decide; [subst; intros [= <-]|]; eauto.
Qed.
Lemma send_client_spec key sends s :
  wp (send_client key sends) (fun _ s' => (∀ k, k ≠ key → sv_clients s' !! k = sv_clients s !! k) ∧
    ∀ sc, sv_clients s' !! key = Some sc → ∃ sc0 ps, sv_clients s !! key = Some sc0 ∧
      flush_send false sends (sc_conn sc0) = Some (ps, sc_conn sc)) s.
Proof.
  unfold wp, send_client. destruct (sv_clients s !! key) as [sc|] eqn:Hk.
  2: { split; [done|]. intros sc. by rewrite Hk. }
  destruct (flush_send_returns false sends (sc_conn sc)) as (ps & c & E). rewrite E. cbn. split.
  - intros k Hne. by rewrite lookup_insert, decide_False by congruence.
  - intros sc'. rewrite lookup_insert, decide_True by done. intros [= <-]. by exists sc, ps.
Qed.
Lemma publish_size_same key s : wp (publish_size key) (fun _ s' => same_sessions s s') s.
Proof.
  unfold publish_size. apply wp_bind, wp_gets. destruct (_ ≫= _); [apply wp_modify; constructor; eauto|].
  apply wp_ret, same_sessions_refl.
Qed.
Lemma fire_timeouts_same s : wp fire_timeouts (fun _ s' => same_sessions s s') s.
Proof. 
  apply wp_modify. constructor; try done; cbn.
  - rewrite <- map_fmap_compose. by apply map_fmap_ext.
  - intros k sc. rewrite lookup_fmap. intros (sc0 & H0 & ->)%fmap_Some Hf. left. by exists sc0.
Qed.

(** ** Packets *)

Context (setup : ServerSetup) (local_addr : SocketAddr) (token_secret : bytes).

Lemma new_server_inv remote supported allowed response u L (c : C) :
  within limits u → accounted u L →
  let '(session, u') := new_server remote supported allowed response server_memory.1 u in
  inv (hist := []) limits L (mkWorld session c u' []) ∧ ws_closed session = false.
Proof.
  intros Hu Ha. destruct (new_server _ _ _ _ _ _) as [session u'] eqn:E.
  pose proof (constructed_server remote supported allowed response server_memory.1 u) as Hc.
  rewrite E in Hc. cbn in Hc. injection E as <- <-. split; [|done].
  apply (constructed_inv limits _ u _ c L Hc); [|done|done]. cbn.
  set (i := fresh _). assert (Hi : i ∉ dom u ∪ {[pm_id server_memory.1]}) by apply is_fresh.
  apply not_elem_of_union in Hi as [_ Hi]. rewrite elem_of_singleton in Hi.
  split; [unfold limits; by rewrite (proj2 (N.eqb_neq _ _) Hi)|]. split; [by apply not_elem_of_singleton|done].
Qed.

Lemma add_client_ok n key c from s :
  server_inv n s → n + 1 < U64 → (size (sv_clients s) < MAX_CONNECTIONS)%nat →
  sv_clients s !! key = None →
  let '(session, u) := new_server from (ss_supported_protocols setup) (ss_allowed_origins setup)
    (ss_response_headers setup) server_memory.1 (sv_mem s) in
  server_inv (n + 1) (s <| sv_next_session_id ::= fun n => add64 n 1 |> <| sv_routing ::= <[key := key]> |>
    <| sv_sessions ::= <[sv_next_session_id s := key]> |> <| sv_mem := u |>
    <| sv_clients ::= <[key := mkServerConn c session (sv_next_session_id s) false]> |>).
Proof.
  intros Hs Hn1 Hsize Hk. pose proof Hs as [Hw Ha Hc Hr Hse Hi Hn Hf Hsz Hd He Hl].
  pose proof (new_server_inv from (ss_supported_protocols setup) (ss_allowed_origins setup)
    (ss_response_headers setup) (sv_mem s) _ c Hw Ha) as Hnew.
  destruct (new_server _ _ _ _ _ _) as [session u]. destruct Hnew as [Hinv Hopen].
  set (sc := mkServerConn c session (sv_next_session_id s) false).
  assert (Hadd : add64 (sv_next_session_id s) 1 = sv_next_session_id s + 1) by (apply add64_small; lia).
  assert (Hnosess : sv_sessions s !! sv_next_session_id s = None).
  { destruct (sv_sessions s !! sv_next_session_id s) as [k|] eqn:E; [|done].
    apply Hse in E as (sc0 & H0 & E0). specialize (Hi k sc0 H0). lia. }
  match goal with |- server_inv _ ?s' => set (s1 := s') end.
  change (messages s) with (messages s1) in *.
  assert (Hlk : ∀ k c0, sv_clients s1 !! k = Some c0 →
    (k = key ∧ c0 = sc) ∨ (k ≠ key ∧ sv_clients s !! k = Some c0)).
  { intros k c0. cbn. rewrite lookup_insert. case_decide; [|by right]. intros [= <-]. by left. }
  assert (Hnext : sv_next_session_id s1 = sv_next_session_id s + 1) by exact Hadd.
  constructor; rewrite ?Hnext.
  - by destruct Hinv.
  - cbn. rewrite all_bufs_insert, delete_id by done. by destruct Hinv.
  - intros k c0 [[-> ->]|[_ Hkc]]%Hlk; [|by apply (Hc k)]. cbn.
    rewrite Hf by lia. change [] with (@nil Ev ++ []). by apply (client_ok_of [] sc _ _ Hinv).
  - intros k v. cbn. rewrite !lookup_insert. case_decide; [|apply Hr]. subst.
    split; [intros [= <-]; eauto|by intros [-> _]].
  - intros i k. cbn. rewrite lookup_insert. case_decide as Hii.
    + subst i. split; [intros [= <-]; exists sc; by rewrite lookup_insert, decide_True|].
      intros (c0 & [[-> ->]|[_ Hkc]]%Hlk & E); [done|]. specialize (Hi k c0 Hkc). lia.
    + rewrite Hse. split; intros (c0 & Hkc & E).
      * exists c0. rewrite lookup_insert, decide_False; [done|]. intros ->. congruence.
      * apply Hlk in Hkc as [[-> ->]|[_ Hkc]]; [done|eauto].
  - intros k c0 [[-> ->]|[_ Hkc]]%Hlk; [cbn; lia|]. specialize (Hi k c0 Hkc). lia.
  - lia.
  - intros i Hlt. apply Hf. lia.
  - cbn. rewrite map_size_insert_None by done. lia.
  - intros k c0 [[-> ->]|[_ Hkc]]%Hlk; [done|by apply (Hd k)].
  - intros i Hlt. cbn. rewrite lookup_insert. case_decide; [done|]. intros Hnone. apply He; [lia|done].
  - done.
Qed.

Lemma accept_initial_ok n hdr from random inflight s :
  server_inv n s → n + 1 < U64 → sv_routing s !! hd_dcid hdr = None →
  wp (accept_initial setup local_addr token_secret server_memory.1 hdr from random inflight)
    (fun _ s' => server_inv (n + 1) s' ∧ sv_batches s' = sv_batches s) s.
Proof.
  intros Hs Hn Hnone. unfold accept_initial.
  assert (Hstop : ∀ s', same_sessions s s' → server_inv (n + 1) s' ∧ sv_batches s' = sv_batches s).
  { intros s' Hsame. split; [|by destruct Hsame]. eapply server_inv_same; [done|].
    by apply (server_inv_mono n); [lia|]. }
  pose proof (same_sessions_refl s) as Hrefl.
  destruct (negb (hd_initial hdr)); [by apply wp_ret, Hstop|]. apply wp_bind, wp_gets.
  destruct ((_ <=? _)%nat || _)%bool eqn:Hfull; [by apply wp_ret, Hstop|].
  apply orb_false_iff in Hfull as [Hfull%Nat.leb_gt _].
  case_bool_decide.
  { apply wp_bind. apply (wp_mono _ (fun _ s' => same_sessions s s')).
    - destruct (retry _ _ _ _ _); [apply wp_modify; constructor; eauto|by apply wp_ret].
    - intros _ s' Hsame. by apply wp_ret, Hstop. }
  destruct (validate_token _ _ _) as [odcid|]; [|by apply wp_ret, Hstop].
  destruct (accept _ _ _ _) as [c|]; [|by apply wp_ret, Hstop].
  assert (Hk : sv_clients s !! hd_dcid hdr = None).
  { apply eq_None_not_Some. intros Hk.
    assert (E : sv_routing s !! hd_dcid hdr = Some (hd_dcid hdr)) by (by apply (si_routing n s Hs)). congruence. }
  pose proof (add_client_ok n (hd_dcid hdr) c from s Hs Hn Hfull Hk) as Hadd.
  apply wp_bind, wp_gets, wp_bind, wp_modify, wp_bind, wp_gets. cbn [sv_mem].
  change (sv_mem (_ <| sv_sessions ::= _ |>)) with (sv_mem s).
  destruct (new_server _ _ _ _ _ _) as [session u]. apply wp_bind, wp_modify, wp_bind.
  unfold wp at 1, insert_client. cbn [sv_clients].
  match goal with |- context [sv_clients ?s' !! _] => change (sv_clients s') with (sv_clients s) end.
  rewrite Hk. by apply wp_ret.
Qed.

Lemma receive_ok n data from random inflight s :
  server_inv n s → n + 1 < U64 →
  wp (receive setup local_addr token_secret server_memory.1 data from random inflight)
    (fun _ s' => server_inv (n + 1) s' ∧ sv_batches s' = sv_batches s) s.
Proof.
  intros Hs Hn. unfold receive.
  assert (Hs1 : server_inv (n + 1) s) by (apply (server_inv_mono n); [lia|done]).
  destruct (parse_header data) as [hdr|]; [|by apply wp_ret]. apply wp_bind, wp_gets, wp_bind.
  eapply (wp_mono _ (fun _ s' => server_inv (n + 1) s' ∧ sv_batches s' = sv_batches s)).
  { destruct (sv_routing s !! hd_dcid hdr) eqn:E; [by apply wp_ret|by apply accept_initial_ok]. }
  intros [scid|] s' [Hs' Hb]; [|by apply wp_ret].
  eapply wp_mono; [apply (with_client_ok (n + 1) scid _ (fun _ => True) s' Hs')|].
  - intros before L w Hw. apply wp_modify. split; [exact (set_conn_inv limits L w _ Hw)|done].
  - cbv beta. intros _ s2 (? & -> & _). done.
Qed.

Lemma receive_packets_ok budget l n s :
  server_inv n s → n + N.of_nat budget < U64 →
  wp (receive_packets setup local_addr token_secret server_memory.1 budget l)
    (fun _ s' => server_inv (n + N.of_nat budget) s' ∧ sv_batches s' = sv_batches s) s.
Proof.
  revert l n s. induction budget as [|budget IH]; intros l n s Hs Hn.
  { cbn [receive_packets]. apply wp_ret. by rewrite N.add_0_r. }
  assert (Hs1 : server_inv (n + N.of_nat (S budget)) s) by (apply (server_inv_mono n); [lia|done]).
  destruct l as [|p l]; cbn [receive_packets]; [by apply wp_ret|].
  destruct (pk_recv p); [|by apply wp_ret].
  apply wp_bind. eapply wp_mono; [apply (receive_ok n); [done|lia]|]. cbv beta. intros _ s1 [Hi Hb].
  eapply wp_mono; [apply (IH l (n + 1)); [done|lia]|]. cbv beta. intros _ s2 [Hi2 Hb2].
  split; [|congruence]. replace (n + N.of_nat (S budget)) with (n + 1 + N.of_nat budget) by lia. done.
Qed.

(** ** Commands *)

Lemma session_command_inv {hist : History} cmd L (w : World C) :
  inv limits L w → wp (session_command cmd) (fun _ w' => inv limits L w') w.
Proof.
  intros Hw. assert (Hop := fun o => run_op_inv limits server_limits_usize o L w Hw).
  destruct cmd; cbn [session_command];
    [apply (Hop (OpOpenStream bidi request_id))|apply (Hop (OpWrite id data request_id))|apply (Hop (OpFin id))|
     apply (Hop (OpReset id code))|apply (Hop (OpStopSending id code))|apply (Hop (OpSetPaused id paused))|
     apply (Hop (OpSendDatagram data request_id))|apply (Hop (OpClose code reason))|apply (Hop OpDrain)| |].
  - apply wp_bind, wp_gets, push_always_inv; [|done]. unfold build_stats. by destruct (path_stats _).
  - apply wp_bind, wp_conn, push_always_inv; [|by apply set_conn_inv].
    unfold build_keying_material. by repeat case_match.
Qed.

Lemma drain_commands_ok n cmds s :
  server_inv n s →
  wp (drain_commands cmds) (fun shutdown s' =>
    server_inv n s' ∧ sv_batches s' = sv_batches s ∧ shutdown = existsb is_shutdown cmds) s.
Proof.
  revert s. induction cmds as [|cmd cmds IH]; intros s Hs; cbn [drain_commands]; [by apply wp_ret|].
  assert (Hcmd : wp (apply_command cmd) (fun _ s' => server_inv n s' ∧ sv_batches s' = sv_batches s) s).
  { destruct cmd as [session cmd|]; cbn [apply_command]; [|by apply wp_ret]. apply wp_bind, wp_gets.
    destruct (sv_sessions s !! session); [|by apply wp_ret].
    eapply wp_mono; [apply (with_client_ok n _ _ (fun _ => True) s Hs)|cbv beta; naive_solver].
    intros before L w Hw. eapply wp_mono; [by apply session_command_inv|done]. }
  destruct cmd as [session cmd|]; [|by apply wp_ret]. apply wp_bind. eapply wp_mono; [exact Hcmd|].
  cbv beta. intros _ s1 [Hs1 Hb]. eapply wp_mono; [by apply IH|]. cbv beta. intros b s2 (? & ? & ?).
  split; [done|]. split; [congruence|done].
Qed.

(** ** Driving and reaping *)

Lemma drive_client_inv {hist : History} backpressured order L (w : World C) :
  inv limits L w → wp (_ ← drive backpressured order; close_ended) (fun _ w' => inv limits L w') w.
Proof.
  intros Hw. apply wp_bind. eapply wp_mono; [by apply (drive_inv limits server_limits_usize)|]. cbv beta.
  intros _ w1 Hw1. unfold close_ended. apply wp_bind, wp_gets, wp_when; intros _; [|done].
  apply wp_modify. exact (set_conn_inv limits L w1 _ Hw1).
Qed.

Lemma drive_clients_ok n keys backpressured order sends s :
  server_inv n s →
  wp (drive_clients keys backpressured order sends) (fun _ s' =>
    server_inv n s' ∧ sv_batches s' = sv_batches s ∧ dom (sv_clients s') = dom (sv_clients s)) s.
Proof.
  revert s. induction keys as [|key keys IH]; intros s Hs; cbn [drive_clients]; [by apply wp_ret|].
  apply wp_bind. eapply wp_mono; [apply (with_client_ok n key _ (fun _ => True) s Hs)|].
  { intros before L w Hw. eapply wp_mono; [by apply drive_client_inv|done]. }
  cbv beta. intros _ s1 (Hs1 & Hb1 & _ & Hd1 & _). apply wp_bind.
  eapply wp_mono; [apply publish_size_same|]. cbv beta. intros _ s2 H2. apply wp_bind.
  eapply wp_mono; [apply send_client_same|]. cbv beta. intros _ s3 H3.
  assert (Hs3 : server_inv n s3) by (by apply (server_inv_same n s2), (server_inv_same n s1)).
  eapply wp_mono; [by apply IH|]. cbv beta. intros _ s4 (Hs4 & Hb4 & Hd4).
  split; [done|]. split; [by rewrite Hb4, (same_batches _ _ H3), (same_batches _ _ H2)|].
  rewrite Hd4, <- Hd1. apply set_eq. intros k. rewrite !elem_of_dom.
  by rewrite (same_is_Some _ _ k H3), (same_is_Some _ _ k H2).
Qed.

#[local] Existing Instance is_live_dec.

(** A closed connection's session has closed, once reaped. *)
Definition reaped (sc : ServerConn C) : Prop :=
  conn_is_closed (sc_conn sc) = true → ws_closed (sc_session sc) = true.

Definition set_flag (key : bytes) (s : Server C) : Server C :=
  s <| sv_clients ::= alter (fun sc => sc <| sc_closed_emitted := true |>) key |>.

Lemma set_flag_ok n key s :
  server_inv n s → (∀ sc, sv_clients s !! key = Some sc → ws_closed (sc_session sc) = true) →
  server_inv n (set_flag key s).
Proof.
  intros Hs Hc. apply (server_inv_same n s); [|done]. constructor; try done; cbn.
  - apply map_eq. intros k. rewrite !lookup_fmap, lookup_alter. case_decide; [subst|done].
    by destruct (sv_clients s !! k).
  - intros k sc. rewrite lookup_alter. case_decide; [subst|eauto].
    intros (sc0 & H0 & ->)%fmap_Some _. right. by apply (Hc sc0).
Qed.

(** Setting the flag first, as the code does, or last is the same. *)
Lemma set_flag_with_client key m s :
  (_ ← modify (set_flag key); with_client key m) s =
  (_ ← with_client key m; modify (set_flag key)) s.
Proof.
  unfold mbind, M_bind, modify, with_client, set_flag. cbn.
  rewrite lookup_alter, decide_True by done.
  destruct (sv_clients s !! key) as [sc|] eqn:Hk; cbn; [|done].
  destruct (m _) as [[[] w]|]; [|done]. do 2 f_equal. unfold upd. cbn. f_equal.
  apply map_eq. intros k. rewrite lookup_insert, !lookup_alter. case_decide; subst; by rewrite lookup_insert, ?decide_True, ?decide_False by done.
Qed.

Lemma reap_client_ok n key s :
  server_inv n s →
  wp (reap_client key) (fun _ s' => server_inv n s' ∧ sv_batches s' = sv_batches s ∧
    dom (sv_clients s') = dom (sv_clients s) ∧
    (∀ k, k ≠ key → sv_clients s' !! k = sv_clients s !! k) ∧
    ∀ sc, sv_clients s' !! key = Some sc → reaped sc) s.
Proof.
  intros Hs. unfold reap_client. apply wp_bind, wp_gets.
  destruct (sv_clients s !! key) as [sc|] eqn:Hk.
  2: { apply wp_ret. do 4 (split; [done|]). intros sc. by rewrite Hk. }
  destruct (conn_is_closed (sc_conn sc) && negb (sc_closed_emitted sc))%bool eqn:E.
  2: { apply wp_ret. do 4 (split; [done|]). intros sc'. rewrite Hk. intros [= <-] Hc.
    rewrite Hc in E. apply negb_false_iff in E. by apply (si_done n s Hs key). }
  eapply wp_eq; [apply (set_flag_with_client key report_closure)|]. apply wp_bind.
  eapply wp_mono; [apply (with_client_ok n key report_closure (fun w => ws_closed (w_ses w) = true) s Hs)|].
  { intros before L w Hw. by apply (report_closure_inv limits server_limits_usize). }
  cbv beta. intros _ s1 (Hs1 & Hb1 & Ho1 & Hd1 & Hq1). apply wp_modify.
  assert (Hc1 : ∀ sc, sv_clients s1 !! key = Some sc → ws_closed (sc_session sc) = true).
  { intros sc1 H1. apply Hq1 in H1 as (w & Hw & -> & _). done. }
  split; [by apply set_flag_ok|]. split; [done|]. cbn. split; [by rewrite dom_alter_L|].
  split; [intros k Hne; rewrite lookup_alter, decide_False by done; by apply Ho1|].
  intros sc'. rewrite lookup_alter, decide_True by done. intros (sc1 & H1 & ->)%fmap_Some _.
  by apply (Hc1 sc1).
Qed.

Lemma reap_clients_ok n keys s :
  server_inv n s →
  wp (reap_clients keys) (fun _ s' => server_inv n s' ∧ sv_batches s' = sv_batches s ∧
    (∀ k sc, k ∈ keys → sv_clients s' !! k = Some sc → reaped sc) ∧
    dom (sv_clients s') = dom (sv_clients s)) s.
Proof.
  enough (H : ∀ done_ s, server_inv n s → (∀ k sc, k ∈ done_ → sv_clients s !! k = Some sc → reaped sc) →
    wp (reap_clients keys) (fun _ s' => server_inv n s' ∧ sv_batches s' = sv_batches s ∧
      (∀ k sc, k ∈ done_ ++ keys → sv_clients s' !! k = Some sc → reaped sc) ∧
      dom (sv_clients s') = dom (sv_clients s)) s).
  { intros Hs. eapply wp_mono; [apply (H [] s Hs); intros k sc Hk; by apply elem_of_nil in Hk|].
    done. }
  induction keys as [|key keys IH]; intros done_ s0 Hs Hr; cbn [reap_clients].
  - apply wp_ret. rewrite app_nil_r. done.
  - apply wp_bind. eapply wp_mono; [by apply reap_client_ok|]. cbv beta.
    intros _ s1 (Hs1 & Hb1 & Hd1 & Ho & Hk1).
    eapply wp_mono; [apply (IH (done_ ++ [key]) s1 Hs1)|].
    + intros k sc Hin Hk. destruct (decide (k = key)) as [->|Hne]; [by apply Hk1|].
      rewrite Ho in Hk by done. apply (Hr k); [|done]. apply elem_of_app in Hin as [?|?]; [done|set_solver].
    + cbv beta. intros _ s2 (Hs2 & Hb2 & H2 & Hd2). split; [done|]. split; [congruence|].
      split; [|congruence]. intros k sc Hin. apply H2. by rewrite <- app_assoc.
Qed.

Lemma drop_session_ok before sc u L :
  client_ok before sc → within limits u → accounted u (ses_bufs (sc_session sc) ++ L) →
  wp (drop_session (sc_session sc)) (fun _ v => within limits v ∧ accounted v L) u.
Proof.
  intros Hc Hu Ha. destruct (Hc u L Hu Ha) as [Hm _ _ Hcap Hst _ _ _]. cbn in Hm, Hcap, Hst.
  unfold drop_session. apply wp_bind. unfold wp at 1, buf_drop. unfold ses_bufs in Ha. cbn [app] in Ha.
  assert (Hcw : wf_buffer limits (ws_capsule_buf (sc_session sc)))
    by (destruct Hcap as (E & ? & _); split; [by rewrite E|done]).
  destruct (drop_buffer_accounted limits server_limits_usize _ u _ Hcw Hu Ha) as [Hv Hav].
  apply (drop_streams_accounted limits server_limits_usize (ws_parser_memory (sc_session sc)) (ws_closed (sc_session sc)));
    [done| |done|done].
  apply Forall_forall. intros [id st] Hin%elem_of_map_to_list. by apply (Hst id).
Qed.

Lemma drop_clients_ok (l : list (bytes * ServerConn C)) u L :
  Forall (fun kv => ∃ before, client_ok before kv.2) l → within limits u →
  accounted u (concat (map (fun kv => ses_bufs (sc_session kv.2)) l) ++ L) →
  wp (drop_clients l) (fun _ v => within limits v ∧ accounted v L) u.
Proof.
  intros Hl. revert u. induction Hl as [|[k sc] l [before Hsc] Hl IH]; intros u Hu Ha; cbn [drop_clients];
    [by apply wp_ret|].
  cbn [map concat snd] in Ha. rewrite <- app_assoc in Ha. apply wp_bind.
  eapply wp_mono; [by eapply drop_session_ok|]. cbv beta. intros _ v [Hv Hav]. by apply IH.
Qed.

Lemma client_life n s k sc :
  server_inv n s → sv_clients s !! k = Some sc →
  lifecycle (reported (sc_session_id sc) (messages s)) = Some (life_of (sc_session sc)).
Proof.
  intros [Hw Ha Hc _ _ _ _ _ _ _ _ _] Hk. rewrite (all_bufs_lookup _ _ _ Hk) in Ha.
  pose proof (inv_life _ _ _ (Hc k sc Hk _ _ Hw Ha)) as H. cbn in H. unfold history in H.
  by rewrite app_nil_r in H.
Qed.

Lemma retain_live_ok n s :
  server_inv n s → (∀ k sc, sv_clients s !! k = Some sc → reaped sc) →
  wp retain_live (fun _ s' => server_inv n s' ∧ sv_batches s' = sv_batches s) s.
Proof.
  intros Hs Hreaped. pose proof Hs as [Hw Ha Hc Hr Hse Hi Hn Hf Hsz Hd He Hl].
  unfold wp, retain_live. set (gone := filter (fun kv => ¬ is_live kv) (sv_clients s)).
  set (live := filter is_live (sv_clients s)).
  assert (Hdrop : wp (drop_clients (map_to_list gone)) (fun _ v => within limits v ∧ accounted v (all_bufs live)) (sv_mem s)).
  { apply drop_clients_ok; [|done|].
    - apply Forall_forall. intros [k sc] Hin%elem_of_map_to_list.
      apply map_lookup_filter_Some in Hin as [Hin _]. eexists. by apply (Hc k).
    - eapply accounted_proper; [reflexivity| |exact Ha].
      rewrite (all_bufs_filter is_live (sv_clients s)). apply Permutation_app_comm. }
  apply wp_elim in Hdrop as ([] & u & -> & Hu & Hau). split; [|done].
  assert (Hlive : ∀ k sc, live !! k = Some sc ↔ sv_clients s !! k = Some sc ∧ conn_is_closed (sc_conn sc) = false).
  { intros k sc. apply map_lookup_filter_Some. }
  assert (Hgone : ∀ k sc, gone !! k = Some sc → sv_clients s !! k = Some sc ∧ conn_is_closed (sc_conn sc) = true).
  { intros k sc [Hk Hng]%map_lookup_filter_Some. split; [done|]. by apply not_false_iff_true. }
  constructor; cbn; try done.
  - intros k sc [Hk _]%Hlive. by apply (Hc k).
  - intros k v. rewrite map_lookup_filter_Some, Hr. cbn. split; [by intros [[-> _] ?]|].
    intros [-> Hk]. split; [|done]. split; [done|]. destruct Hk as [sc [Hk _]%Hlive]. eauto.
  - intros i k. rewrite map_lookup_filter_Some, Hse. cbn. split.
    + intros [(sc & Hk & Ei) Hng]. exists sc. split; [|done]. apply Hlive. split; [done|].
      apply not_true_iff_false. intros Hclosed. apply (Hng k sc); [|done].
      apply map_lookup_filter_Some. split; [done|]. unfold is_live. cbn. by rewrite Hclosed.
    + intros (sc & [Hk Hopen]%Hlive & Ei). split; [eauto|]. intros k' sc' [Hk' Hcl]%Hgone Ei'.
      assert (H1 : sv_sessions s !! i = Some k) by (apply Hse; eauto).
      assert (H2 : sv_sessions s !! i = Some k') by (apply Hse; eauto). congruence.
  - intros k sc [Hk _]%Hlive. by apply (Hi k).
  - etrans; [|exact Hsz]. apply map_size_filter.
  - intros k sc [Hk _]%Hlive. by apply (Hd k).
  - intros i Hlt Hnone. change (countb is_closed_ev (reported i (messages s)) = 1%nat).
    destruct (sv_sessions s !! i) as [k|] eqn:Ei; [|by apply He].
    apply Hse in Ei as Hk. destruct Hk as (sc & Hk & <-).
    destruct (conn_is_closed (sc_conn sc)) eqn:Hcl.
    + pose proof (client_life n s k sc Hs Hk) as Hlife. apply lifecycle_counts in Hlife as (-> & _).
      cbn. by rewrite (Hreaped k sc Hk Hcl).
    + exfalso. revert Hnone. apply not_eq_None_Some. exists k. apply map_lookup_filter_Some. split; [done|].
      intros k' sc' [Hk' Hcl']%Hgone Eid. cbn in Eid.
      assert (H2 : sv_sessions s !! sc_session_id sc = Some k') by (apply Hse; eauto). congruence.
Qed.

(** ** The loop *)

(** What has been emitted by the end of the thread or between wakes. *)
Definition told (s : Server C) : Prop :=
  (∀ i, ∃ l, lifecycle (reported i (concat (sv_batches s))) = Some l) ∧
  Forall (fun b => b ≠ []) (sv_batches s).
(** Between wakes everything reported has been emitted. *)
Definition steady (n : N) (s : Server C) : Prop := server_inv n (s <| sv_out := [] |>) ∧ told s.

Lemma server_inv_emitted n s out bs :
  server_inv n s → concat bs ++ out = messages s →
  server_inv n (s <| sv_batches := bs |> <| sv_out := out |>).
Proof.
  intros [Hw Ha Hc Hr Hse Hi Hn Hf Hsz Hd He Hl] Em.
  assert (Em' : messages (s <| sv_batches := bs |> <| sv_out := out |>) = messages s) by exact Em.
  constructor; rewrite ?Em'; done.
Qed.

Lemma emit_out_ok n s :
  server_inv n s → Forall (fun b => b ≠ []) (sv_batches s) → wp emit_out (fun _ s' => steady n s' ∧ grown (sv_batches s) (sv_batches s')) s.
Proof.
  intros Hs Hb. unfold emit_out. apply wp_bind, wp_gets.
  assert (H : ∀ bs, concat bs = messages s → Forall (fun b => b ≠ []) bs → steady n (s <| sv_batches := bs |>)).
  { intros bs Hbs Hne. split.
    - apply server_inv_emitted; [done|]. by rewrite app_nil_r.
    - split; [|done]. intros i. cbn. rewrite Hbs. by apply (si_life n s Hs). }
  case_bool_decide as Ho; cbn [negb when].
  - apply wp_ret. split; [|by apply grown_same].
    replace s with (s <| sv_batches := sv_batches s |>) by (by destruct s). apply H; [|done]. unfold messages. by rewrite Ho, app_nil_r.
  - apply wp_modify. split; [|by eexists]. apply (H (sv_batches s ++ [sv_out s])); [by rewrite concat_app, concat_cons, app_nil_r|].
    apply Forall_app. split; [done|by repeat constructor].
Qed.

(** The connection was told that the server shuts down, and what it had to send
    was handed to the socket. *)
Definition told_goodbye (sc : ServerConn C) : Prop :=
  ∃ c ps sends, flush_send false sends (conn_close c true 0 (s2b "server shutdown")) = Some (ps, sc_conn sc).

Lemma shutdown_client_ok n key sends s :
  server_inv n s →
  wp (_ ← with_client key (conn_ (fun c => conn_close c true 0 (s2b "server shutdown")));
      send_client key sends) (fun _ s' => server_inv n s' ∧ sv_batches s' = sv_batches s ∧
    dom (sv_clients s') = dom (sv_clients s) ∧
    (∀ k, k ≠ key → sv_clients s' !! k = sv_clients s !! k) ∧
    ∀ sc, sv_clients s' !! key = Some sc → told_goodbye sc) s.
Proof.
  intros Hs. apply wp_bind.
  eapply wp_mono; [apply (with_client_ok n key _
    (fun w => ∃ c, w_conn w = conn_close c true 0 (s2b "server shutdown")) s Hs)|].
  { intros before L w Hw. apply wp_modify. split; [exact (set_conn_inv limits L w _ Hw)|]. by eexists. }
  cbv beta. intros _ s1 (Hs1 & Hb1 & Ho1 & Hd1 & Hc1).
  eapply wp_mono; [apply wp_conj; [apply send_client_same|apply (send_client_spec key)]|]. cbv beta.
  intros _ s2 [Hsame (Ho2 & Hk2)].
  split; [by apply (server_inv_same n s1)|]. split; [by rewrite (same_batches _ _ Hsame)|].
  split; [rewrite <- Hd1; apply set_eq; intros k; rewrite !elem_of_dom; by apply same_is_Some|].
  split; [intros k Hne; by rewrite Ho2, Ho1|]. intros sc Hk.
  apply Hk2 in Hk as (sc1 & ps & H1 & Hf). apply Hc1 in H1 as (w & [c ->] & _ & E).
  exists c, ps, sends. by rewrite <- E.
Qed.

Lemma shutdown_clients_ok n keys sends s :
  server_inv n s →
  wp (shutdown_clients keys sends) (fun _ s' => server_inv n s' ∧ sv_batches s' = sv_batches s ∧
    dom (sv_clients s') = dom (sv_clients s) ∧
    ∀ k sc, k ∈ keys → sv_clients s' !! k = Some sc → told_goodbye sc) s.
Proof.
  enough (H : ∀ done_ s, server_inv n s → (∀ k sc, k ∈ done_ → sv_clients s !! k = Some sc → told_goodbye sc) →
    wp (shutdown_clients keys sends) (fun _ s' => server_inv n s' ∧ sv_batches s' = sv_batches s ∧
      dom (sv_clients s') = dom (sv_clients s) ∧
      ∀ k sc, k ∈ done_ ++ keys → sv_clients s' !! k = Some sc → told_goodbye sc) s).
  { intros Hs. eapply wp_mono; [apply (H [] s Hs); intros k sc Hk; by apply elem_of_nil in Hk|done]. }
  induction keys as [|key keys IH]; intros done_ s0 Hs Hg; cbn [shutdown_clients].
  { apply wp_ret. by rewrite app_nil_r. }
  eapply wp_eq; [symmetry; apply M_assoc|].
  apply wp_bind. eapply wp_mono; [by apply shutdown_client_ok|]. cbv beta.
  intros _ s1 (Hs1 & Hb1 & Hd1 & Ho1 & Hk1). eapply wp_mono; [apply (IH (done_ ++ [key]) s1 Hs1)|].
  - intros k sc Hin Hk. destruct (decide (k = key)) as [->|Hne]; [by apply Hk1|].
    rewrite Ho1 in Hk by done. apply (Hg k); [|done]. apply elem_of_app in Hin as [?|?]; [done|set_solver].
  - cbv beta. intros _ s2 (Hs2 & Hb2 & Hd2 & H2). split; [done|]. split; [congruence|]. split; [congruence|].
    intros k sc Hin. apply H2. by rewrite <- app_assoc.
Qed.

(** What a wake leaves: the loop goes on, or has been shut down. *)
Definition after (n : N) (go_on : bool) (s : Server C) : Prop :=
  told s ∧ if go_on then server_inv n (s <| sv_out := [] |>)
  else server_inv n s ∧ ∀ k sc, sv_clients s !! k = Some sc → told_goodbye sc.

(** A hash map is traversed completely, in some order. *)
Definition complete (wk : ServerWake) : Prop := ∀ keys, sw_client_order wk keys ≡ₚ keys.

(** The wakes that shut the server down. *)
Definition stops (wk : ServerWake) : bool := sw_polled wk && existsb is_shutdown (sw_commands wk).

Lemma ordered_keys (wk : ServerWake) (m : gmap bytes (ServerConn C)) (k : bytes) (sc : ServerConn C) :
  complete wk → m !! k = Some sc → k ∈ sw_client_order wk (map fst (map_to_list m)).
Proof.
  intros Hall Hk. rewrite (Hall (map fst (map_to_list m)) : _ ≡ₚ _). apply list_elem_of_fmap.
  exists (k, sc). split; [done|]. by apply elem_of_map_to_list.
Qed.

Abbreviation iteration := (iteration setup local_addr token_secret server_memory.1).
Abbreviation event_loop := (event_loop setup local_addr token_secret server_memory.1).

Lemma server_wake_ok n wk s :
  steady n s → n + 1024 < U64 → complete wk →
  wp (iteration wk) (fun (go_on : bool) s' =>
    (after (n + 1024) go_on s' ∧ if go_on then grown (sv_batches s) (sv_batches s') else sv_batches s' = sv_batches s) ∧
    go_on = negb (stops wk)) s.
Proof.
  intros [Hs Htold] Hn Hall. unfold Server.iteration, stops.
  destruct (sw_polled wk); cbn [negb andb].
  2: { apply wp_ret. split; [|done]. split; [|by apply grown_same]. split; [done|].
    apply (server_inv_mono n); [lia|done]. }
  apply wp_bind, wp_modify, wp_bind.
  assert (Hbudget : n + N.of_nat MAX_RECV_PER_WAKE = n + 1024) by (unfold MAX_RECV_PER_WAKE; lia).
  eapply wp_mono; [apply (receive_packets_ok _ _ n); [done|by rewrite Hbudget]|]. cbv beta. rewrite Hbudget.
  intros _ s1 [Hs1 Hb1]. apply wp_bind. eapply wp_mono; [apply fire_timeouts_same|]. cbv beta.
  intros _ s2 H2. apply (server_inv_same _ _ _ H2) in Hs1. pose proof (same_batches _ _ H2) as Hb2. apply wp_bind.
  eapply wp_mono; [by apply drain_commands_ok|]. cbv beta. intros shutdown s3 (Hs3 & Hb3 & <-).
  apply wp_bind, wp_gets. set (keys := sw_client_order wk _).
  assert (Hkeys : ∀ k, k ∈ dom (sv_clients s3) → k ∈ keys).
  { intros k [sc Hk]%elem_of_dom. by eapply ordered_keys. }
  assert (Eb : sv_batches s3 = sv_batches s) by (rewrite Hb3, Hb2, Hb1; done).
  destruct shutdown.
  { apply wp_bind. eapply wp_mono; [by apply shutdown_clients_ok|]. cbv beta. intros _ s4 (Hs4 & Hb4 & Hd4 & Hg4).
    apply wp_ret. split; [|done]. split; [|by rewrite Hb4].
    split; [unfold told; by rewrite Hb4, Eb|]. split; [done|].
    intros k sc Hk. apply (Hg4 k); [|done]. apply Hkeys. rewrite <- Hd4. by eapply elem_of_dom_2. }
  cbv zeta. apply wp_bind. eapply wp_mono; [by apply drive_clients_ok|]. cbv beta.
  intros _ s4 (Hs4 & Hb4 & Hd4). apply wp_bind. eapply wp_mono; [by apply reap_clients_ok|]. cbv beta.
  intros _ s5 (Hs5 & Hb5 & Hr5 & Hd5). apply wp_bind. eapply wp_mono; [apply retain_live_ok; [exact Hs5|]|].
  { intros k sc Hk. apply (Hr5 k); [|done]. apply Hkeys. rewrite <- Hd4, <- Hd5. by eapply elem_of_dom_2. }
  cbv beta. intros _ s6 [Hs6 Hb6]. apply wp_bind.
  eapply wp_mono; [apply (emit_out_ok _ _ Hs6); rewrite Hb6, Hb5, Hb4, Eb; apply Htold|]. cbv beta.
  intros _ s7 [[Hs7 Ht7] (new & Hnew & Hlen)]. apply wp_ret. split; [|done]. split; [done|].
  exists new. by rewrite Hnew, Hb6, Hb5, Hb4, Eb.
Qed.

Lemma server_loop_ok wakes n s :
  steady n s → n + 1024 * lenN wakes < U64 → Forall complete wakes →
  wp (event_loop wakes) (fun go_on s' =>
    after (n + 1024 * lenN wakes) go_on s' ∧ go_on = negb (existsb stops wakes)) s.
Proof.
  revert n s. induction wakes as [|wk wakes IH]; intros n s Hs Hn Hall; cbn [Server.event_loop existsb].
  { apply wp_ret. split; [|done]. destruct Hs as [Hs Ht]. split; [done|]. apply (server_inv_mono n); [lia|done]. }
  inversion Hall as [|? ? Hwk Hrest]; subst. rewrite lenN_cons in *.
  apply wp_bind. eapply wp_mono; [apply (server_wake_ok n); [done|lia|done]|]. cbv beta.
  intros [] s' [[[Ht Hs'] _] Hgo].
  - replace (n + 1024 * (1 + lenN wakes)) with (n + 1024 + 1024 * lenN wakes) by lia.
    symmetry in Hgo. apply negb_true_iff in Hgo. rewrite Hgo. apply IH; [done|lia|done].
  - symmetry in Hgo. apply negb_false_iff in Hgo. rewrite Hgo. apply wp_ret. split; [|done]. split; [done|].
    destruct Hs' as [Hi Hg]. split; [|done]. apply (server_inv_mono (n + 1024)); [lia|done].
Qed.

(** What comes after a shutdown is never looked at. *)
Lemma event_loop_stopped wakes more s s' :
  event_loop wakes s = Some (false, s') → event_loop (wakes ++ more) s = Some (false, s').
Proof.
  revert s. induction wakes as [|wk wakes IH]; intros s; [done|]. cbn [app Server.event_loop].
  unfold mbind, M_bind. destruct (iteration wk s) as [[[] s1]|]; [apply IH|done|done].
Qed.

(** ** A whole run *)

Lemma server_new_inv m :
  (∀ i, event_of i m = None) → steady 1 ((server_new C []) <| sv_batches ::= fun l => l ++ [[m]] |>).
Proof.
  intros Hm. assert (Hrep : ∀ i, reported i [m] = []) by (intros i; unfold reported; cbn; by rewrite Hm).
  assert (Hu : ∀ i, usage server_memory.2 i = 0).
  { intros i. unfold server_memory, new_memory, usage. cbn. rewrite lookup_insert. by case_decide. }
  split; [|split; [|by repeat constructor]].
  - constructor; cbn.
    + intros i. rewrite Hu. lia.
    + intros i. by rewrite Hu.
    + intros k sc Hk. by rewrite lookup_empty in Hk.
    + intros k v. rewrite !lookup_empty. split; [done|]. by intros [_ []].
    + intros i k. rewrite lookup_empty. split; [done|]. intros (sc & Hk & _). by rewrite lookup_empty in Hk.
    + intros k sc Hk. by rewrite lookup_empty in Hk.
    + lia.
    + intros i _. apply Hrep.
    + rewrite map_size_empty. lia.
    + intros k sc Hk. by rewrite lookup_empty in Hk.
    + intros i. lia.
    + intros i. exists (mkLife false false false). unfold messages. cbn. by rewrite Hrep.
  - intros i. exists (mkLife false false false). cbn. by rewrite Hrep.
Qed.

(** The tables and the memory at the end. *)
Definition tables_ok (s : Server C) : Prop := ∃ n out bs, server_inv n (s <| sv_batches := bs |> <| sv_out := out |>).

Lemma told_snoc m s :
  (∀ i, event_of i m = None) → told s → told (s <| sv_batches ::= fun l => l ++ [[m]] |>).
Proof.
  intros Hm [Hl Hb]. split; cbn; [|apply Forall_app; split; [done|by repeat constructor]].
  intros i. rewrite concat_app, reported_app. cbn. unfold reported at 2. cbn. rewrite Hm, app_nil_r. done.
Qed.
End server_inv.

Section runs.
Context {C : Type} {quic : Quic C} {quic_laws : QuicLaws C} {qloop : QuicLoop C} {qloop_laws : QuicLoopLaws C}.
Context {qserver : QuicServer C}.
Context {alloc : Allocator} {alloc_laws : AllocatorLaws} {qpack : Qpack} {sfv : Sfv} {sha : Sha256}.

Lemma run_ok setup e token_secret wakes :
  1 + 1024 * lenN wakes < U64 → Forall complete wakes →
  wp (run setup e token_secret wakes) (fun go_on s => told s ∧ tables_ok s ∧
    (match start setup e with Ok _ => go_on = negb (existsb stops wakes) | Err _ => go_on = false end) ∧
    if go_on then ∃ n, server_inv n (s <| sv_out := [] |>)
    else sv_closed s = true ∧ last (sv_batches s) = Some [ServerClosed] ∧
      ∀ k sc, sv_clients s !! k = Some sc → told_goodbye sc)
    (server_new C []).
Proof.
  intros Hn Hall. unfold run. apply wp_bind.
  apply (wp_mono _ (fun go_on s => told s ∧ tables_ok s ∧
    (match start setup e with Ok _ => go_on = negb (existsb stops wakes) | Err _ => go_on = false end) ∧
    if go_on then ∃ n, server_inv n (s <| sv_out := [] |>)
    else ∀ k sc, sv_clients s !! k = Some sc → told_goodbye sc)).
  - unfold run_inner. destruct (start setup e) as [local_addr|m]; apply wp_bind, wp_modify.
    + eapply wp_mono; [apply (server_loop_ok setup local_addr token_secret wakes 1); [by apply server_new_inv|lia|done]|].
      cbv beta. intros go_on s' [[Ht Hs'] Hgo]. split; [done|]. destruct go_on; [|destruct Hs' as [Hs' Hg]]; (split; [|by eauto]).
      * eexists _, [], (sv_batches s'). by destruct s'.
      * eexists _, (sv_out s'), (sv_batches s'). by destruct s'.
    + apply wp_ret. destruct (server_new_inv (C := C) (ServerError m)) as [Hi Ht]; [done|].
      split; [done|]. split; [exists 1, [], [[ServerError m]]; exact Hi|]. split; [done|].
      intros k sc Hk. cbn in Hk. by rewrite lookup_empty in Hk.
  - cbv beta. intros go_on s (Ht & Htab & Hst & Hgo). apply wp_bind. destruct go_on; cbn [negb when].
    + apply wp_ret, wp_ret. by eauto.
    + apply wp_modify, wp_ret. split; [by apply (told_snoc ServerClosed)|]. split.
      { destruct Htab as (n & out & bs & []). by exists n, out, bs; constructor. }
      split; [done|]. split; [done|]. split; [|done]. cbn. by rewrite last_snoc.
Qed.
End runs.
