(* ===== verification/ServerLoop.v ===== *)
(** * What the server promises ([crates/native/src/server.rs])

    No state before a valid Retry token; every run returns with consistent
    tables and bounded memory; every session is reported coherently.  A concrete
    server at the end. *)

From S2P Require Import Prelude H3 ParserMemory FrameParser Headers Net IpText Tls Quic SessionState.
From S2P Require Import SessionRecv SessionConnect SessionStreams SessionSend SessionInv.
From S2P Require Import SessionRecvInv SessionSendInv Session RetryToken EventLoop Server.
From S2P Require Import ServerInv.

Section packets.
Context {C : Type} {quic : Quic C} {qloop : QuicLoop C} {qserver : QuicServer C}.
Context {alloc : Allocator} {qpack : Qpack} {sfv : Sfv} {sha : Sha256} {sha_laws : Sha256Laws}.
Context (setup : ServerSetup) (local_addr : SocketAddr) (token_secret : bytes) (parser_memory : ParserMemory).

(** The reply to an Initial without a token, if one is sent. *)
Definition retry_reply (hdr : Hdr) (from : SocketAddr) (random : bytes) : list (bytes * SocketAddr) :=
  match retry (hd_scid hdr) (hd_dcid hdr) random (mint_token token_secret (hd_dcid hdr) from) (hd_version hdr) with
  | Some packet => [(packet, from)]
  | None => []
  end.

(** C5: no state before address validation: a datagram of no known connection,
    unless it is an Initial carrying the very token this server minted for
    its source address, changes nothing, whatever else it holds: no
    connection, session, table entry, id or memory; at most one Retry is sent,
    to the datagram's source, and only while the connection table and the
    event queue have room. *)
Theorem unvalidated_packet_leaves_no_state data from random inflight (s : Server C) hdr :
  parse_header data = Some hdr → sv_routing s !! hd_dcid hdr = None →
  (hd_initial hdr = true → ∀ odcid, hd_token hdr ≠ Some (mint_token token_secret odcid from)) →
  ∃ ps, receive setup local_addr token_secret parser_memory data from random inflight s =
    Some ((), s <| sv_wire ::= fun l => l ++ ps |>) ∧
    (ps = [] ∨ ps = retry_reply hdr from random ∧
      (size (sv_clients s) < MAX_CONNECTIONS)%nat ∧ (inflight < MAX_INFLIGHT_BATCHES)%Z ∧
      default [] (hd_token hdr) = []).
Proof.
  intros Hp Hr Ht. assert (Hsame : s = s <| sv_wire ::= fun l => l ++ [] |>).
  { destruct s. unfold upd. cbn. by rewrite app_nil_r. }
  unfold receive. rewrite Hp. unfold mbind, M_bind, gets. rewrite Hr. unfold accept_initial.
  destruct (hd_initial hdr); cbn [negb]; [|exists []; rewrite <- Hsame; by auto].
  unfold mbind, M_bind, gets.
  destruct ((_ <=? _)%nat || _)%bool eqn:Hfull; [exists []; rewrite <- Hsame; by auto|].
  apply orb_false_iff in Hfull as [Hc%Nat.leb_gt Hi%Z.leb_gt].
  case_bool_decide as He.
  - exists (retry_reply hdr from random). unfold retry_reply. split; [|by auto].
    destruct (retry _ _ _ _ _); [done|]. by rewrite <- Hsame.
  - destruct (validate_token _ _ _) as [odcid|] eqn:E; [|exists []; rewrite <- Hsame; by auto].
    apply validate_token_iff in E. exfalso. apply (Ht eq_refl odcid).
    destruct (hd_token hdr) as [t|]; [by rewrite <- E|done].
Qed.
End packets.

Section promises.
Context {C : Type} {quic : Quic C} {quic_laws : QuicLaws C} {qloop : QuicLoop C} {qloop_laws : QuicLoopLaws C}.
Context {qserver : QuicServer C}.
Context {alloc : Allocator} {alloc_laws : AllocatorLaws} {qpack : Qpack} {sfv : Sfv} {sha : Sha256}.

(** C2: the server tells a coherent story of every session.  Whatever packets,
    tokens, commands and timers the environment brings, every wake returns;
    batches are never empty; the events tagged with one session's id follow
    the lifecycle, across all batches; while the server runs, a session whose
    connection has left the table has reported exactly one [Closed], and no
    event carries an id not given out yet; a thread that ends says so
    last. *)
Theorem server_reports_lifecycle setup e token_secret wakes :
  1 + 1024 * lenN wakes < U64 → Forall complete wakes →
  wp (run setup e token_secret wakes) (fun go_on (s : Server C) =>
    (∀ i, ∃ l, lifecycle (reported i (concat (sv_batches s))) = Some l) ∧
    Forall (fun b => b ≠ []) (sv_batches s) ∧
    if go_on then
      (∀ i, 1 <= i < sv_next_session_id s → sv_sessions s !! i = None →
         countb is_closed_ev (reported i (concat (sv_batches s))) = 1%nat) ∧
      (∀ i, sv_next_session_id s <= i → reported i (concat (sv_batches s)) = [])
    else sv_closed s = true ∧ last (sv_batches s) = Some [ServerClosed])
    (server_new C []).
Proof.
  intros Hn Hall. eapply wp_mono; [by apply run_ok|]. cbv beta. intros go_on s ([Hl Hb] & _ & _ & H).
  split; [done|]. split; [done|]. destruct go_on; [|tauto]. destruct H as [n [_ _ _ _ _ _ _ Hf _ _ He _]].
  unfold messages in Hf, He. cbn in Hf, He. rewrite app_nil_r in Hf, He. done.
Qed.

(** C17: the server's resources stay bounded and its tables agree.  After any
    run the shared counters account for exactly the buffers of the live
    sessions: at most 64 MiB in all and 8 MiB in each session; at most
    16384 connections are held; the routing table maps exactly the ids of
    live connections, to themselves; and the session table maps exactly the
    live sessions' ids to their connections. *)
Theorem server_resources_bounded setup e token_secret wakes :
  1 + 1024 * lenN wakes < U64 → Forall complete wakes →
  wp (run setup e token_secret wakes) (fun _ (s : Server C) =>
    accounted (sv_mem s) (all_bufs (sv_clients s)) ∧
    usage (sv_mem s) (pm_id server_memory.1) <= MAX_PARSER_MEMORY ∧
    (∀ i, i ≠ pm_id server_memory.1 → usage (sv_mem s) i <= MAX_SESSION_PARSER_MEMORY) ∧
    (size (sv_clients s) <= MAX_CONNECTIONS)%nat ∧
    (∀ k v, sv_routing s !! k = Some v ↔ v = k ∧ is_Some (sv_clients s !! k)) ∧
    (∀ i k, sv_sessions s !! i = Some k ↔ ∃ sc, sv_clients s !! k = Some sc ∧ sc_session_id sc = i))
    (server_new C []).
Proof.
  intros Hn Hall. eapply wp_mono; [by apply run_ok|]. cbv beta. intros go_on s (_ & (n & out & bs & Hs) & _).
  destruct Hs as [Hw Ha _ Hr Hse _ _ _ Hsz _ _ _]. split; [done|]. split; [|split; [|done]].
  - specialize (Hw (pm_id server_memory.1)). unfold limits in Hw. by rewrite N.eqb_refl in Hw.
  - intros i Hi. specialize (Hw i). unfold limits in Hw. by rewrite (proj2 (N.eqb_neq _ _) Hi) in Hw.
Qed.

(** C34: a shutdown ends the server, whatever the peers do: a server that has
    started stops exactly if some wake brings the [Shutdown] command, in that
    wake, and looks at nothing that comes after; and by then every connection it
    still holds has been told (an application close with "server shutdown") and
    what it had to send was handed to the socket. *)
Theorem shutdown_terminates setup e token_secret wakes more local_addr :
  start setup e = Ok local_addr → 1 + 1024 * lenN wakes < U64 → Forall complete wakes →
  wp (run setup e token_secret wakes) (fun go_on (s : Server C) =>
    go_on = negb (existsb stops wakes) ∧
    (go_on = false →
      (∀ key sc, sv_clients s !! key = Some sc → told_goodbye sc) ∧
      run setup e token_secret (wakes ++ more) (server_new C []) = Some (false, s)))
    (server_new C []).
Proof.
  intros He Hn Hall. pose proof (run_ok (C := C) setup e token_secret wakes Hn Hall) as H.
  apply wp_elim in H as (go_on & s & E & _ & _ & Hgo & H). eapply wp_intro; [exact E|]. rewrite He in Hgo.
  split; [done|]. intros ->. split; [apply H|].
  revert E. unfold run, run_inner. rewrite He. unfold mbind, M_bind. unfold modify at 1 2.
  destruct (event_loop _ _ _ _ wakes _) as [[[] s1]|] eqn:El; [done| |done].
  apply (event_loop_stopped _ _ _ _ more) in El. by rewrite El.
Qed.
End promises.

(** ** A started server

    It listens on the address its setup names, speaks TLS 1.3 and HTTP/3 only,
    with the given certificate and key. *)
Lemma start_listens (setup : ServerSetup) (e : ServerStart) (local_addr : SocketAddr) :
  start setup e = Ok local_addr →
  ∃ ip sockets tls config, parse_ip (trim_brackets (ss_host setup)) = Some ip ∧
    bind_udp (mkSocketAddr ip (ss_port setup)) (ss_reuse_port setup) (st_socket e) = Ok sockets ∧
    last sockets = Some (BoundTo (mkSocketAddr ip (ss_port setup))) ∧
    (ReusePort ∈ sockets ↔ ss_reuse_port setup = true) ∧
    build_server_config (ss_cert_path setup) (ss_key_path setup) (st_config_answers e) = Ok (tls, config) ∧
    MinProtoTls13 ∈ tls ∧ LoadCertChain (ss_cert_path setup) ∈ config ∧
    LoadPrivKey (ss_key_path setup) ∈ config ∧ ApplicationProtos [H3_ALPN] ∈ config.
Proof.
  unfold start, bind_addr. destruct (parse_ip _) as [ip|]; [|done].
  destruct (bind_udp _ _ _) as [sockets|] eqn:Eb; [|done]. destruct (st_local_addr e); [|done].
  destruct (build_server_config _ _ _) as [[tls config]|] eqn:Ec; [|done]. destruct (st_registered e); [|done].
  intros _. exists ip, sockets, tls, config. split; [done|]. split; [done|].
  unfold bind_udp in Eb.
  apply bind_ok in Eb as (_ & _ & (_ & _ & (_ & _ & (_ & _ & [= <-])%bind_ok)%bind_ok)%bind_ok).
  split; [by destruct (ss_reuse_port setup)|]. split.
  { destruct (ss_reuse_port setup); cbn; rewrite ?elem_of_cons; [by split; auto|].
    split; [intros [?|[?|[?|?%elem_of_nil]]]; done|done]. }
  split; [done|]. unfold build_server_config in Ec.
  apply bind_ok in Ec as (_ & _ & (_ & _ & (_ & _ & (_ & _ & (_ & _ & (_ & _ & (_ & _ & [= <- <-])%bind_ok)%bind_ok)%bind_ok)%bind_ok)%bind_ok)%bind_ok).
  repeat split; repeat (first [by left|right]).
Qed.

(** ** A concrete server

    A client at [peer] sends an Initial, is asked to retry, comes back with the
    token, sets up a session and is closed by the application. *)

Module Example.
#[local] Existing Instance exact_allocator.
#[local] Existing Instance literal_qpack.
#[local] Existing Instance rfc9651.
#[local] Existing Instance zero_digest.
#[local] Existing Instance zero_digest_laws.

(** An Initial is a byte 0xff and its token; every packet is for connection
    1. *)
Definition peer : SocketAddr := mkSocketAddr (V4 x7f x00 x00 x01) 50000.
Definition local : SocketAddr := mkSocketAddr (V4 x7f x00 x00 x01) 4433.
Definition setup : ServerSetup := mkServerSetup (s2b "[::1]") 4433 (s2b "cert.pem")
  (s2b "key.pem") true [s2b "moq-00"] None [].
Definition started : ServerStart := mkServerStart (mkSocketAnswers (Ok ()) (Ok ()) (Ok ()) (Ok ()))
  (Ok local) Tls.Example.answers (Ok ()).
Definition secret : bytes := s2b "secret".
Definition packet (data : bytes) : Packet := mkPacket (Datagram data peer) [x01] 0.
Definition wake (packets : list Packet) (commands : list ServerCommand) : ServerWake :=
  mkServerWake true packets commands 0 id (fun _ => id) (fun _ => []).
Definition request : bytes :=
  match encode_headers_frame (connect_headers (s2b "example.org") (s2b "/chat") None [] [s2b "moq-00"]) with
  | Ok f => f
  | Err _ => []
  end.
Definition initial : bytes := [xff].
Definition wakes : list ServerWake :=
  [wake [packet initial] [];
   wake [packet (xff :: mint_token secret (s2b "dcid") peer)] [];
   wake [packet (x02 :: control_stream_prefix); packet (x00 :: request)] [];
   wake [] [ForSession 1 (OpenStream 7 true); ForSession 9 Drain]; wake [] [ForSession 1 (CloseSession 5 (s2b "bye"))];
   wake [] []; wake [] []; wake [] []].

Lemma wakes_complete : Forall complete wakes.
Proof. repeat (apply Forall_cons; split; [by intros keys|]). by apply Forall_nil. Qed.

Lemma unvalidated_packet_leaves_no_state_witness :
  ∃ ps, receive (C := ToyConn) setup local secret server_memory.1 initial peer [x01] 0 (server_new ToyConn []) =
    Some ((), (server_new ToyConn []) <| sv_wire ::= fun l => l ++ ps |>).
Proof.
  destruct (unvalidated_packet_leaves_no_state (qserver := toy_server) setup local secret server_memory.1 initial peer [x01] 0
    (server_new ToyConn []) (mkHdr true [x01] [x02] (Some []) 1) eq_refl) as (ps & H & _).
  - vm_compute. reflexivity.
  - intros _ odcid E. vm_compute in E. discriminate E.
  - exists ps. exact H.
Defined.

Definition final : option (bool * Server ToyConn) := run setup started secret wakes (server_new ToyConn []).

Lemma server_reports_lifecycle_witness :
  ∃ s, final = Some (true, s) ∧ sv_sessions s !! 1 = None ∧
    countb is_closed_ev (reported 1 (concat (sv_batches s))) = 1%nat.
Proof.
  pose proof (server_reports_lifecycle (C := ToyConn) setup started secret wakes eq_refl wakes_complete) as H.
  apply wp_elim in H as (go & s & E & _ & _ & H). exists s.
  pose proof (f_equal (fun o => match o with
    | Some (go, s) => (go, (1 <? sv_next_session_id s), sv_sessions s !! 1) | None => (false, false, None) end) E) as Ec.
  cbv beta iota in Ec. vm_compute in Ec. injection Ec as <- Hlt Hnone. symmetry in Hlt, Hnone.
  split; [exact E|]. split; [exact Hnone|]. destruct H as [H _]. apply H; [|exact Hnone].
  split; [reflexivity|]. by apply N.ltb_lt.
Defined.

Lemma server_resources_bounded_witness :
  ∃ go_on s, final = Some (go_on, s) ∧ usage (sv_mem s) (pm_id server_memory.1) <= 64 * 1024 * 1024.
Proof.
  pose proof (server_resources_bounded (C := ToyConn) setup started secret wakes eq_refl wakes_complete) as H.
  apply wp_elim in H as (go & s & E & _ & H & _). exists go, s. split; [exact E|exact H].
Defined.

Definition wakes_stopped : list ServerWake := take 3 wakes ++ [wake [] [Shutdown]].
Lemma wakes_stopped_complete : Forall complete wakes_stopped.
Proof. repeat (apply Forall_cons; split; [by intros keys|]). by apply Forall_nil. Qed.

Lemma shutdown_terminates_witness :
  ∃ s, run setup started secret wakes_stopped (server_new ToyConn []) = Some (false, s) ∧
    run setup started secret (wakes_stopped ++ wakes) (server_new ToyConn []) = Some (false, s) ∧
    ∀ key sc, sv_clients s !! key = Some sc → told_goodbye sc.
Proof.
  pose proof (shutdown_terminates (C := ToyConn) setup started secret wakes_stopped wakes local eq_refl eq_refl
    wakes_stopped_complete) as H.
  apply wp_elim in H as (go & s & E & Hgo & H). vm_compute in Hgo. subst go.
  destruct (H eq_refl) as [Hg Hmore]. exists s. split; [exact E|]. split; [exact Hmore|exact Hg].
Defined.
End Example.
