(* ===== verification/System.v ===== *)
(** * The application and its network threads together

    The parts of [NativeCalls], [NativeBridge], [Driver] and [Server] composed:
    the application calls exported functions, which queue commands for a
    thread; the thread wakes, takes commands, and hands batches of events to
    its sink; the application's callback is given their objects.  The steps of
    the two sides interleave in any order. *)

From S2P Require Import Prelude H3 ParserMemory FrameParser Headers Net Quic Float64 SessionState.
From S2P Require Import SessionInv Session EventLoop RetryToken Tls NativeApi NativeCalls NativeEvents NativeBridge ServerInv.
From S2P Require Driver Server ServerLoop.

(** ** Interfaces *)

(** The exported functions for one kind of handle, and how they are called for a
    command. *)
Class Exports (Cmd : Type) := {
  exported : list (rstring * (list JsValue → result Thrown (N * Cmd)));
  call_for : N → Cmd → rstring * list JsValue;
  sendable : Cmd → bool;
  call_for_ok h cmd : sendable cmd = true →
    ∃ f, assoc (call_for h cmd).1 exported = Some f ∧ f (call_for h cmd).2 = Ok (h, cmd);
}.
#[export] Instance client_functions : Exports Driver.Command := {|
  exported := client_exports; call_for := client_call; sendable := client_sendable; call_for_ok := client_call_ok;
|}.
#[export] Instance server_functions : Exports Server.ServerCommand := {|
  exported := server_exports; call_for := server_call; sendable := server_sendable; call_for_ok := server_call_ok;
|}.

(** A thread with a loop: a wake, given the commands it takes and the number of
    batches in flight, says whether the loop goes on. *)
Class Thread (L Cmd Msg Env : Type) := {
  wake_up : Env → list Cmd → Z → M L bool;
  emitted : L → list (list Msg);
}.

(** What a thread promises: between wakes, with [n] to come, it is [fit n]; what
    it has emitted is always [told], whose messages make a [story], of which
    every beginning is one; a thread that stops has [ended]. *)
Class ThreadLaws (L Cmd Msg Env : Type) {thread : Thread L Cmd Msg Env} := {
  fit : N → L → Prop;
  told : L → Prop;
  ended : L → Prop;
  story : list Msg → Prop;
  fair : Env → Prop;
  fit_told n l : fit n l → told l;
  fit_later n l : fit (1 + n) l → fit n l;
  told_story l : told l → story (concat (emitted l));
  story_prefix msgs more : story (msgs ++ more) → story msgs;
  wake_up_ok n env cmds inflight l :
    fair env → fit (1 + n) l →
    wp (wake_up env cmds inflight) (fun (go : bool) l' =>
      (if go then fit n l' else told l' ∧ ended l') ∧
      ∃ new, emitted l' = emitted l ++ new ∧ (length new <= 1)%nat) l;
}.

(** ** The composition *)

Record System {L Cmd Msg : Type} := mkSystem {
  sy_thread : L;
  sy_running : bool;
  sy_channel : Channel Cmd;
  sy_bridge : Bridge Msg;
  (** The commands the thread has taken. *)
  sy_taken : list Cmd;
}.
Arguments System : clear implicits.
Arguments mkSystem {L Cmd Msg}.
#[export] Instance System_eta L Cmd Msg : Eta (System L Cmd Msg) := fun s =>
  mkSystem (sy_thread s) (sy_running s) (sy_channel s) (sy_bridge s) (sy_taken s).

(** The application asks for a command, or its callback runs; the thread wakes
    and finds that many commands, or finishes handing over a batch. *)
Inductive Act {Cmd Env : Type} :=
  | Ask (cmd : Cmd)
  | Callback (threw : option nat)
  | Wakes (env : Env) (commands : nat)
  | HandOver (scheduled : bool).
Arguments Act : clear implicits.

Section system.
Context {L Cmd Msg Env : Type} {js : JsMessage Msg} {fns : Exports Cmd} {thread : Thread L Cmd Msg Env}.
(** The handle. *)
Context (h : N).

(** The batch of a wake goes to the sink. *)
Definition announce (new : list (list Msg)) (b : Bridge Msg) : Bridge Msg :=
  match new with [] => b | batch :: _ => emit_begin batch b end.

Definition system_new (l : L) : System L Cmd Msg :=
  mkSystem l true (mkChannel [] 0) (announce (emitted l) bridge_new) [].

(** What cannot happen now changes nothing: a callback when none is scheduled, a
    wake of a thread that has ended or is handing over a batch. *)
Definition act (a : Act Cmd Env) : M (System L Cmd Msg) () := fun s =>
  match a with
  | Ask cmd =>
      let '(name, args) := call_for h cmd in
      Some ((), s <| sy_channel := (invoke exported name args (fun _ => sy_channel s)).2 h |>)
  | Callback threw => Some ((), s <| sy_bridge := default (sy_bridge s) (dequeue threw (sy_bridge s)) |>)
  | HandOver scheduled => Some ((), s <| sy_bridge := default (sy_bridge s) (emit_end scheduled (sy_bridge s)) |>)
  | Wakes env n =>
      if sy_running s && bool_decide (br_emitting (sy_bridge s) = None) then
        let queue := ch_queue (sy_channel s) in
        match wake_up env (take n queue) (if_count (br_inflight (sy_bridge s))) (sy_thread s) with
        | None => None
        | Some (go, l) =>
            Some ((), mkSystem l go (mkChannel (drop n queue) (ch_wakes (sy_channel s)))
              (announce (drop (length (emitted (sy_thread s))) (emitted l)) (sy_bridge s))
              (sy_taken s ++ take n queue))
        end
      else Some ((), s)
  end.
Fixpoint acts (l : list (Act Cmd Env)) : M (System L Cmd Msg) () :=
  match l with
  | [] => mret ()
  | a :: l => _ ← act a; acts l
  end.

(** What the application asks for. *)
Definition asked (l : list (Act Cmd Env)) : list Cmd :=
  omap (fun a => match a with Ask cmd => Some cmd | _ => None end) l.
Definition is_wake (a : Act Cmd Env) : bool := match a with Wakes _ _ => true | _ => false end.
Definition wakes (l : list (Act Cmd Env)) : N := N.of_nat (countb is_wake l).
End system.

(** ** What holds at every moment *)

Section sound.
Context {L Cmd Msg Env : Type} {js : JsMessage Msg} {fns : Exports Cmd} {thread : Thread L Cmd Msg Env}.
Context {laws : ThreadLaws L Cmd Msg Env} (h : N).

(** The application asks for what it can send, its callback returns, and its
    environment takes the callbacks. *)
Definition calm (a : Act Cmd Env) : Prop :=
  match a with
  | Ask cmd => sendable cmd = true
  | Callback threw => threw = None
  | Wakes env _ => fair env
  | HandOver scheduled => scheduled = true
  end.

(** Everything emitted has been heard, is scheduled, or is being handed over. *)
Definition heard_so_far (s : System L Cmd Msg) (heard rest : list Msg) : Prop :=
  br_received (sy_bridge s) = map to_js heard ∧
  concat (emitted (sy_thread s)) = heard ++ rest ∧
  rest = concat (br_channel (sy_bridge s)) ++ concat (option_list (br_emitting (sy_bridge s))).

Record sound (n : N) (sent : list Cmd) (s : System L Cmd Msg) : Prop := mkSound {
  so_fit : sy_running s = true → fit n (sy_thread s);
  so_told : told (sy_thread s);
  so_ended : sy_running s = false → ended (sy_thread s);
  so_heard : ∃ heard rest, heard_so_far s heard rest;
  so_sent : sy_taken s ++ ch_queue (sy_channel s) = sent;
}.

Lemma system_new_sound n l : fit n l → (length (emitted l) <= 1)%nat → sound n [] (system_new l).
Proof.
  intros Hl H1. constructor; [done|by eapply fit_told|done| |done].
  exists [], (concat (emitted l)). unfold heard_so_far, system_new. cbn.
  destruct (emitted l) as [|b [|]]; cbn in *; [done| |lia]. done.
Qed.

(** A wake: what is new goes to the sink. *)
Lemma wakes_sound env k n sent (s : System L Cmd Msg) :
  fair env → sound (1 + n) sent s → sy_running s = true → br_emitting (sy_bridge s) = None →
  wp (act h (Wakes env k)) (fun _ s' => sound n sent s') s.
Proof.
  intros Hf [Hfit _ _ (heard & rest & Hr & He & Hrest) Hc] Hrun Hnone. unfold wp, act. rewrite Hrun, bool_decide_true by done.
  cbn [andb]. cbv zeta.
  pose proof (wake_up_ok n env (take k (ch_queue (sy_channel s))) (if_count (br_inflight (sy_bridge s))) _ Hf (Hfit Hrun)) as H.
  apply wp_elim in H as (go & l' & -> & Hl & new & Hnew & Hlen).
  rewrite Hnew, drop_app_length. constructor; cbn [sy_thread sy_running sy_bridge sy_taken sy_channel ch_queue].
  - by destruct go.
  - destruct go; [by eapply fit_told|apply Hl].
  - intros ->. apply Hl.
  - rewrite Hnone, app_nil_r in Hrest. exists heard, (rest ++ concat new). unfold heard_so_far. cbn.
    rewrite Hnew, concat_app, He, app_assoc. destruct new as [|b [|]]; cbn in *; [| |lia].
    + by rewrite Hnone, Hrest, !app_nil_r.
    + by rewrite Hrest, !app_nil_r.
  - by rewrite <- app_assoc, take_drop.
Qed.

Lemma act_sound a n sent (s : System L Cmd Msg) :
  calm a → sound ((if is_wake a then 1 else 0) + n) sent s →
  wp (act h a) (fun _ s' => sound n (sent ++ asked [a]) s') s.
Proof.
  intros Ha Hs. destruct a as [cmd|threw|env k|scheduled]; cbn [calm is_wake] in *.
  - destruct Hs as [Hf Ht Hd Hh Hc]. destruct (call_for_ok h cmd Ha) as (f & E1 & E2). unfold wp, act.
    destruct (call_for h cmd) as [name args]. cbn [fst snd] in E1, E2. unfold invoke. rewrite E1, E2. cbn [snd].
    rewrite decide_True by done. constructor; [done..|]. cbn. by rewrite app_assoc, Hc.
  - subst threw. destruct Hs as [Hf Ht Hd (heard & rest & Hr & He & Hrest) Hc]. unfold wp, act, dequeue. cbn.
    rewrite app_nil_r. destruct (br_channel (sy_bridge s)) as [|b q] eqn:Eq; cbn.
    + constructor; [done..| |done]. exists heard, rest. unfold heard_so_far. cbn. by rewrite Eq.
    + constructor; [done..| |done]. cbn in Hrest. rewrite <- app_assoc in Hrest.
      exists (heard ++ b), (concat q ++ concat (option_list (br_emitting (sy_bridge s)))).
      unfold heard_so_far. cbn. by rewrite Hr, map_app, He, Hrest, <- app_assoc.
  - cbn [asked omap list_omap]. rewrite app_nil_r.
    destruct (sy_running s && bool_decide (br_emitting (sy_bridge s) = None)) eqn:E.
    + apply andb_true_iff in E as [Hrun Hnone%bool_decide_eq_true]. by apply wakes_sound.
    + unfold wp, act. rewrite E. destruct Hs as [Hf Ht Hd Hh Hc]. constructor; try done. intros Hrun.
      by apply (fit_later n), Hf.
  - subst scheduled. destruct Hs as [Hf Ht Hd (heard & rest & Hr & He & Hrest) Hc]. unfold wp, act, emit_end. cbn.
    rewrite app_nil_r. destruct (br_emitting (sy_bridge s)) as [b|] eqn:Eb; cbn.
    + constructor; [done..| |done]. exists heard, rest. unfold heard_so_far. cbn. split; [done|]. split; [done|].
      by rewrite Hrest, concat_app, app_nil_r.
    + constructor; [done..| |done]. exists heard, rest. unfold heard_so_far. cbn. by rewrite Eb.
Qed.

Lemma acts_sound l n sent (s : System L Cmd Msg) :
  Forall calm l → sound (wakes l + n) sent s → wp (acts h l) (fun _ s' => sound n (sent ++ asked l) s') s.
Proof.
  revert n sent s. induction l as [|a l IH]; intros n sent s Hl Hs; cbn [acts].
  { apply wp_ret. by rewrite app_nil_r. }
  inversion_clear Hl as [|? ? Ha Hl']. apply wp_bind. eapply wp_mono; [apply (act_sound a (wakes l + n)); [done|]|].
  - assert (E : wakes (a :: l) + n = (if is_wake a then 1 else 0) + (wakes l + n)).
    { unfold wakes, countb. cbn [List.filter]. destruct (is_wake a); cbn [length]; lia. }
    by rewrite <- E.
  - cbv beta. intros _ s' Hs'. apply (IH n) in Hs'; [|done]. change (asked (a :: l)) with (asked ([a] ++ l)).
    unfold asked in *. by rewrite omap_app, app_assoc.
Qed.

(** The story the application hears. *)
Definition hears (l : list (Act Cmd Env)) (s : System L Cmd Msg) (heard rest : list Msg) : Prop :=
  sy_taken s ++ ch_queue (sy_channel s) = asked l ∧ heard_so_far s heard rest ∧ story heard ∧
  (Forall exact heard → mapM read_js (br_received (sy_bridge s)) = Some heard).

Lemma system_hears l (t : L) :
  Forall calm l → fit (wakes l) t → (length (emitted t) <= 1)%nat →
  wp (acts h l) (fun _ s => told (sy_thread s) ∧ (sy_running s = false → ended (sy_thread s)) ∧
    ∃ heard rest, hears l s heard rest) (system_new t).
Proof.
  intros Hl Ht H1. eapply wp_mono; [apply (acts_sound l 0 []); [done|]|].
  - rewrite N.add_0_r. by apply system_new_sound.
  - cbv beta. intros _ s [_ Htold Hend (heard & rest & Hh) Hc]. do 2 (split; [done|]). exists heard, rest.
    split; [done|]. split; [done|]. destruct Hh as (Hr & He & _). split.
    + apply (story_prefix heard rest). rewrite <- He. by apply told_story.
    + intros Hex. rewrite Hr. by apply read_delivered.
Qed.
End sound.

(** ** The client *)

Lemma lifecycle_prefix evs more : (∃ l, lifecycle (evs ++ more) = Some l) → ∃ l, lifecycle evs = Some l.
Proof.
  intros [l Hl]. unfold lifecycle in *. rewrite foldl_app in Hl. destruct (foldl _ _ evs) as [l0|]; [by exists l0|].
  exfalso. induction more; [done|by apply IHmore].
Qed.

Section client.
Context {C : Type} {quic : Quic C} {quic_laws : QuicLaws C} {qloop : QuicLoop C} {qloop_laws : QuicLoopLaws C}.
Context {alloc : Allocator} {alloc_laws : AllocatorLaws} {qpack : Qpack} {sfv : Sfv}.

#[export] Instance client_thread : Thread (Driver.Driver C) Driver.Command Ev Driver.Wake := {|
  wake_up env cmds inflight := Driver.iteration (Driver.mkWake (Driver.wk_poll env) (Driver.wk_no_events env)
    (Driver.wk_packets env) cmds inflight (Driver.wk_order env) (Driver.wk_sends env));
  emitted := Driver.dr_batches;
|}.
#[export] Program Instance client_thread_laws : ThreadLaws (Driver.Driver C) Driver.Command Ev Driver.Wake := {|
  fit _ := Driver.running;
  told := Driver.emitted_ok;
  ended _ := True;
  story evs := ∃ l, lifecycle evs = Some l;
  fair _ := True;
|}.
Next Obligation. intros n d. apply Driver.running_ok. Qed.
Next Obligation. done. Qed.
Next Obligation. by intros d [? _]. Qed.
Next Obligation. intros evs more. apply lifecycle_prefix. Qed.
Next Obligation.
  intros n env cmds inflight d _ Hd. eapply wp_mono; [by apply Driver.client_wake_ok|]. cbv beta.
  intros [] d' [H1 H2]; (split; [done|exact H2]).
Qed.

(** C3: a client, from the application's calls to what it is told.  From a
    successful setup, whatever packets, timers and socket errors the
    environment brings and however the application's calls and callbacks
    interleave with the thread's wakes, no wake panics; the thread takes exactly
    the commands asked for, in order, with their ids and bytes intact; and the
    objects the application's callback is given are those of a beginning of the
    events emitted, the rest being on its way: they follow the lifecycle, can be
    read back, and when nothing is on its way any more and the session is
    published as closed, exactly one of them says so. *)
Theorem client_story (su : Driver.Setup C) (d d0 : Driver.Driver C) sends (h : N)
    (l : list (Act Driver.Command Driver.Wake)) :
  Driver.setup_and_run su = Ok d → Driver.send_packets sends d = Some ((), d0) → Forall calm l →
  wp (acts h l) (fun _ s =>
    sy_taken s ++ ch_queue (sy_channel s) = asked l ∧
    ∃ heard rest, br_received (sy_bridge s) = map ev_to_js heard ∧
      concat (Driver.dr_batches (sy_thread s)) = heard ++ rest ∧
      rest = concat (br_channel (sy_bridge s)) ++ concat (option_list (br_emitting (sy_bridge s))) ∧
      (∃ life, lifecycle heard = Some life) ∧
      (Forall (fun e => safe_event e = true ∧ distinct_headers e) heard →
       mapM read_event (br_received (sy_bridge s)) = Some heard) ∧
      (rest = [] → Driver.sh_closed (Driver.dr_shared (sy_thread s)) = true → countb is_closed_ev heard = 1%nat))
    (system_new d0).
Proof.
  intros Hs Hd Hl. pose proof (Driver.setup_fresh su d Hs) as [Hb _].
  assert (H : Driver.running d0 ∧ Driver.dr_batches d0 = []).
  { unfold Driver.send_packets in Hd. destruct (flush_send _ _ _) as [[ps c]|]; [|done]. injection Hd as <-.
    split; [by apply (Driver.setup_running su)|exact Hb]. }
  destruct H as [Hrun Hnone]. eapply wp_mono; [apply (system_hears h l d0 Hl Hrun); cbn; rewrite Hnone; cbn; lia|].
  cbv beta. intros _ s (Htold & _ & heard & rest & Ha & (Hr & He & Hrest) & Hst & Hex). split; [done|].
  exists heard, rest. do 5 (split; [done|]). intros -> Hc. cbn in He. rewrite app_nil_r in He.
  destruct Htold as (_ & _ & Hone). rewrite <- He. by apply Hone.
Qed.
End client.

(** ** The server *)

Section server.
Context {C : Type} {quic : Quic C} {quic_laws : QuicLaws C} {qloop : QuicLoop C} {qloop_laws : QuicLoopLaws C}.
Context {qserver : QuicServer C}.
Context {alloc : Allocator} {alloc_laws : AllocatorLaws} {qpack : Qpack} {sfv : Sfv} {sha : Sha256}.
Context (setup : Server.ServerSetup) (local_addr : SocketAddr) (token_secret : bytes).

(** A wake that ends the loop ends the thread, which says so. *)
Definition server_wake (env : Server.ServerWake) (cmds : list Server.ServerCommand) (inflight : Z)
    : M (Server.Server C) bool :=
  go ← Server.iteration setup local_addr token_secret Server.server_memory.1
    (Server.mkServerWake (Server.sw_polled env) (Server.sw_packets env) cmds inflight
      (Server.sw_client_order env) (Server.sw_stream_order env) (Server.sw_sends env));
  _ ← when (negb go) Server.say_closed;
  mret go.

#[local] Instance server_thread : Thread (Server.Server C) Server.ServerCommand Server.ServerMsg Server.ServerWake := {|
  wake_up := server_wake;
  emitted := Server.sv_batches;
|}.
#[local] Program Instance server_thread_laws :
    ThreadLaws (Server.Server C) Server.ServerCommand Server.ServerMsg Server.ServerWake := {|
  fit n s := ∃ k, steady k s ∧ k + 1024 * n < U64;
  told := ServerInv.told;
  ended s := Server.sv_closed s = true ∧ last (Server.sv_batches s) = Some [Server.ServerClosed];
  story msgs := ∀ i, ∃ l, lifecycle (reported i msgs) = Some l;
  fair := complete;
|}.
Next Obligation. by intros n s (k & [_ ?] & _). Qed.
Next Obligation. intros n s (k & Hs & Hk). exists k. split; [done|lia]. Qed.
Next Obligation. by intros s [? _]. Qed.
Next Obligation. intros msgs more H i. specialize (H i). rewrite reported_app in H. by eapply lifecycle_prefix. Qed.
Next Obligation.
  intros n env cmds inflight s Hall (k & Hs & Hk). cbn. unfold server_wake. apply wp_bind.
  eapply wp_mono; [apply (server_wake_ok setup local_addr token_secret k); [done|lia|exact Hall]|]. cbv beta.
  intros go s' [[[Ht Hgo] Hb] _]. apply wp_bind. destruct go; cbn [negb when].
  - apply wp_ret, wp_ret. split; [|exact Hb]. exists (k + 1024). split; [done|lia].
  - apply wp_modify, wp_ret. split; [split; [by apply (told_snoc Server.ServerClosed)|]|].
    + split; [done|]. cbn. by rewrite last_snoc.
    + exists [[Server.ServerClosed]]. split; [cbn; by rewrite Hb|cbn; lia].
Qed.

(** C4: a server, from the application's calls to what it is told.  Once the
    server listens, whatever packets, tokens and timers the environment brings
    and however the application's calls and callbacks interleave with the
    thread's wakes, no wake panics; the thread takes exactly the commands asked
    for, in order, each for the session it was meant for; and the objects the
    application's callback is given are those of a beginning of the messages
    emitted, the rest being on its way: those of each session follow the
    lifecycle, all can be read back, and when the thread has ended and nothing
    is on its way any more, the last of them is that the server has closed. *)
Theorem server_story e (t : Server.Server C) (h : N) (l : list (Act Server.ServerCommand Server.ServerWake)) :
  Server.start setup e = Ok local_addr →
  Server.run_inner setup e token_secret [] (Server.server_new C []) = Some (true, t) →
  1 + 1024 * wakes l < U64 → Forall calm l →
  wp (acts h l) (fun _ s =>
    sy_taken s ++ ch_queue (sy_channel s) = asked l ∧
    ∃ heard rest, br_received (sy_bridge s) = map server_msg_to_js heard ∧
      concat (Server.sv_batches (sy_thread s)) = heard ++ rest ∧
      rest = concat (br_channel (sy_bridge s)) ++ concat (option_list (br_emitting (sy_bridge s))) ∧
      (∀ i, ∃ life, lifecycle (reported i heard) = Some life) ∧
      (Forall (fun m => safe_msg m = true ∧ distinct_msg m) heard →
       mapM read_server_msg (br_received (sy_bridge s)) = Some heard) ∧
      (sy_running s = false → rest = [] →
       Server.sv_closed (sy_thread s) = true ∧ last heard = Some Server.ServerClosed))
    (system_new t).
Proof.
  intros He Ht0 Hn Hl. unfold Server.run_inner in Ht0. rewrite He in Ht0. injection Ht0 as <-.
  match goal with |- wp _ _ (system_new ?t0) => set (t := t0) end.
  assert (Ht : fit (wakes l) t) by (exists 1; split; [by apply (server_new_inv (C := C) (Server.Listening _))|done]).
  eapply wp_mono; [apply (system_hears h l t Hl Ht); cbn; lia|].
  cbv beta. intros _ s (_ & Hend & heard & rest & Ha & (Hr & Hem & Hrest) & Hst & Hex). split; [done|].
  exists heard, rest. do 5 (split; [done|]). intros Hrun ->. destruct (Hend Hrun) as [Hc Hlast]. split; [done|].
  cbn in Hem. rewrite app_nil_r in Hem. rewrite <- Hem.
  apply last_Some in Hlast as (bs & ->). by rewrite concat_app, last_app.
Qed.
End server.

(** ** Concrete runs

    The client and the server of [Driver.Example] and [ServerLoop.Example], asked
    for what they are given there, the calls and callbacks interleaved with the
    wakes. *)
Module Example.
#[local] Existing Instance exact_allocator.
#[local] Existing Instance literal_qpack.
#[local] Existing Instance rfc9651.
#[local] Existing Instance zero_digest.
#[local] Existing Instance zero_digest_laws.

Definition deliver : list (Act Driver.Command Driver.Wake) := [HandOver true; Callback None].
Definition client_acts : list (Act Driver.Command Driver.Wake) :=
  let wake i := Wakes (Driver.Example.wake match Driver.Example.wakes !! i with
    | Some wk => Driver.wk_packets wk | None => [] end []) 9 in
  [wake 0%nat; Ask (Driver.OpenStream 1 true); wake 1%nat] ++ deliver ++
  [Ask (Driver.Write 4 (s2b "hi") 2); Ask (Driver.Close 5 (s2b "bye")); wake 2%nat] ++ deliver ++
  [wake 3%nat; wake 4%nat] ++ deliver ++ [wake 5%nat] ++ deliver.
Definition client_start : option (() * Driver.Driver ToyConn) :=
  match Driver.setup_and_run Driver.Example.setup with
  | Ok d => Driver.send_packets [] d
  | Err _ => None
  end.
Definition client_run : option (() * System (Driver.Driver ToyConn) Driver.Command Ev) :=
  '(_, d0) ← client_start; acts 3 client_acts (system_new d0).

Lemma client_acts_calm : Forall calm client_acts.
Proof. repeat (apply Forall_cons; split; [first [exact I|reflexivity]|]). by apply Forall_nil. Qed.

(** What a run came to. *)
Definition outcome (s : System (Driver.Driver ToyConn) Driver.Command Ev) :=
  (Driver.sh_closed (Driver.dr_shared (sy_thread s)), br_channel (sy_bridge s), br_emitting (sy_bridge s),
   ch_queue (sy_channel s), concat (Driver.dr_batches (sy_thread s))).
Definition client_events : list Ev :=
  [EvReady (Some (s2b "moq-00")) [(s2b "wt-protocol", [x22] ++ s2b "moq-00" ++ [x22])]; EvStreamOpened 1 4; EvWriteAck 2;
   EvClosed 5 (s2b "bye") false].

Lemma client_story_witness :
  ∃ d0 s, client_start = Some ((), d0) ∧ acts 3 client_acts (system_new d0) = Some ((), s) ∧
    sy_taken s = [Driver.OpenStream 1 true; Driver.Write 4 (s2b "hi") 2; Driver.Close 5 (s2b "bye")] ∧
    mapM read_event (br_received (sy_bridge s)) = Some client_events ∧ countb is_closed_ev client_events = 1%nat.
Proof.
  destruct client_start as [[[] d0]|] eqn:Es; [|].
  2: { pose proof (f_equal (fun o => match o with Some _ => true | None => false end) Es) as Hb.
    vm_compute in Hb. discriminate Hb. }
  exists d0.
  assert (Hset : ∃ d, Driver.setup_and_run Driver.Example.setup = Ok d ∧ Driver.send_packets [] d = Some ((), d0)).
  { unfold client_start in Es. destruct (Driver.setup_and_run Driver.Example.setup) as [d|]; [by exists d|discriminate]. }
  destruct Hset as (d & Ed & Es').
  pose proof (client_story Driver.Example.setup d d0 [] 3 client_acts Ed Es' client_acts_calm) as H.
  apply wp_elim in H as ([] & s & E & Hask & heard & rest & Hr & Hb & Hrest & _ & Hread & Hone). exists s.
  split; [reflexivity|]. split; [exact E|].
  assert (Er : client_run = Some ((), s)) by (unfold client_run; rewrite Es; exact E).
  pose proof (f_equal (fun o => match o with Some (_, s) => Some (outcome s) | None => None end) Er) as Hc.
  cbv beta iota in Hc.
  match type of Hc with ?a = _ => replace a with (Some (true, @nil (list Ev), @None (list Ev), @nil Driver.Command, client_events))
    in Hc by (vm_compute; reflexivity) end.
  injection Hc as H1 H2 H3 H4 H5. rewrite <- H2, <- H3 in Hrest. cbn in Hrest. subst rest. rewrite app_nil_r in Hb.
  rewrite <- H4, app_nil_r in Hask. split; [exact Hask|]. rewrite <- H5 in Hb. subst heard.
  split; [|exact (Hone eq_refl (eq_sym H1))]. apply Hread.
  repeat (apply Forall_cons; split; [split; [reflexivity|exact I]|]). by apply Forall_nil.
Defined.

Definition deliver_server : list (Act Server.ServerCommand Server.ServerWake) := [HandOver true; Callback None].
Definition server_acts : list (Act Server.ServerCommand Server.ServerWake) :=
  let wake i := Wakes (ServerLoop.Example.wake match ServerLoop.Example.wakes !! i with
    | Some wk => Server.sw_packets wk | None => [] end []) 9 in
  deliver_server ++ [wake 0%nat; wake 1%nat; wake 2%nat] ++ deliver_server ++
  [Ask (Server.ForSession 1 (Server.OpenStream 7 true)); Ask (Server.ForSession 9 Server.Drain); wake 3%nat] ++ deliver_server ++
  [Ask (Server.ForSession 1 (Server.CloseSession 5 (s2b "bye"))); wake 4%nat; wake 5%nat; wake 6%nat] ++ deliver_server ++
  [Ask Server.Shutdown; wake 7%nat] ++ deliver_server.
Definition server_start : option (bool * Server.Server ToyConn) :=
  Server.run_inner ServerLoop.Example.setup ServerLoop.Example.started ServerLoop.Example.secret [] (Server.server_new ToyConn []).
Definition server_run : option (() * System (Server.Server ToyConn) Server.ServerCommand Server.ServerMsg) :=
  '(_, t) ← server_start;
  acts (thread := server_thread ServerLoop.Example.setup ServerLoop.Example.local ServerLoop.Example.secret) 4 server_acts
    (system_new (thread := server_thread ServerLoop.Example.setup ServerLoop.Example.local ServerLoop.Example.secret) t).

Abbreviation server_side := (server_thread (C := ToyConn) ServerLoop.Example.setup ServerLoop.Example.local ServerLoop.Example.secret).
Lemma server_acts_calm :
  Forall (calm (thread := server_side)
    (laws := server_thread_laws ServerLoop.Example.setup ServerLoop.Example.local ServerLoop.Example.secret)) server_acts.
Proof. repeat (apply Forall_cons; split; [first [exact I|reflexivity|by intros keys]|]). by apply Forall_nil. Qed.

Definition server_outcome (s : System (Server.Server ToyConn) Server.ServerCommand Server.ServerMsg) :=
  (sy_running s, br_channel (sy_bridge s), br_emitting (sy_bridge s), ch_queue (sy_channel s),
   concat (Server.sv_batches (sy_thread s))).
Definition server_messages : list Server.ServerMsg :=
  [Server.Listening 4433;
   Server.SessionMsg 1 (EvServerReady (s2b "example.org") (s2b "/chat") None [] [s2b "moq-00"] (Some (s2b "moq-00"))
     (s2b "127.0.0.1") 50000);
   Server.SessionMsg 1 (EvStreamOpened 7 1); Server.SessionMsg 1 (EvClosed 5 (s2b "bye") false); Server.ServerClosed].

Lemma server_story_witness :
  ∃ t s, server_start = Some (true, t) ∧
    acts (thread := server_side) 4 server_acts (system_new (thread := server_side) t) = Some ((), s) ∧
    sy_taken s = asked server_acts ∧
    mapM read_server_msg (br_received (sy_bridge s)) = Some server_messages ∧
    Server.sv_closed (sy_thread s) = true ∧ last server_messages = Some Server.ServerClosed.
Proof.
  assert (Hset : ∃ t, server_start = Some (true, t)) by (eexists; reflexivity). destruct Hset as [t Es].
  pose proof (server_story ServerLoop.Example.setup ServerLoop.Example.local ServerLoop.Example.secret
    ServerLoop.Example.started t 4 server_acts eq_refl Es eq_refl server_acts_calm) as H.
  apply wp_elim in H as ([] & s & E & Hask & heard & rest & Hr & Hb & Hrest & _ & Hread & Hend).
  exists t, s. split; [exact Es|]. split; [exact E|].
  assert (Er : server_run = Some ((), s)) by (unfold server_run; rewrite Es; exact E).
  pose proof (f_equal (fun o => match o with Some (_, s) => Some (server_outcome s) | None => None end) Er) as Hc.
  cbv beta iota in Hc.
  match type of Hc with ?a = _ => replace a with (Some (false, @nil (list Server.ServerMsg),
    @None (list Server.ServerMsg), @nil Server.ServerCommand, server_messages)) in Hc by (vm_compute; reflexivity) end.
  injection Hc as H1 H2 H3 H4 H5. rewrite <- H2, <- H3 in Hrest. cbn in Hrest. subst rest. rewrite app_nil_r in Hb.
  rewrite <- H4, app_nil_r in Hask. split; [exact Hask|]. rewrite <- H5 in Hb. subst heard.
  split; [|exact (Hend (eq_sym H1) eq_refl)]. apply Hread.
  repeat (apply Forall_cons; split; [split; [reflexivity|first [exact I|apply (bool_decide_unpack _); vm_compute; exact I]]|]).
  by apply Forall_nil.
Defined.
End Example.
